(* ===== verification/_CoqProject ===== *)
-Q . S2P
Prelude.v
Numerals.v
Gob.v
Labgob.v
Persister.v
Raft.v
RaftNode.v
RaftSpec.v
RaftReplication.v
RaftProtocol.v
RaftLog.v
RaftNet.v
RaftSim.v
RaftSafety.v
RaftElect.v
RaftProgress.v
RaftTest.v
RaftAgree.v
RaftExamples.v
KVRpc.v
KVSrv.v
KvModel.v
Lock.v
RSM.v
Replicas.v
KVRaft.v
Linearizable.v
ReplicasRun.v
KVReplicas.v
NoSnapshots.v
KVClerk.v
KVHistory.v
ReplicasLive.v
ShardCfg.v
MrWorker.v
MrApps.v
MrPlugins.v
MapReduce.v
MrMain.v
LabRpc.v
RpcCall.v
Tester.v
ClerkNet.v
TestConfig.v
Annotation.v
TestRun.v
KvTest.v
Porcupine.v
KvClerks.v
KvAppend.v
KvSpawn.v
ShardKv.v
ServiceTests.v
ShardTests.v
ConcurCtrler.v
