(* ===== verification/Prelude.v ===== *)
(** * A verification library for the MIT 6.5840 labs repository

    The repository (Go, under src/6.5840/src) implements the labs of a course on
    distributed systems: MapReduce, a single-server key/value service with a
    lock built on it, the Raft consensus protocol, a replicated state machine and
    a key/value service on top of Raft, and the configurations of a sharded
    key/value service.  The labs run on a simulated network (labrpc) under a
    tester that starts, stops and partitions servers.

    ** Files

    - Prelude.v (this file): notation, the bind notation of the option monad in
      which [None] is a run-time panic, tactics, the hint database [go], Go
      slices, 32- and 64-bit integers, the hash of hash/fnv, and reachability of
      transition systems.
    - Numerals.v: decimal numerals in names, printed and scanned.
    - Gob.v: the interface [Gob] of labgob and encoding/gob as its users see it:
      encoders append values, decoders read them back; an instance for countable
      types shows that the laws can be met.
    - Labgob.v: labgob/labgob.go, the checks of types and values that the wrapper
      adds to encoding/gob.
    - Persister.v: tester1/persister.go.
    - Raft.v: raft1/raft.go, one peer.  [Raft] is the struct; each method that
      runs under [rf.mu] is one function of the same name; a method that
      releases the lock around an RPC is split there ([sendAppendEntriesToPeer]
      prepares the call, [handleAppendEntriesReply] and
      [handleInstallSnapshotReply] treat the reply, [startElection] and
      [handleRequestVoteReply] likewise); [tickerStep], [applierStep] and
      [sendHeartbeats] are one iteration of the loops of ticker, applierLoop and
      sendHeartbeats.  Goroutines and messages a method starts are results.
    - RaftNode.v, RaftSpec.v, RaftReplication.v: the invariants and the functional
      behaviour of one peer, driven by any sequence of calls, crashes and
      restarts ([peer_reachable]).
    - RaftProtocol.v: Raft as an abstract protocol of terms, votes and full logs,
      with its safety properties; RaftLog.v: the full log of which a peer keeps a
      suffix.
    - RaftNet.v: a cluster of peers, the RPCs in flight (delivered at most once,
      delayed, reordered or lost), the goroutines that wait for the lock, the
      shared vote counters, crashes and restarts ([cluster_reachable]); RaftSim.v:
      an executable scheduler for it; RaftSafety.v: the cluster refines the
      protocol.
    - RaftElect.v, RaftProgress.v: runs of the cluster in which only a majority of
      the servers moves, an election and the replication of a log in such a run.
    - RaftTest.v, RaftAgree.v: raft1/server.go and the checks of raft1/test.go, the
      service that reads what Raft applies in its tests and how the tests wait for
      agreement.
    - RaftExamples.v: a concrete run of three servers that satisfies the
      hypotheses of the Raft theorems.
    - KVRpc.v, KVSrv.v: kvsrv1/rpc, kvsrv1/server.go and client.go; the clerk
      retries against a schedule of lost requests, lost replies and requests of
      other clients.
    - KvModel.v: models1/kv.go, the sequential specification that the tests check
      histories against, and the refinement of it by the server and the clerk.
    - Lock.v: kvsrv1/lock/lock.go, any number of clients as a transition system.
    - RSM.v: kvraft1/rsm/rsm.go, applyReader and concurrent Submits as a transition
      system over the interface [StateMachine]; Raft is its environment.
    - Replicas.v, Linearizable.v: the services of a whole cluster of RaftNet.v, the
      concurrent calls of Submit on them and the history of their results;
      ReplicasRun.v: an executable scheduler and concrete runs; KVReplicas.v: the
      replicated key/value store in these terms; NoSnapshots.v: services that take
      no snapshots; KVClerk.v: the replicated clerk's Put; KVHistory.v: any number of
      clerks that call the cluster, with the history of what they return;
      ReplicasLive.v: a Submit that completes in a majority.
    - KVRaft.v: kvraft1/server.go and client.go and the counter of
      kvraft1/rsm/server.go, the two instances of [StateMachine].
    - ShardCfg.v: shardkv1/shardcfg/shardcfg.go; ShardKv.v: the skeletons of the
      controller, the clerks and the servers of the sharded service, and what
      their comments promise of a controller.
    - MrWorker.v, MrApps.v, MrPlugins.v, MapReduce.v: mr/worker.go,
      main/mrsequential.go, the applications of mrapps, mr/coordinator.go and a job
      of a coordinator, its workers and the file system; MrMain.v:
      main/mrcoordinator.go and main/mrworker.go, the programs that run a job.
    - LabRpc.v, RpcCall.v: labrpc/labrpc.go, the network's tables, dispatch and
      processReq on bytes; a call from the encoding of its argument to the
      decoding of its reply, and the services made from methods.
    - Tester.v, TestConfig.v: tester1/group.go, srv.go and clnts.go, servers and
      clients on that network; tester1/config.go, the configuration of a test;
      TestRun.v: the rest of config.go and how the tests of the services begin and
      end, with the time limit and what Cleanup stops.
    - ClerkNet.v: the clerk of kvsrv1 making its calls through Clnt.Call, RpcCall.v
      and LabRpc.v to the service of its server, whose handlers may outlive a call.
    - Annotation.v: tester1/annotation.go.
    - KvTest.v, KvAppend.v, KvSpawn.v, Porcupine.v: kvtest1/kvtest.go and
      porcupine.go, the clients that put or append concurrently against the server
      of kvsrv1, how they are started and stopped, the log of operations that is
      checked and what becomes of the verdict; KvClerks.v: the functions of the
      tests that call a clerk, as programs over
      the interface of one.
    - ServiceTests.v, ShardTests.v: kvraft1/test.go, kvraft1/rsm/test.go, the
      Partitioner and shardkv1/test.go, what these tests decide; ConcurCtrler.v: the
      goroutines of concurCtrler, which change the configuration concurrently.

    How they interact: RSM.v and Replicas.v use a service through [StateMachine]
    and are instantiated by KVRaft.v; everything that is persisted or sent goes
    through [Gob]; RaftTest.v reads the messages of Raft.v; KvModel.v, KVReplicas.v
    and KvTest.v relate the key/value services to what the tests check; the tests
    call a clerk through [IKVClerk] and a shard controller through [ShardCtrler],
    and [ExclusiveClerk], [SoleCtrler] and [SharedCtrler] are what they may rely on:
    the clerk of kvsrv1 is an instance of the first, the skeleton of the controller
    is none of the others.  KVHistory.v runs the clerk and the handlers of KVRaft.v
    on the calls of Submit of Linearizable.v, and MrMain.v the program of the
    coordinator on the job of MapReduce.v.

    ** What the theorems show

    Raft: at most one leader per term in a cluster with crashes and an unreliable
    network (RaftNet); Log Matching, Leader Completeness, State Machine Safety,
    absence of panics and refinement of an append-only log of decided commands
    (RaftSafety), proved through the protocol of RaftProtocol; the invariant of a
    peer under arbitrary calls, recovery of term, vote, log and snapshot position
    from the persister, one vote per term across restarts, in-order application
    and the exact condition of a vote (RaftSpec); the log after AppendEntries,
    the conflict hints and how the leader uses them, the commit rule, Snapshot and
    InstallSnapshot (RaftReplication).  The tests' own service accepts what Raft
    sends it, its snapshots survive, its leader check cannot fail because of two
    leaders, and its agreement check means agreement (RaftTest, RaftAgree).
    Progress (RaftElect, RaftProgress): from every reachable state of a cluster of
    at least two servers, and for every majority of its servers, there is a run in
    which only these servers take steps (the goroutines of a live instance do not
    vanish) that elects one of them and commits a new command on all of them; a
    cluster of one server never has a leader.

    Replication: on applyCh the applier loop of a peer, which sends its batches in
    order, and the goroutines of InstallSnapshot, which send one snapshot each, are
    different senders, and the service receives from any of them.  Replicas hold
    the state of a prefix of one decided log and the concurrent calls of Submit are
    linearizable in the runs in which every service receives its messages in order
    (the policy [receive_ok] restricts to them), each command the next one and no
    snapshot older than what it has executed (Replicas, Linearizable); this is every
    run for services that take no snapshots (NoSnapshots).  The code does not see to
    it: replicas diverge when a peer hands its service an old snapshot, and also when
    a new one overtakes a batch of commands (ReplicasRun).  Whatever happened before,
    in any order, a majority that is left alone can bring a Submit to its end with OK
    and the result of its command (ReplicasLive).  Where messages are in order, the
    histories of the replicated store are explained by ones that the model of the
    checker accepts (KVReplicas), and so are the histories that the clients of its
    clerks see, retries and ErrMaybe included, provided that they ask for versions
    they can know; a Put with a version from the future can be performed after it has
    returned (KVHistory).

    Key/value: Put is a compare-and-swap, what each result of a retrying Put means
    for the number of times it took effect, refinement of the sequential model and
    linearizability of a single retried Put (KVSrv, KvModel); the clerk that makes
    its calls over the simulated network is the clerk of KVSrv.v under a schedule,
    and its results mean the same, except that a handler that the network has given
    up may still perform a Put that has returned ErrNoKey (ClerkNet); mutual exclusion and
    progress of the lock (Lock); a Submit that returns OK returns the result of its
    own command, the reader never blocks, snapshots are states of prefixes (RSM);
    snapshots of the store round trip, the replicated service executes requests
    like the single-server one, the replicated clerk finds the leader within one
    round (KVRaft), and what its Put returns says how often the store performed it
    (KVClerk).

    Shards: rebalancing terminates, is balanced and stable, and configurations
    after Join and Leave pass CheckConfig (ShardCfg); with a controller that keeps
    what it is given, the groups that a test starts join and leave and every
    configuration on the way passes (ShardTests); the skeletons fail the first
    check of either kind (ShardKv, ShardTests).  Controllers that work at the same
    time never end the test, and the current configuration always has running
    groups only, if a change is made from the current configuration or not at all,
    possibly late, by another controller that recovers it; with controllers that
    overwrite each other it can end (ConcurCtrler).
    MapReduce: reduce tasks start after all maps are done, and a finished job has
    the output of the sequential program, whatever crashed or ran twice, if Map makes
    valid UTF-8 and Reduce does not depend on the order of values (MapReduce); the program of the coordinator returns only then, and a single
    worker can always bring it there (MrMain); word count
    counts words (MrApps), nparallel counts the live workers and jobcount the
    invocations of Map (MrPlugins).

    Network and tester: a reply is that of the one handler run (LabRpc), a call
    that returns true brings what the method computed from the caller's argument on
    the server that the end was connected to (RpcCall), partitions isolate, restarts keep the persisted state (Tester), a
    new configuration is fully connected (TestConfig); a test that ends in time
    stops all that runs, one that is late stops nothing, a restarted server is
    reachable from everywhere, and the random names of ends differ unless 15 random
    bytes are equal (TestRun); labgob complains about
    exactly the lower-case fields and terminates on recursive types (Labgob); the
    fault annotation tells the state of the servers (Annotation); the clients
    of the key/value tests never fail against the server of kvsrv1 and their
    counts bound the version of the key (KvTest), clients that append leave every
    entry of theirs in order (KvAppend), a client alone on its keys passes the
    checks of SpreadPuts and OneClientPut whatever the network loses (KvClerks),
    the Partitioner leaves the servers in two groups that hear only each other
    (ServiceTests), and the clients of a test are all stopped and collected unless
    one of them fails, when the test hangs (KvSpawn).

    ** Fuel and bounds

    Loops that are not structural take the number of iterations as fuel, computed
    by the definition that starts them: [updateCommitLoop] (from the last index
    down to commitIndex), [firstIndexOfTerm] (down to the snapshot),
    [applierBatch] (commitIndex - lastApplied), [decodeAll] (bytes left);
    [balanceLoop] gets 145, one more than the 144 moves that the sum of squares of
    the loads of 12 shards allows, and [Rebalance] is proved to return; [findLeader]
    takes the number of attempts as a parameter and is proved to return within one
    round of a server that answers; [checkType] gets one more than the number of
    types, a type being explored once.  The loops of the tests that retry until
    the time is up take the number of rounds, and what is proved holds for every
    number.  Go's [int] is [Z]; the [uint64] versions of the key/value services
    wrap ([u64]), and theorems about them say how many operations are allowed
    before that; the 32-bit hash and the 32-bit RPC counter
    wrap.  Time is a number of nanoseconds passed in.

    ** Not modelled

    encoding/gob, encoding/json, sort and strings.FieldsFunc are parameters with
    their documented behaviour as hypotheses; reflection is a table of types or of
    methods.  Left out: what is printed, the files of the visualization, the
    linearizability checker, the seeds of random numbers, sleeps, the order of the
    steps of partitionCtrler, which depends on time, and the commands diskvd,
    lockc, lockd, pbc, pbd and viewd of main, whose packages are not part of the
    repository.

    ** Plan

    What would come next: the statistics that the tests bound (RPC counts, bytes),
    the calls of the replicated clerk over the simulated network, and a correction
    of InstallSnapshot - the snapshot sent by the applier loop - under which services
    receive their messages in order with snapshots too. *)

From stdpp Require Export prelude gmap list list_numbers strings fin_maps fin_sets sorting relations functions.
#[export] Set Default Goal Selector "!".

(** ** Notation and automation of the library *)

Declare Scope go_scope.
Delimit Scope go_scope with go.

(** The shared hint database: list lengths, slice operations and arithmetic
    side conditions of the models. *)
Create HintDb go.

(** [len l] is Go's [len(l)], an [int]. *)
Abbreviation len l := (Z.of_nat (length l)).

Ltac split_if :=
  match goal with
  | |- context [if ?b then _ else _] => destruct b eqn:?
  | H : context [if ?b then _ else _] |- _ => destruct b eqn:?
  end.

(** Turn the boolean guards of the code into propositions. *)
Ltac bool_to_prop :=
  repeat match goal with
  | H : (_ && _) = true |- _ => apply andb_true_iff in H as [? ?]
  | H : (_ && _) = false |- _ => apply andb_false_iff in H
  | H : (_ || _) = true |- _ => apply orb_true_iff in H
  | H : (_ || _) = false |- _ => apply orb_false_iff in H as [? ?]
  | H : negb _ = true |- _ => apply negb_true_iff in H
  | H : negb _ = false |- _ => apply negb_false_iff in H
  | H : (_ <? _)%Z = true |- _ => apply Z.ltb_lt in H
  | H : (_ <? _)%Z = false |- _ => apply Z.ltb_ge in H
  | H : (_ <=? _)%Z = true |- _ => apply Z.leb_le in H
  | H : (_ <=? _)%Z = false |- _ => apply Z.leb_gt in H
  | H : (_ =? _)%Z = true |- _ => apply Z.eqb_eq in H
  | H : (_ =? _)%Z = false |- _ => apply Z.eqb_neq in H
  | H : bool_decide _ = true |- _ => apply bool_decide_eq_true in H
  | H : bool_decide _ = false |- _ => apply bool_decide_eq_false in H
  end.

(** Peel one bind of the option monad off a hypothesis [m ≫= k = Some r]. *)
Ltac inv_bind :=
  repeat match goal with
  | H : (_ ≫= _) = Some _ |- _ => apply bind_Some in H as (? & ? & ?)
  | H : Some _ = Some _ |- _ => injection H as H
  | H : None = Some _ |- _ => discriminate H
  | H : (_, _) = (_, _) |- _ => injection H as ? ?
  end.

(** Compute [Some x ≫= k] without unfolding anything else. *)
Ltac obind := cbn [mbind option_bind].

Open Scope Z_scope.

(** ** Go integers

    [int] is 64 bits on the platforms the labs run on.  Indices, terms and
    counters are modelled as [Z]; the one counter whose wrap-around is visible to
    clients, the [uint64] version of the key/value services, is kept at its
    width with [u64]. *)

Definition u64 (z : Z) : Z := z mod 2 ^ 64.
Definition u32 (z : Z) : Z := z mod 2 ^ 32.
Definition i32 (z : Z) : Z := (z + 2 ^ 31) mod 2 ^ 32 - 2 ^ 31.

Definition is_u64 (z : Z) : Prop := 0 <= z < 2 ^ 64.

Lemma u64_range z : is_u64 (u64 z).
Proof. unfold is_u64, u64. apply Z.mod_pos_bound. lia. Qed.

Lemma u64_small z : is_u64 z → u64 z = z.
Proof. unfold is_u64, u64. intros. by apply Z.mod_small. Qed.

Lemma u64_succ_ne z : is_u64 z → u64 (z + 1) ≠ z.
Proof.
  unfold is_u64, u64. intros Hz.
  destruct (decide (z + 1 = 2 ^ 64)) as [He|Hne].
  - rewrite He, Z.mod_same by lia. lia.
  - rewrite Z.mod_small by lia. lia.
Qed.

(** ** hash/fnv

    The hash behind Key2Shard and ihash: 32-bit FNV-1a over the bytes of a
    string. *)

Definition fnv_offset : Z := 2166136261.
Definition fnv_prime : Z := 16777619.

Fixpoint fnv1a (h : Z) (key : string) : Z :=
  match key with
  | EmptyString => h
  | String c key => fnv1a (u32 (Z.lxor h (Z.of_N (Ascii.N_of_ascii c)) * fnv_prime)) key
  end.

Lemma fnv1a_range key : ∀ h, 0 <= h < 2 ^ 32 → 0 <= fnv1a h key < 2 ^ 32.
Proof.
  induction key as [|c key IH]; intros h Hh; [done|]. simpl. apply IH.
  unfold u32. apply Z.mod_pos_bound. lia.
Qed.

(** Published FNV-1a values. *)
Example fnv1a_values :
  fnv1a fnv_offset "" = 0x811c9dc5 ∧ fnv1a fnv_offset "a" = 0xe40c292c ∧
  fnv1a fnv_offset "foobar" = 0xbf9cf968.
Proof. by vm_compute. Qed.

(** ** Go slices

    A slice is a [list].  Indexing is partial, [None] being the run-time panic
    of an index out of range; an operation of the model that returns [None] has
    panicked. *)

Section Slices.
Context {A : Type}.
Implicit Types l : list A.

(** [l[i]] *)
Definition go_nth l (i : Z) : option A :=
  if 0 <=? i then l !! Z.to_nat i else None.

(** [l[i] = x] *)
Definition go_set l (i : Z) (x : A) : option (list A) :=
  if (0 <=? i) && (i <? len l) then Some (<[Z.to_nat i := x]> l) else None.

(** [l[i:]] *)
Definition go_from l (i : Z) : option (list A) :=
  if (0 <=? i) && (i <=? len l) then Some (drop (Z.to_nat i) l) else None.

(** [l[:i]], for [i] within the length (all the uses in the sources are). *)
Definition go_upto l (i : Z) : option (list A) :=
  if (0 <=? i) && (i <=? len l) then Some (take (Z.to_nat i) l) else None.

(** [make([]T, n)], the elements being the zero value [z] of [T]. *)
Definition go_make (n : Z) (z : A) : option (list A) :=
  if 0 <=? n then Some (replicate (Z.to_nat n) z) else None.

(** The contents of [dst] after [copy(dst, src)]. *)
Definition go_copy (dst src : list A) : list A :=
  take (length dst) src ++ drop (length src) dst.

Lemma go_copy_length dst src : length (go_copy dst src) = length dst.
Proof. unfold go_copy. rewrite length_app, length_take, length_drop. lia. Qed.

Lemma go_copy_exact dst src : length dst = length src → go_copy dst src = src.
Proof.
  intros He. unfold go_copy. rewrite take_ge by lia. rewrite drop_ge by lia.
  apply app_nil_r.
Qed.

Lemma go_nth_Some l i x : go_nth l i = Some x → 0 <= i < len l.
Proof.
  unfold go_nth. destruct (0 <=? i) eqn:?; [|done]. bool_to_prop.
  intros ?%lookup_lt_Some. lia.
Qed.

Lemma go_nth_is_Some l i : is_Some (go_nth l i) ↔ 0 <= i < len l.
Proof.
  split.
  - intros [x Hx]. by eapply go_nth_Some.
  - intros. unfold go_nth. destruct (0 <=? i) eqn:?; bool_to_prop; [|lia].
    apply lookup_lt_is_Some. lia.
Qed.

Lemma go_nth_nat l (n : nat) : go_nth l (Z.of_nat n) = l !! n.
Proof. unfold go_nth. rewrite (proj2 (Z.leb_le 0 _)) by lia. by rewrite Nat2Z.id. Qed.

Lemma go_nth_lookup l i x : go_nth l i = Some x ↔ 0 <= i ∧ l !! Z.to_nat i = Some x.
Proof.
  unfold go_nth. destruct (0 <=? i) eqn:?; bool_to_prop; naive_solver lia.
Qed.

Lemma go_set_Some l i x l' :
  go_set l i x = Some l' ↔ 0 <= i < len l ∧ l' = <[Z.to_nat i := x]> l.
Proof.
  unfold go_set. destruct (_ && _) eqn:?; bool_to_prop; naive_solver lia.
Qed.

Lemma go_set_length l i x l' : go_set l i x = Some l' → length l' = length l.
Proof. intros [? ->]%go_set_Some. by rewrite length_insert. Qed.

Lemma go_from_Some l i l' :
  go_from l i = Some l' ↔ 0 <= i <= len l ∧ l' = drop (Z.to_nat i) l.
Proof.
  unfold go_from. destruct (_ && _) eqn:?; bool_to_prop; naive_solver lia.
Qed.

Lemma go_upto_Some l i l' :
  go_upto l i = Some l' ↔ 0 <= i <= len l ∧ l' = take (Z.to_nat i) l.
Proof.
  unfold go_upto. destruct (_ && _) eqn:?; bool_to_prop; naive_solver lia.
Qed.

Lemma go_set_ok l i x : 0 <= i < len l → go_set l i x = Some (<[Z.to_nat i := x]> l).
Proof. intros. by apply go_set_Some. Qed.

Lemma go_from_ok l i : 0 <= i <= len l → go_from l i = Some (drop (Z.to_nat i) l).
Proof. intros. by apply go_from_Some. Qed.

Lemma go_upto_ok l i : 0 <= i <= len l → go_upto l i = Some (take (Z.to_nat i) l).
Proof. intros. by apply go_upto_Some. Qed.

Lemma go_make_ok (n : Z) (z : A) : 0 <= n → go_make n z = Some (replicate (Z.to_nat n) z).
Proof. intros. unfold go_make. by rewrite (proj2 (Z.leb_le 0 n)). Qed.

Lemma go_nth_set_eq l i x l' : go_set l i x = Some l' → go_nth l' i = Some x.
Proof.
  intros [? ->]%go_set_Some. apply go_nth_lookup. split; [lia|].
  apply list_lookup_insert_eq. lia.
Qed.

Lemma go_nth_set_ne l i j x l' :
  go_set l i x = Some l' → i ≠ j → go_nth l' j = go_nth l j.
Proof.
  intros [? ->]%go_set_Some Hne. unfold go_nth.
  destruct (0 <=? j) eqn:?; bool_to_prop; [|done].
  apply list_lookup_insert_ne. lia.
Qed.

Lemma go_nth_app_l l k i : i < len l → go_nth (l ++ k) i = go_nth l i.
Proof.
  intros. unfold go_nth. destruct (0 <=? i) eqn:?; bool_to_prop; [|done].
  apply lookup_app_l. lia.
Qed.

Lemma go_nth_take l i (n : nat) : i < Z.of_nat n → go_nth (take n l) i = go_nth l i.
Proof.
  intros. unfold go_nth. destruct (0 <=? i) eqn:?; bool_to_prop; [|done].
  apply lookup_take_lt. lia.
Qed.

Lemma go_nth_drop l i (n : nat) : 0 <= i → go_nth (drop n l) i = go_nth l (i + Z.of_nat n).
Proof.
  intros. unfold go_nth.
  rewrite !(proj2 (Z.leb_le 0 _)) by lia.
  rewrite lookup_drop. f_equal. lia.
Qed.

End Slices.

#[export] Hint Resolve go_set_length : go.

(** ** Majorities

    Two sets of more than half of [n] processes intersect: the counting
    argument under every quorum of the Raft peers. *)

Lemma majority_intersect (n : nat) (Q1 Q2 : gset nat) :
  Q1 ⊆ set_seq 0 n → Q2 ⊆ set_seq 0 n →
  Z.of_nat n / 2 < Z.of_nat (size Q1) → Z.of_nat n / 2 < Z.of_nat (size Q2) →
  ∃ x, x ∈ Q1 ∧ x ∈ Q2.
Proof.
  intros H1 H2 Hs1 Hs2.
  destruct (decide (Q1 ∩ Q2 = ∅)) as [He|Hne].
  - exfalso.
    assert (size (Q1 ∪ Q2) = (size Q1 + size Q2)%nat) as Hsz.
    { apply size_union. set_solver. }
    assert (size (Q1 ∪ Q2) <= size (set_seq (C:=gset nat) 0 n))%nat as Hle.
    { apply subseteq_size. set_solver. }
    rewrite size_set_seq in Hle.
    pose proof (Z.div_mod (Z.of_nat n) 2 ltac:(lia)).
    pose proof (Z.mod_pos_bound (Z.of_nat n) 2 ltac:(lia)). lia.
  - apply set_choose_L in Hne as [x Hx]. exists x. set_solver.
Qed.

(** ** Runs of a transition system

    [reachable init step] is the set of states of the runs of a component;
    invariants are proved by rule induction on it. *)

Section Reachability.
Context {S : Type} (init : S → Prop) (step : S → S → Prop).

Inductive reachable : S → Prop :=
| reach_init s : init s → reachable s
| reach_step s s' : reachable s → step s s' → reachable s'.

Lemma reachable_run s : reachable s → ∃ s0, init s0 ∧ rtc step s0 s.
Proof.
  induction 1 as [s Hs|s s' _ (s0 & Hi & Hr) Hs]; [by exists s|].
  exists s0. split; [done|]. by eapply rtc_r.
Qed.

Lemma reachable_rtc s s' : reachable s → rtc step s s' → reachable s'.
Proof.
  intros Hs Hr. revert Hs. induction Hr as [s|s s1 s' Hstep _ IH]; [done|].
  intros Hs. apply IH. by eapply reach_step.
Qed.

Lemma reachable_invariant (I : S → Prop) :
  (∀ s, init s → I s) → (∀ s s', reachable s → I s → step s s' → I s') →
  ∀ s, reachable s → I s.
Proof. intros Hi Hs s Hr. induction Hr; eauto. Qed.

End Reachability.
