(* ===== verification/Numerals.v ===== *)
(** * Decimal numerals in names

    fmt.Sprintf with %d, which is [pretty], in the names of servers and files,
    and fmt.Sscanf with %d, which reads such a numeral back.  Shared by
    TestConfig.v, ShardTests.v and MrPlugins.v. *)

From Stdlib Require Import Ascii.
From stdpp Require Import pretty.
From S2P Require Import Prelude.

Lemma append_inj (s t u : string) : (s ++ t)%string = (s ++ u)%string → t = u.
Proof. induction s as [|c s IH]; simpl; [done|]. intros [= H]. by apply IH. Qed.

Lemma append_dash (s t : string) : ((s ++ "-") ++ t)%string = (s ++ "-" ++ t)%string.
Proof. induction s as [|c s IH]; [done|]. exact (f_equal (String c) IH). Qed.

(** A numeral of a number that is not negative has no dash. *)
Fixpoint no_dash (s : string) : Prop :=
  match s with
  | EmptyString => True
  | String a s => a ≠ "-"%char ∧ no_dash s
  end.

Lemma pretty_N_no_dash x : ∀ s, no_dash s → no_dash (pretty_N_go x s).
Proof.
  induction (N.lt_wf_0 x) as [x _ IH]; intros s Hs.
  destruct (decide (x = 0%N)) as [ -> |Hx]; [by rewrite pretty_N_go_0|].
  rewrite pretty_N_go_step by lia. apply IH; [apply N.div_lt; lia|]. split; [|done].
  unfold pretty_N_char. by repeat case_match.
Qed.

Lemma pretty_no_dash z : 0 <= z → no_dash (pretty z).
Proof.
  intros Hz. destruct z as [|p|p]; [by split|by apply pretty_N_no_dash|lia].
Qed.

Lemma dash_split s1 : ∀ s2 t1 t2,
  no_dash s1 → no_dash s2 → (s1 ++ "-" ++ t1 = s2 ++ "-" ++ t2)%string → s1 = s2 ∧ t1 = t2.
Proof.
  induction s1 as [|a s1 IH]; intros [|b s2] t1 t2 H1 H2 H; simpl in *.
  - injection H as H. by change (t1 = t2) in H; subst.
  - injection H as H _. destruct H2. congruence.
  - injection H as H _. destruct H1. congruence.
  - injection H as Ha H. subst b. destruct (IH s2 t1 t2) as [-> ->]; [apply H1|apply H2|done|done].
Qed.

(** ** fmt.Sscanf *)

(** [strings.HasPrefix], and what follows the prefix. *)
Fixpoint after_prefix (p s : string) : option string :=
  match p, s with
  | EmptyString, _ => Some s
  | String a p, String b s => if decide (a = b) then after_prefix p s else None
  | _, _ => None
  end.

Lemma after_prefix_app p s : after_prefix p (p ++ s)%string = Some s.
Proof. induction p as [|a p IH]; simpl; [done|]. by rewrite decide_True. Qed.

Lemma after_prefix_Some p s t : after_prefix p s = Some t → s = (p ++ t)%string.
Proof.
  revert s. induction p as [|a p IH]; intros [|b s] H; simpl in *; try done; [by injection H as <-..|].
  case_decide as Hab; [|done]. subst b. by rewrite (IH s H).
Qed.

Definition digit (c : ascii) : option Z :=
  let n := Z.of_N (N_of_ascii c) in
  if (48 <=? n) && (n <=? 57) then Some (n - 48) else None.

(** The longest run of digits; [some]: one has been read. *)
Fixpoint scanDigits (acc : Z) (some : bool) (s : string) : option Z :=
  match s with
  | EmptyString => if some then Some acc else None
  | String c s' =>
      match digit c with
      | Some d => scanDigits (acc * 10 + d) true s'
      | None => if some then Some acc else None
      end
  end.

(** White space of ASCII that %d skips. *)
Definition isSpace (c : ascii) : bool :=
  bool_decide (N_of_ascii c ∈ [9; 11; 12; 32]%N).

Fixpoint skipSpace (s : string) : string :=
  match s with
  | String c s' => if isSpace c then skipSpace s' else s
  | EmptyString => s
  end.

(** %d into an [int]: an error when there is no digit or the number does not fit
    into 64 bits. *)
Definition scanInt (s : string) : option Z :=
  z ← match skipSpace s with
      | String c s' =>
          if decide (c = "-"%char) then Z.opp <$> scanDigits 0 false s'
          else if decide (c = "+"%char) then scanDigits 0 false s'
          else scanDigits 0 false (String c s')
      | EmptyString => None
      end;
  if (- 2 ^ 63 <=? z) && (z <? 2 ^ 63) then Some z else None.

(** [fmt.Sscanf(s, p+"%d", &x)] for a [p] without verbs and spaces. *)
Definition Sscanf_d (p s : string) : option Z := after_prefix p s ≫= scanInt.

Lemma digit_pretty n : (n < 10)%N → digit (pretty_N_char n) = Some (Z.of_N n).
Proof.
  intros Hn. assert (n = 0 ∨ n = 1 ∨ n = 2 ∨ n = 3 ∨ n = 4 ∨ n = 5 ∨ n = 6 ∨ n = 7 ∨ n = 8 ∨ n = 9)%N
    as H by lia.
  by repeat destruct H as [ -> |H]; [..|subst n].
Qed.

Lemma scanDigits_pretty x : ∀ s, (0 < x)%N →
  ∃ k, 0 <= k ∧ ∀ a b, scanDigits a b (pretty_N_go x s) = scanDigits (a * 10 ^ k + Z.of_N x) true s.
Proof.
  induction (N.lt_wf_0 x) as [x _ IH]; intros s Hx. rewrite pretty_N_go_step by done.
  assert (x mod 10 < 10)%N as Hm by (apply N.mod_lt; lia).
  pose proof (N.div_mod x 10 ltac:(lia)) as Hdm.
  destruct (decide (x / 10 = 0)%N) as [Hd|Hd].
  - rewrite Hd, pretty_N_go_0. exists 1. split; [lia|]. intros a b. simpl. rewrite digit_pretty by done.
    f_equal. rewrite Hd in Hdm. lia.
  - destruct (IH (x / 10)%N (N.div_lt x 10 Hx eq_refl) (String (pretty_N_char (x mod 10)) s))
      as (k & Hk & IHk); [lia|].
    exists (k + 1). split; [lia|]. intros a b. rewrite IHk. simpl. rewrite digit_pretty by done.
    f_equal. rewrite Z.pow_add_r by lia. lia.
Qed.

Lemma digit_pretty_head x s : (0 < x)%N → ∃ c t, pretty_N_go x s = String c t ∧ is_Some (digit c).
Proof.
  revert s. induction (N.lt_wf_0 x) as [x _ IH]; intros s Hx. rewrite pretty_N_go_step by done.
  assert (x mod 10 < 10)%N as Hm by (apply N.mod_lt; lia).
  destruct (decide (x / 10 = 0)%N) as [Hd|Hd].
  - rewrite Hd, pretty_N_go_0. eexists _, _. split; [done|]. rewrite digit_pretty by done. by eexists.
  - apply IH; [by apply N.div_lt|by apply N.neq_0_lt_0].
Qed.

(** What %d prints is what %d reads. *)
Lemma scanInt_pretty z : 0 <= z < 2 ^ 63 → scanInt (pretty z) = Some z.
Proof.
  intros Hz. destruct (decide (z = 0)) as [->|Hne]; [done|].
  assert (pretty z = pretty_N_go (Z.to_N z) "") as ->.
  { destruct z as [|p|p]; [done| |lia]. reflexivity. }
  destruct (digit_pretty_head (Z.to_N z) "" ltac:(lia)) as (c & t & Hc & [d Hd]).
  destruct (scanDigits_pretty (Z.to_N z) "" ltac:(lia)) as (k & _ & Hk).
  unfold scanInt. specialize (Hk 0 false). rewrite Hc in Hk |- *.
  assert (isSpace c = false) as Hs.
  { unfold digit in Hd. destruct (_ && _) eqn:Hr in Hd; [|done]. bool_to_prop.
    apply bool_decide_eq_false. set_solver by lia. }
  simpl skipSpace. rewrite Hs. rewrite !decide_False by (intros ->; done). rewrite Hk. simpl.
  replace (Z.of_N (Z.to_N z)) with z by lia.
  rewrite (proj2 (Z.leb_le _ _)), (proj2 (Z.ltb_lt _ _)) by lia. done.
Qed.
