(* ===== verification/Gob.v ===== *)
(** * The encoder that persistence and snapshots go through

    [labgob] (src/6.5840/src/labgob/labgob.go) wraps Go's [encoding/gob], which
    is not part of the repository: an encoder appends the values passed to
    [Encode] to a buffer, a decoder reads them back in order.  [Gob] is the
    interface the servers rely on, with the documented behaviour of
    [encoding/gob] as laws; [CountableGob] shows that it can be met. *)

From S2P Require Import Prelude.
From Stdlib Require Import Init.Byte.

Abbreviation byte := Byte.byte.

(** [V] is the type of the values one program passes to [Encode]. *)
Class Gob (V : Type) := {
  encoder : Type;
  decoder : Type;
  new_encoder : encoder;                      (* labgob.NewEncoder(w) *)
  gob_encode : V → encoder → option encoder;  (* e.Encode(v); None is an error *)
  enc_bytes : encoder → list byte;            (* w.Bytes() *)
  new_decoder : list byte → decoder;          (* labgob.NewDecoder(r) *)
  gob_decode : decoder → option (V * decoder); (* d.Decode(&v); None is an error *)
  (** the values an encoder has written, and those a decoder has left to read *)
  written : encoder → list V;
  pending : decoder → list V → Prop;
  written_new : written new_encoder = [];
  written_encode v e e' : gob_encode v e = Some e' → written e' = written e ++ [v];
  pending_new e : pending (new_decoder (enc_bytes e)) (written e);
  decode_pending d v vs :
    pending d (v :: vs) → ∃ d', gob_decode d = Some (v, d') ∧ pending d' vs;
  enc_bytes_nil e : enc_bytes e = [] → written e = []
}.

(** Every value of [V] is of a type registered with [labgob.Register], so that
    [Encode] does not fail on it. *)
Class GobRegistered (V : Type) `{!Gob V} :=
  gob_encode_ok v e : is_Some (gob_encode v e).

(** Encode a sequence of values, stopping at the first error. *)
Definition encode_all {V} `{!Gob V} (vs : list V) (e : encoder) : option encoder :=
  foldl (λ oe v, e' ← oe; gob_encode v e') (Some e) vs.

(** Encode a sequence of values, ignoring errors ([_ = e.Encode(v)]). *)
Definition encode_ignoring {V} `{!Gob V} (vs : list V) (e : encoder) : encoder :=
  foldl (λ e' v, default e' (gob_encode v e')) e vs.

Section GobLemmas.
Context {V : Type} `{!Gob V}.

Lemma encode_all_None vs : foldl (λ oe (v : V), e' ← oe; gob_encode v e') None vs = None.
Proof. by induction vs. Qed.

Lemma encode_all_written vs : ∀ e e',
  encode_all vs e = Some e' → written e' = written e ++ vs.
Proof.
  unfold encode_all. induction vs as [|v vs IH]; simpl; intros e e' H.
  - injection H as ->. by rewrite app_nil_r.
  - destruct (gob_encode v e) as [e1|] eqn:He.
    + apply IH in H. rewrite H, (written_encode _ _ _ He), <-app_assoc. done.
    + by rewrite encode_all_None in H.
Qed.

Lemma encode_all_registered `{!GobRegistered V} vs : ∀ e, is_Some (encode_all vs e).
Proof.
  unfold encode_all. induction vs as [|v vs IH]; simpl; intros e; [done|].
  destruct (gob_encode_ok v e) as [e1 ->]. apply IH.
Qed.

Lemma encode_ignoring_registered `{!GobRegistered V} vs : ∀ e,
  encode_all vs e = Some (encode_ignoring vs e).
Proof.
  unfold encode_all, encode_ignoring. induction vs as [|v vs IH]; simpl; intros e; [done|].
  destruct (gob_encode_ok v e) as [e1 ->]. apply IH.
Qed.

Lemma encode_decode_1 v (e' : encoder) vs :
  written e' = v :: vs →
  ∃ d, gob_decode (new_decoder (enc_bytes e')) = Some (v, d) ∧ pending d vs.
Proof. intros Hw. apply decode_pending. rewrite <-Hw. apply pending_new. Qed.

End GobLemmas.

(** ** A codec for any countable type

    The bits of stdpp's [encode], one byte each, closed by a terminator. *)

Fixpoint pos_bytes (p : positive) : list byte :=
  match p with
  | xH => [x02]
  | xO p => x00 :: pos_bytes p
  | xI p => x01 :: pos_bytes p
  end.

Fixpoint bytes_pos (bs : list byte) : option (positive * list byte) :=
  match bs with
  | x02 :: bs => Some (xH, bs)
  | x00 :: bs => '(p, r) ← bytes_pos bs; Some (xO p, r)
  | x01 :: bs => '(p, r) ← bytes_pos bs; Some (xI p, r)
  | _ => None
  end.

Lemma bytes_pos_bytes p bs : bytes_pos (pos_bytes p ++ bs) = Some (p, bs).
Proof. induction p as [p IH|p IH|]; simpl; [by rewrite IH..|done]. Qed.

Section CountableGob.
Context {V : Type} `{Countable V}.

Definition val_bytes (v : V) : list byte := pos_bytes (encode v).

Definition val_decode (bs : list byte) : option (V * list byte) :=
  '(p, r) ← bytes_pos bs; v ← decode p; Some (v, r).

#[refine] Definition CountableGob : Gob V := {|
  encoder := list V;
  decoder := list byte;
  new_encoder := [];
  gob_encode v e := Some (e ++ [v]);
  enc_bytes e := e ≫= val_bytes;
  new_decoder bs := bs;
  gob_decode := val_decode;
  written e := e;
  pending d vs := d = vs ≫= val_bytes
|}.
Proof.
  - done.
  - intros v e e' [= <-]. done.
  - done.
  - intros d v vs ->. eexists. split; [|done].
    cbn. unfold val_decode, val_bytes.
    by rewrite bytes_pos_bytes; cbn; rewrite decode_encode.
  - intros [|v e]; [done|]. cbn. unfold val_bytes. by destruct (encode v).
Defined.

#[export] Instance CountableGob_registered : @GobRegistered V CountableGob.
Proof. intros v e. cbn. done. Qed.

End CountableGob.
