(* ===== verification/Labgob.v ===== *)
(** * The encoder's warnings

    Models src/6.5840/src/labgob/labgob.go, the wrapper of encoding/gob: what
    its checks of types ([checkType], which may meet recursive types) and of
    values ([checkDefault]) report.  The types of the program are a table, as
    package reflect shows them; encoding/gob itself is the class [Gob]. *)

From S2P Require Import Prelude Gob.

(** ** Types and values, as seen through package reflect *)

Inductive GoType :=
| TStruct (name : string) (fields : list (string * nat))
| TSlice (elem : nat)
| TArray (elem : nat)
| TPtr (elem : nat)
| TMap (key elem : nat)
| TBasic.

Inductive Scalar := SBool (b : bool) | SInt (z : Z) | SFloat (zero : bool) | SString (s : string).

(** Values, with the names of their types. *)
Inductive GoVal :=
| VStruct (fields : list (string * GoVal))
| VPtr (v : option GoVal)
| VScalar (tname : string) (s : Scalar)
| VOther.

Inductive Warning := LowerCase (field tname : string) | NonDefault (what : string).

(** The variables of the package, and what it has printed. *)
Record LabGob := mkLabGob {
  checked : gset nat;
  errorCount : Z;
  printed : list Warning
}.

Definition lab0 : LabGob := mkLabGob ∅ 0 [].

Definition warn (w : Warning) (st : LabGob) : LabGob :=
  mkLabGob (checked st) (errorCount st + 1) (printed st ++ [w]).

Section Types.
(** The types of the program, and whether a name starts with an upper-case
    letter ([unicode.IsUpper] of its first rune). *)
Context (types : gmap nat GoType) (isUpper : string → bool).

(** ** checkType *)

Definition checkField (rec : nat → LabGob → option LabGob) (tname : string)
    (st : LabGob) (f : string * nat) : option LabGob :=
  rec f.2 (if isUpper f.1 then st else warn (LowerCase f.1 tname) st).

(** A type is met at most once, so the fuel of [checkType] is the number of
    types and one more; [None] is a type that is not in the table. *)
Fixpoint checkTypeFuel (fuel : nat) (t : nat) (st : LabGob) : option LabGob :=
  match fuel with
  | O => None
  | S fuel =>
      k ← types !! t;
      if decide (t ∈ checked st) then Some st
      else
        let st := mkLabGob ({[t]} ∪ checked st) (errorCount st) (printed st) in
        match k with
        | TStruct name fields =>
            foldl (λ ost f, st ← ost; checkField (checkTypeFuel fuel) name st f) (Some st) fields
        | TSlice e | TArray e | TPtr e => checkTypeFuel fuel e st
        | TMap key e => st ← checkTypeFuel fuel e st; checkTypeFuel fuel key st
        | TBasic => Some st
        end
  end.

Definition checkType : nat → LabGob → option LabGob := checkTypeFuel (S (size types)).

(** [checkValue]: the type of the nil interface is nil, and asking for its kind
    panics. *)
Definition checkValue (value : option nat) (st : LabGob) : option LabGob :=
  t ← value; checkType t st.

(** ** checkDefault *)

Definition isDefault (s : Scalar) : bool :=
  match s with
  | SBool b => negb b
  | SInt z => z =? 0
  | SFloat zero => zero
  | SString s => bool_decide (s = "")
  end.

Definition qualify (name field : string) : string :=
  if decide (name = "") then field else (name +:+ "." +:+ field)%string.

(** The warning is printed for the first error only. *)
Definition complain (name tname : string) (st : LabGob) : LabGob :=
  let what := if decide (name = "") then tname else name in
  mkLabGob (checked st) (errorCount st + 1)
    (if errorCount st <? 1 then printed st ++ [NonDefault what] else printed st).

(** [levels] is 4 - depth.  A value that was reached through a field with a
    lower-case name ([ro]) is one that package reflect does not hand out: its
    method [Interface] panics, which is [None].  (Embedded fields are not told
    apart from others.) *)
Fixpoint checkDefault1 (levels : nat) (ro : bool) (value : GoVal) (name : string) (st : LabGob) :
    option LabGob :=
  match levels with
  | O => Some st
  | S levels =>
      match value with
      | VStruct fields =>
          foldl (λ ost f, st ← ost;
                   checkDefault1 levels (ro || negb (isUpper f.1)) f.2 (qualify name f.1) st)
            (Some st) fields
      | VPtr None => Some st
      | VPtr (Some v) => checkDefault1 levels ro v name st
      | VScalar tname s =>
          if ro then None else Some (if isDefault s then st else complain name tname st)
      | VOther => Some st
      end
  end.

Definition checkDefault (value : option GoVal) (st : LabGob) : option LabGob :=
  match value with None => Some st | Some v => checkDefault1 3 false v "" st end.

(** ** The operations *)

Definition Encode {V} `{!Gob V} (t : option nat) (v : V) (enc : encoder) (st : LabGob) :
    option (LabGob * option encoder) :=
  st ← checkValue t st; Some (st, gob_encode v enc).

(** [Decode] into a variable of type [t] with the value [target]. *)
Definition Decode {V} `{!Gob V} (t : option nat) (target : option GoVal) (dec : decoder)
    (st : LabGob) : option (LabGob * option (V * decoder)) :=
  st ← checkValue t st; st ← checkDefault target st; Some (st, gob_decode dec).

(** [Register] and [RegisterName]. *)
Definition Register (t : option nat) (st : LabGob) : option LabGob := checkValue t st.

(** ** Reachable types *)

Definition parts (k : GoType) : list nat :=
  match k with
  | TStruct _ fields => fields.*2
  | TSlice e | TArray e | TPtr e => [e]
  | TMap key e => [e; key]
  | TBasic => []
  end.

Definition part (t u : nat) : Prop := ∃ k, types !! t = Some k ∧ u ∈ parts k.

Definition fieldWarnings (name : string) (fields : list (string * nat)) : list Warning :=
  (λ f, LowerCase f.1 name) <$> filter (λ f, isUpper f.1 = false) fields.

(** The complaints about one type. *)
Definition warnings (t : nat) : list Warning :=
  match types !! t with
  | Some (TStruct name fields) => fieldWarnings name fields
  | _ => []
  end.

(** The table has every type that occurs in one of its types. *)
Definition closed_types : Prop := ∀ t u, part t u → is_Some (types !! u).

(** ** What one call explores *)

(** From [st] to [st'] the types [X] were met for the first time, with [ws]
    printed besides their complaints. *)
Definition explores (ws : list Warning) (st : LabGob) (X : gset nat) (st' : LabGob) : Prop :=
  checked st' = X ∪ checked st ∧ X ## checked st ∧
  errorCount st' - errorCount st = len (printed st') - len (printed st) ∧
  ∃ new, printed st' = printed st ++ new ∧ new ≡ₚ ws ++ (elements X ≫= warnings).

Lemma explores_nothing st : explores [] st ∅ st.
Proof.
  split_and!; [set_solver|set_solver|lia|]. exists []. by rewrite app_nil_r, elements_empty.
Qed.

Lemma explores_warn (b : bool) w st :
  explores (if b then [] else [w]) st ∅ (if b then st else warn w st).
Proof.
  destruct b; [apply explores_nothing|]. unfold explores, warn. simpl.
  split_and!; [set_solver|set_solver|rewrite length_app; simpl; lia|].
  exists [w]. by rewrite elements_empty.
Qed.

Lemma explores_trans ws ws' st st1 st' X Y :
  explores ws st X st1 → explores ws' st1 Y st' → explores (ws ++ ws') st (X ∪ Y) st'.
Proof.
  intros (H1 & HX & HN & new & Hp & Hnew) (H1' & HY & HN' & new' & Hp' & Hnew').
  split_and!; [|clear -H1 HX HY; set_solver|lia|].
  { rewrite H1', H1. clear. set_solver. }
  exists (new ++ new'). rewrite Hp', Hp, app_assoc. split; [done|].
  rewrite (elements_disj_union X Y) by set_solver. rewrite bind_app, Hnew, Hnew'.
  rewrite <-!app_assoc. apply Permutation_app_head. rewrite !app_assoc. apply Permutation_app_tail.
  apply Permutation_app_comm.
Qed.

(** A call of [checkType] on [t]. *)
Definition explored (t : nat) (st st' : LabGob) : Prop :=
  ∃ X, explores [] st X st' ∧ t ∈ checked st' ∧
    (∀ u v, u ∈ X → part u v → v ∈ checked st') ∧ (∀ u, u ∈ X → rtc part t u).

Lemma explored_mono t st st' : explored t st st' → checked st ⊆ checked st'.
Proof. intros (X & (H & _) & _). set_solver. Qed.

(** Several calls, on the types [ts], with warnings in between. *)
Definition explored_all (ts : list nat) (ws : list Warning) (st st' : LabGob) : Prop :=
  ∃ X, explores ws st X st' ∧ (∀ u, u ∈ ts → u ∈ checked st') ∧
    (∀ u v, u ∈ X → part u v → v ∈ checked st') ∧ (∀ u, u ∈ X → ∃ t, t ∈ ts ∧ rtc part t u).

Lemma explored_all_nil st : explored_all [] [] st st.
Proof. exists ∅. split_and!; [apply explores_nothing|set_solver..]. Qed.

Lemma explored_all_cons t ts (b : bool) w ws st st1 st' :
  explored t (if b then st else warn w st) st1 → explored_all ts ws st1 st' →
  explored_all (t :: ts) ((if b then [] else [w]) ++ ws) st st'.
Proof.
  intros (X & HX & Ht & Hc & Hr) (Y & HY & Hts & Hc' & Hr').
  pose proof HY as (HYc & _). exists (X ∪ Y). split_and!.
  - rewrite <-(union_empty_l_L X). rewrite <-(app_nil_r (if b then _ else _)).
    eapply explores_trans; [|exact HY]. eapply explores_trans; [apply explores_warn|exact HX].
  - intros u [->|Hu]%elem_of_cons; [set_solver|by apply Hts].
  - intros u v [Hu|Hu]%elem_of_union Hp; [|by eapply Hc'].
    specialize (Hc u v Hu Hp). set_solver.
  - intros u [Hu|Hu]%elem_of_union.
    + exists t. split; [set_solver|by apply Hr].
    + destruct (Hr' u Hu) as (x & ? & ?). exists x. split; [set_solver|done].
Qed.

(** Meeting [t] for the first time and then its parts. *)
Lemma explored_parts t k ws st st' :
  types !! t = Some k → t ∉ checked st → ws = warnings t →
  explored_all (parts k) ws (mkLabGob ({[t]} ∪ checked st) (errorCount st) (printed st)) st' →
  explored t st st'.
Proof.
  intros Hk Ht -> (X & (HX1 & HX2 & HX3 & new & Hp & Hnew) & Hts & Hc & Hr). simpl in *.
  exists ({[t]} ∪ X). split_and!.
  - split_and!; [set_solver|set_solver|done|]. exists new. split; [done|]. simpl.
    rewrite elements_disj_union by set_solver. by rewrite elements_singleton, Hnew.
  - set_solver.
  - intros u v [->%elem_of_singleton|Hu]%elem_of_union Hp'; [|by eapply Hc].
    destruct Hp' as (k' & Hk' & Hv). rewrite Hk in Hk'. injection Hk' as <-. by apply Hts.
  - intros u [->%elem_of_singleton|Hu]%elem_of_union; [done|].
    destruct (Hr u Hu) as (x & Hx & ?). eapply rtc_l; [|done]. by exists k.
Qed.

Lemma checkFields_spec rec name fields :
  (∀ t st st', rec t st = Some st' → explored t st st') →
  ∀ st st', foldl (λ ost f, st ← ost; checkField rec name st f) (Some st) fields = Some st' →
    explored_all (fields.*2) (fieldWarnings name fields) st st'.
Proof.
  intros Hrec. induction fields as [|[f t] fields IH]; intros st st' H; simpl in H.
  { injection H as <-. apply explored_all_nil. }
  unfold checkField in H at 2. simpl in H. destruct (rec _ _) as [st1|] eqn:Hst.
  - apply IH in H. apply Hrec in Hst. unfold fieldWarnings. rewrite filter_cons. simpl.
    destruct (isUpper f) eqn:Hf; simpl.
    + by apply (explored_all_cons t (fields.*2) true (NonDefault "") _ st st1).
    + by apply (explored_all_cons t (fields.*2) false (LowerCase f name) _ st st1).
  - exfalso. clear -H. induction fields; simpl in *; [done|auto].
Qed.

Lemma checkTypeFuel_spec fuel : ∀ t st st',
  checkTypeFuel fuel t st = Some st' → explored t st st'.
Proof.
  induction fuel as [|fuel IH]; simpl; intros t st st' H; [done|].
  apply bind_Some in H as (k & Hk & H). case_decide as Ht.
  { injection H as <-. exists ∅. split_and!; [apply explores_nothing|done|set_solver..]. }
  assert (∀ u v st1 st2 st3, checkTypeFuel fuel u st1 = Some st2 → explored_all v [] st2 st3 →
    explored_all (u :: v) [] st1 st3) as Hcons.
  { intros u v st1 st2 st3 Hu Hv. apply IH in Hu.
    by apply (explored_all_cons u v true (NonDefault "") [] st1 st2). }
  assert (∀ u st1 st2, checkTypeFuel fuel u st1 = Some st2 → explored_all [u] [] st1 st2) as Hone.
  { intros u st1 st2 Hu. eapply Hcons; [exact Hu|apply explored_all_nil]. }
  destruct k as [name fields|e|e|e|key e|].
  - eapply (explored_parts t _ (warnings t)); [done..|]. unfold warnings. rewrite Hk.
    by apply (checkFields_spec (checkTypeFuel fuel)).
  - eapply (explored_parts t _ []); [done|done|by unfold warnings; rewrite Hk|by apply Hone].
  - eapply (explored_parts t _ []); [done|done|by unfold warnings; rewrite Hk|by apply Hone].
  - eapply (explored_parts t _ []); [done|done|by unfold warnings; rewrite Hk|by apply Hone].
  - apply bind_Some in H as (st1 & H1 & H2).
    eapply (explored_parts t _ []); [done|done|by unfold warnings; rewrite Hk|].
    by eapply Hcons, Hone.
  - injection H as <-. eapply (explored_parts t _ []);
      [done|done|by unfold warnings; rewrite Hk|apply explored_all_nil].
Qed.

(** ** Termination *)

Lemma checkFields_ok rec name fields C :
  (∀ u st, u ∈ fields.*2 → C ⊆ checked st → ∃ st', rec u st = Some st' ∧ C ⊆ checked st') →
  ∀ st, C ⊆ checked st →
    is_Some (foldl (λ ost f, st ← ost; checkField rec name st f) (Some st) fields).
Proof.
  induction fields as [|[f u] fields IH]; intros Hrec st HC; simpl; [done|].
  unfold checkField at 2. simpl.
  destruct (Hrec u (if isUpper f then st else warn (LowerCase f name) st)) as (st' & -> & HC').
  - by apply list_elem_of_here.
  - by destruct (isUpper f).
  - apply IH; [|done]. intros v st1 Hv. apply Hrec. by apply list_elem_of_further.
Qed.

Lemma checkTypeFuel_ok fuel : closed_types → ∀ t st,
  is_Some (types !! t) → (size (dom types ∖ checked st) < fuel)%nat →
  is_Some (checkTypeFuel fuel t st).
Proof.
  intros Hcl. induction fuel as [|fuel IH]; simpl; intros t st [k Hk] Hf; [lia|].
  rewrite Hk. simpl. case_decide as Ht; [done|]. set (st1 := mkLabGob _ _ _).
  assert (size (dom types ∖ checked st1) < fuel)%nat as Hf1.
  { enough (size (dom types ∖ checked st1) < size (dom types ∖ checked st))%nat by lia.
    apply subset_size. apply elem_of_dom_2 in Hk. simpl. set_solver. }
  assert (∀ u st2, u ∈ parts k → checked st1 ⊆ checked st2 →
    ∃ st3, checkTypeFuel fuel u st2 = Some st3 ∧ checked st1 ⊆ checked st3) as Hrec.
  { intros u st2 Hu Hsub. destruct (IH u st2) as [st3 H3].
    - apply (Hcl t). by exists k.
    - eapply Nat.le_lt_trans; [|exact Hf1]. apply subseteq_size. set_solver.
    - exists st3. split; [done|]. etrans; [exact Hsub|]. by eapply explored_mono, checkTypeFuel_spec. }
  assert (∀ e, parts k = [e] → is_Some (checkTypeFuel fuel e st1)) as Hone.
  { intros e He. destruct (Hrec e st1) as (st3 & -> & _); [rewrite He; set_solver|done|done]. }
  destruct k as [name fields|e|e|e|key e|]; [|by apply Hone..| |done].
  - by apply (checkFields_ok _ _ _ (checked st1)).
  - destruct (Hrec e st1) as (st3 & -> & H3); [set_solver|done|]. simpl.
    destruct (Hrec key st3) as (st4 & -> & _); [set_solver|done|done].
Qed.

Lemma checkType_total t st :
  closed_types → is_Some (types !! t) → ∃ st', checkType t st = Some st' ∧ explored t st st'.
Proof.
  intros Hcl Ht. destruct (checkTypeFuel_ok (S (size types)) Hcl t st Ht) as [st' H'].
  - rewrite <-size_dom. apply Nat.lt_succ_r, subseteq_size. set_solver.
  - exists st'. split; [done|]. by eapply checkTypeFuel_spec.
Qed.

(** ** The package as a whole *)

(** The values passed to Encode, Decode and Register, by type. *)
Definition checkAll (ts : list nat) (st : LabGob) : option LabGob :=
  foldl (λ ost t, st ← ost; checkValue (Some t) st) (Some st) ts.

(** What has been checked is everything that the types seen are made of. *)
Definition checks (ts : list nat) (st : LabGob) : Prop :=
  (∀ u, u ∈ checked st ↔ ∃ t, t ∈ ts ∧ rtc part t u) ∧
  printed st ≡ₚ elements (checked st) ≫= warnings ∧ errorCount st = len (printed st).

Lemma explored_checks ts t st st' :
  checks ts st → explored t st st' → checks (ts ++ [t]) st'.
Proof.
  intros (Hc & Hp & Hn) (X & (HX1 & HX2 & HX3 & new & Hnew & Hws) & Ht & Hcl & Hr).
  assert (∀ u v, u ∈ checked st' → rtc part u v → v ∈ checked st') as Hclosed.
  { intros u v Hu Huv. induction Huv as [u|u w v Huw _ IH]; [done|]. apply IH. rewrite HX1 in Hu.
    apply elem_of_union in Hu as [Hu|Hu]; [by eapply Hcl|].
    rewrite HX1. apply elem_of_union_r. apply Hc in Hu as (t0 & Ht0 & Htu).
    apply Hc. exists t0. split; [done|]. by eapply rtc_r. }
  split_and!.
  - intros u. split.
    + rewrite HX1. intros [Hu|Hu]%elem_of_union.
      * exists t. split; [set_solver|by apply Hr].
      * apply Hc in Hu as (t0 & ? & ?). exists t0. split; [set_solver|done].
    + intros (t0 & Ht0 & Htu). apply elem_of_app in Ht0 as [Ht0|Ht0].
      * rewrite HX1. apply elem_of_union_r, Hc. eauto.
      * apply list_elem_of_singleton in Ht0 as ->. by eapply Hclosed.
  - rewrite Hnew, Hws, Hp, HX1, elements_disj_union by set_solver. rewrite bind_app.
    apply Permutation_app_comm.
  - lia.
Qed.

(** C28. Whatever is encoded, decoded and registered, and in whatever order,
    labgob's check of types terminates - also on recursive types - without
    panicking, and complains about exactly the fields with a lower-case name of
    the structs that the types of these values are made of, about each once. *)
Theorem labgob_complains_exactly ts :
  closed_types → Forall (λ t, is_Some (types !! t)) ts →
  ∃ st, checkAll ts lab0 = Some st ∧
    (∀ u, u ∈ checked st ↔ ∃ t, t ∈ ts ∧ rtc part t u) ∧
    printed st ≡ₚ elements (checked st) ≫= warnings ∧ errorCount st = len (printed st).
Proof.
  intros Hcl. induction ts as [|t ts IH] using rev_ind; intros Hts.
  - exists lab0. split; [done|]. unfold lab0. split_and!; cbn [checked printed errorCount];
      [set_solver|by rewrite elements_empty|done].
  - apply Forall_app in Hts as [Hts Ht]. apply Forall_cons_1 in Ht as [Ht _].
    destruct (IH Hts) as (st & Hst & Hc). unfold checkAll in *.
    destruct (checkType_total t st Hcl Ht) as (st' & Hst' & He). exists st'.
    split; [|by eapply explored_checks]. by rewrite foldl_snoc, Hst.
Qed.

(** ** checkDefault against a reference *)

(** The non-default scalars of a value, with their names, down to a depth. *)
Fixpoint nonDefaults (levels : nat) (value : GoVal) (name : string) : list string :=
  match levels with
  | O => []
  | S levels =>
      match value with
      | VStruct fields => fields ≫= λ f, nonDefaults levels f.2 (qualify name f.1)
      | VPtr (Some v) => nonDefaults levels v name
      | VScalar tname s => if isDefault s then [] else [if decide (name = "") then tname else name]
      | _ => []
      end
  end.

(** A scalar, default or not, behind a field with a lower-case name. *)
Fixpoint hidden (levels : nat) (ro : bool) (value : GoVal) : bool :=
  match levels with
  | O => false
  | S levels =>
      match value with
      | VStruct fields => existsb (λ f, hidden levels (ro || negb (isUpper f.1)) f.2) fields
      | VPtr (Some v) => hidden levels ro v
      | VScalar _ _ => ro
      | _ => false
      end
  end.

(** [st] after complaints about [ns]. *)
Definition complained (ns : list string) (st : LabGob) : LabGob :=
  mkLabGob (checked st) (errorCount st + len ns)
    (printed st ++ if errorCount st <? 1 then NonDefault <$> take 1 ns else []).

Lemma complained_nil st : complained [] st = st.
Proof. destruct st as [c n p]. unfold complained. simpl. by rewrite Z.add_0_r, Tauto.if_same, app_nil_r. Qed.

Lemma complained_app ns ns' st :
  0 <= errorCount st → complained ns' (complained ns st) = complained (ns ++ ns') st.
Proof.
  intros H0. destruct ns as [|n ns]; [by rewrite complained_nil|]. unfold complained. cbn [checked errorCount printed].
  f_equal; [rewrite length_app; lia|]. rewrite <-app_assoc. f_equal. simpl.
  rewrite (proj2 (Z.ltb_ge (errorCount st + _) 1)) by lia. by rewrite app_nil_r.
Qed.

Lemma foldl_none {A} (f : A → LabGob → option LabGob) l :
  foldl (λ ost x, st ← ost; f x st) None l = None.
Proof. by induction l. Qed.

Lemma checkDefault1_spec levels : ∀ ro value name st,
  0 <= errorCount st →
  checkDefault1 levels ro value name st =
    if hidden levels ro value then None else Some (complained (nonDefaults levels value name) st).
Proof.
  induction levels as [|levels IH]; intros ro value name st H0; simpl; [by rewrite complained_nil|].
  destruct value as [fields|[v|]|tname s|]; simpl; [|by apply IH|by rewrite complained_nil| |by rewrite complained_nil].
  - revert st H0. induction fields as [|f fields IHf]; intros st H0; simpl; [by rewrite complained_nil|].
    rewrite IH by done. destruct (hidden levels _ _); simpl.
    + exact (foldl_none (λ x st, checkDefault1 levels (ro || negb (isUpper x.1)) x.2 (qualify name x.1) st) fields).
    + rewrite IHf by (simpl; lia). destruct (existsb _ _); [done|]. by rewrite complained_app.
  - destruct ro; [done|]. destruct (isDefault s); [by rewrite complained_nil|].
    unfold complain, complained. simpl. f_equal. f_equal. by destruct (_ <? _); [|rewrite app_nil_r].
Qed.

(** C30. The check of values agrees with a reference: decoding into a variable
    panics exactly when, down to the third level, it has a scalar behind a field
    with a lower-case name; otherwise it adds to errorCount the number of its
    non-default scalars down to that level, prints a warning for the first one
    if nothing was reported before, and changes nothing else - nothing at all
    when the variable is fresh. *)
Theorem checkDefault_reports value st :
  0 <= errorCount st →
  let ns := nonDefaults 3 value "" in
  if hidden 3 false value then checkDefault (Some value) st = None
  else ∃ st', checkDefault (Some value) st = Some st' ∧
    errorCount st' = errorCount st + len ns ∧ checked st' = checked st ∧
    printed st' = printed st ++ (if errorCount st <? 1 then NonDefault <$> take 1 ns else []) ∧
    (ns = [] → st' = st).
Proof.
  intros H0. cbv zeta. unfold checkDefault. rewrite checkDefault1_spec by done.
  destruct (hidden 3 false value); [done|]. eexists. split; [done|].
  split_and!; [done..|]. intros ->. apply complained_nil.
Qed.

End Types.

(** ** Examples *)

(** [unicode.IsUpper] on ASCII names. *)
Definition asciiUpper (s : string) : bool :=
  match s with
  | String c _ => let n := Z.of_nat (Ascii.nat_of_ascii c) in (65 <=? n) && (n <=? 90)
  | EmptyString => false
  end.

(** type Node struct { val int; Next *Node } and type Log struct { Nodes []Node }. *)
Definition nodeTypes : gmap nat GoType :=
  {[ 0%nat := TStruct "Node" [("val", 1%nat); ("Next", 2%nat)]; 1%nat := TBasic;
     2%nat := TPtr 0; 3%nat := TStruct "Log" [("Nodes", 4%nat)]; 4%nat := TSlice 0 ]}.

Example checkAll_nodes :
  printed <$> checkAll nodeTypes asciiUpper [1; 3; 0]%nat lab0 = Some [LowerCase "val" "Node"].
Proof. vm_compute. reflexivity. Qed.

Lemma nodeTypes_closed : closed_types nodeTypes.
Proof.
  assert (map_Forall (λ _ k, Forall (λ u, is_Some (nodeTypes !! u)) (parts k)) nodeTypes) as H.
  { apply (bool_decide_unpack _). vm_compute. done. }
  intros t u (k & Hk & Hu). specialize (H t k Hk). rewrite list.Forall_forall in H. by apply H.
Qed.

Lemma labgob_complains_exactly_witness :
  ∃ st, checkAll nodeTypes asciiUpper [3%nat] lab0 = Some st ∧ printed st = [LowerCase "val" "Node"] ∧
    (2%nat ∈ checked st ↔ ∃ t, t ∈ [3%nat] ∧ rtc (part nodeTypes) t 2%nat).
Proof.
  destruct (labgob_complains_exactly nodeTypes asciiUpper [3%nat] nodeTypes_closed)
    as (st & Hst & Hc & _).
  { constructor; [vm_compute; eexists; reflexivity|constructor]. }
  exists st. split; [exact Hst|split; [|exact (Hc 2%nat)]].
  vm_compute in Hst. injection Hst as <-. reflexivity.
Defined.

(** A reply variable that is used a second time, one whose old value is too
    deep to be noticed, and one with a lower-case field. *)
Definition reusedReply : GoVal :=
  VPtr (Some (VStruct [("Term", VScalar "int" (SInt 3)); ("Success", VScalar "bool" (SBool false))])).

Definition deepReply : GoVal :=
  VPtr (Some (VStruct [("Args", VStruct [("Term", VScalar "int" (SInt 3))])])).

Definition lowerReply : GoVal := VPtr (Some (VStruct [("term", VScalar "int" (SInt 0))])).

Lemma checkDefault_reports_witness :
  (∃ st, checkDefault asciiUpper (Some reusedReply) lab0 = Some st ∧ errorCount st = 1 ∧
     printed st = [NonDefault "Term"]) ∧
  checkDefault asciiUpper (Some deepReply) lab0 = Some lab0 ∧
  checkDefault asciiUpper (Some lowerReply) lab0 = None.
Proof.
  destruct (checkDefault_reports asciiUpper reusedReply lab0) as (st & H1 & H2 & _ & H3 & _); [done|].
  destruct (checkDefault_reports asciiUpper deepReply lab0) as (st' & H4 & _ & _ & _ & H5); [done|].
  pose proof (checkDefault_reports asciiUpper lowerReply lab0 ltac:(done)) as H6.
  split; [exists st; exact (conj H1 (conj H2 H3))|split; [|exact H6]].
  rewrite H4. f_equal. apply H5. reflexivity.
Defined.

(** A struct with a lower-case field is warned about when it is encoded, but
    decoding into it panics before the decoder sees it. *)
Definition lowerTypes : gmap nat GoType := {[ 0%nat := TStruct "Reply" [("term", 1%nat)]; 1%nat := TBasic; 2%nat := TPtr 0 ]}.

Example Decode_lower {V} `{!Gob V} dec :
  printed <$> checkValue lowerTypes asciiUpper (Some 2%nat) lab0 = Some [LowerCase "term" "Reply"] ∧
  Decode (V := V) lowerTypes asciiUpper (Some 2%nat) (Some lowerReply) dec lab0 = None.
Proof. split; vm_compute; reflexivity. Qed.

(** Encoding the nil interface panics in the check, before encoding/gob sees it. *)
Lemma Encode_nil {V} `{!Gob V} types isUpper (v : V) enc st :
  Encode types isUpper None v enc st = None.
Proof. done. Qed.
