(* ===== verification/Persister.v ===== *)
(** * Stable storage of a server

    Models src/6.5840/src/tester1/persister.go: the Raft state and the service
    snapshot of one server, replaced together by [Save].  The mutex makes each
    method one atomic step; [clone] copies a byte slice, so a reader never
    aliases the stored one: on values it is the identity. *)

From S2P Require Import Prelude Gob.

Record Persister := mkPersister {
  raftstate : list byte;
  snapshot : list byte
}.

Definition MakePersister : Persister := mkPersister [] [].

Definition clone (orig : list byte) : list byte :=
  let x := replicate (length orig) Init.Byte.x00 in go_copy x orig.

Definition Copy (ps : Persister) : Persister :=
  mkPersister (raftstate ps) (snapshot ps).

Definition ReadRaftState (ps : Persister) : list byte := clone (raftstate ps).

Definition RaftStateSize (ps : Persister) : Z := len (raftstate ps).

Definition Save (rs snap : list byte) (ps : Persister) : Persister :=
  mkPersister (clone rs) (clone snap).

Definition ReadSnapshot (ps : Persister) : list byte := clone (snapshot ps).

Definition SnapshotSize (ps : Persister) : Z := len (snapshot ps).

Lemma clone_id bs : clone bs = bs.
Proof. apply go_copy_exact, length_replicate. Qed.

Lemma Save_raftstate rs sn ps : ReadRaftState (Save rs sn ps) = rs.
Proof. unfold ReadRaftState, Save; simpl. by rewrite !clone_id. Qed.

Lemma Save_snapshot rs sn ps : ReadSnapshot (Save rs sn ps) = sn.
Proof. unfold ReadSnapshot, Save; simpl. by rewrite !clone_id. Qed.

#[export] Hint Rewrite clone_id Save_raftstate Save_snapshot : go.
