(* ===== verification/Raft.v ===== *)
(** * One Raft peer

    Models src/6.5840/src/raft1/raft.go: the state of a [Raft] object and every
    method that reads or writes it.  A method runs between [rf.mu.Lock()] and
    [rf.mu.Unlock()], so it is one function on the state; a method that releases
    the lock around an RPC is split there into the function that prepares the
    call and the function that handles the reply.  Goroutines a method starts
    are part of its result.  [None] is a Go run-time panic.  The wall clock is
    an argument, [now], in nanoseconds. *)

From S2P Require Import Prelude Gob Persister.

Inductive Role := Follower | Candidate | Leader.

#[export] Instance Role_eq_dec : EqDecision Role.
Proof. solve_decision. Defined.

Section Raft.
(** [cmd] is the type of the commands of the service; a [Command interface{}]
    is [None] when it is [nil], as in the sentinel. *)
Context {cmd : Type}.

Record LogEntry := mkLogEntry { Command : option cmd; Term : Z }.

Record AppendEntriesArgs := mkAppendEntriesArgs {
  ae_Term : Z;
  ae_LeaderId : Z;
  ae_PrevLogIndex : Z;
  ae_PrevLogTerm : Z;
  ae_Entries : list LogEntry;
  ae_LeaderCommit : Z
}.

Record AppendEntriesReply := mkAppendEntriesReply {
  aer_Term : Z;
  aer_Success : bool;
  aer_ConflictTerm : Z;
  aer_ConflictIndex : Z
}.

Record InstallSnapshotArgs := mkInstallSnapshotArgs {
  is_Term : Z;
  is_LeaderId : Z;
  is_LastIncludedIndex : Z;
  is_LastIncludedTerm : Z;
  is_Data : list byte
}.

Record InstallSnapshotReply := mkInstallSnapshotReply { isr_Term : Z }.

Record RequestVoteArgs := mkRequestVoteArgs {
  rv_Term : Z;
  rv_CandidateId : Z;
  rv_LastLogIndex : Z;
  rv_LastLogTerm : Z
}.

Record RequestVoteReply := mkRequestVoteReply {
  rvr_Term : Z;
  rvr_VoteGranted : bool
}.

(** raftapi.ApplyMsg *)
Record ApplyMsg := mkApplyMsg {
  CommandValid : bool;
  am_Command : option cmd;
  CommandIndex : Z;
  SnapshotValid : bool;
  am_Snapshot : list byte;
  SnapshotTerm : Z;
  SnapshotIndex : Z
}.

Record Raft := mkRaft {
  npeers : nat;               (* len(rf.peers) *)
  persister : Persister;
  me : Z;
  dead : bool;
  currentTerm : Z;
  votedFor : Z;
  log : list LogEntry;
  lastIncludedIndex : Z;
  lastIncludedTerm : Z;
  commitIndex : Z;
  lastApplied : Z;
  nextIndex : list Z;
  matchIndex : list Z;
  role : Role;
  lastHeartbeat : Z
}.

(** ** Field assignment *)

Definition set_persister (p : Persister) (rf : Raft) : Raft :=
  mkRaft (npeers rf) p (me rf) (dead rf) (currentTerm rf) (votedFor rf) (log rf)
    (lastIncludedIndex rf) (lastIncludedTerm rf) (commitIndex rf) (lastApplied rf)
    (nextIndex rf) (matchIndex rf) (role rf) (lastHeartbeat rf).
Definition set_dead (d : bool) (rf : Raft) : Raft :=
  mkRaft (npeers rf) (persister rf) (me rf) d (currentTerm rf) (votedFor rf) (log rf)
    (lastIncludedIndex rf) (lastIncludedTerm rf) (commitIndex rf) (lastApplied rf)
    (nextIndex rf) (matchIndex rf) (role rf) (lastHeartbeat rf).
Definition set_currentTerm (t : Z) (rf : Raft) : Raft :=
  mkRaft (npeers rf) (persister rf) (me rf) (dead rf) t (votedFor rf) (log rf)
    (lastIncludedIndex rf) (lastIncludedTerm rf) (commitIndex rf) (lastApplied rf)
    (nextIndex rf) (matchIndex rf) (role rf) (lastHeartbeat rf).
Definition set_votedFor (v : Z) (rf : Raft) : Raft :=
  mkRaft (npeers rf) (persister rf) (me rf) (dead rf) (currentTerm rf) v (log rf)
    (lastIncludedIndex rf) (lastIncludedTerm rf) (commitIndex rf) (lastApplied rf)
    (nextIndex rf) (matchIndex rf) (role rf) (lastHeartbeat rf).
Definition set_log (l : list LogEntry) (rf : Raft) : Raft :=
  mkRaft (npeers rf) (persister rf) (me rf) (dead rf) (currentTerm rf) (votedFor rf) l
    (lastIncludedIndex rf) (lastIncludedTerm rf) (commitIndex rf) (lastApplied rf)
    (nextIndex rf) (matchIndex rf) (role rf) (lastHeartbeat rf).
Definition set_lastIncluded (i t : Z) (rf : Raft) : Raft :=
  mkRaft (npeers rf) (persister rf) (me rf) (dead rf) (currentTerm rf) (votedFor rf) (log rf)
    i t (commitIndex rf) (lastApplied rf)
    (nextIndex rf) (matchIndex rf) (role rf) (lastHeartbeat rf).
Definition set_commitIndex (c : Z) (rf : Raft) : Raft :=
  mkRaft (npeers rf) (persister rf) (me rf) (dead rf) (currentTerm rf) (votedFor rf) (log rf)
    (lastIncludedIndex rf) (lastIncludedTerm rf) c (lastApplied rf)
    (nextIndex rf) (matchIndex rf) (role rf) (lastHeartbeat rf).
Definition set_lastApplied (a : Z) (rf : Raft) : Raft :=
  mkRaft (npeers rf) (persister rf) (me rf) (dead rf) (currentTerm rf) (votedFor rf) (log rf)
    (lastIncludedIndex rf) (lastIncludedTerm rf) (commitIndex rf) a
    (nextIndex rf) (matchIndex rf) (role rf) (lastHeartbeat rf).
Definition set_nextIndex (n : list Z) (rf : Raft) : Raft :=
  mkRaft (npeers rf) (persister rf) (me rf) (dead rf) (currentTerm rf) (votedFor rf) (log rf)
    (lastIncludedIndex rf) (lastIncludedTerm rf) (commitIndex rf) (lastApplied rf)
    n (matchIndex rf) (role rf) (lastHeartbeat rf).
Definition set_matchIndex (m : list Z) (rf : Raft) : Raft :=
  mkRaft (npeers rf) (persister rf) (me rf) (dead rf) (currentTerm rf) (votedFor rf) (log rf)
    (lastIncludedIndex rf) (lastIncludedTerm rf) (commitIndex rf) (lastApplied rf)
    (nextIndex rf) m (role rf) (lastHeartbeat rf).
Definition set_role (r : Role) (rf : Raft) : Raft :=
  mkRaft (npeers rf) (persister rf) (me rf) (dead rf) (currentTerm rf) (votedFor rf) (log rf)
    (lastIncludedIndex rf) (lastIncludedTerm rf) (commitIndex rf) (lastApplied rf)
    (nextIndex rf) (matchIndex rf) r (lastHeartbeat rf).
Definition set_lastHeartbeat (h : Z) (rf : Raft) : Raft :=
  mkRaft (npeers rf) (persister rf) (me rf) (dead rf) (currentTerm rf) (votedFor rf) (log rf)
    (lastIncludedIndex rf) (lastIncludedTerm rf) (commitIndex rf) (lastApplied rf)
    (nextIndex rf) (matchIndex rf) (role rf) h.

(** The values [persist] and [readPersist] pass to the encoder. *)
Inductive RaftVal := GInt (z : Z) | GLog (l : list LogEntry).

Context `{!Gob RaftVal}.

(** ** Accessors *)

Definition GetState (rf : Raft) : Z * bool :=
  (currentTerm rf, bool_decide (role rf = Leader)).

Definition PersistBytes (rf : Raft) : Z := RaftStateSize (persister rf).

Definition getRelativeIndex (rf : Raft) (absoluteIndex : Z) : Z :=
  absoluteIndex - lastIncludedIndex rf.

Definition getAbsoluteIndex (rf : Raft) (relativeIndex : Z) : Z :=
  relativeIndex + lastIncludedIndex rf.

Definition lastLogIndex (rf : Raft) : Z := len (log rf) - 1 + lastIncludedIndex rf.

Definition lastLogTerm (rf : Raft) : option Z := Term <$> go_nth (log rf) (len (log rf) - 1).

(** [rf.log[rf.getRelativeIndex(i)]] *)
Definition logAt (rf : Raft) (i : Z) : option LogEntry :=
  go_nth (log rf) (getRelativeIndex rf i).

Definition Kill (rf : Raft) : Raft := set_dead true rf.

Definition killed (rf : Raft) : bool := dead rf.

(** ** Persistence *)

Definition persistVals (rf : Raft) : list RaftVal :=
  [GInt (currentTerm rf); GInt (votedFor rf); GLog (log rf);
   GInt (lastIncludedIndex rf); GInt (lastIncludedTerm rf)].

Definition persist (rf : Raft) : Raft :=
  match encode_all (persistVals rf) new_encoder with
  | None => rf
  | Some e =>
      set_persister (Save (enc_bytes e) (ReadSnapshot (persister rf)) (persister rf)) rf
  end.

Definition decodeInt (d : decoder) : option (Z * decoder) :=
  match gob_decode d with Some (GInt z, d') => Some (z, d') | _ => None end.

Definition decodeLog (d : decoder) : option (list LogEntry * decoder) :=
  match gob_decode d with Some (GLog l, d') => Some (l, d') | _ => None end.

Definition readPersist (data : list byte) (rf : Raft) : Raft :=
  if len data <? 1 then rf
  else
    let d := new_decoder data in
    match
      '(ct, d) ← decodeInt d; '(vf, d) ← decodeInt d; '(l, d) ← decodeLog d;
      '(lii, d) ← decodeInt d; '(lit, d) ← decodeInt d; Some (ct, vf, l, lii, lit)
    with
    | None => rf
    | Some (ct, vf, l, lii, lit) =>
        set_lastIncluded lii lit (set_log l (set_votedFor vf (set_currentTerm ct rf)))
    end.

Definition Make (n : nat) (me : Z) (p : Persister) (now : Z) : Raft :=
  let rf := mkRaft n p me false 0 (-1) [mkLogEntry None 0] 0 0 0 0
              (replicate n 0) (replicate n 0) Follower now in
  let rf := readPersist (ReadRaftState p) rf in
  set_lastApplied (lastIncludedIndex rf) (set_commitIndex (lastIncludedIndex rf) rf).

(** ** Log compaction *)

(** The log after the entries up to the absolute index [index] are dropped:
    [newLog := make([]LogEntry, 1+rf.lastLogIndex()-index)], its sentinel, and
    the copy of [rf.log[relIdx+1:]]. *)
Definition compactLog (rf : Raft) (index term : Z) : option (list LogEntry) :=
  newLog ← go_make (1 + lastLogIndex rf - index) (mkLogEntry None 0);
  newLog ← go_set newLog 0 (mkLogEntry None term);
  dst ← go_from newLog 1;
  src ← go_from (log rf) (getRelativeIndex rf index + 1);
  Some (take 1 newLog ++ go_copy dst src).

Definition raiseTo (index : Z) (rf : Raft) : Raft :=
  let rf := if commitIndex rf <? index then set_commitIndex index rf else rf in
  if lastApplied rf <? index then set_lastApplied index rf else rf.

(** The Raft state and the snapshot saved together; encoding errors ignored. *)
Definition saveWithSnapshot (snap : list byte) (rf : Raft) : Raft :=
  let e := encode_ignoring (persistVals rf) new_encoder in
  set_persister (Save (enc_bytes e) snap (persister rf)) rf.

Definition Snapshot (index : Z) (snap : list byte) (rf : Raft) : option Raft :=
  if index <=? lastIncludedIndex rf then Some rf
  else
    e ← go_nth (log rf) (getRelativeIndex rf index);
    newLog ← compactLog rf index (Term e);
    let rf := set_lastIncluded index (Term e) (set_log newLog rf) in
    Some (saveWithSnapshot snap (raiseTo index rf)).

(** ** Elections *)

(** Adopting a newer term: the four assignments every handler starts with. *)
Definition stepDown (term : Z) (rf : Raft) : Raft :=
  persist (set_votedFor (-1) (set_role Follower (set_currentTerm term rf))).

Definition RequestVote (now : Z) (args : RequestVoteArgs) (rf : Raft) :
    option (Raft * RequestVoteReply) :=
  if rv_Term args <? currentTerm rf then
    Some (rf, mkRequestVoteReply (currentTerm rf) false)
  else
    let rf := if currentTerm rf <? rv_Term args then stepDown (rv_Term args) rf else rf in
    let lli := lastLogIndex rf in
    llt ← lastLogTerm rf;
    let logUpToDate :=
      if llt <? rv_LastLogTerm args then true
      else if rv_LastLogTerm args =? llt then lli <=? rv_LastLogIndex args
      else false in
    if ((votedFor rf =? -1) || (votedFor rf =? rv_CandidateId args)) && logUpToDate then
      let rf' := persist (set_votedFor (rv_CandidateId args) rf) in
      Some (set_lastHeartbeat now rf', mkRequestVoteReply (currentTerm rf) true)
    else Some (rf, mkRequestVoteReply (currentTerm rf) false).

(** Peers other than the server itself: [for peer := range rf.peers] with
    [if peer == rf.me { continue }]. *)
Definition otherPeers (rf : Raft) : list Z :=
  filter (λ p, p ≠ me rf) (seqZ 0 (Z.of_nat (npeers rf))).

(** [startElection]: the new state and the vote requests sent, one goroutine
    per peer; the goroutines share the counter [votes], which starts at 1. *)
Definition startElection (now : Z) (rf : Raft) :
    option (Raft * list (Z * RequestVoteArgs)) :=
  let rf := set_votedFor (me rf)
              (set_currentTerm (currentTerm rf + 1) (set_role Candidate rf)) in
  let rf := set_lastHeartbeat now (persist rf) in
  llt ← lastLogTerm rf;
  let args := mkRequestVoteArgs (currentTerm rf) (me rf) (lastLogIndex rf) llt in
  Some (rf, (λ p, (p, args)) <$> otherPeers rf).

(** One iteration of [ticker]; [rnd] is [rand.Int63()], [None] in the result
    when no election starts. *)
Definition ms (n : Z) : Z := n * 1000000.

Definition tickerStep (now rnd : Z) (rf : Raft) :
    option (Raft * option (list (Z * RequestVoteArgs))) :=
  let timeout := ms (300 + Z.rem rnd 300) in
  if bool_decide (role rf ≠ Leader) && (timeout <? now - lastHeartbeat rf) then
    '(rf', calls) ← startElection now rf; Some (rf', Some calls)
  else Some (rf, None).

Definition set_all (n : nat) (x : Z) (l : list Z) : option (list Z) :=
  foldl (λ ol i, l ← ol; go_set l i x) (Some l) (seqZ 0 (Z.of_nat n)).

(** Handling of one vote reply: the new state, the new value of [votes] and
    whether [sendHeartbeats] is started. *)
Definition handleRequestVoteReply (now term : Z) (reply : RequestVoteReply)
    (votes : Z) (rf : Raft) : option (Raft * Z * bool) :=
  if bool_decide (role rf ≠ Candidate) || negb (currentTerm rf =? term) then
    Some (rf, votes, false)
  else if currentTerm rf <? rvr_Term reply then
    Some (stepDown (rvr_Term reply) rf, votes, false)
  else if rvr_VoteGranted reply then
    let votes := votes + 1 in
    if (Z.of_nat (npeers rf) / 2 <? votes) && bool_decide (role rf = Candidate) then
      let rf := set_lastHeartbeat now (set_role Leader rf) in
      let lli := lastLogIndex rf in
      ni ← set_all (npeers rf) (lli + 1) (nextIndex rf);
      mi ← set_all (npeers rf) 0 (matchIndex rf);
      Some (set_matchIndex mi (set_nextIndex ni rf), votes, true)
    else Some (rf, votes, false)
  else Some (rf, votes, false).

(** ** Log replication: the leader *)

(** [Start]: the new state, the three results, and whether
    [broadcastAppendEntries] is started. *)
Definition Start (command : option cmd) (rf : Raft) : Raft * (Z * Z * bool) * bool :=
  if bool_decide (role rf ≠ Leader) then (rf, (-1, -1, false), false)
  else
    let rf := persist (set_log (log rf ++ [mkLogEntry command (currentTerm rf)]) rf) in
    (rf, (lastLogIndex rf, currentTerm rf, true), true).

(** [broadcastAppendEntries] and one iteration of [sendHeartbeats]: the calls
    of [sendAppendEntriesToPeer(peer, term)] they start. *)
Definition broadcastAppendEntries (rf : Raft) : list (Z * Z) :=
  if bool_decide (role rf ≠ Leader) then []
  else (λ p, (p, currentTerm rf)) <$> otherPeers rf.

(** [None] when the loop of [sendHeartbeats] ends. *)
Definition sendHeartbeats (rf : Raft) : option (list (Z * Z)) :=
  if killed rf then None
  else if bool_decide (role rf ≠ Leader) then None
  else Some ((λ p, (p, currentTerm rf)) <$> otherPeers rf).

Inductive SendAction :=
| NoSend
| SendSnapshot (args : InstallSnapshotArgs)
| SendAppend (args : AppendEntriesArgs).

(** [sendAppendEntriesToPeer] up to the RPC. *)
Definition sendAppendEntriesToPeer (peer term : Z) (rf : Raft) : option SendAction :=
  if bool_decide (role rf ≠ Leader) || negb (currentTerm rf =? term) then Some NoSend
  else
    ni ← go_nth (nextIndex rf) peer;
    if ni <=? lastIncludedIndex rf then
      Some (SendSnapshot (mkInstallSnapshotArgs term (me rf) (lastIncludedIndex rf)
                            (lastIncludedTerm rf) (ReadSnapshot (persister rf))))
    else
      let prevLogIndex := ni - 1 in
      pe ← logAt rf prevLogIndex;
      entries ← go_from (log rf) (getRelativeIndex rf ni);
      Some (SendAppend (mkAppendEntriesArgs term (me rf) prevLogIndex (Term pe)
                          entries (commitIndex rf))).

(** [sendAppendEntriesToPeer] after a reply to InstallSnapshot. *)
Definition handleInstallSnapshotReply (peer term : Z) (args : InstallSnapshotArgs)
    (reply : InstallSnapshotReply) (rf : Raft) : option Raft :=
  if bool_decide (role rf ≠ Leader) || negb (currentTerm rf =? term) then Some rf
  else if currentTerm rf <? isr_Term reply then Some (stepDown (isr_Term reply) rf)
  else
    m ← go_nth (matchIndex rf) peer;
    mi ← (if m <? is_LastIncludedIndex args
          then go_set (matchIndex rf) peer (is_LastIncludedIndex args)
          else Some (matchIndex rf));
    m' ← go_nth mi peer;
    ni ← go_set (nextIndex rf) peer (m' + 1);
    Some (set_nextIndex ni (set_matchIndex mi rf)).

(** [count]: the server itself and the peers whose [matchIndex] reaches [N]. *)
Definition countMatch (rf : Raft) (N : Z) : option Z :=
  foldl (λ oc p, c ← oc;
           if bool_decide (p ≠ me rf) then
             m ← go_nth (matchIndex rf) p; Some (if N <=? m then c + 1 else c)
           else Some c)
    (Some 1) (seqZ 0 (Z.of_nat (npeers rf))).

(** [for N := lastLogIndex; N > rf.commitIndex; N--]; the fuel is the number of
    iterations left. *)
Fixpoint updateCommitLoop (fuel : nat) (N : Z) (rf : Raft) : option Raft :=
  match fuel with
  | O => Some rf
  | S fuel =>
      if N <=? commitIndex rf then Some rf
      else
        e ← logAt rf N;
        if negb (Term e =? currentTerm rf) then Some rf
        else
          count ← countMatch rf N;
          if Z.of_nat (npeers rf) / 2 <? count then Some (set_commitIndex N rf)
          else updateCommitLoop fuel (N - 1) rf
  end.

Definition updateCommitIndex (rf : Raft) : option Raft :=
  updateCommitLoop (Z.to_nat (lastLogIndex rf - commitIndex rf)) (lastLogIndex rf) rf.

(** [for i := len(rf.log)-1; i > 0; i--]: the last index of the log, sentinel
    excluded, whose entry has term [t]; [-1] and [false] when there is none. *)
Fixpoint findConflictTerm (i : nat) (t : Z) (rf : Raft) : option (bool * Z) :=
  match i with
  | O => Some (false, -1)
  | S i' =>
      e ← go_nth (log rf) (Z.of_nat i);
      if Term e =? t then Some (true, getAbsoluteIndex rf (Z.of_nat i))
      else findConflictTerm i' t rf
  end.

(** [sendAppendEntriesToPeer] after a reply to AppendEntries. *)
Definition handleAppendEntriesReply (peer term : Z) (args : AppendEntriesArgs)
    (reply : AppendEntriesReply) (rf : Raft) : option Raft :=
  if bool_decide (role rf ≠ Leader) || negb (currentTerm rf =? term) then Some rf
  else if currentTerm rf <? aer_Term reply then Some (stepDown (aer_Term reply) rf)
  else if aer_Success reply then
    let m := ae_PrevLogIndex args + len (ae_Entries args) in
    mi ← go_set (matchIndex rf) peer m;
    ni ← go_set (nextIndex rf) peer (m + 1);
    updateCommitIndex (set_nextIndex ni (set_matchIndex mi rf))
  else if aer_ConflictTerm reply =? -1 then
    ni ← go_set (nextIndex rf) peer (aer_ConflictIndex reply);
    Some (set_nextIndex ni rf)
  else
    '(leaderHasConflictTerm, conflictIndexInLeader) ←
      findConflictTerm (length (log rf) - 1) (aer_ConflictTerm reply) rf;
    ni ← go_set (nextIndex rf) peer
           (if (leaderHasConflictTerm : bool) then conflictIndexInLeader + 1
            else aer_ConflictIndex reply);
    Some (set_nextIndex ni rf).

(** ** Log replication: the follower *)

(** [for firstIndex > rf.lastIncludedIndex && rf.log[...firstIndex-1].Term ==
    reply.ConflictTerm { firstIndex-- }]; the fuel is
    [firstIndex - rf.lastIncludedIndex]. *)
Fixpoint firstIndexOfTerm (fuel : nat) (firstIndex t : Z) (rf : Raft) : option Z :=
  match fuel with
  | O => Some firstIndex
  | S fuel =>
      if lastIncludedIndex rf <? firstIndex then
        e ← logAt rf (firstIndex - 1);
        if Term e =? t then firstIndexOfTerm fuel (firstIndex - 1) t rf
        else Some firstIndex
      else Some firstIndex
  end.

(** The loop over [args.Entries]; [index] is [args.PrevLogIndex + 1 + i]. *)
Fixpoint appendLoop (index : Z) (entries : list LogEntry) (hasNewEntries : bool)
    (rf : Raft) : option (Raft * bool) :=
  match entries with
  | [] => Some (rf, hasNewEntries)
  | entry :: entries =>
      let relIndex := getRelativeIndex rf index in
      if relIndex <? len (log rf) then
        e ← go_nth (log rf) relIndex;
        if negb (Term e =? Term entry) then
          l ← go_upto (log rf) relIndex;
          appendLoop (index + 1) entries true (set_log (l ++ [entry]) rf)
        else appendLoop (index + 1) entries hasNewEntries rf
      else appendLoop (index + 1) entries true (set_log (log rf ++ [entry]) rf)
  end.

(** Rule 5: [commitIndex] follows the leader's, up to the last new entry. *)
Definition followCommit (args : AppendEntriesArgs) (rf : Raft) : Raft :=
  if commitIndex rf <? ae_LeaderCommit args then
    let lastNewEntryIndex := ae_PrevLogIndex args + len (ae_Entries args) in
    let newCommitIndex :=
      if lastNewEntryIndex <? ae_LeaderCommit args then lastNewEntryIndex
      else ae_LeaderCommit args in
    if commitIndex rf <? newCommitIndex then set_commitIndex newCommitIndex rf else rf
  else rf.

(** Rules 1 and 2 of AppendEntries and InstallSnapshot for a term that is not
    older than ours. *)
Definition recognizeLeader (term : Z) (rf : Raft) : Raft :=
  if currentTerm rf <? term then stepDown term rf
  else if bool_decide (role rf = Candidate) then set_role Follower rf
  else rf.

Definition AppendEntries (now : Z) (args : AppendEntriesArgs) (rf : Raft) :
    option (Raft * AppendEntriesReply) :=
  if ae_Term args <? currentTerm rf then
    Some (rf, mkAppendEntriesReply (currentTerm rf) false 0 0)
  else
    let rf := set_lastHeartbeat now (recognizeLeader (ae_Term args) rf) in
    if ae_PrevLogIndex args <? lastIncludedIndex rf then
      Some (rf, mkAppendEntriesReply (currentTerm rf) false (-1) (lastIncludedIndex rf + 1))
    else if lastLogIndex rf <? ae_PrevLogIndex args then
      Some (rf, mkAppendEntriesReply (currentTerm rf) false (-1) (lastLogIndex rf + 1))
    else
      pe ← logAt rf (ae_PrevLogIndex args);
      if negb (Term pe =? ae_PrevLogTerm args) then
        firstIndex ← firstIndexOfTerm
                       (Z.to_nat (ae_PrevLogIndex args - lastIncludedIndex rf))
                       (ae_PrevLogIndex args) (Term pe) rf;
        Some (rf, mkAppendEntriesReply (currentTerm rf) false (Term pe) firstIndex)
      else
        '(rf, hasNewEntries) ←
          appendLoop (ae_PrevLogIndex args + 1) (ae_Entries args) false rf;
        let rf := if (hasNewEntries : bool) then persist rf else rf in
        Some (followCommit args rf, mkAppendEntriesReply (currentTerm rf) true 0 0).

(** [InstallSnapshot]: the message is the one a goroutine sends on [applyCh]. *)
Definition InstallSnapshot (now : Z) (args : InstallSnapshotArgs) (rf : Raft) :
    option (Raft * InstallSnapshotReply * option ApplyMsg) :=
  let reply := mkInstallSnapshotReply (currentTerm rf) in
  if is_Term args <? currentTerm rf then Some (rf, reply, None)
  else
    let rf := set_lastHeartbeat now (recognizeLeader (is_Term args) rf) in
    let lii := is_LastIncludedIndex args in
    let lit := is_LastIncludedTerm args in
    if lii <=? lastIncludedIndex rf then Some (rf, reply, None)
    else
      let relIdx := getRelativeIndex rf lii in
      hasEntry ← (if (0 <? relIdx) && (relIdx <? len (log rf)) then
                    e ← go_nth (log rf) relIdx; Some (Term e =? lit)
                  else Some false);
      newLog ← (if (hasEntry : bool) then compactLog rf lii lit
                else Some [mkLogEntry None lit]);
      let rf := raiseTo lii (set_lastIncluded lii lit (set_log newLog rf)) in
      let rf := saveWithSnapshot (is_Data args) rf in
      Some (rf, reply,
            Some (mkApplyMsg false None 0 true (is_Data args) lit lii)).

(** ** Applying committed entries *)

(** [for rf.lastApplied < rf.commitIndex]; the fuel is
    [commitIndex - lastApplied]. *)
Fixpoint applierBatch (fuel : nat) (rf : Raft) (messages : list ApplyMsg) :
    option (Raft * list ApplyMsg) :=
  match fuel with
  | O => Some (rf, messages)
  | S fuel =>
      if lastApplied rf <? commitIndex rf then
        let rf := set_lastApplied (lastApplied rf + 1) rf in
        e ← logAt rf (lastApplied rf);
        applierBatch fuel rf
          (messages ++ [mkApplyMsg true (Command e) (lastApplied rf) false [] 0 0])
      else Some (rf, messages)
  end.

(** One iteration of [applierLoop] under the lock: nothing while
    [commitIndex <= lastApplied], else the batch it then sends on [applyCh]. *)
Definition applierStep (rf : Raft) : option (Raft * list ApplyMsg) :=
  if (commitIndex rf <=? lastApplied rf) || killed rf then Some (rf, [])
  else applierBatch (Z.to_nat (commitIndex rf - lastApplied rf)) rf [].

End Raft.

Arguments LogEntry : clear implicits.
Arguments AppendEntriesArgs : clear implicits.
Arguments ApplyMsg : clear implicits.
Arguments Raft : clear implicits.
Arguments RaftVal : clear implicits.
Arguments SendAction : clear implicits.

(** ** Encodings of finite data *)

#[export] Instance LogEntry_eq_dec {cmd} `{!EqDecision cmd} : EqDecision (LogEntry cmd).
Proof. solve_decision. Defined.

#[export] Instance LogEntry_countable {cmd} `{Countable cmd} : Countable (LogEntry cmd) :=
  inj_countable' (λ e : LogEntry cmd, (Command e, Term e)) (λ '(c, t), mkLogEntry c t)
    (λ e, match e with mkLogEntry _ _ => eq_refl end).

#[export] Instance RaftVal_eq_dec {cmd} `{!EqDecision cmd} : EqDecision (RaftVal cmd).
Proof. solve_decision. Defined.

#[export] Instance RaftVal_countable {cmd} `{Countable cmd} : Countable (RaftVal cmd) :=
  inj_countable' (λ v : RaftVal cmd, match v with GInt z => inl z | GLog l => inr l end)
    (λ s, match s with inl z => GInt z | inr l => GLog l end)
    (λ v, match v with GInt _ | GLog _ => eq_refl end).
