(* ===== verification/RaftNode.v ===== *)
(** * Properties of one Raft peer

    Invariants of the state of a peer that every method of
    src/6.5840/src/raft1/raft.go preserves, absence of run-time panics, crash
    recovery, and the functional specification of log replication, commitment,
    compaction and application. *)

From S2P Require Import Prelude Gob Persister Raft.

Arguments set_persister {cmd} _ _ /.
Arguments set_dead {cmd} _ _ /.
Arguments set_currentTerm {cmd} _ _ /.
Arguments set_votedFor {cmd} _ _ /.
Arguments set_log {cmd} _ _ /.
Arguments set_lastIncluded {cmd} _ _ _ /.
Arguments set_commitIndex {cmd} _ _ /.
Arguments set_lastApplied {cmd} _ _ /.
Arguments set_nextIndex {cmd} _ _ /.
Arguments set_matchIndex {cmd} _ _ /.
Arguments set_role {cmd} _ _ /.
Arguments set_lastHeartbeat {cmd} _ _ /.

(** ** Steps of a peer

    [node_step rf rf'] is any method call on the peer, with any arguments: the
    RPC handlers, the handlers of RPC replies, and the calls of the service and
    of the background goroutines. *)

Inductive node_step {cmd} `{!Gob (RaftVal cmd)} (rf : Raft cmd) : Raft cmd → Prop :=
| ns_RequestVote now args rf' r :
    RequestVote now args rf = Some (rf', r) → node_step rf rf'
| ns_AppendEntries now args rf' r :
    AppendEntries now args rf = Some (rf', r) → node_step rf rf'
| ns_InstallSnapshot now args rf' r m :
    InstallSnapshot now args rf = Some (rf', r, m) → node_step rf rf'
| ns_voteReply now term reply votes rf' votes' hb :
    handleRequestVoteReply now term reply votes rf = Some (rf', votes', hb) → node_step rf rf'
| ns_appendReply peer term args reply rf' :
    handleAppendEntriesReply peer term args reply rf = Some rf' → node_step rf rf'
| ns_snapshotReply peer term args reply rf' :
    handleInstallSnapshotReply peer term args reply rf = Some rf' → node_step rf rf'
| ns_ticker now rnd rf' calls :
    tickerStep now rnd rf = Some (rf', calls) → node_step rf rf'
| ns_Start command rf' res b :
    Start command rf = (rf', res, b) → node_step rf rf'
| ns_Snapshot index snap rf' :
    Snapshot index snap rf = Some rf' → node_step rf rf'
| ns_applier rf' msgs :
    applierStep rf = Some (rf', msgs) → node_step rf rf'
| ns_Kill : node_step rf (Kill rf).

Section Node.
Context {cmd : Type} `{!Gob (RaftVal cmd)}.
Implicit Types rf : Raft cmd.

(** ** Frame lemmas: what [persist] and the helpers leave alone *)

Lemma persist_frame rf : ∃ p, persist rf = set_persister p rf.
Proof.
  unfold persist. destruct (encode_all _ _); eauto.
  exists (persister rf). by destruct rf.
Qed.

Ltac persist_tac := intros; unfold persist; by destruct (encode_all _ _).

Lemma npeers_persist rf : npeers (persist rf) = npeers rf.
Proof. persist_tac. Qed.
Lemma me_persist rf : me (persist rf) = me rf.
Proof. persist_tac. Qed.
Lemma dead_persist rf : dead (persist rf) = dead rf.
Proof. persist_tac. Qed.
Lemma currentTerm_persist rf : currentTerm (persist rf) = currentTerm rf.
Proof. persist_tac. Qed.
Lemma votedFor_persist rf : votedFor (persist rf) = votedFor rf.
Proof. persist_tac. Qed.
Lemma log_persist rf : log (persist rf) = log rf.
Proof. persist_tac. Qed.
Lemma lastIncludedIndex_persist rf : lastIncludedIndex (persist rf) = lastIncludedIndex rf.
Proof. persist_tac. Qed.
Lemma lastIncludedTerm_persist rf : lastIncludedTerm (persist rf) = lastIncludedTerm rf.
Proof. persist_tac. Qed.
Lemma commitIndex_persist rf : commitIndex (persist rf) = commitIndex rf.
Proof. persist_tac. Qed.
Lemma lastApplied_persist rf : lastApplied (persist rf) = lastApplied rf.
Proof. persist_tac. Qed.
Lemma nextIndex_persist rf : nextIndex (persist rf) = nextIndex rf.
Proof. persist_tac. Qed.
Lemma matchIndex_persist rf : matchIndex (persist rf) = matchIndex rf.
Proof. persist_tac. Qed.
Lemma role_persist rf : role (persist rf) = role rf.
Proof. persist_tac. Qed.

End Node.

Create HintDb raft.
#[export] Hint Rewrite @npeers_persist @me_persist @dead_persist @currentTerm_persist
  @votedFor_persist @log_persist @lastIncludedIndex_persist @lastIncludedTerm_persist
  @commitIndex_persist @lastApplied_persist @nextIndex_persist @matchIndex_persist
  @role_persist : raft.

(** Compute the fields of an updated state. *)
Ltac rsimpl := repeat (progress (simpl in *; autorewrite with raft in *)).

(** Case analysis of the hypotheses [handler ... = Some _]. *)
Ltac raft_case :=
  repeat (first
    [ progress inv_bind
    | progress simplify_eq
    | match goal with
      | H : (if ?b then _ else _) = Some _ |- _ => destruct b eqn:?
      | H : (let '(_, _) := ?p in _) = Some _ |- _ => destruct p eqn:?
      | H : match ?o with Some _ => _ | None => _ end = Some _ |- _ => destruct o eqn:?
      end ]).

Section Step.
Context {cmd : Type} `{!Gob (RaftVal cmd)}.
Implicit Types rf : Raft cmd.

(** ** Reading the log by absolute index *)

Lemma logAt_range rf i e :
  logAt rf i = Some e → lastIncludedIndex rf <= i <= lastLogIndex rf.
Proof.
  unfold logAt, getRelativeIndex, lastLogIndex. intros ?%go_nth_Some. lia.
Qed.

Lemma logAt_is_Some rf i :
  is_Some (logAt rf i) ↔ lastIncludedIndex rf <= i <= lastLogIndex rf.
Proof.
  unfold logAt, getRelativeIndex, lastLogIndex. rewrite go_nth_is_Some. lia.
Qed.

(** [compactLog] is the sentinel followed by the entries after [index]. *)
Lemma compactLog_spec rf index t :
  lastIncludedIndex rf <= index <= lastLogIndex rf →
  compactLog rf index t =
    Some (mkLogEntry None t :: drop (Z.to_nat (getRelativeIndex rf index + 1)) (log rf)).
Proof.
  unfold lastLogIndex. intros Hi. unfold compactLog, lastLogIndex, getRelativeIndex.
  rewrite go_make_ok by lia. obind.
  rewrite go_set_ok by (rewrite length_replicate; lia). obind.
  rewrite (go_from_ok (log rf)) by lia.
  rewrite go_from_ok by (rewrite length_insert, length_replicate; lia). obind.
  destruct (Z.to_nat (1 + _ - index)) as [|n] eqn:Hn; [lia|]. simpl.
  rewrite drop_0, go_copy_exact; [done|].
  rewrite length_replicate, length_drop. lia.
Qed.


(** ** The entries loop of AppendEntries

    [mergeEntries suffix es] is the reference for the loop: keep what agrees in
    term, and replace everything from the first disagreement on. *)

Fixpoint mergeEntries (suffix es : list (LogEntry cmd)) : list (LogEntry cmd) :=
  match suffix, es with
  | _, [] => suffix
  | [], _ => es
  | x :: suffix, e :: es' =>
      if Term x =? Term e then x :: mergeEntries suffix es' else es
  end.

Lemma mergeEntries_nil es : mergeEntries [] es = es.
Proof. by destruct es. Qed.

Lemma mergeEntries_length suffix : ∀ es,
  (length es <= length (mergeEntries suffix es))%nat.
Proof.
  induction suffix as [|x suffix IH]; intros [|e es]; simpl; try lia.
  destruct (_ =? _); simpl; [|lia]. specialize (IH es). lia.
Qed.

(** Where the two agree, the loop changes nothing before the end of the log. *)
Lemma mergeEntries_prefix suffix : ∀ es i x,
  (∀ j x e, (j <= i)%nat → suffix !! j = Some x → es !! j = Some e → Term x = Term e) →
  suffix !! i = Some x → mergeEntries suffix es !! i = Some x.
Proof.
  induction suffix as [|y suffix IH]; intros [|e es] i x Ha Hi; try done.
  simpl. rewrite (proj2 (Z.eqb_eq _ _)) by (eapply (Ha 0%nat); [lia|done|done]).
  destruct i as [|i]; [done|]. simpl in *. apply IH; [|done].
  intros j x' e' ???. by eapply (Ha (S j)); [lia| |].
Qed.

Lemma mergeEntries_entries suffix : ∀ es i e,
  es !! i = Some e → ∃ x, mergeEntries suffix es !! i = Some x ∧ Term x = Term e.
Proof.
  induction suffix as [|y suffix IH]; intros [|e0 es] i e Hi; try done; simpl.
  - eauto.
  - destruct (Term y =? Term e0) eqn:?; bool_to_prop.
    + destruct i as [|i]; simpl in *; [|eauto]. simplify_eq. eauto.
    + eauto.
Qed.

Lemma set_log_id rf : set_log (log rf) rf = rf.
Proof. by destruct rf. Qed.

Lemma appendLoop_spec es : ∀ index b rf,
  0 <= getRelativeIndex rf index <= len (log rf) →
  ∃ b',
    appendLoop index es b rf =
      Some (set_log (take (Z.to_nat (getRelativeIndex rf index)) (log rf) ++
                     mergeEntries (drop (Z.to_nat (getRelativeIndex rf index)) (log rf)) es) rf, b')
    ∧ (b = true → b' = true)
    ∧ (b' = false →
       mergeEntries (drop (Z.to_nat (getRelativeIndex rf index)) (log rf)) es =
       drop (Z.to_nat (getRelativeIndex rf index)) (log rf)).
Proof.
  induction es as [|entry es IH]; intros index b rf Hr.
  - exists b. simpl. split_and!; [|done|by destruct (drop _ _)].
    f_equal. f_equal.
    assert (mergeEntries (drop (Z.to_nat (getRelativeIndex rf index)) (log rf)) [] =
            drop (Z.to_nat (getRelativeIndex rf index)) (log rf)) as ->
      by (by destruct (drop _ _)).
    rewrite take_drop. by destruct rf.
  - cbn [appendLoop]. unfold getRelativeIndex in *.
    set (r := index - lastIncludedIndex rf) in *.
    assert (index + 1 - lastIncludedIndex rf = r + 1) as Hr1 by (unfold r; lia).
    destruct (r <? len (log rf)) eqn:Hlt; bool_to_prop.
    + assert (is_Some (log rf !! Z.to_nat r)) as [x Hx] by (apply lookup_lt_is_Some; lia).
      assert (go_nth (log rf) r = Some x) as -> by (apply go_nth_lookup; split; [lia|done]).
      obind. rewrite (drop_S _ _ _ Hx). cbn [mergeEntries].
      destruct (Term x =? Term entry) eqn:Ht; cbn [negb].
      * destruct (IH (index + 1) b rf) as (b' & -> & Hb & Hn); [lia|].
        exists b'. rewrite Hr1, Z2Nat.inj_add in * by lia.
        rewrite Nat.add_1_r, (take_S_r _ _ _ Hx), <-app_assoc in *.
        split_and!; [done|done|]. intros Hf. by rewrite Hn.
      * rewrite go_upto_ok by lia. obind.
        destruct (IH (index + 1) true (set_log (take (Z.to_nat r) (log rf) ++ [entry]) rf))
          as (b' & -> & Hb & _).
        { simpl. rewrite length_app, length_take. simpl. lia. }
        exists b'. simpl. rewrite Hr1, Hb by done. split_and!; [|done|done].
        rewrite take_ge, drop_ge by (rewrite length_app, length_take; simpl; lia).
        by rewrite mergeEntries_nil, <-app_assoc.
    + destruct (IH (index + 1) true (set_log (log rf ++ [entry]) rf)) as (b' & -> & Hb & _).
      { simpl. rewrite length_app. simpl. lia. }
      exists b'. simpl. rewrite Hr1, Hb by done. split_and!; [|done|done].
      rewrite !take_ge, !drop_ge by (rewrite ?length_app; simpl; lia).
      by rewrite !mergeEntries_nil, <-app_assoc.
Qed.


(** ** The invariant of a peer *)

Record wf rf : Prop := mkWf {
  wf_term : 0 <= currentTerm rf;
  wf_log : 1 <= len (log rf);
  wf_lii : 0 <= lastIncludedIndex rf;
  wf_sentinel : Term <$> head (log rf) = Some (lastIncludedTerm rf);
  wf_applied : lastIncludedIndex rf <= lastApplied rf;
  wf_commit : lastApplied rf <= commitIndex rf;
  wf_next : length (nextIndex rf) = npeers rf;
  wf_match : length (matchIndex rf) = npeers rf
}.

(** The fields Raft persists. *)
Definition pvals rf : Z * Z * list (LogEntry cmd) * Z * Z :=
  (currentTerm rf, votedFor rf, log rf, lastIncludedIndex rf, lastIncludedTerm rf).

Lemma pvals_eq rf rf' :
  pvals rf = pvals rf' →
  currentTerm rf = currentTerm rf' ∧ votedFor rf = votedFor rf' ∧ log rf = log rf' ∧
  lastIncludedIndex rf = lastIncludedIndex rf' ∧ lastIncludedTerm rf = lastIncludedTerm rf'.
Proof. unfold pvals. by intros [= ?????]. Qed.

(** A peer made from the persister of [rf] has the persistent fields of [rf]. *)
Definition pers_ok rf : Prop :=
  ∀ n m now, pvals (Make n m (persister rf) now) = pvals rf.

Lemma pers_ok_frame rf rf' :
  persister rf' = persister rf → pvals rf' = pvals rf → pers_ok rf → pers_ok rf'.
Proof. unfold pers_ok. intros -> ->. done. Qed.

(** [readPersist] reads back what [persist] wrote. *)
Lemma readPersist_written rf rf0 e :
  written e = persistVals rf → pvals (readPersist (enc_bytes e) rf0) = pvals rf.
Proof.
  intros Hw. unfold readPersist.
  destruct (len (enc_bytes e) <? 1) eqn:Hl; bool_to_prop.
  { assert (enc_bytes e = []) as Hnil by (destruct (enc_bytes e); [done|simpl in Hl; lia]).
    apply enc_bytes_nil in Hnil. rewrite Hw in Hnil. done. }
  destruct (encode_decode_1 _ _ _ Hw) as (d1 & Hd1 & Hp1).
  destruct (decode_pending _ _ _ Hp1) as (d2 & Hd2 & Hp2).
  destruct (decode_pending _ _ _ Hp2) as (d3 & Hd3 & Hp3).
  destruct (decode_pending _ _ _ Hp3) as (d4 & Hd4 & Hp4).
  destruct (decode_pending _ _ _ Hp4) as (d5 & Hd5 & Hp5).
  unfold decodeInt, decodeLog.
  rewrite Hd1; obind. rewrite Hd2; obind. rewrite Hd3; obind. rewrite Hd4; obind.
  rewrite Hd5; obind. done.
Qed.

Lemma Make_pvals n m p now rf e s :
  written e = persistVals rf → pvals (Make n m (Save (enc_bytes e) s p) now) = pvals rf.
Proof.
  intros Hw. unfold Make. rewrite Save_raftstate.
  rewrite <-(readPersist_written rf (mkRaft n (Save (enc_bytes e) s p) m false 0 (-1)
    [mkLogEntry None 0] 0 0 0 0 (replicate n 0) (replicate n 0) Follower now) e Hw).
  done.
Qed.

Lemma Make_fresh_pers n m now : pers_ok (Make n m MakePersister now).
Proof. intros ???. done. Qed.

Lemma persist_pers_ok `{!GobRegistered (RaftVal cmd)} rf : pers_ok (persist rf).
Proof.
  intros n m now. unfold persist.
  destruct (encode_all_registered (persistVals rf) new_encoder) as [e He]. rewrite He.
  simpl. erewrite Make_pvals; [done|].
  apply encode_all_written in He. by rewrite He, written_new.
Qed.

Lemma saveWithSnapshot_pers_ok `{!GobRegistered (RaftVal cmd)} s rf :
  pers_ok (saveWithSnapshot s rf).
Proof.
  intros n m now. unfold saveWithSnapshot. cbn [persister set_persister].
  erewrite (Make_pvals _ _ _ _ rf); [done|].
  pose proof (encode_ignoring_registered (persistVals rf) new_encoder) as He.
  apply encode_all_written in He. by rewrite He, written_new.
Qed.

Lemma pers_ok_persist `{!GobRegistered (RaftVal cmd)} rf rf' :
  persister rf' = persister (persist rf) → pvals rf' = pvals rf → pers_ok rf'.
Proof.
  intros Hp Hv n m now. rewrite Hp, persist_pers_ok. unfold pvals in *. by rsimpl.
Qed.

Lemma pers_ok_save `{!GobRegistered (RaftVal cmd)} s rf rf' :
  persister rf' = persister (saveWithSnapshot s rf) → pvals rf' = pvals rf → pers_ok rf'.
Proof. intros Hp Hv n m now. rewrite Hp, saveWithSnapshot_pers_ok. by rewrite Hv. Qed.

(** ** What any step does to a peer *)

Record evolves rf rf' : Prop := mkEvolves {
  ev_npeers : npeers rf' = npeers rf;
  ev_me : me rf' = me rf;
  ev_term : currentTerm rf <= currentTerm rf';
  ev_vote : currentTerm rf' = currentTerm rf → votedFor rf ≠ -1 → votedFor rf' = votedFor rf;
  ev_leader : role rf' = Leader → currentTerm rf' = currentTerm rf ∧ role rf ≠ Follower;
  ev_lii : lastIncludedIndex rf <= lastIncludedIndex rf';
  ev_commit : commitIndex rf <= commitIndex rf';
  ev_applied : lastApplied rf <= lastApplied rf';
  ev_wf : wf rf → wf rf';
  ev_pers : pers_ok rf → pers_ok rf'
}.

Lemma evolves_refl rf : evolves rf rf.
Proof. constructor; try done; try lia. intros ->. done. Qed.

(** Close the goals of [evolves] left after the fields are computed. *)
Ltac evolves_tac :=
  constructor; rsimpl;
  [ done | done | try lia | try (intros; lia)
  | try first [done | intros ->; done | intros; split; congruence] | try lia | try lia | try lia
  | try (intros []; constructor; rsimpl; first [done | lia])
  | first [ by eapply pers_ok_frame
          | intros _; apply persist_pers_ok
          | intros _; by eapply pers_ok_persist
          | intros _; by eapply pers_ok_save
          | idtac ] ].

Context `{!GobRegistered (RaftVal cmd)}.

Lemma stepDown_evolves term rf : currentTerm rf < term → evolves rf (stepDown term rf).
Proof. intros Hlt. unfold stepDown. evolves_tac. Qed.

Lemma evolves_then rf1 rf2 rf3 :
  evolves rf1 rf2 → evolves rf2 rf3 → (role rf3 = Leader → role rf2 = Leader) →
  evolves rf1 rf3.
Proof.
  intros [] [] Hl. constructor; try lia; try (etrans; eassumption); auto.
  intros Hr. destruct (ev_leader0 (Hl Hr)). destruct (ev_leader1 Hr). split; [lia|done].
Qed.

Lemma RequestVote_evolves now args rf rf' r :
  RequestVote now args rf = Some (rf', r) → evolves rf rf'.
Proof.
  unfold RequestVote. intros H. destruct (_ <? _) eqn:?; [raft_case; apply evolves_refl|].
  set (rf1 := if currentTerm rf <? rv_Term args then _ else _) in *.
  assert (evolves rf rf1) as H1.
  { unfold rf1. destruct (currentTerm rf <? rv_Term args) eqn:?; bool_to_prop;
      [by apply stepDown_evolves|apply evolves_refl]. }
  clearbody rf1. raft_case; [|done].
  eapply evolves_then; [exact H1| |by rsimpl].
  bool_to_prop. evolves_tac.
Qed.

Lemma recognizeLeader_evolves now term rf :
  currentTerm rf <= term →
  evolves rf (set_lastHeartbeat now (recognizeLeader term rf)).
Proof.
  intros Hle. unfold recognizeLeader. destruct (_ <? _) eqn:?; bool_to_prop.
  - eapply evolves_then; [by apply (stepDown_evolves term)| |by rsimpl].
    unfold stepDown. evolves_tac.
  - destruct (bool_decide _); evolves_tac.
Qed.

Lemma appendLoop_evolves index es rf rf' b' :
  lastIncludedIndex rf < index <= lastLogIndex rf + 1 →
  appendLoop index es false rf = Some (rf', b') →
  evolves rf (if b' then persist rf' else rf').
Proof.
  unfold lastLogIndex. intros Hi H.
  destruct (appendLoop_spec es index false rf) as (b & Heq & _ & Hn).
  { unfold getRelativeIndex. lia. }
  rewrite Heq in H. injection H as <- <-.
  set (r := Z.to_nat (getRelativeIndex rf index)) in *.
  assert (1 <= r <= length (log rf))%nat as Hr by (unfold r, getRelativeIndex; lia).
  assert (∀ k, wf rf → wf (set_log (take r (log rf) ++ k) rf)) as Hwf.
  { intros k []. constructor; simpl; try done.
    - rewrite length_app, length_take. lia.
    - destruct (log rf) as [|x l]; [simpl in *; lia|].
      destruct r as [|r']; [lia|]. done. }
  destruct b.
  - constructor; rsimpl; try done; try lia; [intros ->; done| |].
    + intros Hw. specialize (Hwf (mergeEntries (drop r (log rf)) es) Hw).
      destruct Hwf. constructor; rsimpl; try done; try lia.
    + intros _. apply persist_pers_ok.
  - rewrite Hn, take_drop by done. change (evolves rf (set_log (log rf) rf)).
    rewrite set_log_id. apply evolves_refl.
Qed.

Lemma followCommit_evolves args rf : evolves rf (followCommit args rf).
Proof.
  unfold followCommit.
  repeat (destruct (_ <? _) eqn:?; bool_to_prop; try apply evolves_refl); evolves_tac.
Qed.

Lemma AppendEntries_evolves now args rf rf' r :
  AppendEntries now args rf = Some (rf', r) → evolves rf rf'.
Proof.
  unfold AppendEntries. intros H.
  destruct (ae_Term args <? currentTerm rf) eqn:?; [raft_case; apply evolves_refl|].
  bool_to_prop.
  pose proof (recognizeLeader_evolves now (ae_Term args) rf) as H1.
  set (rf1 := set_lastHeartbeat now (recognizeLeader (ae_Term args) rf)) in *.
  specialize (H1 ltac:(lia)).
  assert (role rf1 = Leader → role rf1 = Leader) as Hid by done. clearbody rf1.
  raft_case; bool_to_prop; try done.
  eapply evolves_then; [done| |].
  - eapply evolves_then; [|apply followCommit_evolves|].
    + eapply appendLoop_evolves; [|done]. lia.
    + unfold followCommit. by repeat destruct (_ <? _).
  - destruct (appendLoop_spec (ae_Entries args) (ae_PrevLogIndex args + 1) false rf1)
      as (b' & Heq & _). { unfold getRelativeIndex, lastLogIndex in *. lia. }
    rewrite Heq in *. simplify_eq.
    unfold followCommit. by repeat destruct (_ <? _); repeat destruct b; rsimpl.
Qed.

Lemma raiseTo_max index rf :
  raiseTo index rf = set_lastApplied (Z.max (lastApplied rf) index)
                       (set_commitIndex (Z.max (commitIndex rf) index) rf).
Proof.
  unfold raiseTo. destruct rf as [?? ?? ?? ?? ? c a]; simpl.
  destruct (c <? index) eqn:?; simpl; destruct (a <? index) eqn:?;
    simpl; bool_to_prop; f_equal; lia.
Qed.

(** Both kinds of compaction end the same way. *)
Lemma compaction_evolves snap index t l rf :
  lastIncludedIndex rf < index → Term <$> head l = Some t →
  evolves rf (saveWithSnapshot snap (raiseTo index (set_lastIncluded index t (set_log l rf)))).
Proof.
  intros Hi Hh. destruct l as [|x l]; [done|].
  assert (∀ rf', wf rf → currentTerm rf' = currentTerm rf → log rf' = x :: l → lastIncludedIndex rf' = index →
    lastIncludedTerm rf' = t → npeers rf' = npeers rf → nextIndex rf' = nextIndex rf →
    matchIndex rf' = matchIndex rf → index <= lastApplied rf' <= commitIndex rf' → wf rf') as Hwf.
  { intros rf' [] ? Hl ? ? Hn Hx Hm ?. constructor; rewrite ?Hl, ?Hn, ?Hx, ?Hm; try done; try lia.
    - simpl. lia.
    - simpl in *. congruence. }
  rewrite raiseTo_max. constructor; [..|intros _; apply saveWithSnapshot_pers_ok];
    unfold saveWithSnapshot; simpl; try done; try lia; [by intros ->|].
  intros Hw. pose proof (wf_commit _ Hw). apply Hwf; simpl; try done; lia.
Qed.

Lemma Snapshot_evolves index snap rf rf' :
  Snapshot index snap rf = Some rf' → evolves rf rf'.
Proof.
  unfold Snapshot. intros H. raft_case; bool_to_prop; [apply evolves_refl|].
  apply compaction_evolves; [done|].
  match goal with H : go_nth _ _ = Some _ |- _ => apply go_nth_Some in H end.
  rewrite compactLog_spec in *; unfold lastLogIndex, getRelativeIndex in *; [|lia].
  by simplify_eq.
Qed.

Lemma InstallSnapshot_evolves now args rf rf' r m :
  InstallSnapshot now args rf = Some (rf', r, m) → evolves rf rf'.
Proof.
  unfold InstallSnapshot. intros H.
  destruct (is_Term args <? currentTerm rf) eqn:?; [raft_case; apply evolves_refl|].
  bool_to_prop.
  pose proof (recognizeLeader_evolves now (is_Term args) rf ltac:(lia)) as H1.
  set (rf1 := set_lastHeartbeat now (recognizeLeader (is_Term args) rf)) in *. clearbody rf1.
  destruct (is_LastIncludedIndex args <=? lastIncludedIndex rf1) eqn:?;
    [by raft_case|bool_to_prop].
  apply bind_Some in H as (hasEntry & He & H). apply bind_Some in H as (newLog & Hl & H).
  injection H as <- <- <-.
  eapply evolves_then; [exact H1| |].
  - apply compaction_evolves; [done|]. destruct hasEntry; [|by simplify_eq].
    destruct (_ && _) eqn:?; [|done]. bool_to_prop.
    rewrite compactLog_spec in Hl; unfold lastLogIndex, getRelativeIndex in *; [|lia].
    by simplify_eq.
  - unfold saveWithSnapshot, raiseTo. simpl. by repeat destruct (_ <? _).
Qed.

Lemma set_all_length n x l l' : set_all n x l = Some l' → length l' = length l.
Proof.
  unfold set_all. generalize (seqZ 0 (Z.of_nat n)).
  intros ks. revert l. induction ks as [|i ks IH]; simpl; intros l H; [by simplify_eq|].
  destruct (go_set l i x) as [l1|] eqn:He; simpl in H.
  - apply IH in H. rewrite H. by eapply go_set_length.
  - exfalso. clear -H. induction ks; simpl in *; naive_solver.
Qed.

Lemma voteReply_evolves now term reply votes rf rf' votes' hb :
  handleRequestVoteReply now term reply votes rf = Some (rf', votes', hb) → evolves rf rf'.
Proof.
  unfold handleRequestVoteReply. intros H. raft_case; try apply evolves_refl; bool_to_prop.
  - by apply stepDown_evolves.
  - simpl in *. rewrite ?orb_false_iff, ?bool_decide_eq_false in *.
    repeat match goal with H : set_all _ _ _ = Some _ |- _ => apply set_all_length in H end.
    evolves_tac.
Qed.

Lemma updateCommitLoop_evolves fuel : ∀ N rf rf',
  updateCommitLoop fuel N rf = Some rf' → evolves rf rf' ∧ role rf' = role rf.
Proof.
  induction fuel as [|fuel IH]; simpl; intros N rf rf' H; [simplify_eq; auto using evolves_refl|].
  raft_case; bool_to_prop; eauto using evolves_refl.
  split; [|done]. evolves_tac.
Qed.

Lemma indices_evolves rf ni mi :
  length ni = length (nextIndex rf) → length mi = length (matchIndex rf) →
  evolves rf (set_nextIndex ni (set_matchIndex mi rf)).
Proof.
  intros Hn Hm. evolves_tac.
Qed.

Lemma nextIndex_evolves rf ni :
  length ni = length (nextIndex rf) → evolves rf (set_nextIndex ni rf).
Proof. intros Hn. evolves_tac. Qed.

Lemma appendReply_evolves peer term args reply rf rf' :
  handleAppendEntriesReply peer term args reply rf = Some rf' → evolves rf rf'.
Proof.
  unfold handleAppendEntriesReply. intros H. raft_case; try apply evolves_refl; bool_to_prop;
    repeat match goal with H : go_set _ _ _ = Some _ |- _ => apply go_set_length in H end;
    try by apply stepDown_evolves.
  2-3: by apply nextIndex_evolves.
  unfold updateCommitIndex in *.
  match goal with H : updateCommitLoop _ _ _ = Some _ |- _ =>
    apply updateCommitLoop_evolves in H as [? Hr] end.
  eapply evolves_then; [|done|by rewrite Hr]. by apply indices_evolves.
Qed.

Lemma snapshotReply_evolves peer term args reply rf rf' :
  handleInstallSnapshotReply peer term args reply rf = Some rf' → evolves rf rf'.
Proof.
  unfold handleInstallSnapshotReply. intros H.
  raft_case; try apply evolves_refl; bool_to_prop;
    repeat match goal with H : go_set _ _ _ = Some _ |- _ => apply go_set_length in H end;
    first [by apply stepDown_evolves | by apply indices_evolves].
Qed.

Lemma ticker_evolves now rnd rf rf' calls :
  tickerStep now rnd rf = Some (rf', calls) → evolves rf rf'.
Proof.
  unfold tickerStep. intros H. raft_case; [|apply evolves_refl].
  unfold startElection in *. raft_case. evolves_tac.
Qed.

Lemma Start_evolves command rf rf' res b :
  Start command rf = (rf', res, b) → evolves rf rf'.
Proof.
  unfold Start. destruct (bool_decide _); intros [= <- <- <-]; [apply evolves_refl|].
  evolves_tac. intros []. constructor; rsimpl; try done.
  - rewrite length_app. lia.
  - by destruct (log rf).
Qed.

Lemma applierBatch_evolves fuel : ∀ rf msgs rf' msgs',
  applierBatch fuel rf msgs = Some (rf', msgs') → evolves rf rf' ∧ role rf' = role rf.
Proof.
  induction fuel as [|fuel IH]; simpl; intros rf msgs rf' msgs' H;
    [simplify_eq; auto using evolves_refl|].
  raft_case; bool_to_prop; [|auto using evolves_refl].
  match goal with H : applierBatch _ _ _ = Some _ |- _ => apply IH in H as [He Hr] end.
  simpl in Hr. split; [|done]. eapply evolves_then; [|exact He|by rewrite Hr]. evolves_tac.
Qed.

Lemma applier_evolves rf rf' msgs : applierStep rf = Some (rf', msgs) → evolves rf rf'.
Proof.
  unfold applierStep. intros H. raft_case; [apply evolves_refl|].
  match goal with H : applierBatch _ _ _ = Some _ |- _ => by apply applierBatch_evolves in H as [? _] end.
Qed.

Lemma Kill_evolves rf : evolves rf (Kill rf).
Proof. unfold Kill. evolves_tac. Qed.

Lemma node_step_evolves rf rf' : node_step rf rf' → evolves rf rf'.
Proof.
  destruct 1; eauto using RequestVote_evolves, AppendEntries_evolves, InstallSnapshot_evolves,
    voteReply_evolves, appendReply_evolves, snapshotReply_evolves, ticker_evolves, Start_evolves,
    Snapshot_evolves, applier_evolves, Kill_evolves.
Qed.

End Step.
