(* ===== verification/RaftSpec.v ===== *)
(** * What a Raft peer promises

    The properties of one peer that the service above it and the other peers
    rely on: invariants along any sequence of method calls and restarts,
    recovery after a crash, absence of panics, and the functional behaviour of
    each handler on each of its branches. *)

From S2P Require Import Prelude Gob Persister Raft RaftNode.

Section Peer.
Context {cmd : Type} `{!Gob (RaftVal cmd)} `{!GobRegistered (RaftVal cmd)}.
Implicit Types rf : Raft cmd.

(** A step of a peer: a method call, or a crash followed by [Make] on the
    persister the crashed instance left behind. *)
Inductive peer_step rf : Raft cmd → Prop :=
| ps_call rf' : node_step rf rf' → peer_step rf rf'
| ps_restart now : peer_step rf (Make (npeers rf) (me rf) (persister rf) now).

Definition peer_init rf : Prop := ∃ n m now, rf = Make n m MakePersister now.

Definition peer_reachable : Raft cmd → Prop := reachable peer_init peer_step.

Lemma Make_persister n m p now : persister (Make n m p now) = p.
Proof. unfold Make, readPersist. by repeat (case_match; simplify_eq). Qed.

Lemma Make_npeers n m p now : npeers (Make n m p now) = n.
Proof. unfold Make, readPersist. by repeat (case_match; simplify_eq). Qed.

Lemma Make_me n m p now : me (Make n m p now) = m.
Proof. unfold Make, readPersist. by repeat (case_match; simplify_eq). Qed.

Lemma Make_role n m p now : role (Make n m p now) = Follower.
Proof. unfold Make, readPersist. by repeat (case_match; simplify_eq). Qed.

Lemma Make_indices n m p now rf :
  Make n m p now = rf →
  nextIndex rf = replicate n 0 ∧ matchIndex rf = replicate n 0 ∧
  commitIndex rf = lastIncludedIndex rf ∧ lastApplied rf = lastIncludedIndex rf.
Proof. intros <-. unfold Make, readPersist. by repeat (case_match; simplify_eq). Qed.

Lemma Make_fresh_wf n m now : wf (Make n m MakePersister now).
Proof. by constructor; simpl; rewrite ?length_replicate. Qed.

#[local] Opaque Make.

Lemma Make_pers n m now rf : pers_ok rf → pers_ok (Make n m (persister rf) now).
Proof.
  intros Hp n' m' now'. rewrite Make_persister. by rewrite Hp, Hp.
Qed.

Lemma Make_wf n m now rf : pers_ok rf → wf rf → wf (Make n m (persister rf) now).
Proof.
  intros Hp []. destruct (Make_indices n m (persister rf) now _ eq_refl) as (Hn & Hm & Hc & Ha).
  destruct (pvals_eq (Make n m (persister rf) now) rf (Hp n m now)) as (H1 & H2 & H3 & H4 & H5).
  constructor; rewrite ?Hn, ?Hm, ?Hc, ?Ha, ?H3, ?H4, ?H5, ?Make_npeers, ?length_replicate;
    try done; try lia.
Qed.

Lemma peer_init_ok rf : peer_init rf → wf rf ∧ pers_ok rf.
Proof.
  intros (n & m & now & ->). split; [apply Make_fresh_wf|apply Make_fresh_pers].
Qed.

Lemma peer_step_ok rf rf' : peer_step rf rf' → wf rf ∧ pers_ok rf → wf rf' ∧ pers_ok rf'.
Proof.
  intros [rf'' H|now] [Hw Hp].
  - apply node_step_evolves in H as []. auto.
  - auto using Make_wf, Make_pers.
Qed.

Lemma peer_reachable_ok rf : peer_reachable rf → wf rf ∧ pers_ok rf.
Proof.
  revert rf. apply reachable_invariant; [apply peer_init_ok|].
  intros ?????. by eapply peer_step_ok.
Qed.

(** C17. However a peer is driven - any RPCs with any arguments, any replies,
    timer ticks, client commands, snapshots, application of entries, crashes and
    restarts - its log keeps its sentinel entry (whose term is
    lastIncludedTerm), and lastIncludedIndex <= lastApplied <= commitIndex
    holds, so compaction never outruns application and application never outruns
    commitment. *)
Theorem peer_invariant rf :
  peer_reachable rf →
  1 <= len (log rf) ∧
  Term <$> logAt rf (lastIncludedIndex rf) = Some (lastIncludedTerm rf) ∧
  0 <= lastIncludedIndex rf <= lastApplied rf ∧ lastApplied rf <= commitIndex rf ∧
  length (nextIndex rf) = npeers rf ∧ length (matchIndex rf) = npeers rf.
Proof.
  intros [[] _]%peer_reachable_ok. split_and!; try done.
  unfold logAt, getRelativeIndex. rewrite Z.sub_diag, <-wf_sentinel.
  by destruct (log rf).
Qed.

(** C18. A peer can be stopped after any method call and restarted from its
    persister without losing its term, its vote, its log or the position of its
    snapshot: every method leaves the persister in step with memory. *)
Theorem crash_recovery rf n m now :
  peer_reachable rf →
  let rf' := Make n m (persister rf) now in
  currentTerm rf' = currentTerm rf ∧ votedFor rf' = votedFor rf ∧ log rf' = log rf ∧
  lastIncludedIndex rf' = lastIncludedIndex rf ∧
  lastIncludedTerm rf' = lastIncludedTerm rf ∧ role rf' = Follower ∧
  commitIndex rf' = lastIncludedIndex rf.
Proof.
  intros [_ Hp]%peer_reachable_ok. specialize (Hp n m now) as Hv.
  unfold pvals in Hv. injection Hv as ? ? ? Hi ?.
  destruct (Make_indices n m (persister rf) now _ eq_refl) as (_ & _ & Hc & _).
  cbv zeta. rewrite Make_role, Hc, Hi. done.
Qed.

Lemma peer_step_votes rf rf' :
  wf rf → pers_ok rf → peer_step rf rf' →
  currentTerm rf <= currentTerm rf' ∧
  (currentTerm rf' = currentTerm rf → votedFor rf ≠ -1 → votedFor rf' = votedFor rf).
Proof.
  intros Hw Hp [rf'' H|now].
  - apply node_step_evolves in H as []. auto.
  - destruct (pvals_eq (Make (npeers rf) (me rf) (persister rf) now) rf (Hp _ _ now))
      as (-> & -> & _).
    split; [lia|done].
Qed.

(** A peer votes at most once per term, across restarts: along any run
    from a reachable state the term never decreases, and while it stays the
    same a vote already cast is never changed. *)
Theorem one_vote_per_term rf rf' :
  peer_reachable rf → rtc peer_step rf rf' →
  currentTerm rf <= currentTerm rf' ∧
  (currentTerm rf' = currentTerm rf → votedFor rf ≠ -1 → votedFor rf' = votedFor rf).
Proof.
  intros Hr Hs. revert Hr. induction Hs as [rf|rf1 rf2 rf3 H12 _ IH]; intros Hr; [split; [lia|done]|].
  destruct (peer_reachable_ok _ Hr) as [Hw Hp].
  destruct (peer_step_votes _ _ Hw Hp H12) as [Ht Hv].
  destruct IH as [Ht' Hv']; [by eapply reach_step|]. split; [lia|].
  intros Heq Hne. rewrite Hv', Hv; [done|lia|done|lia|]. rewrite Hv; [done|lia|done].
Qed.

(** ** Absence of panics *)

Lemma lastLogTerm_ok rf : wf rf → is_Some (lastLogTerm rf).
Proof.
  intros Hw. unfold lastLogTerm. apply fmap_is_Some, go_nth_is_Some.
  pose proof (wf_log _ Hw). lia.
Qed.

Lemma RequestVote_ok now args rf : wf rf → is_Some (RequestVote now args rf).
Proof.
  intros Hw. unfold RequestVote. destruct (rv_Term args <? _) eqn:?; [done|]. bool_to_prop.
  set (rf1 := if currentTerm rf <? rv_Term args then _ else _).
  assert (wf rf1) as H1.
  { unfold rf1. destruct (currentTerm rf <? rv_Term args) eqn:?; bool_to_prop; [|done].
    by apply stepDown_evolves. }
  destruct (lastLogTerm_ok _ H1) as [t ->]. obind. by destruct (_ && _).
Qed.

Lemma firstIndexOfTerm_ok fuel : ∀ i t rf,
  i <= lastLogIndex rf + 1 → is_Some (firstIndexOfTerm fuel i t rf).
Proof.
  induction fuel as [|fuel IH]; intros i t rf Hi; cbn [firstIndexOfTerm]; [done|].
  destruct (_ <? _) eqn:?; [|done]. bool_to_prop.
  assert (is_Some (logAt rf (i - 1))) as [e ->] by (apply logAt_is_Some; lia).
  obind. destruct (_ =? _); [|done]. apply IH. lia.
Qed.

Lemma recognizeLeader_wf now term rf :
  currentTerm rf <= term → wf rf → wf (set_lastHeartbeat now (recognizeLeader term rf)).
Proof. intros ? Hw. by apply recognizeLeader_evolves. Qed.

Lemma AppendEntries_ok now args rf : wf rf → is_Some (AppendEntries now args rf).
Proof.
  intros Hw. unfold AppendEntries. destruct (ae_Term args <? _) eqn:?; [done|]. bool_to_prop.
  pose proof (recognizeLeader_wf now (ae_Term args) rf ltac:(lia) Hw) as H1.
  set (rf1 := set_lastHeartbeat _ _) in *. clearbody rf1.
  destruct (ae_PrevLogIndex args <? _) eqn:?; [done|].
  destruct (_ <? ae_PrevLogIndex args) eqn:?; [done|]. bool_to_prop.
  assert (is_Some (logAt rf1 (ae_PrevLogIndex args))) as [e ->] by (apply logAt_is_Some; lia).
  obind. destruct (negb _) eqn:?.
  - edestruct (firstIndexOfTerm_ok (Z.to_nat (ae_PrevLogIndex args - lastIncludedIndex rf1))
      (ae_PrevLogIndex args) (Term e) rf1) as [f ->]; [lia|done].
  - edestruct (appendLoop_spec (ae_Entries args) (ae_PrevLogIndex args + 1) false rf1)
      as (b & -> & _); [unfold getRelativeIndex, lastLogIndex in *; lia|done].
Qed.

Lemma InstallSnapshot_ok now args rf : wf rf → is_Some (InstallSnapshot now args rf).
Proof.
  intros Hw. unfold InstallSnapshot. destruct (is_Term args <? _) eqn:?; [done|]. bool_to_prop.
  pose proof (recognizeLeader_wf now (is_Term args) rf ltac:(lia) Hw) as H1.
  set (rf1 := set_lastHeartbeat _ _) in *. clearbody rf1. cbv zeta.
  destruct (is_LastIncludedIndex args <=? _) eqn:?; [done|]. bool_to_prop.
  destruct (_ && _) eqn:Hb; [|done]. bool_to_prop.
  unfold getRelativeIndex in *.
  destruct (go_nth (log rf1) (is_LastIncludedIndex args - lastIncludedIndex rf1)) as [e|] eqn:He.
  - obind. destruct (_ =? _); [|done].
    rewrite compactLog_spec by (unfold lastLogIndex; lia). done.
  - apply eq_None_not_Some in He. exfalso. apply He, go_nth_is_Some. lia.
Qed.

Lemma startElection_ok now rf : wf rf → is_Some (startElection now rf).
Proof.
  intros Hw. unfold startElection. cbv zeta.
  match goal with |- context [lastLogTerm ?r] => assert (is_Some (lastLogTerm r)) as [t ->] end;
    [|done].
  unfold lastLogTerm. rsimpl. by apply lastLogTerm_ok.
Qed.

Lemma tickerStep_ok now rnd rf : wf rf → is_Some (tickerStep now rnd rf).
Proof.
  intros Hw. unfold tickerStep. cbv zeta. destruct (_ && _); [|done].
  by destruct (startElection_ok now _ Hw) as [[rf' calls] ->].
Qed.

Lemma set_all_ok n x l : length l = n → set_all n x l = Some (replicate n x).
Proof.
  intros Hl. unfold set_all.
  assert (∀ k j l, (j + k = n)%nat → length l = n → take j l = replicate j x →
    foldl (λ ol i, l ← ol; go_set l i x) (Some l) (seqZ (Z.of_nat j) (Z.of_nat k))
    = Some (replicate n x)) as H.
  { clear l Hl. induction k as [|k IH]; intros j l Hj Hl Ht.
    - rewrite take_ge in Ht by lia. replace n with j by lia. by rewrite <-Ht.
    - rewrite seqZ_cons by lia. cbn [foldl]. obind. rewrite go_set_ok by lia.
      rewrite Nat2Z.id. replace (Z.succ (Z.of_nat j)) with (Z.of_nat (S j)) by lia.
      replace (Z.pred (Z.of_nat (S k))) with (Z.of_nat k) by lia.
      apply IH; [lia|by rewrite length_insert|].
      erewrite take_S_r by (apply list_lookup_insert_eq; lia).
      rewrite take_insert_ge by lia. rewrite Ht.
      symmetry. apply (replicate_S_end j x). }
  apply (H n 0%nat l); [lia|done|]. by rewrite take_0.
Qed.

Lemma voteReply_ok now term reply votes rf :
  wf rf → is_Some (handleRequestVoteReply now term reply votes rf).
Proof.
  intros Hw. unfold handleRequestVoteReply. cbv zeta.
  repeat (match goal with |- context [if ?b then _ else _] => destruct b end; [done || idtac|done || idtac]).
  all: try done. simpl. by rewrite !set_all_ok by (apply Hw).
Qed.

(** ** Counting replicas *)

(** The peers, other than the server, known to hold the entry at [N]. *)
Definition holders rf (N : Z) : list Z :=
  filter (λ p, p ≠ me rf ∧ N <= default (N - 1) (go_nth (matchIndex rf) p))
    (seqZ 0 (Z.of_nat (npeers rf))).

(** The server and [holders] are more than half of the peers. *)
Definition majority_holds rf (N : Z) : Prop :=
  Z.of_nat (npeers rf) / 2 < 1 + len (holders rf N).

Lemma countMatch_spec rf N :
  length (matchIndex rf) = npeers rf →
  countMatch rf N = Some (1 + len (holders rf N)).
Proof.
  intros Hl. unfold countMatch, holders.
  assert (∀ ps c, (∀ p, p ∈ ps → 0 <= p < Z.of_nat (npeers rf)) →
    foldl (λ oc p, c ← oc;
      if bool_decide (p ≠ me rf) then
        m ← go_nth (matchIndex rf) p; Some (if N <=? m then c + 1 else c)
      else Some c) (Some c) ps =
    Some (c + len (filter (λ p, p ≠ me rf ∧
            N <= default (N - 1) (go_nth (matchIndex rf) p)) ps))) as H.
  { induction ps as [|p ps IH]; intros c Hps; [simpl; f_equal; lia|].
    cbn [foldl]. obind. rewrite filter_cons.
    assert (is_Some (go_nth (matchIndex rf) p)) as [m Hm].
    { apply go_nth_is_Some. specialize (Hps p ltac:(set_solver)). lia. }
    rewrite Hm. obind. simpl default.
    destruct (decide (p = me rf)) as [->|Hne].
    - rewrite bool_decide_eq_false_2 by tauto. rewrite decide_False by tauto.
      apply IH. set_solver.
    - rewrite bool_decide_eq_true_2 by done. destruct (N <=? m) eqn:?; bool_to_prop.
      + rewrite decide_True by done. cbn [length]. rewrite IH by set_solver. f_equal. lia.
      + rewrite decide_False by lia. apply IH. set_solver. }
  apply H. intros p Hp%elem_of_seqZ. lia.
Qed.

Lemma updateCommitLoop_spec fuel : ∀ N rf,
  wf rf → N <= lastLogIndex rf → Z.of_nat fuel = Z.max 0 (N - commitIndex rf) →
  ∃ c, updateCommitLoop fuel N rf = Some (set_commitIndex c rf) ∧
    (c = commitIndex rf ∨
     commitIndex rf < c <= N ∧ Term <$> logAt rf c = Some (currentTerm rf) ∧
       majority_holds rf c) ∧
    (∀ M, c < M <= N →
       ¬ majority_holds rf M ∨
       ∃ M' e, M <= M' <= N ∧ logAt rf M' = Some e ∧ Term e ≠ currentTerm rf).
Proof.
  induction fuel as [|fuel IH]; intros N rf Hw HN Hf; cbn [updateCommitLoop].
  { exists (commitIndex rf). split_and!; [by destruct rf|by left|lia]. }
  rewrite (proj2 (Z.leb_gt _ _)) by lia.
  assert (is_Some (logAt rf N)) as [e He].
  { apply logAt_is_Some. pose proof (wf_applied _ Hw). pose proof (wf_commit _ Hw). lia. }
  rewrite He. obind. destruct (Term e =? currentTerm rf) eqn:Ht; cbn [negb]; bool_to_prop.
  2:{ exists (commitIndex rf). split_and!; [by destruct rf|by left|].
      intros M HM. right. exists N, e. split_and!; [lia|lia|done|done]. }
  rewrite countMatch_spec by apply Hw. obind.
  destruct (_ / 2 <? _) eqn:Hm; bool_to_prop.
  { exists N. split_and!; [done| |lia]. right. split_and!; [lia|lia|by rewrite He; simpl; f_equal|done]. }
  destruct (IH (N - 1) rf Hw ltac:(lia) ltac:(lia)) as (c & -> & Hc & HM).
  exists c. split_and!; [done| |].
  - destruct Hc as [->|(? & ? & ?)]; [by left|right; split_and!; done || lia].
  - intros M ?. destruct (decide (M = N)) as [->|].
    + left. unfold majority_holds. lia.
    + destruct (HM M ltac:(lia)) as [|(M' & e' & ? & ? & ?)]; [by left|].
      right. exists M', e'. split_and!; done || lia.
Qed.

Lemma updateCommitIndex_ok rf : wf rf → is_Some (updateCommitIndex rf).
Proof.
  intros Hw. unfold updateCommitIndex.
  destruct (updateCommitLoop_spec (Z.to_nat (lastLogIndex rf - commitIndex rf))
    (lastLogIndex rf) rf Hw) as (c & -> & _); [lia|lia|done].
Qed.

Lemma appendReply_ok peer term args reply rf :
  wf rf → 0 <= peer < Z.of_nat (npeers rf) →
  is_Some (handleAppendEntriesReply peer term args reply rf).
Proof.
  intros Hw Hp. unfold handleAppendEntriesReply. cbv zeta.
  destruct (_ || _); [done|]. destruct (_ <? _); [done|].
  pose proof (wf_next _ Hw) as Hn. pose proof (wf_match _ Hw) as Hm.
  destruct (aer_Success reply).
  - rewrite !go_set_ok by lia. obind. apply updateCommitIndex_ok.
    apply indices_evolves; [by rewrite length_insert..|done].
  - destruct (_ =? _); [by rewrite go_set_ok by lia|].
    assert (∀ k t, (k < length (log rf))%nat → is_Some (findConflictTerm k t rf)) as Hf.
    { induction k as [|k IH]; intros t Hk; cbn [findConflictTerm]; [done|].
      assert (is_Some (go_nth (log rf) (Z.of_nat (S k)))) as [e ->]
        by (apply go_nth_is_Some; lia).
      obind. destruct (_ =? _); [done|]. apply IH. lia. }
    destruct (Hf (length (log rf) - 1)%nat (aer_ConflictTerm reply)) as [[b i] ->].
    { pose proof (wf_log _ Hw). lia. }
    obind. by rewrite go_set_ok by lia.
Qed.

Lemma snapshotReply_ok peer term args reply rf :
  wf rf → 0 <= peer < Z.of_nat (npeers rf) →
  is_Some (handleInstallSnapshotReply peer term args reply rf).
Proof.
  intros Hw Hp. unfold handleInstallSnapshotReply.
  destruct (_ || _); [done|]. destruct (_ <? isr_Term reply); [done|].
  pose proof (wf_next _ Hw) as Hn. pose proof (wf_match _ Hw) as Hm.
  assert (is_Some (go_nth (matchIndex rf) peer)) as [m ->] by (apply go_nth_is_Some; lia).
  obind. assert (∃ mi, (if m <? is_LastIncludedIndex args
    then go_set (matchIndex rf) peer (is_LastIncludedIndex args)
    else Some (matchIndex rf)) = Some mi ∧ length mi = npeers rf) as (mi & -> & Hmi).
  { destruct (_ <? _); [|eauto]. rewrite go_set_ok by lia. eexists. split; [done|].
    by rewrite length_insert. }
  obind. assert (is_Some (go_nth mi peer)) as [m' ->] by (apply go_nth_is_Some; lia).
  obind. by rewrite go_set_ok by lia.
Qed.

Lemma Snapshot_ok index snap rf :
  index <= lastLogIndex rf → is_Some (Snapshot index snap rf).
Proof.
  intros Hi. unfold Snapshot. destruct (_ <=? _) eqn:?; [done|]. bool_to_prop.
  assert (is_Some (go_nth (log rf) (getRelativeIndex rf index))) as [e ->].
  { apply go_nth_is_Some. unfold lastLogIndex, getRelativeIndex in *. lia. }
  obind. by rewrite compactLog_spec by lia.
Qed.

Lemma sendAppend_ok peer term rf n :
  go_nth (nextIndex rf) peer = Some n → n <= lastLogIndex rf + 1 →
  is_Some (sendAppendEntriesToPeer peer term rf).
Proof.
  intros Hn Hle. unfold sendAppendEntriesToPeer. destruct (_ || _); [done|].
  rewrite Hn. obind. destruct (_ <=? _) eqn:?; [done|]. bool_to_prop. cbv zeta.
  assert (is_Some (logAt rf (n - 1))) as [e ->] by (apply logAt_is_Some; lia).
  obind. rewrite go_from_ok; [done|]. unfold getRelativeIndex, lastLogIndex in *. lia.
Qed.

(** ** Application of committed entries *)

(** The message for the entry at absolute index [i]. *)
Definition entryMsg rf (i : Z) : ApplyMsg cmd :=
  mkApplyMsg true (logAt rf i ≫= Command) i false [] 0 0.

Lemma applierBatch_spec fuel : ∀ rf msgs,
  lastIncludedIndex rf <= lastApplied rf → commitIndex rf <= lastLogIndex rf →
  lastApplied rf + Z.of_nat fuel = commitIndex rf →
  applierBatch fuel rf msgs =
    Some (set_lastApplied (commitIndex rf) rf,
          msgs ++ (entryMsg rf <$> seqZ (lastApplied rf + 1) (Z.of_nat fuel))).
Proof.
  induction fuel as [|fuel IH]; intros rf msgs Hl Hc Hf; cbn [applierBatch].
  - rewrite app_nil_r. replace (commitIndex rf) with (lastApplied rf) by lia. by destruct rf.
  - rewrite (proj2 (Z.ltb_lt _ _)) by lia.
    assert (is_Some (logAt rf (lastApplied rf + 1))) as [e He] by (apply logAt_is_Some; lia).
    simpl lastApplied.
    change (logAt (set_lastApplied (lastApplied rf + 1) rf) (lastApplied rf + 1))
      with (logAt rf (lastApplied rf + 1)).
    rewrite He. obind. rewrite IH; simpl; [|lia|by unfold lastLogIndex in *|lia].
    rewrite (seqZ_cons (lastApplied rf + 1)) by lia. f_equal. f_equal.
    rewrite <-app_assoc. f_equal. cbn [fmap list_fmap app]. f_equal.
    + unfold entryMsg. by rewrite He.
    + replace (Z.pred (Z.of_nat (S fuel))) with (Z.of_nat fuel) by lia.
      by replace (Z.succ (lastApplied rf + 1)) with (lastApplied rf + 1 + 1) by lia.
Qed.

(** One iteration of [applierLoop] under the lock. *)
Lemma applierStep_batch rf :
  peer_reachable rf → commitIndex rf <= lastLogIndex rf → killed rf = false →
  applierStep rf =
    Some (set_lastApplied (commitIndex rf) rf,
          entryMsg rf <$> seqZ (lastApplied rf + 1) (commitIndex rf - lastApplied rf)).
Proof.
  intros [[] _]%peer_reachable_ok Hc Hk. unfold applierStep. rewrite Hk, orb_false_r.
  destruct (_ <=? _) eqn:?; bool_to_prop.
  - replace (commitIndex rf) with (lastApplied rf) by lia. rewrite Z.sub_diag. by destruct rf.
  - rewrite applierBatch_spec by lia. by rewrite Z2Nat.id by lia.
Qed.

(** Whenever the committed prefix is inside the log, one iteration of
    applierLoop of a live peer hands the service exactly the entries
    lastApplied+1, ..., commitIndex, each once, in order and with the command of
    the log, and records them as applied. *)
Theorem applier_in_order rf :
  peer_reachable rf → commitIndex rf <= lastLogIndex rf → killed rf = false →
  applierStep rf =
    Some (set_lastApplied (commitIndex rf) rf,
          entryMsg rf <$> seqZ (lastApplied rf + 1) (commitIndex rf - lastApplied rf)).
Proof. apply applierStep_batch. Qed.

Lemma applierStep_ok rf :
  wf rf → commitIndex rf <= lastLogIndex rf → is_Some (applierStep rf).
Proof.
  intros Hw Hc. unfold applierStep. destruct (_ || _) eqn:?; [done|]. bool_to_prop.
  rewrite applierBatch_spec; [done|apply Hw|done|lia].
Qed.

(** No method of a reachable peer panics: the RPC handlers, the reply
    handlers (for a peer number in range) and the timer never index outside the
    log; Snapshot, applierLoop and sendAppendEntriesToPeer do not either as long
    as the index they work at is inside the log. *)
Theorem no_panic rf :
  peer_reachable rf →
  (∀ now args, is_Some (RequestVote now args rf)) ∧
  (∀ now args, is_Some (AppendEntries now args rf)) ∧
  (∀ now args, is_Some (InstallSnapshot now args rf)) ∧
  (∀ now rnd, is_Some (tickerStep now rnd rf)) ∧
  (∀ now term reply votes, is_Some (handleRequestVoteReply now term reply votes rf)) ∧
  (∀ peer term args reply, 0 <= peer < Z.of_nat (npeers rf) →
     is_Some (handleAppendEntriesReply peer term args reply rf)) ∧
  (∀ peer term args reply, 0 <= peer < Z.of_nat (npeers rf) →
     is_Some (handleInstallSnapshotReply peer term args reply rf)) ∧
  (∀ index snap, index <= lastLogIndex rf → is_Some (Snapshot index snap rf)) ∧
  (commitIndex rf <= lastLogIndex rf → is_Some (applierStep rf)) ∧
  (∀ peer term n, go_nth (nextIndex rf) peer = Some n → n <= lastLogIndex rf + 1 →
     is_Some (sendAppendEntriesToPeer peer term rf)).
Proof.
  intros [Hw _]%peer_reachable_ok.
  split_and!; intros; eauto using RequestVote_ok, AppendEntries_ok, InstallSnapshot_ok,
    tickerStep_ok, voteReply_ok, appendReply_ok, snapshotReply_ok, Snapshot_ok, sendAppend_ok,
    applierStep_ok.
Qed.

(** ** Voting *)

(** The election restriction: the candidate's log is at least as up to date. *)
Definition upToDate (args : RequestVoteArgs) rf : Prop :=
  ∃ t, lastLogTerm rf = Some t ∧
    (t < rv_LastLogTerm args ∨
     t = rv_LastLogTerm args ∧ lastLogIndex rf <= rv_LastLogIndex args).

Lemma upToDate_bool t (args : RequestVoteArgs) rf :
  lastLogTerm rf = Some t →
  (if t <? rv_LastLogTerm args then true
   else if rv_LastLogTerm args =? t then lastLogIndex rf <=? rv_LastLogIndex args
   else false) = true ↔ upToDate args rf.
Proof.
  intros Ht. unfold upToDate. rewrite Ht. split.
  - intros Hx. exists t. split; [done|].
    destruct (t <? _) eqn:?; [|destruct (_ =? _) eqn:?]; bool_to_prop; lia || done.
  - intros (t' & [= <-] & Hx).
    destruct (t <? _) eqn:?; [|destruct (_ =? _) eqn:?]; bool_to_prop; rewrite ?Z.leb_le; lia || done.
Qed.

Lemma lastLogTerm_stepDown t rf : lastLogTerm (stepDown t rf) = lastLogTerm rf.
Proof. unfold lastLogTerm, stepDown. by rsimpl. Qed.

Lemma lastLogIndex_stepDown t rf : lastLogIndex (stepDown t rf) = lastLogIndex rf.
Proof. unfold lastLogIndex, stepDown. by rsimpl. Qed.

Lemma RequestVote_result now args rf rf' r :
  RequestVote now args rf = Some (rf', r) →
  (rvr_VoteGranted r = true ↔
     currentTerm rf <= rv_Term args ∧
     (currentTerm rf < rv_Term args ∨ votedFor rf = -1 ∨ votedFor rf = rv_CandidateId args) ∧
     upToDate args rf) ∧
  currentTerm rf' = Z.max (currentTerm rf) (rv_Term args) ∧
  rvr_Term r = currentTerm rf' ∧
  votedFor rf' = (if rvr_VoteGranted r then rv_CandidateId args
                  else if currentTerm rf <? rv_Term args then -1 else votedFor rf) ∧
  log rf' = log rf ∧ commitIndex rf' = commitIndex rf.
Proof.
  unfold RequestVote. intros H.
  destruct (rv_Term args <? currentTerm rf) eqn:Hold.
  { simplify_eq. bool_to_prop. simpl.
    rewrite (proj2 (Z.ltb_ge _ _)) by lia. split_and!; try done; [|lia..]. split; [done|lia]. }
  cbv zeta in H. apply bind_Some in H as (t & Ht & H).
  assert (lastLogTerm rf = Some t) as Ht'.
  { by destruct (currentTerm rf <? rv_Term args); rewrite ?lastLogTerm_stepDown in Ht. }
  assert (∀ (b : bool) r0, lastLogIndex (if b then stepDown r0 rf else rf) = lastLogIndex rf)
    as Hli by (intros [] ?; by rewrite ?lastLogIndex_stepDown).
  rewrite Hli in H.
  pose proof (upToDate_bool t args rf Ht') as Hup.
  destruct (currentTerm rf <? rv_Term args) eqn:Hnew; bool_to_prop.
  - destruct (_ && _) eqn:Hb; unfold stepDown in *; raft_case; rsimpl; bool_to_prop.
    + split_and!; try done; [|lia]. split; [|done]. intros _. split_and!; [lia|lia|tauto].
    + split_and!; try done; [|lia]. split; [done|]. intros (_ & _ & Hu).
      apply Hup in Hu. congruence.
  - destruct (_ && _) eqn:Hb; raft_case; rsimpl; bool_to_prop.
    + split_and!; try done; [|lia]. split; [|done]. intros _.
      split_and!; [lia| |tauto]. right. destruct H; bool_to_prop; auto.
    + split_and!; try done; [|lia]. split; [done|]. intros (_ & Hv & Hu).
      apply Hup in Hu. destruct Hb as [Hb|Hb]; [bool_to_prop; lia|congruence].
Qed.

(** RequestVote grants its vote exactly when the candidate's term is not
    old, the peer is free to vote for it in that term, and its log is up to
    date; the vote is recorded, and the term of the peer becomes the maximum of
    the two in every case.  Nothing else of the replicated state changes. *)
Theorem RequestVote_spec now args rf rf' r :
  RequestVote now args rf = Some (rf', r) →
  (rvr_VoteGranted r = true ↔
     currentTerm rf <= rv_Term args ∧
     (currentTerm rf < rv_Term args ∨ votedFor rf = -1 ∨ votedFor rf = rv_CandidateId args) ∧
     upToDate args rf) ∧
  currentTerm rf' = Z.max (currentTerm rf) (rv_Term args) ∧
  rvr_Term r = currentTerm rf' ∧
  votedFor rf' = (if rvr_VoteGranted r then rv_CandidateId args
                  else if currentTerm rf <? rv_Term args then -1 else votedFor rf) ∧
  log rf' = log rf ∧ commitIndex rf' = commitIndex rf.
Proof. apply RequestVote_result. Qed.

End Peer.
