(* ===== verification/RaftReplication.v ===== *)
(** * Log replication and compaction of a Raft peer

    The functional behaviour of AppendEntries, InstallSnapshot, Snapshot and of
    the leader's bookkeeping in src/6.5840/src/raft1/raft.go, in terms of the log
    indexed by absolute positions. *)

From S2P Require Import Prelude Gob Persister Raft RaftNode RaftSpec.

Section Replication.
Context {cmd : Type} `{!Gob (RaftVal cmd)} `{!GobRegistered (RaftVal cmd)}.
Implicit Types rf : Raft cmd.
Implicit Types args : AppendEntriesArgs cmd.

(** ** The state in which a handler examines the log *)

Lemma log_recognize now t rf : log (set_lastHeartbeat now (recognizeLeader t rf)) = log rf.
Proof. unfold recognizeLeader, stepDown. by repeat case_match; rsimpl. Qed.

Lemma lii_recognize now t rf :
  lastIncludedIndex (set_lastHeartbeat now (recognizeLeader t rf)) = lastIncludedIndex rf.
Proof. unfold recognizeLeader, stepDown. by repeat case_match; rsimpl. Qed.

Lemma commit_recognize now t rf :
  commitIndex (set_lastHeartbeat now (recognizeLeader t rf)) = commitIndex rf.
Proof. unfold recognizeLeader, stepDown. by repeat case_match; rsimpl. Qed.

Lemma term_recognize now t rf :
  currentTerm rf <= t →
  currentTerm (set_lastHeartbeat now (recognizeLeader t rf)) = t.
Proof.
  intros. unfold recognizeLeader, stepDown. destruct (_ <? _) eqn:?; bool_to_prop; [by rsimpl|].
  case_match; rsimpl; lia.
Qed.

Lemma lastLogIndex_recognize now t rf :
  lastLogIndex (set_lastHeartbeat now (recognizeLeader t rf)) = lastLogIndex rf.
Proof. unfold lastLogIndex. by rewrite log_recognize, lii_recognize. Qed.

Lemma logAt_recognize now t rf i :
  logAt (set_lastHeartbeat now (recognizeLeader t rf)) i = logAt rf i.
Proof. unfold logAt, getRelativeIndex. by rewrite log_recognize, lii_recognize. Qed.

#[local] Hint Rewrite log_recognize lii_recognize commit_recognize lastLogIndex_recognize
  logAt_recognize : recog.

(** The consistency check of AppendEntries. *)
Definition prevMatches args rf : Prop :=
  lastIncludedIndex rf <= ae_PrevLogIndex args <= lastLogIndex rf ∧
  Term <$> logAt rf (ae_PrevLogIndex args) = Some (ae_PrevLogTerm args).

(** The log after AppendEntries accepted [args]. *)
Definition mergedLog args rf : list (LogEntry cmd) :=
  let k := Z.to_nat (ae_PrevLogIndex args - lastIncludedIndex rf + 1) in
  take k (log rf) ++ mergeEntries (drop k (log rf)) (ae_Entries args).

Lemma followCommit_frame args rf :
  log (followCommit args rf) = log rf ∧
  lastIncludedIndex (followCommit args rf) = lastIncludedIndex rf ∧
  currentTerm (followCommit args rf) = currentTerm rf ∧
  commitIndex (followCommit args rf) =
    Z.max (commitIndex rf)
      (Z.min (ae_LeaderCommit args) (ae_PrevLogIndex args + len (ae_Entries args))).
Proof.
  unfold followCommit. cbv zeta.
  destruct (commitIndex rf <? ae_LeaderCommit args) eqn:?; bool_to_prop;
    [|split_and!; try done; lia].
  set (n := if _ + _ <? _ then _ else _).
  assert (n = Z.min (ae_LeaderCommit args) (ae_PrevLogIndex args + len (ae_Entries args))) as ->.
  { unfold n. destruct (_ + _ <? _) eqn:?; bool_to_prop; lia. }
  destruct (commitIndex rf <? _) eqn:?; bool_to_prop; split_and!; try done; simpl; lia.
Qed.

(** The effect of accepting [args]: the reference merge of the log, and the
    commit index raised to the leader's, up to the last new entry. *)
Definition appended args rf rf' : Prop :=
  log rf' = mergedLog args rf ∧ currentTerm rf' = ae_Term args ∧
  lastIncludedIndex rf' = lastIncludedIndex rf ∧
  commitIndex rf' =
    Z.max (commitIndex rf)
      (Z.min (ae_LeaderCommit args) (ae_PrevLogIndex args + len (ae_Entries args))).

Lemma AppendEntries_result now args rf rf' r :
  wf rf → AppendEntries now args rf = Some (rf', r) →
  (aer_Success r = true ↔ currentTerm rf <= ae_Term args ∧ prevMatches args rf) ∧
  (aer_Success r = true → appended args rf rf') ∧
  (aer_Success r = false → log rf' = log rf ∧ commitIndex rf' = commitIndex rf).
Proof.
  intros Hw. unfold AppendEntries, prevMatches, appended. intros H.
  destruct (ae_Term args <? currentTerm rf) eqn:Hold.
  { simplify_eq. bool_to_prop. simpl. split_and!; try done. split; [done|lia]. }
  bool_to_prop. cbv zeta in H.
  pose proof (term_recognize now (ae_Term args) rf ltac:(lia)) as Hterm.
  rewrite lii_recognize, lastLogIndex_recognize, logAt_recognize in H.
  destruct (ae_PrevLogIndex args <? _) eqn:?;
    [|destruct (_ <? ae_PrevLogIndex args) eqn:?]; bool_to_prop.
  1-2: simplify_eq; cbn [aer_Success]; rewrite log_recognize, commit_recognize; split_and!; try done; split; [done|lia].
  apply bind_Some in H as (pe & Hpe & H).
  destruct (Term pe =? ae_PrevLogTerm args) eqn:Heq; cbn [negb] in H; bool_to_prop.
  - destruct (appendLoop_spec (ae_Entries args) (ae_PrevLogIndex args + 1) false
      (set_lastHeartbeat now (recognizeLeader (ae_Term args) rf))) as (b & Hl & _ & _).
    { unfold getRelativeIndex. rewrite log_recognize, lii_recognize.
      unfold lastLogIndex in *. lia. }
    set (rf1 := set_lastHeartbeat now (recognizeLeader (ae_Term args) rf)) in *.
    match type of Hl with _ = Some (set_log ?l _, _) => set (rf2 := set_log l rf1) in * end.
    rewrite Hl in H. cbn [mbind option_bind] in H. apply (inj Some) in H.
    apply pair_equal_spec in H as [<- <-].
    destruct (followCommit_frame args (if b then persist rf2 else rf2)) as (-> & -> & -> & ->).
    assert (log rf1 = log rf) as Hl1 by apply log_recognize.
    assert (lastIncludedIndex rf1 = lastIncludedIndex rf) as Hi1 by apply lii_recognize.
    assert (commitIndex rf1 = commitIndex rf) as Hc1 by apply commit_recognize.
    cbn [aer_Success]. split_and!; [|intros _|done].
    + split; [|done]. intros _. rewrite Hpe. simpl. split_and!; [lia..|by f_equal].
    + assert (log rf2 = mergedLog args rf) as Hlog.
      { unfold rf2, mergedLog, getRelativeIndex. cbn [log set_log]. rewrite Hl1, Hi1.
        by replace (ae_PrevLogIndex args + 1 - lastIncludedIndex rf)
          with (ae_PrevLogIndex args - lastIncludedIndex rf + 1) by lia. }
      rewrite <-Hlog, <-Hi1, <-Hc1, <-Hterm.
      destruct b; rsimpl; split_and!; done.
  - apply bind_Some in H as (f & Hf & H). apply (inj Some), pair_equal_spec in H as [<- <-].
    cbn [aer_Success].
    rewrite log_recognize, commit_recognize. split_and!; try done.
    split; [done|]. rewrite Hpe. intros (_ & _ & [= ?]). congruence.
Qed.

(** C19. AppendEntries succeeds exactly when the leader's term is not old and
    the log holds an entry of term PrevLogTerm at PrevLogIndex (at or after the
    snapshot).  On success the log is the reference merge - everything up to
    PrevLogIndex, then the entries already present as long as they agree in
    term, then the leader's - and commitIndex follows the leader's up to the last
    new entry, never backwards. *)
Theorem AppendEntries_success now args rf rf' r :
  wf rf → AppendEntries now args rf = Some (rf', r) →
  (aer_Success r = true ↔ currentTerm rf <= ae_Term args ∧ prevMatches args rf) ∧
  (aer_Success r = true → appended args rf rf') ∧
  (aer_Success r = false → log rf' = log rf ∧ commitIndex rf' = commitIndex rf).
Proof. apply AppendEntries_result. Qed.

(** ** Entries before the leader's commit index survive *)

(** The new entries agree with the peer's committed ones: what Log Matching and
    Leader Completeness give for the messages of a leader. *)
Definition ae_compatible args rf : Prop :=
  ∀ (i : nat) e, ae_Entries args !! i = Some e →
    ae_PrevLogIndex args + 1 + Z.of_nat i <= commitIndex rf →
    ∃ e', logAt rf (ae_PrevLogIndex args + 1 + Z.of_nat i) = Some e' ∧ Term e' = Term e.

Lemma mergedLog_length args rf :
  prevMatches args rf →
  ae_PrevLogIndex args + len (ae_Entries args) <=
    len (mergedLog args rf) - 1 + lastIncludedIndex rf.
Proof.
  intros [Hr _]. unfold mergedLog, lastLogIndex in *.
  rewrite length_app, length_take.
  pose proof (mergeEntries_length
    (drop (Z.to_nat (ae_PrevLogIndex args - lastIncludedIndex rf + 1)) (log rf))
    (ae_Entries args)). lia.
Qed.

Lemma mergedLog_keeps args rf i e :
  prevMatches args rf → ae_compatible args rf → i <= commitIndex rf → logAt rf i = Some e →
  go_nth (mergedLog args rf) (i - lastIncludedIndex rf) = Some e.
Proof.
  intros [Hr _] Hc Hi He. pose proof (logAt_range _ _ _ He) as Hrange.
  unfold logAt, getRelativeIndex in He. unfold mergedLog, lastLogIndex in *.
  set (k := Z.to_nat (ae_PrevLogIndex args - lastIncludedIndex rf + 1)) in *.
  destruct (decide (i <= ae_PrevLogIndex args)).
  - rewrite go_nth_app_l by (rewrite length_take; lia). by rewrite go_nth_take by lia.
  - apply go_nth_lookup in He as [_ He]. apply go_nth_lookup. split; [lia|].
    rewrite lookup_app_r by (rewrite length_take; lia).
    rewrite length_take_le by lia.
    apply mergeEntries_prefix.
    + intros j x e0 Hj Hx He0. rewrite lookup_drop in Hx.
      destruct (Hc j e0 He0) as (e' & He' & Ht); [lia|].
      unfold logAt, getRelativeIndex in He'. apply go_nth_lookup in He' as [_ He'].
      rewrite <-Ht. f_equal.
      replace (Z.to_nat (ae_PrevLogIndex args + 1 + Z.of_nat j - lastIncludedIndex rf))
        with (k + j)%nat in He' by lia. congruence.
    + rewrite lookup_drop. rewrite <-He. f_equal. lia.
Qed.

(** When the leader's entries agree with the committed ones, a successful
    AppendEntries keeps every committed entry, has the leader's terms at the
    positions of the new entries, and leaves commitIndex inside the log. *)
Theorem AppendEntries_keeps_committed now args rf rf' r :
  wf rf → commitIndex rf <= lastLogIndex rf → ae_compatible args rf →
  AppendEntries now args rf = Some (rf', r) → aer_Success r = true →
  (∀ i e, i <= commitIndex rf → logAt rf i = Some e → logAt rf' i = Some e) ∧
  (∀ (i : nat) e, ae_Entries args !! i = Some e →
     Term <$> logAt rf' (ae_PrevLogIndex args + 1 + Z.of_nat i) = Some (Term e)) ∧
  commitIndex rf' <= lastLogIndex rf'.
Proof.
  intros Hw Hci Hc H Hs.
  destruct (AppendEntries_result _ _ _ _ _ Hw H) as (Hiff & Hok & _).
  destruct (Hok Hs) as (Hlog & _ & Hlii & Hcom). apply Hiff in Hs as [_ Hp].
  pose proof (mergedLog_length _ _ Hp) as Hlen.
  unfold logAt, getRelativeIndex, lastLogIndex in *. rewrite Hlog, Hlii.
  split_and!.
  - intros i e Hi He. by apply mergedLog_keeps.
  - intros i e He. destruct Hp as [Hr _]. unfold mergedLog, lastLogIndex in *.
    set (k := Z.to_nat (ae_PrevLogIndex args - lastIncludedIndex rf + 1)) in *.
    destruct (mergeEntries_entries (drop k (log rf)) _ _ _ He) as (x & Hx & <-).
    replace (go_nth _ _) with (Some x); [done|]. symmetry. apply go_nth_lookup. split; [lia|].
    rewrite lookup_app_r by (rewrite length_take; lia). rewrite length_take_le by lia.
    rewrite <-Hx. f_equal. lia.
  - destruct (decide (commitIndex rf' = commitIndex rf)) as [->|]; [|lia].
    assert (is_Some (logAt rf (commitIndex rf))) as [e He].
    { apply logAt_is_Some. pose proof (wf_applied _ Hw). pose proof (wf_commit _ Hw).
      unfold lastLogIndex. lia. }
    pose proof (mergedLog_keeps args rf (commitIndex rf) e Hp Hc ltac:(lia) He) as Hk.
    apply go_nth_Some in Hk. lia.
Qed.

(** ** Fast backup *)

Lemma firstIndexOfTerm_spec fuel : ∀ i t rf f,
  lastIncludedIndex rf <= i → Z.of_nat fuel = i - lastIncludedIndex rf →
  firstIndexOfTerm fuel i t rf = Some f →
  lastIncludedIndex rf <= f <= i ∧
  (∀ j, f <= j < i → Term <$> logAt rf j = Some t) ∧
  (f = lastIncludedIndex rf ∨ ∃ e, logAt rf (f - 1) = Some e ∧ Term e ≠ t).
Proof.
  induction fuel as [|fuel IH]; intros i t rf f Hi Hf H; cbn [firstIndexOfTerm] in H.
  - simplify_eq. split_and!; [lia|lia|lia|left; lia].
  - rewrite (proj2 (Z.ltb_lt _ _)) in H by lia.
    apply bind_Some in H as (e & He & H). destruct (Term e =? t) eqn:Ht; bool_to_prop.
    + apply IH in H as (? & Hall & ?); [|lia..]. split_and!; [lia|lia| |done].
      intros j Hj. destruct (decide (j = i - 1)) as [->|]; [|apply Hall; lia].
      rewrite He. simpl. by f_equal.
    + simplify_eq. split_and!; [lia|lia|lia|]. right. eauto.
Qed.

Lemma AppendEntries_rejects now args rf rf' r :
  wf rf → currentTerm rf <= ae_Term args →
  AppendEntries now args rf = Some (rf', r) → aer_Success r = false →
  log rf' = log rf ∧ commitIndex rf' = commitIndex rf ∧ aer_Term r = ae_Term args ∧
  (ae_PrevLogIndex args < lastIncludedIndex rf ∧ aer_ConflictTerm r = -1 ∧
     aer_ConflictIndex r = lastIncludedIndex rf + 1
   ∨ lastLogIndex rf < ae_PrevLogIndex args ∧ aer_ConflictTerm r = -1 ∧
     aer_ConflictIndex r = lastLogIndex rf + 1
   ∨ lastIncludedIndex rf <= ae_PrevLogIndex args <= lastLogIndex rf ∧
     aer_ConflictTerm r ≠ ae_PrevLogTerm args ∧
     lastIncludedIndex rf <= aer_ConflictIndex r <= ae_PrevLogIndex args ∧
     (∀ j, aer_ConflictIndex r <= j <= ae_PrevLogIndex args →
        Term <$> logAt rf j = Some (aer_ConflictTerm r)) ∧
     (aer_ConflictIndex r = lastIncludedIndex rf ∨
      ∃ e, logAt rf (aer_ConflictIndex r - 1) = Some e ∧ Term e ≠ aer_ConflictTerm r)).
Proof.
  intros Hw Hterm H Hs.
  destruct (AppendEntries_result _ _ _ _ _ Hw H) as (_ & _ & Hf).
  destruct (Hf Hs) as [Hlog Hcom]. split_and!; [done|done| |].
  all: unfold AppendEntries in H; rewrite (proj2 (Z.ltb_ge _ _)) in H by lia; cbv zeta in H;
    rewrite (term_recognize now (ae_Term args) rf Hterm), lii_recognize, lastLogIndex_recognize,
      logAt_recognize in H.
  - raft_case; done.
  - destruct (ae_PrevLogIndex args <? _) eqn:?; [left|right]; bool_to_prop.
    { apply (inj Some), pair_equal_spec in H as [_ <-]. done. }
    destruct (_ <? ae_PrevLogIndex args) eqn:?; [left|right]; bool_to_prop.
    { apply (inj Some), pair_equal_spec in H as [_ <-]. done. }
    apply bind_Some in H as (e & He & H). destruct (Term e =? _) eqn:?; cbn [negb] in H; bool_to_prop.
    { apply bind_Some in H as ([rf2 b] & _ & H). apply (inj Some), pair_equal_spec in H as [_ <-].
      done. }
    apply bind_Some in H as (f & Hfi & H). apply (inj Some), pair_equal_spec in H as [_ <-].
    cbn [aer_ConflictTerm aer_ConflictIndex].
    apply firstIndexOfTerm_spec in Hfi as (Hb & Hall & Hstop);
      rewrite ?lii_recognize in *; [|lia..].
    split_and!; [lia|lia|done|lia|lia| |].
    + intros j Hj. destruct (decide (j = ae_PrevLogIndex args)) as [->|].
      * by rewrite He.
      * rewrite <-(Hall j ltac:(lia)). by rewrite logAt_recognize.
    + destruct Hstop as [?|(e' & He' & ?)]; [by left|right]. exists e'.
      by rewrite logAt_recognize in He'.
Qed.

(** When AppendEntries rejects a request of a current leader, the log and
    commitIndex are unchanged and the reply locates the disagreement: for a
    PrevLogIndex before the snapshot or past the end it is the first index the
    peer can accept (with term -1); otherwise it is the term found at
    PrevLogIndex with the first index after the snapshot of the run of entries
    of that term. *)
Theorem AppendEntries_conflict now args rf rf' r :
  wf rf → currentTerm rf <= ae_Term args →
  AppendEntries now args rf = Some (rf', r) → aer_Success r = false →
  log rf' = log rf ∧ commitIndex rf' = commitIndex rf ∧ aer_Term r = ae_Term args ∧
  (ae_PrevLogIndex args < lastIncludedIndex rf ∧ aer_ConflictTerm r = -1 ∧
     aer_ConflictIndex r = lastIncludedIndex rf + 1
   ∨ lastLogIndex rf < ae_PrevLogIndex args ∧ aer_ConflictTerm r = -1 ∧
     aer_ConflictIndex r = lastLogIndex rf + 1
   ∨ lastIncludedIndex rf <= ae_PrevLogIndex args <= lastLogIndex rf ∧
     aer_ConflictTerm r ≠ ae_PrevLogTerm args ∧
     lastIncludedIndex rf <= aer_ConflictIndex r <= ae_PrevLogIndex args ∧
     (∀ j, aer_ConflictIndex r <= j <= ae_PrevLogIndex args →
        Term <$> logAt rf j = Some (aer_ConflictTerm r)) ∧
     (aer_ConflictIndex r = lastIncludedIndex rf ∨
      ∃ e, logAt rf (aer_ConflictIndex r - 1) = Some e ∧ Term e ≠ aer_ConflictTerm r)).
Proof. apply AppendEntries_rejects. Qed.

Lemma findConflictTerm_spec k : ∀ t rf b i,
  (k < length (log rf))%nat → findConflictTerm k t rf = Some (b, i) →
  (b = false → ∀ j e, lastIncludedIndex rf < j <= lastIncludedIndex rf + Z.of_nat k →
                 logAt rf j = Some e → Term e ≠ t) ∧
  (b = true → lastIncludedIndex rf < i <= lastIncludedIndex rf + Z.of_nat k ∧
     Term <$> logAt rf i = Some t ∧
     ∀ j e, i < j <= lastIncludedIndex rf + Z.of_nat k → logAt rf j = Some e → Term e ≠ t).
Proof.
  induction k as [|k IH]; intros t rf b i Hk H; cbn [findConflictTerm] in H.
  { simplify_eq. split; [intros _ j; lia|done]. }
  apply bind_Some in H as (e & He & H). unfold getAbsoluteIndex in H.
  assert (logAt rf (lastIncludedIndex rf + Z.of_nat (S k)) = Some e) as Hat.
  { unfold logAt, getRelativeIndex. rewrite <-He. f_equal. lia. }
  destruct (Term e =? t) eqn:Ht; bool_to_prop.
  - simplify_eq. split; [done|]. intros _.
    replace (Z.of_nat (S k) + lastIncludedIndex rf) with (lastIncludedIndex rf + Z.of_nat (S k))
      by lia.
    rewrite Hat. split_and!; [lia|lia|done|lia].
  - apply IH in H as [Hf Hl]; [|lia]. split.
    + intros -> j e' Hj He'.
      destruct (decide (j = lastIncludedIndex rf + Z.of_nat (S k))) as [->|]; [congruence|].
      eapply (Hf eq_refl j); [lia|done].
    + intros ->. destruct (Hl eq_refl) as (? & ? & Hr). split_and!; [lia|lia|done|].
      intros j e' Hj He'.
      destruct (decide (j = lastIncludedIndex rf + Z.of_nat (S k))) as [->|]; [congruence|].
      eapply (Hr j); [lia|done].
Qed.

(** On a rejection with a conflicting term the leader moves nextIndex for
    that peer right after its own last entry of the conflicting term, or to the
    index the peer reported when it has no entry of that term; nextIndex of the
    other peers, and everything else, is unchanged. *)
Theorem leader_backs_up peer args reply rf rf' :
  wf rf → role rf = Leader → 0 <= peer < Z.of_nat (npeers rf) →
  aer_Term reply <= currentTerm rf → aer_Success reply = false →
  handleAppendEntriesReply peer (currentTerm rf) args reply rf = Some rf' →
  ∃ n, rf' = set_nextIndex (<[Z.to_nat peer := n]> (nextIndex rf)) rf ∧
    (aer_ConflictTerm reply = -1 → n = aer_ConflictIndex reply) ∧
    (aer_ConflictTerm reply ≠ -1 →
       (n = aer_ConflictIndex reply ∧
          ∀ j e, lastIncludedIndex rf < j → logAt rf j = Some e →
                 Term e ≠ aer_ConflictTerm reply) ∨
       (lastIncludedIndex rf < n - 1 ∧
          Term <$> logAt rf (n - 1) = Some (aer_ConflictTerm reply) ∧
          ∀ j e, n - 1 < j → logAt rf j = Some e → Term e ≠ aer_ConflictTerm reply)).
Proof.
  intros Hw Hl Hp Ht Hs H. unfold handleAppendEntriesReply in H.
  rewrite bool_decide_eq_false_2, Z.eqb_refl, (proj2 (Z.ltb_ge _ _)), Hs in H by (done || tauto).
  cbn [negb orb] in H. pose proof (wf_next _ Hw) as Hn. pose proof (wf_log _ Hw).
  destruct (aer_ConflictTerm reply =? -1) eqn:Hct; bool_to_prop.
  - apply bind_Some in H as (ni & Hni & H). apply (inj Some) in H as <-.
    apply go_set_Some in Hni as [_ ->]. eexists. split_and!; [done|done|done].
  - apply bind_Some in H as ([b i] & Hf & H). apply bind_Some in H as (ni & Hni & H).
    apply (inj Some) in H as <-. apply go_set_Some in Hni as [_ ->].
    eexists. split_and!; [done|done|]. intros _.
    apply findConflictTerm_spec in Hf as [Hno Hyes]; [|lia].
    assert (∀ j e, logAt rf j = Some e →
      j <= lastIncludedIndex rf + Z.of_nat (length (log rf) - 1)) as Hlast.
    { intros j e He%logAt_range. unfold lastLogIndex in He. lia. }
    destruct b.
    + right. destruct (Hyes eq_refl) as (? & ? & Hr).
      replace (i + 1 - 1) with i by lia. split_and!; [lia|done|].
      intros j e ? He. pose proof (Hlast j e He). eapply (Hr j); [lia|done].
    + left. split; [done|]. intros j e ? He. pose proof (Hlast j e He).
      eapply (Hno eq_refl j); [lia|done].
Qed.

(** ** Commitment *)

(** C20. updateCommitIndex of a leader raises commitIndex to an index whose
    entry has the leader's current term and is held by a majority (the server
    and the peers with matchIndex at least that), and to the highest such index
    reachable without crossing an entry of an older term; it changes nothing
    else and never lowers commitIndex. *)
Theorem updateCommitIndex_spec rf :
  wf rf →
  ∃ c, updateCommitIndex rf = Some (set_commitIndex c rf) ∧
    (c = commitIndex rf ∨
     commitIndex rf < c <= lastLogIndex rf ∧
       Term <$> logAt rf c = Some (currentTerm rf) ∧ majority_holds rf c) ∧
    (∀ M, c < M <= lastLogIndex rf →
       ¬ majority_holds rf M ∨
       ∃ M' e, M <= M' <= lastLogIndex rf ∧ logAt rf M' = Some e ∧ Term e ≠ currentTerm rf).
Proof. intros Hw. apply updateCommitLoop_spec; [done|lia|lia]. Qed.

(** ** Compaction *)

Lemma compacted_logAt rf rf' index t i :
  lastIncludedIndex rf <= index <= lastLogIndex rf → index < i →
  log rf' = mkLogEntry None t :: drop (Z.to_nat (getRelativeIndex rf index + 1)) (log rf) →
  lastIncludedIndex rf' = index → logAt rf' i = logAt rf i.
Proof.
  intros Hr Hi Hl Hx. unfold logAt, getRelativeIndex in *. rewrite Hl, Hx.
  change (mkLogEntry None t :: ?l) with ([mkLogEntry None t] ++ l).
  unfold go_nth. rewrite !(proj2 (Z.leb_le 0 _)) by lia.
  rewrite lookup_app_r by (simpl; lia). rewrite lookup_drop. f_equal. simpl. lia.
Qed.

Lemma saveWithSnapshot_frame snap index i t l rf :
  let rf' := saveWithSnapshot snap (raiseTo index (set_lastIncluded i t (set_log l rf))) in
  log rf' = l ∧ lastIncludedIndex rf' = i ∧ lastIncludedTerm rf' = t ∧
  currentTerm rf' = currentTerm rf ∧ votedFor rf' = votedFor rf ∧ role rf' = role rf ∧
  commitIndex rf' = Z.max (commitIndex rf) index ∧
  lastApplied rf' = Z.max (lastApplied rf) index ∧ ReadSnapshot (persister rf') = snap.
Proof.
  cbv zeta. rewrite raiseTo_max. unfold saveWithSnapshot. cbn [log set_persister].
  rewrite ?Save_snapshot. split_and!; try done. simpl. by rewrite Save_snapshot.
Qed.

Lemma Snapshot_result index snap rf rf' :
  lastIncludedIndex rf < index <= lastLogIndex rf → Snapshot index snap rf = Some rf' →
  lastIncludedIndex rf' = index ∧
  Some (lastIncludedTerm rf') = Term <$> logAt rf index ∧
  (∀ i, index < i → logAt rf' i = logAt rf i) ∧ lastLogIndex rf' = lastLogIndex rf ∧
  ReadSnapshot (persister rf') = snap ∧ lastApplied rf' = Z.max (lastApplied rf) index ∧
  currentTerm rf' = currentTerm rf ∧ votedFor rf' = votedFor rf ∧ role rf' = role rf.
Proof.
  intros Hi H. unfold Snapshot in H. rewrite (proj2 (Z.leb_gt _ _)) in H by lia.
  apply bind_Some in H as (e & He & H). rewrite compactLog_spec in H by lia.
  cbn [mbind option_bind] in H. apply (inj Some) in H as <-.
  match goal with |- context [set_log ?l rf] => set (nl := l) end.
  destruct (saveWithSnapshot_frame snap index index (Term e) nl rf)
    as (Hl & Hli & Hlt & Ht & Hv & Hr & _ & Ha & Hs).
  rewrite Hli, Hlt, Ht, Hv, Hr, Ha, Hs. split_and!; try done.
  - unfold logAt. by rewrite He.
  - intros i ?. apply (compacted_logAt rf _ index (Term e)); [lia|done|exact Hl|exact Hli].
  - unfold lastLogIndex in *. rewrite Hl, Hli. unfold nl, getRelativeIndex. simpl.
    rewrite length_drop. lia.
Qed.

(** Snapshot(index) of an index inside the log and past the last snapshot
    trims the log to the entries after index without changing any of them or the
    last index, keeps the term of the entry at index in the sentinel, saves the
    service's snapshot with the trimmed state, and keeps term, vote and role. *)
Theorem Snapshot_trims index snap rf rf' :
  lastIncludedIndex rf < index <= lastLogIndex rf → Snapshot index snap rf = Some rf' →
  lastIncludedIndex rf' = index ∧
  Some (lastIncludedTerm rf') = Term <$> logAt rf index ∧
  (∀ i, index < i → logAt rf' i = logAt rf i) ∧ lastLogIndex rf' = lastLogIndex rf ∧
  ReadSnapshot (persister rf') = snap ∧ lastApplied rf' = Z.max (lastApplied rf) index ∧
  currentTerm rf' = currentTerm rf ∧ votedFor rf' = votedFor rf ∧ role rf' = role rf.
Proof. apply Snapshot_result. Qed.

Lemma InstallSnapshot_result now (args : InstallSnapshotArgs) rf rf' r m :
  currentTerm rf <= is_Term args → lastIncludedIndex rf < is_LastIncludedIndex args →
  InstallSnapshot now args rf = Some (rf', r, m) →
  lastIncludedIndex rf' = is_LastIncludedIndex args ∧
  lastIncludedTerm rf' = is_LastIncludedTerm args ∧
  ReadSnapshot (persister rf') = is_Data args ∧
  commitIndex rf' = Z.max (commitIndex rf) (is_LastIncludedIndex args) ∧
  lastApplied rf' = Z.max (lastApplied rf) (is_LastIncludedIndex args) ∧
  currentTerm rf' = is_Term args ∧
  m = Some (mkApplyMsg false None 0 true (is_Data args) (is_LastIncludedTerm args)
              (is_LastIncludedIndex args)) ∧
  (Term <$> logAt rf (is_LastIncludedIndex args) = Some (is_LastIncludedTerm args) →
     lastLogIndex rf' = lastLogIndex rf ∧
     ∀ i, is_LastIncludedIndex args < i → logAt rf' i = logAt rf i) ∧
  (Term <$> logAt rf (is_LastIncludedIndex args) ≠ Some (is_LastIncludedTerm args) →
     lastLogIndex rf' = is_LastIncludedIndex args).
Proof.
  intros Ht Hi H. unfold InstallSnapshot in H.
  rewrite (proj2 (Z.ltb_ge _ _)) in H by lia. cbv zeta in H.
  rewrite lii_recognize, (proj2 (Z.leb_gt _ _)) in H by lia.
  pose proof (term_recognize now (is_Term args) rf Ht) as Hterm.
  pose proof (log_recognize now (is_Term args) rf) as Hlog.
  pose proof (lii_recognize now (is_Term args) rf) as Hlii.
  pose proof (commit_recognize now (is_Term args) rf) as Hcom.
  assert (lastApplied (set_lastHeartbeat now (recognizeLeader (is_Term args) rf)) =
          lastApplied rf) as Happ.
  { unfold recognizeLeader, stepDown. by repeat case_match; rsimpl. }
  set (rf1 := set_lastHeartbeat now (recognizeLeader (is_Term args) rf)) in *. clearbody rf1.
  apply bind_Some in H as (b & Hb & H). apply bind_Some in H as (nl & Hnl & H).
  apply (inj Some), pair_equal_spec in H as [[<- _]%pair_equal_spec <-].
  destruct (saveWithSnapshot_frame (is_Data args) (is_LastIncludedIndex args)
    (is_LastIncludedIndex args) (is_LastIncludedTerm args) nl rf1)
    as (Hl & Hli & Hlt & Ht' & _ & _ & Hc & Ha & Hs).
  rewrite Hli, Hlt, Ht', Hc, Ha, Hs, Hterm, Hcom, Happ.
  assert (b = true ↔ Term <$> logAt rf (is_LastIncludedIndex args) = Some (is_LastIncludedTerm args))
    as Hiff.
  { unfold logAt, getRelativeIndex in *. rewrite Hlog, Hlii in Hb.
    destruct (_ && _) eqn:Hr; bool_to_prop.
    - apply bind_Some in Hb as (e & -> & [= <-]). simpl. rewrite Z.eqb_eq. split; congruence.
    - simplify_eq. split; [done|].
      intros (e & He & _)%fmap_Some. apply go_nth_Some in He. destruct Hr; bool_to_prop; lia. }
  split_and!; try done.
  - intros Hm%Hiff. subst b.
    destruct (0 <? _) eqn:?; [|done]. destruct (_ <? len _) eqn:?; [|done]. bool_to_prop.
    unfold getRelativeIndex in *.
    rewrite compactLog_spec in Hnl by (unfold lastLogIndex; lia). apply (inj Some) in Hnl.
    split.
    + unfold lastLogIndex. rewrite Hl, Hli, <-Hnl. unfold getRelativeIndex. simpl.
      rewrite length_drop, Hlog, Hlii. rewrite Hlog in *. lia.
    + intros i ?. pose proof (eq_trans Hl (eq_sym Hnl)) as Hl'.
      rewrite (compacted_logAt rf1 _ (is_LastIncludedIndex args) (is_LastIncludedTerm args) i);
        [|unfold lastLogIndex; lia|done|exact Hl'|exact Hli].
      unfold logAt, getRelativeIndex. by rewrite Hlog, Hlii.
  - intros Hm. destruct b; [by destruct Hm; apply Hiff|]. apply (inj Some) in Hnl as <-.
    unfold lastLogIndex. rewrite Hl, Hli. simpl. lia.
Qed.

(** C34. InstallSnapshot of a current leader with a snapshot newer than the
    peer's: afterwards the peer's snapshot is the leader's, and commitIndex and
    lastApplied are at least its index; when the peer's log has an entry of the
    snapshot's term at the snapshot's index the entries after it are kept,
    otherwise the log is emptied; the service is handed the snapshot. *)
Theorem InstallSnapshot_installs now (args : InstallSnapshotArgs) rf rf' r m :
  currentTerm rf <= is_Term args → lastIncludedIndex rf < is_LastIncludedIndex args →
  InstallSnapshot now args rf = Some (rf', r, m) →
  lastIncludedIndex rf' = is_LastIncludedIndex args ∧
  lastIncludedTerm rf' = is_LastIncludedTerm args ∧
  ReadSnapshot (persister rf') = is_Data args ∧
  commitIndex rf' = Z.max (commitIndex rf) (is_LastIncludedIndex args) ∧
  lastApplied rf' = Z.max (lastApplied rf) (is_LastIncludedIndex args) ∧
  currentTerm rf' = is_Term args ∧
  m = Some (mkApplyMsg false None 0 true (is_Data args) (is_LastIncludedTerm args)
              (is_LastIncludedIndex args)) ∧
  (Term <$> logAt rf (is_LastIncludedIndex args) = Some (is_LastIncludedTerm args) →
     lastLogIndex rf' = lastLogIndex rf ∧
     ∀ i, is_LastIncludedIndex args < i → logAt rf' i = logAt rf i) ∧
  (Term <$> logAt rf (is_LastIncludedIndex args) ≠ Some (is_LastIncludedTerm args) →
     lastLogIndex rf' = is_LastIncludedIndex args).
Proof. apply InstallSnapshot_result. Qed.

End Replication.
