(* ===== verification/RaftProtocol.v ===== *)
(** * Raft as an abstract protocol

    The protocol that src/6.5840/src/raft1/raft.go implements, without messages,
    snapshots and volatile indices: terms, votes and full logs of the servers
    and, for each term, the log of its leader.  A transition is atomic and may
    look at the state of several servers.  Its safety properties (Log Matching,
    Leader Completeness, uniqueness of the committed prefix) are proved here; that
    the cluster of RaftNet.v refines it is proved in RaftSafety.v. *)

From S2P Require Import Prelude Raft.

(** The votes granted so far: voter, term, candidate. *)
Abbreviation History := (gset (nat * Z * nat)).

Definition backed (H : History) (T : Z) (s : nat) (Q : gset nat) : Prop :=
  ∀ d, d ∈ Q → (d, T, s) ∈ H.

(** ** Logs that agree *)

Section Agreement.
Context {cmd : Type}.
Implicit Types g h : list (LogEntry cmd).

(** The term of the entry at the position [k], counted from 1; 0 before. *)
Definition tm g (k : nat) : Z :=
  match k with O => 0 | S j => from_option Term 0 (g !! j) end.

(** Both logs have [k] entries at least, and the first [k] are the same. *)
Definition agrees (k : nat) g h : Prop :=
  take k g = take k h ∧ (k <= length g)%nat ∧ (k <= length h)%nat.

#[export] Instance agrees_sym k : Symmetric (agrees k).
Proof. intros g h. unfold agrees. naive_solver. Qed.

#[export] Instance agrees_trans k : Transitive (agrees k).
Proof.
  intros g h l. unfold agrees. intros (? & ? & ?) (? & ? & ?). split_and!; [congruence|done|done].
Qed.

Lemma agrees_refl k g : (k <= length g)%nat → agrees k g g.
Proof. by intros; unfold agrees; split_and!. Qed.

Lemma agrees_0 g h : agrees 0 g h.
Proof. unfold agrees. split_and!; [done|lia|lia]. Qed.

Lemma agrees_le k m g h : agrees k g h → (m <= k)%nat → agrees m g h.
Proof.
  unfold agrees. intros (He & ? & ?) Hm. split_and!; [|lia|lia].
  rewrite <-(Nat.min_l m k), <-!take_take by done. by rewrite He.
Qed.

Lemma agrees_lookup k g h j : agrees k g h → (j < k)%nat → g !! j = h !! j.
Proof.
  intros (He & _ & _) Hj. rewrite <-(lookup_take_lt g k j), <-(lookup_take_lt h k j) by done.
  by rewrite He.
Qed.

Lemma agrees_tm k g h j : agrees k g h → (j <= k)%nat → tm g j = tm h j.
Proof. intros Ha Hj. destruct j as [|j]; [done|]. simpl. by rewrite (agrees_lookup _ _ _ j Ha). Qed.

Lemma agrees_intro k g h :
  (k <= length g)%nat → (k <= length h)%nat → (∀ j, (j < k)%nat → g !! j = h !! j) →
  agrees k g h.
Proof.
  intros ?? He. unfold agrees. split_and!; [|done|done]. apply list_eq. intros j.
  destruct (decide (j < k)%nat); [|by rewrite !lookup_take_ge by lia].
  rewrite !lookup_take_lt by done. by apply He.
Qed.

Lemma agrees_app k g h x : agrees k g h → agrees k (g ++ x) h.
Proof.
  unfold agrees. intros (He & ? & ?). split_and!; [|rewrite length_app; lia|done].
  by rewrite take_app_le.
Qed.

Lemma agrees_prefix g x : agrees (length g) (g ++ x) g.
Proof. apply agrees_app, agrees_refl. done. Qed.

Lemma agrees_take k n g : (k <= n)%nat → (k <= length g)%nat → agrees k (take n g) g.
Proof.
  intros ??. apply agrees_intro; [rewrite length_take; lia|lia|].
  intros j ?. apply lookup_take_lt. lia.
Qed.

Lemma tm_lookup g k e : g !! k = Some e → tm g (S k) = Term e.
Proof. simpl. by intros ->. Qed.

Lemma tm_Some g k T : tm g k = T → 0 < T → ∃ j e, k = S j ∧ g !! j = Some e ∧ Term e = T.
Proof. destruct k as [|j]; simpl; [lia|]. destruct (g !! j) eqn:?; simpl; [eauto|lia]. Qed.

(** The comparison of RequestVote: last terms first, then lengths. *)
Definition up_to_date g h : Prop :=
  tm h (length h) < tm g (length g) ∨
  tm h (length h) = tm g (length g) ∧ (length h <= length g)%nat.

End Agreement.

(** ** The protocol *)

Section Protocol.
Context {cmd : Type} (N : nat).
Abbreviation E := (LogEntry cmd).

(** [p_elected T] is the winner of term [T], [p_ini T] its log when it won and
    [p_ll T] its log since; [p_cand i T] is the log with which server [i] ran in
    term [T], and [p_ack T d] the longest prefix of [p_ll T] that server [d] has
    accepted. *)
Record Proto := mkProto {
  p_term : nat → Z;
  p_votes : History;
  p_log : nat → list E;
  p_elected : Z → option nat;
  p_ini : Z → list E;
  p_ll : Z → list E;
  p_cand : nat → Z → list E;
  p_ack : Z → nat → nat
}.
Implicit Types A : Proto.
Implicit Types g : list E.

Definition majority (Q : gset nat) : Prop := Z.of_nat N / 2 < Z.of_nat (size Q).

Definition set_ack (T : Z) (d n : nat) A : Z → nat → nat :=
  <[T := <[d := n]> (p_ack A T)]> (p_ack A).

Definition newterm (d : nat) (T : Z) A : Proto :=
  mkProto (<[d := T]> (p_term A)) (p_votes A) (p_log A) (p_elected A) (p_ini A) (p_ll A)
    (p_cand A) (p_ack A).

Definition run_for (i : nat) A : Proto :=
  let T := p_term A i + 1 in
  mkProto (<[i := T]> (p_term A)) ({[(i, T, i)]} ∪ p_votes A) (p_log A) (p_elected A)
    (p_ini A) (p_ll A) (<[i := <[T := p_log A i]> (p_cand A i)]> (p_cand A)) (p_ack A).

Definition cast (d : nat) (T : Z) (s : nat) A : Proto :=
  mkProto (<[d := T]> (p_term A)) ({[(d, T, s)]} ∪ p_votes A) (p_log A) (p_elected A)
    (p_ini A) (p_ll A) (p_cand A) (p_ack A).

Definition elect (i : nat) A : Proto :=
  let T := p_term A i in
  mkProto (p_term A) (p_votes A) (p_log A) (<[T := Some i]> (p_elected A))
    (<[T := p_log A i]> (p_ini A)) (<[T := p_log A i]> (p_ll A)) (p_cand A)
    (set_ack T i (length (p_log A i)) A).

Definition propose (i : nat) (e : E) A : Proto :=
  let T := p_term A i in
  let g := p_log A i ++ [e] in
  mkProto (p_term A) (p_votes A) (<[i := g]> (p_log A)) (p_elected A) (p_ini A)
    (<[T := g]> (p_ll A)) (p_cand A) (set_ack T i (length g) A).

Definition accept (d : nat) (T : Z) (n : nat) g A : Proto :=
  mkProto (<[d := T]> (p_term A)) (p_votes A) (<[d := g]> (p_log A)) (p_elected A) (p_ini A)
    (p_ll A) (p_cand A) (set_ack T d (p_ack A T d `max` n) A).

Inductive pstep A : Proto → Prop :=
(* a server hears of a newer term *)
| p_newterm d T : p_term A d < T → pstep A (newterm d T A)
(* a server becomes a candidate of the next term and votes for itself *)
| p_run i : (i < N)%nat → pstep A (run_for i A)
(* a server votes for a candidate whose log is up to date *)
| p_cast d T s :
    (d < N)%nat → p_term A d <= T → (s, T, s) ∈ p_votes A →
    (∀ s', (d, T, s') ∈ p_votes A → s' = s) → up_to_date (p_cand A s T) (p_log A d) →
    pstep A (cast d T s A)
(* a candidate wins *)
| p_elect i Q :
    p_elected A (p_term A i) = None → (i, p_term A i, i) ∈ p_votes A →
    p_log A i = p_cand A i (p_term A i) → backed (p_votes A) (p_term A i) i Q → majority Q →
    pstep A (elect i A)
(* a leader appends an entry of its term *)
| p_propose i e :
    p_elected A (p_term A i) = Some i → p_log A i = p_ll A (p_term A i) →
    Term e = p_term A i → pstep A (propose i e A)
(* a server accepts the first [n] entries of the leader of [T]: it keeps its log
   when that already starts with them, and has just them otherwise *)
| p_accept d T n g :
    is_Some (p_elected A T) → p_term A d <= T → agrees n g (p_ll A T) →
    (g = p_log A d ∨ g = take n (p_ll A T)) →
    (∀ m, agrees m (p_log A d) (p_ll A T) → agrees m g (p_ll A T)) →
    pstep A (accept d T n g A).

Definition pinit A : Prop :=
  (∀ d, p_term A d = 0 ∧ p_log A d = []) ∧ p_votes A = ∅ ∧
  (∀ T, p_elected A T = None ∧ ∀ d, p_ack A T d = 0%nat).

(** Position [k] of the log of term [T] is committed: its entry is of that term
    and a majority has accepted it. *)
Definition committed A (T : Z) (k : nat) : Prop :=
  is_Some (p_elected A T) ∧ tm (p_ll A T) k = T ∧ (0 < k <= length (p_ll A T))%nat ∧
  ∃ Q, majority Q ∧ ∀ d, d ∈ Q → (d < N)%nat ∧ (k <= p_ack A T d)%nat.

(** ** The invariant *)

(** The entries of a log that a server may have in term [T]: each is an entry of
    the leader of its term, with everything before it. *)
Definition log_ok A (T : Z) g : Prop :=
  ∀ j e, g !! j = Some e →
    0 < Term e <= T ∧ is_Some (p_elected A (Term e)) ∧ agrees (S j) g (p_ll A (Term e)).

(** No leader of a term after [T], up to [b], started without the first [k]
    entries of term [T]'s leader. *)
Definition later_ok A (T : Z) (k : nat) (b : Z) : Prop :=
  ∀ T', T < T' <= b → is_Some (p_elected A T') → agrees k (p_ll A T) (p_ini A T').

(** What server [d] has accepted is in [g] unless a leader, up to term [b], had
    lost it. *)
Definition keeps A (d : nat) (T0 : Z) (b : Z) g : Prop :=
  ∀ T k, T <= T0 → (0 < k <= p_ack A T d)%nat → tm (p_ll A T) k = T →
    later_ok A T k b → agrees k (p_ll A T) g.

Record pinv A : Prop := mkPinv {
  pi_term d : 0 <= p_term A d;
  pi_votes d T s : (d, T, s) ∈ p_votes A →
    (d < N)%nat ∧ 0 < T <= p_term A d ∧ (s, T, s) ∈ p_votes A;
  pi_fun d T s s' : (d, T, s) ∈ p_votes A → (d, T, s') ∈ p_votes A → s = s';
  pi_log d : log_ok A (p_term A d) (p_log A d);
  pi_cand i T : (i, T, i) ∈ p_votes A → log_ok A (T - 1) (p_cand A i T);
  pi_ll T s : p_elected A T = Some s →
    p_ini A T = p_cand A s T ∧
    ∃ new, p_ll A T = p_ini A T ++ new ∧ Forall (λ e, Term e = T) new;
  pi_won T s : p_elected A T = Some s →
    ∃ Q, majority Q ∧ ∀ d, d ∈ Q →
      (d, T, s) ∈ p_votes A ∧ keeps A d (T - 1) (T - 1) (p_cand A s T);
  pi_ack T d : (0 < p_ack A T d)%nat →
    is_Some (p_elected A T) ∧ T <= p_term A d ∧ (p_ack A T d <= length (p_ll A T))%nat;
  pi_kept d : keeps A d (p_term A d) (p_term A d) (p_log A d);
  pi_voted d T s : (d, T, s) ∈ p_votes A → p_elected A T = None →
    keeps A d (T - 1) (T - 1) (p_cand A s T)
}.

(** ** What a transition leaves alone *)

(** [A'] extends [A]: what was decided stays decided. *)
Record ext A A' : Prop := mkExt {
  ext_term d : p_term A d <= p_term A' d;
  ext_votes : p_votes A ⊆ p_votes A';
  ext_elected T s : p_elected A T = Some s →
    p_elected A' T = Some s ∧ p_ini A' T = p_ini A T ∧ ∃ new, p_ll A' T = p_ll A T ++ new;
  ext_cand i T : (i, T, i) ∈ p_votes A → p_cand A' i T = p_cand A i T;
  ext_ack T d : (p_ack A T d <= p_ack A' T d)%nat;
  ext_frozen T d : T < p_term A d → p_ack A' T d = p_ack A T d
}.

#[export] Instance ext_refl : Reflexive ext.
Proof.
  intros A. constructor; try done. intros T s ?. split_and!; [done|done|].
  exists []. by rewrite app_nil_r.
Qed.

#[export] Instance ext_trans : Transitive ext.
Proof.
  intros A B C [] []. constructor; eauto using Z.le_trans, Nat.le_trans.
  - set_solver.
  - intros T s (HB & HiB & n1 & Hn1)%ext_elected0.
    destruct (ext_elected1 _ _ HB) as (? & ? & n2 & Hn2). split_and!; [done|congruence|].
    exists (n1 ++ n2). by rewrite Hn2, Hn1, app_assoc.
  - intros i T Hi. rewrite ext_cand1 by by apply ext_votes0. by apply ext_cand0.
  - intros T d HT. rewrite ext_frozen1; [by apply ext_frozen0|]. specialize (ext_term0 d). lia.
Qed.

Lemma ext_is_elected A A' T :
  ext A A' → is_Some (p_elected A T) → is_Some (p_elected A' T).
Proof. intros He [s (Hs & _)%(ext_elected _ _ He)]. eauto. Qed.

(** The log of a leader only grows. *)
Lemma ext_ll A A' T k :
  ext A A' → is_Some (p_elected A T) → (k <= length (p_ll A T))%nat →
  agrees k (p_ll A' T) (p_ll A T).
Proof.
  intros He [s Hs] Hk. destruct (ext_elected _ _ He _ _ Hs) as (_ & _ & new & ->).
  by apply agrees_app, agrees_refl.
Qed.

Lemma ext_ini A A' T : ext A A' → is_Some (p_elected A T) → p_ini A' T = p_ini A T.
Proof. intros He [s Hs]. by destruct (ext_elected _ _ He _ _ Hs) as (_ & ? & _). Qed.

Lemma agrees_length_l k g h : agrees k g h → (k <= length g)%nat.
Proof. by intros (_ & ? & _). Qed.

Lemma agrees_length_r k g h : agrees k g h → (k <= length h)%nat.
Proof. by intros (_ & _ & ?). Qed.

Lemma log_ok_ext A A' T T' g : ext A A' → T <= T' → log_ok A T g → log_ok A' T' g.
Proof.
  intros He HT Hg j e Hj. destruct (Hg j e Hj) as (? & Hs & Ha).
  split_and!; [lia|lia|by eapply ext_is_elected|].
  etrans; [exact Ha|]. symmetry. eapply ext_ll; eauto using agrees_length_r.
Qed.

Lemma later_ok_ext A A' T k b b' :
  ext A A' → is_Some (p_elected A T) → (k <= length (p_ll A T))%nat → b <= b' →
  later_ok A' T k b' → later_ok A T k b.
Proof.
  intros He HT Hk Hb Hl T' HT' Hs. rewrite <-(ext_ini A A' T') by done.
  etrans; [symmetry; by eapply ext_ll|]. apply Hl; [lia|by eapply ext_is_elected].
Qed.

Lemma later_ok_le A T k b b' : b <= b' → later_ok A T k b' → later_ok A T k b.
Proof. intros Hb Hl T' ? Hs. apply Hl; [lia|done]. Qed.

(** What a server has accepted in old terms is kept by the same log. *)
Lemma keeps_ext A A' d T0 b b' g :
  pinv A → ext A A' → T0 < p_term A d → b <= b' →
  keeps A d T0 b g → keeps A' d T0 b' g.
Proof.
  intros Hi He HT Hb Hk T k HT0 Hka Ht Hl. rewrite (ext_frozen _ _ He) in Hka by lia.
  destruct (pi_ack _ Hi T d) as (Hs & _ & Hlen); [lia|].
  assert (agrees k (p_ll A' T) (p_ll A T)) as Ha by (apply ext_ll; [done|done|lia]).
  rewrite (agrees_tm _ _ _ _ Ha) in Ht by done.
  etrans; [exact Ha|]. apply Hk; [done|done|done|]. eapply later_ok_ext; eauto. lia.
Qed.

(** ** Every transition extends the state *)

Lemma set_ack_le A T d n T' d' :
  (p_ack A T d <= n)%nat → (p_ack A T' d' <= set_ack T d n A T' d')%nat.
Proof.
  intros Hn. unfold set_ack. destruct (decide (T' = T)) as [->|].
  - rewrite fn_lookup_insert. destruct (decide (d' = d)) as [->|].
    + by rewrite fn_lookup_insert.
    + by rewrite fn_lookup_insert_ne.
  - by rewrite fn_lookup_insert_ne.
Qed.

Lemma set_ack_ne A T d n T' d' :
  T ≠ T' ∨ d ≠ d' → set_ack T d n A T' d' = p_ack A T' d'.
Proof.
  intros Hn. unfold set_ack. destruct (decide (T' = T)) as [->|].
  - rewrite fn_lookup_insert. rewrite fn_lookup_insert_ne; [done|naive_solver].
  - by rewrite fn_lookup_insert_ne.
Qed.

Lemma set_ack_eq A T d n : set_ack T d n A T d = n.
Proof. unfold set_ack. by rewrite !fn_lookup_insert. Qed.

Lemma set_term_le A d T d' : p_term A d <= T → p_term A d' <= (<[d := T]> (p_term A)) d'.
Proof.
  intros. destruct (decide (d' = d)) as [->|].
  - by rewrite fn_lookup_insert.
  - by rewrite fn_lookup_insert_ne.
Qed.

Lemma set_ack_frozen A T d n T' d' :
  p_term A d <= T → T' < p_term A d' → set_ack T d n A T' d' = p_ack A T' d'.
Proof.
  intros ??. apply set_ack_ne. destruct (decide (T = T')); [subst|by left].
  right. intros ->. lia.
Qed.

Lemma not_elected_ack A T d : pinv A → p_elected A T = None → p_ack A T d = 0%nat.
Proof.
  intros Hi Hn. destruct (p_ack A T d) eqn:E; [done|].
  destruct (pi_ack _ Hi T d) as ([? ?] & _); [lia|]. congruence.
Qed.

Lemma elected_same A T s : p_elected A T = Some s → ∃ new, p_ll A T = p_ll A T ++ new.
Proof. exists []. by rewrite app_nil_r. Qed.

Lemma ack_length A T d : pinv A → (p_ack A T d <= length (p_ll A T))%nat.
Proof.
  intros Hi. destruct (p_ack A T d) eqn:E; [lia|].
  destruct (pi_ack _ Hi T d) as (_ & _ & ?); lia.
Qed.

Lemma pstep_ext A A' : pinv A → pstep A A' → ext A A'.
Proof.
  intros Hi. destruct 1 as [|i| |i Q Hn|i e Hel Hlog|d T n g]; constructor; simpl; try done;
    try set_solver; eauto using elected_same, set_term_le, Z.lt_le_incl;
    try (by intros; apply set_ack_frozen).
  - intros d. apply set_term_le. lia.
  - intros s T Hs. destruct (decide (s = i)) as [->|]; [|by rewrite fn_lookup_insert_ne].
    rewrite fn_lookup_insert, fn_lookup_insert_ne; [done|].
    apply (pi_votes _ Hi) in Hs. lia.
  - intros T s Hs. assert (T ≠ p_term A i) by congruence.
    rewrite !fn_lookup_insert_ne by done. eauto using elected_same.
  - intros T d. apply set_ack_le. rewrite not_elected_ack by done. lia.
  - intros T s Hs. split_and!; [done|done|]. destruct (decide (T = p_term A i)) as [->|].
    + rewrite fn_lookup_insert, Hlog. eauto.
    + rewrite fn_lookup_insert_ne by done. eauto using elected_same.
  - intros T d. apply set_ack_le. rewrite length_app, Hlog.
    pose proof (ack_length A (p_term A i) i Hi). lia.
  - intros T' d'. apply set_ack_le. lia.
Qed.

(** ** Log Matching and the logs of leaders *)

Lemma log_matching A T T' g h k :
  log_ok A T g → log_ok A T' h → (k <= length g)%nat → (k <= length h)%nat →
  tm g k = tm h k → agrees k g h.
Proof.
  intros Hg Hh Hkg Hkh Ht. destruct k as [|j]; [apply agrees_0|].
  destruct (lookup_lt_is_Some_2 g j) as [e He]; [lia|].
  destruct (lookup_lt_is_Some_2 h j) as [e' He']; [lia|].
  rewrite (tm_lookup _ _ _ He), (tm_lookup _ _ _ He') in Ht.
  destruct (Hg _ _ He) as (_ & _ & Ha). destruct (Hh _ _ He') as (_ & _ & Ha').
  rewrite Ht in Ha. etrans; [exact Ha|]. by symmetry.
Qed.

Lemma log_ok_take A T n g : log_ok A T g → log_ok A T (take n g).
Proof.
  intros Hg j e Hj. pose proof (lookup_lt_Some _ _ _ Hj) as Hlt. rewrite length_take in Hlt.
  rewrite lookup_take_lt in Hj by lia. destruct (Hg _ _ Hj) as (? & ? & Ha).
  split_and!; [lia|lia|done|]. etrans; [|exact Ha].
  pose proof (agrees_length_l _ _ _ Ha). apply agrees_take; lia.
Qed.

Lemma majority_nonempty Q : majority Q → ∃ d, d ∈ Q.
Proof.
  unfold majority. intros HQ. apply set_choose_L. intros ->. rewrite size_empty in HQ.
  pose proof (Z.div_pos (Z.of_nat N) 2). lia.
Qed.

Lemma elected_vote A T s : pinv A → p_elected A T = Some s → (s, T, s) ∈ p_votes A ∧ 0 < T.
Proof.
  intros Hi Hs. destruct (pi_won _ Hi _ _ Hs) as (Q & (d & Hd)%majority_nonempty & HQ).
  destruct (HQ d Hd) as [Hv _]. apply (pi_votes _ Hi) in Hv as (_ & ? & ?). split; [done|lia].
Qed.

Lemma elected_pos A T : pinv A → is_Some (p_elected A T) → 0 < T.
Proof. intros Hi [s Hs]. by destruct (elected_vote A T s Hi Hs). Qed.

(** The log with which a leader started holds older terms only. *)
Lemma ini_ok A T : pinv A → is_Some (p_elected A T) → log_ok A (T - 1) (p_ini A T).
Proof.
  intros Hi [s Hs]. destruct (pi_ll _ Hi _ _ Hs) as [-> _].
  apply (pi_cand _ Hi). by eapply elected_vote.
Qed.

Lemma ini_ll A T :
  pinv A → is_Some (p_elected A T) → agrees (length (p_ini A T)) (p_ini A T) (p_ll A T).
Proof.
  intros Hi [s Hs]. destruct (pi_ll _ Hi _ _ Hs) as (_ & new & -> & _).
  symmetry. apply agrees_prefix.
Qed.

Lemma ll_ok A T : pinv A → is_Some (p_elected A T) → log_ok A T (p_ll A T).
Proof.
  intros Hi Hs j e Hj. pose proof (lookup_lt_Some _ _ _ Hj) as Hlen.
  pose proof (ini_ok A T Hi Hs) as Hini. destruct Hs as [s Hs].
  destruct (pi_ll _ Hi _ _ Hs) as (_ & new & Hll & Hnew). rewrite Hll in Hj.
  apply lookup_app_Some in Hj as [Hj|[_ Hj]].
  - destruct (Hini _ _ Hj) as (? & ? & Ha). split_and!; [lia|lia|done|].
    rewrite Hll at 1. by apply agrees_app.
  - rewrite (Forall_lookup_1 _ _ _ _ Hnew Hj).
    apply elected_vote in Hs as Hv; [|done]. split_and!; [lia|lia|eauto|]. apply agrees_refl. lia.
Qed.

(** The entries of term [T] itself come after the log the leader started with. *)
Lemma ini_short A T k :
  pinv A → is_Some (p_elected A T) → tm (p_ll A T) k = T →
  (length (p_ini A T) < k)%nat.
Proof.
  intros Hi Hs Ht.
  pose proof (elected_pos A T Hi Hs) as HT.
  destruct (decide (k <= length (p_ini A T))%nat) as [Hle|]; [|lia]. exfalso.
  rewrite <-(agrees_tm _ _ _ _ (ini_ll A T Hi Hs)) in Ht by done.
  apply tm_Some in Ht as (j & e & -> & He & Het); [|done].
  apply (ini_ok A T Hi Hs) in He as (? & _). lia.
Qed.

(** ** Votes preserve what was accepted *)

Lemma last_entry A T g :
  log_ok A T g → 0 < tm g (length g) →
  let t := tm g (length g) in
  0 < t <= T ∧ is_Some (p_elected A t) ∧ agrees (length g) g (p_ll A t).
Proof.
  intros Hg Ht. destruct (tm_Some g (length g) _ eq_refl Ht) as (j & e & Hj & He & Het).
  destruct (Hg _ _ He) as (? & ? & Ha). cbv zeta. rewrite <-Het, Hj. split_and!; done || lia.
Qed.

Lemma up_to_date_keeps A d s T' :
  pinv A → p_term A d <= T' → p_elected A T' = None → (s, T', s) ∈ p_votes A →
  up_to_date (p_cand A s T') (p_log A d) → keeps A d (T' - 1) (T' - 1) (p_cand A s T').
Proof.
  intros Hi HT' Hn Hv Hup T k HTT' Hk Ht Hl.
  destruct (pi_ack _ Hi T d) as (Hel & HTd & _); [lia|].
  assert (agrees k (p_ll A T) (p_log A d)) as Ha.
  { apply (pi_kept _ Hi d); [done|done|done|]. intros T2 HT2 Hs2. apply Hl; [|done].
    assert (T2 ≠ T') by (intros ->; destruct Hs2; congruence). lia. }
  pose proof (agrees_length_r _ _ _ Ha) as Hkg.
  pose proof (elected_pos A T Hi Hel) as HT.
  set (g := p_log A d) in *. set (cc := p_cand A s T') in *.
  assert (0 < tm g (length g)) as Hlast.
  { destruct (length g) as [|n] eqn:En; [lia|]. destruct (lookup_lt_is_Some_2 g n) as [e He]; [lia|].
    rewrite (tm_lookup _ _ _ He). apply (pi_log _ Hi d) in He as [? _]. lia. }
  destruct (last_entry A _ _ (pi_log _ Hi d) Hlast) as (_ & Hlt & Hag).
  fold g in Hlt, Hag.
  assert (T <= tm g (length g)) as HTl.
  { rewrite (agrees_tm _ _ _ k Ha), (agrees_tm _ _ _ k Hag) in Ht by done.
    apply tm_Some in Ht as (j & e & -> & He & Het); [|done].
    apply (ll_ok A _ Hi Hlt) in He as [? _]. lia. }
  destruct (last_entry A _ _ (pi_cand _ Hi _ _ Hv)) as (Hlc & Helc & Hac).
  { destruct Hup as [|[]]; fold cc; lia. }
  fold cc in Hlc, Helc, Hac. destruct Hup as [Hup|[Hup Hlen]].
  - assert (agrees k (p_ll A T) (p_ini A (tm cc (length cc)))) as Hi2 by (apply Hl; [lia|done]).
    pose proof (agrees_length_r _ _ _ Hi2).
    assert (length (p_ini A (tm cc (length cc))) < length cc)%nat.
    { apply ini_short; [done|done|]. by rewrite <-(agrees_tm _ _ _ _ Hac). }
    etrans; [exact Hi2|]. etrans; [eapply agrees_le; [by apply ini_ll|done]|].
    symmetry. eapply agrees_le; [exact Hac|lia].
  - etrans; [exact Ha|]. etrans; [eapply agrees_le; [exact Hag|lia]|]. rewrite Hup.
    symmetry. eapply agrees_le; [exact Hac|lia].
Qed.

(** ** Leader Completeness *)

Lemma leader_complete A T k : ∀ T',
  pinv A → committed A T k → T < T' → is_Some (p_elected A T') →
  agrees k (p_ll A T) (p_ini A T').
Proof.
  intros T' Hi (Hel & Ht & Hk & Qa & HQa & Hacks). pose proof (elected_pos A T Hi Hel) as HT0.
  induction (Z.lt_wf 0 T') as [T' _ IH]. intros HT [s Hs].
  destruct (pi_won _ Hi _ _ Hs) as (Qv & HQv & Hvotes).
  destruct (majority_intersect N Qa Qv) as (d & Hda & Hdv); [| |done|done|].
  - intros d Hd%Hacks. apply elem_of_set_seq. lia.
  - intros d [Hd _]%Hvotes. apply (pi_votes _ Hi) in Hd as [? _]. apply elem_of_set_seq. lia.
  - destruct (Hacks d Hda) as [_ Hack]. destruct (Hvotes d Hdv) as [_ Hkeep].
    destruct (pi_ll _ Hi _ _ Hs) as [-> _]. apply Hkeep; [lia|lia|done|].
    intros T2 HT2 Hs2. apply IH; [lia|lia|done].
Qed.

Lemma committed_ll A T k T' :
  pinv A → committed A T k → T <= T' → is_Some (p_elected A T') →
  agrees k (p_ll A T) (p_ll A T').
Proof.
  intros Hi Hc HT Hs. destruct (decide (T = T')) as [<-|].
  - destruct Hc as (_ & _ & [_ ?] & _). by apply agrees_refl.
  - pose proof (leader_complete A T k T' Hi Hc ltac:(lia) Hs) as Ha. etrans; [exact Ha|].
    eapply agrees_le; [by apply ini_ll|]. by eapply agrees_length_r.
Qed.

(** Committed prefixes are prefixes of each other. *)
Lemma committed_agree A T k T' k' m :
  pinv A → committed A T k → committed A T' k' → (m <= k)%nat → (m <= k')%nat →
  agrees m (p_ll A T) (p_ll A T').
Proof.
  intros Hi Hc Hc' Hm Hm'. destruct (Z.le_ge_cases T T').
  - eapply agrees_le; [eapply committed_ll; eauto|done]. by destruct Hc'.
  - symmetry. eapply agrees_le; [eapply committed_ll; eauto|done]. by destruct Hc.
Qed.

(** What is committed stays committed. *)
Lemma committed_ext A A' T k : ext A A' → committed A T k → committed A' T k.
Proof.
  intros He (Hs & Ht & Hk & Q & HQ & Ha).
  pose proof (ext_ll A A' T k He Hs ltac:(lia)) as Hll.
  split_and!; [by eapply ext_is_elected| |lia|by eapply agrees_length_l|].
  - by rewrite (agrees_tm _ _ _ _ Hll).
  - exists Q. split; [done|]. intros d Hd. destruct (Ha d Hd).
    pose proof (ext_ack _ _ He T d). split; [done|lia].
Qed.

(** ** The invariant is preserved *)

(** Keeping what was accepted, when the transition accepts nothing new at [d]. *)
Lemma kept_same A A' d :
  pinv A → ext A A' →
  p_log A' d = p_log A d → (∀ T, p_ack A' T d = p_ack A T d) →
  keeps A' d (p_term A' d) (p_term A' d) (p_log A' d).
Proof.
  intros Hi He Hg Hack T k _ Hk Ht Hl. rewrite Hack in Hk. rewrite Hg.
  destruct (pi_ack _ Hi T d) as (Hs & HT & Hlen); [lia|].
  pose proof (ext_ll A A' T k He Hs ltac:(lia)) as Ha. etrans; [exact Ha|].
  apply (pi_kept _ Hi); [done|done|by rewrite <-(agrees_tm _ _ _ _ Ha)|].
  eapply later_ok_ext; eauto using ext_term. lia.
Qed.

Lemma kept_elect A i d :
  let A' := elect i A in
  pinv A → ext A A' → p_elected A (p_term A i) = None →
  keeps A' d (p_term A' d) (p_term A' d) (p_log A' d).
Proof.
  intros A' Hi He Hn. subst A'. destruct (decide (d = i)) as [->|].
  2:{ eapply kept_same; [exact Hi|exact He|done|]. intros T. simpl. apply set_ack_ne. by right. }
  intros T k HT Hk Ht Hl. simpl in *. destruct (decide (T = p_term A i)) as [->|].
  - rewrite !fn_lookup_insert in *. rewrite set_ack_eq in Hk. apply agrees_refl. lia.
  - rewrite fn_lookup_insert_ne in * by done. rewrite set_ack_ne in Hk by by left.
    apply (pi_kept _ Hi); [done|done|done|]. destruct (pi_ack _ Hi T i) as (Hs & _ & ?); [lia|].
    eapply later_ok_ext; [exact He|done|lia|done|done].
Qed.

Lemma kept_propose A i e d :
  let A' := propose i e A in
  pinv A → ext A A' → p_elected A (p_term A i) = Some i → p_log A i = p_ll A (p_term A i) →
  keeps A' d (p_term A' d) (p_term A' d) (p_log A' d).
Proof.
  intros A' Hi He Hs Hg. subst A'. destruct (decide (d = i)) as [->|].
  2:{ eapply kept_same; [exact Hi|exact He|simpl; by rewrite fn_lookup_insert_ne|]. intros T. simpl.
      apply set_ack_ne. by right. }
  intros T k HT Hk Ht Hl. simpl in *. rewrite fn_lookup_insert.
  destruct (decide (T = p_term A i)) as [->|].
  - rewrite fn_lookup_insert in *. rewrite set_ack_eq in Hk. apply agrees_refl. lia.
  - rewrite fn_lookup_insert_ne in * by done. rewrite set_ack_ne in Hk by by left.
    symmetry. apply agrees_app. symmetry.
    apply (pi_kept _ Hi); [done|done|done|]. destruct (pi_ack _ Hi T i) as (HsT & _ & ?); [lia|].
    eapply later_ok_ext; [exact He|done|lia|done|done].
Qed.

Lemma kept_accept A d T n g d' :
  let A' := accept d T n g A in
  pinv A → ext A A' → is_Some (p_elected A T) → p_term A d <= T → agrees n g (p_ll A T) →
  (∀ m, agrees m (p_log A d) (p_ll A T) → agrees m g (p_ll A T)) →
  keeps A' d' (p_term A' d') (p_term A' d') (p_log A' d').
Proof.
  intros A' Hi He Hs HT Ha Hsurv. subst A'. destruct (decide (d' = d)) as [->|].
  2:{ eapply kept_same; [exact Hi|exact He|simpl; by rewrite fn_lookup_insert_ne|]. intros T1. simpl.
      apply set_ack_ne. by right. }
  intros T1 k HT1 Hk Ht Hl. simpl in *. rewrite !fn_lookup_insert in *.
  destruct (decide (T1 = T ∧ k <= n)%nat) as [[-> ?]|Hold].
  { symmetry. by eapply agrees_le. }
  assert (k <= p_ack A T1 d)%nat as Hk'.
  { destruct (decide (T1 = T)) as [->|].
    - rewrite set_ack_eq in Hk. lia.
    - rewrite set_ack_ne in Hk by (by left). lia. }
  destruct (pi_ack _ Hi T1 d) as (Hs1 & ? & Hlen); [lia|].
  assert (later_ok A T1 k T) as Hl'.
  { eapply later_ok_ext; [exact He|done|lia|reflexivity|exact Hl]. }
  assert (agrees k (p_ll A T1) (p_log A d)) as Hkd.
  { apply (pi_kept _ Hi); [done|lia|done|]. by eapply later_ok_le. }
  assert (agrees k (p_ll A T1) (p_ll A T)) as Hll.
  { destruct (decide (T1 = T)) as [->|]; [apply agrees_refl; lia|].
    pose proof (Hl' T ltac:(lia) Hs) as Hini. etrans; [exact Hini|].
    eapply agrees_le; [by apply ini_ll|by eapply agrees_length_r]. }
  etrans; [exact Hll|]. symmetry. apply Hsurv. etrans; [symmetry; exact Hkd|exact Hll].
Qed.

(** A new vote is the only one of its voter in its term. *)
Lemma new_vote A d T s :
  pinv A → (d < N)%nat → 0 < T → p_term A d <= T → s = d ∨ (s, T, s) ∈ p_votes A →
  (∀ s', (d, T, s') ∈ p_votes A → s' = s) →
  let V := {[(d, T, s)]} ∪ p_votes A : History in
  (∀ d' T' s', (d', T', s') ∈ V →
     (d' < N)%nat ∧ 0 < T' <= (<[d := T]> (p_term A)) d' ∧ (s', T', s') ∈ V) ∧
  (∀ d' T' s1 s2, (d', T', s1) ∈ V → (d', T', s2) ∈ V → s1 = s2).
Proof.
  intros Hi Hd HT Hle Hs Hold V. subst V. split.
  - intros d' T' s' [[= -> -> ->]%elem_of_singleton|Hv]%elem_of_union.
    + rewrite fn_lookup_insert. split_and!; [done|done|done|]. destruct Hs as [->|]; set_solver.
    + apply (pi_votes _ Hi) in Hv as (? & ? & ?).
      pose proof (set_term_le A d T d' Hle). split_and!; [done|lia|lia|set_solver].
  - intros d' T' s1 s2. rewrite !elem_of_union, !elem_of_singleton.
    intros [H1|H1] [H2|H2]; simplify_eq; [done|symmetry; by apply Hold|by apply Hold|].
    by eapply (pi_fun _ Hi).
Qed.

Section Step.
Context A A' (Hi : pinv A) (Hstep : pstep A A').

Lemma step_ext : ext A A'.
Proof. by apply pstep_ext. Qed.

Lemma step_term d : 0 <= p_term A' d.
Proof. pose proof (ext_term _ _ step_ext d). pose proof (pi_term _ Hi d). lia. Qed.

Lemma step_votes :
  (∀ d T s, (d, T, s) ∈ p_votes A' →
     (d < N)%nat ∧ 0 < T <= p_term A' d ∧ (s, T, s) ∈ p_votes A') ∧
  (∀ d T s s', (d, T, s) ∈ p_votes A' → (d, T, s') ∈ p_votes A' → s = s').
Proof.
  assert ((∀ d T s, (d, T, s) ∈ p_votes A →
     (d < N)%nat ∧ 0 < T <= p_term A' d ∧ (s, T, s) ∈ p_votes A)) as Hold.
  { intros d T s Hv. pose proof (ext_term _ _ step_ext d).
    apply (pi_votes _ Hi) in Hv as (? & ? & ?). split_and!; [done|lia|lia|done]. }
  pose proof (pi_fun _ Hi) as Hfun. destruct Hstep as [|i Hn|d T s Hd HT Hs Hu| | |]; try done.
  - pose proof (pi_term _ Hi i). apply new_vote; [done|done|lia|lia|by left|].
    intros s' (_ & ? & _)%(pi_votes _ Hi). lia.
  - apply new_vote; [done|done| |done|by right|done].
    apply (pi_votes _ Hi) in Hs as (_ & ? & _). lia.
Qed.

Lemma step_log d : log_ok A' (p_term A' d) (p_log A' d).
Proof.
  assert (log_ok A' (p_term A' d) (p_log A d)) as Hold.
  { eapply log_ok_ext; [apply step_ext|apply (ext_term _ _ step_ext)|apply (pi_log _ Hi)]. }
  pose proof step_ext as He.
  destruct Hstep as [| | | |i e Hs Hg Ht|d' T n g HsT HT Ha Hcase _]; try done.
  - simpl. destruct (decide (d = i)) as [->|]; [|by rewrite fn_lookup_insert_ne].
    rewrite fn_lookup_insert. intros j x [Hj|[Hlen Hj]]%lookup_app_Some.
    + destruct (Hold _ _ Hj) as (? & ? & ?). simpl in *. split_and!; [lia|lia|done|by apply agrees_app].
    + apply list_lookup_singleton_Some in Hj as [Hj <-]. pose proof (elected_vote A _ _ Hi Hs).
      simpl in *. rewrite Ht. split_and!; [lia|lia|eauto|]. rewrite fn_lookup_insert.
      apply agrees_refl. rewrite length_app. simpl. lia.
  - simpl in *. destruct (decide (d = d')) as [->|];
      [|by rewrite (fn_lookup_insert_ne (p_log A))].
    rewrite !fn_lookup_insert in *. destruct Hcase as [->| ->]; [done|]. apply log_ok_take.
    eapply log_ok_ext; [exact He|reflexivity|by apply ll_ok].
Qed.

Lemma step_cand i T : (i, T, i) ∈ p_votes A' → log_ok A' (T - 1) (p_cand A' i T).
Proof.
  assert ((i, T, i) ∈ p_votes A → log_ok A' (T - 1) (p_cand A' i T)) as Hold.
  { intros Hv. rewrite (ext_cand _ _ step_ext) by done.
    eapply log_ok_ext; [apply step_ext|done|by apply (pi_cand _ Hi)]. }
  pose proof step_ext as He. destruct Hstep as [|j Hn|d T' s Hd HT Hs Hu| | |]; try done; simpl.
  - intros [[= -> -> _]%elem_of_singleton|Hv]%elem_of_union; [|by apply Hold].
    rewrite !fn_lookup_insert. eapply log_ok_ext; [exact He| |apply (pi_log _ Hi)]. lia.
  - intros [[= -> -> <-]%elem_of_singleton|Hv]%elem_of_union; by apply Hold.
Qed.

Lemma step_ll T s : p_elected A' T = Some s →
  p_ini A' T = p_cand A' s T ∧
  ∃ new, p_ll A' T = p_ini A' T ++ new ∧ Forall (λ e, Term e = T) new.
Proof.
  pose proof step_ext as He. intros Hs. destruct (p_elected A T) as [s'|] eqn:E.
  - assert (s' = s) as ->.
    { destruct (ext_elected _ _ He _ _ E) as [? _]. congruence. }
    destruct (pi_ll _ Hi _ _ E) as (Hini & new & Hll & Hnew).
    rewrite (ext_ini _ _ _ He), (ext_cand _ _ He) by (eauto; by apply (elected_vote _ _ _ Hi)).
    split; [done|]. destruct Hstep as [| | |i Q Hn|i e _ Hg Ht|]; eauto; simpl in *.
    + rewrite fn_lookup_insert_ne by congruence. eauto.
    + destruct (decide (T = p_term A i)) as [->|]; [|rewrite fn_lookup_insert_ne by done; eauto].
      rewrite fn_lookup_insert, Hg, Hll, <-app_assoc. eexists. split; [done|].
      apply Forall_app. split; [done|]. by constructor.
  - destruct Hstep as [| | |i Q Hn Hv Hg| |]; simpl in *; try congruence.
    destruct (decide (T = p_term A i)) as [->|].
    + rewrite !fn_lookup_insert in *. injection Hs as <-. split; [done|]. exists [].
      by rewrite app_nil_r.
    + rewrite fn_lookup_insert_ne in Hs by done. congruence.
Qed.

(** Votes keep what their voters had accepted. *)
Lemma vote_keeps_ext d T s :
  (d, T, s) ∈ p_votes A → keeps A d (T - 1) (T - 1) (p_cand A s T) →
  keeps A' d (T - 1) (T - 1) (p_cand A' s T).
Proof.
  intros Hv Hk. pose proof (pi_votes _ Hi _ _ _ Hv) as (_ & ? & ?).
  rewrite (ext_cand _ _ step_ext) by done.
  eapply keeps_ext; [exact Hi|apply step_ext|lia|done|exact Hk].
Qed.

Lemma step_won T s : p_elected A' T = Some s →
  ∃ Q, majority Q ∧ ∀ d, d ∈ Q →
    (d, T, s) ∈ p_votes A' ∧ keeps A' d (T - 1) (T - 1) (p_cand A' s T).
Proof.
  pose proof step_ext as He. intros Hs. destruct (p_elected A T) as [s'|] eqn:E.
  - assert (s' = s) as ->.
    { destruct (ext_elected _ _ He _ _ E) as [? _]. congruence. }
    destruct (pi_won _ Hi _ _ E) as (Q & HQ & Hv). exists Q. split; [done|].
    intros d [? ?]%Hv. split; [by apply (ext_votes _ _ He)|by apply vote_keeps_ext].
  - assert (∃ i Q, i = s ∧ p_term A i = T ∧ majority Q ∧ backed (p_votes A) T i Q)
      as (i & Q & -> & <- & HQ & Hb).
    { destruct Hstep as [| | |i Q Hn Hv Hg Hb HQ| |]; simpl in *; try congruence.
      destruct (decide (T = p_term A i)) as [->|].
      + rewrite fn_lookup_insert in Hs. injection Hs as <-. eauto 10.
      + rewrite fn_lookup_insert_ne in Hs by done. congruence. }
    exists Q. split; [done|]. intros d Hd%Hb.
    split; [by apply (ext_votes _ _ He)|]. apply vote_keeps_ext; [done|].
    by apply (pi_voted _ Hi).
Qed.

Lemma step_voted d T s : (d, T, s) ∈ p_votes A' → p_elected A' T = None →
  keeps A' d (T - 1) (T - 1) (p_cand A' s T).
Proof.
  intros Hv Hn. assert (p_elected A T = None) as HnA.
  { destruct (p_elected A T) eqn:E; [|done]. apply (ext_elected _ _ step_ext) in E as [? _].
    congruence. }
  assert ((d, T, s) ∈ p_votes A → keeps A' d (T - 1) (T - 1) (p_cand A' s T)) as Hold.
  { intros Hv'. apply vote_keeps_ext; [done|]. by apply (pi_voted _ Hi). }
  destruct Hstep as [|i Hi'|d' T' s' Hd HT Hs Hu Hup| | |]; try by apply Hold.
  - apply elem_of_union in Hv as [[= -> -> ->]%elem_of_singleton|Hv]; [|by apply Hold].
    simpl. rewrite !fn_lookup_insert. replace (p_term A i + 1 - 1) with (p_term A i) by lia.
    apply (pi_kept _ Hi).
  - apply elem_of_union in Hv as [[= -> -> ->]%elem_of_singleton|Hv]; [|by apply Hold].
    by apply (up_to_date_keeps A).
Qed.

Lemma step_ack T d : (0 < p_ack A' T d)%nat →
  is_Some (p_elected A' T) ∧ T <= p_term A' d ∧ (p_ack A' T d <= length (p_ll A' T))%nat.
Proof.
  pose proof step_ext as He.
  assert ((0 < p_ack A T d)%nat → is_Some (p_elected A' T) ∧ T <= p_term A' d ∧
    (p_ack A T d <= length (p_ll A' T))%nat) as Hold.
  { intros Hp. destruct (pi_ack _ Hi T d Hp) as (Hs & ? & Hl). pose proof (ext_term _ _ He d).
    split_and!; [by eapply ext_is_elected|lia|].
    pose proof (ext_ll A A' T _ He Hs Hl) as Ha. by apply agrees_length_l in Ha. }
  assert (∀ T' d' n, p_ack A' = set_ack T' d' n A →
    (T = T' → d = d' → (0 < n)%nat → is_Some (p_elected A' T) ∧ T <= p_term A' d ∧
       (n <= length (p_ll A' T))%nat) →
    (0 < p_ack A' T d)%nat → is_Some (p_elected A' T) ∧ T <= p_term A' d ∧
    (p_ack A' T d <= length (p_ll A' T))%nat) as Hnew.
  { intros T' d' n -> Hn. destruct (decide (T = T' ∧ d = d')) as [[-> ->]|].
    - rewrite set_ack_eq. by apply Hn.
    - rewrite set_ack_ne by (destruct (decide (T' = T)); naive_solver). done. }
  destruct Hstep as [| | |i Q Hn|i e Hs Hg Ht|d' T' n g HsT HT Ha _ _]; try done.
  - eapply Hnew; [done|]. intros -> -> _. simpl. rewrite !fn_lookup_insert.
    split_and!; [eauto|lia|lia].
  - eapply Hnew; [done|]. intros -> -> _. simpl. rewrite !fn_lookup_insert.
    split_and!; [eauto|lia|lia].
  - eapply Hnew; [done|]. intros -> -> _. simpl. rewrite fn_lookup_insert.
    pose proof (agrees_length_r _ _ _ Ha). pose proof (ack_length A T' d' Hi).
    split_and!; [done|done|lia].
Qed.

Lemma step_kept d : keeps A' d (p_term A' d) (p_term A' d) (p_log A' d).
Proof.
  pose proof step_ext as He.
  destruct Hstep as [| | |i Q Hn Hv Hg Hb HQ|i e Hs Hg Ht|d' T n g HsT HT Ha _ Hsurv];
    eauto using kept_same, kept_elect, kept_propose, kept_accept.
Qed.

Lemma pinv_step : pinv A'.
Proof.
  destruct step_votes. constructor; eauto using step_term, step_log, step_cand, step_ll, step_won,
    step_ack, step_kept, step_voted.
Qed.

End Step.

Lemma pinv_init A : pinit A → pinv A.
Proof.
  intros (Hd & Hv & He). constructor.
  - intros d. by destruct (Hd d) as [-> _].
  - intros d T s. rewrite Hv. set_solver.
  - intros d T s s'. rewrite Hv. set_solver.
  - intros d j e. destruct (Hd d) as [_ ->]. done.
  - intros i T. rewrite Hv. set_solver.
  - intros T s. destruct (He T) as [-> _]. done.
  - intros T s. destruct (He T) as [-> _]. done.
  - intros T d. destruct (He T) as [_ ->]. lia.
  - intros d T k _ Hk. destruct (He T) as [_ Ha]. rewrite Ha in Hk. lia.
  - intros d T s. rewrite Hv. set_solver.
Qed.

Definition proto_reachable : Proto → Prop := reachable pinit pstep.

Lemma proto_reachable_inv A : proto_reachable A → pinv A.
Proof.
  revert A. apply reachable_invariant; [apply pinv_init|]. intros A A' _ Hi Hs.
  by eapply pinv_step.
Qed.

End Protocol.

Arguments Proto : clear implicits.
