(* ===== verification/RaftLog.v ===== *)
(** * The full log of a peer

    A peer keeps the suffix of its log after the last snapshot.  [repr g rf] says
    that [g] is the whole log of which [rf] holds that suffix; the effect of the
    methods of src/6.5840/src/raft1/raft.go is restated in terms of it, in the
    form in which RaftSafety.v relates them to the transitions of RaftProtocol.v. *)

From S2P Require Import Prelude Gob Persister Raft RaftNode RaftSpec RaftReplication RaftProtocol.

Section FullLog.
Context {cmd : Type} `{!Gob (RaftVal cmd)} `{!GobRegistered (RaftVal cmd)}.
Implicit Types rf : Raft cmd.
Implicit Types g h : list (LogEntry cmd).

Definition repr g rf : Prop :=
  0 <= lastIncludedIndex rf <= len g ∧
  ∃ s, log rf = s :: drop (Z.to_nat (lastIncludedIndex rf)) g ∧
       Term s = tm g (Z.to_nat (lastIncludedIndex rf)).

Lemma repr_frame g rf rf' :
  log rf' = log rf → lastIncludedIndex rf' = lastIncludedIndex rf → repr g rf → repr g rf'.
Proof. unfold repr. by intros -> ->. Qed.

Lemma repr_last g rf : repr g rf → lastLogIndex rf = len g.
Proof.
  intros (Hi & s & Hl & _). unfold lastLogIndex. rewrite Hl. simpl. rewrite length_drop. lia.
Qed.

Lemma repr_logAt g rf i :
  repr g rf → lastIncludedIndex rf < i → logAt rf i = g !! (Z.to_nat i - 1)%nat.
Proof.
  intros (Hr & s & Hl & _) Hi. unfold logAt, getRelativeIndex, go_nth. rewrite Hl.
  rewrite (proj2 (Z.leb_le 0 _)) by lia.
  destruct (Z.to_nat (i - lastIncludedIndex rf)) as [|k] eqn:Ek; [lia|]. simpl.
  rewrite lookup_drop. f_equal. lia.
Qed.

Lemma repr_term g rf i :
  repr g rf → lastIncludedIndex rf <= i <= len g →
  Term <$> logAt rf i = Some (tm g (Z.to_nat i)).
Proof.
  intros Hg Hi. destruct (decide (i = lastIncludedIndex rf)) as [->|].
  - destruct Hg as (Hr & s & Hl & <-). unfold logAt, getRelativeIndex. by rewrite Z.sub_diag, Hl.
  - pose proof Hg as (Hr & _). rewrite (repr_logAt g) by (done || lia).
    destruct (Z.to_nat i) as [|k] eqn:Ek; [lia|]. simpl. rewrite Nat.sub_0_r.
    destruct (lookup_lt_is_Some_2 g k) as [e ->]; [lia|done].
Qed.

Lemma repr_logAt_Some g rf i e :
  repr g rf → logAt rf i = Some e → lastIncludedIndex rf <= i <= len g ∧ Term e = tm g (Z.to_nat i).
Proof.
  intros Hg He. pose proof (logAt_range _ _ _ He) as Hr. rewrite (repr_last g) in Hr by done.
  split; [done|]. pose proof (repr_term g rf i Hg Hr) as Ht. rewrite He in Ht. by injection Ht.
Qed.

(** [repr] from the entries read by absolute index. *)
Lemma repr_intro g rf :
  wf rf → lastIncludedIndex rf <= len g →
  lastIncludedTerm rf = tm g (Z.to_nat (lastIncludedIndex rf)) → lastLogIndex rf = len g →
  (∀ i, lastIncludedIndex rf < i → logAt rf i = g !! (Z.to_nat i - 1)%nat) → repr g rf.
Proof.
  intros Hw Hle Ht Hlast Hat. pose proof (wf_lii _ Hw). pose proof (wf_sentinel _ Hw) as Hs.
  split; [done|]. unfold lastLogIndex in Hlast.
  destruct (log rf) as [|s l] eqn:El; [simpl in *; lia|]. simpl in *. injection Hs as Hs.
  exists s. split; [|congruence]. f_equal. apply list_eq. intros j. rewrite lookup_drop.
  specialize (Hat (lastIncludedIndex rf + 1 + Z.of_nat j) ltac:(lia)).
  unfold logAt, getRelativeIndex, go_nth in Hat. rewrite El in Hat.
  rewrite (proj2 (Z.leb_le 0 _)) in Hat by lia.
  replace (Z.to_nat _) with (S j) in Hat by lia. simpl in Hat. rewrite Hat. f_equal. lia.
Qed.

Lemma repr_Make n m now : repr [] (Make n m MakePersister now : Raft cmd).
Proof. split; [done|]. by eexists. Qed.

(** ** What the handlers change *)

(** Nothing that matters to replication. *)
Record quiet rf rf' : Prop := mkQuiet {
  q_term : currentTerm rf' = currentTerm rf;
  q_log : log rf' = log rf;
  q_lii : lastIncludedIndex rf' = lastIncludedIndex rf;
  q_commit : commitIndex rf' = commitIndex rf;
  q_role : role rf' = role rf;
  q_match : matchIndex rf' = matchIndex rf;
  q_next : nextIndex rf' = nextIndex rf
}.

(** A newer term. *)
Record raised (T : Z) rf rf' : Prop := mkRaised {
  r_lt : currentTerm rf < T;
  r_term : currentTerm rf' = T;
  r_log : log rf' = log rf;
  r_lii : lastIncludedIndex rf' = lastIncludedIndex rf;
  r_commit : commitIndex rf' = commitIndex rf;
  r_role : role rf' = Follower
}.

(** The leader of [T] is recognized, whatever happens to the log. *)
Record follows (T : Z) rf rf' : Prop := mkFollows {
  f_le : currentTerm rf <= T;
  f_term : currentTerm rf' = T;
  f_cand : role rf' ≠ Candidate;
  f_lead : role rf' = Leader →
    role rf = Leader ∧ currentTerm rf = T ∧ matchIndex rf' = matchIndex rf ∧
    nextIndex rf' = nextIndex rf
}.

#[export] Instance quiet_refl : Reflexive quiet.
Proof. by constructor. Qed.

Lemma stepDown_raised T rf : currentTerm rf < T → raised T rf (stepDown T rf).
Proof. intros. unfold stepDown. constructor; rsimpl; done. Qed.

Lemma ticker_quiet now rnd rf rf' : tickerStep now rnd rf = Some (rf', None) → quiet rf rf'.
Proof. unfold tickerStep. intros H. by raft_case. Qed.

Lemma ticker_effect now rnd rf rf' calls :
  tickerStep now rnd rf = Some (rf', Some calls) →
  currentTerm rf' = currentTerm rf + 1 ∧ log rf' = log rf ∧
  lastIncludedIndex rf' = lastIncludedIndex rf ∧ commitIndex rf' = commitIndex rf ∧
  role rf' = Candidate ∧
  ∃ args, calls = (λ p, (p, args)) <$> otherPeers rf ∧ rv_Term args = currentTerm rf + 1 ∧
    rv_LastLogIndex args = lastLogIndex rf ∧ lastLogTerm rf = Some (rv_LastLogTerm args).
Proof.
  unfold tickerStep, startElection. intros H. raft_case. rsimpl. split_and!; try done.
  eexists (mkRequestVoteArgs _ _ _ _). unfold otherPeers, lastLogIndex, lastLogTerm in *.
  rsimpl. split_and!; done.
Qed.

Lemma RequestVote_effect now args rf rf' r :
  RequestVote now args rf = Some (rf', r) →
  (quiet rf rf' ∨ raised (rv_Term args) rf rf') ∧
  (rvr_VoteGranted r = true →
   currentTerm rf <= rv_Term args ∧ currentTerm rf' = rv_Term args ∧
   ∃ llt, lastLogTerm rf = Some llt ∧
     (llt < rv_LastLogTerm args ∨
      llt = rv_LastLogTerm args ∧ lastLogIndex rf <= rv_LastLogIndex args)).
Proof.
  unfold RequestVote. intros H.
  destruct (rv_Term args <? currentTerm rf) eqn:Hold; [by raft_case; split; [left|]|].
  bool_to_prop. cbv zeta in H.
  set (rf1 := if currentTerm rf <? rv_Term args then _ else _) in H.
  assert ((quiet rf rf1 ∧ currentTerm rf = rv_Term args) ∨ raised (rv_Term args) rf rf1) as H1.
  { unfold rf1. destruct (currentTerm rf <? rv_Term args) eqn:?; bool_to_prop;
      [right; by apply stepDown_raised|left; split; [done|lia]]. }
  assert (log rf1 = log rf ∧ lastIncludedIndex rf1 = lastIncludedIndex rf ∧
    currentTerm rf1 = rv_Term args) as (Hl & Hi & Ht).
  { destruct H1 as [[[] ?]|[]]; split_and!; congruence. }
  unfold lastLogTerm, lastLogIndex in *. rewrite Hl, Hi in H.
  apply bind_Some in H as (llt & Hllt & H). rewrite Hllt. clearbody rf1.
  destruct (_ && _) eqn:Hg in H; injection H as <- <-; cbn [rvr_VoteGranted].
  - split.
    + destruct H1 as [[[] ?]|[]]; [left|right]; constructor; rsimpl; done.
    + intros _. split_and!; [done|by rsimpl|]. exists llt. split; [done|].
      bool_to_prop. destruct (llt <? _) eqn:?; bool_to_prop; [by left|right].
      destruct (rv_LastLogTerm args =? llt) eqn:?; bool_to_prop; [split; lia|done].
  - split; [|done]. destruct H1 as [[]|]; auto.
Qed.

Lemma set_all_lookup n x l l' k m :
  length l = n → set_all n x l = Some l' → l' !! k = Some m → m = x.
Proof.
  intros Hn H Hk. rewrite <-Hn, set_all_ok in H by done. injection H as <-.
  by apply lookup_replicate in Hk as [-> _].
Qed.

Lemma voteReply_effect now term reply v rf rf' v' hb :
  wf rf → handleRequestVoteReply now term reply v rf = Some (rf', v', hb) →
  quiet rf rf' ∨ raised (rvr_Term reply) rf rf' ∨
  role rf = Candidate ∧ role rf' = Leader ∧ currentTerm rf' = currentTerm rf ∧
    log rf' = log rf ∧ lastIncludedIndex rf' = lastIncludedIndex rf ∧
    commitIndex rf' = commitIndex rf ∧
    (∀ (k : nat) m, matchIndex rf' !! k = Some m → m = 0) ∧
    (∀ (k : nat) n, nextIndex rf' !! k = Some n → n = lastLogIndex rf + 1).
Proof.
  unfold handleRequestVoteReply. intros Hw H.
  destruct (_ || _) eqn:Hg in H; [raft_case; by left|]. bool_to_prop.
  destruct (currentTerm rf <? _) eqn:? in H; bool_to_prop.
  { raft_case. right. left. by apply stepDown_raised. }
  destruct (rvr_VoteGranted reply); [|raft_case; by left].
  destruct (_ && _) eqn:Hmaj in H; [|raft_case; by left]. bool_to_prop.
  apply bind_Some in H as (ni & Hni & H). apply bind_Some in H as (mi & Hmi & H).
  injection H as <- _ _. right. right. rsimpl. split_and!; try done.
  - intros k m. eapply set_all_lookup; [|exact Hmi]. apply Hw.
  - intros k n. eapply set_all_lookup; [|exact Hni]. apply Hw.
Qed.

Lemma appendReply_effect peer term args reply rf rf' :
  wf rf → handleAppendEntriesReply peer term args reply rf = Some rf' →
  quiet rf rf' ∨ raised (aer_Term reply) rf rf' ∨
  (∃ n, rf' = set_nextIndex (<[Z.to_nat peer := n]> (nextIndex rf)) rf ∧
     currentTerm rf = term ∧ aer_Term reply <= term ∧ aer_Success reply = false ∧
     (n <= lastLogIndex rf + 1 ∨ n = aer_ConflictIndex reply)) ∨
  ∃ ni mi c,
    let rf1 := set_nextIndex ni (set_matchIndex mi rf) in
    rf' = set_commitIndex c rf1 ∧ wf rf1 ∧
    role rf = Leader ∧ currentTerm rf = term ∧ aer_Success reply = true ∧ 0 <= peer ∧
    mi = <[Z.to_nat peer := ae_PrevLogIndex args + len (ae_Entries args)]> (matchIndex rf) ∧
    ni = <[Z.to_nat peer := ae_PrevLogIndex args + len (ae_Entries args) + 1]> (nextIndex rf) ∧
    (c = commitIndex rf ∨
     commitIndex rf < c <= lastLogIndex rf ∧
       Term <$> logAt rf c = Some (currentTerm rf) ∧ majority_holds rf1 c).
Proof.
  unfold handleAppendEntriesReply. intros Hw H.
  destruct (_ || _) eqn:Hg in H; [raft_case; by left|]. bool_to_prop.
  destruct (currentTerm rf <? _) eqn:? in H; bool_to_prop.
  { raft_case. right. left. by apply stepDown_raised. }
  destruct (aer_Success reply).
  - right. right. right. apply bind_Some in H as (mi & Hmi & H). apply bind_Some in H as (ni & Hni & H).
    assert (wf (set_nextIndex ni (set_matchIndex mi rf))) as Hw1.
    { eapply ev_wf; [|exact Hw].
      apply indices_evolves; eauto using go_set_length. }
    destruct (updateCommitLoop_spec (Z.to_nat (lastLogIndex rf - commitIndex rf))
      (lastLogIndex rf) (set_nextIndex ni (set_matchIndex mi rf))) as (c & Hc & Hcase & _);
      [done|simpl; unfold lastLogIndex; simpl; lia|unfold lastLogIndex; simpl; lia|].
    unfold updateCommitIndex in H. unfold lastLogIndex in H, Hc, Hcase |- *. simpl in H, Hc, Hcase.
    rewrite Hc in H. injection H as <-. apply go_set_Some in Hmi as [? ->].
    apply go_set_Some in Hni as [_ ->]. eexists _, _, c.
    cbv zeta. split_and!; try done; try lia.
    destruct (role rf); naive_solver.
  - right. right. left. destruct (aer_ConflictTerm reply =? -1).
    + apply bind_Some in H as (ni & Hni & H). apply go_set_Some in Hni as [_ ->].
      injection H as <-. eexists. split_and!; [done|done|lia|done|by right].
    + apply bind_Some in H as ([b x] & Hf & H). apply bind_Some in H as (ni & Hni & H).
      apply go_set_Some in Hni as [_ ->]. injection H as <-.
      eexists. split_and!; [done|done|lia|done|]. destruct b; [left|by right].
      pose proof (wf_log _ Hw). apply findConflictTerm_spec in Hf as [_ Hf]; [|lia].
      destruct (Hf eq_refl) as (? & _). unfold lastLogIndex. lia.
Qed.

Lemma snapshotReply_effect peer term args reply rf rf' :
  handleInstallSnapshotReply peer term args reply rf = Some rf' →
  quiet rf rf' ∨ raised (isr_Term reply) rf rf' ∨
  currentTerm rf = term ∧ isr_Term reply <= currentTerm rf ∧ 0 <= peer ∧
    ∃ m mi, rf' = set_nextIndex (<[Z.to_nat peer := m + 1]> (nextIndex rf)) (set_matchIndex mi rf) ∧
      mi !! Z.to_nat peer = Some m ∧
      (mi = matchIndex rf ∨
       mi = <[Z.to_nat peer := is_LastIncludedIndex args]> (matchIndex rf)).
Proof.
  unfold handleInstallSnapshotReply. intros H.
  destruct (_ || _) eqn:Hg in H; [raft_case; by left|]. bool_to_prop.
  destruct (currentTerm rf <? _) eqn:? in H; bool_to_prop.
  { raft_case. right. left. by apply stepDown_raised. }
  right. right. apply bind_Some in H as (m & Hm & H). apply bind_Some in H as (mi & Hmi & H).
  apply bind_Some in H as (m' & Hm' & H). apply bind_Some in H as (ni & Hni & H).
  injection H as <-. apply go_nth_Some in Hm. split_and!; [done|done|lia|].
  apply go_set_Some in Hni as [_ ->]. apply go_nth_lookup in Hm' as [_ Hm'].
  exists m', mi. split_and!; [done|done|]. destruct (_ <? _); [right|left; congruence].
  by apply go_set_Some in Hmi as [_ ->].
Qed.

Lemma recognize_follows now T rf :
  currentTerm rf <= T → follows T rf (set_lastHeartbeat now (recognizeLeader T rf)).
Proof.
  intros Hle. pose proof (term_recognize now T rf Hle) as Ht.
  constructor; [done|done| |]; revert Ht; unfold recognizeLeader, stepDown;
    destruct (_ <? _) eqn:?; rsimpl; try done; case_bool_decide; simpl; try done.
Qed.

Lemma appendLoop_frame es : ∀ index b rf rf' b',
  appendLoop index es b rf = Some (rf', b') →
  role rf' = role rf ∧ matchIndex rf' = matchIndex rf ∧ nextIndex rf' = nextIndex rf ∧
  lastIncludedIndex rf' = lastIncludedIndex rf ∧ currentTerm rf' = currentTerm rf.
Proof.
  induction es as [|e es IH]; simpl; intros index b rf rf' b' H; raft_case; try done;
    match goal with H : appendLoop _ _ _ _ = _ |- _ => by apply IH in H end.
Qed.

Lemma AppendEntries_follows now args rf rf' r :
  currentTerm rf <= ae_Term args → AppendEntries now args rf = Some (rf', r) →
  follows (ae_Term args) rf rf' ∧ lastIncludedIndex rf' = lastIncludedIndex rf.
Proof.
  intros Hle H.
  unfold AppendEntries in H. rewrite (proj2 (Z.ltb_ge _ _)) in H by lia. cbv zeta in H.
  pose proof (recognize_follows now (ae_Term args) rf ltac:(lia)) as Hf.
  rewrite <-(lii_recognize now (ae_Term args) rf).
  set (rf1 := set_lastHeartbeat now (recognizeLeader (ae_Term args) rf)) in *. clearbody rf1.
  destruct (_ <? lastIncludedIndex rf1); [by simplify_eq|].
  destruct (lastLogIndex rf1 <? _); [by simplify_eq|].
  apply bind_Some in H as (pe & _ & H). destruct (negb _); [by raft_case|].
  apply bind_Some in H as ([rf2 b] & Hl & H). injection H as <- _.
  apply appendLoop_frame in Hl as (Hr & Hm & Hn & Hi & Ht).
  set (rf3 := if b then persist rf2 else rf2).
  assert (role (followCommit args rf3) = role rf1 ∧ matchIndex (followCommit args rf3) = matchIndex rf1
    ∧ nextIndex (followCommit args rf3) = nextIndex rf1
    ∧ lastIncludedIndex (followCommit args rf3) = lastIncludedIndex rf1
    ∧ currentTerm (followCommit args rf3) = currentTerm rf1) as (Hr' & Hm' & Hn' & Hi' & Ht').
  { unfold followCommit. subst rf3. destruct b; repeat case_match; rsimpl; split_and!; congruence. }
  split; [|done]. destruct Hf. constructor; [done|congruence|congruence|]. rewrite Hr', Hm', Hn'. done.
Qed.

(** ** Merging the entries of a leader *)

Lemma mergeEntries_cases (x es : list (LogEntry cmd)) :
  (∀ (j : nat) a b, x !! j = Some a → es !! j = Some b → Term a = Term b → a = b) →
  es `prefix_of` x ∧ mergeEntries x es = x ∨ ¬ es `prefix_of` x ∧ mergeEntries x es = es.
Proof.
  revert es. induction x as [|a x IH]; intros [|b es] Hc.
  - by left.
  - right. split; [|done]. intros [k Hk]. done.
  - left. split; [apply prefix_nil|done].
  - cbn [mergeEntries]. destruct (Term a =? Term b) eqn:Ht; bool_to_prop.
    + rewrite (Hc 0%nat a b) by done.
      destruct (IH es) as [[Hp ->]|[Hp ->]].
      * intros j a' b'. apply (Hc (S j)).
      * left. split; [by apply prefix_cons|done].
      * right. split; [|done]. by intros ?%prefix_cons_inv_2.
    + right. split; [|done]. intros ->%prefix_cons_inv_1. done.
Qed.

(** The merged log of AppendEntries, on full logs that satisfy Log Matching. *)
Lemma merged_accepts A T T' g h es p :
  log_ok A T g → log_ok A T' h → (p <= length g)%nat → (p + length es <= length h)%nat →
  tm g p = tm h p → es = take (length es) (drop p h) →
  let n := (p + length es)%nat in
  let g' := take p g ++ mergeEntries (drop p g) es in
  agrees n g' h ∧ (g' = g ∨ g' = take n h) ∧ ∀ m, agrees m g h → agrees m g' h.
Proof.
  intros Hg Hh Hpg Hph Ht Hes n g'.
  pose proof (log_matching A T T' g h p Hg Hh Hpg ltac:(lia) Ht) as Hp.
  assert (∀ (j : nat) b, es !! j = Some b → h !! (p + j)%nat = Some b) as Hlook.
  { intros j b Hb. rewrite Hes in Hb. apply lookup_take_Some in Hb as [Hb _].
    by rewrite lookup_drop in Hb. }
  destruct (mergeEntries_cases (drop p g) es) as [[Hpre Hm]|[Hpre Hm]].
  { intros j a b Ha Hb Hab. rewrite lookup_drop in Ha. apply Hlook in Hb.
    assert (agrees (S (p + j)) g h) as Hag.
    { pose proof (lookup_lt_Some _ _ _ Ha). pose proof (lookup_lt_Some _ _ _ Hb).
      apply (log_matching A T T'); [done|done|lia|lia|].
      by rewrite (tm_lookup _ _ _ Ha), (tm_lookup _ _ _ Hb). }
    rewrite (agrees_lookup _ _ _ (p + j) Hag) in Ha by lia. congruence. }
  - assert (g' = g) as Heq by (unfold g'; by rewrite Hm, take_drop). rewrite Heq.
    split_and!; [|by left|done]. pose proof (prefix_length _ _ Hpre) as Hlen.
    rewrite length_drop in Hlen. apply agrees_intro; [lia|lia|]. intros j Hj.
    destruct (decide (j < p)%nat); [by eapply agrees_lookup|].
    destruct (lookup_lt_is_Some_2 es (j - p)) as [b Hb]; [lia|].
    replace j with (p + (j - p))%nat by lia. rewrite (Hlook _ _ Hb).
    rewrite <-lookup_drop. by eapply prefix_lookup_Some.
  - assert (g' = take n h) as Heq.
    { unfold g', n. rewrite Hm. destruct Hp as (-> & _). rewrite Hes at 1. apply take_take_drop. }
    rewrite Heq. split_and!; [apply agrees_take; lia|by right|].
    intros m Hmm. destruct (decide (m <= n)%nat).
    { apply agrees_take; [done|]. by eapply agrees_length_r. }
    exfalso. apply Hpre. rewrite Hes.
    replace (take (length es) (drop p h)) with (take (length es) (drop p g)); [apply prefix_take|].
    apply list_eq. intros j. destruct (decide (j < length es)%nat);
      [|by rewrite !lookup_take_ge by lia].
    rewrite !lookup_take_lt, !lookup_drop by done. eapply agrees_lookup; [exact Hmm|lia].
Qed.

Lemma mergedLog_repr args rf rf' g :
  repr g rf → prevMatches args rf → log rf' = mergedLog args rf →
  lastIncludedIndex rf' = lastIncludedIndex rf →
  let p := Z.to_nat (ae_PrevLogIndex args) in
  repr (take p g ++ mergeEntries (drop p g) (ae_Entries args)) rf' ∧
  (p <= length g)%nat ∧ tm g p = ae_PrevLogTerm args.
Proof.
  intros Hg [Hr Hpt] Hl Hli p. pose proof (repr_last _ _ Hg) as Hlast.
  pose proof Hg as (Hi & s & Hls & Hs).
  rewrite (repr_term g) in Hpt by (done || lia). injection Hpt as Hpt.
  split_and!; [|unfold p; lia|done].
  set (i := Z.to_nat (lastIncludedIndex rf)) in *.
  assert (i <= p <= length g)%nat as Hip by (unfold i, p; lia).
  assert (take p g ++ mergeEntries (drop p g) (ae_Entries args) =
          take i g ++ (take (p - i) (drop i g) ++ mergeEntries (drop p g) (ae_Entries args))) as Heq.
  { rewrite app_assoc, take_take_drop. do 2 f_equal. lia. }
  unfold repr. rewrite Heq, Hl, Hli. split.
  - rewrite length_app, length_take. unfold i in *. lia.
  - exists s. fold i. split.
    + unfold mergedLog. rewrite Hls.
      replace (Z.to_nat (ae_PrevLogIndex args - lastIncludedIndex rf + 1)) with (S (p - i))
        by (unfold p, i; lia).
      simpl. rewrite drop_drop. rewrite drop_app_length' by (rewrite length_take; lia).
      by replace (i + (p - i))%nat with p by lia.
    + rewrite Hs. destruct i as [|j]; [done|]. simpl.
      rewrite lookup_app_l by (rewrite length_take; lia). by rewrite lookup_take_lt by lia.
Qed.

(** ** Snapshots, commands and restarts *)

Lemma Snapshot_effect index snap rf rf' :
  wf rf → index <= lastApplied rf → Snapshot index snap rf = Some rf' →
  currentTerm rf' = currentTerm rf ∧ role rf' = role rf ∧ matchIndex rf' = matchIndex rf ∧
  nextIndex rf' = nextIndex rf ∧ commitIndex rf' = commitIndex rf ∧ ∀ g, repr g rf → repr g rf'.
Proof.
  intros Hw Ha H. pose proof (Snapshot_evolves _ _ _ _ H) as He.
  destruct (decide (index <= lastIncludedIndex rf)) as [Hle|Hgt].
  { unfold Snapshot in H. rewrite (proj2 (Z.leb_le _ _)) in H by done. by simplify_eq. }
  assert (index <= lastLogIndex rf) as Hlast.
  { unfold Snapshot in H. rewrite (proj2 (Z.leb_gt _ _)) in H by lia.
    apply bind_Some in H as (e & Hx & _). by apply logAt_range in Hx as [_ ?]. }
  pose proof (Snapshot_result index snap rf rf' ltac:(lia) H)
    as (Hi & Ht & Hat & Hl & _ & _ & HT & _ & Hr).
  pose proof (wf_commit _ Hw). split_and!; [done|done| | | |].
  1-3: unfold Snapshot in H; rewrite (proj2 (Z.leb_gt _ _)) in H by lia;
    apply bind_Some in H as (e & _ & H); apply bind_Some in H as (l & _ & H);
    injection H as <-; rewrite raiseTo_max; unfold saveWithSnapshot; simpl; lia || done.
  intros g Hg. pose proof (repr_last _ _ Hg). pose proof Hg as ([? _] & _).
  apply repr_intro; [by apply (ev_wf _ _ He)|lia| |congruence|].
  - rewrite Hi. rewrite (repr_term g) in Ht by (done || lia). by injection Ht.
  - intros i Hii. rewrite Hat by lia. apply repr_logAt; [done|lia].
Qed.

Lemma Start_effect command rf rf' res b :
  Start command rf = (rf', res, b) →
  quiet rf rf' ∨
  role rf = Leader ∧ role rf' = Leader ∧ currentTerm rf' = currentTerm rf ∧
    matchIndex rf' = matchIndex rf ∧ nextIndex rf' = nextIndex rf ∧
    commitIndex rf' = commitIndex rf ∧
    ∀ g, repr g rf → repr (g ++ [mkLogEntry command (currentTerm rf)]) rf'.
Proof.
  unfold Start. destruct (bool_decide _) eqn:Hr; intros [= <- <- <-]; [by left|right].
  bool_to_prop. assert (role rf = Leader) as HL by (destruct (role rf); naive_solver).
  rsimpl. split_and!; try done. intros g (Hi & s & Hl & Hs). unfold repr. rsimpl.
  rewrite length_app. simpl. split; [lia|]. exists s. split.
  - rewrite Hl, drop_app_le by lia. done.
  - rewrite Hs. destruct (Z.to_nat _) as [|j] eqn:E; [done|]. simpl. by rewrite lookup_app_l by lia.
Qed.

Lemma InstallSnapshot_follows now args rf rf' r m :
  currentTerm rf <= is_Term args → InstallSnapshot now args rf = Some (rf', r, m) →
  follows (is_Term args) rf rf' ∧
  (is_LastIncludedIndex args <= lastIncludedIndex rf →
   log rf' = log rf ∧ lastIncludedIndex rf' = lastIncludedIndex rf ∧
   commitIndex rf' = commitIndex rf).
Proof.
  intros Hle H. unfold InstallSnapshot in H. rewrite (proj2 (Z.ltb_ge _ _)) in H by lia.
  cbv zeta in H. pose proof (recognize_follows now (is_Term args) rf Hle) as Hf.
  rewrite <-(lii_recognize now (is_Term args) rf), <-(log_recognize now (is_Term args) rf),
    <-(commit_recognize now (is_Term args) rf).
  set (rf1 := set_lastHeartbeat now (recognizeLeader (is_Term args) rf)) in *. clearbody rf1.
  destruct (_ <=? lastIncludedIndex rf1) eqn:Hi; bool_to_prop; [by simplify_eq|].
  apply bind_Some in H as (b & _ & H). apply bind_Some in H as (l & _ & H).
  injection H as <- _ _. split; [|lia]. rewrite raiseTo_max. unfold saveWithSnapshot.
  destruct Hf. by constructor.
Qed.

(** A snapshot of the prefix of [h] up to its index: the log keeps what it has
    after that prefix if it agrees with it there, and is that prefix otherwise. *)
Lemma InstallSnapshot_effect now args rf rf' r m g h :
  wf rf → currentTerm rf <= is_Term args → lastIncludedIndex rf < is_LastIncludedIndex args →
  InstallSnapshot now args rf = Some (rf', r, m) → repr g rf →
  is_LastIncludedIndex args <= len h →
  is_LastIncludedTerm args = tm h (Z.to_nat (is_LastIncludedIndex args)) →
  let p := Z.to_nat (is_LastIncludedIndex args) in
  commitIndex rf' = Z.max (commitIndex rf) (is_LastIncludedIndex args) ∧
  (((p <= length g)%nat ∧ tm g p = tm h p ∧ repr g rf') ∨
   (¬ ((p <= length g)%nat ∧ tm g p = tm h p) ∧ repr (take p h) rf')).
Proof.
  intros Hw HT Hlt H Hg Hh Ht p. pose proof (InstallSnapshot_evolves _ _ _ _ _ _ H) as He.
  pose proof (InstallSnapshot_result now args rf rf' r m HT Hlt H)
    as (Hi & Hit & _ & Hc & _ & _ & _ & Hyes & Hno).
  split; [done|]. pose proof (repr_last _ _ Hg) as Hlast. pose proof (ev_wf _ _ He Hw) as Hw'.
  pose proof Hg as ([? ?] & _).
  assert (Term <$> logAt rf (is_LastIncludedIndex args) = Some (is_LastIncludedTerm args) ↔
    (p <= length g)%nat ∧ tm g p = tm h p) as Hiff.
  { split.
    - intros (e & Hx & Hxt)%fmap_Some. apply (repr_logAt_Some g) in Hx as [? Hxt']; [|done].
      split; [unfold p; lia|]. unfold p. congruence.
    - intros [? Htm]. rewrite (repr_term g) by (done || unfold p in *; lia).
      unfold p in *. by rewrite Htm, Ht. }
  destruct (decide ((p <= length g)%nat ∧ tm g p = tm h p)) as [Hm|Hm]; [left|right].
  - split_and!; [apply Hm..|]. apply Hiff in Hm as Hm'. destruct (Hyes Hm') as [Hl Hat].
    destruct Hm as [Hpl Htm]. apply repr_intro; [done|unfold p in *; lia| |congruence|].
    + rewrite Hi, Hit, Ht. by symmetry.
    + rewrite Hi. intros i Hii. rewrite Hat by done. apply repr_logAt; [done|lia].
  - split; [done|]. assert (lastLogIndex rf' = is_LastIncludedIndex args) as Hl
      by (apply Hno; by rewrite Hiff).
    assert (len (take p h) = is_LastIncludedIndex args) as Hlen
      by (rewrite length_take; unfold p; lia).
    apply repr_intro; [done|lia| |lia|].
    + rewrite Hi, Hit, Ht. fold p. apply (agrees_tm p); [|done]. symmetry.
      apply agrees_take; [done|lia].
    + intros i Hii. destruct (logAt rf' i) as [e|] eqn:E; [apply logAt_range in E; lia|].
      symmetry. apply lookup_ge_None. rewrite length_take. unfold p. lia.
Qed.

Lemma InstallSnapshot_reply now args rf rf' r m :
  InstallSnapshot now args rf = Some (rf', r, m) → isr_Term r = currentTerm rf.
Proof.
  unfold InstallSnapshot. intros H. destruct (_ <? _) in H; [by simplify_eq|].
  destruct (_ <=? lastIncludedIndex _) in H; [by simplify_eq|].
  apply bind_Some in H as (b & _ & H). apply bind_Some in H as (l & _ & H). by simplify_eq.
Qed.

Lemma InstallSnapshot_old now args rf rf' r m :
  is_Term args < currentTerm rf → InstallSnapshot now args rf = Some (rf', r, m) → rf' = rf.
Proof.
  unfold InstallSnapshot. intros Ht H. rewrite (proj2 (Z.ltb_lt _ _)) in H by done.
  by simplify_eq.
Qed.

Lemma AppendEntries_old now args rf rf' r :
  ae_Term args < currentTerm rf → AppendEntries now args rf = Some (rf', r) →
  rf' = rf ∧ aer_Success r = false.
Proof.
  unfold AppendEntries. intros Ht H. rewrite (proj2 (Z.ltb_lt _ _)) in H by done.
  by simplify_eq.
Qed.

Lemma applierBatch_quiet fuel : ∀ rf msgs rf' msgs',
  applierBatch fuel rf msgs = Some (rf', msgs') → quiet rf rf'.
Proof.
  induction fuel as [|fuel IH]; simpl; intros rf msgs rf' msgs' H; [by simplify_eq|].
  raft_case; [|done].
  match goal with H : applierBatch _ _ _ = Some _ |- _ => apply IH in H as [] end.
  by constructor.
Qed.

Lemma applier_quiet rf rf' msgs : applierStep rf = Some (rf', msgs) → quiet rf rf'.
Proof. unfold applierStep. intros H. raft_case; eauto using applierBatch_quiet. done. Qed.

(** The message for the entry [e] at index [i]. *)
Definition command_msg (e : LogEntry cmd) (i : Z) : ApplyMsg cmd :=
  mkApplyMsg true (Command e) i false [] 0 0.

Lemma applierBatch_messages fuel : ∀ rf msgs rf' msgs' m,
  applierBatch fuel rf msgs = Some (rf', msgs') → m ∈ msgs' →
  m ∈ msgs ∨ ∃ e i, m = command_msg e i ∧ logAt rf i = Some e ∧
               lastApplied rf < i <= commitIndex rf.
Proof.
  induction fuel as [|fuel IH]; simpl; intros rf msgs rf' msgs' m H Hm; [simplify_eq; by left|].
  destruct (_ <? _) eqn:Hlt; [|simplify_eq; by left]. bool_to_prop.
  apply bind_Some in H as (e & He & H).
  destruct (IH _ _ _ _ _ H Hm) as [Hin|(e' & i & -> & Hat & ?)].
  - apply elem_of_app in Hin as [?| ->%list_elem_of_singleton]; [by left|right].
    exists e, (lastApplied rf + 1). split_and!; [done|done|lia|lia].
  - right. exists e', i. simpl in *. split_and!; [done|done|lia|lia].
Qed.

Lemma applier_messages rf rf' msgs m :
  applierStep rf = Some (rf', msgs) → m ∈ msgs →
  ∃ e i, m = command_msg e i ∧ logAt rf i = Some e ∧ lastApplied rf < i <= commitIndex rf.
Proof.
  unfold applierStep. intros H Hm. destruct (_ || _) in H.
  - simplify_eq. by apply elem_of_nil in Hm.
  - destruct (applierBatch_messages _ _ _ _ _ _ H Hm) as [?%elem_of_nil|?]; done.
Qed.

(** The hint of a rejection never points past what the leader may try next. *)
Lemma AppendEntries_hint now args rf rf' r :
  wf rf → AppendEntries now args rf = Some (rf', r) → aer_Success r = false →
  aer_Term r <= ae_Term args →
  aer_ConflictIndex r <= Z.max (ae_PrevLogIndex args) (lastIncludedIndex rf + 1).
Proof.
  intros Hw H Hs Ht. destruct (decide (ae_Term args < currentTerm rf)) as [Hold|Hcur].
  - unfold AppendEntries in H. rewrite (proj2 (Z.ltb_lt _ _)) in H by done.
    injection H as <- <-. simpl in Ht. lia.
  - destruct (AppendEntries_rejects now args rf rf' r Hw ltac:(lia) H Hs) as (_ & _ & _ & Hc).
    lia.
Qed.

Lemma Make_effect n m now rf :
  pers_ok rf →
  let rf' := Make n m (persister rf) now in
  currentTerm rf' = currentTerm rf ∧ log rf' = log rf ∧
  lastIncludedIndex rf' = lastIncludedIndex rf ∧ role rf' = Follower ∧
  commitIndex rf' = lastIncludedIndex rf.
Proof.
  intros Hp rf'. destruct (pvals_eq rf' rf (Hp n m now)) as (? & ? & ? & Hi & ?).
  destruct (Make_indices n m (persister rf) now rf' eq_refl) as (_ & _ & Hc & _).
  split_and!; [done|done|done|apply Make_role|congruence].
Qed.

End FullLog.
