(* ===== verification/RaftNet.v ===== *)
(** * A cluster of Raft peers

    The peers of src/6.5840/src/raft1/raft.go, the RPCs in flight between them
    and the goroutines they have started, as a transition system.  A packet is
    an RPC request waiting to be handled, a reply waiting to be received, or a
    goroutine waiting for the lock.  The network of labrpc executes a request at
    most once and returns a reply at most once; it may delay, reorder and lose
    both.  A server may crash at any point between two method calls and restart
    from its persister; goroutines and pending calls of the old instance act on
    the old object only, so they carry the incarnation that started them. *)

From S2P Require Import Prelude Gob Persister Raft RaftNode RaftSpec RaftProtocol.

Section Cluster.
Context {cmd : Type} `{!Gob (RaftVal cmd)}.

(** The number of servers. *)
Context (N : nat).

(** [src] and [inc] identify the instance that made the call or started the
    goroutine, [dst] is the server called. *)
Inductive Packet :=
| PBroadcast (src inc : nat)
| PHeartbeats (src inc : nat)
| PSend (src inc : nat) (peer term : Z)
| PVoteReq (src inc dst : nat) (args : RequestVoteArgs)
| PVoteRep (src inc dst : nat) (args : RequestVoteArgs) (reply : RequestVoteReply)
| PAppendReq (src inc dst : nat) (args : AppendEntriesArgs cmd)
| PAppendRep (src inc dst : nat) (args : AppendEntriesArgs cmd) (reply : AppendEntriesReply)
| PSnapReq (src inc dst : nat) (args : InstallSnapshotArgs)
| PSnapRep (src inc dst : nat) (args : InstallSnapshotArgs) (reply : InstallSnapshotReply).

(** [votes] holds the variable [votes] that the goroutines of one
    [startElection] share, by server, incarnation and term of the election. *)
Record Cluster := mkCluster {
  servers : nat → Raft cmd;
  incarnation : nat → nat;
  votes : gmap (nat * nat * Z) Z;
  inflight : list Packet
}.

Definition set_server (i : nat) (rf : Raft cmd) (c : Cluster) : nat → Raft cmd :=
  λ j, if decide (i = j) then rf else servers c j.

Definition spawn (src inc : nat) (calls : list (Z * Z)) : list Packet :=
  (λ '(p, t), PSend src inc p t) <$> calls.

Definition vote_requests (src inc : nat) (calls : list (Z * RequestVoteArgs)) : list Packet :=
  (λ '(p, a), PVoteReq src inc (Z.to_nat p) a) <$> calls.

Definition send_packet (src inc : nat) (peer : Z) (a : SendAction cmd) : list Packet :=
  match a with
  | NoSend => []
  | SendSnapshot args => [PSnapReq src inc (Z.to_nat peer) args]
  | SendAppend args => [PAppendReq src inc (Z.to_nat peer) args]
  end.

(** What may vanish: the request or the reply of an RPC, and a goroutine of an
    instance that is gone.  A goroutine of a live instance runs to its end. *)
Definition may_vanish (c : Cluster) (p : Packet) : bool :=
  match p with
  | PBroadcast src inc | PHeartbeats src inc | PSend src inc _ _ =>
      negb (bool_decide (inc = incarnation c src))
  | _ => true
  end.

(** What the service may pass to Snapshot, given the state of its peer. *)
Context (snap_ok : Raft cmd → Z → Prop).

(** What the service above a server sees of a step: the result of Start, messages
    on its applyCh, the snapshot it hands over, or a restart. *)
Inductive Event :=
| EQuiet
| EStart (i : nat) (command : option cmd) (res : Z * Z * bool)
| EApply (i : nat) (msgs : list (ApplyMsg cmd))
| EInstall (i : nat) (m : option (ApplyMsg cmd))
| ESnapshot (i : nat) (index : Z) (snap : list byte)
| ERestart (i : nat).

Inductive lstep (c : Cluster) : Event → Cluster → Prop :=
(* an iteration of ticker that starts no election, or one that does *)
| s_tick i now rnd rf' :
    (i < N)%nat → tickerStep now rnd (servers c i) = Some (rf', None) →
    lstep c EQuiet (mkCluster (set_server i rf' c) (incarnation c) (votes c) (inflight c))
| s_elect i now rnd rf' calls :
    (i < N)%nat → tickerStep now rnd (servers c i) = Some (rf', Some calls) →
    lstep c EQuiet (mkCluster (set_server i rf' c) (incarnation c)
              (<[(i, incarnation c i, currentTerm rf') := 1]> (votes c))
              (vote_requests i (incarnation c i) calls ++ inflight c))
(* RequestVote and its reply *)
| s_vote_deliver src inc dst args now rf' reply rest :
    inflight c ≡ₚ PVoteReq src inc dst args :: rest →
    RequestVote now args (servers c dst) = Some (rf', reply) →
    lstep c EQuiet (mkCluster (set_server dst rf' c) (incarnation c) (votes c)
              (PVoteRep src inc dst args reply :: rest))
| s_vote_reply src inc dst args reply now v rf' v' hb rest :
    inflight c ≡ₚ PVoteRep src inc dst args reply :: rest →
    inc = incarnation c src → votes c !! (src, inc, rv_Term args) = Some v →
    handleRequestVoteReply now (rv_Term args) reply v (servers c src) = Some (rf', v', hb) →
    lstep c EQuiet (mkCluster (set_server src rf' c) (incarnation c)
              (<[(src, inc, rv_Term args) := v']> (votes c))
              ((if (hb : bool) then [PHeartbeats src inc] else []) ++ rest))
(* the leader's goroutines *)
| s_heartbeats src inc rest :
    inflight c ≡ₚ PHeartbeats src inc :: rest → inc = incarnation c src →
    lstep c EQuiet (mkCluster (servers c) (incarnation c) (votes c)
              (match sendHeartbeats (servers c src) with
               | Some calls => spawn src inc calls ++ PHeartbeats src inc :: rest
               | None => rest
               end))
| s_broadcast src inc rest :
    inflight c ≡ₚ PBroadcast src inc :: rest → inc = incarnation c src →
    lstep c EQuiet (mkCluster (servers c) (incarnation c) (votes c)
              (spawn src inc (broadcastAppendEntries (servers c src)) ++ rest))
| s_send src inc peer term action rest :
    inflight c ≡ₚ PSend src inc peer term :: rest → inc = incarnation c src →
    sendAppendEntriesToPeer peer term (servers c src) = Some action →
    lstep c EQuiet (mkCluster (servers c) (incarnation c) (votes c)
              (send_packet src inc peer action ++ rest))
(* AppendEntries and its reply *)
| s_append_deliver src inc dst args now rf' reply rest :
    inflight c ≡ₚ PAppendReq src inc dst args :: rest →
    AppendEntries now args (servers c dst) = Some (rf', reply) →
    lstep c EQuiet (mkCluster (set_server dst rf' c) (incarnation c) (votes c)
              (PAppendRep src inc dst args reply :: rest))
| s_append_reply src inc dst args reply rf' rest :
    inflight c ≡ₚ PAppendRep src inc dst args reply :: rest → inc = incarnation c src →
    handleAppendEntriesReply (Z.of_nat dst) (ae_Term args) args reply (servers c src) = Some rf' →
    lstep c EQuiet (mkCluster (set_server src rf' c) (incarnation c) (votes c) rest)
(* InstallSnapshot and its reply *)
| s_snap_deliver src inc dst args now rf' reply m rest :
    inflight c ≡ₚ PSnapReq src inc dst args :: rest →
    InstallSnapshot now args (servers c dst) = Some (rf', reply, m) →
    lstep c (EInstall dst m) (mkCluster (set_server dst rf' c) (incarnation c) (votes c)
              (PSnapRep src inc dst args reply :: rest))
| s_snap_reply src inc dst args reply rf' rest :
    inflight c ≡ₚ PSnapRep src inc dst args reply :: rest → inc = incarnation c src →
    handleInstallSnapshotReply (Z.of_nat dst) (is_Term args) args reply (servers c src) = Some rf' →
    lstep c EQuiet (mkCluster (set_server src rf' c) (incarnation c) (votes c) rest)
(* the service *)
| s_start i command rf' res b :
    (i < N)%nat → Start command (servers c i) = (rf', res, b) →
    lstep c (EStart i command res) (mkCluster (set_server i rf' c) (incarnation c) (votes c)
              ((if (b : bool) then [PBroadcast i (incarnation c i)] else []) ++ inflight c))
| s_snapshot i index snap rf' :
    (i < N)%nat → snap_ok (servers c i) index → Snapshot index snap (servers c i) = Some rf' →
    lstep c (ESnapshot i index snap) (mkCluster (set_server i rf' c) (incarnation c) (votes c) (inflight c))
| s_apply i rf' msgs :
    (i < N)%nat → applierStep (servers c i) = Some (rf', msgs) →
    lstep c (EApply i msgs) (mkCluster (set_server i rf' c) (incarnation c) (votes c) (inflight c))
(* a request or a reply is lost, or a goroutine belongs to a dead instance *)
| s_drop p rest :
    inflight c ≡ₚ p :: rest → may_vanish c p = true →
    lstep c EQuiet (mkCluster (servers c) (incarnation c) (votes c) rest)
(* crash and restart *)
| s_restart i now :
    (i < N)%nat →
    lstep c (ERestart i) (mkCluster
              (set_server i (Make N (Z.of_nat i) (persister (servers c i)) now) c)
              (λ j, if decide (i = j) then S (incarnation c i) else incarnation c j)
              (votes c) (inflight c)).

Definition step (c c' : Cluster) : Prop := ∃ ev, lstep c ev c'.

Definition init (c : Cluster) : Prop :=
  (∀ i, ∃ now, servers c i = Make N (Z.of_nat i) MakePersister now) ∧
  votes c = ∅ ∧ inflight c = [].

(** ** The vote history

    An election is won by counting replies.  The invariant relates the counters,
    the replies in flight and the terms and votes of the peers to a history of
    the votes granted so far, which grows but never changes. *)

(** A pending vote call, by instance, term and voter. *)
Definition vote_key (p : Packet) : option (nat * nat * Z * nat) :=
  match p with
  | PVoteReq src inc dst args | PVoteRep src inc dst args _ =>
      Some (src, inc, rv_Term args, dst)
  | _ => None
  end.

Record inv_with (H : History) (c : Cluster) : Prop := mkInv {
  inv_node i : wf (servers c i) ∧ pers_ok (servers c i) ∧ npeers (servers c i) = N ∧
               me (servers c i) = Z.of_nat i;
  inv_fun d T s s' : (d, T, s) ∈ H → (d, T, s') ∈ H → s = s';
  inv_vote d T s : (d, T, s) ∈ H →
    (d < N)%nat ∧ T <= currentTerm (servers c d) ∧
    (T = currentTerm (servers c d) → votedFor (servers c d) = Z.of_nat s);
  inv_req src inc dst args : PVoteReq src inc dst args ∈ inflight c →
    rv_CandidateId args = Z.of_nat src ∧ (dst < N)%nat;
  inv_rep src inc dst args reply : PVoteRep src inc dst args reply ∈ inflight c →
    rvr_VoteGranted reply = true → (dst, rv_Term args, src) ∈ H;
  inv_keys : NoDup (omap vote_key (inflight c));
  inv_pending src inc T dst : (src, inc, T, dst) ∈ omap vote_key (inflight c) →
    is_Some (votes c !! (src, inc, T));
  inv_count s inc T v : votes c !! (s, inc, T) = Some v →
    (inc <= incarnation c s)%nat ∧ (inc = incarnation c s → T <= currentTerm (servers c s)) ∧
    ∃ Q, backed H T s Q ∧ Z.of_nat (size Q) = v ∧
         ∀ d, (s, inc, T, d) ∈ omap vote_key (inflight c) → d ∉ Q;
  inv_leader s : role (servers c s) = Leader →
    ∃ Q, backed H (currentTerm (servers c s)) s Q ∧ Z.of_nat N / 2 < Z.of_nat (size Q)
}.

Definition inv (c : Cluster) : Prop := ∃ H, inv_with H c.

End Cluster.

(** The runs of a cluster whatever its service snapshots, and those in which the
    service snapshots only what it was given to apply, as server.go and rsm.go
    do. *)
Definition cluster_reachable {cmd} `{!Gob (RaftVal cmd)} (N : nat) : Cluster (cmd:=cmd) → Prop :=
  reachable (init N) (step N (λ _ _, True)).

Definition applied_only {cmd} (rf : Raft cmd) (index : Z) : Prop := index <= lastApplied rf.

Definition service_step {cmd} `{!Gob (RaftVal cmd)} (N : nat) :
    Cluster (cmd:=cmd) → Cluster → Prop := step N applied_only.

Definition service_reachable {cmd} `{!Gob (RaftVal cmd)} (N : nat) : Cluster (cmd:=cmd) → Prop :=
  reachable (init N) (service_step N).

Section ElectionSafety.
Context {cmd : Type} `{!Gob (RaftVal cmd)} `{!GobRegistered (RaftVal cmd)}.
Context (N : nat).
Implicit Types c : Cluster (cmd:=cmd).
Implicit Types net gone new rest : list (Packet (cmd:=cmd)).

Lemma set_server_eq i rf c : set_server i rf c i = rf.
Proof. unfold set_server. by rewrite decide_True. Qed.

Lemma set_server_ne i j rf c : i ≠ j → set_server i rf c j = servers c j.
Proof. intros. unfold set_server. by rewrite decide_False. Qed.

(** [net'] is [net] with some packets consumed and packets that are not vote
    calls added. *)
Definition replaced net net' : Prop :=
  ∃ gone new rest, net ≡ₚ gone ++ rest ∧ net' = new ++ rest ∧ omap vote_key new = [].

Lemma replaced_key net net' k :
  replaced net net' → k ∈ omap vote_key net' → k ∈ omap vote_key net.
Proof.
  intros (gone & new & rest & Hn & -> & He). rewrite Hn, !omap_app, He. set_solver.
Qed.

Lemma replaced_elem net net' p :
  replaced net net' → p ∈ net' → is_Some (vote_key p) → p ∈ net.
Proof.
  intros (gone & new & rest & Hn & -> & He) Hp [k Hk]. rewrite Hn.
  apply elem_of_app in Hp as [Hp|Hp]; [|set_solver].
  assert (k ∈ omap vote_key new) as Hin by (apply list_elem_of_omap; eauto).
  rewrite He in Hin. set_solver.
Qed.

Lemma replaced_NoDup net net' :
  replaced net net' → NoDup (omap vote_key net) → NoDup (omap vote_key net').
Proof.
  intros (gone & new & rest & Hn & -> & He). rewrite Hn, !omap_app, He.
  intros (_ & _ & ?)%list.NoDup_app. done.
Qed.

Lemma replaced_refl net : replaced net net.
Proof. by exists [], [], net. Qed.

Lemma replaced_one net p new rest :
  net ≡ₚ p :: rest → omap vote_key new = [] → replaced net (new ++ rest).
Proof. intros. by exists [p], new, rest. Qed.

Lemma replaced_add net new : omap vote_key new = [] → replaced net (new ++ net).
Proof. intros. by exists [], new, net. Qed.

Lemma spawn_no_votes src inc calls : omap vote_key (spawn (cmd:=cmd) src inc calls) = [].
Proof. by induction calls as [|[] calls IH]. Qed.

Lemma vote_key_dec (p : Packet (cmd:=cmd)) :
  (∃ src inc dst args, p = PVoteReq src inc dst args) ∨
  (∃ src inc dst args reply, p = PVoteRep src inc dst args reply) ∨ vote_key p = None.
Proof. destruct p; naive_solver. Qed.

(** A server that evolves keeps the votes of the history. *)
Lemma inv_vote_evolves H c i rf' d T s :
  inv_with N H c → evolves (servers c i) rf' → (d, T, s) ∈ H →
  (d < N)%nat ∧ T <= currentTerm (set_server i rf' c d) ∧
  (T = currentTerm (set_server i rf' c d) → votedFor (set_server i rf' c d) = Z.of_nat s).
Proof.
  intros Hinv He Hin. destruct (inv_vote _ _ _ Hinv _ _ _ Hin) as (Hd & Hle & Hv).
  split; [done|]. unfold set_server. case_decide as Hi; [subst|done].
  pose proof (ev_term _ _ He). split; [lia|]. intros Heq.
  rewrite (ev_vote _ _ He); [apply Hv; lia|lia|]. rewrite Hv by lia. lia.
Qed.

Lemma inv_node_evolves H c i rf' j :
  inv_with N H c → evolves (servers c i) rf' →
  wf (set_server i rf' c j) ∧ pers_ok (set_server i rf' c j) ∧
  npeers (set_server i rf' c j) = N ∧ me (set_server i rf' c j) = Z.of_nat j.
Proof.
  intros Hinv He. pose proof (inv_node _ _ _ Hinv j) as (Hw & Hp & Hn & Hm).
  unfold set_server. case_decide as Hi; [subst|done]. destruct He.
  split_and!; auto; congruence.
Qed.

(** ** Only a vote reply makes a leader *)

Lemma recognizeLeader_role now term (rf : Raft cmd) :
  role (set_lastHeartbeat now (recognizeLeader term rf)) = Leader → role rf = Leader.
Proof.
  unfold recognizeLeader, stepDown. destruct (_ <? _); rsimpl; [done|]. by case_bool_decide.
Qed.

Lemma RequestVote_role now args (rf rf' : Raft cmd) r :
  RequestVote now args rf = Some (rf', r) → role rf' = Leader → role rf = Leader.
Proof.
  unfold RequestVote, stepDown. intros H.
  destruct (currentTerm rf <? rv_Term args); raft_case; by rsimpl.
Qed.

Lemma appendLoop_role es : ∀ index b (rf rf' : Raft cmd) b',
  appendLoop index es b rf = Some (rf', b') → role rf' = role rf.
Proof.
  induction es as [|e es IH]; simpl; intros index b rf rf' b' H; raft_case; try done;
    match goal with H : appendLoop _ _ _ _ = _ |- _ => by apply IH in H end.
Qed.

Lemma AppendEntries_role now args (rf rf' : Raft cmd) r :
  AppendEntries now args rf = Some (rf', r) → role rf' = Leader → role rf = Leader.
Proof.
  unfold AppendEntries. intros H Hr. destruct (_ <? _); [by raft_case|].
  apply (recognizeLeader_role now (ae_Term args)).
  set (rf1 := set_lastHeartbeat now _) in *. clearbody rf1. raft_case; try done.
  match goal with H : appendLoop _ _ _ _ = _ |- _ => apply appendLoop_role in H as <- end.
  revert Hr. unfold followCommit. repeat destruct (_ <? _); case_match; by rsimpl.
Qed.

Lemma InstallSnapshot_role now args (rf rf' : Raft cmd) r m :
  InstallSnapshot now args rf = Some (rf', r, m) → role rf' = Leader → role rf = Leader.
Proof.
  unfold InstallSnapshot. intros H Hr. destruct (_ <? _); [by raft_case|].
  apply (recognizeLeader_role now (is_Term args)).
  set (rf1 := set_lastHeartbeat now _) in *. clearbody rf1. revert Hr.
  destruct (_ <=? _); [by raft_case|].
  apply bind_Some in H as (hasEntry & _ & H). apply bind_Some in H as (newLog & _ & H).
  injection H as <- _ _. by rewrite raiseTo_max.
Qed.

Lemma appendReply_role peer term args reply (rf rf' : Raft cmd) :
  handleAppendEntriesReply peer term args reply rf = Some rf' →
  role rf' = Leader → role rf = Leader.
Proof.
  unfold handleAppendEntriesReply, updateCommitIndex, stepDown. intros H.
  raft_case; try (by rsimpl).
  match goal with H : updateCommitLoop _ _ _ = _ |- _ =>
    apply updateCommitLoop_evolves in H as [_ ->] end. done.
Qed.

Lemma snapshotReply_role peer term args reply (rf rf' : Raft cmd) :
  handleInstallSnapshotReply peer term args reply rf = Some rf' →
  role rf' = Leader → role rf = Leader.
Proof.
  unfold handleInstallSnapshotReply, stepDown. intros H. raft_case; by rsimpl.
Qed.

Lemma Start_role command (rf rf' : Raft cmd) res b :
  Start command rf = (rf', res, b) → role rf' = Leader → role rf = Leader.
Proof. unfold Start. destruct (bool_decide _); intros [= <- <- <-]; by rsimpl. Qed.

Lemma Snapshot_role index snap (rf rf' : Raft cmd) :
  Snapshot index snap rf = Some rf' → role rf' = Leader → role rf = Leader.
Proof.
  unfold Snapshot. intros H. destruct (_ <=? _); [by raft_case|].
  apply bind_Some in H as (e & _ & H). apply bind_Some in H as (l & _ & H).
  injection H as <-. by rewrite raiseTo_max.
Qed.

Lemma applier_role (rf rf' : Raft cmd) msgs :
  applierStep rf = Some (rf', msgs) → role rf' = Leader → role rf = Leader.
Proof.
  unfold applierStep. intros H. raft_case; [done|].
  match goal with H : applierBatch _ _ _ = _ |- _ =>
    apply applierBatch_evolves in H as [_ ->] end. done.
Qed.

(** ** The steps of an election *)

Lemma RequestVote_grant now args (rf rf' : Raft cmd) r :
  RequestVote now args rf = Some (rf', r) → rvr_VoteGranted r = true →
  currentTerm rf <= rv_Term args ∧ currentTerm rf' = rv_Term args ∧
  votedFor rf' = rv_CandidateId args ∧
  (currentTerm rf = rv_Term args → votedFor rf = -1 ∨ votedFor rf = rv_CandidateId args).
Proof.
  unfold RequestVote, stepDown. intros H Hg.
  destruct (rv_Term args <? currentTerm rf) eqn:?; [by raft_case|].
  destruct (currentTerm rf <? rv_Term args) eqn:?; raft_case; try done;
    rsimpl; bool_to_prop; split_and!; lia.
Qed.

Lemma ticker_elects now rnd (rf rf' : Raft cmd) calls :
  tickerStep now rnd rf = Some (rf', Some calls) →
  currentTerm rf' = currentTerm rf + 1 ∧ votedFor rf' = me rf ∧ role rf' = Candidate ∧
  ∃ args, calls = (λ p, (p, args)) <$> otherPeers rf ∧
    rv_Term args = currentTerm rf' ∧ rv_CandidateId args = me rf.
Proof.
  unfold tickerStep, startElection. intros H. raft_case. rsimpl. split_and!; try done.
  eexists (mkRequestVoteArgs _ _ _ _). split; [unfold otherPeers; by rsimpl|done].
Qed.

Lemma voteReply_counts now term reply v (rf rf' : Raft cmd) v' hb :
  handleRequestVoteReply now term reply v rf = Some (rf', v', hb) →
  (v' = v ∧ (role rf' = Leader → role rf = Leader)) ∨
  (v' = v + 1 ∧ rvr_VoteGranted reply = true ∧
   (role rf' = Leader → currentTerm rf' = term ∧ Z.of_nat (npeers rf) / 2 < v')).
Proof.
  unfold handleRequestVoteReply, stepDown. intros H.
  raft_case; bool_to_prop; rsimpl; try (by left); right; split_and!; try done.
  intros Hr. rewrite Hr in *. naive_solver.
Qed.

Lemma otherPeers_NoDup (rf : Raft cmd) : NoDup (otherPeers rf).
Proof. apply list.NoDup_filter, NoDup_seqZ. Qed.

Lemma otherPeers_elem (rf : Raft cmd) p :
  p ∈ otherPeers rf ↔ p ≠ me rf ∧ 0 <= p < Z.of_nat (npeers rf).
Proof. unfold otherPeers. rewrite list_elem_of_filter, elem_of_seqZ. naive_solver lia. Qed.

Lemma vote_requests_keys src inc args ps :
  omap vote_key (vote_requests (cmd:=cmd) src inc ((λ p, (p, args)) <$> ps)) =
  (λ p, (src, inc, rv_Term args, Z.to_nat p)) <$> ps.
Proof. induction ps as [|p ps IH]; [done|]. unfold vote_requests in *. simpl. by f_equal. Qed.

Lemma vote_requests_elem src inc args ps p :
  p ∈ vote_requests (cmd:=cmd) src inc ((λ p, (p, args)) <$> ps) →
  ∃ d, d ∈ ps ∧ p = PVoteReq src inc (Z.to_nat d) args.
Proof. unfold vote_requests. set_solver. Qed.

Lemma vote_requests_fresh src inc args (rf : Raft cmd) :
  NoDup (omap vote_key (vote_requests (cmd:=cmd) src inc ((λ p, (p, args)) <$> otherPeers rf))).
Proof.
  rewrite vote_requests_keys. apply NoDup_fmap_2_strong; [|apply otherPeers_NoDup].
  intros p q Hp%otherPeers_elem Hq%otherPeers_elem [= Heq]. lia.
Qed.

(** The parts of the invariant that only read the history stay true when the
    history grows. *)
Lemma backed_mono H H' T s Q : H ⊆ H' → backed H T s Q → backed H' T s Q.
Proof. unfold backed. set_solver. Qed.

(** A vote that server [i] casts, with the new state of [i]. *)
Lemma cast_vote H c i rf' s :
  inv_with N H c → evolves (servers c i) rf' → (i < N)%nat →
  votedFor rf' = Z.of_nat s → (∀ s', (i, currentTerm rf', s') ∈ H → s' = s) →
  let H' : History := {[(i, currentTerm rf', s)]} ∪ H in
  (∀ d T s1 s2, (d, T, s1) ∈ H' → (d, T, s2) ∈ H' → s1 = s2) ∧
  (∀ d T s0, (d, T, s0) ∈ H' →
    (d < N)%nat ∧ T <= currentTerm (set_server i rf' c d) ∧
    (T = currentTerm (set_server i rf' c d) → votedFor (set_server i rf' c d) = Z.of_nat s0)).
Proof.
  intros Hinv He Hi Hv Hold H'. split.
  - intros d T s1 s2. subst H'. rewrite !elem_of_union, !elem_of_singleton.
    intros [H1|H1] [H2|H2]; simplify_eq; try done.
    + symmetry. by apply Hold.
    + by apply Hold.
    + by eapply Hinv.
  - intros d T s0 [Heq%elem_of_singleton|Hin]%elem_of_union; [|by eapply inv_vote_evolves].
    simplify_eq. rewrite set_server_eq. split_and!; [done|lia|done].
Qed.

(** The calls of an election go to the other servers. *)
Lemma elect_keys i inc args c :
  me (servers c i) = Z.of_nat i →
  ∀ k, k ∈ omap vote_key (vote_requests (cmd:=cmd) i inc
            ((λ p, (p, args)) <$> otherPeers (servers c i))) →
  ∃ d, k = (i, inc, rv_Term args, d) ∧ d ≠ i.
Proof.
  intros Hme k. rewrite vote_requests_keys. intros (p & -> & Hp)%list_elem_of_fmap.
  apply otherPeers_elem in Hp. eexists. split; [done|]. lia.
Qed.

Lemma elect_fresh H c i T :
  inv_with N H c → currentTerm (servers c i) < T →
  votes c !! (i, incarnation c i, T) = None ∧
  ∀ d, (i, incarnation c i, T, d) ∉ omap vote_key (inflight c).
Proof.
  intros Hinv HT.
  assert (votes c !! (i, incarnation c i, T) = None) as Hf.
  { destruct (votes c !! _) as [v|] eqn:E; [|done].
    destruct (inv_count _ _ _ Hinv _ _ _ _ E) as (_ & Hle & _). specialize (Hle eq_refl). lia. }
  split; [done|]. intros d Hk. destruct (inv_pending _ _ _ Hinv _ _ _ _ Hk). congruence.
Qed.

(** The leaders other than [i] keep their majorities. *)
Lemma leaders_frame H H' c i rf' s :
  inv_with N H c → H ⊆ H' → evolves (servers c i) rf' →
  (role rf' = Leader → role (servers c i) = Leader) →
  role (set_server i rf' c s) = Leader →
  ∃ Q, backed H' (currentTerm (set_server i rf' c s)) s Q ∧ Z.of_nat N / 2 < Z.of_nat (size Q).
Proof.
  intros Hinv HH He Hrole Hl. destruct (decide (i = s)) as [<-|Hne].
  - rewrite set_server_eq in *. destruct (ev_leader _ _ He Hl) as [Ht _]. rewrite Ht.
    destruct (inv_leader _ _ _ Hinv i) as (Q & HQ & Hs); [by apply Hrole|].
    eauto using backed_mono.
  - rewrite set_server_ne in * by done.
    destruct (inv_leader _ _ _ Hinv s Hl) as (Q & HQ & Hs). eauto using backed_mono.
Qed.

(** The counters after server [i] changes and some vote calls disappear. *)
Lemma counts_frame H H' c i rf' net' s inc T v :
  inv_with N H c → H ⊆ H' → evolves (servers c i) rf' →
  (∀ d, (s, inc, T, d) ∈ omap vote_key net' → (s, inc, T, d) ∈ omap vote_key (inflight c)) →
  votes c !! (s, inc, T) = Some v →
  (inc <= incarnation c s)%nat ∧
  (inc = incarnation c s → T <= currentTerm (set_server i rf' c s)) ∧
  ∃ Q, backed H' T s Q ∧ Z.of_nat (size Q) = v ∧
       ∀ d, (s, inc, T, d) ∈ omap vote_key net' → d ∉ Q.
Proof.
  intros Hinv HH He Hnet Hv.
  destruct (inv_count _ _ _ Hinv _ _ _ _ Hv) as (? & Ht & Q & HQ & Hs & Hd).
  split_and!; [done| |].
  - intros Hi. specialize (Ht Hi). unfold set_server. case_decide; [subst|done].
    pose proof (ev_term _ _ He). lia.
  - exists Q. split_and!; [by eapply backed_mono|done|]. auto.
Qed.

(** The steps that are not about elections. *)
Lemma inv_frame H c i rf' net' :
  inv_with N H c → evolves (servers c i) rf' →
  (role rf' = Leader → role (servers c i) = Leader) → replaced (inflight c) net' →
  inv_with N H (mkCluster (set_server i rf' c) (incarnation c) (votes c) net').
Proof.
  intros Hinv He Hrole Hnet. constructor; simpl.
  - intros j. by eapply inv_node_evolves.
  - apply Hinv.
  - intros d T s. by apply inv_vote_evolves.
  - intros src inc dst args Hp. eapply Hinv, replaced_elem; done.
  - intros src inc dst args reply Hp. eapply Hinv, replaced_elem; done.
  - eapply replaced_NoDup; [done|apply Hinv].
  - intros src inc T dst Hk. eapply Hinv, replaced_key; done.
  - intros s inc T v Hv. eapply counts_frame; eauto using replaced_key.
  - intros s. by eapply leaders_frame.
Qed.

(** The steps that only consume packets or start calls. *)
Lemma inv_net H c net' :
  inv_with N H c → replaced (inflight c) net' →
  inv_with N H (mkCluster (servers c) (incarnation c) (votes c) net').
Proof.
  intros Hinv Hr. destruct Hinv; constructor; simpl; eauto using replaced_elem,
    replaced_NoDup, replaced_key.
  intros s inc T v Hv. destruct (inv_count0 _ _ _ _ Hv) as (?&?&Q&?&?&?).
  split_and!; eauto. exists Q. split_and!; eauto using replaced_key.
Qed.

Lemma inv_elect H c i now rnd rf' calls :
  inv_with N H c → (i < N)%nat →
  tickerStep now rnd (servers c i) = Some (rf', Some calls) →
  inv_with N ({[(i, currentTerm rf', i)]} ∪ H)
    (mkCluster (set_server i rf' c) (incarnation c)
       (<[(i, incarnation c i, currentTerm rf') := 1]> (votes c))
       (vote_requests i (incarnation c i) calls ++ inflight c)).
Proof.
  intros Hinv Hi Ht. pose proof (ticker_evolves _ _ _ _ _ Ht) as He.
  apply ticker_elects in Ht as (HT & Hv & Hr & args & -> & Ha & Hc).
  destruct (inv_node _ _ _ Hinv i) as (_ & _ & Hn & Hme). rewrite Hme in Hv, Hc.
  set (inc := incarnation c i) in *.
  destruct (elect_fresh H c i (currentTerm rf') Hinv) as [Hfresh Hnokey]; [lia|].
  pose proof (elect_keys i inc args c Hme) as Hnew. rewrite Ha in Hnew.
  destruct (cast_vote H c i rf' i Hinv He Hi Hv) as [Hfun Hvote].
  { intros s' (_ & Hle & _)%(inv_vote _ _ _ Hinv). lia. }
  constructor; simpl; [|exact Hfun|exact Hvote|..].
  - intros j. by eapply inv_node_evolves.
  - intros src inc' dst args' [Hp|Hp]%elem_of_app; [|by eapply Hinv].
    apply vote_requests_elem in Hp as (p & Hp%otherPeers_elem & [= -> -> -> ->]).
    split; [done|lia].
  - intros src inc' dst args' reply [Hp|Hp]%elem_of_app Hg.
    + by apply vote_requests_elem in Hp as (? & _ & ?).
    + apply elem_of_union_r. by eapply Hinv.
  - rewrite omap_app. apply list.NoDup_app. split_and!; [apply vote_requests_fresh| |apply Hinv].
    intros k (d & -> & _)%Hnew. apply Hnokey.
  - intros src inc' T0 dst. rewrite omap_app, elem_of_app, lookup_insert_is_Some'.
    intros [(d & [= -> -> -> ->] & _)%Hnew|Hk]; [by left|right; by eapply Hinv].
  - intros s inc' T0 v. rewrite lookup_insert_Some. intros [[[= <- <- <-] <-]|[Hne Hv']].
    + split_and!; [done|by rewrite set_server_eq|]. exists {[i]}. split_and!.
      * intros d ->%elem_of_singleton. set_solver.
      * by rewrite size_singleton.
      * intros d. rewrite omap_app, elem_of_app.
        intros [(d' & [= ->] & ?)%Hnew|Hk]; [set_solver|by apply Hnokey in Hk].
    + eapply counts_frame; [done|set_solver|done| |done]. intros d.
      rewrite omap_app, elem_of_app. by intros [(d' & [= -> -> ->] & _)%Hnew|Hk].
  - intros s. eapply leaders_frame; [done|set_solver|done|]. by rewrite Hr.
Qed.

(** The history after the answer to a vote request. *)
Definition granted (d : nat) (args : RequestVoteArgs) (s : nat) (reply : RequestVoteReply)
    (H : History) : History :=
  if rvr_VoteGranted reply then {[(d, rv_Term args, s)]} ∪ H else H.

Lemma inv_vote_deliver H c src inc dst args now rf' reply rest :
  inv_with N H c → inflight c ≡ₚ PVoteReq src inc dst args :: rest →
  RequestVote now args (servers c dst) = Some (rf', reply) →
  inv_with N (granted dst args src reply H)
    (mkCluster (set_server dst rf' c) (incarnation c) (votes c)
       (PVoteRep src inc dst args reply :: rest)).
Proof.
  intros Hinv Hnet Hrv. pose proof (RequestVote_evolves _ _ _ _ _ Hrv) as He.
  destruct (inv_req _ _ _ Hinv src inc dst args) as [Hc Hd]; [rewrite Hnet; set_solver|].
  assert (∀ k, k ∈ omap vote_key (PVoteRep src inc dst args reply :: rest) ↔
               k ∈ omap vote_key (inflight c)) as Hk by (intros k; by rewrite Hnet).
  unfold granted. set (H' := if rvr_VoteGranted reply then {[(dst, rv_Term args, src)]} ∪ H else H).
  assert (H ⊆ H') as HH by (subst H'; case_match; set_solver).
  assert ((∀ d T s1 s2, (d, T, s1) ∈ H' → (d, T, s2) ∈ H' → s1 = s2) ∧
    (∀ d T s0, (d, T, s0) ∈ H' → (d < N)%nat ∧ T <= currentTerm (set_server dst rf' c d) ∧
      (T = currentTerm (set_server dst rf' c d) →
       votedFor (set_server dst rf' c d) = Z.of_nat s0))) as [Hfun Hvote].
  { subst H'. destruct (rvr_VoteGranted reply) eqn:Hg.
    - destruct (RequestVote_grant _ _ _ _ _ Hrv Hg) as (Hle & HT & Hv & Hold).
      rewrite <-HT. apply cast_vote; [done|done|done|congruence|].
      intros s' (_ & Hle' & Hv')%(inv_vote _ _ _ Hinv). rewrite HT in *.
      assert (rv_Term args = currentTerm (servers c dst)) as Heq by lia.
      specialize (Hv' Heq). destruct Hold; [done|lia|lia].
    - split; [apply Hinv|]. intros d T s0. by apply inv_vote_evolves. }
  set (net' := PVoteRep src inc dst args reply :: rest) in *.
  constructor; cbn [servers incarnation votes inflight]; [|exact Hfun|exact Hvote|..].
  - intros j. by eapply inv_node_evolves.
  - intros src' inc' dst' args' Hp. apply (inv_req _ _ _ Hinv src' inc'). rewrite Hnet.
    subst net'. set_solver.
  - intros src' inc' dst' args' reply' Hp Hg. apply elem_of_cons in Hp as [Hp|Hp].
    + simplify_eq. subst H'. rewrite Hg. set_solver.
    + apply HH. eapply Hinv; [|done]. rewrite Hnet. by apply list_elem_of_further.
  - pose proof (inv_keys _ _ _ Hinv) as Hnd. by rewrite Hnet in Hnd.
  - intros src' inc' T dst' Hk'. eapply Hinv, Hk. exact Hk'.
  - intros s inc' T v Hv. eapply counts_frame; eauto. intros d. by rewrite <-Hk.
  - intros s. eapply leaders_frame; eauto using RequestVote_role.
Qed.

(** A counted reply belongs to a voter that was not counted before. *)
Lemma count_reply H c src inc dst args reply v v' net' :
  inv_with N H c → PVoteRep src inc dst args reply ∈ inflight c →
  replaced (inflight c) net' → (src, inc, rv_Term args, dst) ∉ omap vote_key net' →
  votes c !! (src, inc, rv_Term args) = Some v →
  v' = v ∨ v' = v + 1 ∧ rvr_VoteGranted reply = true →
  ∃ Q, backed H (rv_Term args) src Q ∧ Z.of_nat (size Q) = v' ∧
       ∀ d, (src, inc, rv_Term args, d) ∈ omap vote_key net' → d ∉ Q.
Proof.
  intros Hinv Hp Hrep Hgone Hv Hcount.
  destruct (inv_count _ _ _ Hinv _ _ _ _ Hv) as (_ & _ & Q & HQ & HQs & HQd).
  assert ((src, inc, rv_Term args, dst) ∈ omap vote_key (inflight c)) as Hin
    by (apply list_elem_of_omap; by eexists).
  destruct Hcount as [->|(-> & Hg)].
  - exists Q. split_and!; eauto using replaced_key.
  - exists ({[dst]} ∪ Q). split_and!.
    + intros d [->%elem_of_singleton|Hd]%elem_of_union; [|by apply HQ]. by eapply Hinv.
    + rewrite size_union, size_singleton; [lia|]. specialize (HQd _ Hin). set_solver.
    + intros d Hd. assert (d ≠ dst) by congruence.
      specialize (HQd d (replaced_key _ _ _ Hrep Hd)). set_solver.
Qed.

Lemma inv_vote_reply H c src inc dst args reply now v rf' v' (hb : bool) rest :
  inv_with N H c → inflight c ≡ₚ PVoteRep src inc dst args reply :: rest →
  inc = incarnation c src → votes c !! (src, inc, rv_Term args) = Some v →
  handleRequestVoteReply now (rv_Term args) reply v (servers c src) = Some (rf', v', hb) →
  inv_with N H (mkCluster (set_server src rf' c) (incarnation c)
     (<[(src, inc, rv_Term args) := v']> (votes c))
     ((if hb then [PHeartbeats src inc] else []) ++ rest)).
Proof.
  intros Hinv Hnet Hinc Hv Hh. pose proof (voteReply_evolves _ _ _ _ _ _ _ _ Hh) as He.
  apply voteReply_counts in Hh as Hcount.
  assert (replaced (inflight c) ((if hb then [PHeartbeats src inc] else []) ++ rest)) as Hrep.
  { eapply replaced_one; [done|]. by destruct hb. }
  set (net' := _ ++ rest) in *.
  assert ((src, inc, rv_Term args, dst) ∉ omap vote_key net') as Hgone.
  { pose proof (inv_keys _ _ _ Hinv) as Hnd. rewrite Hnet in Hnd. simpl in Hnd.
    apply list.NoDup_cons in Hnd as [Hnd _]. subst net'. rewrite omap_app. by destruct hb. }
  destruct (count_reply H c src inc dst args reply v v' net') as (Q & HQ & HQs & HQd);
    [done|rewrite Hnet; by apply list_elem_of_here|done..|naive_solver|].
  constructor; cbn [servers incarnation votes inflight]; [|apply Hinv|..].
  - intros j. by eapply inv_node_evolves.
  - intros d T s. by apply inv_vote_evolves.
  - intros src' inc' dst' args' Hp. eapply Hinv, replaced_elem; done.
  - intros src' inc' dst' args' reply' Hp. eapply Hinv, replaced_elem; done.
  - eapply replaced_NoDup; [done|apply Hinv].
  - intros src' inc' T dst' Hk. rewrite lookup_insert_is_Some'. right.
    eapply Hinv, replaced_key; done.
  - intros s inc' T v0. rewrite lookup_insert_Some. intros [[[= <- <- <-] <-]|[Hne Hv']].
    + destruct (counts_frame H H c src rf' net' src inc (rv_Term args) v) as (? & ? & _);
        [done|done|done|eauto using replaced_key|done|]. split_and!; eauto.
    + eapply counts_frame; eauto using replaced_key.
  - intros s Hl. destruct Hcount as [[-> Hr]|(-> & _ & Hr)]; [by eapply leaders_frame|].
    destruct (decide (src = s)) as [<-|Hne].
    + rewrite set_server_eq in *. destruct (Hr Hl) as [-> Hmaj]. exists Q. split; [done|].
      destruct (inv_node _ _ _ Hinv src) as (_ & _ & Hn & _). rewrite Hn in Hmaj. lia.
    + rewrite set_server_ne in * by done. by apply Hinv.
Qed.

Lemma inv_restart H c i now :
  inv_with N H c →
  inv_with N H (mkCluster
    (set_server i (Make N (Z.of_nat i) (persister (servers c i)) now) c)
    (λ j, if decide (i = j) then S (incarnation c i) else incarnation c j)
    (votes c) (inflight c)).
Proof.
  intros Hinv. destruct (inv_node _ _ _ Hinv i) as (Hw & Hp & Hn & Hm).
  set (rf' := Make _ _ _ _). destruct (pvals_eq rf' (servers c i)) as (Ht & Hv & _); [apply Hp|].
  assert (role rf' = Follower) as Hr by apply Make_role.
  assert (npeers rf' = N ∧ me rf' = Z.of_nat i ∧ wf rf' ∧ pers_ok rf') as (?&?&?&?)
    by (split_and!; [apply Make_npeers|apply Make_me|by apply Make_wf|by apply Make_pers]).
  clearbody rf'.
  constructor; cbn [servers incarnation votes inflight]; [|apply Hinv| |apply Hinv..| |].
  - intros j. unfold set_server. case_decide; [by subst|apply Hinv].
  - intros d T s Hin. unfold set_server. case_decide; [subst|by apply Hinv].
    rewrite Ht, Hv. by apply Hinv.
  - intros s inc T v Hvt.
    destruct (inv_count _ _ _ Hinv _ _ _ _ Hvt) as (Hle & HT & HQ).
    unfold set_server. case_decide; subst; (split_and!; [lia| |done]).
    + lia.
    + done.
  - intros s. unfold set_server. case_decide; [congruence|apply Hinv].
Qed.

Lemma inv_init_empty c : init N c → inv_with N ∅ c.
Proof.
  intros (Hs & Hv & Hf).
  assert (∀ i, wf (servers c i) ∧ pers_ok (servers c i) ∧ npeers (servers c i) = N ∧
            me (servers c i) = Z.of_nat i ∧ role (servers c i) = Follower) as Hn.
  { intros i. destruct (Hs i) as [now ->].
    auto using Make_fresh_wf, Make_fresh_pers, Make_npeers, Make_me, Make_role. }
  constructor; rewrite ?Hv, ?Hf; cbn [omap list_omap].
  - intros i. by destruct (Hn i) as (?&?&?&?&?).
  - by intros ???? ?%elem_of_empty.
  - by intros ??? ?%elem_of_empty.
  - by intros ???? ?%elem_of_nil.
  - by intros ????? ?%elem_of_nil.
  - constructor.
  - by intros ???? ?%elem_of_nil.
  - intros ????. by rewrite lookup_empty.
  - intros s Hr. destruct (Hn s) as (?&?&?&?&?). congruence.
Qed.

Lemma inv_init c : init N c → inv N c.
Proof. exists ∅. by apply inv_init_empty. Qed.

Lemma inv_step snap_ok c c' : inv N c → step N snap_ok c c' → inv N c'.
Proof.
  intros [H Hinv] Hstep.
  assert (∀ i rf' net', evolves (servers c i) rf' →
    (role rf' = Leader → role (servers c i) = Leader) → replaced (inflight c) net' →
    inv N (mkCluster (set_server i rf' c) (incarnation c) (votes c) net')) as Hframe
    by (intros; exists H; by apply inv_frame).
  assert (∀ net', replaced (inflight c) net' →
    inv N (mkCluster (servers c) (incarnation c) (votes c) net')) as Hnet
    by (intros; exists H; by apply inv_net).
  destruct Hstep as [ev Hstep]. destruct Hstep.
  - apply Hframe; eauto using ticker_evolves, replaced_refl.
    unfold tickerStep in *. by raft_case.
  - eexists. by eapply inv_elect.
  - eexists. by eapply inv_vote_deliver.
  - exists H. by eapply inv_vote_reply.
  - apply Hnet. destruct (sendHeartbeats _).
    + rewrite cons_middle, app_assoc. eapply replaced_one; [done|].
      by rewrite omap_app, spawn_no_votes.
    + by eapply (replaced_one _ _ []).
  - apply Hnet. eapply replaced_one; [done|apply spawn_no_votes].
  - apply Hnet. eapply replaced_one; [done|]. by destruct action.
  - apply Hframe; eauto using AppendEntries_evolves, AppendEntries_role.
    by eapply (replaced_one _ _ [_]).
  - apply Hframe; eauto using appendReply_evolves, appendReply_role.
    by eapply (replaced_one _ _ []).
  - apply Hframe; eauto using InstallSnapshot_evolves, InstallSnapshot_role.
    by eapply (replaced_one _ _ [_]).
  - apply Hframe; eauto using snapshotReply_evolves, snapshotReply_role.
    by eapply (replaced_one _ _ []).
  - apply Hframe; eauto using Start_evolves, Start_role. apply replaced_add. by destruct b.
  - apply Hframe; eauto using Snapshot_evolves, Snapshot_role, replaced_refl.
  - apply Hframe; eauto using applier_evolves, applier_role, replaced_refl.
  - apply Hnet. by eapply (replaced_one _ _ []).
  - exists H. by apply inv_restart.
Qed.

Lemma reachable_inv c : cluster_reachable N c → inv N c.
Proof.
  revert c. apply reachable_invariant; [apply inv_init|]. intros c c' _. apply inv_step.
Qed.

Lemma lstep_weaken (P Q : Raft cmd → Z → Prop) c ev c' :
  (∀ rf index, P rf index → Q rf index) → lstep N P c ev c' → lstep N Q c ev c'.
Proof.
  intros HPQ Hs. destruct Hs; [by econstructor..| | | |];
    [eapply s_snapshot|eapply s_apply|eapply s_drop|eapply s_restart]; eauto.
Qed.

Lemma step_weaken (P Q : Raft cmd → Z → Prop) c c' :
  (∀ rf index, P rf index → Q rf index) → step N P c c' → step N Q c c'.
Proof. intros HPQ [ev Hs]. exists ev. by eapply lstep_weaken. Qed.

Lemma service_cluster c : service_reachable N c → cluster_reachable N c.
Proof.
  induction 1 as [c Hc|c c' _ IH Hs]; [by constructor|].
  eapply reach_step; [exact IH|]. by eapply step_weaken, Hs.
Qed.

Lemma inv_leader_unique H c i j :
  inv_with N H c →
  role (servers c i) = Leader → role (servers c j) = Leader →
  currentTerm (servers c i) = currentTerm (servers c j) → i = j.
Proof.
  intros Hinv Hi Hj HT.
  destruct (inv_leader _ _ _ Hinv _ Hi) as (Qi & HQi & Hsi).
  destruct (inv_leader _ _ _ Hinv _ Hj) as (Qj & HQj & Hsj).
  destruct (majority_intersect N Qi Qj) as (x & Hx & Hx'); [|..|done|done|].
  - intros d Hd%HQi. apply (inv_vote _ _ _ Hinv) in Hd as [Hd _]. apply elem_of_set_seq. lia.
  - intros d Hd%HQj. apply (inv_vote _ _ _ Hinv) in Hd as [Hd _]. apply elem_of_set_seq. lia.
  - apply HQi in Hx. apply HQj in Hx'. rewrite HT in Hx. by eapply Hinv.
Qed.

Lemma leader_unique c i j :
  cluster_reachable N c →
  role (servers c i) = Leader → role (servers c j) = Leader →
  currentTerm (servers c i) = currentTerm (servers c j) → i = j.
Proof. intros [H Hinv]%reachable_inv. by eapply inv_leader_unique. Qed.

(** C9. Election Safety: in any reachable state of the cluster, whatever was
    lost, reordered or restarted, two leaders of the same term are the same
    server. *)
Theorem election_safety c i j :
  cluster_reachable N c →
  role (servers c i) = Leader → role (servers c j) = Leader →
  currentTerm (servers c i) = currentTerm (servers c j) → i = j.
Proof. apply leader_unique. Qed.

End ElectionSafety.
