(* ===== verification/RaftSim.v ===== *)
(** * Running a cluster

    An executable scheduler for the cluster of RaftNet.v: [perform] carries out
    one choice of the environment (which packet is handled or lost, whose timer
    fires, what the service does) and is sound for the step relation, so that
    concrete runs are checked by computation. *)

From S2P Require Import Prelude Gob Persister Raft RaftNode RaftSpec RaftProtocol RaftNet.

Section Sim.
Context {cmd : Type} `{!Gob (RaftVal cmd)}.
Context (N : nat).

(** [CHandle k] runs the [k]-th packet in flight, [CDrop k] loses it. *)
Inductive Choice :=
| CTick (i : nat) (now rnd : Z)
| CHandle (k : nat) (now : Z)
| CDrop (k : nat)
| CStart (i : nat) (command : option cmd)
| CSnapshot (i : nat) (index : Z) (snap : list byte)
| CApply (i : nat)
| CRestart (i : nat) (now : Z).

Abbreviation Result := (option (Event (cmd:=cmd) * Cluster (cmd:=cmd))).

Definition server_step (i : nat) (rf : Raft cmd) (net : list Packet) (c : Cluster) : Cluster :=
  mkCluster (set_server i rf c) (incarnation c) (votes c) net.

Definition handle (now : Z) (p : Packet (cmd:=cmd)) (rest : list Packet) (c : Cluster) : Result :=
  match p with
  | PVoteReq src inc dst args =>
      '(rf', reply) ← RequestVote now args (servers c dst);
      Some (EQuiet, server_step dst rf' (PVoteRep src inc dst args reply :: rest) c)
  | PVoteRep src inc dst args reply =>
      if decide (inc = incarnation c src) then
        v ← votes c !! (src, inc, rv_Term args);
        '(rf', v', hb) ← handleRequestVoteReply now (rv_Term args) reply v (servers c src);
        Some (EQuiet, mkCluster (set_server src rf' c) (incarnation c)
                        (<[(src, inc, rv_Term args) := v']> (votes c))
                        ((if (hb : bool) then [PHeartbeats src inc] else []) ++ rest))
      else None
  | PHeartbeats src inc =>
      if decide (inc = incarnation c src) then
        Some (EQuiet, mkCluster (servers c) (incarnation c) (votes c)
                        match sendHeartbeats (servers c src) with
                        | Some calls => spawn src inc calls ++ PHeartbeats src inc :: rest
                        | None => rest
                        end)
      else None
  | PBroadcast src inc =>
      if decide (inc = incarnation c src) then
        Some (EQuiet, mkCluster (servers c) (incarnation c) (votes c)
                        (spawn src inc (broadcastAppendEntries (servers c src)) ++ rest))
      else None
  | PSend src inc peer term =>
      if decide (inc = incarnation c src) then
        action ← sendAppendEntriesToPeer peer term (servers c src);
        Some (EQuiet, mkCluster (servers c) (incarnation c) (votes c)
                        (send_packet src inc peer action ++ rest))
      else None
  | PAppendReq src inc dst args =>
      '(rf', reply) ← AppendEntries now args (servers c dst);
      Some (EQuiet, server_step dst rf' (PAppendRep src inc dst args reply :: rest) c)
  | PAppendRep src inc dst args reply =>
      if decide (inc = incarnation c src) then
        rf' ← handleAppendEntriesReply (Z.of_nat dst) (ae_Term args) args reply (servers c src);
        Some (EQuiet, server_step src rf' rest c)
      else None
  | PSnapReq src inc dst args =>
      '(rf', reply, m) ← InstallSnapshot now args (servers c dst);
      Some (EInstall dst m, server_step dst rf' (PSnapRep src inc dst args reply :: rest) c)
  | PSnapRep src inc dst args reply =>
      if decide (inc = incarnation c src) then
        rf' ← handleInstallSnapshotReply (Z.of_nat dst) (is_Term args) args reply (servers c src);
        Some (EQuiet, server_step src rf' rest c)
      else None
  end.

Definition perform (ch : Choice) (c : Cluster) : Result :=
  match ch with
  | CTick i now rnd =>
      if decide (i < N)%nat then
        '(rf', calls) ← tickerStep now rnd (servers c i);
        Some (EQuiet,
          match calls with
          | None => server_step i rf' (inflight c) c
          | Some calls =>
              mkCluster (set_server i rf' c) (incarnation c)
                (<[(i, incarnation c i, currentTerm rf') := 1]> (votes c))
                (vote_requests i (incarnation c i) calls ++ inflight c)
          end)
      else None
  | CHandle k now => p ← inflight c !! k; handle now p (delete k (inflight c)) c
  | CDrop k =>
      p ← inflight c !! k;
      if may_vanish c p then
        Some (EQuiet, mkCluster (servers c) (incarnation c) (votes c) (delete k (inflight c)))
      else None
  | CStart i command =>
      if decide (i < N)%nat then
        let '(rf', res, b) := Start command (servers c i) in
        Some (EStart i command res, server_step i rf'
                ((if (b : bool) then [PBroadcast i (incarnation c i)] else []) ++ inflight c) c)
      else None
  | CSnapshot i index snap =>
      if decide (i < N)%nat then
        rf' ← Snapshot index snap (servers c i);
        Some (ESnapshot i index snap, server_step i rf' (inflight c) c)
      else None
  | CApply i =>
      if decide (i < N)%nat then
        '(rf', msgs) ← applierStep (servers c i);
        Some (EApply i msgs, server_step i rf' (inflight c) c)
      else None
  | CRestart i now =>
      if decide (i < N)%nat then
        Some (ERestart i,
          mkCluster (set_server i (Make N (Z.of_nat i) (persister (servers c i)) now) c)
            (λ j, if decide (i = j) then S (incarnation c i) else incarnation c j)
            (votes c) (inflight c))
      else None
  end.

(** Choices, one after the other; what the services saw is forgotten. *)
Definition perform_all (chs : list Choice) (c : Cluster) : option Cluster :=
  foldl (λ oc ch, c ← oc; snd <$> perform ch c) (Some c) chs.

Lemma handle_sound now p rest c ev c' :
  inflight c ≡ₚ p :: rest → handle now p rest c = Some (ev, c') →
  lstep N (λ _ _, True) c ev c'.
Proof.
  intros Hnet. unfold handle, server_step. destruct p; intros H; raft_case; by econstructor.
Qed.

Lemma perform_sound ch c ev c' :
  perform ch c = Some (ev, c') → lstep N (λ _ _, True) c ev c'.
Proof.
  unfold perform. destruct ch as [i now rnd|k now|k|i command|i index snap|i|i now]; intros H.
  - case_decide; [|done]. apply bind_Some in H as ([rf' calls] & Ht & [= <- <-]).
    destruct calls; by econstructor.
  - apply bind_Some in H as (p & Hp & H). eapply handle_sound; [|exact H].
    by apply delete_Permutation.
  - apply bind_Some in H as (p & Hp & H). destruct (may_vanish c p) eqn:Hl; [|done].
    injection H as <- <-. eapply s_drop; [by apply delete_Permutation|done].
  - case_decide; [|done]. destruct (Start _ _) as [[rf' res] b] eqn:Hs.
    injection H as <- <-. by eapply s_start.
  - case_decide; [|done]. apply bind_Some in H as (rf' & Hs & [= <- <-]). by eapply s_snapshot.
  - case_decide; [|done]. apply bind_Some in H as ([rf' msgs] & Hs & [= <- <-]). by eapply s_apply.
  - case_decide; [|done]. injection H as <- <-. by eapply s_restart.
Qed.

Lemma perform_all_sound chs : ∀ c c',
  perform_all chs c = Some c' → rtc (step N (λ _ _, True)) c c'.
Proof.
  unfold perform_all. induction chs as [|ch chs IH]; simpl; intros c c' H; [by simplify_eq|].
  destruct (perform ch c) as [[ev c1]|] eqn:Hp; simpl in H.
  - eapply rtc_l; [|by apply IH]. exists ev. by apply (perform_sound ch).
  - exfalso. clear -H. induction chs; simpl in *; [done|auto].
Qed.

End Sim.
