(* ===== verification/RaftSafety.v ===== *)
(** * Safety of the Raft cluster

    The cluster of RaftNet.v refines the protocol of RaftProtocol.v: every step
    of the cluster is at most one transition of the protocol, and the servers
    and the packets in flight stay related to the state of the protocol
    ([cinv]).  Log Matching, Leader Completeness and State Machine Safety of the
    cluster follow. *)

From S2P Require Import Prelude Gob Persister Raft RaftNode RaftSpec RaftReplication RaftProtocol.
From S2P Require Import RaftNet RaftLog.

Section Safety.
Context {cmd : Type} `{!Gob (RaftVal cmd)} `{!GobRegistered (RaftVal cmd)}.
Context (N : nat).
Implicit Types A : Proto cmd.
Implicit Types rf : Raft cmd.
Implicit Types g : list (LogEntry cmd).

(** ** Relating a server to the protocol *)

(** The first [c] entries of [g] are committed, by a leader of a term up to [T]. *)
Definition covered A (T : Z) g (c : Z) : Prop :=
  c <= 0 ∨ ∃ T0 k0, committed N A T0 k0 ∧ T0 <= T ∧ (Z.to_nat c <= k0)%nat ∧
                    agrees (Z.to_nat c) g (p_ll A T0).

Record node_ok A (i : nat) rf : Prop := mkNodeOk {
  no_term : p_term A i = currentTerm rf;
  no_repr : repr (p_log A i) rf;
  no_lead : role rf = Leader →
    p_elected A (currentTerm rf) = Some i ∧ p_log A i = p_ll A (currentTerm rf) ∧
    p_ack A (currentTerm rf) i = length (p_log A i) ∧
    (∀ p m, matchIndex rf !! p = Some m → m <= Z.of_nat (p_ack A (currentTerm rf) p)) ∧
    ∀ (p : nat) n, nextIndex rf !! p = Some n → n <= len (p_log A i) + 1;
  no_cand : role rf = Candidate →
    p_elected A (currentTerm rf) ≠ Some i ∧ (i, currentTerm rf, i) ∈ p_votes A ∧
    p_cand A i (currentTerm rf) = p_log A i;
  no_commit : covered A (currentTerm rf) (p_log A i) (commitIndex rf)
}.

(** The arguments of AppendEntries: a segment of the log of the leader of their
    term, and a commit index that is covered. *)
Definition append_ok A (args : AppendEntriesArgs cmd) : Prop :=
  let L := p_ll A (ae_Term args) in
  let p := Z.to_nat (ae_PrevLogIndex args) in
  is_Some (p_elected A (ae_Term args)) ∧ 0 <= ae_PrevLogIndex args ∧
  (p + length (ae_Entries args) <= length L)%nat ∧ ae_PrevLogTerm args = tm L p ∧
  ae_Entries args = take (length (ae_Entries args)) (drop p L) ∧
  covered A (ae_Term args) L (ae_LeaderCommit args).

Definition snap_ok A (args : InstallSnapshotArgs) : Prop :=
  let L := p_ll A (is_Term args) in
  let p := Z.to_nat (is_LastIncludedIndex args) in
  is_Some (p_elected A (is_Term args)) ∧ (p <= length L)%nat ∧
  is_LastIncludedTerm args = tm L p ∧ covered A (is_Term args) L (is_LastIncludedIndex args).

Definition pkt_ok A (p : Packet (cmd:=cmd)) : Prop :=
  match p with
  | PVoteReq src inc dst args =>
      let g := p_cand A src (rv_Term args) in
      (src, rv_Term args, src) ∈ p_votes A ∧ rv_LastLogIndex args = len g ∧
      rv_LastLogTerm args = tm g (length g)
  | PSend src inc peer term => 0 <= peer < Z.of_nat N
  | PAppendReq src inc dst args => (dst < N)%nat ∧ append_ok A args
  | PAppendRep src inc dst args reply =>
      (dst < N)%nat ∧
      (aer_Success reply = true →
       ae_PrevLogIndex args + len (ae_Entries args) <= Z.of_nat (p_ack A (ae_Term args) dst)) ∧
      (aer_Success reply = false → aer_Term reply <= ae_Term args →
       is_Some (p_elected A (ae_Term args)) ∧
       aer_ConflictIndex reply <= len (p_ll A (ae_Term args)) + 1)
  | PSnapReq src inc dst args => (dst < N)%nat ∧ snap_ok A args
  | PSnapRep src inc dst args reply =>
      (dst < N)%nat ∧
      (isr_Term reply <= is_Term args →
       is_LastIncludedIndex args <= Z.of_nat (p_ack A (is_Term args) dst))
  | _ => True
  end.

Record cinv A c : Prop := mkCinv {
  ci_inv : inv_with N (p_votes A) c;
  ci_proto : pinv N A;
  ci_node i : node_ok A i (servers c i);
  ci_pkt p : p ∈ inflight c → pkt_ok A p
}.

(** ** Covered prefixes *)

Lemma covered_ext A A' T T' g c :
  ext A A' → T <= T' → covered A T g c → covered A' T' g c.
Proof.
  intros He HT [?|(T0 & k0 & Hc & ? & Hk & Ha)]; [by left|right]. exists T0, k0.
  pose proof Hc as (Hs & _ & [_ ?] & _). split_and!; [by eapply committed_ext|lia|done|].
  etrans; [exact Ha|]. symmetry. eapply ext_ll; [done|done|lia].
Qed.

Lemma covered_le A T g c c' : c' <= c → covered A T g c → covered A T g c'.
Proof.
  intros Hle [?|(T0 & k0 & Hc & ? & Hk & Ha)]; [left; lia|right]. exists T0, k0.
  split_and!; [done|done|lia|]. eapply agrees_le; [exact Ha|lia].
Qed.

Lemma covered_log A T g h c :
  agrees (Z.to_nat c) g h → covered A T g c → covered A T h c.
Proof.
  intros Hg [?|(T0 & k0 & Hc & ? & Hk & Ha)]; [by left|right]. exists T0, k0.
  split_and!; [done|done|done|]. etrans; [by symmetry|done].
Qed.

Lemma covered_len A T g c : covered A T g c → c <= len g.
Proof.
  intros [?|(T0 & k0 & _ & _ & _ & Ha)]; [lia|]. apply agrees_length_l in Ha. lia.
Qed.

Lemma covered_leader A T g c T' :
  pinv N A → covered A T g c → T <= T' → is_Some (p_elected A T') →
  agrees (Z.to_nat c) g (p_ll A T').
Proof.
  intros Hi [?|(T0 & k0 & Hc & ? & Hk & Ha)] HT Hs.
  - rewrite (Z2Nat.nonpos c) by done. apply agrees_0.
  - etrans; [exact Ha|]. eapply agrees_le; [|exact Hk]. eapply committed_ll; [done|done|lia|done].
Qed.

Lemma covered_agree A T g c T' g' c' m :
  pinv N A → covered A T g c → covered A T' g' c' → m <= c → m <= c' →
  agrees (Z.to_nat m) g g'.
Proof.
  intros Hi Hc Hc' Hm Hm'.
  apply (covered_le _ _ _ _ _ Hm) in Hc. apply (covered_le _ _ _ _ _ Hm') in Hc'.
  destruct Hc as [?|(T0 & k0 & Hc & _ & Hk & Ha)], Hc' as [?|(T1 & k1 & Hc' & _ & Hk' & Ha')];
    try (rewrite (Z2Nat.nonpos m) by done; apply agrees_0).
  etrans; [exact Ha|]. etrans; [|symmetry; exact Ha']. by eapply committed_agree.
Qed.

(** ** The relation is stable when the protocol moves *)

Lemma ll_grows A A' T h k :
  ext A A' → is_Some (p_elected A T) → agrees k (p_ll A T) h → agrees k (p_ll A' T) h.
Proof.
  intros He Hs Ha. etrans; [|exact Ha]. eapply ext_ll; eauto using agrees_length_l.
Qed.

Lemma append_ok_ext A A' args : ext A A' → append_ok A args → append_ok A' args.
Proof.
  intros He (Hs & Hp & Hlen & Ht & Hes & Hc). unfold append_ok.
  destruct Hs as [s Hs]. destruct (ext_elected _ _ He _ _ Hs) as (Hs' & _ & new & Hll).
  rewrite Hll. split_and!; [eauto|done|rewrite length_app; lia| | |].
  - rewrite Ht. symmetry. eapply agrees_tm; [apply agrees_app, agrees_refl|reflexivity]. lia.
  - rewrite drop_app_le, take_app_le; [done|rewrite length_drop; lia|lia].
  - eapply covered_ext; [exact He|reflexivity|]. eapply covered_log; [|exact Hc].
    symmetry. apply agrees_app, agrees_refl. apply covered_len in Hc. lia.
Qed.

Lemma snap_ok_ext A A' args : ext A A' → snap_ok A args → snap_ok A' args.
Proof.
  intros He (Hs & Hlen & Ht & Hc). unfold snap_ok.
  destruct Hs as [s Hs]. destruct (ext_elected _ _ He _ _ Hs) as (Hs' & _ & new & Hll).
  rewrite Hll. split_and!; [eauto|rewrite length_app; lia| |].
  - rewrite Ht. symmetry. eapply agrees_tm; [apply agrees_app, agrees_refl|reflexivity]. lia.
  - eapply covered_ext; [exact He|reflexivity|]. eapply covered_log; [|exact Hc].
    symmetry. apply agrees_app, agrees_refl. apply covered_len in Hc. lia.
Qed.

Lemma pkt_ok_ext A A' p : ext A A' → pkt_ok A p → pkt_ok A' p.
Proof.
  intros He. destruct p; simpl; try done.
  - intros (Hv & ? & ?). rewrite (ext_cand _ _ He) by done.
    split_and!; [by apply (ext_votes _ _ He)|done|done].
  - intros [? ?]. split; [done|by eapply append_ok_ext].
  - intros (? & Ha & Hf). split_and!; [done| |].
    + intros Hs. specialize (Ha Hs). pose proof (ext_ack _ _ He (ae_Term args) dst). lia.
    + intros Hs Ht. destruct (Hf Hs Ht) as [Hel Hx]. split; [by eapply ext_is_elected|].
      pose proof (ext_ll _ _ _ _ He Hel (Nat.le_refl _)) as Hl. apply agrees_length_l in Hl. lia.
  - intros [? ?]. split; [done|by eapply snap_ok_ext].
  - intros [? Ha]. split; [done|]. intros Hs. specialize (Ha Hs).
    pose proof (ext_ack _ _ He (is_Term args) dst). lia.
Qed.

(** A transition of server [i] leaves the other servers alone. *)
Record local (i : nat) A A' : Prop := mkLocal {
  lo_ext : ext A A';
  lo_term j : j ≠ i → p_term A' j = p_term A j;
  lo_log j : j ≠ i → p_log A' j = p_log A j;
  lo_elected T j : j ≠ i → p_elected A' T = Some j → p_elected A T = Some j;
  lo_ll T j : j ≠ i → p_elected A T = Some j → p_ll A' T = p_ll A T;
  lo_ack T j : j ≠ i → p_ack A' T j = p_ack A T j
}.

Lemma node_ok_local i A A' j rf : local i A A' → j ≠ i → node_ok A j rf → node_ok A' j rf.
Proof.
  intros [He Ht Hg Hel Hll Hack] Hj [H1 H2 H3 H4 H5]. constructor.
  - by rewrite Ht.
  - by rewrite Hg.
  - intros Hr. destruct (H3 Hr) as (Hs & HL & Ha & Hm & Hx).
    rewrite Hg, Hack, (Hll _ j) by done. split_and!; [|done|done| |done].
    + by destruct (ext_elected _ _ He _ _ Hs) as [? _].
    + intros p m Hpm. specialize (Hm p m Hpm). pose proof (ext_ack _ _ He (currentTerm rf) p). lia.
  - intros Hr. destruct (H4 Hr) as (Hs & Hv & Hc). rewrite Hg, (ext_cand _ _ He) by done.
    split_and!; [by intros ?%Hel|by apply (ext_votes _ _ He)|done].
  - rewrite Hg by done. eapply covered_ext; [exact He|reflexivity|done].
Qed.

#[export] Instance local_refl i : Reflexive (local i).
Proof. intros A. constructor; reflexivity || done. Qed.

Lemma cinv_update A A' c i rf' inc' votes' net' :
  cinv A c → local i A A' → pinv N A' →
  inv_with N (p_votes A') (mkCluster (set_server i rf' c) inc' votes' net') →
  node_ok A' i rf' → (∀ p, p ∈ net' → p ∈ inflight c ∨ pkt_ok A' p) →
  cinv A' (mkCluster (set_server i rf' c) inc' votes' net').
Proof.
  intros [_ _ Hn Hp] Hlo Hpi Hinv Hno Hnet. constructor; [done|done| |].
  - intros j. simpl. destruct (decide (j = i)) as [->|Hne]; [by rewrite set_server_eq|].
    rewrite set_server_ne by done. by eapply node_ok_local.
  - intros p [Hin|?]%Hnet; [|done]. eapply pkt_ok_ext; [by apply lo_ext in Hlo|by apply Hp].
Qed.

Lemma cinv_net A c net' :
  cinv A c → replaced (inflight c) net' → (∀ p, p ∈ net' → p ∈ inflight c ∨ pkt_ok A p) →
  cinv A (mkCluster (servers c) (incarnation c) (votes c) net').
Proof.
  intros [Hi Hpi Hn Hp] Hr Hnet. constructor; [by apply inv_net|done|done|].
  intros p [Hin|?]%Hnet; [by apply Hp|done].
Qed.

(** ** The transitions of a server *)

Lemma local_newterm A d T : pinv N A → p_term A d < T → local d A (newterm d T A).
Proof.
  intros Hi HT. constructor; simpl; try done.
  - eapply pstep_ext; [exact Hi|by apply p_newterm].
  - intros j ?. by rewrite fn_lookup_insert_ne.
Qed.

Lemma local_run A i : pinv N A → (i < N)%nat → local i A (run_for i A).
Proof.
  intros Hi HN. constructor; simpl; try done.
  - eapply pstep_ext; [exact Hi|by apply p_run].
  - intros j ?. by rewrite fn_lookup_insert_ne.
Qed.

Lemma local_cast A d T s : pinv N A → pstep N A (cast d T s A) → local d A (cast d T s A).
Proof.
  intros Hi Hs. constructor; simpl; try done.
  - by eapply pstep_ext.
  - intros j ?. by rewrite fn_lookup_insert_ne.
Qed.

Lemma local_elect A i :
  pinv N A → p_elected A (p_term A i) = None → pstep N A (elect i A) → local i A (elect i A).
Proof.
  intros Hi Hn Hs. constructor; simpl; try done.
  - by eapply pstep_ext.
  - intros T j Hj. destruct (decide (T = p_term A i)) as [->|].
    + rewrite fn_lookup_insert. congruence.
    + by rewrite fn_lookup_insert_ne.
  - intros T j Hj HT. rewrite fn_lookup_insert_ne; [done|congruence].
  - intros T j Hj. apply set_ack_ne. naive_solver.
Qed.

Lemma local_propose A i e :
  pinv N A → p_elected A (p_term A i) = Some i → pstep N A (propose i e A) →
  local i A (propose i e A).
Proof.
  intros Hi Hn Hs. constructor; simpl; try done.
  - by eapply pstep_ext.
  - intros j ?. by rewrite fn_lookup_insert_ne.
  - intros T j Hj HT. rewrite fn_lookup_insert_ne; [done|congruence].
  - intros T j Hj. apply set_ack_ne. naive_solver.
Qed.

Lemma local_accept A d T n g :
  pinv N A → pstep N A (accept d T n g A) → local d A (accept d T n g A).
Proof.
  intros Hi Hs. constructor; simpl; try done.
  - by eapply pstep_ext.
  - intros j ?. by rewrite fn_lookup_insert_ne.
  - intros j ?. by rewrite fn_lookup_insert_ne.
  - intros T' j Hj. apply set_ack_ne. naive_solver.
Qed.

Lemma node_ok_quiet A i rf rf' : quiet rf rf' → node_ok A i rf → node_ok A i rf'.
Proof.
  intros [Ht Hl Hi Hc Hr Hm Hn] [H1 H2 H3 H4 H5].
  constructor; rewrite ?Ht, ?Hc, ?Hr, ?Hm, ?Hn; try done. by eapply repr_frame.
Qed.

Lemma node_ok_raised A i T rf rf' :
  raised T rf rf' → ext A (newterm i T A) → node_ok A i rf → node_ok (newterm i T A) i rf'.
Proof.
  intros [Hlt Ht Hl Hi Hc Hr] He [H1 H2 H3 H4 H5]. constructor; rewrite ?Hr; try done.
  - simpl. by rewrite fn_lookup_insert.
  - by eapply repr_frame.
  - rewrite Hc. eapply covered_ext; [exact He| |done]. lia.
Qed.

Lemma node_ok_cast A i T s rf rf' :
  quiet rf rf' ∨ raised T rf rf' → currentTerm rf' = T → ext A (cast i T s A) →
  node_ok A i rf → node_ok (cast i T s A) i rf'.
Proof.
  intros [Hq|Hr] HT He Hno.
  - apply (node_ok_quiet _ _ _ _ Hq) in Hno as [H1 H2 H3 H4 H5].
    constructor; try done; simpl.
    + by rewrite fn_lookup_insert.
    + intros Hrc. destruct (H4 Hrc) as (? & ? & ?). split_and!; [done|set_solver|done].
  - destruct Hr as [Hlt Ht Hl Hi Hc Hr], Hno as [H1 H2 H3 H4 H5].
    constructor; rewrite ?Hr; try done.
    + simpl. by rewrite fn_lookup_insert.
    + by eapply repr_frame.
    + rewrite Hc. eapply covered_ext; [exact He| |done]. lia.
Qed.

(** ** One move of the protocol *)

(** Some leader has had the entry [e] at position [j]. *)
Definition had A (j : nat) (e : LogEntry cmd) : Prop :=
  ∃ T, is_Some (p_elected A T) ∧ p_ll A T !! j = Some e.

Section Simulation.
(** The entries, with their positions, that a step may add. *)
Context (new : nat → LogEntry cmd → Prop).

(** At most one transition of the protocol, which adds no other entries. *)
Definition moves A A' : Prop :=
  (A' = A ∨ pstep N A A') ∧ ∀ j e, had A' j e → had A j e ∨ new j e.

Lemma moves_refl A : moves A A.
Proof. split; [by left|]. intros. by left. Qed.

Lemma moves_same A A' :
  pstep N A A' → p_ll A' = p_ll A → p_elected A' = p_elected A → moves A A'.
Proof. intros Hs Hll He. split; [by right|]. intros j e. unfold had. rewrite Hll, He. by left. Qed.

Lemma moves_elect A i :
  pinv N A → pstep N A (elect i A) → moves A (elect i A).
Proof.
  intros Hi Hs. split; [by right|]. intros j e (T & HT & Hj). left. simpl in *.
  destruct (decide (T = p_term A i)) as [->|Hne].
  2:{ rewrite fn_lookup_insert_ne in HT by done. rewrite fn_lookup_insert_ne in Hj by done.
      by exists T. }
  rewrite fn_lookup_insert in Hj. destruct (pi_log _ _ Hi i j e Hj) as (_ & He & Ha).
  exists (Term e). split; [done|]. rewrite <-Hj. symmetry. eapply agrees_lookup; [exact Ha|lia].
Qed.

Lemma moves_propose A i e :
  pstep N A (propose i e A) → p_elected A (p_term A i) = Some i →
  p_log A i = p_ll A (p_term A i) → new (length (p_log A i)) e → moves A (propose i e A).
Proof.
  intros Hs Hel HL Hnew. split; [by right|]. intros j e' (T & HT & Hj). simpl in *.
  destruct (decide (T = p_term A i)) as [->|Hne]; [|rewrite fn_lookup_insert_ne in Hj by done; left; by exists T].
  rewrite fn_lookup_insert in Hj. destruct (decide (j < length (p_log A i))%nat).
  - left. exists (p_term A i). split; [done|]. rewrite <-HL. by rewrite lookup_app_l in Hj.
  - right. rewrite lookup_app_r in Hj by lia. apply list_lookup_singleton_Some in Hj as [? <-].
    by replace j with (length (p_log A i)) by lia.
Qed.

(** [c'] differs from [c] at server [i] and refines [A] after one move at most. *)
Definition simulated A (c' : Cluster (cmd:=cmd)) : Prop := ∃ A', moves A A' ∧ cinv A' c'.

Lemma sim_quiet A c i rf' inc' votes' net' :
  cinv A c → quiet (servers c i) rf' →
  inv_with N (p_votes A) (mkCluster (set_server i rf' c) inc' votes' net') →
  (∀ p, p ∈ net' → p ∈ inflight c ∨ pkt_ok A p) →
  simulated A (mkCluster (set_server i rf' c) inc' votes' net').
Proof.
  intros Hci Hq Hinv Hnet. exists A. split; [apply moves_refl|].
  apply (cinv_update A A); [done|reflexivity|apply Hci|done| |done].
  by eapply node_ok_quiet, Hci.
Qed.

Lemma sim_raised A c i T rf' inc' votes' net' :
  cinv A c → raised T (servers c i) rf' →
  inv_with N (p_votes A) (mkCluster (set_server i rf' c) inc' votes' net') →
  (∀ p, p ∈ net' → p ∈ inflight c ∨ pkt_ok (newterm i T A) p) →
  simulated A (mkCluster (set_server i rf' c) inc' votes' net').
Proof.
  intros Hci Hr Hinv Hnet. pose proof (ci_proto _ _ Hci) as Hpi.
  pose proof (ci_node _ _ Hci i) as Hno.
  assert (p_term A i < T) as HT by (rewrite (no_term _ _ _ Hno); by destruct Hr).
  pose proof (p_newterm N A i T HT) as Hs. pose proof (local_newterm A i T Hpi HT) as Hlo.
  exists (newterm i T A). split; [by apply moves_same|].
  apply (cinv_update A); [done|done|by eapply pinv_step|done| |done].
  apply (node_ok_raised _ _ _ (servers c i)); [done|by apply lo_ext in Hlo|done].
Qed.

(** ** Elections *)

Lemma lastLogTerm_repr g rf llt :
  repr g rf → lastLogTerm rf = Some llt → llt = tm g (length g).
Proof.
  intros Hg H. unfold lastLogTerm in H. apply fmap_Some in H as (e & He & ->).
  pose proof (repr_last _ _ Hg) as Hl.
  assert (logAt rf (lastLogIndex rf) = Some e) as Hat.
  { rewrite <-He. unfold logAt, getRelativeIndex, lastLogIndex. f_equal. lia. }
  apply (repr_logAt_Some g) in Hat as [_ ->]; [|done]. by rewrite Hl, Nat2Z.id.
Qed.

Lemma sim_elect A c i now rnd rf' calls :
  cinv A c → (i < N)%nat → tickerStep now rnd (servers c i) = Some (rf', Some calls) →
  simulated A (mkCluster (set_server i rf' c) (incarnation c)
    (<[(i, incarnation c i, currentTerm rf') := 1]> (votes c))
    (vote_requests i (incarnation c i) calls ++ inflight c)).
Proof.
  intros Hci Hi Ht. pose proof (ci_proto _ _ Hci) as Hpi.
  pose proof (inv_elect _ _ _ _ _ _ _ _ (ci_inv _ _ Hci) Hi Ht) as Hinv.
  destruct (ticker_effect _ _ _ _ _ Ht) as (HT & Hl & Hli & Hc & Hr & args & -> & Ha & Hai & Hat).
  destruct (ci_node _ _ Hci i) as [H1 H2 _ _ H5].
  pose proof (local_run A i Hpi Hi) as Hlo.
  assert (pinv N (run_for i A)) as Hpi' by (eapply pinv_step; [exact Hpi|by apply p_run]).
  exists (run_for i A). split; [apply moves_same; [by apply p_run|done..]|].
  apply (cinv_update A); [done|done|done| | |].
  - simpl. by rewrite H1, <-HT.
  - constructor; rewrite ?Hr; try done.
    + simpl. by rewrite fn_lookup_insert, HT, H1.
    + by eapply repr_frame.
    + intros _. simpl. rewrite HT, H1, !fn_lookup_insert. split_and!; [|set_solver|done].
      intros Hel. apply (elected_vote N A _ i Hpi) in Hel as [Hv _].
      apply (pi_votes _ _ Hpi) in Hv. lia.
    + simpl. rewrite Hc. eapply covered_ext; [by apply lo_ext in Hlo| |done]. lia.
  - intros p [Hp|Hp]%elem_of_app; [right|by left].
    apply vote_requests_elem in Hp as (d & _ & ->). simpl.
    rewrite Ha, H1, !fn_lookup_insert. split_and!; [set_solver| |by eapply lastLogTerm_repr].
    by rewrite Hai, (repr_last _ _ H2).
Qed.

Lemma sim_vote_deliver A c src inc dst args now rf' reply rest :
  cinv A c → inflight c ≡ₚ PVoteReq src inc dst args :: rest →
  RequestVote now args (servers c dst) = Some (rf', reply) →
  simulated A (mkCluster (set_server dst rf' c) (incarnation c) (votes c)
    (PVoteRep src inc dst args reply :: rest)).
Proof.
  intros Hci Hnet Hrv. pose proof (ci_proto _ _ Hci) as Hpi.
  pose proof (inv_vote_deliver _ _ _ _ _ _ _ _ _ _ _ (ci_inv _ _ Hci) Hnet Hrv) as Hinv.
  destruct (RequestVote_effect _ _ _ _ _ Hrv) as [Heff Hg]. unfold granted in Hinv.
  pose proof (ci_node _ _ Hci dst) as Hno.
  assert (PVoteReq src inc dst args ∈ inflight c) as Hin by (rewrite Hnet; by apply list_elem_of_here).
  assert (∀ A' p, p ∈ PVoteRep src inc dst args reply :: rest → p ∈ inflight c ∨ pkt_ok A' p) as Hp.
  { intros A' p [->|Hp]%elem_of_cons; [by right|left]. rewrite Hnet. by apply list_elem_of_further. }
  destruct (rvr_VoteGranted reply) eqn:Hgr.
  2:{ destruct Heff;
      [apply sim_quiet; [done..|apply Hp]|eapply sim_raised; [done..|apply Hp]]. }
  destruct (Hg eq_refl) as (Hle & HT & llt & Hllt & Hup).
  destruct (ci_pkt _ _ Hci _ Hin) as (Hv & Hli & Hlt).
  destruct (inv_req _ _ _ (ci_inv _ _ Hci) _ _ _ _ Hin) as [_ Hd].
  assert (pstep N A (cast dst (rv_Term args) src A)) as Hs.
  { destruct Hno as [H1 H2 _ _ _]. apply p_cast; [done|lia|done| |].
    - intros s' Hs'. eapply (inv_fun _ _ _ Hinv dst (rv_Term args)); set_solver.
    - apply (lastLogTerm_repr (p_log A dst)) in Hllt; [|done]. rewrite (repr_last _ _ H2) in Hup.
      unfold up_to_date. rewrite <-Hllt, <-Hlt. destruct Hup as [|[? ?]]; [by left|right].
      split; [done|lia]. }
  pose proof (local_cast A dst (rv_Term args) src Hpi Hs) as Hlo.
  exists (cast dst (rv_Term args) src A). split; [by apply moves_same|].
  apply (cinv_update A); [done|done|by eapply pinv_step|done| |apply Hp].
  eapply node_ok_cast; [exact Heff|done|by apply lo_ext in Hlo|done].
Qed.

Lemma sim_vote_reply A c src inc dst args reply now v rf' v' (hb : bool) rest :
  cinv A c → inflight c ≡ₚ PVoteRep src inc dst args reply :: rest →
  inc = incarnation c src → votes c !! (src, inc, rv_Term args) = Some v →
  handleRequestVoteReply now (rv_Term args) reply v (servers c src) = Some (rf', v', hb) →
  simulated A (mkCluster (set_server src rf' c) (incarnation c)
    (<[(src, inc, rv_Term args) := v']> (votes c))
    ((if hb then [PHeartbeats src inc] else []) ++ rest)).
Proof.
  intros Hci Hnet Hinc Hv Hh. pose proof (ci_proto _ _ Hci) as Hpi.
  pose proof (inv_vote_reply _ _ _ _ _ _ _ _ _ _ _ _ _ _ (ci_inv _ _ Hci) Hnet Hinc Hv Hh) as Hinv.
  destruct (inv_node _ _ _ (ci_inv _ _ Hci) src) as (Hw & _).
  assert (∀ A' p, p ∈ (if hb then [PHeartbeats src inc] else []) ++ rest →
    p ∈ inflight c ∨ pkt_ok A' p) as Hp.
  { intros A' p [Hp|Hp]%elem_of_app; [right|left].
    - destruct hb; [|by apply elem_of_nil in Hp]. by apply list_elem_of_singleton in Hp as ->.
    - rewrite Hnet. by apply list_elem_of_further. }
  destruct (voteReply_effect _ _ _ _ _ _ _ _ Hw Hh)
    as [Hq|[Hr|(Hcand & Hlead & HT & Hl & Hli & Hc & Hm & Hnx)]];
    [apply sim_quiet; [done..|apply Hp]|eapply sim_raised; [done..|apply Hp]|].
  destruct (ci_node _ _ Hci src) as [H1 H2 _ H4 H5]. destruct (H4 Hcand) as (Hne & Hself & Hcl).
  destruct (inv_leader _ _ _ Hinv src) as (Q & HQ & Hsize);
    simpl in *; rewrite set_server_eq in *; [done|].
  rewrite HT in HQ.
  assert (p_elected A (p_term A src) = None) as Hn.
  { destruct (p_elected A (p_term A src)) as [s|] eqn:E; [|done]. rewrite H1 in E.
    destruct (pi_won _ _ Hpi _ _ E) as (Q' & HQ' & Hb').
    destruct (majority_intersect N Q Q') as (d & Hd & Hd'); [| |done|done|].
    - intros d Hd%HQ%(pi_votes _ _ Hpi). apply elem_of_set_seq. lia.
    - intros d [Hd%(pi_votes _ _ Hpi) _]%Hb'. apply elem_of_set_seq. lia.
    - apply HQ in Hd. apply Hb' in Hd' as [Hd' _].
      pose proof (pi_fun _ _ Hpi _ _ _ _ Hd Hd'). congruence. }
  assert (pstep N A (elect src A)) as Hs.
  { apply (p_elect N A src Q); rewrite ?H1; try done; congruence. }
  pose proof (local_elect A src Hpi Hn Hs) as Hlo.
  exists (elect src A). split; [by apply moves_elect|].
  apply (cinv_update A); [done|done|by eapply pinv_step|done| |apply Hp].
  constructor; simpl.
  - by rewrite H1.
  - by eapply repr_frame.
  - intros _. rewrite HT, <-H1, !fn_lookup_insert, set_ack_eq. split_and!; try done.
    + intros p m Hpm%Hm. lia.
    + intros p n Hpn%Hnx. rewrite (repr_last _ _ H2) in Hpn. lia.
  - by rewrite Hlead.
  - rewrite HT, Hc. eapply covered_ext; [by apply lo_ext in Hlo|reflexivity|done].
Qed.

(** ** Accepting entries and snapshots *)

(** A follower whose log does not change. *)
Lemma sim_follows A c i T rf' net' :
  cinv A c → follows T (servers c i) rf' → log rf' = log (servers c i) →
  lastIncludedIndex rf' = lastIncludedIndex (servers c i) →
  commitIndex rf' = commitIndex (servers c i) →
  inv_with N (p_votes A) (mkCluster (set_server i rf' c) (incarnation c) (votes c) net') →
  (∀ p, p ∈ net' → p ∈ inflight c ∨ pkt_ok A p) →
  simulated A (mkCluster (set_server i rf' c) (incarnation c) (votes c) net').
Proof.
  intros Hci [Hle HT Hnc Hl] Hlog Hi Hc Hinv Hp. set (rf := servers c i) in *.
  destruct (decide (currentTerm rf < T)) as [Hlt|Hge].
  - eapply (sim_raised _ _ _ T); [done| |done|apply Hp]. constructor; try done.
    destruct (role rf') eqn:E; [done|done|]. destruct (Hl eq_refl) as (_ & ? & _). lia.
  - exists A. split; [apply moves_refl|].
    apply (cinv_update A A); [done|reflexivity|apply Hci|done| |apply Hp].
    destruct (ci_node _ _ Hci i) as [H1 H2 H3 H4 H5]. fold rf in H1, H2, H3, H4, H5.
    assert (currentTerm rf' = currentTerm rf) as Ht by lia.
    constructor; rewrite ?Ht, ?Hc; try done.
    + by eapply repr_frame.
    + intros (Hr & _ & -> & ->)%Hl. by apply H3.
Qed.

Lemma covered_survive A T0 T g g' c :
  pinv N A → covered A T0 g c → T0 <= T → is_Some (p_elected A T) →
  (∀ m, agrees m g (p_ll A T) → agrees m g' (p_ll A T)) → covered A T g' c.
Proof.
  intros Hi Hc HT Hs Hsurv. pose proof (covered_leader _ _ _ _ _ Hi Hc HT Hs) as Ha.
  eapply covered_log; [|eapply covered_ext; [reflexivity|exact HT|exact Hc]].
  etrans; [exact Ha|]. symmetry. by apply Hsurv.
Qed.

Lemma covered_max A T g c c' : covered A T g c → covered A T g c' → covered A T g (Z.max c c').
Proof. intros. by destruct (Z.max_spec c c') as [[_ ->]|[_ ->]]. Qed.

(** Node [i] accepts the first [n] entries of the leader of [T]. *)
Lemma sim_accept A c i T n g rf' net' :
  cinv A c → follows T (servers c i) rf' → is_Some (p_elected A T) → agrees n g (p_ll A T) →
  (g = p_log A i ∨ g = take n (p_ll A T)) →
  (∀ m, agrees m (p_log A i) (p_ll A T) → agrees m g (p_ll A T)) →
  repr g rf' → covered A T g (commitIndex rf') →
  inv_with N (p_votes A) (mkCluster (set_server i rf' c) (incarnation c) (votes c) net') →
  (∀ p, p ∈ net' → p ∈ inflight c ∨ pkt_ok (accept i T n g A) p) →
  simulated A (mkCluster (set_server i rf' c) (incarnation c) (votes c) net').
Proof.
  intros Hci [Hle HT Hnc Hl] Hs Ha Hcase Hsurv Hrepr Hcov Hinv Hp.
  pose proof (ci_proto _ _ Hci) as Hpi.
  destruct (ci_node _ _ Hci i) as [H1 H2 H3 H4 H5].
  assert (pstep N A (accept i T n g A)) as Hst by (apply p_accept; [done|lia|done..]).
  pose proof (local_accept A i T n g Hpi Hst) as Hlo.
  exists (accept i T n g A). split; [by apply moves_same|].
  apply (cinv_update A); [done|done|by eapply pinv_step|done| |exact Hp].
  constructor; simpl.
  - by rewrite fn_lookup_insert.
  - by rewrite fn_lookup_insert.
  - rewrite HT, !fn_lookup_insert. intros (Hr & HTe & Hm & Hn)%Hl.
    destruct (H3 Hr) as (Hel & HL & Hack & Hma & Hna).
    rewrite HTe in *. assert (g = p_log A i) as ->.
    { destruct Hcase as [?|Hg]; [done|]. specialize (Hsurv (length (p_ll A T))).
      rewrite HL in *. destruct Hsurv as (Htk & Hlen & _); [by apply agrees_refl|].
      rewrite firstn_all in Htk. rewrite <-Htk. symmetry. apply take_ge.
      rewrite Hg, length_take. lia. }
    rewrite Hn. split_and!; [done|done| | |done].
    + rewrite set_ack_eq. apply agrees_length_r in Ha. rewrite Hack, HL. lia.
    + intros p m Hpm. rewrite Hm in Hpm. specialize (Hma p m Hpm).
      pose proof (set_ack_le A T i (p_ack A T i `max` n) T p ltac:(lia)). lia.
  - done.
  - rewrite HT, fn_lookup_insert. eapply covered_ext; [by apply lo_ext in Hlo|reflexivity|done].
Qed.

Lemma sim_append_deliver A c src inc dst args now rf' reply rest :
  cinv A c → inflight c ≡ₚ PAppendReq src inc dst args :: rest →
  AppendEntries now args (servers c dst) = Some (rf', reply) →
  simulated A (mkCluster (set_server dst rf' c) (incarnation c) (votes c)
    (PAppendRep src inc dst args reply :: rest)).
Proof.
  intros Hci Hnet H. pose proof (ci_proto _ _ Hci) as Hpi.
  assert (inv_with N (p_votes A) (mkCluster (set_server dst rf' c) (incarnation c) (votes c)
    (PAppendRep src inc dst args reply :: rest))) as Hinv.
  { apply inv_frame; eauto using AppendEntries_evolves, AppendEntries_role;
      [apply Hci|]. by eapply (replaced_one _ _ [_]). }
  destruct (inv_node _ _ _ (ci_inv _ _ Hci) dst) as (Hw & _).
  destruct (ci_pkt _ _ Hci (PAppendReq src inc dst args)) as (Hd & Hel & Hp0 & Hlen & Hpt & Hes & Hcov);
    [rewrite Hnet; by apply list_elem_of_here|].
  assert (∀ A' p, pkt_ok A' (PAppendRep src inc dst args reply) →
    p ∈ PAppendRep src inc dst args reply :: rest → p ∈ inflight c ∨ pkt_ok A' p) as Hp.
  { intros A' p Hok [->|Hp]%elem_of_cons; [by right|left]. rewrite Hnet. by apply list_elem_of_further. }
  destruct (decide (ae_Term args < currentTerm (servers c dst))) as [Hold|Hcur].
  { destruct (AppendEntries_old _ _ _ _ _ Hold H) as [-> Hf].
    pose proof (AppendEntries_hint _ _ _ _ _ Hw H Hf) as Hh.
    unfold AppendEntries in H. rewrite (proj2 (Z.ltb_lt _ _)) in H by done.
    injection H as <-. simpl in Hp.
    apply sim_quiet; [done..|]. intros p. apply Hp. split_and!; [done|done|lia]. }
  destruct (AppendEntries_follows now args (servers c dst) rf' reply) as [Hfol Hli]; [lia|done|].
  destruct (AppendEntries_result _ _ _ _ _ Hw H) as (Hiff & Hok & Hno).
  destruct (aer_Success reply) eqn:Hs.
  2:{ destruct (Hno eq_refl) as [Hlog Hc].
      pose proof (AppendEntries_hint _ _ _ _ _ Hw H Hs) as Hh.
      assert (lastIncludedIndex (servers c dst) <= len (p_ll A (ae_Term args))) as Hlim.
      { pose proof (wf_commit _ Hw). pose proof (wf_applied _ Hw).
        destruct (ci_node _ _ Hci dst) as [_ _ _ _ H5].
        eapply covered_leader in H5; [|done| |exact Hel]; [|lia].
        apply agrees_length_r in H5. lia. }
      eapply sim_follows; [done..|]. intros p. apply Hp. split_and!; [done|congruence|].
      intros _ Ht. split; [done|]. specialize (Hh Ht). lia. }
  destruct (Hok eq_refl) as (Hlog & _ & _ & Hc).
  destruct (proj1 Hiff eq_refl) as [Hle Hprev].
  destruct (ci_node _ _ Hci dst) as [H1 H2 _ _ H5].
  destruct (mergedLog_repr _ _ _ _ H2 Hprev Hlog Hli) as (Hrepr & Hpl & Hpt').
  pose proof (pi_log _ _ Hpi dst) as Hgok. pose proof (ll_ok _ _ _ Hpi Hel) as Hlok.
  destruct (merged_accepts A _ _ _ _ (ae_Entries args) _ Hgok Hlok Hpl Hlen ltac:(congruence) Hes)
    as (Ha & Hcase & Hsurv).
  eapply sim_accept; [done..| |done|].
  - rewrite Hc. apply covered_max.
    + by eapply covered_survive.
    + eapply covered_log; [symmetry; eapply agrees_le; [exact Ha|lia]|].
      eapply covered_le; [|exact Hcov]. lia.
  - intros p. apply Hp. simpl. rewrite set_ack_eq. split_and!; [done|lia|congruence].
Qed.

Lemma sim_snap_deliver A c src inc dst args now rf' reply m rest :
  cinv A c → inflight c ≡ₚ PSnapReq src inc dst args :: rest →
  InstallSnapshot now args (servers c dst) = Some (rf', reply, m) →
  simulated A (mkCluster (set_server dst rf' c) (incarnation c) (votes c)
    (PSnapRep src inc dst args reply :: rest)).
Proof.
  intros Hci Hnet H. pose proof (ci_proto _ _ Hci) as Hpi.
  assert (inv_with N (p_votes A) (mkCluster (set_server dst rf' c) (incarnation c) (votes c)
    (PSnapRep src inc dst args reply :: rest))) as Hinv.
  { apply inv_frame; eauto using InstallSnapshot_evolves, InstallSnapshot_role;
      [apply Hci|]. by eapply (replaced_one _ _ [_]). }
  destruct (inv_node _ _ _ (ci_inv _ _ Hci) dst) as (Hw & _).
  assert (∀ A' p, pkt_ok A' (PSnapRep src inc dst args reply) →
    p ∈ PSnapRep src inc dst args reply :: rest → p ∈ inflight c ∨ pkt_ok A' p) as Hp.
  { intros A' p Hok [->|Hp]%elem_of_cons; [by right|left]. rewrite Hnet. by apply list_elem_of_further. }
  destruct (decide (is_Term args < currentTerm (servers c dst))) as [Hold|Hcur].
  { pose proof (InstallSnapshot_reply _ _ _ _ _ _ H).
    rewrite (InstallSnapshot_old _ _ _ _ _ _ Hold H) in *.
    apply sim_quiet; [done..|]. intros p. apply Hp. simpl. split; [|lia].
    destruct (ci_pkt _ _ Hci (PSnapReq src inc dst args)) as [? _]; [|done].
    rewrite Hnet. by apply list_elem_of_here. }
  destruct (InstallSnapshot_follows now args (servers c dst) rf' reply m) as [Hfol Hsame];
    [lia|done|].
  destruct (ci_pkt _ _ Hci (PSnapReq src inc dst args)) as (Hd & Hel & Hpl & Hpt & Hcov);
    [rewrite Hnet; by apply list_elem_of_here|].
  destruct (ci_node _ _ Hci dst) as [H1 H2 _ _ H5].
  set (n := Z.to_nat (is_LastIncludedIndex args)) in *.
  assert (∀ g, pkt_ok (accept dst (is_Term args) n g A) (PSnapRep src inc dst args reply)) as Hrep.
  { intros g. simpl. rewrite set_ack_eq. split; [done|lia]. }
  assert (∀ g, (∀ m, agrees m (p_log A dst) (p_ll A (is_Term args)) → agrees m g (p_ll A (is_Term args))) →
    covered A (is_Term args) g (commitIndex (servers c dst))) as Hcs.
  { intros g Hg. eapply covered_survive; [done|exact H5|lia|done|done]. }
  destruct (decide (is_LastIncludedIndex args <= lastIncludedIndex (servers c dst))) as [Hle|Hgt].
  - destruct (Hsame Hle) as (Hlog & Hli & Hc).
    apply (sim_accept _ _ _ (is_Term args) n (p_log A dst)); [done..| |by left|done| | |done|].
    + pose proof (wf_commit _ Hw). pose proof (wf_applied _ Hw).
      eapply covered_agree; [done|exact H5|exact Hcov|lia|lia].
    + by eapply repr_frame.
    + rewrite Hc. by apply Hcs.
    + intros p. apply Hp, Hrep.
  - destruct (InstallSnapshot_effect now args (servers c dst) rf' reply m (p_log A dst)
      (p_ll A (is_Term args))) as (Hc & Hcase);
      [done|lia|lia|done|done|unfold n in *; lia|done|]. fold n in Hcase.
    pose proof (pi_log _ _ Hpi dst) as Hgok. pose proof (ll_ok _ _ _ Hpi Hel) as Hlok.
    assert (∀ g, agrees n g (p_ll A (is_Term args)) →
      (∀ m, agrees m (p_log A dst) (p_ll A (is_Term args)) → agrees m g (p_ll A (is_Term args))) →
      covered A (is_Term args) g (commitIndex rf')) as Hcc.
    { intros g Hg Hsurv. rewrite Hc. apply covered_max; [by apply Hcs|].
      eapply covered_log; [symmetry; exact Hg|done]. }
    destruct Hcase as [(Hn & Htm & Hrepr)|(Hno & Hrepr)].
    + assert (agrees n (p_log A dst) (p_ll A (is_Term args))) as Ha by by eapply log_matching.
      apply (sim_accept _ _ _ (is_Term args) n (p_log A dst)); [done..|by left|done|done|by apply Hcc|done|].
      intros p. apply Hp, Hrep.
    + assert (agrees n (take n (p_ll A (is_Term args))) (p_ll A (is_Term args))) as Ha
        by by apply agrees_take.
      assert (∀ m, agrees m (p_log A dst) (p_ll A (is_Term args)) →
        agrees m (take n (p_ll A (is_Term args))) (p_ll A (is_Term args))) as Hsurv.
      { intros k Hk. destruct (decide (k <= n)%nat); [by eapply agrees_le|]. destruct Hno.
        split; [apply agrees_length_l in Hk; lia|]. eapply agrees_tm; [exact Hk|lia]. }
      apply (sim_accept _ _ _ (is_Term args) n (take n (p_ll A (is_Term args))));
        [done..|by right|done|done|by apply Hcc|done|].
      intros p. apply Hp, Hrep.
Qed.

(** ** The leader *)

Lemma leader_args A c i :
  cinv A c → role (servers c i) = Leader →
  let rf := servers c i in
  is_Some (p_elected A (currentTerm rf)) ∧ repr (p_ll A (currentTerm rf)) rf ∧
  covered A (currentTerm rf) (p_ll A (currentTerm rf)) (commitIndex rf).
Proof.
  intros Hci Hr rf. destruct (ci_node _ _ Hci i) as [H1 H2 H3 _ H5].
  destruct (H3 Hr) as (Hs & HL & _). rewrite HL in *. eauto.
Qed.

Lemma sim_send A c src inc peer term action rest :
  cinv A c → inflight c ≡ₚ PSend src inc peer term :: rest →
  sendAppendEntriesToPeer peer term (servers c src) = Some action →
  simulated A (mkCluster (servers c) (incarnation c) (votes c)
    (send_packet src inc peer action ++ rest)).
Proof.
  intros Hci Hnet H. exists A. split; [apply moves_refl|].
  apply cinv_net; [done|eapply replaced_one; [done|by destruct action]|].
  intros p [Hp|Hp]%elem_of_app; [right|left; rewrite Hnet; by apply list_elem_of_further].
  destruct (inv_node _ _ _ (ci_inv _ _ Hci) src) as (Hw & _).
  unfold sendAppendEntriesToPeer in H. set (rf := servers c src) in *.
  destruct (_ || _) eqn:Hg in H; [simplify_eq; by apply elem_of_nil in Hp|]. bool_to_prop.
  assert (role rf = Leader) as Hr by (destruct (role rf); naive_solver). subst term.
  pose proof (ci_pkt _ _ Hci (PSend src inc peer (currentTerm rf))
    ltac:(rewrite Hnet; by apply list_elem_of_here)) as Hpeer. simpl in Hpeer.
  destruct (leader_args A c src Hci Hr) as (Hs & Hrepr & Hcov). fold rf in Hs, Hrepr, Hcov.
  set (T := currentTerm rf) in *. pose proof Hrepr as ([Hl0 Hl1] & s & Hls & Hst).
  pose proof (repr_last _ _ Hrepr) as Hlast. apply bind_Some in H as (ni & _ & H).
  destruct (ni <=? lastIncludedIndex rf) eqn:Hni; bool_to_prop.
  - injection H as <-. apply list_elem_of_singleton in Hp as ->. simpl.
    unfold snap_ok. simpl. fold T. split_and!; [lia|done|lia| |].
    + pose proof (wf_sentinel _ Hw) as Hsen. rewrite Hls in Hsen. injection Hsen as <-. done.
    + eapply covered_le; [|done]. pose proof (wf_commit _ Hw). pose proof (wf_applied _ Hw). lia.
  - apply bind_Some in H as (pe & Hpe & H). apply bind_Some in H as (es & Hes & H).
    injection H as <-. apply list_elem_of_singleton in Hp as ->. simpl.
    apply (repr_logAt_Some (p_ll A T)) in Hpe as [Hpr Hpt]; [|done].
    apply go_from_Some in Hes as [_ Hes]. unfold getRelativeIndex in Hes.
    assert (es = drop (Z.to_nat (ni - 1)) (p_ll A T)) as ->.
    { rewrite Hes, Hls. replace (Z.to_nat (ni - lastIncludedIndex rf)) with
        (S (Z.to_nat (ni - 1) - Z.to_nat (lastIncludedIndex rf))) by lia. simpl.
      rewrite drop_drop. f_equal. lia. }
    unfold append_ok. cbn [ae_Term ae_PrevLogIndex ae_PrevLogTerm ae_Entries ae_LeaderCommit].
    fold T. split_and!; [lia|done|lia|rewrite length_drop; lia|done| |done].
    by rewrite take_ge.
Qed.

(** The leader's bookkeeping says what the peers have accepted. *)
Lemma majority_committed A c i ni mi x :
  cinv A c → role (servers c i) = Leader →
  let rf := servers c i in
  let rf1 := set_nextIndex ni (set_matchIndex mi rf) in
  wf rf1 →
  (∀ p m, mi !! p = Some m → m <= Z.of_nat (p_ack A (currentTerm rf) p)) →
  commitIndex rf < x <= lastLogIndex rf → Term <$> logAt rf x = Some (currentTerm rf) →
  majority_holds rf1 x → committed N A (currentTerm rf) (Z.to_nat x).
Proof.
  intros Hci Hr rf rf1 Hw1 Hm Hx Ht Hmaj. pose proof (ci_proto _ _ Hci) as Hpi.
  destruct (inv_node _ _ _ (ci_inv _ _ Hci) i) as (Hw & _ & Hn & Hme). fold rf in Hw, Hn, Hme.
  destruct (ci_node _ _ Hci i) as [H1 H2 H3 _ _]. fold rf in H1, H2, H3.
  destruct (H3 Hr) as (Hs & HL & Hack & _). rewrite HL in *.
  pose proof (repr_last _ _ H2) as Hlast.
  pose proof (wf_commit _ Hw). pose proof (wf_applied _ Hw). pose proof (wf_lii _ Hw).
  rewrite (repr_term (p_ll A (currentTerm rf))) in Ht by (done || lia). injection Ht as Ht.
  split_and!; [eauto|done|lia|lia|].
  set (hs := holders rf1 x) in *.
  assert (∀ p, p ∈ hs → p ≠ Z.of_nat i ∧ 0 <= p < Z.of_nat N ∧
    (Z.to_nat x <= p_ack A (currentTerm rf) (Z.to_nat p))%nat) as Hhs.
  { intros p Hp. apply list_elem_of_filter in Hp as [[Hpm Hpx] Hp]. apply elem_of_seqZ in Hp.
    simpl in Hpm, Hp, Hpx. rewrite Hme in Hpm. rewrite Hn in Hp. split_and!; [done|lia|lia|].
    destruct (go_nth mi p) as [m|] eqn:Em; simpl in Hpx; [|lia].
    apply go_nth_lookup in Em as [_ Em]. specialize (Hm _ _ Em). lia. }
  exists ({[i]} ∪ list_to_set (Z.to_nat <$> hs)). split.
  - unfold majority. rewrite size_union, size_singleton, size_list_to_set.
    + rewrite length_fmap. unfold majority_holds in Hmaj. fold hs in Hmaj. simpl in Hmaj.
      rewrite Hn in Hmaj. lia.
    + apply NoDup_fmap_2_strong; [|apply list.NoDup_filter, NoDup_seqZ].
      intros p q (_ & ? & _)%Hhs (_ & ? & _)%Hhs ?. lia.
    + apply disjoint_singleton_l. rewrite elem_of_list_to_set, list_elem_of_fmap.
      intros (p & -> & (? & ? & _)%Hhs). lia.
  - intros d [->%elem_of_singleton|Hd]%elem_of_union.
    + apply (elected_vote N A _ i Hpi) in Hs as [Hv _]. apply (pi_votes _ _ Hpi) in Hv as [? _].
      split; [done|]. rewrite Hack. lia.
    + apply elem_of_list_to_set, list_elem_of_fmap in Hd as (p & -> & (? & ? & ?)%Hhs). lia.
Qed.

Lemma insert_match A T (mi : list Z) (dst : nat) (x : Z) :
  (∀ p m, mi !! p = Some m → m <= Z.of_nat (p_ack A T p)) → x <= Z.of_nat (p_ack A T dst) →
  ∀ p m, <[dst := x]> mi !! p = Some m → m <= Z.of_nat (p_ack A T p).
Proof.
  intros Hm Hx p m [(-> & -> & _)|[_ ?]]%list_lookup_insert_Some; [done|by apply Hm].
Qed.

Lemma insert_bound (l : list Z) (k : nat) (x b : Z) :
  x <= b → (∀ (p : nat) n, l !! p = Some n → n <= b) →
  ∀ (p : nat) n, <[k := x]> l !! p = Some n → n <= b.
Proof.
  intros Hx Hl p n [(-> & -> & _)|[_ ?]]%list_lookup_insert_Some; [done|by eapply Hl].
Qed.

Lemma sim_append_reply A c src inc dst args reply rf' rest :
  cinv A c → inflight c ≡ₚ PAppendRep src inc dst args reply :: rest →
  handleAppendEntriesReply (Z.of_nat dst) (ae_Term args) args reply (servers c src) = Some rf' →
  simulated A (mkCluster (set_server src rf' c) (incarnation c) (votes c) rest).
Proof.
  intros Hci Hnet H.
  assert (inv_with N (p_votes A) (mkCluster (set_server src rf' c) (incarnation c) (votes c) rest))
    as Hinv.
  { apply inv_frame; eauto using appendReply_evolves, appendReply_role;
      [apply Hci|]. by eapply (replaced_one _ _ []). }
  destruct (inv_node _ _ _ (ci_inv _ _ Hci) src) as (Hw & _).
  assert (∀ A' p, p ∈ rest → p ∈ inflight c ∨ pkt_ok A' p) as Hp.
  { intros A' p Hp. left. rewrite Hnet. by apply list_elem_of_further. }
  destruct (appendReply_effect _ _ _ _ _ _ Hw H)
    as [Hq|[Hr|[(n & -> & HT & Hle & Hs & Hn)|
                (ni & mi & x & -> & Hw1 & Hr & HT & Hs & _ & Hmi & Hni & Hx)]]];
    [apply sim_quiet; [done..|apply Hp]|eapply sim_raised; [done..|apply Hp]| |];
  pose proof (ci_pkt _ _ Hci (PAppendRep src inc dst args reply)
    ltac:(rewrite Hnet; by apply list_elem_of_here)) as (_ & Hack & Hhint);
  destruct (ci_node _ _ Hci src) as [H1 H2 H3 H4 H5];
  exists A; (split; [apply moves_refl|]);
  (apply (cinv_update A A); [done|reflexivity|apply Hci|done| |apply Hp]).
  { destruct (Hhint Hs Hle) as [_ Hx]. rewrite Nat2Z.id, <-HT in *.
    constructor; try done; simpl. intros Hr. destruct (H3 Hr) as (Hel & HL & Ha & Hm & Hnx).
    split_and!; [done..|]. apply (insert_bound); [|done].
    rewrite HL in *. rewrite (repr_last _ _ H2) in Hn. lia. }
  specialize (Hack Hs). rewrite Nat2Z.id in Hmi, Hni.
  destruct (H3 Hr) as (Hel & HL & Ha & Hm & Hnx). rewrite <-HT in Hack.
  pose proof (insert_match _ _ _ _ _ Hm Hack) as Hm'. rewrite <-Hmi in Hm'.
  pose proof (ack_length N A (currentTerm (servers c src)) dst (ci_proto _ _ Hci)) as Hlen.
  constructor; try done; simpl.
  { intros _. split_and!; [done..|]. rewrite Hni. apply insert_bound; [rewrite HL; lia|done]. }
  destruct Hx as [->|(Hx & Hxt & Hmaj)]; [done|]. right. exists (currentTerm (servers c src)), (Z.to_nat x).
  pose proof (majority_committed A c src ni mi x Hci Hr Hw1 Hm' Hx Hxt Hmaj) as Hc.
  split_and!; [done|done|done|]. rewrite HL. apply agrees_refl. by destruct Hc as (_ & _ & [_ ?] & _).
Qed.

Lemma sim_snap_reply A c src inc dst args reply rf' rest :
  cinv A c → inflight c ≡ₚ PSnapRep src inc dst args reply :: rest →
  handleInstallSnapshotReply (Z.of_nat dst) (is_Term args) args reply (servers c src) = Some rf' →
  simulated A (mkCluster (set_server src rf' c) (incarnation c) (votes c) rest).
Proof.
  intros Hci Hnet H.
  assert (inv_with N (p_votes A) (mkCluster (set_server src rf' c) (incarnation c) (votes c) rest))
    as Hinv.
  { apply inv_frame; eauto using snapshotReply_evolves, snapshotReply_role;
      [apply Hci|]. by eapply (replaced_one _ _ []). }
  assert (∀ A' p, p ∈ rest → p ∈ inflight c ∨ pkt_ok A' p) as Hp.
  { intros A' p Hp. left. rewrite Hnet. by apply list_elem_of_further. }
  destruct (snapshotReply_effect _ _ _ _ _ _ H)
    as [Hq|[Hr|(HT & Hle & _ & x & mi & -> & Hx & Hmi)]];
    [apply sim_quiet; [done..|apply Hp]|eapply sim_raised; [done..|apply Hp]|].
  pose proof (ci_pkt _ _ Hci (PSnapRep src inc dst args reply)
    ltac:(rewrite Hnet; by apply list_elem_of_here)) as Hack. simpl in Hack.
  destruct Hack as [_ Hack]. rewrite <-HT in Hack. specialize (Hack Hle).
  exists A. split; [apply moves_refl|].
  apply (cinv_update A A); [done|reflexivity|apply Hci|done| |apply Hp].
  destruct (ci_node _ _ Hci src) as [H1 H2 H3 H4 H5].
  constructor; try done; simpl. intros Hr. destruct (H3 Hr) as (Hel & HL & Ha & Hm & Hnx).
  rewrite Nat2Z.id in *.
  assert (∀ p m, mi !! p = Some m → m <= Z.of_nat (p_ack A (currentTerm (servers c src)) p)) as Hm'.
  { destruct Hmi as [->| ->]; [done|]. by apply insert_match. }
  split_and!; [done..|]. apply insert_bound; [|done]. specialize (Hm' _ _ Hx).
  pose proof (ack_length N A (currentTerm (servers c src)) dst (ci_proto _ _ Hci)) as Hlen.
  rewrite HL. lia.
Qed.

(** The entry, with its position, that a call of Start has added. *)
Definition appended (ev : Event (cmd:=cmd)) (j : nat) (e : LogEntry cmd) : Prop :=
  match ev with
  | EStart i command (index, term, isLeader) =>
      isLeader = true ∧ index = Z.of_nat j + 1 ∧ e = mkLogEntry command term
  | _ => False
  end.

Lemma Start_appended g i command rf rf' res b :
  repr g rf → role rf = Leader → Start command rf = (rf', res, b) →
  appended (EStart i command res) (length g) (mkLogEntry command (currentTerm rf)).
Proof.
  intros Hg Hr H.
  pose proof (repr_last _ _ Hg) as Hl. unfold Start in H.
  rewrite bool_decide_eq_false_2 in H by (intros Hn; by apply Hn). injection H as <- <- <-.
  unfold appended, lastLogIndex in *. rsimpl. rewrite length_app. simpl. split_and!; [done|lia|done].
Qed.

Lemma sim_start A c i command rf' res (b : bool) :
  cinv A c → Start command (servers c i) = (rf', res, b) →
  (∀ j e, appended (EStart i command res) j e → new j e) →
  simulated A (mkCluster (set_server i rf' c) (incarnation c) (votes c)
    ((if b then [PBroadcast i (incarnation c i)] else []) ++ inflight c)).
Proof.
  intros Hci H Hnew. pose proof (ci_proto _ _ Hci) as Hpi.
  assert (inv_with N (p_votes A) (mkCluster (set_server i rf' c) (incarnation c) (votes c)
    ((if b then [PBroadcast i (incarnation c i)] else []) ++ inflight c))) as Hinv.
  { apply inv_frame; eauto using Start_evolves, Start_role; [apply Hci|].
    apply replaced_add. by destruct b. }
  assert (∀ A' p, p ∈ (if b then [PBroadcast i (incarnation c i)] else []) ++ inflight c →
    p ∈ inflight c ∨ pkt_ok A' p) as Hp.
  { intros A' p [Hp|Hp]%elem_of_app; [right|by left].
    destruct b; [|by apply elem_of_nil in Hp]. by apply list_elem_of_singleton in Hp as ->. }
  destruct (Start_effect _ _ _ _ _ H) as [Hq|(Hr & Hr' & HT & Hm & Hnx & Hc & Hrepr)];
    [apply sim_quiet; [done..|apply Hp]|].
  destruct (ci_node _ _ Hci i) as [H1 H2 H3 H4 H5].
  destruct (H3 Hr) as (Hel & HL & Hack & Hma & Hna). set (e := mkLogEntry _ _) in Hrepr.
  assert (pstep N A (propose i e A)) as Hs by (apply p_propose; rewrite ?H1; done).
  pose proof (local_propose A i e Hpi ltac:(by rewrite H1) Hs) as Hlo.
  exists (propose i e A). split; [apply moves_propose; rewrite ?H1; try done; by eapply Hnew, Start_appended|].
  apply (cinv_update A); [done|done|by eapply pinv_step|done| |apply Hp].
  constructor; simpl.
  - by rewrite HT.
  - rewrite fn_lookup_insert. by apply Hrepr.
  - intros _. rewrite HT, <-H1, !fn_lookup_insert, set_ack_eq. split_and!; [by rewrite H1|done|done| |].
    + rewrite Hm. intros p m Hpm. specialize (Hma p m Hpm). rewrite <-H1 in Hma.
      pose proof (ext_ack _ _ (lo_ext _ _ _ Hlo) (p_term A i) p) as Ha. simpl in Ha. lia.
    + rewrite Hnx, length_app. intros p n Hpn. specialize (Hna p n Hpn). simpl. lia.
  - by rewrite Hr'.
  - rewrite fn_lookup_insert, HT, Hc.
    eapply covered_ext; [by apply lo_ext in Hlo|reflexivity|].
    eapply covered_log; [|exact H5]. symmetry. apply agrees_app, agrees_refl.
    apply covered_len in H5. lia.
Qed.

(** ** Snapshots, restarts, and the whole step *)

Lemma sim_snapshot A c i index snap rf' :
  cinv A c → applied_only (servers c i) index → Snapshot index snap (servers c i) = Some rf' →
  simulated A (mkCluster (set_server i rf' c) (incarnation c) (votes c) (inflight c)).
Proof.
  intros Hci Ha H. destruct (inv_node _ _ _ (ci_inv _ _ Hci) i) as (Hw & _).
  destruct (Snapshot_effect _ _ _ _ Hw Ha H) as (HT & Hr & Hm & Hn & Hc & Hrepr).
  exists A. split; [apply moves_refl|].
  apply (cinv_update A A); [done|reflexivity|apply Hci| | |by left].
  - apply inv_frame; eauto using Snapshot_evolves, Snapshot_role, replaced_refl. apply Hci.
  - destruct (ci_node _ _ Hci i) as [H1 H2 H3 H4 H5].
    constructor; rewrite ?HT, ?Hr, ?Hm, ?Hn, ?Hc; auto.
Qed.

Lemma sim_restart A c i now :
  cinv A c →
  simulated A (mkCluster
    (set_server i (Make N (Z.of_nat i) (persister (servers c i)) now) c)
    (λ j, if decide (i = j) then S (incarnation c i) else incarnation c j)
    (votes c) (inflight c)).
Proof.
  intros Hci. destruct (inv_node _ _ _ (ci_inv _ _ Hci) i) as (Hw & Hp & _).
  destruct (Make_effect N (Z.of_nat i) now (servers c i) Hp) as (HT & Hl & Hi & Hr & Hc).
  exists A. split; [apply moves_refl|].
  apply (cinv_update A A); [done|reflexivity|apply Hci| | |by left].
  - apply inv_restart, Hci.
  - destruct (ci_node _ _ Hci i) as [H1 H2 H3 H4 H5].
    constructor; rewrite ?HT, ?Hr, ?Hc; try done.
    + by eapply repr_frame.
    + eapply covered_le; [|exact H5]. pose proof (wf_commit _ Hw). pose proof (wf_applied _ Hw). lia.
Qed.

Lemma sim_net A c net' :
  cinv A c → replaced (inflight c) net' → (∀ p, p ∈ net' → p ∈ inflight c ∨ pkt_ok A p) →
  simulated A (mkCluster (servers c) (incarnation c) (votes c) net').
Proof. intros. exists A. split; [apply moves_refl|]. by apply cinv_net. Qed.

Lemma sim_calls A c p ps rest :
  cinv A c → inflight c ≡ₚ p :: rest → omap vote_key ps = [] → (∀ q, q ∈ ps → pkt_ok A q) →
  simulated A (mkCluster (servers c) (incarnation c) (votes c) (ps ++ rest)).
Proof.
  intros Hci Hnet Hnew Hok. apply sim_net; [done|by eapply replaced_one|].
  intros q [Hq|Hq]%elem_of_app; [right; by apply Hok|left].
  rewrite Hnet. by apply list_elem_of_further.
Qed.

Lemma sim_drop A c p rest :
  cinv A c → inflight c ≡ₚ p :: rest →
  simulated A (mkCluster (servers c) (incarnation c) (votes c) rest).
Proof.
  intros Hci Hnet. apply (sim_calls A c p []); [done..|]. by intros q ?%elem_of_nil.
Qed.

Lemma spawn_ok A rf src inc T q :
  npeers rf = N → q ∈ spawn (cmd:=cmd) src inc ((λ p, (p, T)) <$> otherPeers rf) → pkt_ok A q.
Proof.
  unfold spawn. intros Hn (x & -> & (p & -> & Hp)%list_elem_of_fmap)%list_elem_of_fmap.
  apply otherPeers_elem in Hp as [_ Hp]. simpl. lia.
Qed.

Lemma broadcast_ok A rf src inc q :
  npeers rf = N → q ∈ spawn (cmd:=cmd) src inc (broadcastAppendEntries rf) → pkt_ok A q.
Proof.
  unfold broadcastAppendEntries. destruct (bool_decide _); [by intros _ ?%elem_of_nil|].
  apply spawn_ok.
Qed.

Lemma heartbeats_ok A rf src inc calls q :
  npeers rf = N → sendHeartbeats rf = Some calls →
  q ∈ spawn (cmd:=cmd) src inc calls → pkt_ok A q.
Proof.
  unfold sendHeartbeats. destruct (killed rf); [done|]. destruct (bool_decide _); [done|].
  intros ? [= <-]. by apply spawn_ok.
Qed.

Lemma step_simulated A c ev c' :
  cinv A c → lstep N applied_only c ev c' → (∀ j e, appended ev j e → new j e) → simulated A c'.
Proof.
  intros Hci Hstep Hnew. pose proof (ci_inv _ _ Hci) as Hinv. destruct Hstep.
  - apply sim_quiet; [done|by eapply ticker_quiet| |by left].
    apply inv_frame; eauto using ticker_evolves, replaced_refl.
    unfold tickerStep in *. by raft_case.
  - by eapply sim_elect.
  - by eapply sim_vote_deliver.
  - by eapply sim_vote_reply.
  - destruct (inv_node _ _ _ Hinv src) as (_ & _ & Hn & _).
    destruct (sendHeartbeats _) eqn:Hh.
    + rewrite cons_middle, app_assoc. eapply sim_calls; [done..| |].
      * by rewrite omap_app, spawn_no_votes.
      * intros q [Hq|Hq]%elem_of_app; [by eapply heartbeats_ok|].
        by apply list_elem_of_singleton in Hq as ->.
    + by eapply sim_drop.
  - destruct (inv_node _ _ _ Hinv src) as (_ & _ & Hn & _).
    eapply sim_calls; [done..|apply spawn_no_votes|]. intros q. by eapply broadcast_ok.
  - by eapply sim_send.
  - by eapply sim_append_deliver.
  - by eapply sim_append_reply.
  - by eapply sim_snap_deliver.
  - by eapply sim_snap_reply.
  - by eapply sim_start.
  - by eapply sim_snapshot.
  - apply sim_quiet; [done|by eapply applier_quiet| |by left].
    apply inv_frame; eauto using applier_evolves, applier_role, replaced_refl.
  - by eapply sim_drop.
  - by apply sim_restart.
Qed.

End Simulation.

(** ** Reachable clusters *)

Definition proto0 : Proto cmd :=
  mkProto (λ _, 0) ∅ (λ _, []) (λ _, None) (λ _, []) (λ _, []) (λ _ _, []) (λ _ _, 0%nat).

Lemma cinv_init c : init N c → cinv proto0 c.
Proof.
  intros Hc. pose proof Hc as (Hs & Hv & Hf). constructor.
  - by apply inv_init_empty.
  - apply pinv_init. done.
  - intros i. destruct (Hs i) as [now ->]. constructor; try done; [apply repr_Make|by left].
  - intros p. rewrite Hf. by intros ?%elem_of_nil.
Qed.

Lemma moves_ext new A A' : pinv N A → moves new A A' → ext A A'.
Proof. intros Hi [[->|Hs] _]; [reflexivity|by eapply pstep_ext]. Qed.

Lemma service_simulated A c c' :
  cinv A c → service_step N c c' → ∃ A', (A' = A ∨ pstep N A A') ∧ ext A A' ∧ cinv A' c'.
Proof.
  intros Hci [ev Hs].
  destruct (step_simulated (appended ev) A c ev c' Hci Hs) as (A' & Hm & Hci'); [done|].
  exists A'. split_and!; [by destruct Hm|by eapply moves_ext, Hm; apply Hci|done].
Qed.

Lemma reachable_cinv c :
  service_reachable N c → ∃ A, proto_reachable N A ∧ cinv A c.
Proof.
  induction 1 as [c Hc|c c' _ (A & HA & Hci) Hs].
  - exists proto0. split; [by constructor|by apply cinv_init].
  - destruct (service_simulated A c c' Hci Hs) as (A' & Hm & _ & Hci'). exists A'.
    split; [|done]. destruct Hm as [->|Hm]; [done|by eapply reach_step].
Qed.

Lemma run_cinv A c c' :
  cinv A c → rtc (service_step N) c c' → ∃ A', ext A A' ∧ cinv A' c'.
Proof.
  intros Hci Hr. revert A Hci. induction Hr as [c|c c1 c' Hs _ IH]; intros A Hci.
  { exists A. by split. }
  destruct (service_simulated A c c1 Hci Hs) as (A1 & _ & He1 & Hci1).
  destruct (IH A1 Hci1) as (A' & He & Hci'). exists A'. split; [by etrans|done].
Qed.

(** ** Reading the logs of a reachable cluster *)

(** The entry a server holds, in terms of its full log. *)
Lemma cinv_logAt A c i k e :
  cinv A c → logAt (servers c i) k = Some e → lastIncludedIndex (servers c i) < k →
  p_log A i !! (Z.to_nat k - 1)%nat = Some e ∧ 0 < k <= len (p_log A i).
Proof.
  intros Hci He Hk. destruct (ci_node _ _ Hci i) as [_ H2 _ _ _].
  pose proof H2 as ([? _] & _). apply logAt_range in He as Hr. rewrite (repr_last _ _ H2) in Hr.
  split; [|lia]. by rewrite <-(repr_logAt _ _ _ H2).
Qed.

Lemma agrees_logAt A A' c c' i j k m :
  cinv A c → cinv A' c' → agrees k (p_log A i) (p_log A' j) → (Z.to_nat m <= k)%nat →
  lastIncludedIndex (servers c i) < m → lastIncludedIndex (servers c' j) < m →
  logAt (servers c i) m = logAt (servers c' j) m.
Proof.
  intros Hci Hci' Ha Hm Hi Hj. destruct (ci_node _ _ Hci i) as [_ H2 _ _ _].
  destruct (ci_node _ _ Hci' j) as [_ H2' _ _ _].
  rewrite (repr_logAt _ _ _ H2), (repr_logAt _ _ _ H2') by done.
  pose proof H2 as ([? _] & _). eapply agrees_lookup; [exact Ha|lia].
Qed.

Lemma commits_agree A c c' i j m :
  cinv A c → rtc (service_step N) c c' →
  m <= commitIndex (servers c i) → m <= commitIndex (servers c' j) →
  lastIncludedIndex (servers c i) < m → lastIncludedIndex (servers c' j) < m →
  logAt (servers c i) m = logAt (servers c' j) m.
Proof.
  intros Hci Hr Hm Hm' Hi Hj. destruct (run_cinv A c c' Hci Hr) as (A' & He & Hci').
  pose proof (no_commit _ _ _ (ci_node _ _ Hci i)) as Hc.
  apply (covered_ext _ _ _ _ _ _ He (Z.le_refl _)) in Hc.
  pose proof (no_commit _ _ _ (ci_node _ _ Hci' j)) as Hc'.
  eapply agrees_logAt; [done|done| |reflexivity|done|done].
  eapply covered_agree; [apply Hci'|exact Hc|exact Hc'|done|done].
Qed.

(** ** The committed log *)

(** [L] is a committed prefix that contains what every server has committed, and
    the entries that leaders have had are, with their positions, among [B]. *)
Definition prefix_committed A (L : list (LogEntry cmd)) : Prop :=
  L = [] ∨ ∃ T k, committed N A T k ∧ L = take k (p_ll A T).

Definition chosen (B : nat → LogEntry cmd → Prop) c (L : list (LogEntry cmd)) : Prop :=
  ∃ A, cinv A c ∧ prefix_committed A L ∧ (∀ j e, had A j e → B j e) ∧
    ∀ i, (i < N)%nat → agrees (Z.to_nat (commitIndex (servers c i))) (p_log A i) L.

Lemma prefix_committed_longer A L T k :
  pinv N A → prefix_committed A L → committed N A T k →
  ∃ L', prefix_committed A L' ∧ L `prefix_of` L' ∧ agrees k (p_ll A T) L'.
Proof.
  intros Hi HL Hc. pose proof Hc as (_ & _ & [_ Hk] & _).
  destruct HL as [->|(T0 & k0 & Hc0 & ->)].
  - exists (take k (p_ll A T)). split_and!; [right; eauto|apply prefix_nil|].
    symmetry. by apply agrees_take.
  - pose proof Hc0 as (_ & _ & [_ Hk0] & _). destruct (decide (k0 <= k)%nat) as [Hle|Hgt].
    + exists (take k (p_ll A T)). split_and!; [right; eauto| |symmetry; by apply agrees_take].
      destruct (committed_agree N A T0 k0 T k k0 Hi Hc0 Hc) as (-> & _); [done|done|].
      rewrite <-(Nat.min_l k0 k), <-take_take by done. apply prefix_take.
    + exists (take k0 (p_ll A T0)). split_and!; [right; eauto|done|].
      etrans; [apply (committed_agree N A T k T0 k0 k Hi Hc Hc0); lia|].
      symmetry. apply agrees_take; lia.
Qed.

Lemma agrees_extend k g h h' : agrees k g h → h `prefix_of` h' → agrees k g h'.
Proof. intros Ha [x ->]. etrans; [exact Ha|]. symmetry. by apply agrees_app, agrees_refl, (agrees_length_r _ _ _ Ha). Qed.

Lemma chosen_extend B A c L :
  cinv A c → prefix_committed A L → (∀ j e, had A j e → B j e) →
  ∃ L', L `prefix_of` L' ∧ chosen B c L'.
Proof.
  intros Hci HL HB. pose proof (ci_proto _ _ Hci) as Hpi.
  assert (∀ n, ∃ L', L `prefix_of` L' ∧ prefix_committed A L' ∧ ∀ i, (i < n)%nat →
    agrees (Z.to_nat (commitIndex (servers c i))) (p_log A i) L') as Hn.
  { induction n as [|n (L1 & Hp1 & HL1 & IH)]; [exists L; split_and!; [done|done|lia]|].
    destruct (no_commit _ _ _ (ci_node _ _ Hci n)) as [Hz|(T & k & Hc & _ & Hk & Ha)].
    - exists L1. split_and!; [done|done|]. intros i Hi. destruct (decide (i = n)) as [->|].
      + rewrite (Z2Nat.nonpos _ Hz). apply agrees_0.
      + apply IH. lia.
    - destruct (prefix_committed_longer A L1 T k Hpi HL1 Hc) as (L2 & HL2 & Hp2 & Ha2).
      exists L2. split_and!; [by etrans|done|]. intros i Hi. destruct (decide (i = n)) as [->|].
      + etrans; [exact Ha|]. by eapply agrees_le.
      + eapply agrees_extend; [apply IH; lia|done]. }
  destruct (Hn N) as (L' & Hp & HL' & Hall). exists L'. split; [done|]. by exists A.
Qed.

Lemma prefix_committed_ext A A' L : ext A A' → prefix_committed A L → prefix_committed A' L.
Proof.
  intros He [->|(T & k & Hc & ->)]; [by left|right]. exists T, k.
  split; [by eapply committed_ext|]. destruct Hc as (Hs & _ & [_ Hk] & _).
  by destruct (ext_ll _ _ _ _ He Hs Hk) as [-> _].
Qed.

Lemma chosen_init B c : init N c → chosen B c [].
Proof.
  intros Hc. exists proto0. split_and!; [by apply cinv_init|by left|by intros j e (T & [? ?] & _)|].
  intros i _. destruct Hc as (Hs & _). destruct (Hs i) as [now ->]. apply agrees_0.
Qed.

Lemma chosen_step (B B' : nat → LogEntry cmd → Prop) c ev c' L :
  chosen B c L → lstep N applied_only c ev c' →
  (∀ j e, B j e → B' j e) → (∀ j e, appended ev j e → B' j e) →
  ∃ L', L `prefix_of` L' ∧ chosen B' c' L'.
Proof.
  intros (A & Hci & HL & HB & _) Hs HBB Hev.
  destruct (step_simulated B' A c ev c' Hci Hs Hev) as (A' & Hm & Hci').
  apply (chosen_extend B' A'); [done| |].
  - eapply prefix_committed_ext; [|exact HL]. by eapply moves_ext, Hm; apply Hci.
  - intros j e Hj. destruct Hm as [_ Hm]. destruct (Hm j e Hj) as [?|?]; [by apply HBB, HB|done].
Qed.

Lemma chosen_mono (B B' : nat → LogEntry cmd → Prop) c L :
  (∀ j e, B j e → B' j e) → chosen B c L → chosen B' c L.
Proof. intros HB (A & ? & ? & HA & ?). exists A. split_and!; [done..|by auto|done]. Qed.

Lemma chosen_entry B c L i :
  chosen B c L → (i < N)%nat →
  commitIndex (servers c i) <= len L ∧
  ∀ k, lastIncludedIndex (servers c i) < k <= commitIndex (servers c i) →
    logAt (servers c i) k = L !! (Z.to_nat k - 1)%nat.
Proof.
  intros (A & Hci & _ & _ & Hall) Hi. specialize (Hall i Hi).
  destruct (ci_node _ _ Hci i) as [_ H2 _ _ _].
  split; [apply agrees_length_r in Hall; lia|].
  intros k Hk. rewrite (repr_logAt _ _ _ H2) by lia. pose proof H2 as ([? _] & _).
  eapply agrees_lookup; [exact Hall|lia].
Qed.

(** What is decided was proposed. *)
Lemma chosen_origin B c L j e : chosen B c L → L !! j = Some e → B j e.
Proof.
  intros (A & _ & HL & HB & _) Hj. apply HB.
  destruct HL as [->|(T & k & (HT & _) & ->)]; [done|]. exists T. split; [done|].
  by apply lookup_take_Some in Hj as [? _].
Qed.

(** ** Absence of panics *)

(** The method call that a packet stands for does not panic. *)
Definition handled c (p : Packet (cmd:=cmd)) : Prop :=
  match p with
  | PBroadcast _ _ | PHeartbeats _ _ => True
  | PSend src _ peer term => is_Some (sendAppendEntriesToPeer peer term (servers c src))
  | PVoteReq _ _ dst args => ∀ now, is_Some (RequestVote now args (servers c dst))
  | PVoteRep src _ _ args reply =>
      ∀ now v, is_Some (handleRequestVoteReply now (rv_Term args) reply v (servers c src))
  | PAppendReq _ _ dst args => ∀ now, is_Some (AppendEntries now args (servers c dst))
  | PAppendRep src _ dst args reply =>
      is_Some (handleAppendEntriesReply (Z.of_nat dst) (ae_Term args) args reply (servers c src))
  | PSnapReq _ _ dst args => ∀ now, is_Some (InstallSnapshot now args (servers c dst))
  | PSnapRep src _ dst args reply =>
      is_Some (handleInstallSnapshotReply (Z.of_nat dst) (is_Term args) args reply (servers c src))
  end.

Lemma send_ok A c src inc peer term :
  cinv A c → PSend src inc peer term ∈ inflight c →
  is_Some (sendAppendEntriesToPeer peer term (servers c src)).
Proof.
  intros Hci Hp. pose proof (ci_pkt _ _ Hci _ Hp) as Hpeer. simpl in Hpeer.
  destruct (inv_node _ _ _ (ci_inv _ _ Hci) src) as (Hw & _ & Hn & _).
  destruct (decide (role (servers c src) = Leader)) as [Hl|Hl].
  - destruct (ci_node _ _ Hci src) as [_ H2 H3 _ _]. destruct (H3 Hl) as (_ & _ & _ & _ & Hnx).
    destruct (lookup_lt_is_Some_2 (nextIndex (servers c src)) (Z.to_nat peer)) as [n Hlk].
    { rewrite (wf_next _ Hw), Hn. lia. }
    apply (sendAppend_ok _ _ _ n); [apply go_nth_lookup; split; [lia|done]|].
    rewrite (repr_last _ _ H2). by eapply Hnx.
  - unfold sendAppendEntriesToPeer. by rewrite bool_decide_eq_true_2 by done.
Qed.

Lemma packet_handled A c p : cinv A c → p ∈ inflight c → handled c p.
Proof.
  intros Hci Hp. pose proof (ci_pkt _ _ Hci _ Hp) as Hok.
  pose proof (inv_node _ _ _ (ci_inv _ _ Hci)) as Hnode.
  destruct p; simpl in *; try done; intros;
    try (destruct (Hnode src) as (Hw & _ & Hn & _)); try (destruct (Hnode dst) as (Hwd & _)).
  - by eapply send_ok.
  - by apply RequestVote_ok.
  - by apply voteReply_ok.
  - by apply AppendEntries_ok.
  - apply appendReply_ok; [done|]. rewrite Hn. lia.
  - by apply InstallSnapshot_ok.
  - apply snapshotReply_ok; [done|]. rewrite Hn. lia.
Qed.

(** ** The properties *)

(** C6. State Machine Safety: if a server hands its service a command at some
    index, then no server ever hands its service a different message at that
    index, at that moment or at any later one, whatever is lost, reordered or
    restarted in between. *)
Theorem state_machine_safety c c' i j rf rf' msgs msgs' m m' :
  service_reachable N c → rtc (service_step N) c c' →
  applierStep (servers c i) = Some (rf, msgs) → m ∈ msgs →
  applierStep (servers c' j) = Some (rf', msgs') → m' ∈ msgs' →
  CommandIndex m = CommandIndex m' → m = m'.
Proof.
  intros Hr Hrtc Ha Hm Ha' Hm' Hidx. destruct (reachable_cinv c Hr) as (A & _ & Hci).
  destruct (run_cinv A c c' Hci Hrtc) as (A' & _ & Hci').
  destruct (applier_messages _ _ _ _ Ha Hm) as (e & k & -> & He & Hk).
  destruct (applier_messages _ _ _ _ Ha' Hm') as (e' & k' & -> & He' & Hk').
  simpl in Hidx. subst k'.
  destruct (inv_node _ _ _ (ci_inv _ _ Hci) i) as (Hw & _). pose proof (wf_applied _ Hw).
  destruct (inv_node _ _ _ (ci_inv _ _ Hci') j) as (Hw' & _). pose proof (wf_applied _ Hw').
  assert (logAt (servers c i) k = logAt (servers c' j) k) as Heq
    by (eapply commits_agree; eauto; lia). congruence.
Qed.

(** C7. Leader Completeness: an entry that some server knows to be committed is
    in the log of every leader of that server's term or a later one, now and for
    ever; it is still there as an entry unless the leader has compacted it. *)
Theorem leader_completeness c c' i j k e :
  service_reachable N c → rtc (service_step N) c c' →
  logAt (servers c i) k = Some e → lastIncludedIndex (servers c i) < k <= commitIndex (servers c i) →
  role (servers c' j) = Leader → currentTerm (servers c i) <= currentTerm (servers c' j) →
  k <= lastLogIndex (servers c' j) ∧
  (lastIncludedIndex (servers c' j) < k → logAt (servers c' j) k = Some e).
Proof.
  intros Hr Hrtc He Hk Hl HT. destruct (reachable_cinv c Hr) as (A & _ & Hci).
  destruct (run_cinv A c c' Hci Hrtc) as (A' & Hext & Hci').
  destruct (leader_args A' c' j Hci' Hl) as (Hs & Hrepr & _).
  pose proof (no_commit _ _ _ (ci_node _ _ Hci i)) as Hc.
  apply (covered_ext _ _ _ _ _ _ Hext (Z.le_refl _)) in Hc.
  pose proof (covered_leader _ _ _ _ _ (ci_proto _ _ Hci') Hc HT Hs) as Ha.
  destruct (cinv_logAt _ _ _ _ _ Hci He) as [Hat ?]; [lia|].
  rewrite (repr_last _ _ Hrepr). split; [apply agrees_length_r in Ha; lia|].
  intros Hj. rewrite (repr_logAt _ _ _ Hrepr), <-Hat by done. symmetry.
  eapply agrees_lookup; [exact Ha|lia].
Qed.

(** C10. Log Matching: if the logs of two servers hold entries of the same term
    at the same index, then these entries and all the entries before them that
    neither server has compacted are the same. *)
Theorem log_matching_cluster c i j k e e' :
  service_reachable N c →
  logAt (servers c i) k = Some e → logAt (servers c j) k = Some e' → Term e = Term e' →
  lastIncludedIndex (servers c i) < k → lastIncludedIndex (servers c j) < k →
  e = e' ∧
  ∀ m, lastIncludedIndex (servers c i) < m <= k → lastIncludedIndex (servers c j) < m →
    logAt (servers c i) m = logAt (servers c j) m.
Proof.
  intros Hr He He' Ht Hi Hj. destruct (reachable_cinv c Hr) as (A & _ & Hci).
  pose proof (ci_proto _ _ Hci) as Hpi.
  destruct (cinv_logAt _ _ _ _ _ Hci He) as [Hat ?]; [done|].
  destruct (cinv_logAt _ _ _ _ _ Hci He') as [Hat' ?]; [done|].
  assert (agrees (Z.to_nat k) (p_log A i) (p_log A j)) as Ha.
  { eapply log_matching; [apply (pi_log _ _ Hpi)|apply (pi_log _ _ Hpi)|lia|lia|].
    replace (Z.to_nat k) with (S (Z.to_nat k - 1)) by lia.
    by rewrite (tm_lookup _ _ _ Hat), (tm_lookup _ _ _ Hat'). }
  assert (∀ m, lastIncludedIndex (servers c i) < m <= k → lastIncludedIndex (servers c j) < m →
    logAt (servers c i) m = logAt (servers c j) m) as Hall.
  { intros m Hm Hmj. eapply agrees_logAt; [done|done|exact Ha|lia|lia|done]. }
  split; [|done]. specialize (Hall k ltac:(lia) Hj). congruence.
Qed.

(** C11. The cluster refines an append-only log.  With [chosen B c L] relating a
    state to the log of the commands decided so far, [B] bounding what has been
    proposed: it holds of the empty log initially; a step of the cluster,
    whichever it is, only ever extends the log, and adds to [B] only the entry
    that a leader has just appended in Start, at the index that Start returns;
    every decided entry has been proposed for its index; and every entry that a
    server may apply is the one of the log at its index. *)
Theorem cluster_refines_log :
  (∀ B c, init N c → chosen B c []) ∧
  (∀ (B B' : nat → LogEntry cmd → Prop) c ev c' L,
     chosen B c L → lstep N applied_only c ev c' →
     (∀ j e, B j e → B' j e) → (∀ j e, appended ev j e → B' j e) →
     ∃ L', L `prefix_of` L' ∧ chosen B' c' L') ∧
  (∀ B c L j e, chosen B c L → L !! j = Some e → B j e) ∧
  (∀ B c L i, chosen B c L → (i < N)%nat →
     commitIndex (servers c i) <= len L ∧
     ∀ k, lastIncludedIndex (servers c i) < k <= commitIndex (servers c i) →
       logAt (servers c i) k = L !! (Z.to_nat k - 1)%nat).
Proof.
  split_and!; [apply chosen_init|apply chosen_step|apply chosen_origin|apply chosen_entry].
Qed.

(** C12. The cluster refines the protocol of RaftProtocol.v: initially the two
    are related, and a step of the cluster - a handler, a goroutine, a loss, a
    crash - is no transition of the protocol or one of its transitions. *)
Theorem cluster_refines_protocol :
  (∀ c, init N c → pinit (cmd:=cmd) proto0 ∧ cinv proto0 c) ∧
  (∀ A c c', cinv A c → service_step N c c' →
     ∃ A', (A' = A ∨ pstep N A A') ∧ cinv A' c').
Proof.
  split.
  - intros c Hc. split; [done|by apply cinv_init].
  - intros A c c' Hci Hs. destruct (service_simulated A c c' Hci Hs) as (A' & Hm & _ & ?). eauto.
Qed.

(** C16. Nothing panics in a cluster: in every reachable state, whichever packet
    or goroutine runs next, on whichever server, no slice index is out of range;
    neither do the timer, the applier, or Snapshot at an applied index; and the
    committed prefix lies inside every log. *)
Theorem cluster_no_panic c :
  service_reachable N c →
  (∀ p, p ∈ inflight c → handled c p) ∧
  (∀ i, (∀ now rnd, is_Some (tickerStep now rnd (servers c i))) ∧
        (∀ index snap, applied_only (servers c i) index →
           is_Some (Snapshot index snap (servers c i))) ∧
        is_Some (applierStep (servers c i)) ∧
        lastApplied (servers c i) <= commitIndex (servers c i) <= lastLogIndex (servers c i)).
Proof.
  intros Hr. destruct (reachable_cinv c Hr) as (A & _ & Hci).
  split; [intros p; by eapply packet_handled|]. intros i.
  destruct (inv_node _ _ _ (ci_inv _ _ Hci) i) as (Hw & _). pose proof (wf_commit _ Hw).
  destruct (ci_node _ _ Hci i) as [_ H2 _ _ H5]. apply covered_len in H5.
  assert (commitIndex (servers c i) <= lastLogIndex (servers c i)) as Hc
    by by rewrite (repr_last _ _ H2).
  split_and!; [by intros; apply tickerStep_ok| |by apply applierStep_ok|done|done].
  intros index snap Ha. unfold applied_only in Ha. apply Snapshot_ok. lia.
Qed.

End Safety.
