(* ===== verification/RaftElect.v ===== *)
(** * Elections succeed

    A majority of the servers of src/6.5840/src/raft1/raft.go that can talk to
    each other can always elect a leader, whatever happened before: from every
    state of the cluster of RaftNet.v there is a run that moves no other server
    and ends with a leader among them.  The run is built in rounds; a round is a
    lemma that says which calls are in flight afterwards. *)

From S2P Require Import Prelude Gob Persister Raft RaftNode RaftSpec RaftReplication RaftProtocol.
From S2P Require Import RaftNet RaftLog RaftSafety.

(** A nonempty list has a greatest element for a total preorder. *)
Lemma list_greatest {A} (R : relation A) `{!PreOrder R} (x : A) (l : list A) :
  (∀ a b, R a b ∨ R b a) → ∃ m, m ∈ x :: l ∧ ∀ a, a ∈ x :: l → R a m.
Proof.
  intros Htot. induction l as [|y l (m & Hm & Hmax)].
  { exists x. split; [set_solver|]. by intros a ->%list_elem_of_singleton. }
  destruct (Htot y m) as [Hym|Hmy].
  - exists m. split; [set_solver|]. intros a Ha.
    assert (a = y ∨ a ∈ x :: l) as [->|Ha'] by set_solver; auto.
  - exists y. split; [set_solver|]. intros a Ha.
    assert (a = y ∨ a ∈ x :: l) as [->|Ha'] by set_solver; [done|]. etrans; eauto.
Qed.

Section Live.
Context {cmd : Type} `{!Gob (RaftVal cmd)} `{!GobRegistered (RaftVal cmd)}.
Context (N : nat).
Implicit Types c : Cluster (cmd:=cmd).
Implicit Types rf : Raft cmd.
Implicit Types Q : gset nat.

(** ** What every step keeps *)

(** Only [Kill] sets [dead]; the cluster of the tests is crashed by restarts. *)
Lemma appendLoop_dead es : ∀ index b rf rf' b',
  appendLoop index es b rf = Some (rf', b') →
  dead rf' = dead rf ∧ lastApplied rf' = lastApplied rf.
Proof.
  induction es as [|e es IH]; simpl; intros index b rf rf' b' H; raft_case; try done;
    match goal with H : appendLoop _ _ _ _ = _ |- _ => by apply IH in H end.
Qed.

Lemma recognize_dead now T rf :
  dead (set_lastHeartbeat now (recognizeLeader T rf)) = dead rf ∧
  lastApplied (set_lastHeartbeat now (recognizeLeader T rf)) = lastApplied rf.
Proof. unfold recognizeLeader, stepDown. repeat split_if; by rsimpl. Qed.

Lemma AppendEntries_dead now args rf rf' r :
  AppendEntries now args rf = Some (rf', r) →
  dead rf' = dead rf ∧ lastApplied rf' = lastApplied rf.
Proof.
  unfold AppendEntries. cbv zeta. destruct (recognize_dead now (ae_Term args) rf) as [Hd Ha].
  generalize dependent (set_lastHeartbeat now (recognizeLeader (ae_Term args) rf)).
  intros rf1 Hd Ha H. raft_case; try done.
  match goal with H : appendLoop _ _ _ _ = _ |- _ => apply appendLoop_dead in H as [Hd' Ha'] end.
  unfold followCommit. repeat split_if; rsimpl; split; congruence.
Qed.

Lemma updateCommitLoop_dead fuel : ∀ n rf rf',
  updateCommitLoop fuel n rf = Some rf' → dead rf' = dead rf ∧ lastApplied rf' = lastApplied rf.
Proof.
  induction fuel as [|fuel IH]; simpl; intros n rf rf' H; raft_case; rsimpl; try done; eauto.
Qed.

Lemma appendReply_dead peer term args reply rf rf' :
  handleAppendEntriesReply peer term args reply rf = Some rf' →
  dead rf' = dead rf ∧ lastApplied rf' = lastApplied rf.
Proof.
  unfold handleAppendEntriesReply, stepDown. intros H. raft_case; rsimpl; try done.
  match goal with H : updateCommitIndex _ = _ |- _ => by apply updateCommitLoop_dead in H end.
Qed.

Lemma snapshotReply_dead peer term args reply rf rf' :
  handleInstallSnapshotReply peer term args reply rf = Some rf' →
  dead rf' = dead rf ∧ lastApplied rf' = lastApplied rf.
Proof. unfold handleInstallSnapshotReply, stepDown. intros H. raft_case; by rsimpl. Qed.

Lemma InstallSnapshot_dead now args rf rf' r m :
  InstallSnapshot now args rf = Some (rf', r, m) →
  dead rf' = dead rf ∧
  lastApplied rf' <= Z.max (lastApplied rf) (is_LastIncludedIndex args).
Proof.
  unfold InstallSnapshot. cbv zeta. destruct (recognize_dead now (is_Term args) rf) as [Hd Ha].
  generalize dependent (set_lastHeartbeat now (recognizeLeader (is_Term args) rf)).
  intros rf1 Hd Ha H. raft_case; try (split; [done|lia]);
    unfold saveWithSnapshot; rewrite raiseTo_max; rsimpl; (split; [done|lia]).
Qed.

Lemma RequestVote_dead now args rf rf' r :
  RequestVote now args rf = Some (rf', r) → dead rf' = dead rf.
Proof.
  unfold RequestVote, stepDown. intros H.
  destruct (currentTerm rf <? rv_Term args); raft_case; by rsimpl.
Qed.

Lemma voteReply_dead now term reply v rf rf' v' hb :
  handleRequestVoteReply now term reply v rf = Some (rf', v', hb) →
  dead rf' = dead rf ∧ (role rf' = Leader → role rf = Leader ∨ hb = true).
Proof.
  unfold handleRequestVoteReply, stepDown. intros H.
  raft_case; rsimpl; (split; [done|]); by auto.
Qed.

Lemma ticker_dead now rnd rf rf' calls :
  tickerStep now rnd rf = Some (rf', calls) → dead rf' = dead rf.
Proof. unfold tickerStep, startElection. intros H. raft_case; by rsimpl. Qed.

Lemma Snapshot_dead index snap rf rf' : Snapshot index snap rf = Some rf' → dead rf' = dead rf.
Proof.
  unfold Snapshot, saveWithSnapshot. intros H. raft_case; rewrite ?raiseTo_max; by rsimpl.
Qed.

Lemma applierBatch_dead fuel : ∀ rf msgs rf' msgs',
  applierBatch fuel rf msgs = Some (rf', msgs') → dead rf' = dead rf.
Proof.
  induction fuel as [|fuel IH]; simpl; intros rf msgs rf' msgs' H; raft_case; try done.
  match goal with H : applierBatch _ _ _ = _ |- _ => by apply IH in H end.
Qed.

Lemma applier_dead rf rf' msgs : applierStep rf = Some (rf', msgs) → dead rf' = dead rf.
Proof. unfold applierStep. intros H. raft_case; [done|by eapply applierBatch_dead]. Qed.

Lemma Start_dead command rf rf' res b : Start command rf = (rf', res, b) → dead rf' = dead rf.
Proof. unfold Start. intros H. case_bool_decide; simplify_eq; by rsimpl. Qed.

Lemma Make_dead n m p now : dead (Make n m p now : Raft cmd) = false.
Proof. unfold Make, readPersist. raft_case; repeat case_match; done. Qed.

(** A state of a run: the servers are alive, and every leader still has the
    goroutine that sends its heartbeats. *)
Record live c : Prop := mkLive {
  lv_cinv : ∃ A, cinv N A c;
  lv_dead i : dead (servers c i) = false;
  lv_beat i : role (servers c i) = Leader → PHeartbeats i (incarnation c i) ∈ inflight c
}.

Lemma live_init c : init N c → live c.
Proof.
  intros Hc. split; [eexists; by apply cinv_init|..]; destruct Hc as (Hs & _);
    intros i; destruct (Hs i) as [now ->]; [apply Make_dead|by rewrite Make_role].
Qed.

Lemma set_server_all (P : Raft cmd → Prop) i rf' c j :
  P rf' → P (servers c j) → P (set_server i rf' c j).
Proof. intros. unfold set_server. by case_decide. Qed.

Lemma live_dead_step P c ev c' i :
  lstep N P c ev c' → dead (servers c i) = false → dead (servers c' i) = false.
Proof.
  intros Hs Hd.
  destruct Hs; cbn [servers]; try done; unfold set_server; case_decide; subst; try done;
    try (etrans; [|exact Hd]).
  - by eapply ticker_dead.
  - by eapply ticker_dead.
  - by eapply RequestVote_dead.
  - by eapply voteReply_dead.
  - by eapply AppendEntries_dead.
  - by eapply appendReply_dead.
  - by eapply InstallSnapshot_dead.
  - by eapply snapshotReply_dead.
  - by eapply Start_dead.
  - by eapply Snapshot_dead.
  - by eapply applier_dead.
  - rewrite Make_dead. by symmetry.
Qed.

Lemma beat_frame c i rf' inc' votes' net' :
  (role rf' = Leader → role (servers c i) = Leader) →
  (∀ j, inc' j = incarnation c j ∨ role (set_server i rf' c j) ≠ Leader) →
  (∀ src inc, PHeartbeats src inc ∈ inflight c → PHeartbeats src inc ∈ net') →
  (∀ j, role (servers c j) = Leader → PHeartbeats j (incarnation c j) ∈ inflight c) →
  let c' := mkCluster (set_server i rf' c) inc' votes' net' in
  ∀ j, role (servers c' j) = Leader → PHeartbeats j (incarnation c' j) ∈ inflight c'.
Proof.
  intros Hr Hi Hn Hb c' j Hj. simpl in *. destruct (Hi j) as [->|?]; [|done].
  apply Hn, Hb. unfold set_server in Hj. case_decide; subst; auto.
Qed.

Lemma live_beat_step P c ev c' :
  lstep N P c ev c' → (∀ i, dead (servers c i) = false) →
  (∀ j, role (servers c j) = Leader → PHeartbeats j (incarnation c j) ∈ inflight c) →
  ∀ j, role (servers c' j) = Leader → PHeartbeats j (incarnation c' j) ∈ inflight c'.
Proof.
  intros Hs Hd Hb.
  assert (∀ p rest new, inflight c ≡ₚ p :: rest → (∀ src inc, p ≠ PHeartbeats src inc) →
    ∀ src inc, PHeartbeats src inc ∈ inflight c → PHeartbeats src inc ∈ new ++ rest) as Hnet.
  { intros p rest new Hn Hp src inc Hin. rewrite Hn in Hin.
    apply elem_of_app. right. by apply elem_of_cons in Hin as [Heq|Hin]; [edestruct Hp|]. }
  destruct Hs.
  - apply beat_frame; auto. by rewrite (q_role _ _ (ticker_quiet _ _ _ _ H0)).
  - apply beat_frame; auto; [|set_solver].
    apply ticker_effect in H0 as (_ & _ & _ & _ & Hr & _). by rewrite Hr.
  - apply beat_frame; eauto using RequestVote_role. by eapply (Hnet _ _ [_]).
  - match goal with Hh : handleRequestVoteReply _ _ _ _ _ = _ |- _ =>
      apply voteReply_dead in Hh as [_ Hlead] end.
    intros j Hj. simpl in *. unfold set_server in Hj. case_decide as Hsrc.
    + subst. destruct (Hlead Hj) as [Hl| ->]; [|set_solver].
      by eapply Hnet; [done|done|apply Hb].
    + eapply Hnet; [done|done|by apply Hb].
  - intros j Hj. simpl in *. specialize (Hb j Hj). rewrite H in Hb.
    unfold sendHeartbeats, killed. rewrite Hd. case_bool_decide; [|set_solver].
    apply elem_of_cons in Hb as [Hb|]; [|done]. by simplify_eq.
  - intros j Hj. by eapply Hnet; [done|done|apply Hb].
  - intros j Hj. by eapply Hnet; [done|done|apply Hb].
  - apply beat_frame; eauto using AppendEntries_role. by eapply (Hnet _ _ [_]).
  - apply beat_frame; eauto using appendReply_role. by eapply (Hnet _ _ []).
  - apply beat_frame; eauto using InstallSnapshot_role. by eapply (Hnet _ _ [_]).
  - apply beat_frame; eauto using snapshotReply_role. by eapply (Hnet _ _ []).
  - apply beat_frame; eauto using Start_role. set_solver.
  - apply beat_frame; eauto using Snapshot_role.
  - apply beat_frame; eauto using applier_role.
  - intros j Hj. simpl in *. specialize (Hb j Hj). rewrite H in Hb.
    apply elem_of_cons in Hb as [<-|]; [|done]. simpl in *.
    by rewrite bool_decide_eq_true_2 in H0.
  - apply beat_frame; auto; [by rewrite Make_role|]. intros j. unfold set_server.
    case_decide; [right; by rewrite Make_role|by left].
Qed.

Lemma live_step c c' : live c → service_step N c c' → live c'.
Proof.
  intros [[A Hci] Hd Hb] Hs. split.
  - destruct (service_simulated N A c c' Hci Hs) as (A' & _ & _ & Hci'). by exists A'.
  - destruct Hs as [ev Hs]. intros i. eapply live_dead_step; eauto.
  - destruct Hs as [ev Hs]. eapply live_beat_step; eauto.
Qed.

Lemma reachable_live c : service_reachable N c → live c.
Proof.
  revert c. apply reachable_invariant; [apply live_init|]. intros c c' _. apply live_step.
Qed.

End Live.

(** ** Runs that move some servers only *)

Section Elect.
Context {cmd : Type} `{!Gob (RaftVal cmd)} `{!GobRegistered (RaftVal cmd)}.
Context (N : nat).
Implicit Types c : Cluster (cmd:=cmd).
Implicit Types rf : Raft cmd.

(** The servers that can reach each other. *)
Context (Q : gset nat) (HQ : ∀ q, q ∈ Q → (q < N)%nat).

(** A step of a timer, a goroutine or an RPC of the servers [Q]: no server fails,
    the service does nothing, and the other servers are as they were. *)
Definition moved c c' : Prop :=
  ∃ ev, lstep N applied_only c ev c' ∧ (ev = EQuiet ∨ ∃ i m, ev = EInstall i m) ∧
        ∀ j, j ∉ Q → servers c' j = servers c j.

Definition runs_among : relation (Cluster (cmd:=cmd)) := rtc moved.

Lemma moved_service c c' : moved c c' → service_step N c c'.
Proof. intros (ev & Hs & _). by exists ev. Qed.

Lemma runs_service c c' : runs_among c c' → rtc (service_step N) c c'.
Proof. induction 1; [done|]. eapply rtc_l; [by apply moved_service|done]. Qed.

Lemma runs_live c c' : live N c → runs_among c c' → live N c'.
Proof.
  intros Hl Hr. induction Hr as [|c c1 c' Hs _ IH]; [done|].
  apply IH. by eapply live_step, moved_service.
Qed.

Lemma runs_others c c' j : runs_among c c' → j ∉ Q → servers c' j = servers c j.
Proof.
  intros Hr Hj. induction Hr as [|c c1 c' (_ & _ & _ & Ho) _ IH]; [done|]. by rewrite IH, Ho.
Qed.

Lemma moved_quiet c i rf' inc' votes' net' :
  i ∈ Q → lstep N applied_only c EQuiet (mkCluster (set_server i rf' c) inc' votes' net') →
  moved c (mkCluster (set_server i rf' c) inc' votes' net').
Proof.
  intros Hi Hs. exists EQuiet. split_and!; [done|by left|]. intros j Hj.
  apply set_server_ne. by intros ->.
Qed.

Lemma moved_net c votes' net' :
  lstep N applied_only c EQuiet (mkCluster (servers c) (incarnation c) votes' net') →
  moved c (mkCluster (servers c) (incarnation c) votes' net').
Proof. intros Hs. exists EQuiet. split_and!; [done|by left|done]. Qed.

Lemma live_node c i :
  live N c → wf (servers c i) ∧ npeers (servers c i) = N ∧ me (servers c i) = Z.of_nat i.
Proof.
  intros [[A Hci] _ _]. by destruct (inv_node _ _ _ (ci_inv _ _ _ Hci) i) as (? & _ & ? & ?).
Qed.

(** The log, with what was dropped from it, is as it was. *)
Definition same_log rf rf' : Prop :=
  log rf' = log rf ∧ lastIncludedIndex rf' = lastIncludedIndex rf.

#[export] Instance same_log_refl : Reflexive same_log.
Proof. by split. Qed.

#[export] Instance same_log_trans : Transitive same_log.
Proof. intros ??? [] []. split; congruence. Qed.

Lemma same_log_last rf rf' :
  same_log rf rf' → lastLogIndex rf' = lastLogIndex rf ∧ lastLogTerm rf' = lastLogTerm rf.
Proof. intros [Hl Hi]. unfold lastLogIndex, lastLogTerm. by rewrite Hl, Hi. Qed.

(** ** A candidate *)

(** [args] is what server [i] asks in the election it is running. *)
Record campaigning (i : nat) (args : RequestVoteArgs) c : Prop := mkCampaigning {
  cp_role : role (servers c i) = Candidate;
  cp_term : currentTerm (servers c i) = rv_Term args;
  cp_index : lastLogIndex (servers c i) = rv_LastLogIndex args;
  cp_last : lastLogTerm (servers c i) = Some (rv_LastLogTerm args);
  cp_votes : votes c !! (i, incarnation c i, rv_Term args) = Some 1;
  cp_asked q : (q < N)%nat → q ≠ i → PVoteReq i (incarnation c i) q args ∈ inflight c
}.

(** Nothing but server [i] and the calls has changed. *)
Definition only (i : nat) c c' : Prop :=
  incarnation c' = incarnation c ∧ ∀ j, j ≠ i → servers c' j = servers c j.

#[export] Instance only_trans i : Transitive (only i).
Proof.
  intros c1 c2 c3 [Hi Hj] [Hi' Hj']. split; [congruence|]. intros j ?. by rewrite Hj', Hj.
Qed.

(** The timer of a server that is no leader fires once it has waited long. *)
Lemma ticker_fires rf :
  wf rf → role rf ≠ Leader →
  ∃ now rf' calls, tickerStep now 0 rf = Some (rf', Some calls).
Proof.
  intros Hw Hr. exists (lastHeartbeat rf + ms 301). unfold tickerStep.
  rewrite bool_decide_eq_true_2 by done. change (ms (300 + Z.rem 0 300)) with 300000000.
  rewrite (proj2 (Z.ltb_lt _ _)) by (change (ms 301) with 301000000; lia).
  destruct (startElection_ok (lastHeartbeat rf + ms 301) rf Hw) as [[rf' calls] He].
  exists rf', calls. cbn [andb]. by rewrite He.
Qed.

Lemma tick_campaigns c i :
  live N c → i ∈ Q → role (servers c i) ≠ Leader →
  ∃ c' args, moved c c' ∧ campaigning i args c' ∧ only i c c' ∧
    rv_Term args = currentTerm (servers c i) + 1 ∧ same_log (servers c i) (servers c' i).
Proof.
  intros Hl Hi Hr. destruct (live_node c i Hl) as (Hw & Hn & Hme).
  destruct (ticker_fires _ Hw Hr) as (now & rf' & calls & Ht).
  pose proof (ticker_effect _ _ _ _ _ Ht) as
    (HT & Hlog & Hlii & _ & Hcand & args & -> & Ha & Hidx & Hlast).
  eexists _, args. split; [apply moved_quiet; [done|by eapply s_elect; [apply HQ|]]|].
  assert (same_log (servers c i) rf') as Hsame by done.
  destruct (same_log_last _ _ Hsame) as [Hi1 Hi2].
  split; [|split; [split; [done|]|split; [done|]]].
  - constructor; cbn [servers incarnation votes inflight]; rewrite ?set_server_eq;
      [done|congruence|congruence|congruence| |].
    + by rewrite Ha, <-HT, lookup_insert_eq.
    + intros q Hq Hqi. apply elem_of_app. left. unfold vote_requests.
      rewrite <-list_fmap_compose. apply list_elem_of_fmap. exists (Z.of_nat q).
      rewrite otherPeers_elem, Hme, Hn. simpl. rewrite Nat2Z.id. split; [done|split; lia].
  - intros j Hj. by apply set_server_ne.
  - cbn [servers]. by rewrite set_server_eq.
Qed.

(** ... as often as needed. *)
Lemma campaign (k : nat) : ∀ c i,
  live N c → i ∈ Q → role (servers c i) ≠ Leader →
  ∃ c' args, runs_among c c' ∧ campaigning i args c' ∧ only i c c' ∧
    rv_Term args = currentTerm (servers c i) + 1 + Z.of_nat k ∧
    same_log (servers c i) (servers c' i).
Proof.
  induction k as [|k IH]; intros c i Hl Hi Hr;
    destruct (tick_campaigns c i Hl Hi Hr) as (c1 & args1 & Hs & Hc & Ho & HT & Hlog).
  - exists c1, args1. split; [by apply rtc_once|].
    do 2 (split; [done|]). split; [lia|done].
  - destruct (IH c1 i) as (c2 & args2 & Hr2 & Hc2 & Ho2 & HT2 & Hlog2);
      [by eapply runs_live, rtc_once|done|by rewrite (cp_role _ _ _ Hc)|].
    exists c2, args2. split; [by eapply rtc_l|]. split; [done|].
    split; [by etrans|]. split; [rewrite (cp_term _ _ _ Hc) in HT2; lia|by etrans].
Qed.

(** ** The voters *)

(** The reply of [q] is on its way; it is a vote if the log of [q] allows it. *)
Definition gave_vote (i : nat) (args : RequestVoteArgs) c (q : nat) : Prop :=
  ∃ reply, PVoteRep i (incarnation c i) q args reply ∈ inflight c ∧
    rvr_Term reply = rv_Term args ∧
    (upToDate args (servers c q) → rvr_VoteGranted reply = true).

Lemma upToDate_same args rf rf' : same_log rf rf' → upToDate args rf' ↔ upToDate args rf.
Proof. intros [Hi Ht]%same_log_last. unfold upToDate. by rewrite Hi, Ht. Qed.

(** A request of a newer term is answered by a follower of that term. *)
Lemma RequestVote_newer now args rf rf' r :
  currentTerm rf < rv_Term args → RequestVote now args rf = Some (rf', r) →
  currentTerm rf' = rv_Term args ∧ role rf' = Follower ∧ same_log rf rf' ∧
  rvr_Term r = rv_Term args ∧ (upToDate args rf → rvr_VoteGranted r = true).
Proof.
  intros HT Hrv. pose proof (RequestVote_effect _ _ _ _ _ Hrv) as [Hq _].
  apply RequestVote_result in Hrv as (Hg & Ht & Hr & _).
  assert (raised (rv_Term args) rf rf') as Hra.
  { destruct Hq as [Hq|Hq]; [|done]. pose proof (q_term _ _ Hq). lia. }
  split_and!; [lia|apply Hra|split; apply Hra|lia|]. intros Hu. apply Hg. split_and!; auto; lia.
Qed.

Lemma canvass i args qs : ∀ c,
  live N c → NoDup qs →
  (∀ q, q ∈ qs → q ∈ Q ∧ q ≠ i ∧ currentTerm (servers c q) < rv_Term args ∧
     PVoteReq i (incarnation c i) q args ∈ inflight c) →
  ∃ c', runs_among c c' ∧ incarnation c' = incarnation c ∧ votes c' = votes c ∧
    (∀ j, j ∉ qs → servers c' j = servers c j) ∧
    (∀ q, q ∈ qs → currentTerm (servers c' q) = rv_Term args ∧ role (servers c' q) = Follower ∧
       same_log (servers c q) (servers c' q) ∧ gave_vote i args c' q) ∧
    ∀ p, p ∈ inflight c → (∀ q, q ∈ qs → p ≠ PVoteReq i (incarnation c i) q args) →
      p ∈ inflight c'.
Proof.
  induction qs as [|q qs IH]; intros c Hl Hnd Hqs.
  { exists c. split_and!; try done; by intros ? ?%elem_of_nil. }
  apply list.NoDup_cons in Hnd as [Hq Hnd].
  destruct (Hqs q) as (HqQ & Hqi & HT & Hp); [set_solver|].
  destruct (live_node c q Hl) as (Hw & _).
  destruct (RequestVote_ok 0 args _ Hw) as [[rf' reply] Hrv].
  destruct (RequestVote_newer _ _ _ _ _ HT Hrv) as (HT' & Hro & Hsame & Hrt & Hg).
  destruct (proj1 (elem_of_Permutation _ _) Hp) as [rest Hrest].
  pose proof (s_vote_deliver N applied_only c _ _ _ _ _ _ _ _ Hrest Hrv) as Hs.
  apply (moved_quiet _ _ _ _ _ _ HqQ) in Hs.
  set (c1 := mkCluster _ _ _ _) in Hs.
  assert (∀ p, p ∈ inflight c → p ≠ PVoteReq i (incarnation c i) q args → p ∈ inflight c1) as Hkeep.
  { intros p Hpi Hne. rewrite Hrest in Hpi. subst c1. set_solver. }
  destruct (IH c1) as (c' & Hr & Hinc & Hv & Hoth & Hdone & Hnet);
    [by eapply runs_live, rtc_once|done| |].
  { intros q' Hq'. destruct (Hqs q') as (? & ? & ? & ?); [set_solver|]. split_and!; [done|done| |].
    - subst c1. cbn [servers]. rewrite set_server_ne; [done|]. by intros ->.
    - apply Hkeep; [done|]. intros [=]. by subst. }
  assert (servers c' q = rf') as Hsq.
  { rewrite Hoth by done. apply set_server_eq. }
  exists c'. split; [by eapply rtc_l|]. do 2 (split; [done|]). split; [|split].
  - intros j Hj. rewrite Hoth by set_solver. apply set_server_ne. set_solver.
  - intros q' [->|Hq']%elem_of_cons.
    + rewrite Hsq. do 3 (split; [done|]). exists reply. rewrite Hsq, Hinc. split; [|split; [done|]].
      * apply Hnet; [apply list_elem_of_here|done].
      * intros Hu. by apply Hg, (upToDate_same _ _ _ Hsame).
    + destruct (Hdone q' Hq') as (? & ? & Hs' & ?). do 2 (split; [done|]). split; [|done].
      subst c1. cbn [servers] in Hs'. rewrite set_server_ne in Hs'; [done|]. by intros ->.
  - intros p Hpi Hne. apply Hnet; [apply Hkeep|]; [done|apply Hne; set_solver|].
    intros q' Hq'. apply Hne. set_solver.
Qed.

(** ** Counting the votes *)

(** A server that has just won: it has heard of nobody's log. *)
Record fresh_leader rf rf' : Prop := mkFreshLeader {
  fl_role : role rf' = Leader;
  fl_term : currentTerm rf' = currentTerm rf;
  fl_log : same_log rf rf';
  fl_match (k : nat) m : matchIndex rf' !! k = Some m → m = 0
}.

Lemma voteReply_vote now reply v rf :
  wf rf → role rf = Candidate → rvr_Term reply <= currentTerm rf →
  rvr_VoteGranted reply = true →
  ∃ rf' hb, handleRequestVoteReply now (currentTerm rf) reply v rf = Some (rf', v + 1, hb) ∧
    (Z.of_nat (npeers rf) / 2 < v + 1 → fresh_leader rf rf') ∧
    (v + 1 <= Z.of_nat (npeers rf) / 2 → rf' = rf).
Proof.
  intros Hw Hr HT Hg. unfold handleRequestVoteReply.
  rewrite bool_decide_eq_false_2 by (by rewrite Hr; intros []). rewrite Z.eqb_refl. cbn [orb negb].
  rewrite (proj2 (Z.ltb_ge _ _)) by lia. rewrite Hg, Hr.
  rewrite bool_decide_eq_true_2, andb_true_r by done.
  destruct (_ <? v + 1) eqn:Hv; bool_to_prop.
  - rewrite !set_all_ok by (apply Hw). obind. eexists _, _. split; [done|].
    split; [|intros; lia]. intros _. split; try done. intros k m. simpl.
    intros [-> _]%lookup_replicate. done.
  - exists rf, false. split; [done|]. split; [intros; lia|done].
Qed.

Lemma count_votes i args qs : ∀ c v,
  live N c → i ∈ Q → NoDup qs → i ∉ qs →
  role (servers c i) = Candidate → currentTerm (servers c i) = rv_Term args →
  votes c !! (i, incarnation c i, rv_Term args) = Some v → v <= Z.of_nat N / 2 →
  Z.of_nat N / 2 < v + len qs →
  (∀ q, q ∈ qs → gave_vote i args c q ∧ upToDate args (servers c q)) →
  ∃ c', runs_among c c' ∧ only i c c' ∧ fresh_leader (servers c i) (servers c' i).
Proof.
  induction qs as [|q qs IH]; intros c v Hl Hi Hnd Hiq Hr HT Hv Hv1 Hv2 Hqs; [simpl in *; lia|].
  apply list.NoDup_cons in Hnd as [Hq Hnd]. destruct (live_node c i Hl) as (Hw & Hn & _).
  destruct (Hqs q) as [(reply & Hp & Hrt & Hg) Hu]; [set_solver|].
  destruct (voteReply_vote 0 reply v (servers c i) Hw Hr) as (rf' & hb & Hh & Hwin & Hstay);
    [lia|by apply Hg|].
  destruct (proj1 (elem_of_Permutation _ _) Hp) as [rest Hrest]. rewrite HT in Hh.
  pose proof (s_vote_reply N applied_only c _ _ _ _ _ _ _ _ _ _ _ Hrest eq_refl Hv Hh) as Hs.
  apply (moved_quiet _ _ _ _ _ _ Hi) in Hs. set (c1 := mkCluster _ _ _ _) in Hs.
  assert (only i c c1) as Ho by (split; [done|]; intros j ?; by apply set_server_ne).
  assert (servers c1 i = rf') as Hsi by apply set_server_eq.
  rewrite Hn in Hwin, Hstay. destruct (decide (Z.of_nat N / 2 < v + 1)) as [Hm|Hm].
  { exists c1. split; [by apply rtc_once|]. split; [done|]. rewrite Hsi. by apply Hwin. }
  rewrite Hstay in Hsi by lia.
  destruct (IH c1 (v + 1)) as (c' & Hrun & Ho' & Hfl); [..|].
  - by eapply runs_live, rtc_once.
  - done.
  - done.
  - set_solver.
  - by rewrite Hsi.
  - by rewrite Hsi.
  - subst c1. cbn [votes incarnation]. by rewrite lookup_insert_eq.
  - lia.
  - simpl in Hv2. lia.
  - intros q' Hq'. destruct (Hqs q') as [(reply' & Hp' & Hrt' & Hg') Hu']; [set_solver|].
    assert (servers c1 q' = servers c q') as Hs' by (apply Ho; set_solver).
    rewrite Hs'. split; [|done]. exists reply'. rewrite Hs'. split; [|done].
    subst c1. cbn [inflight incarnation]. apply elem_of_app. right. rewrite Hrest in Hp'.
    apply elem_of_cons in Hp' as [[=]|]; [|done]. by subst.
  - exists c'. split; [by eapply rtc_l|]. split; [by etrans|]. by rewrite <-Hsi.
Qed.

(** ** A heartbeat and its reply *)

(** One call of [sendAppendEntriesToPeer] that is answered: the leader is in
    state [rf], the peer [p] in state [rg]. *)
Inductive exchange (p : Z) rf rg rf' rg' : Prop :=
| ex_snapshot now args reply m :
    sendAppendEntriesToPeer p (currentTerm rf) rf = Some (SendSnapshot args) →
    InstallSnapshot now args rg = Some (rg', reply, m) →
    handleInstallSnapshotReply p (is_Term args) args reply rf = Some rf' →
    exchange p rf rg rf' rg'
| ex_append now args reply :
    sendAppendEntriesToPeer p (currentTerm rf) rf = Some (SendAppend args) →
    AppendEntries now args rg = Some (rg', reply) →
    handleAppendEntriesReply p (ae_Term args) args reply rf = Some rf' →
    exchange p rf rg rf' rg'.

(** The goroutine of the heartbeats starts the call for [p]. *)
Lemma heartbeat_calls c i p :
  live N c → (p < N)%nat → p ≠ i → role (servers c i) = Leader →
  ∃ net, moved c (mkCluster (servers c) (incarnation c) (votes c) net) ∧
    PSend i (incarnation c i) (Z.of_nat p) (currentTerm (servers c i)) ∈ net.
Proof.
  intros Hl Hp Hpi Hr. destruct (live_node c i Hl) as (_ & Hn & Hme).
  destruct (proj1 (elem_of_Permutation _ _) (lv_beat _ _ Hl i Hr)) as [rest Hrest].
  eexists. split; [apply moved_net; by apply (s_heartbeats N applied_only c i (incarnation c i) rest)|].
  unfold sendHeartbeats, killed. rewrite (lv_dead _ _ Hl), bool_decide_eq_false_2 by (intros ?; done).
  apply elem_of_app. left. unfold spawn. rewrite <-list_fmap_compose. apply list_elem_of_fmap.
  exists (Z.of_nat p). split; [done|]. apply otherPeers_elem. rewrite Hn, Hme. split; lia.
Qed.

Lemma sends rf p action :
  role rf = Leader → sendAppendEntriesToPeer p (currentTerm rf) rf = Some action →
  action ≠ NoSend.
Proof.
  unfold sendAppendEntriesToPeer. intros -> H. rewrite Z.eqb_refl in H.
  rewrite bool_decide_eq_false_2 in H by (intros ?; done). cbn [orb negb] in H. by raft_case.
Qed.

(** Only the servers [i] and [p] are different. *)
Definition pair_only (i p : nat) c c' : Prop :=
  incarnation c' = incarnation c ∧ ∀ j, j ≠ i → j ≠ p → servers c' j = servers c j.

Section Calls.
Context c (i p : nat) (Hl : live N c) (Hi : i ∈ Q) (Hp : p ∈ Q) (Hpi : p ≠ i).

(** The states after [p] and then [i] have changed. *)
Lemma pair_states rf' rg' net1 net2 :
  let c1 := mkCluster (set_server p rg' c) (incarnation c) (votes c) net1 in
  let c2 := mkCluster (set_server i rf' c1) (incarnation c1) (votes c1) net2 in
  moved c c1 → lstep N applied_only c1 EQuiet c2 →
  runs_among c c2 ∧ servers c2 i = rf' ∧ servers c2 p = rg' ∧ pair_only i p c c2.
Proof.
  intros c1 c2 H1 H2. split.
  { eapply rtc_l, rtc_once; [exact H1|]. exact (moved_quiet c1 i rf' _ _ _ Hi H2). }
  subst c1 c2. unfold pair_only, set_server. cbn [servers incarnation].
  split_and!; intros; repeat case_decide; congruence.
Qed.

Lemma leader_unmoved rg' inc' votes' net' :
  servers (mkCluster (set_server p rg' c) inc' votes' net') i = servers c i.
Proof. by apply set_server_ne. Qed.

Lemma snapshot_call args :
  PSnapReq i (incarnation c i) p args ∈ inflight c →
  ∃ c' now reply m, runs_among c c' ∧ pair_only i p c c' ∧
    InstallSnapshot now args (servers c p) = Some (servers c' p, reply, m) ∧
    handleInstallSnapshotReply (Z.of_nat p) (is_Term args) args reply (servers c i) =
      Some (servers c' i).
Proof.
  intros Hin. destruct (live_node c i Hl) as (Hw & Hn & _). destruct (live_node c p Hl) as (Hwp & _).
  pose proof (HQ p Hp) as HpN. destruct (proj1 (elem_of_Permutation _ _) Hin) as [rest Hrest].
  destruct (InstallSnapshot_ok 0 args _ Hwp) as [[[rg' reply] m] Hg].
  destruct (snapshotReply_ok (Z.of_nat p) (is_Term args) args reply _ Hw) as [rf' Hh]; [lia|].
  destruct (pair_states rf' rg' (PSnapRep i (incarnation c i) p args reply :: rest) rest)
    as (H1 & H2 & H3 & H4).
  - eexists. split; [exact (s_snap_deliver N applied_only c _ _ _ _ _ _ _ _ _ Hrest Hg)|].
    split; [by right; eauto|]. intros j Hj. apply set_server_ne. by intros ->.
  - eapply s_snap_reply; [exact (reflexivity _)|done|]. by rewrite leader_unmoved.
  - eexists _, 0, reply, m. rewrite H2, H3. done.
Qed.

Lemma append_call args :
  PAppendReq i (incarnation c i) p args ∈ inflight c →
  ∃ c' now reply, runs_among c c' ∧ pair_only i p c c' ∧
    AppendEntries now args (servers c p) = Some (servers c' p, reply) ∧
    handleAppendEntriesReply (Z.of_nat p) (ae_Term args) args reply (servers c i) =
      Some (servers c' i).
Proof.
  intros Hin. destruct (live_node c i Hl) as (Hw & Hn & _). destruct (live_node c p Hl) as (Hwp & _).
  pose proof (HQ p Hp) as HpN. destruct (proj1 (elem_of_Permutation _ _) Hin) as [rest Hrest].
  destruct (AppendEntries_ok 0 args _ Hwp) as [[rg' reply] Hg].
  destruct (appendReply_ok (Z.of_nat p) (ae_Term args) args reply _ Hw) as [rf' Hh]; [lia|].
  destruct (pair_states rf' rg' (PAppendRep i (incarnation c i) p args reply :: rest) rest)
    as (H1 & H2 & H3 & H4).
  - apply (moved_quiet _ _ _ _ _ _ Hp).
    exact (s_append_deliver N applied_only c _ _ _ _ _ _ _ _ Hrest Hg).
  - eapply s_append_reply; [exact (reflexivity _)|done|]. by rewrite leader_unmoved.
  - eexists _, 0, reply. rewrite H2, H3. done.
Qed.

End Calls.

Lemma exchange_run c i p :
  live N c → i ∈ Q → p ∈ Q → p ≠ i → role (servers c i) = Leader →
  ∃ c', runs_among c c' ∧ pair_only i p c c' ∧
    exchange (Z.of_nat p) (servers c i) (servers c p) (servers c' i) (servers c' p).
Proof.
  intros Hl Hi Hp Hpi Hr.
  destruct (heartbeat_calls c i p Hl (HQ p Hp) Hpi Hr) as (net & Hs1 & Hp1).
  set (c1 := mkCluster _ _ _ _) in Hs1. pose proof (runs_live _ _ Hl (rtc_once _ _ Hs1)) as Hl1.
  destruct (proj1 (elem_of_Permutation _ _) Hp1) as [rest Hrest].
  destruct (lv_cinv _ _ Hl1) as [A1 Hci1].
  destruct (send_ok N A1 c1 i (incarnation c i) _ _ Hci1 Hp1) as [action Ha].
  pose proof (s_send N applied_only c1 _ _ _ _ _ _ Hrest eq_refl Ha) as Hs2.
  apply moved_net in Hs2. pose proof (sends _ _ _ Hr Ha) as Hno.
  set (c2 := mkCluster _ _ _ _) in Hs2. pose proof (runs_live _ _ Hl1 (rtc_once _ _ Hs2)) as Hl2.
  destruct action as [|args|args]; [done|..].
  - destruct (snapshot_call c2 i p Hl2 Hi Hp Hpi args) as (c' & now & reply & m & Hr3 & Ho & Hg & Hh).
    { subst c2. simpl. rewrite Nat2Z.id. apply list_elem_of_here. }
    exists c'. split; [eapply rtc_l, rtc_l; [exact Hs1|exact Hs2|exact Hr3]|].
    split; [exact Ho|]. by eapply ex_snapshot.
  - destruct (append_call c2 i p Hl2 Hi Hp Hpi args) as (c' & now & reply & Hr3 & Ho & Hg & Hh).
    { subst c2. simpl. rewrite Nat2Z.id. apply list_elem_of_here. }
    exists c'. split; [eapply rtc_l, rtc_l; [exact Hs1|exact Hs2|exact Hr3]|].
    split; [exact Ho|]. by eapply ex_append.
Qed.

(** ** Leaders step down *)

Lemma send_args rf p args :
  sendAppendEntriesToPeer p (currentTerm rf) rf = Some (SendAppend args) →
  ae_Term args = currentTerm rf.
Proof. unfold sendAppendEntriesToPeer. intros H. by raft_case. Qed.

Lemma send_snap_args rf p args :
  sendAppendEntriesToPeer p (currentTerm rf) rf = Some (SendSnapshot args) →
  args = mkInstallSnapshotArgs (currentTerm rf) (me rf) (lastIncludedIndex rf)
           (lastIncludedTerm rf) (ReadSnapshot (persister rf)).
Proof. unfold sendAppendEntriesToPeer. intros H. by raft_case. Qed.

Lemma exchange_follows p rf rg rf' rg' :
  exchange p rf rg rf' rg' → currentTerm rg <= currentTerm rf → follows (currentTerm rf) rg rg'.
Proof.
  intros He HT. destruct He as [now args reply m Hs Hi _|now args reply Hs Ha _].
  - apply send_snap_args in Hs as ->.
    apply InstallSnapshot_follows in Hi as [Hf _]; done.
  - apply send_args in Hs. rewrite <-Hs in HT |- *.
    apply AppendEntries_follows in Ha as [Hf _]; done.
Qed.

(** The leader with the newer term makes the other one a follower. *)
Lemma demote c i p :
  live N c → i ∈ Q → p ∈ Q → role (servers c i) = Leader →
  currentTerm (servers c p) < currentTerm (servers c i) →
  ∃ c', runs_among c c' ∧ role (servers c' p) ≠ Leader.
Proof.
  intros Hl Hi Hp Hr HT. assert (p ≠ i) as Hpi by (intros ->; lia).
  destruct (exchange_run c i p Hl Hi Hp Hpi Hr) as (c' & Hrun & _ & He).
  exists c'. split; [done|]. intros Hlead.
  destruct (f_lead _ _ _ (exchange_follows _ _ _ _ _ He ltac:(lia)) Hlead) as (_ & ? & _). lia.
Qed.

Lemma some_follower c a b :
  live N c → a ∈ Q → b ∈ Q → a ≠ b →
  ∃ c' q, runs_among c c' ∧ q ∈ Q ∧ role (servers c' q) ≠ Leader.
Proof.
  intros Hl Ha Hb Hab.
  destruct (decide (role (servers c a) = Leader)) as [Hra|]; [|by exists c, a].
  destruct (decide (role (servers c b) = Leader)) as [Hrb|]; [|by exists c, b].
  destruct (lv_cinv _ _ Hl) as [A Hci].
  assert (currentTerm (servers c a) ≠ currentTerm (servers c b)) as Hne
    by (intros HT; by apply Hab, (inv_leader_unique N _ c a b (ci_inv _ _ _ Hci))).
  destruct (Z.lt_total (currentTerm (servers c a)) (currentTerm (servers c b))) as [H|[H|H]]; [|done|].
  - destruct (demote c b a Hl Hb Ha Hrb H) as (c' & ? & ?). by exists c', a.
  - destruct (demote c a b Hl Ha Hb Hra H) as (c' & ? & ?). by exists c', b.
Qed.

(** ** An election *)

Lemma bounded_above {A} (f : A → Z) (l : list A) : ∃ m : nat, ∀ x, x ∈ l → f x <= Z.of_nat m.
Proof.
  induction l as [|x l (m & Hm)]; [exists 0%nat; by intros ? ?%elem_of_nil|].
  exists (Z.to_nat (Z.max (f x) (Z.of_nat m))). intros y [->|Hy%Hm]%elem_of_cons; lia.
Qed.

(** Server [i] asks all of [Q] for their votes in a term newer than theirs, and
    they have answered. *)
Lemma poll c i :
  live N c → i ∈ Q → role (servers c i) ≠ Leader →
  ∃ c' args, runs_among c c' ∧ role (servers c' i) = Candidate ∧
    votes c' !! (i, incarnation c' i, rv_Term args) = Some 1 ∧
    lastLogIndex (servers c' i) = rv_LastLogIndex args ∧
    lastLogTerm (servers c' i) = Some (rv_LastLogTerm args) ∧
    (∀ q, q ∈ Q → currentTerm (servers c' q) = rv_Term args ∧ role (servers c' q) ≠ Leader ∧
                  same_log (servers c q) (servers c' q)) ∧
    ∀ q, q ∈ Q → q ≠ i → gave_vote i args c' q.
Proof.
  intros Hl Hi Hr.
  destruct (bounded_above (λ q, currentTerm (servers c q)) (elements Q)) as [k Hk].
  destruct (campaign k c i Hl Hi Hr) as (c1 & args & Hr1 & Hc & [Hinc Ho] & HT & Hsame).
  pose proof (runs_live _ _ Hl Hr1) as Hl1.
  destruct (live_node c i Hl) as (Hw & _). pose proof (wf_term _ Hw).
  destruct (canvass i args (elements (Q ∖ {[i]})) c1 Hl1) as (c' & Hr2 & Hinc2 & Hv & Hoth & Hans & _).
  { apply NoDup_elements. }
  { intros q Hq%elem_of_elements. assert (q ∈ Q ∧ q ≠ i) as [HqQ Hqi] by set_solver.
    split; [done|]. split; [done|]. rewrite Ho by done. split.
    - specialize (Hk q). rewrite elem_of_elements in Hk. specialize (Hk HqQ). lia.
    - apply (cp_asked _ _ _ Hc); auto. }
  assert (servers c' i = servers c1 i) as Hsi by (apply Hoth; set_solver).
  exists c', args. split; [by etrans|]. rewrite Hsi, Hv, Hinc2.
  do 4 (split; [apply Hc|]). split.
  - intros q Hq. destruct (decide (q = i)) as [->|Hqi].
    + rewrite Hsi. split; [apply Hc|]. split; [by rewrite (cp_role _ _ _ Hc)|done].
    + destruct (Hans q) as (HTq & Hrq & Hsq & _); [set_solver|].
      split; [done|]. split; [by rewrite Hrq|]. by rewrite <-(Ho q Hqi).
  - intros q Hq Hqi. apply Hans. set_solver.
Qed.

(** The comparison of RequestVote between the logs of two servers. *)
Definition behind rf rf' : Prop :=
  default 0 (lastLogTerm rf) < default 0 (lastLogTerm rf') ∨
  default 0 (lastLogTerm rf) = default 0 (lastLogTerm rf') ∧ lastLogIndex rf <= lastLogIndex rf'.

#[export] Instance behind_preorder : PreOrder behind.
Proof. split; [intros rf; right; lia|]. intros rf1 rf2 rf3. unfold behind. lia. Qed.

Lemma behind_total rf rf' : behind rf rf' ∨ behind rf' rf.
Proof. unfold behind. lia. Qed.

Lemma behind_same rf1 rf1' rf2 rf2' :
  same_log rf1 rf1' → same_log rf2 rf2' → behind rf1 rf2 → behind rf1' rf2'.
Proof.
  intros [H1 H2]%same_log_last [H3 H4]%same_log_last. unfold behind. by rewrite H1, H2, H3, H4.
Qed.

(** A server whose log is up to date among [Q]. *)
Lemma best_log c a : a ∈ Q → ∃ i, i ∈ Q ∧ ∀ q, q ∈ Q → behind (servers c q) (servers c i).
Proof.
  intros Ha.
  assert (PreOrder (λ q i, behind (servers c q) (servers c i))) as Hpre.
  { split; [intros q; reflexivity|]. intros x y z ??. by etrans. }
  destruct (list_greatest (λ q i, behind (servers c q) (servers c i)) a (elements Q))
    as (i & Hi & Hmax); [intros; apply behind_total|].
  exists i. split.
  - apply elem_of_cons in Hi as [->|Hi]; [done|by apply elem_of_elements].
  - intros q Hq. apply Hmax, elem_of_cons. right. by apply elem_of_elements.
Qed.

Lemma two_servers : (2 <= N)%nat → Z.of_nat N / 2 < Z.of_nat (size Q) →
  ∃ a b, a ∈ Q ∧ b ∈ Q ∧ a ≠ b.
Proof.
  clear HQ. intros HN Hm. assert (1 <= Z.of_nat N / 2) by (apply Z.div_le_lower_bound; lia).
  assert (Q ≢ ∅) as [a Ha]%set_choose by (intros HQ0; rewrite HQ0, size_empty in Hm; lia).
  assert (Q ∖ {[a]} ≢ ∅) as [b Hb]%set_choose.
  { intros HQ0. assert (Q ⊆ {[a]}) as Hs%subseteq_size.
    { intros x Hx. destruct (decide (x = a)); set_solver. }
    rewrite size_singleton in Hs. lia. }
  exists a, b. set_solver.
Qed.

Lemma size_others i : i ∈ Q → size Q = S (length (elements (Q ∖ {[i]}))).
Proof.
  clear HQ. intros Hi. change (length _) with (size (Q ∖ {[i]})).
  rewrite (union_difference_L {[i]} Q) at 1 by set_solver.
  by rewrite size_union, size_singleton by set_solver.
Qed.

Lemma elect_leader c :
  live N c → (2 <= N)%nat → Z.of_nat N / 2 < Z.of_nat (size Q) →
  ∃ c' i, runs_among c c' ∧ i ∈ Q ∧ role (servers c' i) = Leader ∧
    (∀ q, q ∈ Q → currentTerm (servers c' q) = currentTerm (servers c' i)) ∧
    ∀ (k : nat) m, matchIndex (servers c' i) !! k = Some m → m = 0.
Proof.
  intros Hl HN Hm. destruct (two_servers HN Hm) as (a & b & Ha & Hb & Hab).
  destruct (some_follower c a b Hl Ha Hb Hab) as (c1 & q1 & Hr1 & Hq1 & Hf1).
  pose proof (runs_live _ _ Hl Hr1) as Hl1.
  destruct (poll c1 q1 Hl1 Hq1 Hf1) as (c2 & args2 & Hr2 & _ & _ & _ & _ & Hall2 & _).
  pose proof (runs_live _ _ Hl1 Hr2) as Hl2.
  destruct (best_log c2 a Ha) as (i & Hi & Hbest). destruct (Hall2 i Hi) as (_ & Hfi & _).
  destruct (poll c2 i Hl2 Hi Hfi) as (c3 & args & Hr3 & Hcand & Hv & Hidx & Hlast & Hall & Hans).
  pose proof (runs_live _ _ Hl2 Hr3) as Hl3. destruct (Hall i Hi) as (HT & _ & Hsi).
  destruct (count_votes i args (elements (Q ∖ {[i]})) c3 1) as (c4 & Hr4 & [_ Ho] & Hfl);
    [done|done|apply NoDup_elements|set_solver|done|done|done|..].
  - apply Z.div_le_lower_bound; lia.
  - rewrite (size_others i Hi) in Hm. lia.
  - intros q Hq. assert (q ∈ Q ∧ q ≠ i) as [HqQ Hqi] by set_solver. split; [by apply Hans|].
    destruct (Hall q HqQ) as (_ & _ & Hsq). destruct (live_node c3 q Hl3) as (Hwq & _).
    destruct (lastLogTerm_ok _ Hwq) as [t Ht]. exists t. split; [done|].
    pose proof (behind_same _ _ _ _ Hsq Hsi (Hbest q HqQ)) as Hb'.
    unfold behind in Hb'. rewrite Ht, Hlast in Hb'. simpl in Hb'. by rewrite Hidx in Hb'.
  - exists c4, i. split; [do 3 (etrans; [done|]); done|]. split; [done|].
    split; [apply Hfl|]. split; [|apply Hfl].
    intros q Hq. rewrite (fl_term _ _ Hfl), HT. destruct (decide (q = i)) as [->|Hqi].
    + by rewrite (fl_term _ _ Hfl).
    + rewrite Ho by done. by apply Hall.
Qed.

End Elect.

(** ** A cluster of one server

    The votes are counted when replies arrive, so a server without peers, whose
    own vote is a majority, stays a candidate. *)

Section Alone.
Context {cmd : Type} `{!Gob (RaftVal cmd)} `{!GobRegistered (RaftVal cmd)}.
Implicit Types c : Cluster (cmd:=cmd).

Record alone c : Prop := mkAlone {
  al_inv : inv 1 c;
  al_role i : role (servers c i) ≠ Leader;
  al_net p : p ∈ inflight c → vote_key p = None
}.

Lemma alone_frame c i rf' inc' votes' net' :
  alone c → inv 1 (mkCluster (set_server i rf' c) inc' votes' net') →
  (role rf' = Leader → role (servers c i) = Leader) →
  (∀ p, p ∈ net' → p ∈ inflight c ∨ vote_key p = None) →
  alone (mkCluster (set_server i rf' c) inc' votes' net').
Proof.
  intros [_ Hr Hn] Hinv Hrole Hnet. split; [done|..]; cbn [servers inflight].
  - intros j. unfold set_server. case_decide; subst; [|done]. intros Hl. by apply (Hr j), Hrole.
  - intros p [Hp|Hp]%Hnet; auto.
Qed.

Lemma alone_net c net' :
  alone c → inv 1 (mkCluster (servers c) (incarnation c) (votes c) net') →
  (∀ p, p ∈ net' → p ∈ inflight c ∨ vote_key p = None) →
  alone (mkCluster (servers c) (incarnation c) (votes c) net').
Proof. intros [_ Hr Hn] Hinv Hnet. split; [done|done|]. intros p [Hp|Hp]%Hnet; auto. Qed.

Lemma no_peers (rf : Raft cmd) : npeers rf = 1%nat → me rf = 0 → otherPeers rf = [].
Proof. intros Hn Hm. unfold otherPeers. rewrite Hn, Hm. done. Qed.

Lemma alone_step c c' : alone c → step 1 (λ _ _, True) c c' → alone c'.
Proof.
  intros Ha Hs. pose proof (inv_step 1 _ c c' (al_inv _ Ha) Hs) as Hinv'.
  destruct Hs as [ev Hs]. pose proof Ha as [[H Hinv] Hr Hn].
  assert (∀ p rest, inflight c ≡ₚ p :: rest → vote_key p = None ∧ ∀ q, q ∈ rest → q ∈ inflight c)
    as Hcons.
  { intros p rest Hp. split; [apply Hn; rewrite Hp; apply list_elem_of_here|].
    intros q Hq. rewrite Hp. by apply list_elem_of_further. }
  destruct Hs;
    try match goal with Hp : inflight c ≡ₚ _ :: _ |- _ => destruct (Hcons _ _ Hp) as [Hkey Hrest] end;
    try done;
    try (apply alone_frame; [done|done| |]); try (apply alone_net; [done|done|]);
    try (intros p Hp; auto; fail).
  - by rewrite (q_role _ _ (ticker_quiet _ _ _ _ H1)).
  - apply ticker_effect in H1 as (_ & _ & _ & _ & -> & _). done.
  - apply ticker_effect in H1 as (_ & _ & _ & _ & _ & args & -> & _).
    destruct (inv_node _ _ _ Hinv i) as (_ & _ & Hnp & Hme).
    rewrite no_peers; [by left|done|rewrite Hme; lia].
  - intros p. destruct (sendHeartbeats _) as [calls|]; [|auto].
    intros [Hp|[->|Hp]%elem_of_cons]%elem_of_app; [|by right|auto].
    right. by apply list_elem_of_fmap in Hp as ([] & -> & _).
  - intros p [Hp|Hp]%elem_of_app; [|auto].
    right. by apply list_elem_of_fmap in Hp as ([] & -> & _).
  - intros p [Hp|Hp]%elem_of_app; [|auto]. right.
    destruct action; simpl in Hp; [by apply elem_of_nil in Hp|..];
      by apply list_elem_of_singleton in Hp as ->.
  - by eapply AppendEntries_role.
  - intros p [->|Hp]%elem_of_cons; [by right|auto].
  - by eapply appendReply_role.
  - by eapply InstallSnapshot_role.
  - intros p [->|Hp]%elem_of_cons; [by right|auto].
  - by eapply snapshotReply_role.
  - by eapply Start_role.
  - intros p [Hp|Hp]%elem_of_app; [|auto]. right. destruct b; simpl in Hp;
      [by apply list_elem_of_singleton in Hp as ->|by apply elem_of_nil in Hp].
  - by eapply Snapshot_role.
  - by eapply applier_role.
  - auto.
  - by rewrite Make_role.
Qed.

(** A cluster of one server never has a leader. *)
Theorem alone_never_leads c i : cluster_reachable 1 c → role (servers c i) ≠ Leader.
Proof.
  intros Hc. enough (alone c) as Ha by apply Ha. revert c Hc. apply reachable_invariant.
  - intros c Hc. split; [by apply inv_init| |].
    + intros j. destruct (proj1 Hc j) as [now ->]. by rewrite Make_role.
    + destruct Hc as (_ & _ & ->). by intros ? ?%elem_of_nil.
  - intros c c' _. apply alone_step.
Qed.

End Alone.
