(* ===== verification/RaftProgress.v ===== *)
(** * Commands get committed

    The cluster of RaftNet.v makes progress: in every state it can reach, a
    majority of the servers that can talk to each other can elect a leader
    (RaftElect.v), and what the service then passes to Start can be committed and
    handed to the service of each of them.  The heart of it is that the leader's
    search for the place where a follower's log agrees with its own
    (sendAppendEntriesToPeer of src/6.5840/src/raft1/raft.go, with the snapshot
    it sends when it has dropped that place) comes to an end. *)

From S2P Require Import Prelude Gob Persister Raft RaftNode RaftSpec RaftReplication RaftProtocol.
From S2P Require Import RaftNet RaftLog RaftSafety RaftElect.

Section Pair.
Context {cmd : Type} `{!Gob (RaftVal cmd)} `{!GobRegistered (RaftVal cmd)}.
Implicit Types rf rg : Raft cmd.
Implicit Types g h : list (LogEntry cmd).

(** ** A leader and a follower

    What the invariants of the cluster say of the logs [g] and [h] of a leader
    and of a server it may talk to. *)
Record pair (q : nat) g h rf rg : Prop := mkPair {
  pr_wf : wf rf;
  pr_leads : role rf = Leader;
  pr_repr : repr g rf;
  pr_range : (q < npeers rf)%nat;
  pr_wf' : wf rg;
  pr_term : currentTerm rg <= currentTerm rf;
  pr_repr' : repr h rg;
  pr_commit : agrees (Z.to_nat (commitIndex rg)) h g;
  pr_matching (j k : nat) :
    (j <= k <= length g)%nat → (j <= length h)%nat → tm h j = tm g k → tm g j = tm h j;
  pr_terms (j : nat) : 0 <= tm h j;
  pr_ack m : matchIndex rf !! q = Some m → tm g (Z.to_nat m) = currentTerm rf →
    agrees (Z.to_nat m) h g
}.

Lemma lookup_go_nth {A} (l : list A) (q : nat) x : l !! q = Some x → go_nth l (Z.of_nat q) = Some x.
Proof. by rewrite go_nth_nat. Qed.

(** The log of the follower starts with a committed entry of the leader. *)
Lemma pair_start q g h rf rg :
  pair q g h rf rg → lastIncludedIndex rg <= len g ∧
  tm h (Z.to_nat (lastIncludedIndex rg)) = tm g (Z.to_nat (lastIncludedIndex rg)).
Proof.
  intros Hp. pose proof (pr_wf' _ _ _ _ _ Hp) as Hw.
  pose proof (wf_applied _ Hw). pose proof (wf_commit _ Hw). pose proof (wf_lii _ Hw).
  pose proof (pr_commit _ _ _ _ _ Hp) as Hc. split.
  - apply agrees_length_r in Hc. lia.
  - eapply agrees_tm; [exact Hc|lia].
Qed.

(** ** The request *)

Lemma send_snapshot q n rf :
  role rf = Leader → nextIndex rf !! q = Some n → n <= lastIncludedIndex rf →
  ∃ args, sendAppendEntriesToPeer (Z.of_nat q) (currentTerm rf) rf = Some (SendSnapshot args).
Proof.
  intros Hr Hn Hle. unfold sendAppendEntriesToPeer.
  rewrite bool_decide_eq_false_2, Z.eqb_refl by (by rewrite Hr; intros []). cbn [orb negb].
  rewrite (lookup_go_nth _ _ _ Hn). obind. rewrite (proj2 (Z.leb_le _ _)) by lia. eauto.
Qed.

Lemma send_append q n g rf action :
  role rf = Leader → repr g rf → nextIndex rf !! q = Some n → lastIncludedIndex rf < n →
  sendAppendEntriesToPeer (Z.of_nat q) (currentTerm rf) rf = Some action →
  n <= len g + 1 ∧
  ∃ args, action = SendAppend args ∧ ae_Term args = currentTerm rf ∧
    ae_PrevLogIndex args = n - 1 ∧ ae_PrevLogTerm args = tm g (Z.to_nat (n - 1)) ∧
    n - 1 + len (ae_Entries args) = lastLogIndex rf ∧ ae_LeaderCommit args = commitIndex rf.
Proof.
  intros Hr Hg Hn Hlt H. unfold sendAppendEntriesToPeer in H.
  rewrite bool_decide_eq_false_2, Z.eqb_refl in H by (by rewrite Hr; intros []). cbn [orb negb] in H.
  rewrite (lookup_go_nth _ _ _ Hn) in H. cbn [mbind option_bind] in H.
  rewrite (proj2 (Z.leb_gt _ _)) in H by lia.
  apply bind_Some in H as (pe & Hpe & H). apply bind_Some in H as (es & Hes & [= <-]).
  apply (repr_logAt_Some g) in Hpe as [Hrange Hpt]; [|done].
  apply go_from_Some in Hes as [Hle ->]. unfold getRelativeIndex in *.
  split; [lia|]. eexists. split; [done|]. cbn. split_and!; try done.
  rewrite length_drop. unfold lastLogIndex. lia.
Qed.

(** ** The reply *)

Lemma AppendEntries_term now args rg rg' r :
  currentTerm rg <= ae_Term args → AppendEntries now args rg = Some (rg', r) →
  aer_Term r = ae_Term args.
Proof.
  intros HT H. unfold AppendEntries in H. rewrite (proj2 (Z.ltb_ge _ _)) in H by lia.
  cbv zeta in H. pose proof (term_recognize now _ _ HT) as Hre.
  generalize dependent (set_lastHeartbeat now (recognizeLeader (ae_Term args) rg)).
  intros rf1 H Hre. raft_case; try done. simpl.
  match goal with H : appendLoop _ _ _ _ = _ |- _ =>
    apply appendLoop_frame in H as (_ & _ & _ & _ & Hc) end.
  rewrite <-Hre, <-Hc. unfold followCommit. repeat split_if; by rsimpl.
Qed.

(** A successful reply is recorded, and commits what a majority has. *)
Lemma appendReply_records q args reply rf rf' :
  wf rf → role rf = Leader → (q < npeers rf)%nat → aer_Term reply <= currentTerm rf →
  aer_Success reply = true →
  handleAppendEntriesReply (Z.of_nat q) (currentTerm rf) args reply rf = Some rf' →
  ∃ c, let m := ae_PrevLogIndex args + len (ae_Entries args) in
    rf' = set_commitIndex c (set_nextIndex (<[q := m + 1]> (nextIndex rf))
            (set_matchIndex (<[q := m]> (matchIndex rf)) rf)) ∧
    commitIndex rf <= c ∧
    (majority_holds rf' (lastLogIndex rf) →
     Term <$> logAt rf (lastLogIndex rf) = Some (currentTerm rf) → lastLogIndex rf <= c).
Proof.
  intros Hw Hr Hq HT Hs H. unfold handleAppendEntriesReply in H.
  rewrite bool_decide_eq_false_2, Z.eqb_refl in H by (by rewrite Hr; intros []). cbn [orb negb] in H.
  rewrite (proj2 (Z.ltb_ge _ _)), Hs in H by lia. cbv zeta in H.
  rewrite !go_set_ok in H by (rewrite ?(wf_match _ Hw), ?(wf_next _ Hw); lia).
  cbn [mbind option_bind] in H. rewrite Nat2Z.id in H.
  set (rf1 := set_nextIndex _ _) in *.
  assert (wf rf1) as Hw1.
  { apply (indices_evolves rf); rewrite ?length_insert; done. }
  unfold updateCommitIndex in H.
  destruct (updateCommitLoop_spec (Z.to_nat (lastLogIndex rf1 - commitIndex rf1))
    (lastLogIndex rf1) rf1 Hw1) as (c & Hc & Hcase & HM); [lia|lia|].
  rewrite Hc in H. injection H as <-. exists c. split; [done|].
  change (commitIndex rf1) with (commitIndex rf) in *.
  change (lastLogIndex rf1) with (lastLogIndex rf) in *.
  split; [destruct Hcase as [->|Hcase]; lia|]. intros Hmaj Hlast.
  destruct (decide (lastLogIndex rf <= c)) as [|Hlt]; [done|].
  destruct (HM (lastLogIndex rf)) as [Hno|(M' & e & HM' & He & Hne)]; [lia|by destruct Hno|].
  assert (M' = lastLogIndex rf) as -> by lia.
  change (logAt rf1 (lastLogIndex rf)) with (logAt rf (lastLogIndex rf)) in He.
  rewrite He in Hlast. simpl in Hlast. by injection Hlast.
Qed.

(** ** What an exchange changes *)

(** The leader stays, with its log; only its indices of [q] may change. *)
Record traded (q : nat) rf rg rf' rg' : Prop := mkTraded {
  td_role : role rf' = Leader;
  td_term : currentTerm rf' = currentTerm rf;
  td_log : same_log rf rf';
  td_applied : lastApplied rf' = lastApplied rf;
  td_commit : commitIndex rf <= commitIndex rf';
  td_next (k : nat) : k ≠ q → nextIndex rf' !! k = nextIndex rf !! k;
  td_match (k : nat) : k ≠ q → matchIndex rf' !! k = matchIndex rf !! k;
  td_peer : currentTerm rg' = currentTerm rf;
  td_peer_lii : lastIncludedIndex rg <= lastIncludedIndex rg';
  td_peer_applied : lastApplied rg' <= Z.max (lastApplied rg) (lastIncludedIndex rf)
}.

Definition caught_up (q : nat) rf : Prop :=
  nextIndex rf !! q = Some (lastLogIndex rf + 1) ∧ matchIndex rf !! q = Some (lastLogIndex rf).

(** The follower has taken all the leader has, and knows what is committed. *)
Record replicated (q : nat) rf rf' rg' : Prop := mkReplicated {
  rp_caught : caught_up q rf';
  rp_known : Z.min (commitIndex rf) (lastLogIndex rf) <= commitIndex rg';
  rp_commit : majority_holds rf' (lastLogIndex rf) →
    Term <$> logAt rf (lastLogIndex rf) = Some (currentTerm rf) →
    lastLogIndex rf <= commitIndex rf'
}.

(** A snapshot that a follower has is recorded as matched. *)
Lemma snapshotReply_records q args reply m rf rf' :
  wf rf → role rf = Leader → (q < npeers rf)%nat → isr_Term reply <= currentTerm rf →
  matchIndex rf !! q = Some m →
  handleInstallSnapshotReply (Z.of_nat q) (currentTerm rf) args reply rf = Some rf' →
  ∃ mi, let m' := Z.max m (is_LastIncludedIndex args) in
    mi !! q = Some m' ∧ (∀ k, k ≠ q → mi !! k = matchIndex rf !! k) ∧
    rf' = set_nextIndex (<[q := m' + 1]> (nextIndex rf)) (set_matchIndex mi rf).
Proof.
  intros Hw Hr Hq HT Hm Hh. unfold handleInstallSnapshotReply in Hh.
  rewrite bool_decide_eq_false_2, Z.eqb_refl in Hh by (by rewrite Hr; intros []).
  cbn [orb negb] in Hh. rewrite (proj2 (Z.ltb_ge _ _)) in Hh by lia.
  rewrite (lookup_go_nth _ _ _ Hm) in Hh. cbn [mbind option_bind] in Hh.
  assert (∃ mi, mi !! q = Some (Z.max m (is_LastIncludedIndex args)) ∧
    (∀ k, k ≠ q → mi !! k = matchIndex rf !! k) ∧
    (if m <? is_LastIncludedIndex args
     then go_set (matchIndex rf) (Z.of_nat q) (is_LastIncludedIndex args)
     else Some (matchIndex rf)) = Some mi) as (mi & Hmq & Hmk & Hmi).
  { destruct (m <? is_LastIncludedIndex args) eqn:Hlt; bool_to_prop.
    - rewrite go_set_ok, Nat2Z.id by (rewrite (wf_match _ Hw); lia).
      rewrite Z.max_r by lia. eexists. split; [|split; [|done]].
      + apply list_lookup_insert_eq. rewrite (wf_match _ Hw). lia.
      + intros k ?. by apply list_lookup_insert_ne.
    - rewrite Z.max_l by lia. by exists (matchIndex rf). }
  rewrite Hmi in Hh. cbn [mbind option_bind] in Hh. rewrite (lookup_go_nth _ _ _ Hmq) in Hh.
  cbn [mbind option_bind] in Hh.
  rewrite go_set_ok, Nat2Z.id in Hh by (rewrite (wf_next _ Hw); lia).
  cbn [mbind option_bind] in Hh. injection Hh as <-. by exists mi.
Qed.

Lemma snapshot_exchange q g h now args reply msg m rf rg rf' rg' :
  pair q g h rf rg → matchIndex rf !! q = Some m →
  sendAppendEntriesToPeer (Z.of_nat q) (currentTerm rf) rf = Some (SendSnapshot args) →
  InstallSnapshot now args rg = Some (rg', reply, msg) →
  handleInstallSnapshotReply (Z.of_nat q) (is_Term args) args reply rf = Some rf' →
  traded q rf rg rf' rg' ∧
  nextIndex rf' !! q = Some (Z.max m (lastIncludedIndex rf) + 1) ∧
  lastIncludedIndex rf <= lastIncludedIndex rg'.
Proof.
  intros Hp Hm Hs Hi Hh. pose proof (pr_wf _ _ _ _ _ Hp) as Hw. pose proof (pr_range _ _ _ _ _ Hp).
  pose proof (pr_term _ _ _ _ _ Hp) as HT. apply send_snap_args in Hs.
  assert (is_Term args = currentTerm rf ∧ is_LastIncludedIndex args = lastIncludedIndex rf)
    as [Ht Hl] by (by rewrite Hs). clear Hs. rewrite <-Ht in HT.
  pose proof (InstallSnapshot_evolves _ _ _ _ _ _ Hi) as Hev.
  pose proof (InstallSnapshot_reply _ _ _ _ _ _ Hi) as Hrt.
  destruct (InstallSnapshot_dead _ _ _ _ _ _ Hi) as [_ Happ].
  destruct (InstallSnapshot_follows _ _ _ _ _ _ HT Hi) as [Hf _]. rewrite Ht in Hh, Hf.
  apply (snapshotReply_records _ _ _ m) in Hh as (mi & Hmq & Hmk & ->);
    [|done|apply Hp|done|lia|done].
  rewrite Hl in *. split; [|split].
  - split; simpl; try done; [apply Hp| |apply Hf|apply Hev].
    intros k ?. by apply list_lookup_insert_ne.
  - simpl. apply list_lookup_insert_eq. rewrite (wf_next _ Hw). lia.
  - destruct (decide (lastIncludedIndex rf <= lastIncludedIndex rg)) as [|Hlt].
    + etrans; [done|apply Hev].
    + pose proof (InstallSnapshot_result _ _ _ _ _ _ HT ltac:(lia) Hi) as (Hr & _). lia.
Qed.

(** ** AppendEntries *)

Section Append.
Context (q : nat) (n m : Z) (g h : list (LogEntry cmd)) (rf rg rf' rg' : Raft cmd).
Context (now : Z) (args : AppendEntriesArgs cmd) (reply : AppendEntriesReply).
Context (Hp : pair q g h rf rg).
Context (Hn : nextIndex rf !! q = Some n) (Hlt : lastIncludedIndex rf < n).
Context (Hs : sendAppendEntriesToPeer (Z.of_nat q) (currentTerm rf) rf = Some (SendAppend args)).
Context (Ha : AppendEntries now args rg = Some (rg', reply)).
Context (Hh : handleAppendEntriesReply (Z.of_nat q) (ae_Term args) args reply rf = Some rf').

Lemma append_args :
  n <= len g + 1 ∧ ae_Term args = currentTerm rf ∧ ae_PrevLogIndex args = n - 1 ∧
  ae_PrevLogTerm args = tm g (Z.to_nat (n - 1)) ∧
  n - 1 + len (ae_Entries args) = lastLogIndex rf ∧ ae_LeaderCommit args = commitIndex rf.
Proof.
  destruct (send_append q n g rf _ (pr_leads _ _ _ _ _ Hp) (pr_repr _ _ _ _ _ Hp) Hn Hlt Hs)
    as (H & args' & [= <-] & Hrest). done.
Qed.

Lemma append_peer :
  currentTerm rg <= ae_Term args ∧ currentTerm rg' = currentTerm rf ∧
  aer_Term reply = currentTerm rf ∧ lastIncludedIndex rg' = lastIncludedIndex rg ∧
  lastApplied rg' = lastApplied rg.
Proof.
  destruct append_args as (_ & HT & _). pose proof (pr_term _ _ _ _ _ Hp) as Ht.
  rewrite <-HT in Ht. destruct (AppendEntries_follows _ _ _ _ _ Ht Ha) as [Hf Hlii].
  destruct (AppendEntries_dead _ _ _ _ _ Ha) as [_ Happ].
  rewrite (f_term _ _ _ Hf), (AppendEntries_term _ _ _ _ _ Ht Ha). done.
Qed.

Lemma append_accepted : aer_Success reply = true → traded q rf rg rf' rg' ∧ replicated q rf rf' rg'.
Proof.
  intros Hsuc. destruct append_args as (_ & HT & Hprev & _ & Hlen & Hcommit).
  destruct append_peer as (_ & Ht' & Hrt & Hlii & Happ). pose proof (pr_wf _ _ _ _ _ Hp) as Hw.
  destruct (AppendEntries_result _ _ _ _ _ (pr_wf' _ _ _ _ _ Hp) Ha) as (_ & Hok & _).
  destruct (Hok Hsuc) as (_ & _ & _ & Hci). rewrite Hprev, Hlen, Hcommit in Hci.
  rewrite HT in Hh. pose proof (pr_range _ _ _ _ _ Hp) as Hq.
  destruct (appendReply_records q args reply rf rf') as (c & -> & Hc & Hmaj);
    [done|apply Hp|done|lia|done|done|].
  rewrite Hprev, Hlen in *. split.
  - split; simpl; try done; [apply Hp| | |lia..]; intros k ?; by apply list_lookup_insert_ne.
  - split; simpl; [|lia|exact Hmaj]. split; simpl; apply list_lookup_insert_eq.
    + rewrite (wf_next _ Hw). lia.
    + rewrite (wf_match _ Hw). lia.
Qed.

(** The search goes back, or to the first entry the follower still has. *)
Lemma append_rejected :
  aer_Success reply = false →
  traded q rf rg rf' rg' ∧ matchIndex rf' = matchIndex rf ∧
  lastIncludedIndex rg' = lastIncludedIndex rg ∧
  ∃ n', nextIndex rf' !! q = Some n' ∧
    (n - 1 < lastIncludedIndex rg ∧ n' = lastIncludedIndex rg + 1 ∨
     lastIncludedIndex rg < n - 1 ∧ n' < n).
Proof.
  intros Hsuc. destruct append_args as (Hnl & HT & Hprev & Hpt & _).
  destruct append_peer as (Ht & Ht' & Hrt & Hlii & Happ). pose proof (pr_wf _ _ _ _ _ Hp) as Hw.
  pose proof (pr_range _ _ _ _ _ Hp) as Hq. pose proof (pr_wf' _ _ _ _ _ Hp) as Hwg.
  pose proof (pr_repr _ _ _ _ _ Hp) as Hg. pose proof (pr_repr' _ _ _ _ _ Hp) as Hgh.
  destruct (pair_start _ _ _ _ _ Hp) as [Hfg Hft].
  destruct (AppendEntries_rejects _ _ _ _ _ Hwg Ht Ha Hsuc) as (_ & _ & _ & Hcase).
  rewrite HT in Hh.
  destruct (leader_backs_up (Z.of_nat q) args reply rf rf' Hw) as (n' & -> & Hneg & Hpos);
    [apply Hp|lia|lia|done|done|].
  rewrite Nat2Z.id. split; [|split; [done|split; [done|]]].
  { split; simpl; try done; [apply Hp| |lia..]. intros k ?. by apply list_lookup_insert_ne. }
  exists n'. split; [simpl; apply list_lookup_insert_eq; rewrite (wf_next _ Hw); lia|].
  rewrite Hprev in Hcase. destruct Hcase as [(H1 & H2 & H3)|[(H1 & H2 & H3)|(H1 & H2 & H3 & H4 & _)]].
  - left. rewrite (Hneg H2). lia.
  - right. rewrite (Hneg H2). pose proof (repr_last _ _ Hgh). destruct Hgh as [Hr _]. lia.
  - right. pose proof (H4 (n - 1) ltac:(lia)) as Hct. rewrite (repr_last _ _ Hgh) in H1.
    rewrite (repr_term h rg) in Hct by (done || lia). injection Hct as Hct.
    pose proof (wf_lii _ Hwg).
    assert (lastIncludedIndex rg ≠ n - 1) as Hne by (intros Heq; rewrite Heq in Hft; congruence).
    split; [lia|]. destruct Hpos as [[-> _]|(Hk1 & Hk2 & _)]; [|lia|].
    { pose proof (pr_terms _ _ _ _ _ Hp (Z.to_nat (n - 1))). lia. }
    destruct (decide (n' < n)) as [|Hge]; [done|].
    apply fmap_Some in Hk2 as (e & He & Hte). apply (repr_logAt_Some g) in He as [Hr He]; [|done].
    assert (tm g (Z.to_nat (n - 1)) = tm h (Z.to_nat (n - 1))) as Hbad.
    { apply (pr_matching _ _ _ _ _ Hp _ (Z.to_nat (n' - 1))); [lia|lia|congruence]. }
    congruence.
Qed.

(** It succeeds where the logs are known to agree. *)
Lemma append_matched :
  matchIndex rf !! q = Some (n - 1) → tm g (Z.to_nat (n - 1)) = currentTerm rf →
  lastIncludedIndex rg <= n - 1 → aer_Success reply = true.
Proof.
  intros Hm Htm Hle. destruct append_args as (Hnl & HT & Hprev & Hpt & _).
  destruct append_peer as (Ht & _). pose proof (pr_repr' _ _ _ _ _ Hp) as Hgh.
  pose proof (pr_ack _ _ _ _ _ Hp _ Hm Htm) as Hagree.
  apply (AppendEntries_result _ _ _ _ _ (pr_wf' _ _ _ _ _ Hp) Ha). split; [done|].
  pose proof (agrees_length_l _ _ _ Hagree). unfold prevMatches.
  pose proof (wf_lii _ (pr_wf' _ _ _ _ _ Hp)).
  rewrite Hprev, Hpt, (repr_last _ _ Hgh). split; [lia|].
  rewrite (repr_term h rg) by (done || lia). f_equal. by eapply agrees_tm.
Qed.

End Append.

End Pair.

(** ** A leader brings a follower up to date *)

Section Progress.
Context {cmd : Type} `{!Gob (RaftVal cmd)} `{!GobRegistered (RaftVal cmd)}.
Context (N : nat) (Q : gset nat) (HQ : ∀ q, q ∈ Q → (q < N)%nat).
Implicit Types c : Cluster (cmd:=cmd).
Implicit Types rf rg : Raft cmd.

(** Server [i] leads [Q]. *)
Record leading (i : nat) c : Prop := mkLeading {
  ld_live : live N c;
  ld_role : role (servers c i) = Leader;
  ld_terms q : q ∈ Q → currentTerm (servers c q) <= currentTerm (servers c i)
}.

Lemma log_ok_terms A T (h : list (LogEntry cmd)) (j : nat) :
  log_ok A T h → (0 < j <= length h)%nat →
  ∃ t, tm h j = t ∧ 0 < t ∧ agrees j h (p_ll A t).
Proof.
  intros Hok Hj. destruct j as [|j]; [lia|].
  destruct (lookup_lt_is_Some_2 h j) as [e He]; [lia|].
  destruct (Hok j e He) as (HT & _ & Hag). exists (Term e). split; [by apply tm_lookup|]. split; [lia|done].
Qed.

Lemma log_ok_matching A T T' (g h : list (LogEntry cmd)) (j k : nat) :
  log_ok A T g → log_ok A T' h → (j <= k <= length g)%nat → (j <= length h)%nat →
  tm h j = tm g k → tm g j = tm h j.
Proof.
  intros Hg Hh Hjk Hjh Heq. destruct j as [|j]; [done|].
  destruct (log_ok_terms _ _ _ (S j) Hh) as (t & Ht & _ & Hag); [lia|].
  destruct (log_ok_terms _ _ _ k Hg) as (t' & Ht' & _ & Hag'); [lia|].
  assert (t' = t) as -> by congruence.
  rewrite (agrees_tm _ _ _ (S j) Hag), (agrees_tm _ _ _ (S j) Hag'); [done|lia|lia].
Qed.

Lemma pair_of i q c : leading i c → q ∈ Q → ∃ g h, pair q g h (servers c i) (servers c q).
Proof.
  intros Hld Hq. destruct (lv_cinv _ _ (ld_live _ _ Hld)) as [A Hci].
  pose proof (ci_proto _ _ _ Hci) as Hpi.
  destruct (leader_args N A c i Hci (ld_role _ _ Hld)) as (Hel & Hg & _).
  destruct (live_node N c i (ld_live _ _ Hld)) as (Hw & Hn & _).
  destruct (live_node N c q (ld_live _ _ Hld)) as (Hwq & _).
  destruct (ci_node _ _ _ Hci q) as [HTq Hh _ _ Hcov].
  pose proof (ld_terms _ _ Hld q Hq) as Hle.
  exists (p_ll A (currentTerm (servers c i))), (p_log A q).
  split; [done|apply Hld|done|rewrite Hn; auto|done|done|done|..].
  - by eapply covered_leader.
  - intros j k. eapply log_ok_matching; [by apply (ll_ok N)|apply Hpi].
  - intros j. destruct (decide (0 < j <= length (p_log A q))%nat) as [Hj|Hj].
    + destruct (log_ok_terms _ _ _ j (pi_log _ _ Hpi q) Hj) as (t & -> & ? & _). lia.
    + destruct j as [|j]; [done|]. simpl. by rewrite lookup_ge_None_2 by lia.
  - intros m Hm Htm. destruct (ci_node _ _ _ Hci i) as [_ _ H3 _ _].
    destruct (H3 (ld_role _ _ Hld)) as (_ & _ & _ & Hmatch & _). specialize (Hmatch _ _ Hm).
    pose proof (elected_pos N A _ Hpi Hel) as Hpos.
    assert (0 < Z.to_nat m)%nat as Hm0 by (destruct (Z.to_nat m); [simpl in Htm; lia|lia]).
    destruct (pi_ack _ _ Hpi (currentTerm (servers c i)) q) as (_ & Hge & _); [lia|].
    symmetry. apply (pi_kept _ _ Hpi q (currentTerm (servers c i))); [done|lia|done|].
    intros T' HT'. lia.
Qed.

(** Exchanges of [i] with [q]. *)
Record trades (i q : nat) c c' : Prop := mkTrades {
  tr_runs : runs_among N Q c c';
  tr_only : pair_only i q c c';
  tr_leading : leading i c';
  tr_traded : traded q (servers c i) (servers c q) (servers c' i) (servers c' q)
}.

Lemma traded_trans q rf1 rf2 rf3 rg1 rg2 rg3 :
  traded q rf1 rg1 rf2 rg2 → traded q rf2 rg2 rf3 rg3 → traded q rf1 rg1 rf3 rg3.
Proof.
  intros [] []. pose proof td_log0 as [Hl Hi]. split; try congruence; try lia.
  - by etrans.
  - intros k ?. rewrite td_next1; auto.
  - intros k ?. rewrite td_match1; auto.
Qed.

#[export] Instance trades_trans i q : Transitive (trades i q).
Proof.
  intros c1 c2 c3 [Hr1 [Hi1 Ho1] _ Ht1] [Hr2 [Hi2 Ho2] Hl2 Ht2]. split; [by etrans| |done|].
  - split; [congruence|]. intros j ??. rewrite Ho2, Ho1; done.
  - by eapply traded_trans.
Qed.

Lemma replicated_before q rf1 rf2 rf3 rg1 rg2 rg3 :
  traded q rf1 rg1 rf2 rg2 → replicated q rf2 rf3 rg3 → replicated q rf1 rf3 rg3.
Proof.
  intros Ht [H1 H2 H3]. destruct (same_log_last _ _ (td_log _ _ _ _ _ Ht)) as [Hi _].
  pose proof (td_commit _ _ _ _ _ Ht). rewrite Hi in *. split; [done|lia|].
  intros Hm Hlast. apply H3; [done|]. rewrite (td_term _ _ _ _ _ Ht), <-Hlast.
  destruct (td_log _ _ _ _ _ Ht) as [Hl Hli]. unfold logAt, getRelativeIndex. by rewrite Hl, Hli.
Qed.

(** What one exchange achieves. *)
Lemma trade i q c n m :
  leading i c → i ∈ Q → q ∈ Q → q ≠ i →
  nextIndex (servers c i) !! q = Some n → matchIndex (servers c i) !! q = Some m →
  ∃ c', trades i q c c' ∧
    let rf := servers c i in let rg := servers c q in
    let rf' := servers c' i in let rg' := servers c' q in
    (n <= lastIncludedIndex rf ∧ nextIndex rf' !! q = Some (Z.max m (lastIncludedIndex rf) + 1) ∧
       lastIncludedIndex rf <= lastIncludedIndex rg') ∨
    (lastIncludedIndex rf < n ∧ replicated q rf rf' rg') ∨
    (lastIncludedIndex rf < n ∧ matchIndex rf' = matchIndex rf ∧
       lastIncludedIndex rg' = lastIncludedIndex rg ∧
       ¬ (m = n - 1 ∧ n - 1 = lastLogIndex rf ∧
          Term <$> logAt rf (lastLogIndex rf) = Some (currentTerm rf)) ∧
       ∃ n', nextIndex rf' !! q = Some n' ∧
         (n - 1 < lastIncludedIndex rg ∧ n' = lastIncludedIndex rg + 1 ∨
          lastIncludedIndex rg < n - 1 ∧ n' < n)).
Proof.
  intros Hld Hi Hq Hqi Hn Hm. destruct (pair_of i q c Hld Hq) as (g & h & Hp).
  destruct (exchange_run N Q HQ c i q (ld_live _ _ Hld) Hi Hq Hqi (ld_role _ _ Hld))
    as (c' & Hrun & Ho & He).
  pose proof (runs_live N Q c c' (ld_live _ _ Hld) Hrun) as Hl'.
  assert (traded q (servers c i) (servers c q) (servers c' i) (servers c' q) → trades i q c c')
    as Htrades.
  { intros Ht. split; [done|done| |done]. split; [done|apply Ht|]. intros q' Hq'.
    rewrite (td_term _ _ _ _ _ Ht). destruct (decide (q' = i)) as [->|Hne].
    { rewrite (td_term _ _ _ _ _ Ht). lia. }
    destruct (decide (q' = q)) as [->|Hne'].
    - rewrite (td_peer _ _ _ _ _ Ht). lia.
    - rewrite (proj2 Ho q' Hne Hne'). by apply Hld. }
  exists c'. destruct (decide (n <= lastIncludedIndex (servers c i))) as [Hle|Hgt].
  - destruct (send_snapshot q n _ (ld_role _ _ Hld) Hn Hle) as [args0 Hs0].
    destruct He as [now args reply msg Hs Hinst Hh|now args reply Hs Ha Hh]; [|congruence].
    destruct (snapshot_exchange q g h now args reply msg m _ _ _ _ Hp Hm Hs Hinst Hh) as (Ht & ? & ?).
    split; [by apply Htrades|]. by left.
  - assert (lastIncludedIndex (servers c i) < n) as Hlt by lia.
    destruct He as [now args reply msg Hs Hinst Hh|now args reply Hs Ha Hh].
    { by destruct (send_append q n g _ _ (ld_role _ _ Hld) (pr_repr _ _ _ _ _ Hp) Hn Hlt Hs)
        as (_ & ? & ? & _). }
    destruct (aer_Success reply) eqn:Hsuc.
    { destruct (append_accepted q n g h _ _ _ _ now args reply Hp Hn Hlt Hs Ha Hh Hsuc) as [Ht Hrep].
      split; [by apply Htrades|]. right. by left. }
    destruct (append_rejected q n g h _ _ _ _ now args reply Hp Hn Hlt Hs Ha Hh Hsuc)
      as (Ht & Hmi & Hlii & Hcase).
    split; [by apply Htrades|]. right. right. do 3 (split; [done|]). split; [|done].
    intros (-> & Hlast & Hterm). destruct (pair_start _ _ _ _ _ Hp) as [Hfg _].
    pose proof (repr_last _ _ (pr_repr _ _ _ _ _ Hp)) as Hll.
    rewrite (repr_term g) in Hterm; [|apply Hp|destruct (pr_repr _ _ _ _ _ Hp) as [Hr _]; lia].
    rewrite (append_matched q n g h _ _ _ now args reply Hp Hn Hlt Hs Ha) in Hsuc; [done|done| |lia].
    rewrite Hlast. by injection Hterm.
Qed.

(** ** The search ends *)

Definition caught (i q : nat) c c' : Prop :=
  trades i q c c' ∧ replicated q (servers c i) (servers c' i) (servers c' q).

Lemma caught_after i q c c1 c' : trades i q c c1 → caught i q c1 c' → caught i q c c'.
Proof.
  intros Ht [Ht' Hr]. split; [by etrans|]. eapply replicated_before; [apply Ht|done].
Qed.

Lemma trades_lii i q c c1 :
  trades i q c c1 → lastIncludedIndex (servers c1 i) = lastIncludedIndex (servers c i).
Proof. intros Ht. apply (td_log _ _ _ _ _ (tr_traded _ _ _ _ Ht)). Qed.

Lemma peer_indices i q c :
  leading i c → q ∈ Q → ∃ n m, nextIndex (servers c i) !! q = Some n ∧
                             matchIndex (servers c i) !! q = Some m.
Proof.
  intros Hld Hq. destruct (live_node N c i (ld_live _ _ Hld)) as (Hw & Hn & _).
  specialize (HQ q Hq).
  destruct (lookup_lt_is_Some_2 (nextIndex (servers c i)) q) as [n ?];
    [rewrite (wf_next _ Hw); lia|].
  destruct (lookup_lt_is_Some_2 (matchIndex (servers c i)) q) as [m ?];
    [rewrite (wf_match _ Hw); lia|]. by exists n, m.
Qed.

(** From the first entry that the follower still has, or before: two exchanges
    at most. *)
Lemma catch_low i q c n :
  leading i c → i ∈ Q → q ∈ Q → q ≠ i → nextIndex (servers c i) !! q = Some n →
  lastIncludedIndex (servers c i) < n -> n - 1 <= lastIncludedIndex (servers c q) →
  ∃ c', caught i q c c'.
Proof.
  intros Hld Hi Hq Hqi Hn Hlt Hlow. destruct (peer_indices i q c Hld Hq) as (? & m & _ & Hm).
  destruct (trade i q c n m Hld Hi Hq Hqi Hn Hm) as
    (c1 & Ht & [(? & _)|[(_ & Hrep)|(_ & _ & Hlii & _ & n' & Hn' & Hcase)]]); [lia|by exists c1|].
  pose proof (trades_lii _ _ _ _ Ht) as Hl1. destruct Hcase as [[H1 ->]|[]]; [|lia].
  pose proof (tr_leading _ _ _ _ Ht) as Hld1.
  destruct (peer_indices i q c1 Hld1 Hq) as (? & m1 & _ & Hm1).
  destruct (trade i q c1 _ m1 Hld1 Hi Hq Hqi Hn' Hm1) as
    (c2 & Ht2 & [(? & _)|[(_ & Hrep)|(_ & _ & _ & _ & n2 & _ & Hcase)]]); [lia| |lia].
  exists c2. by eapply caught_after.
Qed.

Lemma catch_up i q : i ∈ Q → q ∈ Q → q ≠ i → ∀ k c n m,
  Z.to_nat n = k → leading i c → nextIndex (servers c i) !! q = Some n →
  matchIndex (servers c i) !! q = Some m → m <= lastIncludedIndex (servers c i) →
  ∃ c', caught i q c c'.
Proof.
  intros Hi Hq Hqi k. induction k as [k IH] using lt_wf_ind. intros c n m Hk Hld Hn Hm Hle.
  destruct (live_node N c i (ld_live _ _ Hld)) as (Hw & _). pose proof (wf_lii _ Hw).
  destruct (trade i q c n m Hld Hi Hq Hqi Hn Hm) as
    (c1 & Ht & [(Hn1 & Hn' & Hlow)|[(_ & Hrep)|(Hlt & Hmi & Hlii & _ & n' & Hn' & Hcase)]]);
    [|by exists c1|]; pose proof (tr_leading _ _ _ _ Ht) as Hld1;
    pose proof (trades_lii _ _ _ _ Ht) as Hl1.
  - destruct (catch_low i q c1 _ Hld1 Hi Hq Hqi Hn') as [c' Hc']; [lia|lia|].
    exists c'. by eapply caught_after.
  - destruct Hcase as [[H1 ->]|[H1 H2]].
    + destruct (catch_low i q c1 _ Hld1 Hi Hq Hqi Hn') as [c' Hc']; [lia|lia|].
      exists c'. by eapply caught_after.
    + destruct (IH (Z.to_nat n')) with (c := c1) (n := n') (m := m) as [c' Hc'];
        [lia|done|done|done|by rewrite Hmi|lia|]. exists c'. by eapply caught_after.
Qed.

(** ** All the followers *)

(** The leader and its followers after some exchanges: only servers of [Q] have
    moved, and the indices of the followers outside [qs] are as they were. *)
Record served (i : nat) (qs : list nat) c c' : Prop := mkServed {
  sv_runs : runs_among N Q c c';
  sv_leading : leading i c';
  sv_term : currentTerm (servers c' i) = currentTerm (servers c i);
  sv_log : same_log (servers c i) (servers c' i);
  sv_commit : commitIndex (servers c i) <= commitIndex (servers c' i);
  sv_indices q : q ∉ qs → nextIndex (servers c' i) !! q = nextIndex (servers c i) !! q ∧
                          matchIndex (servers c' i) !! q = matchIndex (servers c i) !! q;
  sv_others j : j ≠ i → j ∉ qs → servers c' j = servers c j;
  sv_applied j : lastApplied (servers c' j) <=
                 Z.max (lastApplied (servers c j)) (lastIncludedIndex (servers c i))
}.

Lemma served_refl i c : leading i c → served i [] c c.
Proof. intros Hld. split; try done; lia. Qed.

Lemma trades_served i q c c' : trades i q c c' → q ≠ i → served i [q] c c'.
Proof.
  intros [Hr [_ Ho] Hld []] Hqi. split; try done.
  - intros k Hk. rewrite list_elem_of_singleton in Hk. auto.
  - intros j Hj Hj'. rewrite list_elem_of_singleton in Hj'. auto.
  - intros j. destruct (decide (j = i)) as [->|]; [lia|].
    destruct (decide (j = q)) as [->|]; [done|]. rewrite Ho by done. lia.
Qed.

Lemma served_trans i qs qs' c1 c2 c3 :
  served i qs c1 c2 → served i qs' c2 c3 → served i (qs ++ qs') c1 c3.
Proof.
  intros H1 H2. destruct (sv_log _ _ _ _ H1) as [_ Hli].
  split.
  - etrans; [apply H1|apply H2].
  - apply H2.
  - by rewrite (sv_term _ _ _ _ H2), (sv_term _ _ _ _ H1).
  - etrans; [apply H1|apply H2].
  - etrans; [apply H1|apply H2].
  - intros q [Hq Hq']%not_elem_of_app. destruct (sv_indices _ _ _ _ H1 q Hq) as [<- <-].
    by apply H2.
  - intros j Hj [Hq Hq']%not_elem_of_app. by rewrite (sv_others _ _ _ _ H2), (sv_others _ _ _ _ H1).
  - intros j. pose proof (sv_applied _ _ _ _ H1 j). pose proof (sv_applied _ _ _ _ H2 j). lia.
Qed.

Lemma served_caught i qs c c' q :
  served i qs c c' → q ∉ qs → caught_up q (servers c i) → caught_up q (servers c' i).
Proof.
  intros Hs Hq [Hn Hm]. destruct (sv_indices _ _ _ _ Hs q Hq) as [H1 H2].
  unfold caught_up. rewrite H1, H2. by destruct (same_log_last _ _ (sv_log _ _ _ _ Hs)) as [-> _].
Qed.

(** The leader has an entry of its own term, and it is the last one. *)
Definition own_last rf : Prop :=
  Term <$> logAt rf (lastLogIndex rf) = Some (currentTerm rf).

Lemma own_last_same rf rf' :
  same_log rf rf' → currentTerm rf' = currentTerm rf → own_last rf → own_last rf'.
Proof.
  intros Hs HT. unfold own_last, logAt, getRelativeIndex.
  destruct (same_log_last _ _ Hs) as [-> _]. destruct Hs as [-> ->]. by rewrite HT.
Qed.

Lemma catch_all i qs : i ∈ Q → ∀ c,
  NoDup qs → (∀ q, q ∈ qs → q ∈ Q ∧ q ≠ i) → leading i c → own_last (servers c i) →
  (∀ q m, q ∈ qs → matchIndex (servers c i) !! q = Some m → m <= lastIncludedIndex (servers c i)) →
  ∃ c', served i qs c c' ∧ (∀ q, q ∈ qs → caught_up q (servers c' i)) ∧
    (qs ≠ [] → majority_holds (servers c' i) (lastLogIndex (servers c i)) →
     lastLogIndex (servers c i) <= commitIndex (servers c' i)).
Proof.
  intros Hi. induction qs as [|q qs IH]; intros c Hnd Hqs Hld Hown Hm0.
  { exists c. split; [by apply served_refl|]. split; [by intros ? ?%elem_of_nil|done]. }
  apply list.NoDup_cons in Hnd as [Hq Hnd]. destruct (Hqs q) as [HqQ Hqi]; [set_solver|].
  destruct (peer_indices i q c Hld HqQ) as (n & m & Hn & Hm).
  destruct (catch_up i q Hi HqQ Hqi _ c n m eq_refl Hld Hn Hm) as (c1 & Ht & Hrep);
    [apply (Hm0 q); set_solver|].
  pose proof (trades_served _ _ _ _ Ht Hqi) as Hs1.
  destruct (same_log_last _ _ (sv_log _ _ _ _ Hs1)) as [Hlast _].
  assert (caught_up q (servers c1 i)) as Hc1 by apply Hrep.
  destruct qs as [|q' qs].
  { exists c1. split; [done|]. split; [by intros ? ->%list_elem_of_singleton|].
    intros _ Hmaj. by apply Hrep. }
  destruct (IH c1) as (c' & Hs2 & Hc & Hmaj).
  - done.
  - intros p Hp. apply Hqs. by apply list_elem_of_further.
  - apply Hs1.
  - eapply own_last_same; [apply Hs1|apply Hs1|done].
  - intros p mp Hp. rewrite (proj2 (sv_indices _ _ _ _ Hs1 p ltac:(set_solver))).
    rewrite (proj2 (sv_log _ _ _ _ Hs1)). apply Hm0. by apply list_elem_of_further.
  - exists c'. split; [by apply (served_trans i [q] _ c c1)|]. split.
    + intros p [->|Hp]%elem_of_cons; [by eapply served_caught|by apply Hc].
    + intros _. rewrite Hlast in Hmaj. by apply Hmaj.
Qed.

(** A second round tells the followers what is committed. *)
Lemma spread_all i qs : i ∈ Q → ∀ c,
  NoDup qs → (∀ q, q ∈ qs → q ∈ Q ∧ q ≠ i) → leading i c → own_last (servers c i) →
  (∀ q, q ∈ qs → caught_up q (servers c i)) →
  lastLogIndex (servers c i) <= commitIndex (servers c i) →
  ∃ c', served i qs c c' ∧
    ∀ q, q ∈ qs → lastLogIndex (servers c i) <= commitIndex (servers c' q).
Proof.
  intros Hi. induction qs as [|q qs IH]; intros c Hnd Hqs Hld Hown Hcu Hcom.
  { exists c. split; [by apply served_refl|]. by intros ? ?%elem_of_nil. }
  apply list.NoDup_cons in Hnd as [Hq Hnd]. destruct (Hqs q) as [HqQ Hqi]; [set_solver|].
  destruct (Hcu q) as [Hn Hm]; [set_solver|].
  destruct (live_node N c i (ld_live _ _ Hld)) as (Hw & _).
  pose proof (wf_log _ Hw) as Hlen.
  assert (lastIncludedIndex (servers c i) <= lastLogIndex (servers c i)) as Hll
    by (unfold lastLogIndex; lia).
  destruct (trade i q c _ _ Hld Hi HqQ Hqi Hn Hm) as
    (c1 & Ht & [(? & _)|[(_ & Hrep)|(_ & _ & _ & Hno & _)]]);
    [lia| |destruct Hno; split_and!; [lia|lia|done]].
  pose proof (trades_served _ _ _ _ Ht Hqi) as Hs1.
  destruct (same_log_last _ _ (sv_log _ _ _ _ Hs1)) as [Hlast _].
  destruct (IH c1) as (c' & Hs2 & Hc).
  - done.
  - intros p Hp. apply Hqs. by apply list_elem_of_further.
  - apply Hs1.
  - eapply own_last_same; [apply Hs1|apply Hs1|done].
  - intros p Hp. eapply served_caught; [done|set_solver|]. apply Hcu. by apply list_elem_of_further.
  - pose proof (sv_commit _ _ _ _ Hs1). lia.
  - exists c'. split; [by apply (served_trans i [q] _ c c1)|]. rewrite Hlast in Hc.
    intros p [->|Hp]%elem_of_cons; [|by apply Hc].
    rewrite (sv_others _ _ _ _ Hs2) by done. pose proof (rp_known _ _ _ _ Hrep). lia.
Qed.

(** The servers of [Q] are a majority. *)
Lemma caught_majority i c :
  live N c → i ∈ Q → Z.of_nat N / 2 < Z.of_nat (size Q) →
  (∀ q, q ∈ Q → q ≠ i → caught_up q (servers c i)) →
  majority_holds (servers c i) (lastLogIndex (servers c i)).
Proof.
  intros Hl Hi Hmaj Hc. destruct (live_node N c i Hl) as (_ & Hn & Hme).
  unfold majority_holds. rewrite Hn. rewrite (size_others Q i Hi) in Hmaj.
  assert (Z.of_nat <$> elements (Q ∖ {[i]}) ⊆+
          holders (servers c i) (lastLogIndex (servers c i))) as Hsub%submseteq_length.
  { apply NoDup_submseteq; [apply NoDup_fmap_2; [apply _|apply NoDup_elements]|].
    intros x (q & -> & Hq)%list_elem_of_fmap. assert (q ∈ Q ∧ q ≠ i) as [HqQ Hqi] by set_solver.
    destruct (Hc q HqQ Hqi) as [_ Hm]. unfold holders. apply list_elem_of_filter.
    rewrite Hme, go_nth_nat, Hm, elem_of_seqZ. simpl. specialize (HQ q HqQ). lia. }
  rewrite length_fmap in Hsub. lia.
Qed.

(** ** A command *)

Lemma Start_leader command rf :
  role rf = Leader → wf rf →
  ∃ rf', Start command rf = (rf', (lastLogIndex rf + 1, currentTerm rf, true), true) ∧
    role rf' = Leader ∧ currentTerm rf' = currentTerm rf ∧ lastLogIndex rf' = lastLogIndex rf + 1 ∧
    logAt rf' (lastLogIndex rf') = Some (mkLogEntry command (currentTerm rf)) ∧
    lastIncludedIndex rf' = lastIncludedIndex rf ∧ matchIndex rf' = matchIndex rf ∧
    lastApplied rf' = lastApplied rf.
Proof.
  intros Hr Hw. unfold Start. rewrite bool_decide_eq_false_2 by (by rewrite Hr; intros []).
  set (rf' := persist _). pose proof (wf_log _ Hw).
  assert (log rf' = log rf ++ [mkLogEntry command (currentTerm rf)]) as Hlog
    by (subst rf'; by rsimpl).
  assert (lastIncludedIndex rf' = lastIncludedIndex rf) as Hli by (subst rf'; by rsimpl).
  assert (lastLogIndex rf' = lastLogIndex rf + 1) as Hlast.
  { unfold lastLogIndex. rewrite Hlog, Hli, length_app. simpl. lia. }
  exists rf'. rewrite Hlast. assert (currentTerm rf' = currentTerm rf) as HT by (subst rf'; by rsimpl).
  rewrite HT. split; [done|]. split; [subst rf'; by rsimpl|]. split; [done|]. split; [done|].
  split; [|subst rf'; by rsimpl].
  unfold logAt, getRelativeIndex, lastLogIndex. rewrite Hlog, Hli.
  apply go_nth_lookup. split; [lia|].
  rewrite lookup_app_r by lia. by replace (_ - _)%nat with 0%nat by lia.
Qed.

(** What is committed and not yet applied is in the next batch. *)
Lemma applier_delivers c j k e :
  live N c → lastApplied (servers c j) < k <= commitIndex (servers c j) →
  logAt (servers c j) k = Some e →
  ∃ rf' msgs, applierStep (servers c j) = Some (rf', msgs) ∧ command_msg e k ∈ msgs.
Proof.
  intros Hl Hk He. destruct (lv_cinv _ _ Hl) as [A Hci]. destruct (live_node N c j Hl) as (Hw & _).
  assert (commitIndex (servers c j) <= lastLogIndex (servers c j)) as Hle.
  { destruct (ci_node _ _ _ Hci j) as [_ Hr _ _ Hcov]. rewrite (repr_last _ _ Hr).
    by eapply covered_len. }
  unfold applierStep, killed. rewrite (lv_dead _ _ Hl), (proj2 (Z.leb_gt _ _)) by lia.
  cbn [orb]. rewrite applierBatch_spec; [|apply Hw|done|pose proof (wf_commit _ Hw); lia].
  eexists _, _. split; [done|]. simpl. apply list_elem_of_fmap. exists k.
  unfold entryMsg. rewrite He. split; [done|]. apply elem_of_seqZ. lia.
Qed.

(** The command at [index] is the last entry of the leader [i], which has heard of
    nobody's log, and nobody has applied as much. *)
Record offered (i : nat) (index : Z) (e : LogEntry cmd) c : Prop := mkOffered {
  of_leading : leading i c;
  of_own : own_last (servers c i);
  of_last : lastLogIndex (servers c i) = index;
  of_entry : logAt (servers c i) index = Some e;
  of_match (k : nat) m : matchIndex (servers c i) !! k = Some m → m = 0;
  of_applied j : j ∈ Q → lastApplied (servers c j) < index
}.

Lemma start_offers c i command :
  leading i c → i ∈ Q → (∀ (k : nat) m, matchIndex (servers c i) !! k = Some m → m = 0) →
  let index := lastLogIndex (servers c i) + 1 in
  let term := currentTerm (servers c i) in
  ∃ c', lstep N applied_only c (EStart i command (index, term, true)) c' ∧
        offered i index (mkLogEntry command term) c'.
Proof.
  intros Hld Hi Hm0 index term. pose proof (ld_live _ _ Hld) as Hl.
  destruct (live_node N c i Hl) as (Hw & _).
  destruct (Start_leader command _ (ld_role _ _ Hld) Hw)
    as (rf' & Hst & Hr' & HT' & Hlast & Hentry & Hlii & Hmi & Happ).
  pose proof (s_start N applied_only c i command rf' _ _ (HQ i Hi) Hst) as Hs.
  set (c' := mkCluster _ _ _ _) in Hs. exists c'. split; [exact Hs|].
  assert (servers c' i = rf') as Hci by apply set_server_eq.
  assert (∀ j, j ≠ i → servers c' j = servers c j) as Hcj
    by (intros j ?; apply set_server_ne; congruence).
  assert (∀ j, lastApplied (servers c' j) = lastApplied (servers c j) ∧
               currentTerm (servers c' j) = currentTerm (servers c j)) as Hsame.
  { intros j. destruct (decide (j = i)) as [->|]; [by rewrite Hci|by rewrite Hcj]. }
  split; rewrite ?Hci.
  - split; [eapply live_step; [done|by eexists]|by rewrite Hci|]. intros q Hq.
    rewrite !(proj2 (Hsame _)). by apply Hld.
  - unfold own_last. by rewrite Hentry, HT'.
  - done.
  - by rewrite Hlast in Hentry.
  - rewrite Hmi. apply Hm0.
  - intros j Hj. rewrite (proj1 (Hsame j)). destruct (pair_of i j c Hld Hj) as (g & h & Hp).
    pose proof (wf_commit _ (pr_wf' _ _ _ _ _ Hp)).
    pose proof (agrees_length_r _ _ _ (pr_commit _ _ _ _ _ Hp)).
    pose proof (repr_last _ _ (pr_repr _ _ _ _ _ Hp)). lia.
Qed.

(** The followers of [i] in [Q]; there are some. *)
Lemma followers i :
  (2 <= N)%nat → Z.of_nat N / 2 < Z.of_nat (size Q) →
  let qs := elements (Q ∖ {[i]}) in qs ≠ [] ∧ ∀ q, q ∈ qs ↔ q ∈ Q ∧ q ≠ i.
Proof.
  intros HN Hmaj qs. assert (∀ q, q ∈ qs ↔ q ∈ Q ∧ q ≠ i) as Hqs by set_solver.
  split; [|done]. destruct (two_servers N Q HN Hmaj) as (a & b & Ha & Hb & Hab). intros Hnil.
  assert (∀ x, x ∈ Q → x = i) as Hall; [|by rewrite (Hall a Ha), (Hall b Hb) in Hab].
  intros x Hx. destruct (decide (x = i)) as [|Hne]; [done|].
  assert (x ∈ qs) as Hin by (by apply Hqs). rewrite Hnil in Hin. by apply elem_of_nil in Hin.
Qed.

(** Two rounds of heartbeats: the first commits, the second tells the followers. *)
Lemma offered_commits i index e c :
  offered i index e c → i ∈ Q → (2 <= N)%nat → Z.of_nat N / 2 < Z.of_nat (size Q) →
  ∃ qs c', served i qs c c' ∧
    ∀ j, j ∈ Q → lastApplied (servers c' j) < index <= commitIndex (servers c' j).
Proof.
  intros [Hld Hown Hlast _ Hm0 Happ] Hi HN Hmaj.
  destruct (followers i HN Hmaj) as [Hne Hqs]. set (qs := elements (Q ∖ {[i]})) in *.
  destruct (live_node N c i (ld_live _ _ Hld)) as (Hw & _).
  pose proof (wf_lii _ Hw). pose proof (wf_applied _ Hw).
  destruct (catch_all i qs Hi c) as (c1 & Hsv & Hcu & Hcom);
    [apply NoDup_elements|intros q; apply Hqs|done|done|by intros q m _ ->%Hm0|].
  destruct (same_log_last _ _ (sv_log _ _ _ _ Hsv)) as [Hlast1 _].
  rewrite <-Hlast1 in Hcom. specialize (Hcom Hne).
  assert (lastLogIndex (servers c1 i) <= commitIndex (servers c1 i)) as Hcom1.
  { apply Hcom, caught_majority; [apply Hsv|done|done|]. intros q ??. by apply Hcu, Hqs. }
  destruct (spread_all i qs Hi c1) as (c2 & Hsv2 & Hcom2);
    [apply NoDup_elements|intros q; apply Hqs|apply Hsv| |done|done|].
  { eapply own_last_same; [apply Hsv|apply Hsv|done]. }
  rewrite Hlast1, Hlast in *. pose proof (served_trans _ _ _ _ _ _ Hsv Hsv2) as Hall.
  exists (qs ++ qs), c2. split; [done|]. intros j Hj. split.
  - pose proof (sv_applied _ _ _ _ Hall j). pose proof (Happ j Hj). pose proof (Happ i Hi). lia.
  - destruct (decide (j = i)) as [->|]; [|by apply Hcom2, Hqs].
    pose proof (sv_commit _ _ _ _ Hsv2). lia.
Qed.

(** A committed entry of the leader is what every server of [Q] delivers. *)
Lemma committed_delivers i index e c j :
  live N c → i ∈ Q → j ∈ Q →
  (∀ x, x ∈ Q → lastApplied (servers c x) < index <= commitIndex (servers c x)) →
  logAt (servers c i) index = Some e →
  ∃ rf' msgs, applierStep (servers c j) = Some (rf', msgs) ∧ command_msg e index ∈ msgs.
Proof.
  intros Hl Hi Hj Hrange He. destruct (lv_cinv _ _ Hl) as [A Hci].
  apply applier_delivers; [done|by apply Hrange|]. rewrite <-He. symmetry.
  assert (∀ x, x ∈ Q → lastIncludedIndex (servers c x) < index) as Hli.
  { intros x Hx. destruct (live_node N c x Hl) as (Hwx & _).
    pose proof (wf_applied _ Hwx). destruct (Hrange x Hx). lia. }
  apply (commits_agree N A c c); [done|done|by apply Hrange|by apply Hrange|by apply Hli|by apply Hli].
Qed.

Lemma majority_progress c :
  live N c → (2 <= N)%nat → Z.of_nat N / 2 < Z.of_nat (size Q) →
  ∃ c1 i, runs_among N Q c c1 ∧ i ∈ Q ∧ role (servers c1 i) = Leader ∧
    let term := currentTerm (servers c1 i) in
    ∀ command, ∃ index c2 c3,
      lstep N applied_only c1 (EStart i command (index, term, true)) c2 ∧ runs_among N Q c2 c3 ∧
      ∀ j, j ∈ Q → index <= commitIndex (servers c3 j) ∧
        ∃ rf' msgs, applierStep (servers c3 j) = Some (rf', msgs) ∧
                    command_msg (mkLogEntry command term) index ∈ msgs.
Proof.
  intros Hl HN Hmaj.
  destruct (elect_leader N Q HQ c Hl HN Hmaj) as (c1 & i & Hrun & Hi & Hr & HT & Hm).
  exists c1, i. do 3 (split; [done|]). intros term. subst term. intros command.
  destruct (start_offers c1 i command) as (c2 & Hs & Ho); [|done|done|].
  { split; [by eapply runs_live|done|]. intros q Hq. by rewrite (HT q Hq). }
  destruct (offered_commits _ _ _ _ Ho Hi HN Hmaj) as (qs & c3 & Hsv & Hrange).
  eexists _, c2, c3. split; [exact Hs|]. split; [apply Hsv|]. intros j Hj.
  split; [by apply Hrange|]. apply (committed_delivers i); [apply Hsv|done|done|done|].
  destruct (sv_log _ _ _ _ Hsv) as [Hlog Hli]. rewrite <-(of_entry _ _ _ _ Ho).
  unfold logAt, getRelativeIndex. by rewrite Hlog, Hli.
Qed.

(** C8. A majority makes progress: from every state that the cluster can reach
    - whatever was lost, delayed or restarted, whoever leads and however the logs
    differ - there is a run in which only the servers of a given majority Q act
    and at the end of which one of them leads; and for any command passed to its
    Start there is a further run of Q after which the command is committed at
    the index that Start returned on every server of Q, and is in the next batch
    that the server hands its service. *)
Theorem majority_makes_progress c :
  service_reachable N c → (2 <= N)%nat → Z.of_nat N / 2 < Z.of_nat (size Q) →
  ∃ c1 i, runs_among N Q c c1 ∧ i ∈ Q ∧ role (servers c1 i) = Leader ∧
    let term := currentTerm (servers c1 i) in
    ∀ command, ∃ index c2 c3,
      lstep N applied_only c1 (EStart i command (index, term, true)) c2 ∧ runs_among N Q c2 c3 ∧
      ∀ j, j ∈ Q → index <= commitIndex (servers c3 j) ∧
        ∃ rf' msgs, applierStep (servers c3 j) = Some (rf', msgs) ∧
                    command_msg (mkLogEntry command term) index ∈ msgs.
Proof. intros Hl%reachable_live. by apply majority_progress. Qed.

End Progress.
