(* ===== verification/RaftTest.v ===== *)
(** * The service of the Raft tests

    Models src/6.5840/src/raft1/server.go, the service that reads [applyCh] in
    the Raft tests, checks what it is handed and makes snapshots, and the checks
    of src/6.5840/src/raft1/test.go that compare the servers.  A reader handles
    one message at a time; a message's handling is one function on the state of
    the test, whose servers share one lock in [checkLogs].  [log.Fatalf] ends
    the test: it is an error value of the result.  The annotations of the
    tester, which only record text, are left out. *)

From S2P Require Import Prelude Gob Persister Raft RaftNode RaftSpec RaftProtocol RaftNet.

(** The errors the readers report; the texts are formatted from these values. *)
Inductive ApplyError :=
| Mismatch (index : Z) (server other : nat)     (* commit index=... server=... != server=... *)
| OutOfOrder (server : nat) (index : Z)         (* apply out of order *)
| NilSnapshot
| DecodeSnapshot
| SnapshotIndexMismatch (server : nat).

(** What [checkOneLeader] reads of a server: whether it is connected, and
    [GetState]. *)
Abbreviation ServerState := (bool * (Z * bool))%type.

Section RaftTest.
Context {cmd : Type} `{!EqDecision cmd}.

(** What a snapshot is made of: the index and the commands, [nil] for the
    indices without one. *)
Inductive RfVal := RfInt (z : Z) | RfLog (l : list (option cmd)).

Context `{!Gob RfVal}.

Definition SnapShotInterval : Z := 10.

Record rfsrv := mkRfsrv {
  rs_applyErr : option ApplyError;
  rs_lastApplied : Z;
  rs_logs : gmap Z (option cmd)
}.

Record Test := mkTest { ts_srvs : list rfsrv; ts_maxIndex : Z }.

Definition Logs (i : Z) (rs : rfsrv) : option (option cmd) := rs_logs rs !! i.

(** ** test.go: checkLogs *)

(** The loop over the servers; the last server that disagrees is reported. *)
Fixpoint checkLogs_loop (i j : nat) (m : ApplyMsg cmd) (srvs : list rfsrv)
    (err_msg : option ApplyError) : option ApplyError :=
  match srvs with
  | [] => err_msg
  | rs :: srvs =>
      checkLogs_loop i (S j) m srvs
        match Logs (CommandIndex m) rs with
        | Some old =>
            if decide (old = am_Command m) then err_msg
            else Some (Mismatch (CommandIndex m) i j)
        | None => err_msg
        end
  end.

(** [None] is an index out of range. *)
Definition checkLogs (i : nat) (m : ApplyMsg cmd) (ts : Test) :
    option (Test * option ApplyError * bool) :=
  me ← ts_srvs ts !! i;
  let err_msg := checkLogs_loop i 0 m (ts_srvs ts) None in
  let prevok := bool_decide (is_Some (rs_logs me !! (CommandIndex m - 1))) in
  let me := mkRfsrv (rs_applyErr me) (rs_lastApplied me)
              (<[CommandIndex m := am_Command m]> (rs_logs me)) in
  let maxIndex := if ts_maxIndex ts <? CommandIndex m then CommandIndex m else ts_maxIndex ts in
  Some (mkTest (<[i := me]> (ts_srvs ts)) maxIndex, err_msg, prevok).

(** The check both readers make of a command. *)
Definition checkCommand (i : nat) (m : ApplyMsg cmd) (ts : Test) :
    option (Test * option ApplyError) :=
  '(ts, err_msg, prevok) ← checkLogs i m ts;
  Some (ts, if (1 <? CommandIndex m) && negb prevok
            then Some (OutOfOrder i (CommandIndex m)) else err_msg).

(** ** server.go: the readers *)

(** One iteration of [applier]: [inr err] is [log.Fatalf]. *)
Definition applier (i : nat) (m : ApplyMsg cmd) (ts : Test) : option (Test + ApplyError) :=
  if negb (CommandValid m) then Some (inl ts)
  else
    '(ts, err_msg) ← checkCommand i m ts;
    Some match err_msg with Some err => inr err | None => inl ts end.

(** [xlog]: the commands at the indices up to [index], [nil] where there is none. *)
Definition snapshotLog (index : Z) (rs : rfsrv) : list (option cmd) :=
  (λ j, default None (rs_logs rs !! j)) <$> seqZ 0 (index + 1).

(** The bytes of the snapshot made after the command at [index]. *)
Definition snapshotBytes (index : Z) (rs : rfsrv) : list byte :=
  enc_bytes (encode_ignoring [RfInt index; RfLog (snapshotLog index rs)] new_encoder).

(** [for j := 0; j < len(xlog); j++ { rs.logs[j] = xlog[j] }] *)
Fixpoint fillLogs (j : Z) (xlog : list (option cmd)) (logs : gmap Z (option cmd)) :
    gmap Z (option cmd) :=
  match xlog with
  | [] => logs
  | c :: xlog => fillLogs (j + 1) xlog (<[j := c]> logs)
  end.

(** [ingestSnap]; a [nil] snapshot is the empty one. *)
Definition ingestSnap (snapshot : list byte) (index : Z) (i : nat) (rs : rfsrv) :
    rfsrv * option ApplyError :=
  if decide (snapshot = []) then (rs, Some NilSnapshot)
  else
    match
      '(v, d) ← gob_decode (new_decoder snapshot);
      '(w, _) ← gob_decode d;
      match v, w with RfInt lii, RfLog xlog => Some (lii, xlog) | _, _ => None end
    with
    | None => (rs, Some DecodeSnapshot)
    | Some (lii, xlog) =>
        if negb (index =? -1) && negb (index =? lii) then (rs, Some (SnapshotIndexMismatch i))
        else (mkRfsrv (rs_applyErr rs) lii (fillLogs 0 xlog ∅), None)
    end.

(** [newRfsrv] on a server that makes snapshots: the one of the persister, if
    any, is ingested. *)
Definition newRfsrv (p : Persister) (snapshot : bool) (i : nat) : rfsrv * option ApplyError :=
  let s := mkRfsrv None 0 ∅ in
  if snapshot && (0 <? len (ReadSnapshot p)) then ingestSnap (ReadSnapshot p) (-1) i s
  else (s, None).

Definition set_srv (i : nat) (rs : rfsrv) (ts : Test) : Test :=
  mkTest (<[i := rs]> (ts_srvs ts)) (ts_maxIndex ts).

(** One iteration of [applierSnap]: the new state, the snapshot it hands to
    Raft, if any, and the error it stops with, if any. *)
Definition applierSnap (i : nat) (m : ApplyMsg cmd) (ts : Test) :
    option (Test * option (Z * list byte) * option ApplyError) :=
  rs ← ts_srvs ts !! i;
  if SnapshotValid m then
    let '(rs, err_msg) := ingestSnap (am_Snapshot m) (SnapshotIndex m) i rs in
    Some (set_srv i rs ts, None, err_msg)
  else if CommandValid m then
    '(ts, err_msg) ←
      (if negb (CommandIndex m =? rs_lastApplied rs + 1)
       then Some (ts, Some (OutOfOrder i (CommandIndex m)))
       else checkCommand i m ts);
    rs ← ts_srvs ts !! i;
    let rs := mkRfsrv (rs_applyErr rs) (CommandIndex m) (rs_logs rs) in
    let snap := if Z.rem (CommandIndex m + 1) SnapShotInterval =? 0
                then Some (CommandIndex m, snapshotBytes (CommandIndex m) rs) else None in
    Some (set_srv i rs ts, snap, err_msg)
  else Some (ts, None, None).

(** ** test.go: what the tests compare *)

(** [nCommitted]: the loop over the servers; [None] is [ts.Fatalf]. *)
Fixpoint nCommitted_loop (index : Z) (srvs : list rfsrv) (count : Z) (c : option cmd) :
    option (Z * option cmd) :=
  match srvs with
  | [] => Some (count, c)
  | rs :: srvs =>
      match rs_applyErr rs with
      | Some _ => None
      | None =>
          match Logs index rs with
          | None => nCommitted_loop index srvs count c
          | Some cmd1 =>
              if (0 <? count) && bool_decide (c ≠ cmd1) then None
              else nCommitted_loop index srvs (count + 1) cmd1
          end
      end
  end.

Definition nCommitted (index : Z) (ts : Test) : option (Z * option cmd) :=
  nCommitted_loop index (ts_srvs ts) 0 None.

(** [checkNoAgreement]: [false] is [ts.Fatalf]. *)
Definition checkNoAgreement (index : Z) (ts : Test) : bool :=
  match nCommitted index ts with Some (n, _) => negb (0 <? n) | None => false end.

(** ** Leaders *)

(** [leaders[term] = append(leaders[term], i)] for the connected leaders. *)
Fixpoint collectLeaders (i : nat) (states : list ServerState) (leaders : gmap Z (list nat)) :
    gmap Z (list nat) :=
  match states with
  | [] => leaders
  | (connected, (term, leader)) :: states =>
      collectLeaders (S i) states
        (if (connected : bool) && (leader : bool)
         then <[term := default [] (leaders !! term) ++ [i]]> leaders else leaders)
  end.

(** One round of [checkOneLeader]: [ts.Fatalf], the leader it returns, or
    another round. *)
Inductive LeaderCheck := MultipleLeaders | OneLeader (i : nat) | NoLeaderYet.

(** [lastTermWithLeader]; the order in which the map is traversed does not
    matter. *)
Definition lastTermWithLeader (leaders : gmap Z (list nat)) : Z :=
  map_fold (λ term _ last, if last <? term then term else last) (-1) leaders.

(** [None] is an index out of range. *)
Definition checkOneLeader_round (states : list ServerState) : option LeaderCheck :=
  let leaders := collectLeaders 0 states ∅ in
  if decide (map_Exists (λ _ l, 1 < length l)%nat leaders) then Some MultipleLeaders
  else if decide (leaders = ∅) then Some NoLeaderYet
  else
    l ← leaders !! lastTermWithLeader leaders;
    i ← head l;
    Some (OneLeader i).

(** [checkOneLeader]: at most 10 rounds; [inr] is [ts.Fatalf]. *)
Fixpoint checkOneLeader (rounds : nat) (sample : nat → list ServerState) :
    option (nat + LeaderCheck) :=
  match rounds with
  | O => Some (inr NoLeaderYet)
  | S rounds =>
      check ← checkOneLeader_round (sample (10 - S rounds)%nat);
      match check with
      | MultipleLeaders => Some (inr MultipleLeaders)
      | OneLeader i => Some (inl i)
      | NoLeaderYet => checkOneLeader rounds sample
      end
  end.

(** [checkTerms]: the common term of the connected servers, [-1] when there is
    none; [None] is [ts.Fatalf]. *)
Fixpoint checkTerms (states : list ServerState) (term : Z) : option Z :=
  match states with
  | [] => Some term
  | (connected, (xterm, _)) :: states =>
      if (connected : bool) then
        if term =? -1 then checkTerms states xterm
        else if negb (term =? xterm) then None
        else checkTerms states term
      else checkTerms states term
  end.

(** [checkNoLeader]: [false] is [ts.Fatalf]. *)
Definition checkNoLeader (states : list ServerState) : bool :=
  forallb (λ '(connected, (_, leader)), negb ((connected : bool) && (leader : bool))) states.

End RaftTest.

Arguments rfsrv : clear implicits.
Arguments Test : clear implicits.
Arguments RfVal : clear implicits.

(** ** The checks *)

Section Checks.
Context {cmd : Type} `{!EqDecision cmd} `{!Gob (RfVal cmd)}.
Implicit Types (ts : Test cmd) (rs : rfsrv cmd) (m : ApplyMsg cmd).

(** No server has recorded a command other than [c] at index [k]. *)
Definition none_differs (ts : Test cmd) (k : Z) (c : option cmd) : Prop :=
  ∀ rs old, rs ∈ ts_srvs ts → rs_logs rs !! k = Some old → old = c.

(** No two servers have recorded different commands at the same index. *)
Definition agree (ts : Test cmd) : Prop :=
  ∀ rs k c, rs ∈ ts_srvs ts → rs_logs rs !! k = Some c → none_differs ts k c.

Lemma checkLogs_loop_None i m srvs : ∀ j err,
  checkLogs_loop i j m srvs err = None ↔
  err = None ∧ ∀ rs old, rs ∈ srvs → rs_logs rs !! CommandIndex m = Some old → old = am_Command m.
Proof.
  induction srvs as [|rs srvs IH]; intros j err; simpl.
  - split; [|by intros []]. intros ->. split; [done|]. intros rs old Hin. by apply elem_of_nil in Hin.
  - rewrite IH. unfold Logs. destruct (rs_logs rs !! CommandIndex m) as [old|] eqn:Hl.
    + case_decide; set_solver.
    + set_solver.
Qed.

Lemma checkLogs_result i m ts rs :
  ts_srvs ts !! i = Some rs →
  checkLogs i m ts =
    Some (mkTest (<[i := mkRfsrv (rs_applyErr rs) (rs_lastApplied rs)
                           (<[CommandIndex m := am_Command m]> (rs_logs rs))]> (ts_srvs ts))
            (if ts_maxIndex ts <? CommandIndex m then CommandIndex m else ts_maxIndex ts),
          checkLogs_loop i 0 m (ts_srvs ts) None,
          bool_decide (is_Some (rs_logs rs !! (CommandIndex m - 1)))).
Proof. intros H. unfold checkLogs. by rewrite H. Qed.

(** A server after recording: an old one, or the recording server. *)
Lemma elem_of_record i rs rs' (srvs : list (rfsrv cmd)) :
  rs ∈ <[i := rs']> srvs → rs = rs' ∨ rs ∈ srvs.
Proof.
  intros (j & Hj)%list_elem_of_lookup. destruct (decide (i = j)) as [->|Hne].
  - apply list_lookup_insert_Some in Hj as [(_ & <- & _)|(? & _)]; [by left|done].
  - rewrite list_lookup_insert_ne in Hj by done. right. by eapply list_elem_of_lookup_2.
Qed.

(** CheckLogs finds every disagreement and nothing else: as long as the
    servers have recorded the same commands, it reports an error for a command
    exactly when some server has recorded another one at its index; without an
    error the servers still agree afterwards and the reading server has recorded
    the command. *)
Theorem checkLogs_detects i m ts ts' err prevok :
  agree ts → checkLogs i m ts = Some (ts', err, prevok) →
  (err = None ↔ none_differs ts (CommandIndex m) (am_Command m)) ∧
  (err = None → agree ts' ∧
     ∃ rs', ts_srvs ts' !! i = Some rs' ∧ rs_logs rs' !! CommandIndex m = Some (am_Command m)).
Proof.
  intros Hag Hc. destruct (ts_srvs ts !! i) as [rs|] eqn:Hi; [|by unfold checkLogs in Hc; rewrite Hi in Hc].
  rewrite (checkLogs_result i m ts rs Hi) in Hc. injection Hc as <- Herr _.
  assert (err = None ↔ none_differs ts (CommandIndex m) (am_Command m)) as Hiff.
  { rewrite <-Herr, checkLogs_loop_None. unfold none_differs. naive_solver. }
  split; [done|]. intros Hn%Hiff. split.
  - assert (∀ rs' k c, rs' ∈ ts_srvs ts ∨
        rs' = mkRfsrv (rs_applyErr rs) (rs_lastApplied rs)
                (<[CommandIndex m := am_Command m]> (rs_logs rs)) →
      rs_logs rs' !! k = Some c →
      (k = CommandIndex m ∧ c = am_Command m) ∨ ∃ rs0, rs0 ∈ ts_srvs ts ∧ rs_logs rs0 !! k = Some c)
      as Hcase.
    { intros rs' k c [Hin| ->] Hk; [by eauto|]. simpl in Hk.
      apply lookup_insert_Some in Hk as [[<- <-]|[_ Hk]]; [by left|].
      right. exists rs. split; [|done]. by eapply list_elem_of_lookup_2. }
    intros rs1 k c Hin1 Hk1 rs2 old Hin2 Hk2.
    apply elem_of_record in Hin1, Hin2.
    pose proof (Hcase rs1 k c (proj1 (or_comm _ _) Hin1) Hk1) as C1.
    pose proof (Hcase rs2 k old (proj1 (or_comm _ _) Hin2) Hk2) as C2.
    destruct C1 as [[-> ->]|(r1 & Hr1 & H1)], C2 as [[He ->]|(r2 & Hr2 & H2)].
    + done.
    + by eapply Hn.
    + subst. symmetry. by eapply Hn.
    + by apply (Hag r1 k c Hr1 H1 r2 old Hr2 H2).
  - eexists. split; [apply list_lookup_insert_eq; by eapply lookup_lt_Some|].
    simpl. apply lookup_insert_eq.
Qed.

(** ** Counting *)

Lemma nCommitted_loop_agree index srvs : ∀ count c,
  Forall (λ rs, rs_applyErr rs = None) srvs →
  (∀ rs old, rs ∈ srvs → rs_logs rs !! index = Some old → 0 < count → old = c) →
  (∀ rs rs' old old', rs ∈ srvs → rs' ∈ srvs → rs_logs rs !! index = Some old →
     rs_logs rs' !! index = Some old' → old = old') →
  0 <= count →
  ∃ c', nCommitted_loop index srvs count c =
    Some (count + len (filter (λ rs, is_Some (rs_logs rs !! index)) srvs), c') ∧
    (0 < count → c' = c) ∧ (∀ rs old, rs ∈ srvs → rs_logs rs !! index = Some old → old = c').
Proof.
  induction srvs as [|rs srvs IH]; intros count c He Hc Hag H0; simpl.
  - exists c. rewrite Z.add_0_r. split_and!; [done..|]. intros rs old Hin. by apply elem_of_nil in Hin.
  - apply Forall_cons_1 in He as [-> He]. unfold Logs.
    destruct (rs_logs rs !! index) as [old|] eqn:Hl.
    + assert (0 < count → old = c) as Hold by (apply (Hc rs); set_solver).
      assert ((0 <? count) && bool_decide (c ≠ old) = false) as ->.
      { apply andb_false_iff. destruct (0 <? count) eqn:Hlt; [right|by left].
        apply bool_decide_eq_false. intros Hne. apply Hne. symmetry. apply Hold. lia. }
      destruct (IH (count + 1) old) as (c' & Hr & Hc' & Hall); [done| |set_solver|lia|].
      { intros rs' old' Hin Hl' _. symmetry. eapply (Hag rs rs'); set_solver. }
      exists c'. rewrite Hr, filter_cons_True by (by rewrite Hl).
      assert (c' = old) as -> by (apply Hc'; lia). split_and!; [|done|].
      * do 2 f_equal. simpl. lia.
      * intros rs' old' Hin Hl'. apply elem_of_cons in Hin as [->|Hin]; [congruence|by eapply Hall].
    + destruct (IH count c) as (c' & Hr & Hc' & Hall); [done|set_solver|set_solver|done|].
      exists c'. rewrite Hr, filter_cons_False by (rewrite Hl; by intros [? [=]]).
      split_and!; [done|done|]. intros rs' old' Hin Hl'.
      apply elem_of_cons in Hin as [->|Hin]; [congruence|by eapply Hall].
Qed.

Lemma nCommitted_agree index ts :
  agree ts → Forall (λ rs, rs_applyErr rs = None) (ts_srvs ts) →
  ∃ c, nCommitted index ts =
      Some (len (filter (λ rs, is_Some (rs_logs rs !! index)) (ts_srvs ts)), c) ∧
    none_differs ts index c.
Proof.
  intros Hag He. destruct (nCommitted_loop_agree index (ts_srvs ts) 0 None) as (c & Hc & _ & Hall);
    [done|lia| |done|by exists c]. intros rs rs' old old' Hin Hin' H H'.
  by apply (Hag rs' index old' Hin' H' rs old).
Qed.

(** ** Snapshots *)

Lemma fillLogs_lookup (xlog : list (option cmd)) : ∀ j logs k,
  fillLogs j xlog logs !! k =
    if decide (j <= k < j + len xlog) then xlog !! Z.to_nat (k - j) else logs !! k.
Proof.
  induction xlog as [|c xlog IH]; intros j logs k; simpl fillLogs.
  - rewrite decide_False by (simpl; lia). done.
  - rewrite IH. cbn [length]. rewrite Nat2Z.inj_succ. destruct (decide (k = j)) as [->|Hne].
    + rewrite decide_False, decide_True by lia.
      by rewrite lookup_insert_eq, Z.sub_diag.
    + rewrite lookup_insert_ne by done. destruct (decide (j + 1 <= k < j + 1 + len xlog)).
      * rewrite decide_True by lia. by replace (Z.to_nat (k - j)) with (S (Z.to_nat (k - (j + 1)))) by lia.
      * rewrite decide_False by lia. done.
Qed.

Lemma ingest_snapshotBytes `{!GobRegistered (RfVal cmd)} index index' i rs rs' :
  0 <= index → index' = -1 ∨ index' = index →
  ingestSnap (snapshotBytes index rs) index' i rs' =
    (mkRfsrv (rs_applyErr rs') index (fillLogs 0 (snapshotLog index rs) ∅), None).
Proof.
  intros H0 Hi. unfold ingestSnap, snapshotBytes.
  set (e := encode_ignoring _ _).
  assert (written e = [RfInt index; RfLog (snapshotLog index rs)]) as Hw.
  { pose proof (encode_ignoring_registered [RfInt index; RfLog (snapshotLog index rs)] new_encoder) as He.
    apply encode_all_written in He. by rewrite written_new in He. }
  rewrite decide_False by (intros Hn%enc_bytes_nil; by rewrite Hw in Hn).
  destruct (encode_decode_1 _ _ _ Hw) as (d & -> & Hp). obind.
  apply decode_pending in Hp as (d' & -> & _). obind.
  by rewrite (proj2 (andb_false_iff _ _)) by (destruct Hi; [left|right]; lia).
Qed.

(** Snapshots of the test service survive: a snapshot applierSnap makes
    after the command at an index, handed to any server - through applyCh, or by
    its persister on a restart - is accepted, and that server then stands at the
    index with exactly the commands the maker had recorded up to it. *)
Theorem ingestSnap_roundtrip `{!GobRegistered (RfVal cmd)} index i rs rs' p :
  0 <= index → ReadSnapshot p = snapshotBytes index rs →
  ∃ logs, ingestSnap (snapshotBytes index rs) index i rs' = (mkRfsrv (rs_applyErr rs') index logs, None) ∧
    newRfsrv p true i = (mkRfsrv None index logs, None) ∧
    ∀ k, logs !! k = if decide (0 <= k <= index) then Some (default None (rs_logs rs !! k)) else None.
Proof.
  intros H0 Hp. exists (fillLogs 0 (snapshotLog index rs) ∅). split_and!.
  - apply ingest_snapshotBytes; auto.
  - unfold newRfsrv. rewrite Hp. destruct (decide (snapshotBytes index rs = [])) as [He|Hne].
    + pose proof (ingest_snapshotBytes index index i rs rs' H0 (or_intror eq_refl)) as H.
      unfold ingestSnap in H. by rewrite He in H.
    + rewrite (proj2 (Z.ltb_lt 0 _)) by (destruct (snapshotBytes index rs); [done|cbn [length]; lia]).
      simpl andb. cbv iota. by rewrite ingest_snapshotBytes by auto.
  - intros k. rewrite fillLogs_lookup. unfold snapshotLog.
    rewrite length_fmap, length_seqZ, Z.add_0_l, Z.sub_0_r, Z2Nat.id by lia.
    destruct (decide (0 <= k <= index)).
    + rewrite decide_True by lia. rewrite list_lookup_fmap, lookup_seqZ_lt by lia. simpl.
      by rewrite Z2Nat.id by lia.
    + by rewrite decide_False by lia.
Qed.

(** ** A batch of applierLoop *)

(** [applierSnap] on the messages of a batch: the state after it and the
    snapshots handed to Raft; [None] when it stops with an error. *)
Fixpoint applierSnap_all (i : nat) (ms : list (ApplyMsg cmd)) (ts : Test cmd) :
    option (Test cmd * list (Z * list byte)) :=
  match ms with
  | [] => Some (ts, [])
  | m :: ms =>
      '(ts, snap, err_msg) ← applierSnap i m ts;
      match err_msg with
      | Some _ => None
      | None =>
          '(ts, snaps) ← applierSnap_all i ms ts;
          Some (ts, match snap with Some s => s :: snaps | None => snaps end)
      end
  end.

(** A command at the next index that no server contradicts is accepted. *)
Lemma applierSnap_next i m ts rs :
  ts_srvs ts !! i = Some rs → SnapshotValid m = false → CommandValid m = true →
  CommandIndex m = rs_lastApplied rs + 1 →
  (1 < CommandIndex m → is_Some (rs_logs rs !! (CommandIndex m - 1))) →
  none_differs ts (CommandIndex m) (am_Command m) →
  ∃ rs' snap n,
    applierSnap i m ts = Some (mkTest (<[i := rs']> (ts_srvs ts)) n, snap, None) ∧
    rs_lastApplied rs' = CommandIndex m ∧
    rs_logs rs' = <[CommandIndex m := am_Command m]> (rs_logs rs) ∧
    (∀ k data, snap = Some (k, data) → k = CommandIndex m ∧ data = snapshotBytes k rs').
Proof.
  intros Hi Hs Hc Hidx Hprev Hn. unfold applierSnap. rewrite Hi, Hs, Hc. obind.
  rewrite (proj2 (Z.eqb_eq _ _) Hidx). simpl negb. cbv iota.
  unfold checkCommand. rewrite (checkLogs_result i m ts rs Hi). obind.
  rewrite (proj2 (checkLogs_loop_None i m (ts_srvs ts) 0 None))
    by (split; [done|intros; by eapply Hn]).
  assert ((1 <? CommandIndex m) && negb (bool_decide (is_Some (rs_logs rs !! (CommandIndex m - 1))))
          = false) as ->.
  { destruct (1 <? CommandIndex m) eqn:?; [|done]. simpl.
    rewrite bool_decide_eq_true_2; [done|]. apply Hprev. lia. }
  simpl ts_srvs. rewrite list_lookup_insert_eq by (by eapply lookup_lt_Some). obind.
  unfold set_srv. simpl. rewrite list_insert_insert_eq.
  eexists _, _, _. split; [done|]. simpl. split; [done|]. split; [done|].
  intros k data. by case_match; intros [= <- <-].
Qed.

Lemma none_differs_record ts i rs rs' n k c k' c' :
  ts_srvs ts !! i = Some rs → rs_logs rs' = <[k' := c']> (rs_logs rs) → k ≠ k' →
  none_differs ts k c → none_differs (mkTest (<[i := rs']> (ts_srvs ts)) n) k c.
Proof.
  intros Hi Hl Hne Hn rs1 old [->|Hin]%elem_of_record; [|by apply Hn].
  rewrite Hl, lookup_insert_ne by done. apply Hn. by eapply list_elem_of_lookup_2.
Qed.

Lemma applierSnap_batch (f : Z → ApplyMsg cmd) i : ∀ n a ts rs,
  (∀ k, SnapshotValid (f k) = false ∧ CommandValid (f k) = true ∧ CommandIndex (f k) = k) →
  ts_srvs ts !! i = Some rs → rs_lastApplied rs = a →
  (1 <= a → is_Some (rs_logs rs !! a)) →
  (∀ k, a < k <= a + Z.of_nat n → none_differs ts k (am_Command (f k))) →
  ∃ ts' snaps rs',
    applierSnap_all i (f <$> seqZ (a + 1) (Z.of_nat n)) ts = Some (ts', snaps) ∧
    ts_srvs ts' !! i = Some rs' ∧ rs_lastApplied rs' = a + Z.of_nat n ∧
    (∀ k, rs_logs rs' !! k =
       if decide (a < k <= a + Z.of_nat n) then Some (am_Command (f k)) else rs_logs rs !! k) ∧
    (∀ k data, (k, data) ∈ snaps → a < k <= a + Z.of_nat n).
Proof.
  induction n as [|n IH]; intros a ts rs Hf Hi Ha Hprev Hn.
  - exists ts, [], rs. split_and!; [done|done|lia| |].
    + intros k. by rewrite decide_False by lia.
    + intros k data Hin. by apply elem_of_nil in Hin.
  - destruct (Hf (a + 1)) as (Hs & Hc & Hidx).
    rewrite seqZ_cons by lia. cbn [fmap list_fmap applierSnap_all].
    destruct (applierSnap_next i (f (a + 1)) ts rs) as (rs1 & snap & mx & Hr & Hl1 & Hlog & Hsnap);
      [done..|by rewrite Hidx, Ha| | |].
    { rewrite Hidx. intros ?. replace (a + 1 - 1) with a by lia. apply Hprev. lia. }
    { rewrite Hidx. apply Hn. lia. }
    rewrite Hidx in *. rewrite Hr. obind.
    destruct (IH (a + 1) (mkTest (<[i := rs1]> (ts_srvs ts)) mx) rs1)
      as (ts' & snaps & rs' & Hall & Hi' & Hl' & Hlogs & Hsnaps); [done| |done| | |].
    { simpl. apply list_lookup_insert_eq. by eapply lookup_lt_Some. }
    { intros _. rewrite Hlog, lookup_insert_eq. done. }
    { intros k Hk. eapply none_differs_record; [done|done|lia|]. apply Hn. lia. }
    replace (Z.pred (Z.of_nat (S n))) with (Z.of_nat n) by lia.
    replace (Z.succ (a + 1)) with (a + 1 + 1) by lia.
    rewrite Hall. obind. eexists _, _, rs'. split; [done|]. split; [done|]. split; [lia|]. split.
    + intros k. rewrite Hlogs, Hlog. destruct (decide (k = a + 1)) as [->|Hne].
      * rewrite decide_False, decide_True, lookup_insert_eq by lia. done.
      * rewrite lookup_insert_ne by done. do 2 case_decide; try done; lia.
    + intros k data Hin. destruct snap as [[k' data']|].
      * apply elem_of_cons in Hin as [[= -> ->]|Hin]; [|apply Hsnaps in Hin; lia].
        destruct (Hsnap k' data' eq_refl) as [-> _]. lia.
      * apply Hsnaps in Hin. lia.
Qed.

Context `{!Gob (RaftVal cmd)} `{!GobRegistered (RaftVal cmd)}.

(** C24. What applierLoop sends, the test service accepts: a service that has
    applied what its Raft peer has applied reads the next batch without an
    "apply out of order" or any other error, unless some server has recorded a
    different command at one of its indices; it then stands at the peer's
    commitIndex with the commands of the peer's log, and every snapshot it hands
    back is of an index inside the peer's log. *)
Theorem applierLoop_accepted rf rf' msgs i ts rs :
  peer_reachable rf → commitIndex rf <= lastLogIndex rf → killed rf = false →
  applierStep rf = Some (rf', msgs) →
  ts_srvs ts !! i = Some rs → rs_lastApplied rs = lastApplied rf →
  (1 <= lastApplied rf → is_Some (rs_logs rs !! lastApplied rf)) →
  (∀ k e, lastApplied rf < k <= commitIndex rf → logAt rf k = Some e →
     none_differs ts k (Command e)) →
  ∃ ts' snaps rs',
    applierSnap_all i msgs ts = Some (ts', snaps) ∧
    ts_srvs ts' !! i = Some rs' ∧ rs_lastApplied rs' = lastApplied rf' ∧
    (∀ k, lastApplied rf < k <= lastApplied rf' → rs_logs rs' !! k = Command <$> logAt rf k) ∧
    (∀ k data, (k, data) ∈ snaps → lastIncludedIndex rf' < k <= lastLogIndex rf').
Proof.
  intros Hr Hc Hk Hstep Hi Ha Hprev Hn.
  pose proof (peer_reachable_ok rf Hr) as [Hwf _].
  rewrite (applierStep_batch rf Hr Hc Hk) in Hstep. injection Hstep as <- <-.
  assert (∀ k, lastApplied rf < k <= commitIndex rf → is_Some (logAt rf k)) as Hlog.
  { intros k Hk'. apply logAt_is_Some. destruct Hwf. lia. }
  destruct (applierSnap_batch (entryMsg rf) i (Z.to_nat (commitIndex rf - lastApplied rf))
              (lastApplied rf) ts rs) as (ts' & snaps & rs' & Hall & Hi' & Hl' & Hlogs & Hsnaps);
    [done|done|done|done| |].
  { intros k Hk'. destruct (Hlog k) as [e He]; [lia|].
    unfold entryMsg. simpl. rewrite He. apply (Hn k e); [lia|done]. }
  destruct Hwf. rewrite Z2Nat.id in * by lia.
  exists ts', snaps, rs'. split_and!; [done|done|simpl; lia| |].
  - simpl. intros k Hk'. rewrite Hlogs, decide_True by lia.
    destruct (Hlog k) as [e He]; [lia|]. unfold entryMsg. simpl. by rewrite He.
  - intros k data Hin%Hsnaps. unfold lastLogIndex in *. simpl. lia.
Qed.

End Checks.

(** ** Leaders *)

(** The server numbers recorded for a term, from the state of the servers. *)
Definition leads (states : list ServerState) (term : Z) (i : nat) : Prop :=
  states !! i = Some (true, (term, true)).

Fixpoint leaders_in (n : nat) (states : list ServerState) (term : Z) : list nat :=
  match states with
  | [] => []
  | (connected, (t, leader)) :: states =>
      (if (connected : bool) && (leader : bool) && (t =? term) then [n] else []) ++
      leaders_in (S n) states term
  end.

Lemma collectLeaders_spec states : ∀ n leaders term,
  collectLeaders n states leaders !! term =
    match leaders_in n states term with
    | [] => leaders !! term
    | l => Some (default [] (leaders !! term) ++ l)
    end.
Proof.
  induction states as [|[connected [t leader]] states IH]; intros n leaders term; [done|].
  simpl. rewrite IH. destruct (connected && leader); simpl; [|done].
  destruct (t =? term) eqn:Ht; [apply Z.eqb_eq in Ht as ->|].
  - rewrite lookup_insert_eq. simpl. case_match; [done|]. by rewrite <-app_assoc.
  - rewrite lookup_insert_ne by lia. done.
Qed.

Lemma leaders_in_elem states term : ∀ n i,
  i ∈ leaders_in n states term ↔ ∃ k, i = (n + k)%nat ∧ leads states term k.
Proof.
  unfold leads. induction states as [|[connected [t leader]] states IH]; intros n i; simpl.
  - split; [intros Hin; by apply elem_of_nil in Hin|by intros (? & _ & ?)].
  - rewrite elem_of_app, IH. split.
    + intros [Hin|(k & -> & Hk)]; [|exists (S k); by split; [lia|]].
      exists 0%nat. destruct connected, leader; simpl in Hin; try by apply elem_of_nil in Hin.
      destruct (t =? term) eqn:Ht; [|by apply elem_of_nil in Hin].
      apply Z.eqb_eq in Ht as ->. apply list_elem_of_singleton in Hin as ->. split; [lia|done].
    + intros ([|k] & -> & Hk); [left|right; exists k; by split; [lia|]].
      injection Hk as -> -> ->. rewrite Z.eqb_refl. simpl. rewrite Nat.add_0_r. set_solver.
Qed.

Lemma leaders_in_NoDup states term : ∀ n, NoDup (leaders_in n states term).
Proof.
  induction states as [|[connected [t leader]] states IH]; intros n; simpl; [constructor|].
  destruct (_ && _); simpl; [|done]. apply list.NoDup_cons. split; [|done].
  intros (k & Hk & _)%leaders_in_elem. lia.
Qed.

Lemma collectLeaders_Some states term l :
  collectLeaders 0 states ∅ !! term = Some l ↔ l = leaders_in 0 states term ∧ l ≠ [].
Proof.
  rewrite collectLeaders_spec, lookup_empty. simpl.
  destruct (leaders_in 0 states term); simpl; naive_solver.
Qed.

Lemma lastTerm_max leaders :
  (∀ t, is_Some (leaders !! t) → 0 <= t) →
  (leaders = ∅ ∨ is_Some (leaders !! lastTermWithLeader leaders)) ∧
  (∀ t, is_Some (leaders !! t) → t <= lastTermWithLeader leaders).
Proof.
  intros Hpos.
  cut ((leaders = ∅ ∧ lastTermWithLeader leaders = -1 ∨
          is_Some (leaders !! lastTermWithLeader leaders)) ∧
       (∀ t, is_Some (leaders !! t) → t <= lastTermWithLeader leaders)); [naive_solver|].
  revert Hpos. unfold lastTermWithLeader.
  apply (map_fold_weak_ind (λ r m, (∀ t, is_Some (m !! t) → 0 <= t) →
           (m = ∅ ∧ r = -1 ∨ is_Some (m !! r)) ∧ ∀ t, is_Some (m !! t) → t <= r)).
  - intros _. split; [by left|]. intros t [? Ht]. by rewrite lookup_empty in Ht.
  - intros t x m r Hm IH Hpos. assert (0 <= t) as Ht by (apply Hpos; by rewrite lookup_insert_eq).
    destruct IH as [IH1 IH2].
    { intros t' Ht'. apply Hpos. destruct (decide (t = t')) as [->|]; [by rewrite lookup_insert_eq|].
      by rewrite lookup_insert_ne. }
    split.
    + right. destruct (r <? t) eqn:Hr; [by rewrite lookup_insert_eq|]. apply Z.ltb_ge in Hr.
      destruct IH1 as [[_ ->]|IH1]; [lia|].
      destruct (decide (t = r)) as [->|]; [by rewrite lookup_insert_eq|by rewrite lookup_insert_ne].
    + intros t' Ht'. destruct (decide (t = t')) as [<-|Hne]; [destruct (r <? t) eqn:?; lia|].
      rewrite lookup_insert_ne in Ht' by done. apply IH2 in Ht'. destruct (r <? t) eqn:?; lia.
Qed.

(** The leader [checkOneLeader] returns leads the highest term of the connected
    leaders. *)
Definition top_leader (states : list ServerState) (i : nat) : Prop :=
  ∃ t, leads states t i ∧ ∀ t' j, leads states t' j → t' <= t.

Lemma collectLeaders_is_Some states t :
  is_Some (collectLeaders 0 states ∅ !! t) ↔ ∃ i, leads states t i.
Proof.
  split.
  - intros [l [-> Hne]%collectLeaders_Some]. destruct (leaders_in 0 states t) as [|i l] eqn:Hl; [done|].
    exists i. destruct (proj1 (leaders_in_elem states t 0 i)) as (k & -> & Hk); [rewrite Hl; set_solver|done].
  - intros [i Hi]. exists (leaders_in 0 states t). apply collectLeaders_Some. split; [done|].
    assert (i ∈ leaders_in 0 states t) as Hin by (apply leaders_in_elem; by exists i).
    destruct (leaders_in 0 states t); [by apply elem_of_nil in Hin|done].
Qed.

Lemma checkOneLeader_round_spec states :
  (∀ t i j, leads states t i → leads states t j → i = j) →
  (∀ t i, leads states t i → 0 <= t) →
  checkOneLeader_round states = Some NoLeaderYet ∨
  ∃ i, checkOneLeader_round states = Some (OneLeader i) ∧ top_leader states i.
Proof.
  intros Huniq Hpos. unfold checkOneLeader_round.
  destruct (decide _) as [(t & l & [-> _]%collectLeaders_Some & Hlen)|_].
  { exfalso. pose proof (leaders_in_NoDup states t 0) as Hnd.
    assert (∀ i, i ∈ leaders_in 0 states t → leads states t i) as Hl
      by (intros i (k & -> & Hk)%leaders_in_elem; done).
    destruct (leaders_in 0 states t) as [|i [|j l]]; simpl in Hlen; [lia..|].
    apply list.NoDup_cons in Hnd as [Hnd _]. apply Hnd.
    rewrite (Huniq t i j); [set_solver|apply Hl; set_solver..]. }
  case_decide as He; [by left|right].
  destruct (lastTerm_max (collectLeaders 0 states ∅)) as [[?|[l Hl]] Hmax]; [|done|].
  { intros t [i Hi]%collectLeaders_is_Some. by eapply Hpos. }
  rewrite Hl. obind. apply collectLeaders_Some in Hl as [-> Hne].
  set (t := lastTermWithLeader _) in *.
  destruct (leaders_in 0 states t) as [|i l] eqn:Hli; [done|]. exists i. split; [done|].
  exists t. split.
  - destruct (proj1 (leaders_in_elem states t 0 i)) as (k & -> & Hk); [rewrite Hli; set_solver|done].
  - intros t' j Hj. apply Hmax, collectLeaders_is_Some. by exists j.
Qed.

Lemma checkOneLeader_spec sample : ∀ rounds,
  (∀ k, (∀ t i j, leads (sample k) t i → leads (sample k) t j → i = j) ∧
        (∀ t i, leads (sample k) t i → 0 <= t)) →
  checkOneLeader rounds sample = Some (inr NoLeaderYet) ∨
  ∃ k i, checkOneLeader rounds sample = Some (inl i) ∧ top_leader (sample k) i.
Proof.
  induction rounds as [|rounds IH]; intros H; [by left|]. cbn [checkOneLeader].
  destruct (H (10 - S rounds)%nat) as [H1 H2].
  destruct (checkOneLeader_round_spec _ H1 H2) as [->|(i & -> & Hi)]; obind; [by apply IH|].
  right. by eexists _, i.
Qed.

(** ** The check of the leaders, on a cluster *)

Section OneLeader.
Context {cmd : Type} `{!Gob (RaftVal cmd)} `{!GobRegistered (RaftVal cmd)} (N : nat).

(** What the tests read of the servers of a cluster. *)
Definition sample (connected : nat → bool) (c : Cluster (cmd:=cmd)) : list ServerState :=
  (λ i, (connected i, GetState (servers c i))) <$> seq 0 N.

Lemma leads_sample connected c t i :
  leads (sample connected c) t i →
  role (servers c i) = Leader ∧ currentTerm (servers c i) = t.
Proof.
  unfold leads, sample, GetState. rewrite list_lookup_fmap.
  intros (j & [-> _]%lookup_seq & Hs)%fmap_Some. injection Hs as _ Ht Hl.
  symmetry in Hl. by apply bool_decide_eq_true in Hl.
Qed.

(** C25. checkOneLeader never fails with "multiple leaders": if each of its
    rounds looks at the servers of the cluster in a reachable state, it returns a
    connected server that was then the leader of the highest term among the
    connected leaders, or reports after ten rounds that it saw no leader. *)
Theorem checkOneLeader_passes (connected : nat → nat → bool) (cs : nat → Cluster (cmd:=cmd)) :
  (∀ k, cluster_reachable N (cs k)) →
  let states k := sample (connected k) (cs k) in
  checkOneLeader 10 states = Some (inr NoLeaderYet) ∨
  ∃ k i, checkOneLeader 10 states = Some (inl i) ∧ top_leader (states k) i.
Proof.
  intros Hc. apply checkOneLeader_spec. intros k. split.
  - intros t i j [Hi Hti]%leads_sample [Hj Htj]%leads_sample.
    eapply leader_unique; [apply Hc|done|done|congruence].
  - intros t i [_ <-]%leads_sample. destruct (reachable_inv N (cs k) (Hc k)) as [H Hinv].
    apply (wf_term _ (proj1 (inv_node _ _ _ Hinv i))).
Qed.

End OneLeader.

(** ** The life of a server

    The object [rfsrv] with its Raft instance, nil once it has been killed, and its
    persister. *)
Section RfServer.
Context {cmd : Type} `{!Gob (RaftVal cmd)} `{!Gob (RfVal cmd)}.

Record RfServer := mkRfServer {
  rfs_srv : rfsrv cmd;
  rfs_raft : option (Raft cmd);
  rfs_persister : Persister
}.

(** [newRfsrv] with the Raft instance that Make starts on the persister; the
    error is [t.Fatal]. *)
Definition startRfServer (n : nat) (me : nat) (p : Persister) (now : Z) (snapshot : bool) :
    RfServer * option ApplyError :=
  let '(s, err) := newRfsrv p snapshot me in
  (mkRfServer s (Some (Make n (Z.of_nat me) p now)) p, err).

(** Kill saves once more what the persister holds. *)
Definition rfsrv_Kill (s : RfServer) : RfServer :=
  let p := rfs_persister s in
  mkRfServer (rfs_srv s) None (Save (ReadRaftState p) (ReadSnapshot p) p).

(** Calling a method of the nil instance is a panic. *)
Definition rfsrv_GetState (s : RfServer) : option (Z * bool) := rf ← rfs_raft s; Some (GetState rf).

Definition rfsrv_Raft (s : RfServer) : option (Raft cmd) := rfs_raft s.

(** Killing a server and starting it again on its persister gives the Raft instance
    that starting it on the old persister would give; in between it must not be
    asked for its state, which is why the checks look at connected servers only. *)
Lemma Kill_restart n me now snapshot s :
  startRfServer n me (rfs_persister (rfsrv_Kill s)) now snapshot =
    startRfServer n me (rfs_persister s) now snapshot ∧
  rfsrv_GetState (rfsrv_Kill s) = None ∧
  rfsrv_GetState (startRfServer n me (rfs_persister s) now snapshot).1 =
    Some (GetState (Make n (Z.of_nat me) (rfs_persister s) now)).
Proof.
  split; [|split; [done|]]; unfold startRfServer; [|by destruct (newRfsrv _ _ _)].
  assert (rfs_persister (rfsrv_Kill s) = rfs_persister s) as ->; [|done].
  unfold rfsrv_Kill, Save, ReadRaftState, ReadSnapshot. simpl. rewrite !clone_id.
  by destruct (rfs_persister s).
Qed.

End RfServer.
