(* ===== verification/RaftAgree.v ===== *)
(** * Agreement in the Raft tests

    Models [one] and [wait] of src/6.5840/src/raft1/test.go, with which the tests
    submit commands and wait until servers have them.  What the test reads at a
    moment - who is connected, what Start returns, the logs of the servers - is
    an argument, one value per moment; how often it looks depends on the clock,
    so the rounds and polls are lists.  The annotations are left out. *)

From S2P Require Import Prelude Gob RaftTest.

Section Agree.
Context {cmd : Type} `{!EqDecision cmd} `{!Gob (RfVal cmd)}.

(** ** one *)

(** An iteration of the outer loop: for every server, whether it is connected
    and has a peer, and what [Start(cmd)] returns on it; and the test whenever
    [nCommitted] is called in the two seconds after. *)
Record Round := mkRound {
  rd_connected : list bool;
  rd_start : list (Z * Z * bool);
  rd_polls : list (Test cmd)
}.

(** The answer of server [i]: the index when it takes the command. *)
Definition takes (r : Round) (i : nat) : option Z :=
  if default false (rd_connected r !! i) then
    match rd_start r !! i with Some (index1, _, true) => Some index1 | _ => None end
  else None.

(** [for range ts.srvs], with [k] iterations to go: [starts] and [index]. *)
Fixpoint tryServers (n k starts : nat) (r : Round) : nat * Z :=
  match k with
  | O => (starts, -1)
  | S k =>
      let starts := ((starts + 1) mod n)%nat in
      match takes r starts with
      | Some index1 => (starts, index1)
      | None => tryServers n k starts r
      end
  end.

(** The loop of two seconds; [None] is [ts.Fatalf] in [nCommitted]. *)
Fixpoint pollAgreement (index expectedServers : Z) (c : option cmd) (polls : list (Test cmd)) :
    option bool :=
  match polls with
  | [] => Some false
  | ts :: polls =>
      '(nd, cmd1) ← nCommitted index ts;
      if (0 <? nd) && (expectedServers <=? nd) && bool_decide (cmd1 = c) then Some true
      else pollAgreement index expectedServers c polls
  end.

(** [OneFinished] is the [-1] of a test that is over. *)
Inductive OneResult := Agreed (index : Z) | OneFatal | OneFinished.

(** [n] servers; [finished] is [checkFinished] after the last round. *)
Fixpoint one_loop (n : nat) (c : option cmd) (expectedServers : Z) (retry finished : bool)
    (rounds : list Round) (starts : nat) : OneResult :=
  match rounds with
  | [] => if finished then OneFinished else OneFatal
  | r :: rounds =>
      let '(starts, index) := tryServers n n starts r in
      if negb (index =? -1) then
        match pollAgreement index expectedServers c (rd_polls r) with
        | None => OneFatal
        | Some true => Agreed index
        | Some false =>
            if retry then one_loop n c expectedServers retry finished rounds starts else OneFatal
        end
      else one_loop n c expectedServers retry finished rounds starts
  end.

Definition one n c expectedServers retry finished rounds : OneResult :=
  one_loop n c expectedServers retry finished rounds 0.

(** ** wait *)

Inductive WaitResult := Waited (c : option cmd) | MovedOn | WaitFatal.

(** Whether the loop goes on to its end; [None] is [ts.Fatalf] in [nCommitted].
    An iteration sees the test and then the terms of the servers. *)
Fixpoint wait_loop (iters : nat) (index n startTerm : Z) (see : nat → Test cmd * list Z) :
    option bool :=
  match iters with
  | O => Some true
  | S iters =>
      let '(ts, terms) := see (30 - S iters)%nat in
      '(nd, _) ← nCommitted index ts;
      if n <=? nd then Some true
      else if (-1 <? startTerm) && existsb (λ t, startTerm <? t) terms then Some false
      else wait_loop iters index n startTerm see
  end.

(** [last] is the test at the [nCommitted] after the loop. *)
Definition wait (index n startTerm : Z) (see : nat → Test cmd * list Z) (last : Test cmd) : WaitResult :=
  match wait_loop 30 index n startTerm see with
  | None => WaitFatal
  | Some false => MovedOn
  | Some true =>
      match nCommitted index last with
      | None => WaitFatal
      | Some (nd, c) => if nd <? n then WaitFatal else Waited c
      end
  end.

(** ** What nCommitted says *)

(** No server reported an error, and those that have a command at [index] have
    the command [c]. *)
Definition unanimous (ts : Test cmd) (index : Z) (c : option cmd) : Prop :=
  Forall (λ rs, rs_applyErr rs = None ∧ ∀ c', Logs index rs = Some c' → c' = c) (ts_srvs ts).

(** How many servers have [c] at [index]. *)
Definition holding (ts : Test cmd) (index : Z) (c : option cmd) : Z :=
  len (filter (λ rs, Logs index rs = Some c) (ts_srvs ts)).

Lemma nCommitted_loop_sound index (srvs : list (rfsrv cmd)) : ∀ count c n c',
  nCommitted_loop index srvs count c = Some (n, c') → 0 <= count →
  (0 < count → c' = c) ∧ n = count + len (filter (λ rs, Logs index rs = Some c') srvs) ∧
  Forall (λ rs, rs_applyErr rs = None ∧ ∀ c1, Logs index rs = Some c1 → c1 = c') srvs.
Proof.
  induction srvs as [|rs srvs IH]; intros count c n c' H H0; simpl in H.
  - injection H as <- <-. split_and!; [done|simpl; lia|done].
  - destruct (rs_applyErr rs) eqn:He; [done|]. destruct (Logs index rs) as [c1|] eqn:Hl.
    + destruct ((0 <? count) && _) eqn:Hb; [done|].
      apply IH in H as (Hc & Hn & Hall); [|lia]. specialize (Hc ltac:(lia)). subst c'.
      rewrite filter_cons_True by done. split_and!; [|simpl; lia|].
      * intros Hp. apply andb_false_iff in Hb as [Hb|Hb]; bool_to_prop; [lia|].
        by destruct (decide (c = c1)) as [->|].
      * constructor; [|done]. split; [done|]. intros c2 Hc2. congruence.
    + apply IH in H as (Hc & Hn & Hall); [|lia].
      rewrite filter_cons_False by congruence. split_and!; [done|done|].
      constructor; [|done]. split; [done|congruence].
Qed.

Lemma nCommitted_sound index (ts : Test cmd) n c :
  nCommitted index ts = Some (n, c) → n = holding ts index c ∧ unanimous ts index c.
Proof.
  intros H. apply nCommitted_loop_sound in H as (_ & Hn & Hall); [|lia]. split; [|done].
  unfold holding. lia.
Qed.

(** ** What one says *)

Lemma tryServers_found n k : ∀ starts r starts' index,
  tryServers n k starts r = (starts', index) → index ≠ -1 → takes r starts' = Some index.
Proof.
  induction k as [|k IH]; simpl; intros starts r starts' index H Hi; [congruence|].
  destruct (takes r _) eqn:Ha; [by simplify_eq|by eapply IH].
Qed.

Lemma tryServers_lt n k : ∀ starts r starts' index,
  (starts < n)%nat → tryServers n k starts r = (starts', index) → (starts' < n)%nat.
Proof.
  induction k as [|k IH]; simpl; intros starts r starts' index Hs H; [by injection H as <- _|].
  assert ((starts + 1) mod n < n)%nat as Hm by (apply Nat.mod_upper_bound; lia).
  destruct (takes r _); [by injection H as <- _|by eapply IH].
Qed.

Lemma tryServers_none n k : ∀ starts r, (∀ i, takes r i = None) → (tryServers n k starts r).2 = -1.
Proof. induction k as [|k IH]; simpl; intros starts r H; [done|]. rewrite H. by apply IH. Qed.

(** [n] steps from any place visit every server. *)
Lemma tryServers_all n k : ∀ starts r d,
  (starts < n)%nat → (1 <= d <= k)%nat → is_Some (takes r ((starts + d) mod n)%nat) →
  ∃ starts' index, tryServers n k starts r = (starts', index) ∧ takes r starts' = Some index.
Proof.
  induction k as [|k IH]; simpl; intros starts r d Hs Hd Ha; [lia|].
  destruct (takes r ((starts + 1) mod n)%nat) as [index|] eqn:Hacc; [by eauto|].
  destruct (decide (d = 1%nat)) as [->|Hd1]; [rewrite Hacc in Ha; by destruct Ha|].
  apply (IH _ _ (d - 1)%nat); [apply Nat.mod_upper_bound; lia|lia|].
  rewrite Nat.Div0.add_mod_idemp_l. by replace (starts + 1 + (d - 1))%nat with (starts + d)%nat by lia.
Qed.

Lemma tryServers_complete n starts r i :
  (starts < n)%nat → (i < n)%nat → is_Some (takes r i) →
  ∃ starts' index, tryServers n n starts r = (starts', index) ∧ takes r starts' = Some index.
Proof.
  intros Hs Hi Ha.
  apply (tryServers_all n n starts r (if (starts <? i)%nat then i - starts else i + n - starts)%nat);
    [done|destruct (Nat.ltb_spec starts i); lia|].
  destruct (Nat.ltb_spec starts i).
  - replace (starts + (i - starts))%nat with i by lia. by rewrite Nat.mod_small.
  - replace (starts + (i + n - starts))%nat with (i + 1 * n)%nat by lia.
    by rewrite Nat.Div0.mod_add, Nat.mod_small.
Qed.

Lemma pollAgreement_sound index expectedServers c polls :
  pollAgreement index expectedServers c polls = Some true →
  ∃ ts, ts ∈ polls ∧ unanimous ts index c ∧
    1 <= holding ts index c ∧ expectedServers <= holding ts index c.
Proof.
  induction polls as [|ts polls IH]; simpl; intros H; [done|].
  destruct (nCommitted index ts) as [[nd c1]|] eqn:Hn; simpl in H; [|done].
  destruct (_ && _) eqn:Hb.
  - apply nCommitted_sound in Hn as [-> Hu]. 
    apply andb_true_iff in Hb as [[H1%Z.ltb_lt H2%Z.leb_le]%andb_true_iff ->%bool_decide_eq_true].
    exists ts. split_and!; [by apply list_elem_of_here|done|lia|lia].
  - destruct (IH H) as (ts' & ? & ?). exists ts'. split; [by apply list_elem_of_further|done].
Qed.

(** At every poll the servers agree, and no reader has reported an error. *)
Definition healthy_polls (r : Round) : Prop :=
  Forall (λ ts, agree ts ∧ Forall (λ rs, rs_applyErr rs = None) (ts_srvs ts)) (rd_polls r).

(** At some poll enough servers have [c] at [index]. *)
Definition enough (r : Round) (index expectedServers : Z) (c : option cmd) : Prop :=
  ∃ ts, ts ∈ rd_polls r ∧ 1 <= holding ts index c ∧ expectedServers <= holding ts index c.

Definition no_taker (r : Round) : Prop := ∀ i, takes r i = None.

(** Then the test does not stop. *)
Lemma pollAgreement_goes_on index expectedServers c polls :
  Forall (λ ts, agree ts ∧ Forall (λ rs, rs_applyErr rs = None) (ts_srvs ts)) polls →
  is_Some (pollAgreement index expectedServers c polls).
Proof.
  induction 1 as [|ts polls [Hag He] _ IH]; [by exists false|]. simpl.
  destruct (nCommitted_agree index ts Hag He) as (c1 & -> & _). simpl. destruct (_ && _); [by exists true|done].
Qed.

(** Polls at which all servers agree, one of which has seen enough of them. *)
Lemma pollAgreement_complete index expectedServers c polls :
  Forall (λ ts, agree ts ∧ Forall (λ rs, rs_applyErr rs = None) (ts_srvs ts)) polls →
  (∃ ts, ts ∈ polls ∧ 1 <= holding ts index c ∧ expectedServers <= holding ts index c) →
  pollAgreement index expectedServers c polls = Some true.
Proof.
  induction 1 as [|ts polls [Hag He] _ IH]; intros (ts' & Hin & H1 & Hn); [by apply elem_of_nil in Hin|].
  simpl. destruct (nCommitted_agree index ts Hag He) as (c1 & Hc & Hnd). rewrite Hc. simpl.
  destruct (_ && _) eqn:Hb; [done|].
  apply elem_of_cons in Hin as [->|Hin]; [|apply IH; by exists ts'].
  exfalso. assert (c1 = c) as ->.
  { unfold holding in H1. destruct (filter _ _) as [|rs l] eqn:Hf; [simpl in H1; lia|].
    assert (rs ∈ filter (λ rs, Logs index rs = Some c) (ts_srvs ts)) as Hrs
      by (rewrite Hf; apply list_elem_of_here).
    apply list_elem_of_filter in Hrs as [Hl Hrs]. symmetry. by apply (Hnd rs c Hrs). }
  apply nCommitted_sound in Hc as [Hc _]. rewrite Hc in Hb.
  rewrite (proj2 (Z.ltb_lt _ _)), (proj2 (Z.leb_le _ _)) in Hb by lia.
  by rewrite bool_decide_eq_true_2 in Hb.
Qed.

Lemma one_loop_sound n c expectedServers retry finished rounds : ∀ starts index,
  one_loop n c expectedServers retry finished rounds starts = Agreed index →
  ∃ r i ts, r ∈ rounds ∧ takes r i = Some index ∧ ts ∈ rd_polls r ∧ unanimous ts index c ∧
    1 <= holding ts index c ∧ expectedServers <= holding ts index c.
Proof.
  assert (∀ r (rounds : list Round) index, (∃ r' i ts, r' ∈ rounds ∧ takes r' i = Some index ∧
    ts ∈ rd_polls r' ∧ unanimous ts index c ∧ 1 <= holding ts index c ∧
    expectedServers <= holding ts index c) → ∃ r' i ts, r' ∈ r :: rounds ∧
    takes r' i = Some index ∧ ts ∈ rd_polls r' ∧ unanimous ts index c ∧
    1 <= holding ts index c ∧ expectedServers <= holding ts index c) as Hcons.
  { intros r rs index (r' & i & ts & Hr' & H). exists r', i, ts. split; [|done].
    by apply list_elem_of_further. }
  induction rounds as [|r rounds IH]; simpl; intros starts index H; [by destruct finished|].
  destruct (tryServers n n starts r) as [starts' index1] eqn:Ht.
  destruct (index1 =? -1) eqn:Hi; simpl in H; [by apply Hcons, (IH starts')|].
  destruct (pollAgreement _ _ _ _) as [[]|] eqn:Hp; [|destruct retry; [|done]|done].
  - injection H as <-. apply pollAgreement_sound in Hp as (ts & Hts & Hu & H1 & H2).
    exists r, starts', ts. split_and!; [apply list_elem_of_here| |done..].
    apply (tryServers_found n n starts r); [done|]. intros ->. done.
  - by apply Hcons, (IH starts').
Qed.

(** Rounds that no server takes are skipped. *)
Lemma one_loop_skip n c expectedServers retry finished before rest : ∀ starts,
  (starts < n)%nat → Forall no_taker before →
  ∃ starts', (starts' < n)%nat ∧
    one_loop n c expectedServers retry finished (before ++ rest) starts =
      one_loop n c expectedServers retry finished rest starts'.
Proof.
  intros starts Hs Hb. revert starts Hs. induction Hb as [|r0 before Hr0 _ IH]; intros starts Hs; simpl; [by exists starts|].
  destruct (tryServers n n starts r0) as [starts' index] eqn:Ht.
  pose proof (tryServers_none n n starts r0 Hr0) as Hn. rewrite Ht in Hn. simpl in Hn. subst.
  simpl. apply IH. eapply tryServers_lt; [|exact Ht]. done.
Qed.

(** With [retry], rounds at which the servers agree lead to an index or are
    passed. *)
Lemma one_loop_passes n c expectedServers finished before rest : ∀ starts,
  (starts < n)%nat → Forall (λ r, no_taker r ∨ healthy_polls r) before →
  (∃ index, one_loop n c expectedServers true finished (before ++ rest) starts = Agreed index) ∨
  (∃ starts', (starts' < n)%nat ∧
    one_loop n c expectedServers true finished (before ++ rest) starts =
      one_loop n c expectedServers true finished rest starts').
Proof.
  intros starts Hs Hb. revert starts Hs.
  induction Hb as [|r0 before Hr0 _ IH]; intros starts Hs; simpl; [right; by exists starts|].
  destruct (tryServers n n starts r0) as [starts' index] eqn:Ht.
  assert (starts' < n)%nat as Hs' by (eapply tryServers_lt; [|exact Ht]; done).
  destruct (index =? -1) eqn:Hi; simpl; [by apply IH|]. destruct Hr0 as [Hr0|Hr0].
  - pose proof (tryServers_none n n starts r0 Hr0) as Hn. rewrite Ht in Hn. simpl in Hn. by subst.
  - destruct (pollAgreement_goes_on index expectedServers c _ Hr0) as [[] ->]; [left; by exists index|by apply IH].
Qed.

(** The round that decides. *)
Lemma one_loop_round n c expectedServers retry finished r after starts i :
  (starts < n)%nat → (i < n)%nat → is_Some (takes r i) →
  (∀ i index, takes r i = Some index → 0 <= index) →
  ∃ starts' index, takes r starts' = Some index ∧
    one_loop n c expectedServers retry finished (r :: after) starts =
      match pollAgreement index expectedServers c (rd_polls r) with
      | None => OneFatal
      | Some true => Agreed index
      | Some false =>
          if retry then one_loop n c expectedServers retry finished after starts' else OneFatal
      end.
Proof.
  intros Hs Hi Ha H0. destruct (tryServers_complete n starts r i Hs Hi Ha) as (starts' & index & Ht & Hacc).
  exists starts', index. split; [done|]. simpl. rewrite Ht.
  by rewrite (proj2 (Z.eqb_neq _ _)) by (specialize (H0 _ _ Hacc); lia).
Qed.

(** C32. When [one] returns an index, some connected server accepted the command
    with that index, and at a later moment at least [expectedServers] servers,
    and one at least, had the command there, none had another and no reader had
    reported an error.  Conversely it returns an index if there is a round in which
    some connected server takes the command and, however that choice falls, the
    servers it then looks at agree and enough of them get the command; before that
    there may be any number of rounds in which no server takes it and, with
    [retry], rounds in which one does in vain.  Without [retry] the first round in
    which a server takes the command decides: if it has been in vain the test
    fails.  If no server ever takes the command, it fails unless it is over. *)
Theorem one_agrees n c expectedServers retry finished rounds :
  (∀ index, one n c expectedServers retry finished rounds = Agreed index →
     ∃ r i ts, r ∈ rounds ∧ takes r i = Some index ∧ ts ∈ rd_polls r ∧
       unanimous ts index c ∧ 1 <= holding ts index c ∧ expectedServers <= holding ts index c) ∧
  (∀ before r after i,
     rounds = before ++ r :: after →
     Forall (λ r, no_taker r ∨ (retry = true ∧ healthy_polls r)) before →
     (i < n)%nat → is_Some (takes r i) → healthy_polls r →
     (∀ i index, takes r i = Some index → 0 <= index ∧ enough r index expectedServers c) →
     ∃ index, one n c expectedServers retry finished rounds = Agreed index) ∧
  (∀ before r after i,
     rounds = before ++ r :: after → Forall no_taker before → retry = false →
     (i < n)%nat → is_Some (takes r i) →
     (∀ i index, takes r i = Some index → 0 <= index ∧ ¬ enough r index expectedServers c) →
     one n c expectedServers retry finished rounds = OneFatal) ∧
  ((0 < n)%nat → Forall no_taker rounds →
     one n c expectedServers retry finished rounds = if finished then OneFinished else OneFatal).
Proof.
  split; [intros index; apply one_loop_sound|]. unfold one. split_and!.
  - intros before r after i -> Hbefore Hi Ha Hag Henough.
    assert (∀ starts, (starts < n)%nat → ∃ index,
      one_loop n c expectedServers retry finished (r :: after) starts = Agreed index) as Hround.
    { intros starts Hs. destruct (one_loop_round n c expectedServers retry finished r after starts i)
        as (starts' & index & Hacc & ->); [done..|by intros j k Hj; apply (Henough j k)|].
      destruct (Henough _ _ Hacc) as [_ Hts].
      rewrite (pollAgreement_complete index expectedServers c _ Hag Hts). by exists index. }
    assert (0 < n)%nat as Hn by lia. destruct retry.
    + destruct (one_loop_passes n c expectedServers finished before (r :: after) 0 Hn)
        as [?|(starts' & Hs' & ->)]; [|done|by apply Hround].
      eapply list.Forall_impl; [exact Hbefore|]. intros r0 [?|[_ ?]]; [by left|by right].
    + destruct (one_loop_skip n c expectedServers false finished before (r :: after) 0 Hn)
        as (starts' & Hs' & ->); [|by apply Hround].
      eapply list.Forall_impl; [exact Hbefore|]. by intros r0 [?|[? _]].
  - intros before r after i -> Hbefore -> Hi Ha Hvain.
    destruct (one_loop_skip n c expectedServers false finished before (r :: after) 0 ltac:(lia) Hbefore)
      as (starts & Hs & ->).
    destruct (one_loop_round n c expectedServers false finished r after starts i)
      as (starts' & index & Hacc & ->); [done..|by intros j k Hj; apply (Hvain j k)|].
    destruct (pollAgreement index expectedServers c (rd_polls r)) as [[]|] eqn:Hp; [|done..].
    apply pollAgreement_sound in Hp as (ts & ? & _ & ?). destruct (Hvain _ _ Hacc) as [_ []]. by exists ts.
  - intros Hn Hno. destruct (one_loop_skip n c expectedServers retry finished rounds [] 0 Hn Hno) as (s & _ & H).
    rewrite app_nil_r in H. by rewrite H.
Qed.

(** ** What wait says *)

Theorem wait_reports index n startTerm see last :
  match wait index n startTerm see last with
  | Waited c => unanimous last index c ∧ n <= holding last index c
  | MovedOn => -1 < startTerm ∧ ∃ i t, (i < 30)%nat ∧ t ∈ (see i).2 ∧ startTerm < t
  | WaitFatal => True
  end.
Proof.
  unfold wait. destruct (wait_loop 30 index n startTerm see) as [[]|] eqn:Hl; [|..|done].
  - destruct (nCommitted index last) as [[nd c]|] eqn:Hn; [|done].
    destruct (nd <? n) eqn:Hlt; [done|]. apply nCommitted_sound in Hn as [-> Hu].
    split; [done|]. apply Z.ltb_ge in Hlt. lia.
  - assert (∀ k, (k <= 30)%nat → wait_loop k index n startTerm see = Some false →
      -1 < startTerm ∧ ∃ i t, (i < 30)%nat ∧ t ∈ (see i).2 ∧ startTerm < t) as H.
    { clear. induction k as [|k IH]; intros Hk H; [done|]. cbn [wait_loop] in H.
      destruct (see (30 - S k)%nat) as [ts terms] eqn:Hsee.
      destruct (nCommitted index ts) as [[nd c]|]; cbn [mbind option_bind] in H; [|done].
      destruct (n <=? nd); [done|]. destruct (_ && _) eqn:Hb; [|apply IH; [lia|done]].
      apply andb_true_iff in Hb as [H1%Z.ltb_lt (t & Ht & Hlt%Z.ltb_lt)%existsb_exists].
      split; [done|]. exists (30 - S k)%nat, t. split_and!; [lia| |done].
      rewrite Hsee. by apply list_elem_of_In. }
    by apply (H 30%nat).
Qed.

End Agree.

(** ** An instance: three servers, of which server 0 leads at first, without reaching the others *)

Definition logs_of (l : list (Z * nat)) : rfsrv nat :=
  mkRfsrv None (len l) (list_to_map ((λ '(i, c), (i, Some c)) <$> l)).

Definition test_of (ls : list (list (Z * nat))) : Test nat := mkTest (logs_of <$> ls) 1.

Definition round0 : Round (cmd := nat) :=
  mkRound [true; true; true] [(1, 1, true); (-1, -1, false); (-1, -1, false)]
    [test_of [[]; []; []]; test_of [[]; []; []]].

Definition round1 : Round (cmd := nat) :=
  mkRound [true; true; true] [(-1, -1, false); (-1, -1, false); (1, 2, true)]
    [test_of [[]; []; []]; test_of [[]; []; [(1, 7%nat)]]; test_of [[(1, 7%nat)]; []; [(1, 7%nat)]]].

Lemma test_of_healthy ls :
  forallb (λ l, bool_decide (l = [] ∨ l = [(1, 7%nat)])) ls = true →
  agree (test_of ls) ∧ Forall (λ rs, rs_applyErr rs = None) (ts_srvs (test_of ls)).
Proof.
  intros Hls. assert (∀ rs, rs ∈ ts_srvs (test_of ls) →
    rs_applyErr rs = None ∧ (rs_logs rs = ∅ ∨ rs_logs rs = {[ 1 := Some 7%nat ]})) as Hrs.
  { intros rs (l & -> & Hl)%list_elem_of_fmap. split; [reflexivity|].
    rewrite forallb_forall in Hls. specialize (Hls l (proj1 (list_elem_of_In _ _) Hl)).
    apply bool_decide_eq_true in Hls as [->| ->]; [by left|by right]. }
  split; [|apply list.Forall_forall; intros rs Hin; by apply Hrs].
  intros rs k c Hin Hl rs' c' Hin' Hl'.
  destruct (Hrs rs Hin) as [_ [Heq|Heq]]; rewrite Heq in Hl; [done|].
  destruct (Hrs rs' Hin') as [_ [Heq'|Heq']]; rewrite Heq' in Hl'; [done|].
  rewrite Hl in Hl'. by injection Hl'.
Qed.

Lemma rounds_healthy : healthy_polls round0 ∧ healthy_polls round1.
Proof. split; repeat constructor; by apply test_of_healthy. Qed.

(** With [retry] the second round succeeds, without it the test fails after the
    first. *)
Lemma one_agrees_witness :
  (∃ index, one 3 (Some 7%nat) 2 true false [round0; round1] = Agreed index ∧
    ∃ r i ts, r ∈ [round0; round1] ∧ takes r i = Some index ∧ ts ∈ rd_polls r ∧
      unanimous ts index (Some 7%nat) ∧ 2 <= holding ts index (Some 7%nat)) ∧
  one 3 (Some 7%nat) 2 false false [round0; round1] = OneFatal.
Proof.
  destruct (one_agrees 3 (Some 7%nat) 2 true false [round0; round1]) as (Hsound & Hcomplete & _).
  destruct (one_agrees 3 (Some 7%nat) 2 false false [round0; round1]) as (_ & _ & Hfails & _).
  destruct (Hcomplete [round0] round1 [] 2%nat eq_refl) as [index Hone].
  - constructor; [|constructor]. right. split; [reflexivity|apply rounds_healthy].
  - lia.
  - eexists; reflexivity.
  - apply rounds_healthy.
  - intros i index Hi. do 3 (destruct i as [|i]; [simpl in Hi; try discriminate Hi|]); [|discriminate Hi].
    injection Hi as <-. split; [lia|].
    exists (test_of [[(1, 7%nat)]; []; [(1, 7%nat)]]).
    split; [|split; vm_compute; discriminate]. simpl. apply list_elem_of_further, list_elem_of_further, list_elem_of_here.
  - split.
    + exists index. split; [exact Hone|].
      destruct (Hsound index Hone) as (r & i & ts & H1 & H2 & H3 & H4 & _ & H5).
      exists r, i, ts. exact (conj H1 (conj H2 (conj H3 (conj H4 H5)))).
    + apply (Hfails [] round0 [round1] 0%nat eq_refl); [constructor|reflexivity|lia|eexists; reflexivity|].
      intros j k Hi. destruct j as [|j]; [|destruct j as [|[|j]]; discriminate Hi].
      injection Hi as <-. split; [lia|]. intros (ts & Hts & Hh & _). simpl in Hts.
      assert (ts = test_of [[]; []; []]) as -> by (clear -Hts; set_solver).
      by vm_compute in Hh.
Defined.
