(* ===== verification/RaftExamples.v ===== *)
(** * A run of Raft

    A concrete cluster of three peers with integer commands: server 0 times
    out, is elected with the vote of server 1, accepts two commands, replicates
    and commits them, applies them and takes a snapshot.  The states of the run
    witness the hypotheses of the theorems of RaftSpec, RaftReplication, RaftNet,
    RaftSafety and RaftTest. *)

From S2P Require Import Prelude Gob Persister Raft RaftNode RaftSpec RaftReplication RaftProtocol.
From S2P Require Import RaftNet RaftLog RaftSafety RaftTest RaftElect RaftProgress.

Abbreviation entry := (@mkLogEntry Z).

#[local] Instance RaftVal_gob : Gob (RaftVal Z) := CountableGob.

(** ** Server 0 *)

Definition fresh (i : Z) : Raft Z := Make 3 i MakePersister 0.

Definition candidate : Raft Z := default (fresh 0) (fst <$> tickerStep (ms 1000) 0 (fresh 0)).

Definition grant : RequestVoteReply := mkRequestVoteReply 1 true.

Definition leader0 : Raft Z :=
  default candidate ((fst ∘ fst) <$> handleRequestVoteReply (ms 1001) 1 grant 1 candidate).

Definition leader1 : Raft Z := (Start (Some 7) leader0).1.1.
Definition leader2 : Raft Z := (Start (Some 8) leader1).1.1.

Definition replicate12 : AppendEntriesArgs Z :=
  mkAppendEntriesArgs 1 0 0 0 [entry (Some 7) 1; entry (Some 8) 1] 0.

Definition accepted : AppendEntriesReply := mkAppendEntriesReply 1 true 0 0.

Definition leader3 : Raft Z :=
  default leader2 (handleAppendEntriesReply 1 1 replicate12 accepted leader2).

Definition leader4 : Raft Z := default leader3 (fst <$> applierStep leader3).

Definition snap : list byte := [Byte.x0a; Byte.x0b].

Definition leader5 : Raft Z := default leader4 (Snapshot 1 snap leader4).

(** ** Server 1 *)

Definition vote0 : RequestVoteArgs := mkRequestVoteArgs 1 0 0 0.

Definition follower1 : Raft Z :=
  default (fresh 1) (fst <$> RequestVote (ms 1000) vote0 (fresh 1)).

Definition follower2 : Raft Z :=
  default follower1 (fst <$> AppendEntries (ms 1002) replicate12 follower1).

(** Server 1 commits the first entry. *)
Definition follower3 : Raft Z :=
  default follower2 (fst <$> AppendEntries (ms 1003)
    (mkAppendEntriesArgs 1 0 1 1 [] 1) follower2).

#[local] Ltac call c := eapply reach_step; [|apply ps_call; eapply c; vm_compute; reflexivity].

Lemma leader2_reachable : peer_reachable leader2.
Proof.
  call (ns_Start leader1 (Some 8)). call (ns_Start leader0 (Some 7)).
  call (ns_voteReply candidate (ms 1001) 1 grant 1).
  call (ns_ticker (fresh 0) (ms 1000) 0).
  apply reach_init. by exists 3%nat, 0, 0.
Qed.

Lemma leader3_reachable : peer_reachable leader3.
Proof.
  call (ns_appendReply leader2 1 1 replicate12 accepted). apply leader2_reachable.
Qed.

Lemma leader5_reachable : peer_reachable leader5.
Proof.
  call (ns_Snapshot leader4 1 snap). call (ns_applier leader3). apply leader3_reachable.
Qed.

Lemma follower1_reachable : peer_reachable follower1.
Proof.
  call (ns_RequestVote (fresh 1) (ms 1000) vote0).
  apply reach_init. by exists 3%nat, 1, 0.
Qed.

Lemma follower1_steps : rtc peer_step follower1 follower3.
Proof.
  eapply rtc_l.
  { apply ps_call, (ns_AppendEntries follower1 (ms 1002) replicate12 follower2 accepted).
    by vm_compute. }
  apply rtc_once, ps_call.
  apply (ns_AppendEntries follower2 (ms 1003) (mkAppendEntriesArgs 1 0 1 1 [] 1) _ accepted).
  by vm_compute.
Qed.

(** ** Witnesses *)

Lemma peer_invariant_witness :
  peer_reachable leader5 ∧ lastIncludedIndex leader5 = 1 ∧
  Term <$> logAt leader5 (lastIncludedIndex leader5) = Some (lastIncludedTerm leader5).
Proof.
  split; [apply leader5_reachable|split; [by vm_compute|]].
  apply (peer_invariant leader5), leader5_reachable.
Defined.

Lemma crash_recovery_witness :
  let rf' := Make 3 0 (persister leader5) 0 in
  log rf' = log leader5 ∧ currentTerm rf' = 1 ∧ lastIncludedIndex rf' = 1.
Proof.
  destruct (crash_recovery leader5 3 0 0 leader5_reachable) as (H1 & _ & H3 & H4 & _).
  cbv zeta in *. split; [exact H3|split]; [rewrite H1|rewrite H4]; by vm_compute.
Defined.

Lemma one_vote_per_term_witness : votedFor follower1 = 0 ∧ votedFor follower3 = 0.
Proof.
  split; [by vm_compute|].
  destruct (one_vote_per_term follower1 follower3 follower1_reachable follower1_steps) as [_ H].
  rewrite H; by vm_compute.
Defined.

Lemma applier_in_order_witness :
  applierStep leader3 =
    Some (set_lastApplied 2 leader3,
          [mkApplyMsg true (Some 7) 1 false [] 0 0; mkApplyMsg true (Some 8) 2 false [] 0 0]).
Proof.
  rewrite (applier_in_order leader3 leader3_reachable); [by vm_compute|by vm_compute|done].
Defined.

Lemma no_panic_witness : is_Some (Snapshot 2 snap leader5).
Proof. apply (no_panic leader5 leader5_reachable). by vm_compute. Defined.

Lemma RequestVote_spec_witness :
  ∃ rf' r, RequestVote (ms 1000) vote0 (fresh 1) = Some (rf', r) ∧
    currentTerm rf' = 1 ∧ votedFor rf' = (if rvr_VoteGranted r then 0 else -1).
Proof.
  exists follower1, grant. split; [by vm_compute|].
  destruct (RequestVote_spec (ms 1000) vote0 (fresh 1) follower1 grant) as (_ & H1 & _ & H2 & _);
    [by vm_compute|].
  rewrite H1, H2. split; by vm_compute.
Defined.

Lemma reachable_wf rf : peer_reachable rf → wf rf.
Proof. intros H. by apply peer_reachable_ok. Qed.

Lemma AppendEntries_success_witness :
  AppendEntries (ms 1002) replicate12 follower1 = Some (follower2, accepted) ∧
  log follower2 = mergedLog replicate12 follower1.
Proof.
  assert (AppendEntries (ms 1002) replicate12 follower1 = Some (follower2, accepted)) as H
    by by vm_compute.
  split; [done|].
  apply (AppendEntries_success (ms 1002) replicate12 follower1 follower2 accepted
           (reachable_wf _ follower1_reachable) H). done.
Defined.

(** A leader of term 2 overwrites the uncommitted entry of server 1. *)
Definition overwrite : AppendEntriesArgs Z :=
  mkAppendEntriesArgs 2 2 1 1 [entry (Some 9) 2] 1.

Definition follower4 : Raft Z :=
  default follower3 (fst <$> AppendEntries (ms 1004) overwrite follower3).

Lemma AppendEntries_keeps_committed_witness :
  log follower4 = [entry None 0; entry (Some 7) 1; entry (Some 9) 2] ∧
  ∀ i e, i <= 1 → logAt follower3 i = Some e → logAt follower4 i = Some e.
Proof.
  split; [by vm_compute|].
  assert (peer_reachable follower3) as Hr.
  { eapply (rtc_ind_r (λ rf, peer_reachable rf)); [apply follower1_reachable| |apply follower1_steps].
    intros ??? ??. by eapply reach_step. }
  apply (AppendEntries_keeps_committed (ms 1004) overwrite follower3 follower4
           (mkAppendEntriesReply 2 true 0 0)); [by apply reachable_wf|by vm_compute| |by vm_compute|done].
  intros [|i] e; [|done]. intros _. by vm_compute.
Defined.

Definition stale_prev : AppendEntriesArgs Z := mkAppendEntriesArgs 2 2 2 2 [] 1.

Lemma AppendEntries_conflict_witness :
  ∃ rf' r, AppendEntries (ms 1004) stale_prev follower2 = Some (rf', r) ∧
    aer_Success r = false ∧ log rf' = log follower2.
Proof.
  assert (∃ y, AppendEntries (ms 1004) stale_prev follower2 =
    Some (y, mkAppendEntriesReply 2 false 1 1)) as [y Hy] by (eexists; by vm_compute).
  exists y, (mkAppendEntriesReply 2 false 1 1). split; [exact Hy|]. split; [done|].
  apply (AppendEntries_conflict (ms 1004) stale_prev follower2 y
           (mkAppendEntriesReply 2 false 1 1)); [|by vm_compute|done|done].
  apply reachable_wf. eapply reach_step; [apply follower1_reachable|].
  apply ps_call, (ns_AppendEntries follower1 (ms 1002) replicate12 follower2 accepted).
  by vm_compute.
Defined.

Lemma leader_backs_up_witness :
  ∃ n rf', handleAppendEntriesReply 2 1 replicate12 (mkAppendEntriesReply 1 false 1 1) leader2
             = Some rf' ∧ rf' = set_nextIndex (<[2%nat := n]> (nextIndex leader2)) leader2.
Proof.
  assert (∃ y, handleAppendEntriesReply 2 1 replicate12 (mkAppendEntriesReply 1 false 1 1) leader2
             = Some y) as [y Hy] by (eexists; by vm_compute).
  destruct (leader_backs_up 2 replicate12 (mkAppendEntriesReply 1 false 1 1) leader2 y)
    as (n & Hn & _); [apply reachable_wf, leader2_reachable|by vm_compute..|done|exact Hy|].
  by exists n, y.
Defined.

Lemma updateCommitIndex_spec_witness :
  ∃ c, updateCommitIndex leader3 = Some (set_commitIndex c leader3).
Proof.
  destruct (updateCommitIndex_spec leader3) as (c & Hc & _);
    [apply reachable_wf, leader3_reachable|]. by exists c.
Defined.

Lemma Snapshot_trims_witness :
  Snapshot 1 snap leader4 = Some leader5 ∧ lastLogIndex leader5 = lastLogIndex leader4 ∧
  ReadSnapshot (persister leader5) = snap.
Proof.
  assert (Snapshot 1 snap leader4 = Some leader5) as H by by vm_compute.
  assert (lastIncludedIndex leader4 < 1 <= lastLogIndex leader4) as Hi
    by (split; [reflexivity|by vm_compute]).
  destruct (Snapshot_trims 1 snap leader4 leader5 Hi H) as (_ & _ & _ & H1 & H2 & _).
  split; [exact H|split; [exact H1|exact H2]].
Defined.

Definition install1 : InstallSnapshotArgs := mkInstallSnapshotArgs 1 0 1 1 snap.

Lemma InstallSnapshot_installs_witness :
  ∃ rf' r m, InstallSnapshot (ms 1005) install1 follower2 = Some (rf', r, m) ∧
    lastIncludedIndex rf' = 1 ∧ lastLogIndex rf' = lastLogIndex follower2.
Proof.
  assert (∃ y, InstallSnapshot (ms 1005) install1 follower2 = Some y) as [[[rf' r] m] Hy]
    by (eexists; by vm_compute).
  exists rf', r, m. split; [exact Hy|].
  destruct (InstallSnapshot_installs (ms 1005) install1 follower2 rf' r m)
    as (H1 & _ & _ & _ & _ & _ & _ & H2 & _); [by vm_compute|by vm_compute|exact Hy|].
  split; [exact H1|]. apply H2. by vm_compute.
Defined.

(** ** The cluster *)

Definition cluster0 : Cluster (cmd:=Z) :=
  mkCluster (λ i, Make 3 (Z.of_nat i) MakePersister 0) (λ _, 0%nat) ∅ [].

Definition cluster1 : Cluster (cmd:=Z) :=
  mkCluster (set_server 0 candidate cluster0) (incarnation cluster0)
    (<[(0%nat, 0%nat, currentTerm candidate) := 1]> (votes cluster0))
    (vote_requests 0 0 [(1, vote0); (2, vote0)] ++ inflight cluster0).

Definition cluster2 : Cluster (cmd:=Z) :=
  mkCluster (set_server 1 follower1 cluster1) (incarnation cluster1) (votes cluster1)
    (PVoteRep 0 0 1 vote0 grant :: vote_requests 0 0 [(2, vote0)]).

Definition cluster3 : Cluster (cmd:=Z) :=
  mkCluster (set_server 0 leader0 cluster2) (incarnation cluster2)
    (<[(0%nat, 0%nat, rv_Term vote0) := 2]> (votes cluster2))
    ([PHeartbeats 0 0] ++ vote_requests 0 0 [(2, vote0)]).

(** Server 0 is elected, accepts two commands, replicates and commits them,
    applies them, and tells server 1 that they are committed. *)

Definition with_server (i : nat) (rf : Raft Z) (c : Cluster) (net : list Packet) : Cluster :=
  mkCluster (set_server i rf c) (incarnation c) (votes c) net.

Definition with_net (c : Cluster (cmd:=Z)) (net : list Packet) : Cluster :=
  mkCluster (servers c) (incarnation c) (votes c) net.

Definition cluster4 : Cluster := with_server 0 leader1 cluster3 (PBroadcast 0 0 :: inflight cluster3).
Definition cluster5 : Cluster := with_server 0 leader2 cluster4 (PBroadcast 0 0 :: inflight cluster4).
Definition cluster6 : Cluster := with_net cluster5 (spawn 0 0 [(1, 1); (2, 1)] ++ inflight cluster4).
Definition net6 : list (Packet (cmd:=Z)) := PSend 0 0 2 1 :: inflight cluster4.
Definition cluster7 : Cluster := with_net cluster6 (PAppendReq 0 0 1 replicate12 :: net6).
Definition cluster8 : Cluster :=
  with_server 1 follower2 cluster7 (PAppendRep 0 0 1 replicate12 accepted :: net6).
Definition cluster9 : Cluster := with_server 0 leader3 cluster8 net6.
Definition cluster10 : Cluster := with_server 0 leader4 cluster9 net6.
Definition replicate12' : AppendEntriesArgs Z :=
  mkAppendEntriesArgs 1 0 0 0 [entry (Some 7) 1; entry (Some 8) 1] 2.
Definition cluster10' : Cluster :=
  with_net cluster10 (PAppendReq 0 0 2 replicate12' :: inflight cluster4).
Definition cluster11 : Cluster := with_net cluster10 (inflight cluster4).
Definition cluster12 : Cluster := with_net cluster11 (spawn 0 0 [(1, 1); (2, 1)] ++ inflight cluster3).
Definition net12 : list (Packet (cmd:=Z)) := PSend 0 0 2 1 :: inflight cluster3.
Definition committed12 : AppendEntriesArgs Z := mkAppendEntriesArgs 1 0 2 1 [] 2.
Definition cluster13 : Cluster := with_net cluster12 (PAppendReq 0 0 1 committed12 :: net12).
Definition follower5 : Raft Z :=
  default follower2 (fst <$> AppendEntries (ms 1004) committed12 follower2).
Definition cluster14 : Cluster :=
  with_server 1 follower5 cluster13 (PAppendRep 0 0 1 committed12 accepted :: net12).

Lemma cluster3_service : service_reachable 3 cluster3.
Proof.
  eapply reach_step; [eapply reach_step; [eapply reach_step; [apply reach_init|]|]|].
  - instantiate (1 := cluster0). split_and!; [|done|done]. intros i. by exists 0.
  - eexists; apply (s_elect 3 _ cluster0 0 (ms 1000) 0 candidate [(1, vote0); (2, vote0)]);
      [lia|by vm_compute].
  - eexists; apply (s_vote_deliver 3 _ cluster1 0 0 1 vote0 (ms 1000) follower1 grant
             (vote_requests 0 0 [(2, vote0)])); [reflexivity|by vm_compute].
  - eexists; apply (s_vote_reply 3 _ cluster2 0 0 1 vote0 grant (ms 1001) 1 leader0 2 true
             (vote_requests 0 0 [(2, vote0)]));
      [reflexivity|done|by vm_compute|by vm_compute].
Qed.

Lemma cluster3_reachable : cluster_reachable 3 cluster3.
Proof. apply service_cluster, cluster3_service. Qed.

Lemma run_3_9 : rtc (service_step 3) cluster3 cluster9.
Proof.
  eapply rtc_l.
  { eexists; apply (s_start 3 _ cluster3 0 (Some 7) leader1 (1, 1, true) true); [lia|by vm_compute]. }
  eapply rtc_l.
  { eexists; apply (s_start 3 _ cluster4 0 (Some 8) leader2 (2, 1, true) true); [lia|by vm_compute]. }
  eapply rtc_l; [by eexists; apply (s_broadcast 3 _ cluster5 0 0 (inflight cluster4))|].
  eapply rtc_l.
  { eexists; apply (s_send 3 _ cluster6 0 0 1 1 (SendAppend replicate12) net6);
      [reflexivity|done|by vm_compute]. }
  eapply rtc_l.
  { eexists; apply (s_append_deliver 3 _ cluster7 0 0 1 replicate12 (ms 1002) follower2 accepted net6);
      [reflexivity|by vm_compute]. }
  apply rtc_once.
  eexists; apply (s_append_reply 3 _ cluster8 0 0 1 replicate12 accepted leader3 net6);
    [reflexivity|done|by vm_compute].
Qed.

Lemma run_9_14 : rtc (service_step 3) cluster9 cluster14.
Proof.
  eapply rtc_l.
  { eexists; apply (s_apply 3 _ cluster9 0 leader4 (default [] (snd <$> applierStep leader3)));
      [lia|by vm_compute]. }
  eapply rtc_l.
  { eexists; apply (s_send 3 _ cluster10 0 0 2 1 (SendAppend replicate12') (inflight cluster4));
      [reflexivity|done|by vm_compute]. }
  eapply rtc_l.
  { by eexists; apply (s_drop 3 _ cluster10' (PAppendReq 0 0 2 replicate12') (inflight cluster4)). }
  eapply rtc_l; [by eexists; apply (s_broadcast 3 _ cluster11 0 0 (inflight cluster3))|].
  eapply rtc_l.
  { eexists; apply (s_send 3 _ cluster12 0 0 1 1 (SendAppend committed12) net12);
      [reflexivity|done|by vm_compute]. }
  apply rtc_once.
  eexists; apply (s_append_deliver 3 _ cluster13 0 0 1 committed12 (ms 1004) follower5 accepted net12);
    [reflexivity|by vm_compute].
Qed.

Lemma cluster9_reachable : service_reachable 3 cluster9.
Proof. eapply reachable_rtc; [apply cluster3_service|apply run_3_9]. Qed.

Lemma cluster14_reachable : service_reachable 3 cluster14.
Proof. eapply reachable_rtc; [apply cluster9_reachable|apply run_9_14]. Qed.

Lemma election_safety_witness :
  role (servers cluster3 0) = Leader ∧
  ∀ j, role (servers cluster3 j) = Leader → currentTerm (servers cluster3 j) = 1 → j = 0%nat.
Proof.
  assert (role (servers cluster3 0) = Leader) as H0 by by vm_compute.
  split; [exact H0|]. intros j Hj Ht. symmetry.
  apply (election_safety 3 cluster3 0 j cluster3_reachable H0 Hj). by rewrite Ht.
Defined.

Lemma applied_9 : ∃ rf msgs m,
  applierStep (servers cluster9 0) = Some (rf, msgs) ∧ m ∈ msgs ∧ CommandIndex m = 1.
Proof.
  eexists _, _, (mkApplyMsg true (Some 7) 1 false [] 0 0).
  split; [vm_compute; reflexivity|]. split; [by apply list_elem_of_here|done].
Qed.

Lemma applied_14 : ∃ rf msgs m,
  applierStep (servers cluster14 1) = Some (rf, msgs) ∧ m ∈ msgs ∧ CommandIndex m = 1.
Proof.
  eexists _, _, (mkApplyMsg true (Some 7) 1 false [] 0 0).
  split; [vm_compute; reflexivity|]. split; [by apply list_elem_of_here|done].
Qed.

Lemma state_machine_safety_witness :
  ∃ rf rf' msgs msgs' m, CommandIndex m = 1 ∧
    applierStep (servers cluster9 0) = Some (rf, msgs) ∧ m ∈ msgs ∧
    applierStep (servers cluster14 1) = Some (rf', msgs') ∧ m ∈ msgs'.
Proof.
  destruct applied_9 as (rf & msgs & m & Ha & Hm & Hi).
  destruct applied_14 as (rf' & msgs' & m' & Ha' & Hm' & Hi').
  assert (m = m') as Heq.
  { apply (state_machine_safety 3 cluster9 cluster14 0 1 rf rf' msgs msgs' m m'
      cluster9_reachable run_9_14 Ha Hm Ha' Hm'). by rewrite Hi, Hi'. }
  exists rf, rf', msgs, msgs', m. rewrite <-Heq in Hm'.
  exact (conj Hi (conj Ha (conj Hm (conj Ha' Hm')))).
Defined.

Lemma leader_completeness_witness :
  commitIndex (servers cluster14 1) = 2 ∧ role (servers cluster14 0) = Leader ∧
  logAt (servers cluster14 0) 2 = Some (entry (Some 8) 1).
Proof.
  split; [by vm_compute|]. assert (role (servers cluster14 0) = Leader) as Hl by by vm_compute.
  split; [exact Hl|].
  apply (leader_completeness 3 cluster14 cluster14 1 0 2 (entry (Some 8) 1) cluster14_reachable
    (rtc_refl _ _)); [by vm_compute|split; by vm_compute|exact Hl|by vm_compute|by vm_compute].
Defined.

Lemma log_matching_cluster_witness :
  Term <$> logAt (servers cluster14 0) 2 = Some 1 ∧ Term <$> logAt (servers cluster14 1) 2 = Some 1 ∧
  logAt (servers cluster14 0) 1 = logAt (servers cluster14 1) 1.
Proof.
  split; [by vm_compute|split; [by vm_compute|]].
  apply (log_matching_cluster 3 cluster14 0 1 2 (entry (Some 8) 1) (entry (Some 8) 1)
    cluster14_reachable);
    [by vm_compute|by vm_compute|done|by vm_compute|by vm_compute|split; by vm_compute|by vm_compute].
Defined.

Lemma cluster_no_panic_witness :
  is_Some (sendAppendEntriesToPeer 2 1 (servers cluster14 0)) ∧
  is_Some (applierStep (servers cluster14 1)).
Proof.
  destruct (cluster_no_panic 3 cluster14 cluster14_reachable) as [Hp Ha]. split.
  - apply (Hp (PSend 0 0 2 1)). simpl. set_solver.
  - apply (Ha 1%nat).
Defined.

(** Without server 0, which leads: the other two elect one of them, which commits
    and hands out the command 9. *)
Lemma majority_makes_progress_witness :
  ∃ c1 i, runs_among 3 {[1%nat; 2%nat]} cluster14 c1 ∧ role (servers c1 i) = Leader ∧ i ≠ 0%nat ∧
    ∃ index c2 c3 rf' msgs, runs_among 3 {[1%nat; 2%nat]} c2 c3 ∧
      applierStep (servers c3 1) = Some (rf', msgs) ∧
      command_msg (mkLogEntry (Some 9) (currentTerm (servers c1 i))) index ∈ msgs.
Proof.
  destruct (majority_makes_progress 3 {[1%nat; 2%nat]} ltac:(set_solver by lia) cluster14
    cluster14_reachable) as (c1 & i & Hr & Hi & Hl & Hcmd); [lia|by vm_compute|].
  destruct (Hcmd (Some 9)) as (index & c2 & c3 & _ & Hr' & Hall).
  destruct (Hall 1%nat) as (_ & rf' & msgs & Ha & Hm); [set_solver|].
  exists c1, i. split; [exact Hr|]. split; [exact Hl|]. split; [set_solver|].
  exists index, c2, c3, rf', msgs. exact (conj Hr' (conj Ha Hm)).
Defined.

(** The log decided in the run. *)
Lemma cluster_refines_log_witness :
  ∃ L, chosen 3 (λ _ _, True) cluster14 L ∧ L !! 0%nat = Some (entry (Some 7) 1) ∧
       L !! 1%nat = Some (entry (Some 8) 1).
Proof.
  destruct (cluster_refines_log (cmd:=Z) 3) as (H0 & Hstep & _ & Hread).
  assert (∀ c c' : Cluster (cmd:=Z), rtc (service_step 3) c c' →
    ∀ L, chosen 3 (λ _ _, True) c L → ∃ L', chosen 3 (λ _ _, True) c' L') as Hrun.
  { induction 1 as [|c c1 c' [ev Hs] _ IH]; intros L HL; [eauto|].
    destruct (Hstep _ (λ _ _, True) _ _ _ _ HL Hs) as (L' & _ & HL'); [done..|]. eauto. }
  destruct (reachable_run _ _ _ cluster14_reachable) as (c0 & Hc0 & Hr).
  destruct (Hrun _ _ Hr [] (H0 _ _ Hc0)) as (L & HL). exists L. split; [exact HL|].
  destruct (Hread _ _ _ 1%nat HL) as [_ He]; [lia|].
  assert (lastIncludedIndex (servers cluster14 1) = 0) as Hi by by vm_compute.
  assert (commitIndex (servers cluster14 1) = 2) as Hc by by vm_compute.
  rewrite Hi, Hc in He. split.
  - etrans; [symmetry; apply (He 1); lia|vm_compute; reflexivity].
  - etrans; [symmetry; apply (He 2); lia|vm_compute; reflexivity].
Defined.

Lemma cluster_refines_protocol_witness : ∃ A, cinv 3 A cluster14.
Proof.
  destruct (cluster_refines_protocol (cmd:=Z) 3) as [H0 Hstep].
  destruct (reachable_run _ _ _ cluster14_reachable) as (c0 & Hc0 & Hr).
  destruct (H0 _ Hc0) as [_ Hci]. clear Hc0. revert Hci. generalize (proto0 (cmd:=Z)).
  induction Hr as [|c c1 c' Hs _ IH]; intros A Hci; [eauto|].
  destruct (Hstep _ _ _ Hci Hs) as (A' & _ & Hci'). by eapply IH.
Defined.

(** ** The test service *)

#[local] Instance RfVal_eq_dec : EqDecision (RfVal Z).
Proof. solve_decision. Defined.

#[local] Instance RfVal_countable : Countable (RfVal Z).
Proof.
  refine (inj_countable' (λ v, match v with RfInt z => inl z | RfLog l => inr l end)
            (λ s, match s with inl z => RfInt z | inr l => RfLog l end) _).
  by intros [].
Defined.

#[local] Instance RfVal_gob : Gob (RfVal Z) := CountableGob.

Definition rs0 : rfsrv Z := mkRfsrv None 0 ∅.
Definition test0 : Test Z := mkTest [rs0; rs0; rs0] 0.

Lemma test0_agrees k c : none_differs test0 k c.
Proof.
  intros rs old Hin. assert (rs = rs0) as -> by set_solver. simpl. by rewrite lookup_empty.
Qed.

Lemma applierLoop_accepted_witness :
  ∃ rf' msgs ts' snaps rs', applierStep leader3 = Some (rf', msgs) ∧
    applierSnap_all 0 msgs test0 = Some (ts', snaps) ∧ ts_srvs ts' !! 0%nat = Some rs' ∧
    rs_lastApplied rs' = lastApplied rf'.
Proof.
  assert (∃ y, applierStep leader3 = Some y) as [[rf' msgs] Hy] by (eexists; by vm_compute).
  assert (lastApplied leader3 = 0) as H0 by (vm_compute; reflexivity).
  destruct (applierLoop_accepted leader3 rf' msgs 0 test0 rs0 leader3_reachable)
    as (ts' & snaps & rs' & H1 & H2 & H3 & _);
    [by vm_compute|reflexivity|exact Hy|reflexivity|by rewrite H0|rewrite H0; lia| |].
  - intros k e _ _. apply test0_agrees.
  - exists rf', msgs, ts', snaps, rs'. split; [exact Hy|]. split; [exact H1|]. by split.
Defined.

Lemma ingestSnap_roundtrip_witness :
  ∃ logs, ingestSnap (snapshotBytes 1 (mkRfsrv None 1 {[1 := Some 7]})) 1 2 rs0 =
            (mkRfsrv None 1 logs, None) ∧ logs !! 1 = Some (Some 7).
Proof.
  destruct (ingestSnap_roundtrip 1 2 (mkRfsrv None 1 {[1 := Some 7]}) rs0
              (Save [] (snapshotBytes 1 (mkRfsrv None 1 {[1 := Some 7]})) MakePersister))
    as (logs & H & _ & Hl); [lia|apply Save_snapshot|].
  exists logs. split; [exact H|]. by rewrite Hl.
Defined.

Lemma checkOneLeader_passes_witness :
  checkOneLeader 10 (λ _, sample 3 (λ _, true) cluster3) = Some (inr NoLeaderYet) ∨
  ∃ k i, checkOneLeader 10 (λ _, sample 3 (λ _, true) cluster3) = Some (inl i) ∧
    top_leader ((λ _ : nat, sample 3 (λ _, true) cluster3) k) i.
Proof.
  apply (checkOneLeader_passes 3 (λ _ _, true) (λ _, cluster3)). intros _. apply cluster3_reachable.
Defined.

(** In that state server 0 is found. *)
Example checkOneLeader_finds :
  checkOneLeader 10 (λ _, sample 3 (λ _, true) cluster3) = Some (inl 0%nat).
Proof. by vm_compute. Qed.
