(* ===== verification/KVRpc.v ===== *)
(** * The key/value RPC types

    Models src/6.5840/src/kvsrv1/rpc/rpc.go, shared by the single-server and the
    replicated key/value services and their clerks. *)

From S2P Require Import Prelude.

(** [type Err string]; the zero value of an [Err] is the empty string. *)
Definition Err : Type := string.

Definition OK : Err := "OK".
Definition ErrNoKey : Err := "ErrNoKey".
Definition ErrVersion : Err := "ErrVersion".
Definition ErrMaybe : Err := "ErrMaybe".
Definition ErrWrongLeader : Err := "ErrWrongLeader".
Definition ErrWrongGroup : Err := "ErrWrongGroup".

(** [type Tversion uint64] *)
Definition Tversion : Type := Z.

Record PutArgs := mkPutArgs { put_Key : string; put_Value : string; put_Version : Tversion }.
Record PutReply := mkPutReply { pr_Err : Err }.
Record GetArgs := mkGetArgs { get_Key : string }.
Record GetReply := mkGetReply { gr_Value : string; gr_Version : Tversion; gr_Err : Err }.

#[export] Instance PutArgs_eq_dec : EqDecision PutArgs.
Proof. solve_decision. Defined.
#[export] Instance PutReply_eq_dec : EqDecision PutReply.
Proof. solve_decision. Defined.
#[export] Instance GetArgs_eq_dec : EqDecision GetArgs.
Proof. solve_decision. Defined.
#[export] Instance GetReply_eq_dec : EqDecision GetReply.
Proof. solve_decision. Defined.

(** The versions of the requests are 64-bit. *)
Definition put_ok (args : PutArgs) : Prop := is_u64 (put_Version args).

Create HintDb err.
#[export] Hint Unfold OK ErrNoKey ErrVersion ErrMaybe ErrWrongLeader ErrWrongGroup : err.

(** Decide (in)equalities between error constants. *)
Ltac err_simpl := autounfold with err in *; simplify_eq/=; try done.
