(* ===== verification/KVSrv.v ===== *)
(** * The single-server key/value service and its clerk

    Models src/6.5840/src/kvsrv1/server.go and client.go.  A handler runs under
    the server's lock, so it is one function on the state.  The clerk's retry
    loop is driven by a schedule: for every attempt, the requests of other
    clients the server executes before it, and what the network does with it. *)

From S2P Require Import Prelude KVRpc.

Record valueVersion := mkValueVersion { vv_val : string; vv_ver : Tversion }.

#[export] Instance valueVersion_eq_dec : EqDecision valueVersion.
Proof. solve_decision. Defined.

#[export] Instance valueVersion_countable : Countable valueVersion :=
  inj_countable' (λ v, (vv_val v, vv_ver v)) (λ '(s, z), mkValueVersion s z)
    (λ v, match v with mkValueVersion _ _ => eq_refl end).

Record KVServer := mkKVServer { store : gmap string valueVersion }.

Definition MakeKVServer : KVServer := mkKVServer ∅.

(** ** The handlers *)

Definition KVServer_Get (args : GetArgs) (kv : KVServer) : GetReply :=
  match store kv !! get_Key args with
  | None => mkGetReply "" 0 ErrNoKey
  | Some item => mkGetReply (vv_val item) (vv_ver item) OK
  end.

Definition KVServer_Put (args : PutArgs) (kv : KVServer) : KVServer * PutReply :=
  match store kv !! put_Key args with
  | None =>
      if put_Version args =? 0 then
        (mkKVServer (<[put_Key args := mkValueVersion (put_Value args) 1]> (store kv)),
         mkPutReply OK)
      else (kv, mkPutReply ErrNoKey)
  | Some item =>
      if negb (vv_ver item =? put_Version args) then (kv, mkPutReply ErrVersion)
      else
        (mkKVServer (<[put_Key args := mkValueVersion (put_Value args) (u64 (vv_ver item + 1))]>
                       (store kv)),
         mkPutReply OK)
  end.

(** ** The clerk *)

(** What becomes of one [ck.clnt.Call]: the request is lost, the request is
    executed and the reply is lost, or the reply arrives. *)
Inductive Outcome := RequestLost | ReplyLost | Delivered.

#[export] Instance Outcome_eq_dec : EqDecision Outcome.
Proof. solve_decision. Defined.

(** A Put executed by the server: whether it is an attempt of the clerk under
    consideration, its arguments, and the reply. *)
Record Event := mkEvent { ev_mine : bool; ev_args : PutArgs; ev_err : Err }.

Definition serve (mine : bool) (args : PutArgs) (kv : KVServer) : KVServer * Event :=
  let '(kv', r) := KVServer_Put args kv in (kv', mkEvent mine args (pr_Err r)).

(** Requests of other clients. *)
Fixpoint serve_others (ps : list PutArgs) (kv : KVServer) : KVServer * list Event :=
  match ps with
  | [] => (kv, [])
  | p :: ps =>
      let '(kv, e) := serve false p kv in
      let '(kv, es) := serve_others ps kv in
      (kv, e :: es)
  end.

Abbreviation Schedule := (list (list PutArgs * Outcome)).

(** The value [Put] returns for a reply, [first] being true on the first try. *)
Definition putResult (first : bool) (err : Err) : Err :=
  if decide (err = ErrVersion) then if first then ErrVersion else ErrMaybe else err.

(** The loop of [Clerk.Put]; no result while it is still retrying. *)
Fixpoint Clerk_Put_loop (first : bool) (args : PutArgs) (sched : Schedule) (kv : KVServer) :
    KVServer * list Event * option Err :=
  match sched with
  | [] => (kv, [], None)
  | (others, o) :: sched =>
      let '(kv, es) := serve_others others kv in
      match o with
      | RequestLost =>
          let '(kv, es', r) := Clerk_Put_loop false args sched kv in (kv, es ++ es', r)
      | ReplyLost =>
          let '(kv, e) := serve true args kv in
          let '(kv, es', r) := Clerk_Put_loop false args sched kv in (kv, es ++ e :: es', r)
      | Delivered =>
          let '(kv, e) := serve true args kv in
          (kv, es ++ [e], Some (putResult first (ev_err e)))
      end
  end.

Definition Clerk_Put (key value : string) (version : Tversion) (sched : Schedule)
    (kv : KVServer) : KVServer * list Event * option Err :=
  Clerk_Put_loop true (mkPutArgs key value version) sched kv.

(** The loop of [Clerk.Get]: attempts until a reply arrives. *)
Fixpoint Clerk_Get (key : string) (sched : Schedule) (kv : KVServer) :
    KVServer * option (string * Tversion * Err) :=
  match sched with
  | [] => (kv, None)
  | (others, o) :: sched =>
      let '(kv, _) := serve_others others kv in
      match o with
      | Delivered =>
          let r := KVServer_Get (mkGetArgs key) kv in
          (kv, Some (gr_Value r, gr_Version r, gr_Err r))
      | _ => Clerk_Get key sched kv
      end
  end.

(** ** The server is a store of versioned compare-and-set registers *)

(** The version of a key, 0 while it has no value. *)
Definition version (kv : KVServer) (k : string) : Z :=
  match store kv !! k with Some item => vv_ver item | None => 0 end.

Definition wf_server (kv : KVServer) : Prop := ∀ k, is_u64 (version kv k).

Lemma Put_cas args kv :
  KVServer_Put args kv =
    if put_Version args =? version kv (put_Key args) then
      (mkKVServer (<[put_Key args := mkValueVersion (put_Value args) (u64 (put_Version args + 1))]>
                     (store kv)), mkPutReply OK)
    else (kv, mkPutReply (if decide (is_Some (store kv !! put_Key args))
                          then ErrVersion else ErrNoKey)).
Proof.
  unfold KVServer_Put, version. destruct (store kv !! put_Key args) as [item|].
  - rewrite decide_True by done. rewrite (Z.eqb_sym (vv_ver item)).
    destruct (_ =? _) eqn:He; simpl; [|done]. bool_to_prop. by rewrite He.
  - rewrite decide_False by (by intros [? ?]). destruct (_ =? _) eqn:He; [|done].
    bool_to_prop. by rewrite He.
Qed.

(** A Put succeeds exactly when its version is the key's current one (0 for
    a key without a value); then it stores the value under the next version,
    modulo 2^64, and otherwise it changes nothing and says whether the key
    exists.  Other keys are never touched, and a following Get returns exactly
    what was stored. *)
Theorem Put_is_cas args kv kv' r :
  KVServer_Put args kv = (kv', r) →
  (pr_Err r = OK ↔ put_Version args = version kv (put_Key args)) ∧
  (pr_Err r = OK →
     KVServer_Get (mkGetArgs (put_Key args)) kv' =
       mkGetReply (put_Value args) (u64 (put_Version args + 1)) OK) ∧
  (pr_Err r ≠ OK → kv' = kv ∧
     (pr_Err r = ErrVersion ↔ is_Some (store kv !! put_Key args)) ∧
     (pr_Err r = ErrNoKey ↔ store kv !! put_Key args = None)) ∧
  (∀ k, k ≠ put_Key args → KVServer_Get (mkGetArgs k) kv' = KVServer_Get (mkGetArgs k) kv).
Proof.
  rewrite Put_cas. destruct (_ =? _) eqn:He; intros [= <- <-]; bool_to_prop.
  - split_and!; try done.
    + intros _. unfold KVServer_Get. simpl. by rewrite lookup_insert_eq.
    + intros k Hk. unfold KVServer_Get. simpl. by rewrite lookup_insert_ne.
  - destruct (store kv !! put_Key args) as [item|] eqn:Hs.
    + by rewrite decide_True by done.
    + by rewrite decide_False by (by intros [? ?]).
Qed.

(** ** Versions only grow *)

Lemma version_exists kv k : 0 < version kv k → is_Some (store kv !! k).
Proof. unfold version. destruct (store kv !! k); [done|lia]. Qed.

Lemma serve_spec m p kv kv' e :
  serve m p kv = (kv', e) → wf_server kv →
  ev_mine e = m ∧ ev_args e = p ∧ wf_server kv' ∧
  (ev_err e = OK ↔ put_Version p = version kv (put_Key p)) ∧
  (∀ k, version kv' k =
     if decide (k = put_Key p ∧ ev_err e = OK) then u64 (version kv k + 1) else version kv k) ∧
  (ev_err e ≠ OK → kv' = kv ∧
     ev_err e = if decide (is_Some (store kv !! put_Key p)) then ErrVersion else ErrNoKey).
Proof.
  unfold serve. rewrite Put_cas. intros H Hw.
  destruct (_ =? _) eqn:He; apply pair_equal_spec in H as [<- <-]; cbn [ev_mine ev_args ev_err pr_Err]; bool_to_prop.
  - assert (∀ k, version (mkKVServer (<[put_Key p:=mkValueVersion (put_Value p)
        (u64 (put_Version p + 1))]> (store kv))) k =
      if decide (k = put_Key p ∧ OK = OK) then u64 (version kv k + 1) else version kv k) as Hv.
    { intros k. unfold version at 1. simpl. destruct (decide (k = put_Key p)) as [->|Hk].
      - rewrite lookup_insert_eq, decide_True by done. simpl. by rewrite He.
      - rewrite lookup_insert_ne, decide_False by naive_solver. done. }
    split_and!; try done. intros k. rewrite Hv. clear Hv. destruct (decide _); [apply u64_range|apply Hw].
  - assert ((if decide (is_Some (store kv !! put_Key p)) then ErrVersion else ErrNoKey) ≠ OK)
      by (by case_decide).
    split_and!; try done. intros k. rewrite decide_False by naive_solver. done.
Qed.

Lemma serve_version m p kv kv' e k :
  serve m p kv = (kv', e) → wf_server kv → version kv k + 1 < 2 ^ 64 →
  version kv k <= version kv' k <= version kv k + 1.
Proof.
  intros Hs Hw Hb. destruct (serve_spec _ _ _ _ _ Hs Hw) as (_ & _ & _ & _ & -> & _).
  pose proof (Hw k) as Hk. unfold is_u64 in Hk.
  case_decide; [rewrite u64_small by (unfold is_u64; lia)|]; lia.
Qed.

Lemma serve_others_spec ps : ∀ kv kv' es k,
  serve_others ps kv = (kv', es) → wf_server kv →
  length es = length ps ∧ wf_server kv' ∧ Forall (λ e, ev_mine e = false) es ∧
  (version kv k + len es < 2 ^ 64 → version kv k <= version kv' k <= version kv k + len es).
Proof.
  induction ps as [|p ps IH]; simpl; intros kv kv' es k H Hw.
  - simplify_eq. split_and!; try done. simpl. lia.
  - destruct (serve false p kv) as [kv1 e] eqn:Hs.
    destruct (serve_others ps kv1) as [kv2 es'] eqn:Ho. simplify_eq/=.
    destruct (serve_spec _ _ _ _ _ Hs Hw) as (Hm & _ & Hw1 & _).
    destruct (IH _ _ _ k Ho Hw1) as (? & ? & ? & Hv).
    split_and!; [lia|done|by constructor|]. intros Hb.
    pose proof (serve_version _ _ _ _ _ k Hs Hw). lia.
Qed.

(** ** How often a Put of the clerk is performed *)

(** The attempts of the clerk the server performed. *)
Definition performed (es : list Event) : list Event :=
  filter (λ e, ev_mine e = true ∧ ev_err e = OK) es.

Lemma performed_app es es' : performed (es ++ es') = performed es ++ performed es'.
Proof. apply list.filter_app. Qed.

Lemma performed_others es : Forall (λ e, ev_mine e = false) es → performed es = [].
Proof. unfold performed. induction 1 as [|e es He _ IH]; [done|].
  rewrite filter_cons_False by (rewrite He; naive_solver). done. Qed.

Lemma performed_failed e es : ev_err e ≠ OK → performed (e :: es) = performed es.
Proof. intros. unfold performed. by rewrite filter_cons_False by naive_solver. Qed.

Lemma performed_ok e es :
  ev_mine e = true → ev_err e = OK → performed (e :: es) = e :: performed es.
Proof. intros. unfold performed. by rewrite filter_cons_True. Qed.

(** Once the key is past the version of the request, no attempt is performed. *)
Lemma Put_loop_stale args sched : ∀ kv kv' es r,
  Clerk_Put_loop false args sched kv = (kv', es, r) → wf_server kv → put_ok args →
  put_Version args < version kv (put_Key args) →
  version kv (put_Key args) + len es < 2 ^ 64 →
  performed es = [] ∧ (r = None ∨ r = Some ErrMaybe).
Proof.
  induction sched as [|[others o] sched IH]; simpl; intros kv kv' es r H Hw Ha Hv Hb.
  { simplify_eq. auto. }
  destruct (serve_others others kv) as [kv1 es1] eqn:Ho.
  destruct (serve_others_spec _ _ _ _ (put_Key args) Ho Hw) as (_ & Hw1 & Hm1 & Hv1).
  apply performed_others in Hm1 as Hp1.
  destruct o; [|destruct (serve true args kv1) as [kv2 e] eqn:Hs..];
    try destruct (Clerk_Put_loop false args sched _) as [[kv3 es3] r3] eqn:Hl; simplify_eq;
    rewrite ?length_app in Hb; simpl in Hb; rewrite ?performed_app, Hp1; simpl.
  - eapply IH; eauto; lia.
  - destruct (serve_spec _ _ _ _ _ Hs Hw1) as (Hm & _ & Hw2 & Hok & _ & Hf).
    assert (ev_err e ≠ OK) as Hne by (rewrite Hok; lia).
    destruct (Hf Hne) as [-> _]. rewrite performed_failed by done. eapply IH; eauto; lia.
  - destruct (serve_spec _ _ _ _ _ Hs Hw1) as (Hm & _ & Hw2 & Hok & _ & Hf).
    assert (ev_err e ≠ OK) as Hne by (rewrite Hok; lia).
    destruct (Hf Hne) as [-> ->]. rewrite performed_failed by done. split; [done|right].
    rewrite decide_True; [done|]. apply version_exists. unfold put_ok, is_u64 in Ha. lia.
Qed.

(** What the result of the loop says about the attempts performed. *)
Definition put_meaning (r : option Err) (n : nat) : Prop :=
  match r with
  | None => (n <= 1)%nat
  | Some err => (err = OK ∧ n = 1%nat) ∨ (err = ErrMaybe ∧ (n <= 1)%nat) ∨
                ((err = ErrVersion ∨ err = ErrNoKey) ∧ n = 0%nat)
  end.

Lemma Put_loop_meaning args sched : ∀ first kv kv' es r,
  Clerk_Put_loop first args sched kv = (kv', es, r) → wf_server kv → put_ok args →
  version kv (put_Key args) + len es < 2 ^ 64 →
  put_meaning r (length (performed es)).
Proof.
  induction sched as [|[others o] sched IH]; simpl; intros first kv kv' es r H Hw Ha Hb.
  { simplify_eq. simpl. lia. }
  destruct (serve_others others kv) as [kv1 es1] eqn:Ho.
  destruct (serve_others_spec _ _ _ _ (put_Key args) Ho Hw) as (_ & Hw1 & Hm1 & Hv1).
  apply performed_others in Hm1 as Hp1.
  destruct o; [|destruct (serve true args kv1) as [kv2 e] eqn:Hs..];
    try destruct (Clerk_Put_loop false args sched _) as [[kv3 es3] r3] eqn:Hl; simplify_eq;
    rewrite ?length_app in Hb; simpl in Hb; rewrite ?performed_app, Hp1; simpl.
  - eapply IH; eauto; lia.
  - destruct (serve_spec _ _ _ _ _ Hs Hw1) as (Hm & _ & Hw2 & Hok & Hv & Hf).
    destruct (decide (ev_err e = OK)) as [He|Hne].
    + pose proof (Hw1 (put_Key args)) as Hr1. unfold is_u64 in Hr1.
      specialize (Hv (put_Key args)). rewrite decide_True in Hv by done.
      rewrite u64_small in Hv by (unfold is_u64; lia). apply Hok in He as He'.
      destruct (Put_loop_stale _ _ _ _ _ _ Hl Hw2 Ha) as [Hp Hr]; [lia|lia|].
      rewrite performed_ok, Hp by done. destruct Hr as [->| ->]; simpl; auto.
    + destruct (Hf Hne) as [-> _]. rewrite performed_failed by done. eapply IH; eauto; lia.
  - destruct (serve_spec _ _ _ _ _ Hs Hw1) as (Hm & _ & Hw2 & Hok & _ & Hf).
    destruct (decide (ev_err e = OK)) as [He|Hne].
    + rewrite performed_ok, He by done. by left.
    + destruct (Hf Hne) as [-> Herr]. rewrite performed_failed by done. rewrite Herr.
      simpl. case_decide; destruct first; auto 10.
Qed.

(** However requests and replies are lost and however the Puts of other
    clients interleave with the retries: a Clerk Put that returns OK was
    performed exactly once, one that returns ErrVersion or ErrNoKey was never
    performed, and one that returns ErrMaybe was performed at most once (as long
    as the 64-bit version of the key does not wrap around). *)
Theorem Clerk_Put_meaning key value ver sched kv kv' es r :
  wf_server kv → is_u64 ver →
  Clerk_Put key value ver sched kv = (kv', es, r) →
  version kv key + len es < 2 ^ 64 →
  put_meaning r (length (performed es)).
Proof. intros Hw Hv H Hb. by eapply Put_loop_meaning. Qed.

(** Clerk Put and Get keep trying exactly until a reply arrives: they
    return as soon as the network delivers one, and not before. *)
Theorem Clerk_returns key value ver sched kv :
  ((∃ others, (others, Delivered) ∈ sched) ↔ (Clerk_Put key value ver sched kv).2 ≠ None) ∧
  ((∃ others, (others, Delivered) ∈ sched) ↔ (Clerk_Get key sched kv).2 ≠ None).
Proof.
  unfold Clerk_Put. split.
  - generalize true. revert kv. induction sched as [|[others o] sched IH]; intros kv b.
    { simpl. set_solver. }
    simpl. destruct (serve_others others kv) as [kv1 es1].
    destruct o; [|destruct (serve true _ kv1) as [kv2 e]..].
    + specialize (IH kv1 false). destruct (Clerk_Put_loop _ _ _ _) as [[??]?]. set_solver.
    + specialize (IH kv2 false). destruct (Clerk_Put_loop _ _ _ _) as [[??]?]. set_solver.
    + split; [done|]. intros _. exists others. set_solver.
  - revert kv. induction sched as [|[others o] sched IH]; intros kv; [simpl; set_solver|].
    simpl. destruct (serve_others others kv) as [kv1 es1].
    destruct o; [specialize (IH kv1); set_solver..|]. split; [done|]. intros _.
    exists others. set_solver.
Qed.

(** ** Instances *)

Definition lossy : Schedule :=
  [([], RequestLost); ([mkPutArgs "x" "0" 0], ReplyLost); ([mkPutArgs "k" "w" 1], Delivered)].

Lemma MakeKVServer_wf : wf_server MakeKVServer.
Proof. intros k. unfold version. simpl. rewrite lookup_empty. done. Qed.

Lemma Put_is_cas_witness :
  ∃ kv', KVServer_Put (mkPutArgs "k" "v" 0) MakeKVServer = (kv', mkPutReply OK) ∧
    KVServer_Get (mkGetArgs "k") kv' = mkGetReply "v" 1 OK.
Proof.
  exists (KVServer_Put (mkPutArgs "k" "v" 0) MakeKVServer).1. split; [by vm_compute|].
  apply (Put_is_cas (mkPutArgs "k" "v" 0) MakeKVServer _ (mkPutReply OK)); by vm_compute.
Defined.

Lemma Clerk_Put_meaning_witness :
  ∃ kv' es, Clerk_Put "k" "v" 0 lossy MakeKVServer = (kv', es, Some ErrMaybe) ∧
    put_meaning (Some ErrMaybe) (length (performed es)).
Proof.
  exists (Clerk_Put "k" "v" 0 lossy MakeKVServer).1.1, (Clerk_Put "k" "v" 0 lossy MakeKVServer).1.2.
  split; [by vm_compute|].
  apply (Clerk_Put_meaning "k" "v" 0 lossy MakeKVServer
           (Clerk_Put "k" "v" 0 lossy MakeKVServer).1.1);
    [apply MakeKVServer_wf|done|by vm_compute|by vm_compute].
Defined.
