(* ===== verification/KvModel.v ===== *)
(** * The sequential specification of the key/value services

    Models src/6.5840/src/models1/kv.go, the model the tests check histories
    against, and shows that the server of kvsrv1 implements it and that the
    clerk's Put, with its retries, is one operation of it. *)

From stdpp Require Import pretty.
From S2P Require Import Prelude KVRpc KVSrv.

Record KvInput := mkKvInput { ki_Op : Z; ki_Key : string; ki_Value : string; ki_Version : Z }.
Record KvOutput := mkKvOutput { ko_Value : string; ko_Version : Z; ko_Err : string }.
Record KvState := mkKvState { ks_Value : string; ks_Version : Z }.

Abbreviation Operation := (KvInput * KvOutput)%type.

(** ** KvModel *)

Definition KvModel_Init : KvState := mkKvState "" 0.

(** [Step]; the state [None] is the string "<invalid>". *)
Definition KvModel_Step (st : KvState) (inp : KvInput) (out : KvOutput) : bool * option KvState :=
  if ki_Op inp =? 0 then (bool_decide (ko_Value out = ks_Value st), Some st)
  else if ki_Op inp =? 1 then
    if ks_Version st =? ki_Version inp then
      (bool_decide (ko_Err out = "OK") || bool_decide (ko_Err out = "ErrMaybe"),
       Some (mkKvState (ki_Value inp) (u64 (ks_Version st + 1))))
    else
      (bool_decide (ko_Err out = "ErrVersion") || bool_decide (ko_Err out = "ErrMaybe"), Some st)
  else (false, None).

(** [Partition]: the operations of each key, in order, the keys sorted. *)
Definition partitionMap (history : list Operation) : gmap string (list Operation) :=
  foldl (λ m v, let key := ki_Key v.1 in <[key := default [] (m !! key) ++ [v]]> m) ∅ history.

Definition KvModel_Partition (history : list Operation) : list (list Operation) :=
  let m := partitionMap history in
  let keys := merge_sort String.le (elements (dom m)) in
  (λ k, default [] (m !! k)) <$> keys.

(** [DescribeOperation]: how an operation is shown in a visualization. *)
Definition KvModel_DescribeOperation (inp : KvInput) (out : KvOutput) : string :=
  if ki_Op inp =? 0 then
    "get('" +:+ ki_Key inp +:+ "') -> ('" +:+ ko_Value out +:+ "', '" +:+ pretty (ko_Version out) +:+
    "', '" +:+ ko_Err out +:+ "')"
  else if ki_Op inp =? 1 then
    "put('" +:+ ki_Key inp +:+ "', '" +:+ ki_Value inp +:+ "', '" +:+ pretty (ki_Version inp) +:+
    "') -> ('" +:+ ko_Err out +:+ "')"
  else "<invalid>".

Example DescribeOperation_values :
  KvModel_DescribeOperation (mkKvInput 0 "k" "" 0) (mkKvOutput "v" 3 "OK") =
    "get('k') -> ('v', '3', 'OK')" ∧
  KvModel_DescribeOperation (mkKvInput 1 "k" "w" 3) (mkKvOutput "" 0 "ErrMaybe") =
    "put('k', 'w', '3') -> ('ErrMaybe')".
Proof. by vm_compute. Qed.

(** ** Sequential histories the model accepts *)

Fixpoint accepts (st : KvState) (h : list Operation) : option KvState :=
  match h with
  | [] => Some st
  | (inp, out) :: h =>
      match KvModel_Step st inp out with
      | (true, Some st') => accepts st' h
      | _ => None
      end
  end.

Lemma accepts_app st h h' : accepts st (h ++ h') = accepts st h ≫= λ st', accepts st' h'.
Proof.
  revert st. induction h as [|[inp out] h IH]; intros st; [done|]. simpl.
  destruct (KvModel_Step st inp out) as [[] [st'|]]; simpl; [apply IH|done..].
Qed.

(** ** The state of a key *)

Definition abs (k : string) (kv : KVServer) : KvState :=
  match store kv !! k with
  | None => KvModel_Init
  | Some item => mkKvState (vv_val item) (vv_ver item)
  end.

Lemma abs_version k kv : ks_Version (abs k kv) = version kv k.
Proof. unfold abs, version. by destruct (store kv !! k). Qed.

(** The operation of a Put with result [err]. *)
Definition put_op (args : PutArgs) (err : Err) : Operation :=
  (mkKvInput 1 (put_Key args) (put_Value args) (put_Version args), mkKvOutput "" 0 err).

Definition get_op (args : GetArgs) (r : GetReply) : Operation :=
  (mkKvInput 0 (get_Key args) "" 0, mkKvOutput (gr_Value r) (gr_Version r) (gr_Err r)).

Lemma step_performed p kv kv' r err :
  KVServer_Put p kv = (kv', r) → pr_Err r = OK → err = OK ∨ err = ErrMaybe →
  accepts (abs (put_Key p) kv) [put_op p err] = Some (abs (put_Key p) kv').
Proof.
  rewrite Put_cas. intros H Hok Herr. simpl. unfold KvModel_Step. simpl. rewrite abs_version.
  destruct (_ =? _) eqn:He; apply pair_equal_spec in H as [<- <-]; bool_to_prop;
    [|by case_decide].
  rewrite <-He, Z.eqb_refl. unfold abs. simpl. rewrite lookup_insert_eq.
  by destruct Herr as [->| ->].
Qed.

Lemma step_failed p kv err :
  put_Version p ≠ version kv (put_Key p) → err = ErrVersion ∨ err = ErrMaybe →
  accepts (abs (put_Key p) kv) [put_op p err] = Some (abs (put_Key p) kv).
Proof.
  intros Hv Herr. simpl. unfold KvModel_Step. simpl.
  rewrite abs_version, (proj2 (Z.eqb_neq _ _)) by done. by destruct Herr as [->| ->].
Qed.

Lemma step_get args kv :
  accepts (abs (get_Key args) kv) [get_op args (KVServer_Get args kv)] =
    Some (abs (get_Key args) kv).
Proof.
  simpl. unfold KvModel_Step, KVServer_Get, abs. simpl.
  destruct (store kv !! get_Key args); simpl; rewrite ?bool_decide_eq_true_2 by done; done.
Qed.

Lemma abs_other k p kv : k ≠ put_Key p → abs k (KVServer_Put p kv).1 = abs k kv.
Proof.
  intros Hk. rewrite Put_cas. destruct (_ =? _); [|done]. unfold abs. simpl.
  by rewrite lookup_insert_ne.
Qed.

(** ** The server implements the model *)

Inductive Request := ReqGet (args : GetArgs) | ReqPut (args : PutArgs).

Definition handle (req : Request) (kv : KVServer) : KVServer * Operation :=
  match req with
  | ReqGet args => (kv, get_op args (KVServer_Get args kv))
  | ReqPut args => let '(kv', r) := KVServer_Put args kv in (kv', put_op args (pr_Err r))
  end.

Fixpoint handle_all (reqs : list Request) (kv : KVServer) : KVServer * list Operation :=
  match reqs with
  | [] => (kv, [])
  | req :: reqs =>
      let '(kv, o) := handle req kv in
      let '(kv, os) := handle_all reqs kv in (kv, o :: os)
  end.

Definition on_key (k : string) (o : Operation) : Prop := ki_Key o.1 = k.

#[export] Instance on_key_dec k o : Decision (on_key k o).
Proof. unfold on_key. apply _. Defined.

(** No Put of a missing key with a non-zero version. *)
Definition no_ErrNoKey (o : Operation) : Prop := ki_Op o.1 = 1 → ko_Err o.2 ≠ ErrNoKey.

Lemma handle_accepted req kv kv' o :
  handle req kv = (kv', o) → no_ErrNoKey o →
  ∀ k, accepts (abs k kv) (filter (on_key k) [o]) = Some (abs k kv').
Proof.
  intros H Hn k. rewrite filter_cons. destruct req as [args|args]; simpl in H.
  - simplify_eq. case_decide as Hk; [|done]. unfold on_key in Hk. simpl in Hk. subst k.
    rewrite list.filter_nil. apply step_get.
  - destruct (KVServer_Put args kv) as [kv1 r] eqn:Hp. simplify_eq.
    case_decide as Hk; unfold on_key in Hk; simpl in Hk.
    + subst k. rewrite list.filter_nil. destruct (decide (pr_Err r = OK)) as [Hok|Hne].
      * eapply step_performed; eauto.
      * rewrite Put_cas in Hp. destruct (_ =? _) eqn:He; simplify_eq; bool_to_prop.
        apply step_failed; [done|]. simpl in *. case_decide; [by left|].
        unfold no_ErrNoKey in Hn. simpl in Hn. by specialize (Hn eq_refl).
    + rewrite list.filter_nil. simpl. pose proof (abs_other k args kv) as Ha.
      rewrite Hp in Ha. simpl in Ha. by rewrite Ha by congruence.
Qed.

Lemma handle_all_accepted reqs kv kv' h k :
  handle_all reqs kv = (kv', h) → Forall no_ErrNoKey h →
  accepts (abs k kv) (filter (on_key k) h) = Some (abs k kv').
Proof.
  revert kv h. induction reqs as [|req reqs IH]; simpl; intros kv h H Hn.
  { by simplify_eq. }
  destruct (handle req kv) as [kv1 o] eqn:Ho. destruct (handle_all reqs kv1) as [kv2 os] eqn:Hh.
  simplify_eq. apply Forall_cons_1 in Hn as [Hn1 Hn2].
  change (o :: os) with ([o] ++ os). rewrite list.filter_app, accepts_app.
  rewrite (handle_accepted req kv kv1 o) by done. by apply IH.
Qed.

(** The server implements the sequential model: the operations it executes
    on a key, in the order it executes them, are a history the model accepts,
    from the state of the key before to the state after - for every history in
    which no Put of a missing key asks for a non-zero version. *)
Theorem server_refines_model reqs kv kv' h k :
  handle_all reqs kv = (kv', h) → Forall no_ErrNoKey h →
  accepts (abs k kv) (filter (on_key k) h) = Some (abs k kv').
Proof. apply handle_all_accepted. Qed.

(** The exception is real: for a Put with a non-zero version of a key that
    has no value the server and the clerk return ErrNoKey, an output the model
    of the tests accepts in no state. *)
Theorem ErrNoKey_rejected_by_model args kv :
  store kv !! put_Key args = None → put_Version args ≠ 0 →
  KVServer_Put args kv = (kv, mkPutReply ErrNoKey) ∧
  ∀ st, accepts st [put_op args ErrNoKey] = None.
Proof.
  intros Hs Hv. unfold KVServer_Put. rewrite Hs, (proj2 (Z.eqb_neq _ _)) by done.
  split; [done|]. intros st. simpl. unfold KvModel_Step. simpl. by destruct (_ =? _).
Qed.

(** ** The clerk's Put is one operation of the model *)

(** [es] are executions that take the server from [kv] to [kv']. *)
Fixpoint replays (kv : KVServer) (es : list Event) (kv' : KVServer) : Prop :=
  match es with
  | [] => kv' = kv
  | e :: es => ∃ kv1, serve (ev_mine e) (ev_args e) kv = (kv1, e) ∧ replays kv1 es kv'
  end.

Lemma replays_app es es' : ∀ kv kv',
  replays kv (es ++ es') kv' ↔ ∃ kv1, replays kv es kv1 ∧ replays kv1 es' kv'.
Proof.
  induction es as [|e es IH]; intros kv kv'; simpl; [naive_solver|].
  setoid_rewrite IH. naive_solver.
Qed.

Lemma serve_event m p kv kv' e :
  serve m p kv = (kv', e) → ev_mine e = m ∧ ev_args e = p.
Proof. unfold serve. destruct (KVServer_Put p kv). naive_solver. Qed.

Lemma serve_replays m p kv kv' e : serve m p kv = (kv', e) → replays kv [e] kv'.
Proof.
  intros H. destruct (serve_event _ _ _ _ _ H) as [Hm Hp]. simpl. exists kv'.
  by rewrite Hm, Hp.
Qed.

Lemma serve_others_replays ps : ∀ kv kv' es,
  serve_others ps kv = (kv', es) → replays kv es kv' ∧ Forall (λ e, ev_mine e = false) es.
Proof.
  induction ps as [|p ps IH]; simpl; intros kv kv' es H; [by simplify_eq|].
  destruct (serve false p kv) as [kv1 e] eqn:Hs.
  destruct (serve_others ps kv1) as [kv2 es'] eqn:Ho. simplify_eq.
  destruct (serve_event _ _ _ _ _ Hs) as [Hm Hp]. destruct (IH _ _ _ Ho) as [Hr Hf].
  split; [|by constructor]. simpl. exists kv1. by rewrite Hm, Hp.
Qed.

(** The executions of a clerk's Put: its own are all of its request, and when it
    returns, the last one is its own. *)
Lemma Put_loop_replays args sched : ∀ first kv kv' es r,
  Clerk_Put_loop first args sched kv = (kv', es, r) →
  replays kv es kv' ∧ Forall (λ e, ev_mine e = true → ev_args e = args) es ∧
  (is_Some r → ∃ es0 e kv0, es = es0 ++ [e] ∧ replays kv es0 kv0 ∧ serve true args kv0 = (kv', e)).
Proof.
  induction sched as [|[others o] sched IH]; simpl; intros first kv kv' es r H.
  { simplify_eq. split_and!; [done|constructor|by intros [? ?]]. }
  destruct (serve_others others kv) as [kv1 es1] eqn:Ho.
  destruct (serve_others_replays _ _ _ _ Ho) as [Hr1 Hf1].
  assert (Forall (λ e, ev_mine e = true → ev_args e = args) es1) as Hf1'
    by (eapply list.Forall_impl; [done|]; simpl; congruence).
  destruct o; [|destruct (serve true args kv1) as [kv2 e] eqn:Hs..];
    try destruct (Clerk_Put_loop false args sched _) as [[kv3 es3] r3] eqn:Hl; simplify_eq.
  - destruct (IH _ _ _ _ _ Hl) as (Hr & Hf & Hlast). split_and!.
    + apply replays_app. eauto.
    + by apply Forall_app.
    + intros (es0 & e & kv0 & -> & Hr0 & Hs0)%Hlast. exists (es1 ++ es0), e, kv0.
      rewrite <-app_assoc. split_and!; [done|apply replays_app; eauto|done].
  - destruct (IH _ _ _ _ _ Hl) as (Hr & Hf & Hlast).
    destruct (serve_event _ _ _ _ _ Hs) as [Hm Hp]. pose proof (serve_replays _ _ _ _ _ Hs) as Hre.
    change (e :: es3) with ([e] ++ es3). split_and!.
    + rewrite !replays_app. naive_solver.
    + rewrite !Forall_app. split_and!; [done|by constructor|done].
    + intros (es0 & e0 & kv0 & -> & Hr0 & Hs0)%Hlast. exists (es1 ++ [e] ++ es0), e0, kv0.
      rewrite <-!app_assoc. split_and!; [done|rewrite !replays_app; naive_solver|done].
  - destruct (serve_event _ _ _ _ _ Hs) as [Hm Hp]. pose proof (serve_replays _ _ _ _ _ Hs) as Hre.
    split_and!.
    + apply replays_app. eauto.
    + apply Forall_app. split; [done|by constructor].
    + intros _. by exists es1, e, kv1.
Qed.

(** The operations of the other clients on key [k]. *)
Definition others_on (k : string) (es : list Event) : list Operation :=
  filter (on_key k) ((λ e, put_op (ev_args e) (ev_err e)) <$> filter (λ e, ev_mine e = false) es).

Lemma others_on_app k es es' : others_on k (es ++ es') = others_on k es ++ others_on k es'.
Proof. unfold others_on. by rewrite list.filter_app, fmap_app, list.filter_app. Qed.

(** Attempts of the clerk that are not performed do not matter. *)
Lemma accepts_others k es : ∀ kv kv',
  replays kv es kv' → performed es = [] → Forall no_ErrNoKey (others_on k es) →
  accepts (abs k kv) (others_on k es) = Some (abs k kv').
Proof.
  induction es as [|e es IH]; intros kv kv' Hr Hp Hn; [by simplify_eq/=|].
  destruct Hr as (kv1 & Hs & Hr). change (e :: es) with ([e] ++ es) in *.
  rewrite performed_app in Hp. apply app_nil in Hp as [Hp1 Hp2].
  rewrite others_on_app in *. apply Forall_app in Hn as [Hn1 Hn2].
  rewrite accepts_app.
  enough (accepts (abs k kv) (others_on k [e]) = Some (abs k kv1)) as -> by (simpl; by apply IH).
  unfold others_on in *. destruct (ev_mine e) eqn:Hm.
  - rewrite filter_cons_False by congruence. simpl.
    unfold performed in Hp1. rewrite filter_cons in Hp1. case_decide as Hd; [done|].
    unfold serve in Hs. rewrite Put_cas in Hs.
    destruct (_ =? _); apply pair_equal_spec in Hs as [<- He]; [|done].
    destruct Hd. split; [done|]. by rewrite <-He.
  - rewrite filter_cons_True, list.filter_nil in * by done. cbn [fmap list_fmap] in *.
    unfold serve in Hs. destruct (KVServer_Put (ev_args e) kv) as [kv2 r] eqn:Hput.
    apply pair_equal_spec in Hs as [-> He].
    assert (ev_err e = pr_Err r) as Herr by (by rewrite <-He). rewrite Herr in *.
    rewrite filter_cons in *. case_decide as Hk.
    + apply Forall_cons_1 in Hn1 as [Hn1 _].
      pose proof (handle_accepted (ReqPut (ev_args e)) kv kv1 (put_op (ev_args e) (pr_Err r))) as Ha.
      rewrite <-(Ha ltac:(simpl; by rewrite Hput) Hn1 k). by rewrite filter_cons_True.
    + rewrite list.filter_nil. simpl. f_equal. pose proof (abs_other k (ev_args e) kv) as Ha.
      rewrite Hput in Ha. symmetry. apply Ha. intros ->. by apply Hk.
Qed.

Lemma performed_split es :
  performed es = [] ∨
  ∃ a e b, es = a ++ e :: b ∧ performed a = [] ∧ ev_mine e = true ∧ ev_err e = OK ∧
           length (performed es) = S (length (performed b)).
Proof.
  induction es as [|e es IH]; [by left|].
  destruct (decide (ev_mine e = true ∧ ev_err e = OK)) as [[Hm He]|Hne].
  - right. exists [], e, es. rewrite performed_ok by done. done.
  - assert (performed (e :: es) = performed es) as Hp
      by (unfold performed; by rewrite filter_cons_False).
    rewrite Hp. destruct IH as [IH|(a & e' & b & -> & ? & ? & ? & ?)]; [by left|].
    right. exists (e :: a), e', b. split_and!; try done.
    unfold performed. by rewrite filter_cons_False.
Qed.

(** C23. A Clerk Put that returns is linearizable: whatever was retried, lost
    or interleaved, there is a point among the operations of the other clients
    at which the single operation "Put returned err" is accepted by the model,
    the whole history leading to the final state of the key (no wrap-around of
    the version, and no ErrNoKey, which the model does not know). *)
Theorem Clerk_Put_linearizable key value ver sched kv kv' es err :
  wf_server kv → is_u64 ver →
  Clerk_Put key value ver sched kv = (kv', es, Some err) →
  version kv key + len es < 2 ^ 64 →
  err ≠ ErrNoKey → Forall no_ErrNoKey (others_on key es) →
  ∃ pre post, others_on key es = pre ++ post ∧
    accepts (abs key kv) (pre ++ [put_op (mkPutArgs key value ver) err] ++ post) =
      Some (abs key kv').
Proof.
  intros Hw Hv H Hb Hne Hn. unfold Clerk_Put in H. set (args := mkPutArgs key value ver) in *.
  pose proof (Put_loop_meaning _ _ _ _ _ _ _ H Hw Hv Hb) as Hm.
  destruct (Put_loop_replays _ _ _ _ _ _ _ H) as (Hr & Hf & Hlast).
  destruct (performed_split es) as [Hp|(a & e & b & -> & Ha & He1 & He2 & Hlen)].
  - rewrite Hp in Hm. destruct (Hlast ltac:(eauto)) as (es0 & e & kv0 & Hes & Hr0 & Hs).
    assert (put_Version args ≠ version kv' (put_Key args)) as Hver.
    { unfold serve in Hs. rewrite Put_cas in Hs.
      destruct (_ =? _) eqn:Heq; apply pair_equal_spec in Hs as [<- <-]; bool_to_prop; [|done].
      rewrite Hes, performed_app, performed_ok in Hp by done. by destruct (performed es0). }
    exists (others_on key es), []. split; [by rewrite app_nil_r|].
    rewrite accepts_app, (accepts_others _ _ _ _ Hr Hp Hn). cbn [mbind option_bind app].
    apply (step_failed args kv'); [done|]. simpl in Hm. naive_solver lia.
  - apply replays_app in Hr as (kv1 & Hra & (kv2 & Hs & Hrb)).
    apply Forall_app in Hf as [_ [Hfe _]%Forall_cons_1]. rewrite He1 in Hs. rewrite (Hfe He1) in Hs.
    rewrite Hlen in Hm. clear Hlen.
    change (e :: b) with ([e] ++ b) in *. rewrite !others_on_app in *.
    assert (others_on key [e] = []) as Hnil
      by (unfold others_on; by rewrite filter_cons_False by congruence).
    rewrite Hnil in *. apply Forall_app in Hn as [Hn1 Hn2].
    assert (performed b = []) as Hpb.
    { destruct (performed b); [done|]. simpl in Hm. naive_solver lia. }
    exists (others_on key a), (others_on key b). split; [done|].
    rewrite accepts_app, (accepts_others _ _ _ _ Hra Ha Hn1). cbn [mbind option_bind].
    unfold serve in Hs. destruct (KVServer_Put args kv1) as [kv3 r] eqn:Hput.
    apply pair_equal_spec in Hs as [-> <-]. simpl in He2.
    rewrite accepts_app.
    assert (accepts (abs key kv1) [put_op args err] = Some (abs key kv2)) as ->.
    { apply (step_performed args kv1 kv2 r err); [done|done|].
      rewrite Hpb in Hm. simpl in Hm. naive_solver. }
    cbn [mbind option_bind]. by apply accepts_others.
Qed.

(** ** Partition *)

Lemma partitionMap_lookup h k :
  partitionMap h !! k = match filter (on_key k) h with [] => None | l => Some l end.
Proof.
  unfold partitionMap. induction h as [|o h IH] using rev_ind; [done|].
  rewrite foldl_app, list.filter_app. simpl. destruct (decide (ki_Key o.1 = k)) as [<-|Hne].
  - rewrite lookup_insert_eq, IH. rewrite (filter_cons_True _ o) by done.
    by destruct (filter (on_key (ki_Key o.1)) h).
  - rewrite lookup_insert_ne, IH by done. rewrite (filter_cons_False _ o) by done.
    by rewrite list.filter_nil, app_nil_r.
Qed.

Lemma concat_groups (keys : list string) h :
  NoDup keys → (∀ o, o ∈ h → ki_Key o.1 ∈ keys) →
  concat ((λ k, filter (on_key k) h) <$> keys) ≡ₚ h.
Proof.
  intros Hnd. induction h as [|o h IH]; intros Hall.
  { clear. by induction keys. }
  assert (∃ a b, keys = a ++ ki_Key o.1 :: b) as (a & b & ->)
    by (apply list_elem_of_split, Hall; set_solver).
  specialize (IH ltac:(set_solver)).
  apply list.NoDup_app in Hnd as (_ & Ha & [Hb _]%list.NoDup_cons).
  assert (∀ ks : list string, ki_Key o.1 ∉ ks →
    (λ k, filter (on_key k) (o :: h)) <$> ks = (λ k, filter (on_key k) h) <$> ks) as Hsame.
  { intros ks Hks. apply list_fmap_ext. intros i k Hi. apply filter_cons_False.
    unfold on_key. intros Hk. apply Hks. rewrite Hk. by eapply list_elem_of_lookup_2. }
  rewrite fmap_app, fmap_cons, concat_app in *. simpl. rewrite (Hsame a), (Hsame b) by set_solver.
  rewrite filter_cons_True by done. simpl in *. rewrite <-IH at 2.
  by rewrite <-Permutation_middle.
Qed.

(** Partition splits a history by key and loses nothing: its groups are
    the operations of each key that occurs, in their original order, one group
    per key, in the order of the keys. *)
Theorem Partition_by_key h :
  ∃ keys, KvModel_Partition h = (λ k, filter (on_key k) h) <$> keys ∧
    Sorted String.le keys ∧ NoDup keys ∧
    (∀ k, k ∈ keys ↔ ∃ o, o ∈ h ∧ on_key k o) ∧
    concat (KvModel_Partition h) ≡ₚ h.
Proof.
  unfold KvModel_Partition. set (keys := merge_sort String.le (elements (dom (partitionMap h)))).
  assert (keys ≡ₚ elements (dom (partitionMap h))) as Hperm by apply merge_sort_Permutation.
  assert (∀ k, k ∈ keys ↔ ∃ o, o ∈ h ∧ on_key k o) as Hk.
  { intros k. rewrite Hperm, elem_of_elements, elem_of_dom, partitionMap_lookup.
    split.
    - destruct (filter (on_key k) h) as [|o l] eqn:He; [by intros []|]. intros _. exists o.
      assert (o ∈ filter (on_key k) h) as Ho by (rewrite He; set_solver).
      apply list_elem_of_filter in Ho. naive_solver.
    - intros (o & Ho & Hok). assert (o ∈ filter (on_key k) h) as Hin
        by (by apply list_elem_of_filter).
      destruct (filter (on_key k) h); [by apply elem_of_nil in Hin|done]. }
  assert (NoDup keys) as Hnd by (rewrite Hperm; apply NoDup_elements).
  assert (∀ k, default [] (partitionMap h !! k) = filter (on_key k) h) as Hd.
  { intros k. rewrite partitionMap_lookup. by destruct (filter (on_key k) h). }
  exists keys. split_and!; [|apply Sorted_merge_sort; apply _|done|done|].
  { apply list_fmap_ext. intros. apply Hd. }
  rewrite (list_fmap_ext _ (λ k, filter (on_key k) h)) by (intros; apply Hd).
  apply concat_groups; [done|]. intros o Ho. apply Hk. by exists o.
Qed.

(** ** Instances *)

Lemma server_refines_model_witness :
  accepts KvModel_Init
    [put_op (mkPutArgs "k" "v" 0) OK; get_op (mkGetArgs "k") (mkGetReply "v" 1 OK);
     put_op (mkPutArgs "k" "w" 0) ErrVersion] = Some (mkKvState "v" 1).
Proof.
  pose (reqs := [ReqPut (mkPutArgs "k" "v" 0); ReqPut (mkPutArgs "j" "u" 0);
    ReqGet (mkGetArgs "k"); ReqPut (mkPutArgs "k" "w" 0)]).
  apply (server_refines_model reqs MakeKVServer (handle_all reqs MakeKVServer).1
           (handle_all reqs MakeKVServer).2 "k"); [by vm_compute|].
  repeat constructor; intros ?; by vm_compute.
Defined.

Lemma ErrNoKey_rejected_by_model_witness :
  KVServer_Put (mkPutArgs "k" "v" 3) MakeKVServer = (MakeKVServer, mkPutReply ErrNoKey) ∧
  accepts KvModel_Init [put_op (mkPutArgs "k" "v" 3) ErrNoKey] = None.
Proof.
  destruct (ErrNoKey_rejected_by_model (mkPutArgs "k" "v" 3) MakeKVServer) as [H1 H2];
    [by vm_compute|done|]. split; [exact H1|apply H2].
Defined.

Lemma Clerk_Put_linearizable_witness :
  ∃ pre post, others_on "k" (Clerk_Put "k" "v" 0 lossy MakeKVServer).1.2 = pre ++ post ∧
    accepts KvModel_Init (pre ++ [put_op (mkPutArgs "k" "v" 0) ErrMaybe] ++ post) =
      Some (mkKvState "w" 2).
Proof.
  apply (Clerk_Put_linearizable "k" "v" 0 lossy MakeKVServer
    (Clerk_Put "k" "v" 0 lossy MakeKVServer).1.1);
    [apply MakeKVServer_wf|done|by vm_compute|by vm_compute|done|].
  repeat constructor; intros ?; by vm_compute.
Defined.
