(* ===== verification/Lock.v ===== *)
(** * The lock

    Models src/6.5840/src/kvsrv1/lock/lock.go: any number of clients that
    acquire and release one lock, each driving its clerk against the key/value
    server.  A client's position in Acquire or Release is a program counter; a
    step is one attempt of a clerk call, so the attempts of different clients
    interleave and each may lose its request or its reply. *)

From S2P Require Import Prelude KVRpc KVSrv.

Record Lock := mkLock { lk_l : string; lk_myID : string }.

(** [MakeLock]; [id] is the result of [kvtest.RandValue(8)]. *)
Definition MakeLock (l id : string) : Lock := mkLock l id.

(** Where a client is: [AcqPut] and [RelPut] are inside [ck.Put(lk.l, _, ver)],
    [first] being the clerk's variable. *)
Inductive PC :=
| Idle
| AcqGet
| AcqPut (ver : Tversion) (first : bool)
| AcqCheck
| Held
| RelGet
| RelPut (ver : Tversion) (first : bool).

(** ** Acquire *)

(** [val, ver, err := lk.ck.Get(lk.l)]; the branch taken. *)
Definition acquire_get (r : GetReply) : PC :=
  if decide (gr_Err r = ErrNoKey) then AcqPut 0 true
  else if decide (gr_Err r = OK) then
    if decide (gr_Value r = "") then AcqPut (gr_Version r) true else AcqGet
  else AcqGet.

(** After [putErr := lk.ck.Put(lk.l, lk.myID, ver)]. *)
Definition acquire_put (putErr : Err) : PC :=
  if decide (putErr = OK) then Held
  else if decide (putErr = ErrMaybe) then AcqCheck else AcqGet.

(** After [v, _, e := lk.ck.Get(lk.l)]. *)
Definition acquire_check (lk : Lock) (r : GetReply) : PC :=
  if decide (gr_Err r = OK) then
    if decide (gr_Value r = lk_myID lk) then Held else AcqGet
  else AcqGet.

(** ** Release *)

Definition release_get (lk : Lock) (r : GetReply) : PC :=
  if decide (gr_Err r = OK) then
    if decide (gr_Value r = lk_myID lk) then RelPut (gr_Version r) true else Idle
  else Idle.

Definition release_put (putErr : Err) : PC :=
  if decide (putErr = OK) then Idle else RelGet.

Section System.
Context (l : string) (ids : nat → string).

Definition lock_of (i : nat) : Lock := MakeLock l (ids i).

Record LockSys := mkLockSys { sys_kv : KVServer; sys_pc : nat → PC }.

Definition goto (i : nat) (p : PC) (c : LockSys) : nat → PC :=
  λ j, if decide (i = j) then p else sys_pc c j.

(** The request a client in [AcqPut] or [RelPut] sends. *)
Definition acquire_args (i : nat) (ver : Tversion) : PutArgs := mkPutArgs l (ids i) ver.
Definition release_args (ver : Tversion) : PutArgs := mkPutArgs l "" ver.

Inductive lock_step (c : LockSys) : LockSys → Prop :=
| l_acquire i : sys_pc c i = Idle → lock_step c (mkLockSys (sys_kv c) (goto i AcqGet c))
| l_acq_get i : sys_pc c i = AcqGet →
    lock_step c (mkLockSys (sys_kv c)
      (goto i (acquire_get (KVServer_Get (mkGetArgs l) (sys_kv c))) c))
| l_acq_put_lost i ver first : sys_pc c i = AcqPut ver first →
    lock_step c (mkLockSys (sys_kv c) (goto i (AcqPut ver false) c))
| l_acq_put_unheard i ver first kv' r : sys_pc c i = AcqPut ver first →
    KVServer_Put (acquire_args i ver) (sys_kv c) = (kv', r) →
    lock_step c (mkLockSys kv' (goto i (AcqPut ver false) c))
| l_acq_put i ver first kv' r : sys_pc c i = AcqPut ver first →
    KVServer_Put (acquire_args i ver) (sys_kv c) = (kv', r) →
    lock_step c (mkLockSys kv' (goto i (acquire_put (putResult first (pr_Err r))) c))
| l_acq_check i : sys_pc c i = AcqCheck →
    lock_step c (mkLockSys (sys_kv c)
      (goto i (acquire_check (lock_of i) (KVServer_Get (mkGetArgs l) (sys_kv c))) c))
| l_release i : sys_pc c i = Held → lock_step c (mkLockSys (sys_kv c) (goto i RelGet c))
| l_rel_get i : sys_pc c i = RelGet →
    lock_step c (mkLockSys (sys_kv c)
      (goto i (release_get (lock_of i) (KVServer_Get (mkGetArgs l) (sys_kv c))) c))
| l_rel_put_lost i ver first : sys_pc c i = RelPut ver first →
    lock_step c (mkLockSys (sys_kv c) (goto i (RelPut ver false) c))
| l_rel_put_unheard i ver first kv' r : sys_pc c i = RelPut ver first →
    KVServer_Put (release_args ver) (sys_kv c) = (kv', r) →
    lock_step c (mkLockSys kv' (goto i (RelPut ver false) c))
| l_rel_put i ver first kv' r : sys_pc c i = RelPut ver first →
    KVServer_Put (release_args ver) (sys_kv c) = (kv', r) →
    lock_step c (mkLockSys kv' (goto i (release_put (putResult first (pr_Err r))) c)).

Definition lock_init (c : LockSys) : Prop :=
  store (sys_kv c) !! l = None ∧ ∀ i, sys_pc c i = Idle.

(** ** The invariant *)

(** The value of the lock's key, empty when it has none. *)
Definition lock_val (kv : KVServer) : string :=
  match store kv !! l with Some item => vv_val item | None => "" end.

(** What the position of client [i] says about the value [v] and the version
    [cur] of the key. *)
Definition pc_inv (id v : string) (cur : Z) (p : PC) : Prop :=
  match p with
  | Idle | AcqGet => v ≠ id
  | AcqPut ver first => ver <= cur ∧ (ver = cur → v = "") ∧ (first = true → v ≠ id)
  | Held => v = id
  | RelPut ver _ => ver <= cur ∧ (ver = cur → v = id)
  | AcqCheck | RelGet => True
  end.

Record lock_inv (n : nat) (c : LockSys) : Prop := mkLockInv {
  li_range : 0 <= version (sys_kv c) l <= Z.of_nat n;
  li_pc i : pc_inv (ids i) (lock_val (sys_kv c)) (version (sys_kv c) l) (sys_pc c i)
}.

(** The identifiers of [kvtest.RandValue] are not empty; they are taken to be
    distinct. *)
Context (ids_nonempty : ∀ i, ids i ≠ "") (ids_distinct : ∀ i j, ids i = ids j → i = j).

Lemma put_cases value ver kv kv' r :
  KVServer_Put (mkPutArgs l value ver) kv = (kv', r) → 0 <= version kv l < 2 ^ 64 - 1 →
  (ver = version kv l ∧ pr_Err r = OK ∧ lock_val kv' = value ∧
     version kv' l = version kv l + 1) ∨
  (ver ≠ version kv l ∧ kv' = kv ∧
     (pr_Err r = ErrVersion ∨ pr_Err r = ErrNoKey ∧ lock_val kv = "")).
Proof.
  rewrite Put_cas. simpl. intros H Hb.
  destruct (_ =? _) eqn:He; apply pair_equal_spec in H as [<- <-]; bool_to_prop.
  - left. unfold lock_val, version. simpl. rewrite lookup_insert_eq. simpl.
    rewrite u64_small by (unfold is_u64; lia). by rewrite He.
  - right. split_and!; [done|done|]. simpl. unfold lock_val.
    destruct (store kv !! l); [left; by rewrite decide_True by done|right].
    by rewrite decide_False by (by intros [? ?]).
Qed.

Lemma get_cases kv :
  let r := KVServer_Get (mkGetArgs l) kv in
  (gr_Err r = ErrNoKey ∧ lock_val kv = "" ∧ version kv l = 0) ∨
  (gr_Err r = OK ∧ gr_Value r = lock_val kv ∧ gr_Version r = version kv l).
Proof.
  unfold KVServer_Get, lock_val, version. simpl. destruct (store kv !! l); [by right|by left].
Qed.

(** A step of client [i] that does not change the key. *)
Lemma inv_local n c i p :
  lock_inv n c → pc_inv (ids i) (lock_val (sys_kv c)) (version (sys_kv c) l) p →
  lock_inv (S n) (mkLockSys (sys_kv c) (goto i p c)).
Proof.
  intros [Hr Hp] Hi. constructor; simpl; [lia|]. intros j. unfold goto.
  case_decide; [by subst|apply Hp].
Qed.

(** A step of client [i] that changes the key: the old value was free or its
    own, so nobody else holds the lock, and the new one is not another's. *)
Lemma inv_write n c kv' i p :
  lock_inv n c → version kv' l = version (sys_kv c) l + 1 →
  (lock_val (sys_kv c) = "" ∨ lock_val (sys_kv c) = ids i) →
  (lock_val kv' = "" ∨ lock_val kv' = ids i) →
  pc_inv (ids i) (lock_val kv') (version kv' l) p →
  lock_inv (S n) (mkLockSys kv' (goto i p c)).
Proof.
  intros [Hr Hp] Hv Hold Hnew Hi. constructor; simpl; [lia|]. intros j. unfold goto.
  case_decide as Hij; [by subst|]. specialize (Hp j).
  assert (lock_val kv' ≠ ids j) as Hne.
  { intros He. destruct Hnew as [Hn|Hn]; rewrite Hn in He; [by eapply ids_nonempty|].
    by apply Hij, ids_distinct. }
  destruct (sys_pc c j); simpl in *; try done; try (split_and!; [lia|lia|done]); [|lia].
  exfalso. destruct Hold as [Hn|Hn]; rewrite Hn in Hp; [by eapply ids_nonempty|].
  by apply Hij, ids_distinct.
Qed.

Lemma lock_inv_step n c c' :
  lock_inv n c → lock_step c c' → Z.of_nat n < 2 ^ 64 - 1 → lock_inv (S n) c'.
Proof.
  intros Hinv Hstep Hn. pose proof (li_range _ _ Hinv) as Hr.
  destruct Hstep as [i Hpc|i Hpc|i ver first Hpc|i ver first kv' r Hpc Hput
    |i ver first kv' r Hpc Hput|i Hpc|i Hpc|i Hpc|i ver first Hpc
    |i ver first kv' r Hpc Hput|i ver first kv' r Hpc Hput];
    pose proof (li_pc _ _ Hinv i) as Hi; rewrite Hpc in Hi; simpl in Hi.
  - by apply inv_local.
  - apply inv_local; [done|]. unfold acquire_get.
    destruct (get_cases (sys_kv c)) as [(-> & Hv & H0)|(-> & -> & ->)]; simpl.
    + rewrite H0. done.
    + case_decide; simpl; [|done]. split_and!; [lia|done|done].
  - apply inv_local; [done|]. naive_solver.
  - destruct (put_cases _ _ _ _ _ Hput) as [(-> & _ & Hv & Hc)|(Hne & -> & _)]; [lia| |].
    + apply inv_write; [done|done|left; naive_solver|by right|]. simpl. split_and!; [lia|lia|done].
    + apply inv_local; [done|]. naive_solver.
  - destruct (put_cases _ _ _ _ _ Hput) as [(-> & He & Hv & Hc)|(Hne & -> & He)]; [lia| |].
    + rewrite He. apply inv_write; [done|done|left; naive_solver|by right|].
      by destruct first.
    + apply inv_local; [done|]. destruct Hi as (_ & _ & Hf).
      destruct He as [->|[-> He]]; destruct first; simpl; auto.
      rewrite He. intros Hx. by eapply ids_nonempty.
  - apply inv_local; [done|]. unfold acquire_check.
    destruct (get_cases (sys_kv c)) as [(-> & Hv & H0)|(-> & -> & _)]; simpl.
    + rewrite Hv. intros He. by eapply ids_nonempty.
    + by case_decide.
  - by apply inv_local.
  - apply inv_local; [done|]. unfold release_get.
    destruct (get_cases (sys_kv c)) as [(-> & Hv & H0)|(-> & -> & ->)]; simpl.
    + rewrite Hv. intros He. by eapply ids_nonempty.
    + case_decide; simpl; [|done]. split; [lia|done].
  - by apply inv_local.
  - destruct (put_cases _ _ _ _ _ Hput) as [(-> & _ & Hv & Hc)|(Hne & -> & _)]; [lia| |].
    + apply inv_write; [done|done|right; naive_solver|by left|]. simpl. lia.
    + by apply inv_local.
  - destruct (put_cases _ _ _ _ _ Hput) as [(-> & He & Hv & Hc)|(Hne & -> & He)]; [lia| |].
    + rewrite He. apply inv_write; [done|done|right; naive_solver|by left|].
      destruct first; simpl; rewrite Hv; intros Hx; by eapply ids_nonempty.
    + apply inv_local; [done|]. destruct He as [->|[-> _]]; by destruct first.
Qed.

Lemma lock_inv_run n : ∀ c0 c,
  lock_init c0 → nsteps lock_step n c0 c → Z.of_nat n < 2 ^ 64 → lock_inv n c.
Proof.
  induction n as [|n IH]; intros c0 c Hi Hs Hn.
  - inversion Hs; subst. destruct Hi as [Hk Hpc].
    assert (version (sys_kv c) l = 0 ∧ lock_val (sys_kv c) = "") as [Hv0 Hl0]
      by (unfold version, lock_val; by rewrite Hk).
    constructor; [lia|]. intros i. rewrite Hpc, Hl0. simpl. intros He. by eapply ids_nonempty.
  - apply nsteps_inv_r in Hs as (c1 & Hs & Hlast).
    eapply lock_inv_step; [|done|lia]. apply (IH c0); [done|done|lia].
Qed.

(** C22. Mutual exclusion: from a fresh lock, after any interleaving of fewer
    than 2^64 steps of any number of clients, with requests and replies lost at
    any point, at most one client is between the return of Acquire and the call
    of Release, and the lock's key holds that client's identifier. *)
Theorem lock_mutual_exclusion n c0 c i j :
  lock_init c0 → nsteps lock_step n c0 c → Z.of_nat n < 2 ^ 64 →
  sys_pc c i = Held →
  gr_Value (KVServer_Get (mkGetArgs l) (sys_kv c)) = ids i ∧
  (sys_pc c j = Held → i = j).
Proof.
  intros H0 Hs Hn Hi. destruct (lock_inv_run n c0 c H0 Hs Hn) as [_ Hp].
  pose proof (Hp i) as Hpi. rewrite Hi in Hpi. simpl in Hpi. split.
  - rewrite <-Hpi. unfold KVServer_Get, lock_val. simpl. by destruct (store (sys_kv c) !! l).
  - intros Hj. pose proof (Hp j) as Hpj. rewrite Hj in Hpj. simpl in Hpj.
    apply ids_distinct. congruence.
Qed.

Lemma goto_eq i p c : goto i p c i = p.
Proof. unfold goto. by rewrite decide_True. Qed.

(** The lock can always be taken and always be given back: a client about
    to read a free lock acquires it in two undisturbed steps, and the holder
    releases it in three, leaving it free. *)
Theorem lock_progress n c0 c i :
  lock_init c0 → nsteps lock_step n c0 c → Z.of_nat n < 2 ^ 64 - 1 →
  (sys_pc c i = AcqGet → lock_val (sys_kv c) = "" →
     ∃ c', nsteps lock_step 2 c c' ∧ sys_pc c' i = Held) ∧
  (sys_pc c i = Held →
     ∃ c', nsteps lock_step 3 c c' ∧ sys_pc c' i = Idle ∧ lock_val (sys_kv c') = "").
Proof.
  intros H0 Hs Hn. destruct (lock_inv_run n c0 c H0 Hs ltac:(lia)) as [Hr Hp].
  split.
  - intros Hpc Hfree. set (kv := sys_kv c) in *.
    assert (acquire_get (KVServer_Get (mkGetArgs l) kv) = AcqPut (version kv l) true) as Hget.
    { unfold acquire_get. destruct (get_cases kv) as [(-> & _ & ->)|(-> & -> & ->)]; [done|].
      by rewrite Hfree. }
    destruct (KVServer_Put (acquire_args i (version kv l)) kv) as [kv' r] eqn:Hput.
    destruct (put_cases _ _ _ _ _ Hput) as [(_ & He & _)|(Hne & _)]; [lia| |done].
    eexists. split.
    + eapply nsteps_l; [by apply l_acq_get|]. fold kv. rewrite Hget.
      eapply nsteps_once, (l_acq_put _ i _ true); [apply goto_eq|exact Hput].
    + simpl. rewrite goto_eq, He. done.
  - intros Hpc. specialize (Hp i). rewrite Hpc in Hp. simpl in Hp. set (kv := sys_kv c) in *.
    assert (release_get (lock_of i) (KVServer_Get (mkGetArgs l) kv) =
            RelPut (version kv l) true) as Hget.
    { unfold release_get. destruct (get_cases kv) as [(_ & Hv & _)|(-> & -> & ->)].
      - exfalso. eapply ids_nonempty. by rewrite <-Hp.
      - rewrite decide_True by done. by rewrite decide_True. }
    destruct (KVServer_Put (release_args (version kv l)) kv) as [kv' r] eqn:Hput.
    destruct (put_cases _ _ _ _ _ Hput) as [(_ & He & Hv & _)|(Hne & _)]; [lia| |done].
    eexists. split_and!.
    + eapply nsteps_l; [by apply l_release|].
      eapply nsteps_l; [apply (l_rel_get _ i), goto_eq|]. simpl. fold kv. rewrite Hget.
      eapply nsteps_once, (l_rel_put _ i _ true); [apply goto_eq|exact Hput].
    + simpl. rewrite goto_eq, He. done.
    + exact Hv.
Qed.

End System.

(** ** Instances *)

Fixpoint unary (i : nat) : string :=
  match i with O => "a" | S i => ("a" ++ unary i)%string end.

Lemma unary_nonempty i : unary i ≠ "".
Proof. by destruct i. Qed.

Lemma unary_inj i j : unary i = unary j → i = j.
Proof.
  revert j. induction i as [|i IH]; intros [|j] H; [done| | |];
    simpl in H; injection H as H; try (by destruct j); try (by destruct i). by f_equal; apply IH.
Qed.

Definition lock_start : LockSys := mkLockSys MakeKVServer (λ _, Idle).

Lemma lock_mutual_exclusion_witness :
  ∃ c, nsteps (lock_step "l" unary) 3 lock_start c ∧ sys_pc c 0%nat = Held ∧
    ∀ j, sys_pc c j = Held → 0%nat = j.
Proof.
  assert (∃ c, nsteps (lock_step "l" unary) 3 lock_start c ∧ sys_pc c 0%nat = Held)
    as (c & Hs & Hh).
  { eexists. split.
    - eapply nsteps_l; [by apply (l_acquire _ _ _ 0)|].
      eapply nsteps_l; [by apply (l_acq_get _ _ _ 0)|].
      eapply nsteps_once, (l_acq_put _ _ _ 0 0 true); [done|apply surjective_pairing].
    - done. }
  exists c. split; [exact Hs|]. split; [exact Hh|]. intros j.
  apply (lock_mutual_exclusion "l" unary unary_nonempty unary_inj 3 lock_start c 0 j
           (conj eq_refl (λ _, eq_refl)) Hs ltac:(lia) Hh).
Defined.

Lemma lock_progress_witness :
  ∃ c', nsteps (lock_step "l" unary) 2
          (mkLockSys MakeKVServer (goto 0 AcqGet lock_start)) c' ∧ sys_pc c' 0%nat = Held.
Proof.
  apply (lock_progress "l" unary unary_nonempty unary_inj 1 lock_start _ 0
           (conj eq_refl (λ _, eq_refl))); [|done|done|done].
  by apply nsteps_once, (l_acquire "l" unary lock_start 0).
Defined.
