(* ===== verification/RSM.v ===== *)
(** * The replicated state machine

    Models src/6.5840/src/kvraft1/rsm/rsm.go: the [applyReader] goroutine and
    any number of concurrent calls of [Submit] on one server, as a transition
    system whose steps are the pieces of code between two synchronisation
    points (a channel operation, a call into Raft, a critical section of
    [rsm.mu]).  Raft is the environment: what [GetState], [Start] and
    [PersistBytes] return is arbitrary, and the commands it delivers are ones
    that were submitted on some server. *)

From S2P Require Import Prelude Gob KVRpc Raft.

(** The [StateMachine] interface.  [DoOp] returns [None] where the service
    terminates the process. *)
Class StateMachine (S Req Res : Type) := {
  DoOp : Req → S → option (S * Res);
  SM_Snapshot : S → list byte;
  SM_Restore : list byte → S → option S;
  (** a snapshot has the state in it *)
  restore_snapshot s s' : SM_Restore (SM_Snapshot s) s' = Some s;
  snapshot_nonempty s : SM_Snapshot s ≠ []
}.

Record Op {Req : Type} := mkOp { op_Id : Z; op_Term : Z; op_Command : Req }.
Arguments Op : clear implicits.
Arguments mkOp {Req} _ _ _.

#[export] Instance Op_eq_dec {Req} `{!EqDecision Req} : EqDecision (Op Req).
Proof. solve_decision. Defined.

#[export] Instance Op_countable {Req} `{Countable Req} : Countable (Op Req) :=
  inj_countable' (λ o : Op Req, (op_Id o, op_Term o, op_Command o))
    (λ '(i, t, r), mkOp i t r) (λ o, match o with mkOp _ _ _ => eq_refl end).

Record Notification {Res : Type} := mkNotification { n_id : Z; n_term : Z; n_result : Res }.
Arguments Notification : clear implicits.
Arguments mkNotification {Res} _ _ _.

Section RSM.
Context {S Req Res : Type} `{!StateMachine S Req Res}.

(** A channel of capacity 1. *)
Inductive Chan := ChEmpty | ChFull (n : Notification Res) | ChClosed.

(** A call of [Submit]: not yet made, after [GetState], after [Start], in the
    loop on the channel, in the deferred function, returned.  The operation and
    its index are kept after the return. *)
Inductive SubmitPC :=
| SNew (req : Req)
| SState (req : Req) (term : Z)
| SStarted (op : Op Req) (index startTerm : Z)
| SWait (op : Op Req) (index startTerm : Z)
| SDefer (op : Op Req) (index : Z) (err : Err) (res : option Res)
| SRefused
| SDone (op : Op Req) (index : Z) (err : Err) (res : option Res).

(** [applyReader]: at the receive, after [DoOp], at the send on the channel
    (outside the lock), at the check of the size, after the loop. *)
Inductive ReaderPC :=
| RRecv
| RNotify (index : Z) (op : Op Req) (res : Res)
| RSend (index : Z) (ch : nat) (n : Notification Res)
| RCheck (index : Z)
| RExit.

(** A channel is named by the call of [Submit] that makes it.  The last three
    fields record what happened: the operations submitted on any server, the
    commands applied here (newest first) since the service's state was [rsm_base],
    and the snapshots handed to Raft. *)
Record RSM := mkRSM {
  rsm_sm : S;
  pendingOps : gmap Z nat;
  chans : gmap nat Chan;
  subs : nat → SubmitPC;
  reader : ReaderPC;
  sent : list (Op Req);
  rsm_base : S;
  applied : list (Z * Op Req * Res);
  history : list (Z * Op Req * Res);
  snapshots : list (Z * list byte)
}.

(** ** The pieces of applyReader *)

(** The critical section after [DoOp]. *)
Definition notifyPending (index : Z) (op : Op Req) (res : Res) (c : RSM) :
    gmap Z nat * ReaderPC :=
  match pendingOps c !! index with
  | Some ch => (delete index (pendingOps c), RSend index ch (mkNotification (op_Id op) (op_Term op) res))
  | None => (pendingOps c, RCheck index)
  end.

(** The snapshot is taken when the Raft state has reached [maxraftstate] bytes. *)
Definition takeSnapshot (maxraftstate persistBytes index : Z) (s : S) : list (Z * list byte) :=
  if negb (maxraftstate =? -1) && (maxraftstate <=? persistBytes)
  then [(index, SM_Snapshot s)] else [].

(** The loop that closes the pending channels. *)
Definition closePending (c : RSM) : gmap nat Chan :=
  foldr (λ ch m, <[ch := ChClosed]> m) (chans c) ((map_to_list (pendingOps c)).*2).

(** ** The pieces of Submit *)

(** The result for a notification received on the channel. *)
Definition submitReceive (op : Op Req) (startTerm : Z) (n : Notification Res) : Err * option Res :=
  if negb (n_term n =? startTerm) || negb (n_id n =? op_Id op) then (ErrWrongLeader, None)
  else (OK, Some (n_result n)).

Definition set_sub (s : nat) (p : SubmitPC) (c : RSM) : nat → SubmitPC :=
  λ s', if decide (s = s') then p else subs c s'.

Context (maxraftstate : Z).

Inductive rsm_step (c : RSM) : RSM → Prop :=
(* Submit *)
| r_state s req term : subs c s = SNew req →
    rsm_step c (mkRSM (rsm_sm c) (pendingOps c) (chans c) (set_sub s (SState req term) c)
      (reader c) (sent c) (rsm_base c) (applied c) (history c) (snapshots c))
| r_refused s req : subs c s = SNew req →
    rsm_step c (mkRSM (rsm_sm c) (pendingOps c) (chans c) (set_sub s SRefused c)
      (reader c) (sent c) (rsm_base c) (applied c) (history c) (snapshots c))
| r_start s req term id index startTerm : subs c s = SState req term →
    id ∉ op_Id <$> sent c →
    rsm_step c (mkRSM (rsm_sm c) (pendingOps c) (chans c)
      (set_sub s (SStarted (mkOp id term req) index startTerm) c)
      (reader c) (mkOp id term req :: sent c) (rsm_base c) (applied c) (history c) (snapshots c))
| r_start_refused s req term : subs c s = SState req term →
    rsm_step c (mkRSM (rsm_sm c) (pendingOps c) (chans c) (set_sub s SRefused c)
      (reader c) (sent c) (rsm_base c) (applied c) (history c) (snapshots c))
| r_register s op index startTerm : subs c s = SStarted op index startTerm →
    rsm_step c (mkRSM (rsm_sm c) (<[index := s]> (pendingOps c)) (<[s := ChEmpty]> (chans c))
      (set_sub s (SWait op index startTerm) c)
      (reader c) (sent c) (rsm_base c) (applied c) (history c) (snapshots c))
| r_receive s op index startTerm n : subs c s = SWait op index startTerm →
    chans c !! s = Some (ChFull n) →
    rsm_step c (mkRSM (rsm_sm c) (pendingOps c) (<[s := ChEmpty]> (chans c))
      (set_sub s (SDefer op index (submitReceive op startTerm n).1
                                  (submitReceive op startTerm n).2) c)
      (reader c) (sent c) (rsm_base c) (applied c) (history c) (snapshots c))
| r_closed s op index startTerm : subs c s = SWait op index startTerm →
    chans c !! s = Some ChClosed →
    rsm_step c (mkRSM (rsm_sm c) (pendingOps c) (chans c)
      (set_sub s (SDefer op index ErrWrongLeader None) c)
      (reader c) (sent c) (rsm_base c) (applied c) (history c) (snapshots c))
(* GetState says that the leadership or the term is lost *)
| r_lost s op index startTerm : subs c s = SWait op index startTerm →
    rsm_step c (mkRSM (rsm_sm c) (pendingOps c) (chans c)
      (set_sub s (SDefer op index ErrWrongLeader None) c)
      (reader c) (sent c) (rsm_base c) (applied c) (history c) (snapshots c))
| r_defer s op index err res : subs c s = SDefer op index err res →
    rsm_step c (mkRSM (rsm_sm c) (delete index (pendingOps c)) (chans c)
      (set_sub s (SDone op index err res) c)
      (reader c) (sent c) (rsm_base c) (applied c) (history c) (snapshots c))
(* Submit on another server *)
| r_remote op : op_Id op ∉ op_Id <$> sent c →
    rsm_step c (mkRSM (rsm_sm c) (pendingOps c) (chans c) (subs c)
      (reader c) (op :: sent c) (rsm_base c) (applied c) (history c) (snapshots c))
(* applyReader *)
| r_apply (msg : ApplyMsg (Op Req)) op s' res : reader c = RRecv →
    CommandValid msg = true → am_Command msg = Some op → op ∈ sent c →
    DoOp (op_Command op) (rsm_sm c) = Some (s', res) →
    rsm_step c (mkRSM s' (pendingOps c) (chans c) (subs c)
      (RNotify (CommandIndex msg) op res) (sent c) (rsm_base c)
      ((CommandIndex msg, op, res) :: applied c) ((CommandIndex msg, op, res) :: history c)
      (snapshots c))
| r_notify index op res : reader c = RNotify index op res →
    rsm_step c (mkRSM (rsm_sm c) (notifyPending index op res c).1 (chans c) (subs c)
      (notifyPending index op res c).2
      (sent c) (rsm_base c) (applied c) (history c) (snapshots c))
| r_send index ch n : reader c = RSend index ch n → chans c !! ch = Some ChEmpty →
    rsm_step c (mkRSM (rsm_sm c) (pendingOps c) (<[ch := ChFull n]> (chans c)) (subs c)
      (RCheck index) (sent c) (rsm_base c) (applied c) (history c) (snapshots c))
| r_check index persistBytes : reader c = RCheck index →
    rsm_step c (mkRSM (rsm_sm c) (pendingOps c) (chans c) (subs c) RRecv
      (sent c) (rsm_base c) (applied c) (history c)
      (takeSnapshot maxraftstate persistBytes index (rsm_sm c) ++ snapshots c))
| r_restore (msg : ApplyMsg (Op Req)) s' : reader c = RRecv →
    CommandValid msg = false → SnapshotValid msg = true →
    SM_Restore (am_Snapshot msg) (rsm_sm c) = Some s' →
    rsm_step c (mkRSM s' (pendingOps c) (chans c) (subs c) RRecv (sent c) s' [] (history c)
      (snapshots c))
| r_shutdown : reader c = RRecv →
    rsm_step c (mkRSM (rsm_sm c) ∅ (closePending c) (subs c) RExit
      (sent c) (rsm_base c) (applied c) (history c) (snapshots c)).

(** [MakeRSM] on a server whose service starts in [s0]: the snapshot of the
    persister, if any, is restored. *)
Definition MakeRSM (snapshot : list byte) (s0 : S) (reqs : nat → Req) (sent0 : list (Op Req)) :
    option RSM :=
  s ← (if 0 <? len snapshot then SM_Restore snapshot s0 else Some s0);
  Some (mkRSM s ∅ ∅ (λ i, SNew (reqs i)) RRecv sent0 s [] [] []).

Definition rsm_init (c : RSM) : Prop :=
  ∃ snapshot s0 reqs sent0, MakeRSM snapshot s0 reqs sent0 = Some c ∧ NoDup (op_Id <$> sent0).

Definition rsm_reachable : RSM → Prop := reachable rsm_init rsm_step.

(** ** The invariant *)

(** Executing the commands of [l], newest first, from [s] leads to [s'] with the
    results recorded in [l]. *)
Fixpoint runs (s : S) (l : list (Z * Op Req * Res)) (s' : S) : Prop :=
  match l with
  | [] => s = s'
  | (_, op, res) :: l => ∃ s1, runs s l s1 ∧ DoOp (op_Command op) s1 = Some (s', res)
  end.

Definition sub_index (p : SubmitPC) : option Z :=
  match p with SWait _ i _ | SDefer _ i _ _ => Some i | _ => None end.

(** [n] reports an application at [index]. *)
Definition reports (c : RSM) (index : Z) (n : Notification Res) : Prop :=
  ∃ op, op ∈ sent c ∧ op_Id op = n_id n ∧ (index, op, n_result n) ∈ history c.

Record rsm_inv (c : RSM) : Prop := mkRsmInv {
  ri_ids : NoDup (op_Id <$> sent c);
  ri_sub_op s op i st : subs c s = SStarted op i st ∨ subs c s = SWait op i st → op ∈ sent c;
  ri_pending i s : pendingOps c !! i = Some s →
    sub_index (subs c s) = Some i ∧ chans c !! s = Some ChEmpty;
  ri_chan s : is_Some (chans c !! s) →
    match subs c s with SNew _ | SState _ _ | SStarted _ _ _ | SRefused => False | _ => True end;
  ri_full s n op i st : chans c !! s = Some (ChFull n) → subs c s = SWait op i st → reports c i n;
  ri_send i s n : reader c = RSend i s n →
    chans c !! s = Some ChEmpty ∧ (∀ j, pendingOps c !! j ≠ Some s) ∧ reports c i n ∧
    ∀ op j st, subs c s = SWait op j st → j = i;
  ri_notify i op res : reader c = RNotify i op res → op ∈ sent c ∧ (i, op, res) ∈ history c;
  ri_defer s op i res :
    subs c s = SDefer op i OK (Some res) ∨ subs c s = SDone op i OK (Some res) →
    (i, op, res) ∈ history c
}.

Lemma reports_mono c c' i n :
  sent c ⊆ sent c' → history c ⊆ history c' → reports c i n → reports c' i n.
Proof. unfold reports. intros Hs Hh (op & ? & ? & ?). exists op. auto. Qed.

(** Two operations with the same identifier are the same. *)
Lemma id_unique (l : list (Op Req)) op op' :
  NoDup (op_Id <$> l) → op ∈ l → op' ∈ l → op_Id op = op_Id op' → op = op'.
Proof.
  intros Hnd (i & Hi)%list_elem_of_lookup (j & Hj)%list_elem_of_lookup Heq.
  assert (i = j) as ->; [|congruence].
  eapply NoDup_lookup; [exact Hnd|..]; rewrite list_lookup_fmap; [by rewrite Hi|].
  rewrite Hj. simpl. by rewrite Heq.
Qed.

(** Steps of a call of Submit that touch neither channels nor [pendingOps]. *)
Lemma inv_sub c s p sent' :
  rsm_inv c → sent c ⊆ sent' → NoDup (op_Id <$> sent') →
  sub_index p = sub_index (subs c s) →
  match p with
  | SStarted op _ _ => op ∈ sent'
  | SWait _ _ _ | SDone _ _ _ _ => False
  | SDefer _ _ err _ => err ≠ OK
  | _ => True
  end →
  (match subs c s with SNew _ | SState _ _ | SStarted _ _ _ | SRefused => True | _ => False end ∨
   match p with SNew _ | SState _ _ | SStarted _ _ _ | SRefused => False | _ => True end) →
  rsm_inv (mkRSM (rsm_sm c) (pendingOps c) (chans c) (set_sub s p c) (reader c) sent'
             (rsm_base c) (applied c) (history c) (snapshots c)).
Proof.
  intros [Hids Hop Hpend Hchan Hfull Hsend Hnot Hdef] Hsub Hnd Hidx Hp Hcase.
  assert (∀ c' i n, sent c ⊆ sent c' → history c' = history c → reports c i n → reports c' i n)
    as Hrep by (intros c' ??? Hh; apply reports_mono; [done|by rewrite Hh]).
  constructor; simpl; [done|..].
  - intros s' op i st. unfold set_sub. case_decide; [|eauto].
    intros [->| ->]; [done|by destruct Hp].
  - intros i s' Hi. destruct (Hpend i s' Hi) as [H1 H2]. unfold set_sub. case_decide; [|done].
    subst. by rewrite Hidx.
  - intros s' Hs'. specialize (Hchan s' Hs'). unfold set_sub. case_decide; [subst|done].
    destruct Hcase as [Hc|Hc]; [by destruct (subs c s')|done].
  - intros s' n op i st Hc. unfold set_sub. case_decide; [intros ->; by destruct Hp|].
    intros Hw. eapply Hrep; [done|done|]. eauto.
  - intros i s' n Hr. destruct (Hsend i s' n Hr) as (H1 & H2 & H3 & H4). split_and!; auto.
    intros op j st. unfold set_sub. case_decide; [intros ->; by destruct Hp|eauto].
  - intros i op res Hr. destruct (Hnot i op res Hr). auto.
  - intros s' op i res. unfold set_sub. case_decide; [|eauto].
    intros [->| ->]; [by destruct Hp|by destruct Hp].
Qed.

(** Steps of the reader that leave the calls of Submit alone. *)
Lemma inv_reader c sm r sent' base ap h snaps :
  rsm_inv c → sent c ⊆ sent' → NoDup (op_Id <$> sent') → history c ⊆ h →
  match r with
  | RNotify i op res => op ∈ sent' ∧ (i, op, res) ∈ h
  | RSend _ _ _ => r = reader c
  | _ => True
  end →
  rsm_inv (mkRSM sm (pendingOps c) (chans c) (subs c) r sent' base ap h snaps).
Proof.
  intros [Hids Hop Hpend Hchan Hfull Hsend Hnot Hdef] Hsub Hnd Hh Hr.
  assert (∀ c' i n, sent c ⊆ sent c' → history c ⊆ history c' → reports c i n → reports c' i n)
    as Hrep by (intros; by eapply reports_mono).
  constructor; simpl; eauto.
  - intros i s n ->. destruct (Hsend i s n (eq_sym Hr)) as (? & ? & ? & ?). split_and!; auto.
  - by intros i op res ->.
Qed.

Lemma inv_register c s op index st :
  rsm_inv c → subs c s = SStarted op index st →
  rsm_inv (mkRSM (rsm_sm c) (<[index := s]> (pendingOps c)) (<[s := ChEmpty]> (chans c))
    (set_sub s (SWait op index st) c) (reader c) (sent c) (rsm_base c) (applied c)
    (history c) (snapshots c)).
Proof.
  intros [Hids Hop Hpend Hchan Hfull Hsend Hnot Hdef] Hs.
  assert (chans c !! s = None) as Hnone.
  { destruct (chans c !! s) eqn:E; [|done]. specialize (Hchan s). rewrite E, Hs in Hchan.
    exfalso. apply Hchan. eauto. }
  assert (∀ i, pendingOps c !! i ≠ Some s) as Hnp.
  { intros i Hi. apply Hpend in Hi as [_ Hi]. congruence. }
  constructor; simpl; [done|..].
  - intros s' op' i st'. unfold set_sub. case_decide; [|eauto].
    intros [?|?]; simplify_eq. eapply Hop. left. exact Hs.
  - intros i s'. unfold set_sub. rewrite lookup_insert_Some. intros [[<- <-]|[Hne Hi]].
    + rewrite decide_True, lookup_insert_eq by done. done.
    + assert (s ≠ s') by (intros ->; by eapply Hnp).
      rewrite decide_False, lookup_insert_ne by done. auto.
  - intros s'. unfold set_sub. case_decide; [done|]. rewrite lookup_insert_ne by done.
    apply Hchan.
  - intros s' n op' i st'. unfold set_sub. case_decide.
    + subst. rewrite lookup_insert_eq. done.
    + rewrite lookup_insert_ne by done. eauto.
  - intros i s' n Hr. destruct (Hsend i s' n Hr) as (H1 & H2 & H3 & H4).
    assert (s ≠ s') by congruence. rewrite lookup_insert_ne by done. unfold set_sub.
    rewrite decide_False by done. split_and!; auto. intros j. rewrite lookup_insert_Some.
    intros [[? ?]|[_ ?]]; [done|]. by eapply H2.
  - done.
  - intros s' op' i res. unfold set_sub. case_decide; [naive_solver|eauto].
Qed.

Lemma inv_receive c s op index st n :
  rsm_inv c → subs c s = SWait op index st → chans c !! s = Some (ChFull n) →
  rsm_inv (mkRSM (rsm_sm c) (pendingOps c) (<[s := ChEmpty]> (chans c))
    (set_sub s (SDefer op index (submitReceive op st n).1 (submitReceive op st n).2) c)
    (reader c) (sent c) (rsm_base c) (applied c) (history c) (snapshots c)).
Proof.
  intros [Hids Hop Hpend Hchan Hfull Hsend Hnot Hdef] Hs Hc.
  assert (∀ i, pendingOps c !! i ≠ Some s) as Hnp.
  { intros i Hi. apply Hpend in Hi as [_ Hi]. congruence. }
  constructor; simpl; [done|..].
  - intros s' op' i st'. unfold set_sub. case_decide; [naive_solver|eauto].
  - intros i s' Hi. destruct (Hpend i s' Hi) as [? ?]. unfold set_sub.
    assert (s ≠ s') by (intros ->; by eapply Hnp).
    by rewrite decide_False, lookup_insert_ne by done.
  - intros s'. unfold set_sub. case_decide; [done|]. rewrite lookup_insert_ne by done.
    apply Hchan.
  - intros s' n' op' i st'. unfold set_sub. case_decide; [done|].
    rewrite lookup_insert_ne by done. eauto.
  - intros i s' n' Hr. destruct (Hsend i s' n' Hr) as (H1 & H2 & H3 & H4).
    assert (s ≠ s') by congruence. rewrite lookup_insert_ne by done. unfold set_sub.
    rewrite decide_False by done. auto.
  - done.
  - intros s' op' i res. unfold set_sub. case_decide; [|eauto]. subst s'.
    unfold submitReceive. destruct (_ || _) eqn:Hb; intros [Heq|Heq]; simplify_eq.
    bool_to_prop. destruct (Hfull s n op' i st Hc Hs) as (op & Hin & Hid & Hh).
    assert (op = op') as ->; [|done]. eapply id_unique; [exact Hids|done| |congruence].
    eapply Hop. eauto.
Qed.

Lemma inv_defer c s op index err res :
  rsm_inv c → subs c s = SDefer op index err res →
  rsm_inv (mkRSM (rsm_sm c) (delete index (pendingOps c)) (chans c)
    (set_sub s (SDone op index err res) c) (reader c) (sent c) (rsm_base c) (applied c)
    (history c) (snapshots c)).
Proof.
  intros [Hids Hop Hpend Hchan Hfull Hsend Hnot Hdef] Hs.
  constructor; simpl; [done|..].
  - intros s' op' i st'. unfold set_sub. case_decide; [naive_solver|eauto].
  - intros i s' [Hne Hi]%lookup_delete_Some. destruct (Hpend i s' Hi) as [Hx ?].
    split; [|done]. unfold set_sub. case_decide; [|done]. subst. rewrite Hs in Hx.
    by simplify_eq/=.
  - intros s'. unfold set_sub. case_decide; [done|apply Hchan].
  - intros s' n' op' i st'. unfold set_sub. case_decide; [done|]. eauto.
  - intros i s' n' Hr. destruct (Hsend i s' n' Hr) as (H1 & H2 & H3 & H4). split_and!; auto.
    + intros j [_ Hj]%lookup_delete_Some. by eapply H2.
    + intros op' j st. unfold set_sub. case_decide; [done|eauto].
  - done.
  - intros s' op' i res'. unfold set_sub. case_decide; [|eauto]. intros [?|?]; simplify_eq. eauto.
Qed.

Lemma inv_notify c index op res :
  rsm_inv c → reader c = RNotify index op res →
  rsm_inv (mkRSM (rsm_sm c) (notifyPending index op res c).1 (chans c) (subs c)
    (notifyPending index op res c).2 (sent c) (rsm_base c) (applied c) (history c)
    (snapshots c)).
Proof.
  intros Hinv Hr. unfold notifyPending.
  destruct (pendingOps c !! index) as [ch|] eqn:Hp; [|simpl; apply inv_reader; auto; apply Hinv].
  destruct Hinv as [Hids Hop Hpend Hchan Hfull Hsend Hnot Hdef].
  destruct (Hpend _ _ Hp) as [Hidx Hemp]. destruct (Hnot _ _ _ Hr) as [Hin Hh].
  constructor; simpl; [done|done| |done|done| |done|done].
  - intros i s [_ Hi]%lookup_delete_Some. auto.
  - intros i s n [= <- <- <-]. split_and!; [done| | |].
    + intros j [Hne Hj]%lookup_delete_Some. apply Hpend in Hj as [Hj _]. congruence.
    + by exists op.
    + intros op' j st Hs. rewrite Hs in Hidx. by injection Hidx.
Qed.

Lemma inv_send c index ch n :
  rsm_inv c → reader c = RSend index ch n →
  rsm_inv (mkRSM (rsm_sm c) (pendingOps c) (<[ch := ChFull n]> (chans c)) (subs c)
    (RCheck index) (sent c) (rsm_base c) (applied c) (history c) (snapshots c)).
Proof.
  intros [Hids Hop Hpend Hchan Hfull Hsend Hnot Hdef] Hr.
  destruct (Hsend _ _ _ Hr) as (Hemp & Hnp & Hrep & Hj).
  constructor; simpl; [done|done| | | |done|done|done].
  - intros i s Hi. assert (ch ≠ s) by (intros ->; by eapply Hnp).
    rewrite lookup_insert_ne by done. auto.
  - intros s Hs. apply Hchan. destruct (decide (ch = s)) as [->|]; [by eexists|].
    by rewrite lookup_insert_ne in Hs.
  - intros s n' op i st. rewrite lookup_insert_Some. intros [[-> [= <-]]|[_ ?]] Hs; [|eauto].
    by rewrite (Hj _ _ _ Hs).
Qed.

Lemma closePending_lookup c s ch :
  closePending c !! s = Some ch → ch ≠ ChClosed → chans c !! s = Some ch.
Proof.
  unfold closePending. induction ((map_to_list (pendingOps c)).*2) as [|x l IH]; simpl; [done|].
  rewrite lookup_insert_Some. naive_solver.
Qed.

Lemma closePending_is_Some c s :
  is_Some (closePending c !! s) → is_Some (chans c !! s) ∨ ∃ i, pendingOps c !! i = Some s.
Proof.
  unfold closePending. intros Hs.
  assert (is_Some (chans c !! s) ∨ s ∈ (map_to_list (pendingOps c)).*2) as [?|Hin]; [|by left|].
  - induction ((map_to_list (pendingOps c)).*2) as [|x l IH]; simpl in *; [by left|].
    rewrite lookup_insert_is_Some' in Hs. set_solver.
  - right. apply list_elem_of_fmap in Hin as ([i s'] & -> & Hin). exists i.
    by apply elem_of_map_to_list.
Qed.

Lemma inv_shutdown c :
  rsm_inv c →
  rsm_inv (mkRSM (rsm_sm c) ∅ (closePending c) (subs c) RExit (sent c) (rsm_base c) (applied c)
    (history c) (snapshots c)).
Proof.
  intros [Hids Hop Hpend Hchan Hfull Hsend Hnot Hdef].
  constructor; simpl; [done|done| | | |done|done|done].
  - intros i s. by rewrite lookup_empty.
  - intros s [?|[i Hi]]%closePending_is_Some; apply Hchan; [done|].
    apply Hpend in Hi as [_ ->]. done.
  - intros s n op i st Hc. apply Hfull. by apply closePending_lookup in Hc.
Qed.

Lemma rsm_inv_init c : rsm_init c → rsm_inv c.
Proof.
  intros (snap & s0 & reqs & sent0 & Hm & Hnd). unfold MakeRSM in Hm.
  apply bind_Some in Hm as (s & _ & [= <-]).
  constructor; simpl; try done.
  - naive_solver.
  - intros s'. rewrite lookup_empty. by intros [? ?].
  - naive_solver.
Qed.

Lemma rsm_inv_step c c' : rsm_inv c → rsm_step c c' → rsm_inv c'.
Proof.
  intros Hinv Hstep. pose proof (ri_ids _ Hinv) as Hids.
  destruct Hstep as [s req term Hs|s req Hs|s req term id index st Hs Hid|s req term Hs
    |s op index st Hs|s op index st n Hs Hc|s op index st Hs Hc|s op index st Hs
    |s op index err res Hs|op Hid|msg op s' res Hr Hv Ha Hin Hd|index op res Hr|index ch n Hr Hc
    |index bytes Hr|msg s' Hr Hv Hsv Hres|Hr].
  - apply inv_sub; rewrite ?Hs; auto.
  - apply inv_sub; rewrite ?Hs; auto.
  - apply inv_sub; rewrite ?Hs; auto; [set_solver|by constructor|set_solver].
  - apply inv_sub; rewrite ?Hs; auto.
  - by apply inv_register.
  - by apply inv_receive.
  - apply inv_sub; rewrite ?Hs; auto.
  - apply inv_sub; rewrite ?Hs; auto.
  - by apply inv_defer.
  - apply inv_reader; auto; [set_solver|by constructor|].
    destruct (reader c) eqn:Hr; auto. destruct (ri_notify _ Hinv _ _ _ Hr). set_solver.
  - apply inv_reader; auto; [set_solver|]. set_solver.
  - by apply inv_notify.
  - by apply inv_send.
  - by apply inv_reader.
  - by apply inv_reader.
  - by apply inv_shutdown.
Qed.

Lemma rsm_reachable_inv c : rsm_reachable c → rsm_inv c.
Proof.
  revert c. apply reachable_invariant; [apply rsm_inv_init|]. intros c c' _. apply rsm_inv_step.
Qed.

(** C36. The reader never blocks on, and never sends to a closed channel: when
    it has taken a pending channel out of the map to notify it, the channel is
    open and its buffer of one is free, so the step that sends is enabled. *)
Theorem reader_never_blocks c index ch n :
  rsm_reachable c → reader c = RSend index ch n →
  chans c !! ch = Some ChEmpty ∧ ∃ c', rsm_step c c' ∧ reader c' = RCheck index.
Proof.
  intros Hr Hs. destruct (ri_send c (rsm_reachable_inv c Hr) _ _ _ Hs) as [Hc _].
  split; [done|]. eexists. split; [by eapply r_send|done].
Qed.

(** ** The state of the service *)

Section Run.
(** The state the server starts in. *)
Context (c0 : RSM).

(** A state from which the commands of the history after [older] were executed:
    the initial one, or one restored from a snapshot. *)
Definition run_base (base : S) (older : list (Z * Op Req * Res)) : Prop :=
  (base = rsm_sm c0 ∧ older = []) ∨ ∃ data s, SM_Restore data s = Some base.

(** [s] is the state of the service after the command at [i]: the result of
    executing a run of consecutive commands of the history, the last of them at
    [i], from such a base. *)
Definition state_at (c : RSM) (i : Z) (s : S) : Prop :=
  ∃ newer op res l older base,
    history c = newer ++ (i, op, res) :: l ++ older ∧
    run_base base older ∧ runs base ((i, op, res) :: l) s.

Record sm_inv (c : RSM) : Prop := mkSmInv {
  si_state : runs (rsm_base c) (applied c) (rsm_sm c);
  si_hist : ∃ older, history c = applied c ++ older ∧ run_base (rsm_base c) older;
  si_check i : match reader c with
               | RNotify j _ _ | RSend j _ _ | RCheck j => i = j
               | _ => False
               end → ∃ op res l, applied c = (i, op, res) :: l;
  si_snap i data : (i, data) ∈ snapshots c → ∃ s, state_at c i s ∧ data = SM_Snapshot s
}.

Lemma state_at_cons c c' x i s :
  history c' = x :: history c → state_at c i s → state_at c' i s.
Proof.
  intros Hh (newer & op & res & l & older & base & Hc & Hb & Hr).
  exists (x :: newer), op, res, l, older, base. by rewrite Hh, Hc.
Qed.

Lemma sm_inv_step c c' : sm_inv c → rsm_step c c' → sm_inv c'.
Proof.
  intros [H1 H0 H2 H3] Hstep. pose proof H0 as (older & Ho & Hb).
  destruct Hstep; try (by constructor).
  - constructor; simpl; [eauto|exists older; by rewrite Ho|intros i ->; eauto|].
    intros i data (s & Hs & ->)%H3. exists s. split; [|done]. by eapply state_at_cons.
  - rename select (reader c = _) into Hr. rewrite Hr in H2. constructor; simpl; [done|done| |done].
    unfold notifyPending. destruct (pendingOps c !! index); simpl; auto.
  - rename select (reader c = _) into Hr. rewrite Hr in H2. by constructor.
  - rename select (reader c = _) into Hr. rewrite Hr in H2. constructor; simpl; [done..|].
    intros i data. rewrite elem_of_app. intros [Hin|Hin]; [|by apply H3].
    unfold takeSnapshot in Hin. destruct (_ && _); [|by apply elem_of_nil in Hin].
    apply list_elem_of_singleton in Hin as [= -> ->].
    destruct (H2 index eq_refl) as (op & res & l & Ha). exists (rsm_sm c). split; [|done].
    exists [], op, res, l, older, (rsm_base c).
    split_and!; [by rewrite app_nil_l, app_comm_cons, <-Ha|done|by rewrite <-Ha].
  - constructor; simpl; [done|exists (history c)|done|done]. split; [done|]. right. eauto.
Qed.

End Run.

Lemma rsm_run_sm c0 c : rsm_init c0 → rtc rsm_step c0 c → sm_inv c0 c.
Proof.
  intros Hi Hr. revert c Hr. apply rtc_ind_r; [|intros c c' _ ? ?; by eapply sm_inv_step].
  destruct Hi as (snap & s0 & reqs & sent0 & Hm & _). unfold MakeRSM in Hm.
  apply bind_Some in Hm as (s & _ & [= <-]). constructor; simpl; [done| |done|].
  - exists []. split; [done|]. by left.
  - intros i data Hin. by apply elem_of_nil in Hin.
Qed.

(** Every result in the history is the one its command produced. *)
Lemma history_results c i op res :
  rsm_reachable c → (i, op, res) ∈ history c →
  ∃ s s', DoOp (op_Command op) s = Some (s', res).
Proof.
  intros Hr. induction Hr as [c Hi|c c' _ IH Hstep].
  - destruct Hi as (snap & s0 & reqs & sent0 & Hm & _). unfold MakeRSM in Hm.
    apply bind_Some in Hm as (s & _ & [= <-]). intros Hin. by apply elem_of_nil in Hin.
  - destruct Hstep; simpl; try done. intros [Heq|Hin]%elem_of_cons; [|auto].
    simplify_eq. eauto.
Qed.

(** C35. A Submit that returns OK returns the result of its own command: the
    operation it passed to Raft was applied on this server, at the index Raft
    gave it, and the result is the one DoOp gave for it there - however calls,
    leader changes, crashes of other servers and shutdown interleave. *)
Theorem Submit_ok_is_own_result c s op index res :
  rsm_reachable c → subs c s = SDone op index OK (Some res) →
  (index, op, res) ∈ history c ∧ ∃ s s', DoOp (op_Command op) s = Some (s', res).
Proof.
  intros Hr Hs. assert ((index, op, res) ∈ history c) as Hin.
  { eapply (ri_defer c); [by apply rsm_reachable_inv|]. by right. }
  split; [done|]. by eapply history_results.
Qed.

(** Every snapshot the reader hands to Raft for an index is the state of
    the service right after the command at that index: restoring it, into
    whatever state, gives the state reached by executing consecutive commands
    the server applied, the last of them at that index, from its initial state
    or from a snapshot it had restored. *)
Theorem snapshot_is_prefix_state c0 c i data s0 :
  rsm_init c0 → rtc rsm_step c0 c → (i, data) ∈ snapshots c →
  ∃ s, state_at c0 c i s ∧ SM_Restore data s0 = Some s.
Proof.
  intros Hi Hr Hin. destruct (si_snap _ _ (rsm_run_sm c0 c Hi Hr) i data Hin) as (s & Hs & ->).
  exists s. split; [done|]. apply restore_snapshot.
Qed.

End RSM.
