(* ===== verification/Replicas.v ===== *)
(** * Replicas of a service on a Raft cluster

    The whole of kvraft1: the cluster of RaftNet.v and, on each of its servers,
    the service of src/6.5840/src/kvraft1/rsm/rsm.go - its state machine and the
    index of the last message [applyReader] handled.  The service is any instance
    of [StateMachine].

    applyCh is an unbuffered channel with several senders: the applier loop, which
    works off the commands of one batch before it takes the next, and one goroutine
    for every snapshot that InstallSnapshot has installed.  So the messages that
    wait to be sent are kept per sender, and [applyReader] receives any of those
    that a sender offers: the next command of the batch, or any of the snapshots.

    A [Policy] restricts runs; the code as it is restricts nothing.  Replicas agree
    in the runs in which every service receives its messages in the order of their
    indices ([in_order]), which the code guarantees without snapshots
    (NoSnapshots.v) and not with them (ReplicasRun.v). *)

From S2P Require Import Prelude Gob Persister KVRpc Raft RaftNode RaftSpec RaftReplication.
From S2P Require Import RaftProtocol RaftNet RaftLog RaftSafety RSM.

(** ** What a peer shows its service *)

Section View.
Context {cmd : Type} `{!Gob (RaftVal cmd)} `{!GobRegistered (RaftVal cmd)}.
Implicit Types rf : Raft cmd.

Definition service_view rf : Z * Z * list byte :=
  (lastApplied rf, lastIncludedIndex rf, ReadSnapshot (persister rf)).

Lemma persist_snapshot rf : ReadSnapshot (persister (persist rf)) = ReadSnapshot (persister rf).
Proof. unfold persist. destruct (encode_all _ _); [|done]. simpl. by rewrite Save_snapshot. Qed.

#[local] Hint Rewrite persist_snapshot : raft.

(** Close goals [service_view rf' = service_view rf] after the case analysis. *)
Ltac view_tac := unfold service_view; rsimpl; try done.

Lemma stepDown_view T rf : service_view (stepDown T rf) = service_view rf.
Proof. unfold stepDown. view_tac. Qed.

Lemma recognize_view now T rf :
  service_view (set_lastHeartbeat now (recognizeLeader T rf)) = service_view rf.
Proof.
  unfold recognizeLeader. destruct (_ <? _); [|by destruct (bool_decide _)].
  apply stepDown_view.
Qed.

Lemma ticker_view now rnd rf rf' calls :
  tickerStep now rnd rf = Some (rf', calls) → service_view rf' = service_view rf.
Proof. unfold tickerStep, startElection. intros H. raft_case; view_tac. Qed.

Lemma RequestVote_view now args rf rf' r :
  RequestVote now args rf = Some (rf', r) → service_view rf' = service_view rf.
Proof.
  unfold RequestVote. intros H. destruct (_ <? _); [by raft_case|].
  assert (∀ b : bool, service_view (if b then stepDown (rv_Term args) rf else rf) = service_view rf)
    as Hb by (intros []; [apply stepDown_view|done]).
  cbv zeta in H. rewrite <-(Hb (currentTerm rf <? rv_Term args)).
  destruct (currentTerm rf <? rv_Term args); raft_case; view_tac.
Qed.

Lemma voteReply_view now term reply v rf rf' v' hb :
  handleRequestVoteReply now term reply v rf = Some (rf', v', hb) →
  service_view rf' = service_view rf.
Proof.
  unfold handleRequestVoteReply. intros H. raft_case; try done. apply stepDown_view.
Qed.

Lemma updateCommitLoop_view fuel : ∀ M rf rf',
  updateCommitLoop fuel M rf = Some rf' → service_view rf' = service_view rf.
Proof.
  induction fuel as [|fuel IH]; simpl; intros M rf rf' H; [by simplify_eq|].
  raft_case; eauto.
Qed.

Lemma appendReply_view peer term args reply rf rf' :
  handleAppendEntriesReply peer term args reply rf = Some rf' → service_view rf' = service_view rf.
Proof.
  unfold handleAppendEntriesReply. intros H.
  destruct (_ || _); [by raft_case|]. destruct (_ <? _); [raft_case; apply stepDown_view|].
  destruct (aer_Success reply); [|raft_case; view_tac].
  apply bind_Some in H as (mi & _ & H). apply bind_Some in H as (ni & _ & H).
  by apply updateCommitLoop_view in H.
Qed.

Lemma snapshotReply_view peer term args reply rf rf' :
  handleInstallSnapshotReply peer term args reply rf = Some rf' →
  service_view rf' = service_view rf.
Proof.
  unfold handleInstallSnapshotReply. intros H. raft_case; try done. apply stepDown_view.
Qed.

Lemma Start_view command rf rf' res b :
  Start command rf = (rf', res, b) → service_view rf' = service_view rf.
Proof. unfold Start. destruct (bool_decide _); intros [= <- _ _]; view_tac. Qed.

Lemma appendLoop_view es : ∀ index b rf rf' b',
  appendLoop index es b rf = Some (rf', b') → service_view rf' = service_view rf.
Proof.
  induction es as [|e es IH]; simpl; intros index b rf rf' b' H; raft_case; try done;
    match goal with H : appendLoop _ _ _ _ = _ |- _ => apply IH in H; by rewrite H end.
Qed.

Lemma AppendEntries_view now args rf rf' r :
  AppendEntries now args rf = Some (rf', r) → service_view rf' = service_view rf.
Proof.
  unfold AppendEntries. intros H. destruct (_ <? _); [by raft_case|]. cbv zeta in H.
  rewrite <-(recognize_view now (ae_Term args) rf).
  set (rf1 := set_lastHeartbeat now (recognizeLeader (ae_Term args) rf)) in *. clearbody rf1.
  destruct (_ <? lastIncludedIndex rf1); [by raft_case|].
  destruct (lastLogIndex rf1 <? _); [by raft_case|].
  apply bind_Some in H as (pe & _ & H). destruct (negb _); [by raft_case|].
  apply bind_Some in H as ([rf2 b] & Hl & H). injection H as <- _.
  apply appendLoop_view in Hl. rewrite <-Hl.
  unfold followCommit. destruct b; repeat case_match; view_tac.
Qed.

(** InstallSnapshot sends its message exactly when it moves the snapshot. *)
Lemma InstallSnapshot_view now args rf rf' r m :
  InstallSnapshot now args rf = Some (rf', r, m) →
  (m = None ∧ service_view rf' = service_view rf) ∨
  (currentTerm rf <= is_Term args ∧ lastIncludedIndex rf < is_LastIncludedIndex args ∧
   m = Some (mkApplyMsg false None 0 true (is_Data args) (is_LastIncludedTerm args)
               (is_LastIncludedIndex args)) ∧
   service_view rf' = (Z.max (lastApplied rf) (is_LastIncludedIndex args),
                       is_LastIncludedIndex args, is_Data args)).
Proof.
  intros H. destruct (decide (currentTerm rf <= is_Term args ∧
    lastIncludedIndex rf < is_LastIncludedIndex args)) as [[HT Hi]|Hno].
  - right. destruct (InstallSnapshot_result now args rf rf' r m HT Hi H)
      as (H1 & _ & H2 & _ & H3 & _ & H4 & _). unfold service_view. by rewrite H1, H2, H3.
  - left. unfold InstallSnapshot in H. destruct (is_Term args <? _) eqn:HT; [by simplify_eq|].
    bool_to_prop. cbv zeta in H. rewrite lii_recognize in H.
    rewrite (proj2 (Z.leb_le _ _)) in H by lia. injection H as <- _ <-.
    split; [done|apply recognize_view].
Qed.

Lemma Snapshot_view index snap rf rf' :
  wf rf → index <= lastApplied rf → Snapshot index snap rf = Some rf' →
  service_view rf' = service_view rf ∨
  lastIncludedIndex rf < index ∧ service_view rf' = (lastApplied rf, index, snap).
Proof.
  intros Hw Ha H. destruct (decide (index <= lastIncludedIndex rf)) as [Hle|Hgt].
  - left. unfold Snapshot in H. rewrite (proj2 (Z.leb_le _ _)) in H by done. by simplify_eq.
  - right. assert (index <= lastLogIndex rf) as Hlast.
    { unfold Snapshot in H. rewrite (proj2 (Z.leb_gt _ _)) in H by lia.
      apply bind_Some in H as (e & Hx & _). by apply logAt_range in Hx as [_ ?]. }
    destruct (Snapshot_result index snap rf rf' ltac:(lia) H)
      as (H1 & _ & _ & _ & H2 & H3 & _). split; [lia|]. unfold service_view.
    rewrite H1, H2, H3. repeat f_equal. lia.
Qed.

(** The applier sends the entries after the last applied one, in order. *)
Lemma applierBatch_view fuel : ∀ rf msgs rf' msgs',
  wf rf → commitIndex rf <= lastLogIndex rf → Z.of_nat fuel = commitIndex rf - lastApplied rf →
  applierBatch fuel rf msgs = Some (rf', msgs') →
  service_view rf' = (commitIndex rf, lastIncludedIndex rf, ReadSnapshot (persister rf)) ∧
  msgs' = msgs ++ (entryMsg rf <$> seqZ (lastApplied rf + 1) (commitIndex rf - lastApplied rf)).
Proof.
  intros rf msgs rf' msgs' Hw Hc Hf H. rewrite applierBatch_spec in H; [|apply Hw|done|lia].
  injection H as <- <-. split; [unfold service_view; simpl; repeat f_equal; lia|].
  do 2 f_equal. f_equal. lia.
Qed.

Lemma applier_view rf rf' msgs :
  wf rf → commitIndex rf <= lastLogIndex rf → applierStep rf = Some (rf', msgs) →
  (msgs = [] ∧ service_view rf' = service_view rf) ∨
  (service_view rf' = (commitIndex rf, lastIncludedIndex rf, ReadSnapshot (persister rf)) ∧
   msgs = entryMsg rf <$> seqZ (lastApplied rf + 1) (commitIndex rf - lastApplied rf)).
Proof.
  intros Hw Hc. unfold applierStep. destruct (_ || _) eqn:Hg; bool_to_prop.
  - intros [= <- <-]. by left.
  - intros Happ. right.
    apply applierBatch_view in Happ as [? ->]; [done|done|done|lia].
Qed.

Lemma Make_view n m now rf :
  pers_ok rf → service_view (Make n m (persister rf) now) =
    (lastIncludedIndex rf, lastIncludedIndex rf, ReadSnapshot (persister rf)).
Proof.
  intros Hp. destruct (Make_effect n m now rf Hp) as (_ & _ & Hi & _ & _).
  destruct (Make_indices n m (persister rf) now _ eq_refl) as (_ & _ & _ & Ha).
  unfold service_view. by rewrite Ha, Hi, Make_persister.
Qed.

End View.

(** ** The system *)

Section Replicas.
Context {S Req Res : Type} `{!StateMachine S Req Res}.
Context `{!Gob (RaftVal (Op Req))} `{!GobRegistered (RaftVal (Op Req))}.
(** The number of servers, and the state in which the service starts. *)
Context (N : nat) (s0 : S).
Abbreviation Peer := (Raft (Op Req)).
Abbreviation Msg := (ApplyMsg (Op Req)).
Abbreviation Entry := (LogEntry (Op Req)).
Implicit Types L : list Entry.

(** A command, when it is an [Op]; [applyReader] skips anything else. *)
Definition exec1 (s : S) (command : option (Op Req)) : option S :=
  match command with None => Some s | Some op => fst <$> DoOp (op_Command op) s end.

(** [applyReader] on one message: the state and the index it has reached. *)
Definition deliver (m : Msg) (s : S) (index : Z) : option (S * Z) :=
  if CommandValid m then s' ← exec1 s (am_Command m); Some (s', CommandIndex m)
  else if SnapshotValid m then s' ← SM_Restore (am_Snapshot m) s; Some (s', SnapshotIndex m)
  else Some (s, index).

(** MakeRSM on the snapshot of the persister. *)
Definition boot (snapshot : list byte) : option S :=
  if 0 <? len snapshot then SM_Restore snapshot s0 else Some s0.

(** What waits to be sent on applyCh: [batch] is the rest of what the applier loop
    sends, one message after the other; each message of [installs] is the one that
    a goroutine of InstallSnapshot sends. *)
Record System := mkSystem {
  cluster : Cluster (cmd:=Op Req);
  machine : nat → S;
  executed : nat → Z;
  batch : nat → list Msg;
  installs : nat → list Msg
}.

(** The receive on applyCh takes the message [m] of one of the senders and leaves
    [b] and [ins] to be sent. *)
Inductive receives (σ : System) (i : nat) (m : Msg) : list Msg → list Msg → Prop :=
| from_applier b : batch σ i = m :: b → receives σ i m b (installs σ i)
| from_install ins1 ins2 :
    installs σ i = ins1 ++ m :: ins2 → receives σ i m (batch σ i) (ins1 ++ ins2).

(** [install_ok] is about the peer that handles InstallSnapshot and the index of
    the snapshot, [receive_ok] about the index that a service has reached and the
    message that it receives, [snapshot_ok] about the peer of a service that may
    take a snapshot (of rsm.go: when the Raft state has reached maxraftstate
    bytes, never when that is -1). *)
Record Policy := mkPolicy {
  install_ok : Peer → Z → Prop;
  receive_ok : Z → Msg → Prop;
  snapshot_ok : Peer → Prop
}.

(** A message comes in order when it is the next command, or a snapshot that is
    not older than what the service has executed. *)
Definition in_order (ex : Z) (m : Msg) : Prop :=
  if CommandValid m then CommandIndex m = ex + 1 else ex <= SnapshotIndex m.

#[export] Instance in_order_dec ex m : Decision (in_order ex m).
Proof. unfold in_order. destruct (CommandValid m); apply _. Defined.

Context (pol : Policy).

(** What the clients of a service see of a step: the result of Start, and the
    message that [applyReader] of a server handles. *)
Inductive Obs :=
| OQuiet
| OStart (i : nat) (command : option (Op Req)) (res : Z * Z * bool)
| ORead (i : nat) (m : Msg).

Inductive sys_lstep (σ : System) : Obs → System → Prop :=
(* a step of the cluster that the services do not see *)
| y_raft c' :
    lstep N (λ _ _, True) (cluster σ) EQuiet c' →
    sys_lstep σ OQuiet (mkSystem c' (machine σ) (executed σ) (batch σ) (installs σ))
(* Submit calls Start *)
| y_start i command res c' :
    lstep N (λ _ _, True) (cluster σ) (EStart i command res) c' →
    sys_lstep σ (OStart i command res)
      (mkSystem c' (machine σ) (executed σ) (batch σ) (installs σ))
(* the applier loop, which has sent its last batch, takes the committed commands *)
| y_apply i msgs c' :
    lstep N (λ _ _, True) (cluster σ) (EApply i msgs) c' → batch σ i = [] →
    sys_lstep σ OQuiet (mkSystem c' (machine σ) (executed σ) (<[i := msgs]> (batch σ)) (installs σ))
(* a peer handles InstallSnapshot; if it installs the snapshot, a goroutine sends it *)
| y_install i m c' :
    lstep N (λ _ _, True) (cluster σ) (EInstall i m) c' →
    (∀ msg, m = Some msg → install_ok pol (servers (cluster σ) i) (SnapshotIndex msg)) →
    sys_lstep σ OQuiet (mkSystem c' (machine σ) (executed σ) (batch σ)
                          (<[i := option_list m ++ installs σ i]> (installs σ)))
(* the service takes a snapshot *)
| y_snapshot i c' :
    snapshot_ok pol (servers (cluster σ) i) →
    lstep N (λ _ _, True) (cluster σ) (ESnapshot i (executed σ i) (SM_Snapshot (machine σ i))) c' →
    sys_lstep σ OQuiet (mkSystem c' (machine σ) (executed σ) (batch σ) (installs σ))
(* the service receives a message and handles it *)
| y_read i m b ins s' index :
    receives σ i m b ins → receive_ok pol (executed σ i) m →
    deliver m (machine σ i) (executed σ i) = Some (s', index) →
    sys_lstep σ (ORead i m) (mkSystem (cluster σ) (<[i := s']> (machine σ)) (<[i := index]> (executed σ))
                  (<[i := b]> (batch σ)) (<[i := ins]> (installs σ)))
(* a server crashes and restarts *)
| y_restart i c' s :
    lstep N (λ _ _, True) (cluster σ) (ERestart i) c' →
    boot (ReadSnapshot (persister (servers c' i))) = Some s →
    sys_lstep σ OQuiet (mkSystem c' (<[i := s]> (machine σ))
                  (<[i := lastIncludedIndex (servers c' i)]> (executed σ))
                  (<[i := []]> (batch σ)) (<[i := []]> (installs σ))).

Definition sys_step (σ σ' : System) : Prop := ∃ o, sys_lstep σ o σ'.

Definition sys_init (σ : System) : Prop :=
  init N (cluster σ) ∧
  ∀ i, machine σ i = s0 ∧ executed σ i = 0 ∧ batch σ i = [] ∧ installs σ i = [].

(** ** Executing the decided log *)

Definition exec (l : list Entry) : option S :=
  foldl (λ os e, s ← os; exec1 s (Command e)) (Some s0) l.

(** The state after the first [k] entries of the log. *)
Definition state_after L (k : Z) : option S := exec (take (Z.to_nat k) L).

Lemma state_after_step L k e s :
  0 <= k → L !! Z.to_nat k = Some e → state_after L k = Some s →
  state_after L (k + 1) = exec1 s (Command e).
Proof.
  unfold state_after, exec. intros Hk He Hs.
  replace (Z.to_nat (k + 1)) with (Datatypes.S (Z.to_nat k)) by lia.
  by rewrite (take_S_r _ _ _ He), foldl_app, Hs.
Qed.

Lemma state_after_prefix L L' k : L `prefix_of` L' → k <= len L → state_after L' k = state_after L k.
Proof. intros [x ->] Hk. unfold state_after. by rewrite take_app_le by lia. Qed.

(** [data] is the snapshot of the state after [k] entries. *)
Definition snap_of L (k : Z) (data : list byte) : Prop :=
  0 < k <= len L ∧ ∃ s, state_after L k = Some s ∧ data = SM_Snapshot s.

Lemma snap_of_prefix L L' k data : L `prefix_of` L' → snap_of L k data → snap_of L' k data.
Proof.
  intros Hp ([? ?] & s & Hs & Hd). split; [apply prefix_length in Hp; lia|].
  exists s. by rewrite (state_after_prefix L).
Qed.

(** ** The messages for applyCh

    Up to the index [b] that the peer has applied: a command of the log, or the
    snapshot of a state. *)
Definition msg_ok L (b : Z) (m : Msg) : Prop :=
  (CommandValid m = true ∧ 0 < CommandIndex m <= b ∧
   ∃ e, L !! (Z.to_nat (CommandIndex m) - 1)%nat = Some e ∧ am_Command m = Command e) ∨
  (CommandValid m = false ∧ SnapshotValid m = true ∧ SnapshotIndex m <= b ∧
   snap_of L (SnapshotIndex m) (am_Snapshot m)).

Lemma msg_ok_mono L L' b b' m :
  L `prefix_of` L' → b <= b' → msg_ok L b m → msg_ok L' b' m.
Proof.
  intros Hp Hb [(? & ? & e & He & ?)|(? & ? & ? & ?)]; [left|right].
  - split_and!; [done|lia..|]. exists e. eauto using prefix_lookup_Some.
  - split_and!; [done|done|lia|]. by eapply snap_of_prefix.
Qed.

Lemma msgs_mono L L' b b' ms :
  L `prefix_of` L' → b <= b' → Forall (msg_ok L b) ms → Forall (msg_ok L' b') ms.
Proof. intros ?? H. eapply list.Forall_impl; [exact H|]. intros m. by apply msg_ok_mono. Qed.

(** What is received was offered, and the rest remains. *)
Lemma receives_Forall (P : Msg → Prop) σ i m b ins :
  receives σ i m b ins → Forall P (batch σ i) → Forall P (installs σ i) →
  P m ∧ Forall P b ∧ Forall P ins.
Proof.
  intros [b' ->|ins1 ins2 ->] Hb Hi.
  - by apply Forall_cons_1 in Hb as [? ?].
  - apply Forall_app in Hi as [? [? ?]%Forall_cons_1]. by rewrite Forall_app.
Qed.

(** The commands that the applier loop sends. *)
Lemma msgs_entries L (rf : Peer) a n :
  0 <= a → (∀ k, a < k <= a + n → is_Some (logAt rf k) ∧ logAt rf k = L !! (Z.to_nat k - 1)%nat) →
  Forall (msg_ok L (a + n)) (entryMsg rf <$> seqZ (a + 1) n).
Proof.
  intros Ha Hk. apply list.Forall_forall. intros m (k & -> & Hin%elem_of_seqZ)%list_elem_of_fmap.
  left. destruct (Hk k) as [[e He] Heq]; [lia|]. unfold entryMsg. simpl. split_and!; [done|lia..|].
  exists e. rewrite <-Heq. by rewrite He.
Qed.

(** Handling a message that comes in order leads to the state after its index. *)
Lemma deliver_ok L a m b s s' index :
  0 <= a → msg_ok L b m → in_order a m → state_after L a = Some s → deliver m s a = Some (s', index) →
  0 <= index <= b ∧ state_after L index = Some s'.
Proof.
  intros Ha Hm Ho Hs Hd. unfold deliver in Hd. unfold in_order in Ho.
  destruct Hm as [(Hv & Hi & e & He & Hc)|(Hv & Hsv & Hb & ([? ?] & s1 & Hs1 & Hdata))];
    rewrite Hv in Hd, Ho.
  - apply bind_Some in Hd as (s2 & Hs2 & [= <- <-]). rewrite Hc in Hs2. rewrite Ho in *.
    split; [lia|]. rewrite (state_after_step L a e s); [done|done| |done].
    rewrite <-He. f_equal. lia.
  - rewrite Hsv, Hdata, restore_snapshot in Hd. injection Hd as <- <-. split; [lia|done].
Qed.

(** A message is not ahead of the peer, in order or not. *)
Lemma deliver_index L a m b s s' index :
  a <= b → msg_ok L b m → deliver m s a = Some (s', index) → index <= b.
Proof.
  intros Ha Hm Hd. unfold deliver in Hd.
  destruct Hm as [(Hv & ? & _)|(Hv & Hsv & ? & _)]; rewrite Hv in Hd; [|rewrite Hsv in Hd];
    apply bind_Some in Hd as (? & _ & [= _ <-]); lia.
Qed.

(** ** The invariant *)

(** Only [sendAppendEntriesToPeer] puts a snapshot on the network. *)
Definition is_snap (p : Packet (cmd:=Op Req)) : bool :=
  match p with PSnapReq _ _ _ _ => true | _ => false end.

Definition snaps_of (net : list (Packet (cmd:=Op Req))) (P : InstallSnapshotArgs → Prop) : Prop :=
  ∀ src inc dst args, PSnapReq src inc dst args ∈ net → P args.

Lemma snaps_of_app net new rest P :
  Forall (λ q, is_snap q = false) new → rest ⊆ net → snaps_of net P → snaps_of (new ++ rest) P.
Proof.
  intros Hnew Hrest Hnet src inc dst args [Hin|Hin]%elem_of_app.
  - rewrite list.Forall_forall in Hnew. by apply Hnew in Hin.
  - eapply Hnet, Hrest, Hin.
Qed.

Lemma rest_subset (net rest : list (Packet (cmd:=Op Req))) p : net ≡ₚ p :: rest → rest ⊆ net.
Proof. intros Hnet q Hq. rewrite Hnet. by apply list_elem_of_further. Qed.

(** The snapshot in the arguments of InstallSnapshot. *)
Definition snap_args_ok L (args : InstallSnapshotArgs) : Prop :=
  is_LastIncludedIndex args <= 0 ∨ snap_of L (is_LastIncludedIndex args) (is_Data args).

Lemma snaps_of_prefix L L' net :
  L `prefix_of` L' → snaps_of net (snap_args_ok L) → snaps_of net (snap_args_ok L').
Proof.
  intros Hp Hnet src inc dst args [?|?]%Hnet; [by left|right]. by eapply snap_of_prefix.
Qed.

Record sys_inv (B : nat → Entry → Prop) (σ : System) L : Prop := mkSysInv {
  si_chosen : chosen N B (cluster σ) L;
  si_index i : (i < N)%nat → 0 <= executed σ i <= lastApplied (servers (cluster σ) i);
  si_batch i : (i < N)%nat → Forall (msg_ok L (lastApplied (servers (cluster σ) i))) (batch σ i);
  si_installs i : (i < N)%nat → Forall (msg_ok L (lastApplied (servers (cluster σ) i))) (installs σ i);
  si_machine i : (i < N)%nat → state_after L (executed σ i) = Some (machine σ i);
  si_disk i : (i < N)%nat →
    let rf := servers (cluster σ) i in
    lastIncludedIndex rf = 0 ∧ ReadSnapshot (persister rf) = [] ∨
    snap_of L (lastIncludedIndex rf) (ReadSnapshot (persister rf));
  si_packet : snaps_of (inflight (cluster σ)) (snap_args_ok L)
}.

Lemma chosen_wf B c L i : chosen N B c L → wf (servers c i) ∧ pers_ok (servers c i).
Proof.
  intros (A & Hci & _). by destruct (inv_node _ _ _ (ci_inv _ _ _ Hci) i) as (? & ? & _).
Qed.

Lemma chosen_bounds B c L i :
  chosen N B c L → (i < N)%nat →
  0 <= lastIncludedIndex (servers c i) <= lastApplied (servers c i) ∧
  lastApplied (servers c i) <= commitIndex (servers c i) <= len L ∧
  commitIndex (servers c i) <= lastLogIndex (servers c i).
Proof.
  intros Hch Hi. set (rf := servers c i). destruct (chosen_wf _ _ _ i Hch) as [Hw _]. fold rf in Hw.
  destruct (chosen_entry N _ _ _ i Hch Hi) as [Hc _]. fold rf in Hc.
  pose proof (wf_commit _ Hw). pose proof (wf_applied _ Hw). pose proof (wf_lii _ Hw).
  destruct Hch as (A & Hci & _). destruct (ci_node _ _ _ Hci i) as [_ H2 _ _ H5].
  apply covered_len in H5. fold rf in H2, H5. rewrite (repr_last _ _ H2). lia.
Qed.

Lemma sys_inv_machine_le B σ L i : sys_inv B σ L → (i < N)%nat → executed σ i <= len L.
Proof.
  intros Hi HN. pose proof (si_index _ _ _ Hi i HN).
  pose proof (chosen_bounds _ _ _ i (si_chosen _ _ _ Hi) HN). lia.
Qed.

(** What the invariant says of one server. *)
Record server_inv L (rf : Peer) (s : S) (ex : Z) (b ins : list Msg) : Prop := {
  sv_index : 0 <= ex <= lastApplied rf;
  sv_batch : Forall (msg_ok L (lastApplied rf)) b;
  sv_installs : Forall (msg_ok L (lastApplied rf)) ins;
  sv_machine : state_after L ex = Some s;
  sv_disk : lastIncludedIndex rf = 0 ∧ ReadSnapshot (persister rf) = [] ∨
    snap_of L (lastIncludedIndex rf) (ReadSnapshot (persister rf))
}.

(** It holds for a longer log. *)
Lemma sys_inv_node B σ L L' i :
  sys_inv B σ L → L `prefix_of` L' → (i < N)%nat →
  server_inv L' (servers (cluster σ) i) (machine σ i) (executed σ i) (batch σ i) (installs σ i).
Proof.
  intros Hinv Hp HN. split.
  - by apply Hinv.
  - eapply msgs_mono; [done|reflexivity|by apply Hinv].
  - eapply msgs_mono; [done|reflexivity|by apply Hinv].
  - rewrite (state_after_prefix L); [by apply Hinv|done|by apply (sys_inv_machine_le B σ)].
  - destruct (si_disk _ _ _ Hinv i HN) as [?|?]; [by left|right]. by eapply snap_of_prefix.
Qed.

Lemma server_inv_view L rf rf' s ex b ins :
  service_view rf' = service_view rf → server_inv L rf s ex b ins → server_inv L rf' s ex b ins.
Proof. intros [= Ha Hl Hs] []. split; by rewrite ?Ha, ?Hl, ?Hs. Qed.

(** The decided log grows and one server at most shows its service something new. *)
Lemma sys_inv_update B B' σ L L' i σ' :
  sys_inv B σ L → L `prefix_of` L' → chosen N B' (cluster σ') L' →
  (∀ j, j ≠ i → service_view (servers (cluster σ') j) = service_view (servers (cluster σ) j) ∧
     machine σ' j = machine σ j ∧ executed σ' j = executed σ j ∧
     batch σ' j = batch σ j ∧ installs σ' j = installs σ j) →
  ((i < N)%nat → server_inv L' (servers (cluster σ') i) (machine σ' i) (executed σ' i)
                   (batch σ' i) (installs σ' i)) →
  snaps_of (inflight (cluster σ')) (snap_args_ok L') →
  sys_inv B' σ' L'.
Proof.
  intros Hinv Hp Hch Hne Hi Hpkt.
  assert (∀ j, (j < N)%nat → server_inv L' (servers (cluster σ') j) (machine σ' j) (executed σ' j)
    (batch σ' j) (installs σ' j)) as Hall.
  { intros j HN. destruct (decide (j = i)) as [->|Hj]; [by apply Hi|].
    destruct (Hne j Hj) as (Hv & -> & -> & -> & ->). eapply server_inv_view; [exact Hv|].
    by eapply sys_inv_node. }
  constructor; [done| | | | | |done]; intros j HN; by destruct (Hall j HN).
Qed.

(** A step of the cluster in which the services see nothing. *)
Lemma sys_inv_quiet B B' σ L L' c' :
  sys_inv B σ L → L `prefix_of` L' → chosen N B' c' L' →
  (∀ j, service_view (servers c' j) = service_view (servers (cluster σ) j)) →
  snaps_of (inflight c') (snap_args_ok L') →
  sys_inv B' (mkSystem c' (machine σ) (executed σ) (batch σ) (installs σ)) L'.
Proof.
  intros Hinv Hp Hch Hv Hpkt. apply (sys_inv_update B _ σ L L' 0%nat); [done..| | |done].
  - intros j _. by split_and!.
  - intros HN. cbn [cluster machine executed batch installs].
    eapply server_inv_view; [apply Hv|]. by eapply sys_inv_node.
Qed.

Lemma view_set_server (c : Cluster (cmd:=Op Req)) i rf' :
  service_view rf' = service_view (servers c i) →
  ∀ j, service_view (set_server i rf' c j) = service_view (servers c j).
Proof. intros Hv j. unfold set_server. by case_decide; [subst|]. Qed.

Lemma no_snap_spawn src inc calls : Forall (λ q, is_snap q = false) (spawn (cmd:=Op Req) src inc calls).
Proof. apply Forall_fmap, list.Forall_forall. by intros []. Qed.

Lemma no_snap_votes src inc calls :
  Forall (λ q, is_snap q = false) (vote_requests (cmd:=Op Req) src inc calls).
Proof. apply Forall_fmap, list.Forall_forall. by intros []. Qed.

(** ** Every step preserves it *)

Lemma lstep_service (c c' : Cluster (cmd:=Op Req)) ev :
  lstep N (λ _ _, True) c ev c' →
  (∀ i index snap, ev = ESnapshot i index snap → applied_only (servers c i) index) →
  lstep N applied_only c ev c'.
Proof.
  intros Hs Ha. destruct Hs; [by econstructor..| | | |];
    [eapply s_snapshot|eapply s_apply|eapply s_drop|eapply s_restart]; eauto.
Qed.

Lemma leader_in_range B (c : Cluster (cmd:=Op Req)) L i :
  chosen N B c L → role (servers c i) = Leader → (i < N)%nat.
Proof.
  intros (A & Hci & _) Hl. destruct (ci_node _ _ _ Hci i) as [_ _ H3 _ _].
  destruct (H3 Hl) as (Hs & _). pose proof (ci_proto _ _ _ Hci) as Hpi.
  apply (elected_vote N A _ i Hpi) in Hs as [Hv _]. by apply (pi_votes _ _ Hpi) in Hv as [? _].
Qed.

(** The snapshot a leader sends is its own. *)
Lemma send_snapshot_ok B σ L src inc peer term action :
  sys_inv B σ L → sendAppendEntriesToPeer peer term (servers (cluster σ) src) = Some action →
  snaps_of (send_packet src inc peer action) (snap_args_ok L).
Proof.
  intros Hinv H src' inc' dst args Hin. unfold sendAppendEntriesToPeer in H.
  destruct (_ || _) eqn:Hg in H; [simplify_eq; by apply elem_of_nil in Hin|]. bool_to_prop.
  assert (role (servers (cluster σ) src) = Leader) as Hl
    by (destruct (role (servers (cluster σ) src)); naive_solver).
  apply bind_Some in H as (ni & _ & H). destruct (ni <=? _).
  - injection H as <-. apply list_elem_of_singleton in Hin. injection Hin as _ _ _ ->. simpl.
    pose proof (leader_in_range _ _ _ _ (si_chosen _ _ _ Hinv) Hl) as HN.
    destruct (si_disk _ _ _ Hinv src HN) as [[-> _]|?]; [by left|by right].
  - apply bind_Some in H as (pe & _ & H). apply bind_Some in H as (es & _ & H).
    injection H as <-. by apply list_elem_of_singleton in Hin.
Qed.

(** The decided log after a step of the cluster. *)
Lemma sys_chosen (B B' : nat → Entry → Prop) σ L ev c' :
  sys_inv B σ L → lstep N (λ _ _, True) (cluster σ) ev c' →
  (∀ i index snap, ev = ESnapshot i index snap → applied_only (servers (cluster σ) i) index) →
  (∀ j e, B j e → B' j e) → (∀ j e, appended ev j e → B' j e) →
  ∃ L', L `prefix_of` L' ∧ chosen N B' c' L' ∧ snaps_of (inflight (cluster σ)) (snap_args_ok L').
Proof.
  intros Hinv Hs Ha HB Hev. pose proof (lstep_service _ _ _ Hs Ha) as Hs'.
  destruct (chosen_step N B B' _ _ _ L (si_chosen _ _ _ Hinv) Hs' HB Hev) as (L' & Hp & Hch).
  exists L'. split_and!; [done|done|]. eapply snaps_of_prefix, Hinv. done.
Qed.

(** Steps of the cluster that change nothing for the services. *)
Definition silent (ev : Event (cmd:=Op Req)) : Prop :=
  match ev with EQuiet | EStart _ _ _ => True | _ => False end.

Lemma silent_view (c c' : Cluster (cmd:=Op Req)) P ev :
  lstep N P c ev c' → silent ev → ∀ j, service_view (servers c' j) = service_view (servers c j).
Proof.
  intros Hs Hev. destruct Hs; simpl; try done; try (apply view_set_server);
    eauto using ticker_view, RequestVote_view, voteReply_view, AppendEntries_view,
      appendReply_view, snapshotReply_view, Start_view.
Qed.

(** The snapshots in flight are those there were and those just sent. *)
Lemma silent_snaps (c c' : Cluster (cmd:=Op Req)) P ev R :
  lstep N P c ev c' → silent ev → snaps_of (inflight c) R →
  (∀ src inc peer term action,
     sendAppendEntriesToPeer peer term (servers c src) = Some action →
     snaps_of (send_packet src inc peer action) R) →
  snaps_of (inflight c') R.
Proof.
  intros Hs Hev Hnet Hsend.
  destruct Hs; simpl; try done; try exact Hnet;
    try (eapply (snaps_of_app _ []); [by constructor|by eapply rest_subset|exact Hnet]);
    try (eapply (snaps_of_app _ [_]); [by repeat constructor|by eapply rest_subset|exact Hnet]).
  - eapply snaps_of_app; [apply no_snap_votes|reflexivity|exact Hnet].
  - destruct hb; (eapply snaps_of_app; [by repeat constructor|by eapply rest_subset|exact Hnet]).
  - destruct (sendHeartbeats _).
    + rewrite cons_middle, app_assoc. eapply snaps_of_app; [|by eapply rest_subset|exact Hnet].
      apply Forall_app. split; [apply no_snap_spawn|by repeat constructor].
    + eapply (snaps_of_app _ []); [by constructor|by eapply rest_subset|exact Hnet].
  - eapply snaps_of_app; [apply no_snap_spawn|by eapply rest_subset|exact Hnet].
  - intros src' inc' dst args [Hin|Hin]%elem_of_app.
    + by eapply Hsend.
    + eapply Hnet, rest_subset; eassumption.
  - destruct b; (eapply snaps_of_app; [by repeat constructor|reflexivity|exact Hnet]).
Qed.

Lemma silent_step_ok (B B' : nat → Entry → Prop) σ L ev c' :
  sys_inv B σ L → lstep N (λ _ _, True) (cluster σ) ev c' → silent ev →
  (∀ j e, B j e → B' j e) → (∀ j e, appended ev j e → B' j e) →
  ∃ L', L `prefix_of` L' ∧ sys_inv B' (mkSystem c' (machine σ) (executed σ) (batch σ) (installs σ)) L'.
Proof.
  intros Hinv Hs Hev HB Happ.
  destruct (sys_chosen B B' σ L ev c' Hinv Hs) as (L' & Hp & Hch & Hnet); [by destruct ev|done..|].
  exists L'. split; [done|]. apply (sys_inv_quiet B B' σ L); [done..| |].
  - by eapply silent_view.
  - eapply silent_snaps; [exact Hs|done|exact Hnet|]. intros src inc peer term action Ha.
    intros ???? Hin. eapply (snaps_of_prefix L); [done| |exact Hin]. by eapply send_snapshot_ok.
Qed.

Lemma view_eq (rf : Peer) a l d :
  service_view rf = (a, l, d) →
  lastApplied rf = a ∧ lastIncludedIndex rf = l ∧ ReadSnapshot (persister rf) = d.
Proof. by intros [= <- <- <-]. Qed.

Lemma apply_step_ok B σ L i msgs c' :
  sys_inv B σ L → lstep N (λ _ _, True) (cluster σ) (EApply i msgs) c' → batch σ i = [] →
  ∃ L', L `prefix_of` L' ∧
    sys_inv B (mkSystem c' (machine σ) (executed σ) (<[i := msgs]> (batch σ)) (installs σ)) L'.
Proof.
  intros Hinv Hs Hb. destruct (sys_chosen B B σ L _ c' Hinv Hs) as (L' & Hp & Hch & Hnet); [done..|].
  exists L'. split; [done|].
  inversion Hs as [| | | | | | | | | | | | |i' rf' msgs' Hi Ha| |]; subst.
  apply (sys_inv_update B _ σ L L' i); cbn [cluster servers machine executed batch installs inflight];
    [done|done|done| | |done].
  { intros j Hj. by rewrite fn_lookup_insert_ne, set_server_ne by done. }
  intros _. rewrite set_server_eq, fn_lookup_insert.
  destruct (sys_inv_node B σ L L' i Hinv Hp Hi) as [Hx _ Hins Hm Hd].
  destruct (chosen_bounds _ _ _ i (si_chosen _ _ _ Hinv) Hi) as (Hb1 & Hb2 & Hb3).
  destruct (chosen_wf _ _ _ i (si_chosen _ _ _ Hinv)) as [Hw _].
  destruct (chosen_entry N _ _ _ i (si_chosen _ _ _ Hinv) Hi) as [_ Hent].
  set (rf := servers (cluster σ) i) in *.
  destruct (applier_view _ _ _ Hw ltac:(lia) Ha) as [[-> Hv]|[Hv ->]]; apply view_eq in Hv as (Ha1 & Hl1 & Hs1).
  - split; rewrite ?Ha1, ?Hl1, ?Hs1; by auto.
  - split; rewrite ?Ha1, ?Hl1, ?Hs1; [lia| |eapply msgs_mono; [reflexivity| |done]; lia|done|done].
    replace (commitIndex rf) with (lastApplied rf + (commitIndex rf - lastApplied rf)) at 1 by lia.
    apply msgs_entries; [lia|]. intros k Hk.
    assert (is_Some (logAt rf k)) as [e He] by (apply logAt_is_Some; lia).
    split; [by rewrite He|]. rewrite Hent by lia.
    specialize (Hent k ltac:(lia)). rewrite He in Hent. symmetry in Hent.
    rewrite Hent. symmetry. by eapply prefix_lookup_Some.
Qed.

Lemma install_step_ok B σ L i m c' :
  sys_inv B σ L → lstep N (λ _ _, True) (cluster σ) (EInstall i m) c' →
  ∃ L', L `prefix_of` L' ∧
    sys_inv B (mkSystem c' (machine σ) (executed σ) (batch σ)
                 (<[i := option_list m ++ installs σ i]> (installs σ))) L'.
Proof.
  intros Hinv Hs. destruct (sys_chosen B B σ L _ c' Hinv Hs) as (L' & Hp & Hch & Hnet); [done..|].
  exists L'. split; [done|].
  inversion Hs as [| | | | | | | | |src inc i' args now rf' reply m' rest Hin Ha| | | | | |]; subst.
  assert (is_LastIncludedIndex args <= 0 ∨ snap_of L' (is_LastIncludedIndex args) (is_Data args)) as Hdata.
  { apply (Hnet src inc i). rewrite Hin. by apply list_elem_of_here. }
  apply (sys_inv_update B _ σ L L' i); cbn [cluster servers machine executed batch installs inflight];
    [done|done|done| | |].
  { intros j Hj. by rewrite fn_lookup_insert_ne, set_server_ne by done. }
  2:{ eapply (snaps_of_app _ [_]); [by repeat constructor|by eapply rest_subset|exact Hnet]. }
  intros Hi. rewrite set_server_eq, fn_lookup_insert.
  destruct (sys_inv_node B σ L L' i Hinv Hp Hi) as [Hx Hbat Hins Hm Hd].
  destruct (chosen_bounds _ _ _ i (si_chosen _ _ _ Hinv) Hi) as (Hb1 & Hb2 & Hb3).
  set (rf := servers (cluster σ) i) in *.
  destruct (InstallSnapshot_view _ _ _ _ _ _ Ha) as [[-> Hv]|(_ & Hlt & -> & Hv)];
    apply view_eq in Hv as (Ha1 & Hl1 & Hs1); [split; rewrite ?Ha1, ?Hl1, ?Hs1; by auto|].
  destruct Hdata as [?|Hdata]; [lia|].
  split; rewrite ?Ha1, ?Hl1, ?Hs1; [lia|eapply msgs_mono; [reflexivity| |done]; lia| |done|by right].
  simpl. constructor; [|eapply msgs_mono; [reflexivity| |done]; lia].
  right. simpl. split_and!; [done|done|lia|done].
Qed.

Lemma snapshot_step_ok B σ L i c' :
  sys_inv B σ L →
  lstep N (λ _ _, True) (cluster σ) (ESnapshot i (executed σ i) (SM_Snapshot (machine σ i))) c' →
  ∃ L', L `prefix_of` L' ∧ sys_inv B (mkSystem c' (machine σ) (executed σ) (batch σ) (installs σ)) L'.
Proof.
  intros Hinv Hs.
  assert (∀ j, (j < N)%nat → applied_only (servers (cluster σ) j) (executed σ j)) as Happ.
  { intros j Hj. unfold applied_only. by apply (si_index _ _ _ Hinv). }
  inversion Hs as [| | | | | | | | | | | |i' index snap rf' Hi _ Ha| | |]; subst.
  destruct (sys_chosen B B σ L _ _ Hinv Hs) as (L' & Hp & Hch & Hnet);
    [intros ??? [= <- <- <-]; by apply Happ|done..|].
  exists L'. split; [done|].
  apply (sys_inv_update B _ σ L L' i); cbn [cluster servers machine executed batch installs inflight];
    [done|done|done| | |done].
  { intros j Hj. by rewrite set_server_ne by done. }
  intros _. rewrite set_server_eq.
  destruct (sys_inv_node B σ L L' i Hinv Hp Hi) as [Hx Hbat Hins Hm Hd].
  pose proof (sys_inv_machine_le _ _ _ i Hinv Hi). apply prefix_length in Hp.
  destruct (chosen_wf _ _ _ i (si_chosen _ _ _ Hinv)) as [Hw _].
  specialize (Happ i Hi). pose proof (wf_lii _ Hw).
  destruct (Snapshot_view _ _ _ _ Hw Happ Ha) as [Hv|[Hlt Hv]];
    [by eapply server_inv_view|apply view_eq in Hv as (Ha1 & Hl1 & Hs1)].
  split; rewrite ?Ha1, ?Hl1, ?Hs1; [done..|]. right. split; [lia|]. by eexists.
Qed.

(** Messages are received in order. *)
Context (reads_in_order : ∀ ex m, receive_ok pol ex m → in_order ex m).

Lemma read_step_ok B σ L i m b ins s' index :
  sys_inv B σ L → receives σ i m b ins → receive_ok pol (executed σ i) m →
  deliver m (machine σ i) (executed σ i) = Some (s', index) →
  sys_inv B (mkSystem (cluster σ) (<[i := s']> (machine σ)) (<[i := index]> (executed σ))
             (<[i := b]> (batch σ)) (<[i := ins]> (installs σ))) L.
Proof.
  intros Hinv Hr Ho%reads_in_order Hd.
  apply (sys_inv_update B _ σ L L i); cbn [cluster machine executed batch installs];
    [done|done|apply Hinv| | |apply Hinv].
  - intros j Hj. by rewrite !fn_lookup_insert_ne by done.
  - intros HN. rewrite !fn_lookup_insert.
    destruct (sys_inv_node B σ L L i Hinv (reflexivity L) HN) as [Hx Hbat Hins Hm Hdisk].
    destruct (receives_Forall _ _ _ _ _ _ Hr Hbat Hins) as (Hok & ? & ?).
    destruct (deliver_ok L _ m _ _ s' index (proj1 Hx) Hok Ho Hm Hd). by split.
Qed.

Lemma restart_step_ok B σ L i c' s :
  sys_inv B σ L → lstep N (λ _ _, True) (cluster σ) (ERestart i) c' →
  boot (ReadSnapshot (persister (servers c' i))) = Some s →
  ∃ L', L `prefix_of` L' ∧ sys_inv B (mkSystem c' (<[i := s]> (machine σ))
    (<[i := lastIncludedIndex (servers c' i)]> (executed σ))
    (<[i := []]> (batch σ)) (<[i := []]> (installs σ))) L'.
Proof.
  intros Hinv Hs Hboot. destruct (sys_chosen B B σ L _ c' Hinv Hs) as (L' & Hp & Hch & Hnet); [done..|].
  exists L'. split; [done|].
  destruct (chosen_wf _ _ _ i (si_chosen _ _ _ Hinv)) as [Hw Hpers].
  inversion Hs as [| | | | | | | | | | | | | | |i' now Hi]; subst.
  pose proof (Make_view N (Z.of_nat i) now _ Hpers) as Hv.
  cbn [servers] in *. rewrite set_server_eq in *. apply view_eq in Hv as (Ha & Hl & Hsn).
  rewrite Hsn in Hboot.
  apply (sys_inv_update B _ σ L L' i); cbn [cluster servers machine executed batch installs inflight];
    [done|done|done| | |done].
  { intros j Hj. by rewrite !fn_lookup_insert_ne, set_server_ne by done. }
  intros _. rewrite !fn_lookup_insert, set_server_eq.
  destruct (sys_inv_node B σ L L' i Hinv Hp Hi) as [_ _ _ _ Hd].
  split; rewrite ?Ha, ?Hl, ?Hsn; [pose proof (wf_lii _ Hw); lia|by constructor..| |done].
  unfold boot in Hboot. destruct Hd as [[-> Hnil]|(_ & s1 & Hs1 & Hdata)].
  - rewrite Hnil in Hboot. simpl in Hboot. unfold state_after. by rewrite <-Hboot.
  - rewrite Hdata, restore_snapshot in Hboot. rewrite Hs1, <-Hboot.
    destruct (_ <? _) eqn:Hlen; [done|]. bool_to_prop. pose proof (snapshot_nonempty s1).
    destruct (SM_Snapshot s1); [done|simpl in Hlen; lia].
Qed.

(** The entries that a step proposes. *)
Definition proposed (o : Obs) : nat → Entry → Prop :=
  match o with
  | OStart i command res => appended (EStart i command res)
  | _ => λ _ _, False
  end.

Lemma sys_inv_mono (B B' : nat → Entry → Prop) σ L :
  (∀ j e, B j e → B' j e) → sys_inv B σ L → sys_inv B' σ L.
Proof. intros HB []. constructor; try done. by eapply chosen_mono. Qed.

Lemma sys_lstep_ok (B B' : nat → Entry → Prop) σ o σ' L :
  sys_inv B σ L → sys_lstep σ o σ' →
  (∀ j e, B j e → B' j e) → (∀ j e, proposed o j e → B' j e) →
  ∃ L', L `prefix_of` L' ∧ sys_inv B' σ' L'.
Proof.
  intros Hinv Hs HB Ho. pose proof (sys_inv_mono _ _ _ _ HB Hinv) as Hinv'.
  destruct Hs; eauto using apply_step_ok, install_step_ok, snapshot_step_ok, restart_step_ok.
  - by eapply (silent_step_ok B B').
  - by eapply (silent_step_ok B B').
  - exists L. split; [done|]. by eapply read_step_ok.
Qed.

Lemma sys_step_ok B σ σ' L :
  (∀ j e, B j e) → sys_inv B σ L → sys_step σ σ' → ∃ L', L `prefix_of` L' ∧ sys_inv B σ' L'.
Proof. intros HB Hinv [o Hs]. eapply sys_lstep_ok; eauto. Qed.

Lemma sys_init_ok B σ : sys_init σ → sys_inv B σ [].
Proof.
  intros [Hc Hs]. pose proof (chosen_init N B _ Hc) as Hch. destruct Hc as (Hm & _ & Hnet).
  constructor; [done|..].
  - intros i _. destruct (Hs i) as (_ & -> & _), (Hm i) as [now ->]. done.
  - intros i _. destruct (Hs i) as (_ & _ & -> & _). by constructor.
  - intros i _. destruct (Hs i) as (_ & _ & _ & ->). by constructor.
  - intros i _. by destruct (Hs i) as (-> & -> & _).
  - intros i _. left. destruct (Hm i) as [now ->]. done.
  - intros src inc dst args. rewrite Hnet. by intros ?%elem_of_nil.
Qed.

(** Anything may have been proposed. *)
Definition anything (j : nat) (e : Entry) : Prop := True.

Lemma sys_reachable_inv σ : reachable sys_init sys_step σ → ∃ L, sys_inv anything σ L.
Proof.
  revert σ. apply reachable_invariant; [intros σ ?; exists []; by apply sys_init_ok|].
  intros σ σ' _ [L Hinv] Hs. destruct (sys_step_ok anything σ σ' L) as (L' & _ & ?); eauto. done.
Qed.

Lemma sys_run_inv σ σ' L :
  sys_inv anything σ L → rtc sys_step σ σ' → ∃ L', L `prefix_of` L' ∧ sys_inv anything σ' L'.
Proof.
  intros Hinv Hr. revert L Hinv. induction Hr as [σ|σ σ1 σ' Hs _ IH]; intros L Hinv; [eauto|].
  destruct (sys_step_ok anything σ σ1 L) as (L1 & Hp & Hinv1); [done..|].
  destruct (IH L1 Hinv1) as (L' & Hp' & Hinv'). exists L'. split; [by etrans|done].
Qed.

(** C13. Replicas of a service agree in the runs in which every service receives
    its messages in order ([in_order]: each command is the next one, no snapshot is
    older than what has been executed), which the code does not see to once there
    are snapshots: the state of the service on every server, at every moment of a
    run with crashes, losses and restarts, is the result of executing the first
    commands of one decided log, as many as the server has executed; so two servers
    that have executed equally many commands, at the same or at different moments,
    have the same state. *)
Theorem replicas_agree σ σ' i j :
  reachable sys_init sys_step σ → rtc sys_step σ σ' → (i < N)%nat → (j < N)%nat →
  (∃ L, chosen N anything (cluster σ') L ∧
     state_after L (executed σ i) = Some (machine σ i) ∧
     state_after L (executed σ' j) = Some (machine σ' j)) ∧
  (executed σ i = executed σ' j → machine σ i = machine σ' j).
Proof.
  intros [L Hinv]%sys_reachable_inv Hr Hi Hj.
  destruct (sys_run_inv _ _ _ Hinv Hr) as (L' & Hp & Hinv').
  destruct (sys_inv_node _ σ L L' i Hinv Hp Hi) as [_ _ _ Hm _].
  pose proof (si_machine _ _ _ Hinv' j Hj) as Hm'. split.
  - exists L'. split_and!; [apply Hinv'|done|done].
  - intros He. rewrite He in Hm. congruence.
Qed.

End Replicas.
