(* ===== verification/KVRaft.v ===== *)
(** * The replicated key/value service

    Models src/6.5840/src/kvraft1/server.go (the state machine the RSM drives
    and the RPC handlers) and client.go (the clerk that looks for the leader),
    and the counter service of src/6.5840/src/kvraft1/rsm/server.go, the other
    implementation of the [StateMachine] interface. *)

From S2P Require Import Prelude Gob KVRpc KVSrv Raft RSM.

(** ** The state machine *)

(** The dynamic types of [req any] and of the result of [DoOp]. *)
Inductive KVReq := KGet (args : GetArgs) | KPut (args : PutArgs) | KOther.
Inductive KVRes := KGetReply (r : GetReply) | KPutReply (r : PutReply) | KNil.

Definition KV_DoOp (req : KVReq) (kv : KVServer) : KVServer * KVRes :=
  match req with
  | KGet args =>
      (kv, KGetReply
             match store kv !! get_Key args with
             | None => mkGetReply "" 0 ErrNoKey
             | Some item => mkGetReply (vv_val item) (vv_ver item) OK
             end)
  | KPut args =>
      match store kv !! put_Key args with
      | None =>
          if put_Version args =? 0 then
            (mkKVServer (<[put_Key args := mkValueVersion (put_Value args) 1]> (store kv)),
             KPutReply (mkPutReply OK))
          else (kv, KPutReply (mkPutReply ErrNoKey))
      | Some item =>
          if negb (vv_ver item =? put_Version args) then (kv, KPutReply (mkPutReply ErrVersion))
          else
            (mkKVServer (<[put_Key args :=
               mkValueVersion (put_Value args) (u64 (vv_ver item + 1))]> (store kv)),
             KPutReply (mkPutReply OK))
      end
  | KOther => (kv, KNil)
  end.

Section Snapshots.
Context `{!Gob (gmap string valueVersion)}.

(** [None] is the panic on an encoding or decoding error. *)
Definition KV_Snapshot (kv : KVServer) : option (list byte) :=
  e ← gob_encode (store kv) new_encoder; Some (enc_bytes e).

Definition KV_Restore (data : list byte) (kv : KVServer) : option KVServer :=
  if len data =? 0 then Some kv
  else '(st, _) ← gob_decode (new_decoder data); Some (mkKVServer st).

Lemma KV_Snapshot_ok `{!GobRegistered (gmap string valueVersion)} kv : is_Some (KV_Snapshot kv).
Proof. unfold KV_Snapshot. destruct (gob_encode_ok (store kv) new_encoder) as [e ->]. done. Qed.

Lemma KV_roundtrip kv kv' data : KV_Snapshot kv = Some data → KV_Restore data kv' = Some kv.
Proof.
  unfold KV_Snapshot, KV_Restore. intros (e & He & [= <-])%bind_Some.
  apply written_encode in He. rewrite written_new in He. simpl in He.
  destruct (_ =? _) eqn:Hl; bool_to_prop.
  - assert (enc_bytes e = []) as Hnil by (destruct (enc_bytes e); [done|simpl in Hl; lia]).
    apply enc_bytes_nil in Hnil. by rewrite Hnil in He.
  - destruct (encode_decode_1 _ _ _ He) as (d & -> & _). simpl. by destruct kv.
Qed.

Lemma KV_Snapshot_nonempty kv data : KV_Snapshot kv = Some data → data ≠ [].
Proof.
  unfold KV_Snapshot. intros (e & He & [= <-])%bind_Some.
  apply written_encode in He. rewrite written_new in He. intros Hn%enc_bytes_nil.
  by rewrite Hn in He.
Qed.

#[refine, export] Instance KV_StateMachine `{!GobRegistered (gmap string valueVersion)} :
  StateMachine KVServer KVReq KVRes := {|
  DoOp req kv := Some (KV_DoOp req kv);
  SM_Snapshot kv := default [] (KV_Snapshot kv);
  SM_Restore := KV_Restore
|}.
Proof.
  - intros kv kv'. destruct (KV_Snapshot_ok kv) as [data Hd]. rewrite Hd. by apply KV_roundtrip.
  - intros kv. destruct (KV_Snapshot_ok kv) as [data Hd]. rewrite Hd.
    by apply (KV_Snapshot_nonempty kv).
Defined.

(** A snapshot of the store survives encoding: Snapshot does not panic,
    and Restore of its bytes, on any server, yields exactly the store it was
    taken from; Restore of an empty snapshot leaves the server as it is. *)
Theorem KV_snapshot_roundtrip `{!GobRegistered (gmap string valueVersion)} kv kv' :
  (∃ data, KV_Snapshot kv = Some data ∧ data ≠ [] ∧ KV_Restore data kv' = Some kv) ∧
  KV_Restore [] kv' = Some kv'.
Proof.
  split; [|done]. destruct (KV_Snapshot_ok kv) as [data Hd]. exists data.
  split_and!; [done|by eapply KV_Snapshot_nonempty|by apply KV_roundtrip].
Qed.

(** ** The RPC handlers *)

(** [kv.rsm.Submit] has returned; [None] is the panic of a failed type
    assertion. *)
Definition KV_Get (submit : Err * option KVRes) : option GetReply :=
  let '(err, res) := submit in
  if decide (err ≠ OK) then Some (mkGetReply "" 0 err)
  else match res with Some (KGetReply r) => Some r | _ => None end.

Definition KV_Put (submit : Err * option KVRes) : option PutReply :=
  let '(err, res) := submit in
  if decide (err ≠ OK) then Some (mkPutReply err)
  else match res with Some (KPutReply r) => Some r | _ => None end.

(** The replicated service executes requests exactly like the
    single-server one: DoOp on a Get or a Put is the handler of kvsrv1, state
    and reply alike. *)
Theorem DoOp_is_kvsrv kv :
  (∀ args, KV_DoOp (KGet args) kv = (kv, KGetReply (KVServer_Get args kv))) ∧
  (∀ args, KV_DoOp (KPut args) kv =
     ((KVServer_Put args kv).1, KPutReply (KVServer_Put args kv).2)).
Proof.
  split; intros args; [done|]. unfold KV_DoOp, KVServer_Put.
  destruct (store kv !! put_Key args); by destruct (_ =? _).
Qed.

Context `{!GobRegistered (gmap string valueVersion)}.

(** A Submit returns with an error and no result, or OK and a result. *)
Lemma Submit_results maxraftstate (c : RSM (S:=KVServer) (Req:=KVReq) (Res:=KVRes)) s op i err res :
  rsm_reachable maxraftstate c → subs c s = SDefer op i err res ∨ subs c s = SDone op i err res →
  (err = OK ∧ is_Some res) ∨ (err = ErrWrongLeader ∧ res = None).
Proof.
  intros Hr. revert s op i err res. induction Hr as [c Hi|c c' _ IH Hstep].
  - destruct Hi as (snap & s0 & reqs & sent0 & Hm & _). unfold MakeRSM in Hm.
    apply bind_Some in Hm as (s1 & _ & [= <-]). naive_solver.
  - intros s op i err res. destruct Hstep; simpl; unfold set_sub; try (by apply IH);
      case_decide; subst; try (by apply IH); intros [Heq|Heq]; simplify_eq; auto.
    + unfold submitReceive. destruct (_ || _); simpl; eauto.
    + eapply IH. eauto.
Qed.

(** The handlers never panic on the type assertion and answer with the
    state machine's own reply: when the Submit of a Get (Put) has returned, the
    handler replies ErrWrongLeader, or the reply KVServer_Get (KVServer_Put) of
    kvsrv1 gives in some state of the store. *)
Theorem handlers_reply maxraftstate (c : RSM (S:=KVServer) (Req:=KVReq) (Res:=KVRes)) s op i err res :
  rsm_reachable maxraftstate c → subs c s = SDone op i err res →
  (∀ args, op_Command op = KGet args →
     ∃ r, KV_Get (err, res) = Some r ∧
       (gr_Err r = ErrWrongLeader ∨ ∃ kv, r = KVServer_Get args kv)) ∧
  (∀ args, op_Command op = KPut args →
     ∃ r, KV_Put (err, res) = Some r ∧
       (pr_Err r = ErrWrongLeader ∨ ∃ kv, r = (KVServer_Put args kv).2)).
Proof.
  intros Hr Hs. destruct (Submit_results _ _ _ _ _ _ _ Hr (or_intror Hs)) as [[-> [x ->]]|[-> ->]].
  - assert ((i, op, x) ∈ history c) as Hh.
    { eapply ri_defer; [by eapply rsm_reachable_inv|]. by right. }
    destruct (history_results _ _ _ _ _ Hr Hh) as (kv & kv' & Hd).
    split; intros args Ha; rewrite Ha in Hd; simpl in Hd.
    + apply (inj Some), pair_equal_spec in Hd as [_ <-]. eexists. split; [done|]. right.
      by exists kv.
    + exists (KVServer_Put args kv).2. split; [|right; by exists kv].
      unfold KVServer_Put. destruct (store kv !! put_Key args);
        destruct (_ =? _); simpl in Hd; by injection Hd as _ <-.
  - split; intros args Ha; eexists; (split; [done|by left]).
Qed.

(** *** The object of a server

    The store, and the field [dead]; the [rsm] is that of RSM.v. *)
Record KVInstance := mkKVInstance { kvi_kv : KVServer; kvi_dead : Z }.

(** [snapshot] is the one of the persister; [None] is the panic of Restore. *)
Definition StartKVServer (snapshot : list byte) : option KVInstance :=
  c ← MakeRSM snapshot MakeKVServer (λ _, KOther) []; Some (mkKVInstance (rsm_sm c) 0).

Definition KVInstance_Kill (s : KVInstance) : KVInstance := mkKVInstance (kvi_kv s) 1.
Definition KVInstance_killed (s : KVInstance) : bool := kvi_dead s =? 1.

(** A server that is started on a snapshot has the store that was saved in it, one
    without a snapshot an empty store, and both run until they are killed. *)
Lemma StartKVServer_restores kv :
  (∃ data s, KV_Snapshot kv = Some data ∧ StartKVServer data = Some s ∧ kvi_kv s = kv ∧
     KVInstance_killed s = false ∧ KVInstance_killed (KVInstance_Kill s) = true) ∧
  StartKVServer [] = Some (mkKVInstance MakeKVServer 0).
Proof.
  split; [|done]. destruct (KV_snapshot_roundtrip kv MakeKVServer) as [(data & Hd & Hne & Hr) _].
  exists data, (mkKVInstance kv 0). split; [done|]. split; [|done]. unfold StartKVServer, MakeRSM.
  rewrite (proj2 (Z.ltb_lt 0 (len data))) by (destruct data; [done|simpl; lia]).
  simpl. by rewrite Hr.
Qed.

End Snapshots.

(** ** The clerk *)

Record Clerk := mkClerk { ck_servers : list string; ck_leader : Z }.

Definition MakeClerk (servers : list string) : Clerk := mkClerk servers 0.

Section Clerk.
(** What [ck.clnt.Call] gives on the [k]-th attempt of the call at the given
    server: [None] when it returns false. *)
Context {Reply : Type} (call : nat → string → option Reply) (err : Reply → Err).

(** [ok && reply.Err != rpc.ErrWrongLeader] *)
Definition answered (r : option Reply) : bool :=
  match r with Some r => bool_decide (err r ≠ ErrWrongLeader) | None => false end.

(** The loop shared by Get and Put: the reply that ends it, the server it came
    from, and whether it was the first attempt; [None] when an index is out of
    range or after [fuel] attempts. *)
Fixpoint findLeader (fuel : nat) (k : nat) (servers : list string) (leader : Z) :
    option (Reply * Z * nat) :=
  match fuel with
  | O => None
  | S fuel =>
      server ← go_nth servers leader;
      let r := call k server in
      if answered r then r' ← r; Some (r', leader, k)
      else findLeader fuel (S k) servers (Z.rem (leader + 1) (len servers))
  end.

Lemma findLeader_spec fuel : ∀ k servers leader r srv k',
  0 <= leader < len servers →
  findLeader fuel k servers leader = Some (r, srv, k') →
  (k <= k' < k + fuel)%nat ∧ srv = (leader + Z.of_nat (k' - k)) mod len servers ∧
  (∃ name, go_nth servers srv = Some name ∧ call k' name = Some r) ∧ err r ≠ ErrWrongLeader ∧
  ∀ j name, (k <= j < k')%nat →
    go_nth servers ((leader + Z.of_nat (j - k)) mod len servers) = Some name →
    answered (call j name) = false.
Proof.
  induction fuel as [|fuel IH]; simpl; intros k servers leader r srv k' Hl H; [done|].
  apply bind_Some in H as (server & Hs & H).
  destruct (answered (call k server)) eqn:Ha.
  - apply bind_Some in H as (r' & Hr & [= <- <- <-]).
    rewrite Nat.sub_diag, Z.add_0_r, Z.mod_small by lia. rewrite Hr in Ha. simpl in Ha.
    bool_to_prop. split_and!; [lia|lia|done|eauto|done|]. lia.
  - apply IH in H as (Hk & -> & Hc & He & Hj);
      [|rewrite Z.rem_mod_nonneg by lia; apply Z.mod_pos_bound; lia].
    rewrite Z.rem_mod_nonneg in * by lia. rewrite Zplus_mod_idemp_l in *.
    replace (leader + 1 + Z.of_nat (k' - S k)) with (leader + Z.of_nat (k' - k)) in * by lia.
    split_and!; [lia|lia|done|done|done|]. intros j name Hjr Hn.
    destruct (decide (j = k)) as [->|Hne].
    + rewrite Nat.sub_diag, Z.add_0_r, Z.mod_small in Hn by lia. congruence.
    + eapply Hj; [|]; [lia|]. rewrite Zplus_mod_idemp_l.
      by replace (leader + 1 + Z.of_nat (j - S k)) with (leader + Z.of_nat (j - k)) by lia.
Qed.

(** Some server that answers is met within one round. *)
Lemma findLeader_finds d : ∀ fuel k servers leader b name,
  0 <= leader < len servers → go_nth servers b = Some name →
  b = (leader + Z.of_nat d) mod len servers → (d < fuel)%nat →
  (∀ j, answered (call j name) = true) →
  is_Some (findLeader fuel k servers leader).
Proof.
  induction d as [|d IH]; intros fuel k servers leader b name Hl Hn Hb Hf Ha;
    (destruct fuel as [|fuel]; [lia|]); simpl.
  - rewrite Z.add_0_r, Z.mod_small in Hb by lia. subst b. rewrite Hn. simpl.
    specialize (Ha k). rewrite Ha. by destruct (call k name).
  - destruct (proj2 (go_nth_is_Some servers leader)) as [server Hs]; [lia|]. rewrite Hs. simpl.
    destruct (answered (call k server)) eqn:He; [by destruct (call k server)|].
    eapply (IH fuel (S k) servers _ b name); [|done| |lia|done].
    + rewrite Z.rem_mod_nonneg by lia. apply Z.mod_pos_bound. lia.
    + rewrite Z.rem_mod_nonneg, Zplus_mod_idemp_l by lia. rewrite Hb. f_equal. lia.
Qed.

End Clerk.

Definition RClerk_Get (call : nat → string → option GetReply) (fuel : nat) (ck : Clerk) :
    option (string * Tversion * Err * Clerk) :=
  '(r, srv, _) ← findLeader call gr_Err fuel 0 (ck_servers ck) (ck_leader ck);
  Some (gr_Value r, gr_Version r, gr_Err r, mkClerk (ck_servers ck) srv).

Definition RClerk_Put (call : nat → string → option PutReply) (fuel : nat) (ck : Clerk) :
    option (Err * Clerk) :=
  '(r, srv, k) ← findLeader call pr_Err fuel 0 (ck_servers ck) (ck_leader ck);
  let first := Nat.eqb k 0 in
  Some (if decide (pr_Err r = ErrVersion) then if first then ErrVersion else ErrMaybe else pr_Err r,
        mkClerk (ck_servers ck) srv).

(** The clerk tries the servers round robin from the last known leader and
    returns the first answer other than ErrWrongLeader, remembering who gave it;
    a Put reports ErrVersion only when the very first attempt was answered, and
    ErrMaybe instead after any retry.  If some server keeps answering, the clerk
    returns within one round. *)
Theorem RClerk_Put_spec call fuel ck :
  0 <= ck_leader ck < len (ck_servers ck) →
  (∀ err ck', RClerk_Put call fuel ck = Some (err, ck') →
     ∃ (k : nat) name r,
       ck_leader ck' = (ck_leader ck + Z.of_nat k) mod len (ck_servers ck) ∧
       go_nth (ck_servers ck) (ck_leader ck') = Some name ∧ call k name = Some r ∧
       pr_Err r ≠ ErrWrongLeader ∧ err = putResult (Nat.eqb k 0) (pr_Err r) ∧
       (err = ErrVersion → k = 0%nat) ∧
       ∀ (j : nat) name', (j < k)%nat →
         go_nth (ck_servers ck) ((ck_leader ck + Z.of_nat j) mod len (ck_servers ck)) = Some name' →
         answered pr_Err (call j name') = false) ∧
  (∀ b name, go_nth (ck_servers ck) b = Some name →
     (∀ j, answered pr_Err (call j name) = true) → (length (ck_servers ck) <= fuel)%nat →
     is_Some (RClerk_Put call fuel ck)).
Proof.
  intros Hl. split.
  - intros err ck' H. unfold RClerk_Put in H. apply bind_Some in H as ([[r srv] k] & Hf & [= <- <-]).
    destruct (findLeader_spec _ _ _ _ _ _ _ _ _ Hl Hf) as (_ & Hs & (name & Hn & Hc) & He & Hj).
    rewrite Nat.sub_0_r in Hs. exists k, name, r. simpl. split_and!; try done.
    + destruct k; [done|]. by case_decide.
    + intros j name' Hjk Hn'. apply Hj; [lia|]. by rewrite Nat.sub_0_r.
  - intros b name Hn Ha Hf. pose proof (go_nth_Some _ _ _ Hn) as Hb. unfold RClerk_Put.
    destruct (findLeader_finds call pr_Err
      (Z.to_nat ((b - ck_leader ck) mod len (ck_servers ck))) fuel 0 (ck_servers ck)
      (ck_leader ck) b name) as [[[r srv] k] ->]; [done|done| | |done|done].
    + pose proof (Z.mod_pos_bound (b - ck_leader ck) (len (ck_servers ck)) ltac:(lia)).
      rewrite Z2Nat.id, Zplus_mod_idemp_r by lia.
      replace (ck_leader ck + (b - ck_leader ck)) with b by lia. by rewrite Z.mod_small.
    + pose proof (Z.mod_pos_bound (b - ck_leader ck) (len (ck_servers ck)) ltac:(lia)). lia.
Qed.

(** ** The counter service *)

Inductive IncReq := Inc | Null | Dec.
Inductive IncRes := IncRep (n : Z) | NullRep.

Record rsmSrv := mkRsmSrv { counter : Z }.

(** [None] is [log.Fatalf]. *)
Definition rsmSrv_DoOp (req : IncReq) (rs : rsmSrv) : option (rsmSrv * IncRes) :=
  match req with
  | Inc => let rs := mkRsmSrv (counter rs + 1) in Some (rs, IncRep (counter rs))
  | Null => Some (rs, NullRep)
  | Dec => None
  end.

Section Counter.
Context `{!Gob Z} `{!GobRegistered Z}.

Definition rsmSrv_Snapshot (rs : rsmSrv) : list byte :=
  enc_bytes (encode_ignoring [counter rs] new_encoder).

Definition rsmSrv_Restore (data : list byte) (rs : rsmSrv) : option rsmSrv :=
  '(n, _) ← gob_decode (new_decoder data); Some (mkRsmSrv n).

#[refine, export] Instance rsmSrv_StateMachine : StateMachine rsmSrv IncReq IncRes := {|
  DoOp := rsmSrv_DoOp;
  SM_Snapshot := rsmSrv_Snapshot;
  SM_Restore := rsmSrv_Restore
|}.
Proof.
  all: intros rs; pose proof (encode_ignoring_registered [counter rs] new_encoder) as He;
    apply encode_all_written in He; rewrite written_new, app_nil_l in He.
  - intros rs'. unfold rsmSrv_Snapshot, rsmSrv_Restore.
    destruct (encode_decode_1 _ _ _ He) as (d & -> & _). simpl. by destruct rs.
  - intros Hn%enc_bytes_nil. by rewrite Hn in He.
Defined.

End Counter.

(** ** Instances *)

#[local] Instance Z_gob : Gob Z := CountableGob.
#[local] Instance store_gob : Gob (gmap string valueVersion) := CountableGob.

(** Submit 0 has started its operation at index 1, in any service. *)
Lemma rsm_started_reachable {St Req Res} `{!StateMachine St Req Res} (s0 : St) (req : Req) :
  ∃ c : RSM (S:=St) (Req:=Req) (Res:=Res),
    rsm_reachable 0 c ∧ subs c 0%nat = SStarted (mkOp 5 1 req) 1 1 ∧
    reader c = RRecv ∧ sent c = [mkOp 5 1 req] ∧ pendingOps c = ∅ ∧ rsm_sm c = s0 ∧
    history c = [].
Proof.
  pose (c0 := mkRSM s0 ∅ ∅ (λ _, SNew req) RRecv [] s0 [] [] []
    : RSM (S:=St) (Req:=Req) (Res:=Res)).
  eexists. split; [eapply reach_step; [eapply reach_step; [apply (reach_init _ _ c0)|]|]|].
  - exists [], s0, (λ _, req), []. split; [done|constructor].
  - by apply (r_state 0 c0 0%nat req 1).
  - eapply (r_start 0 _ 0%nat req 1 5 1 1); [done|]. by apply not_elem_of_nil.
  - done.
Qed.

(** A call that registers, loses the leadership and returns. *)
Lemma rsm_lost_reachable {St Req Res} `{!StateMachine St Req Res} (s0 : St) (req : Req) :
  ∃ c : RSM (S:=St) (Req:=Req) (Res:=Res),
    rsm_reachable 0 c ∧ subs c 0%nat = SDone (mkOp 5 1 req) 1 ErrWrongLeader None.
Proof.
  destruct (rsm_started_reachable s0 req) as (c & Hc & Hs & _). eexists.
  split; [eapply reach_step; [eapply reach_step; [eapply reach_step; [exact Hc|]|]|]|].
  - by apply (r_register 0 c 0%nat).
  - by eapply (r_lost 0 _ 0%nat).
  - by eapply (r_defer 0 _ 0%nat).
  - done.
Qed.

Definition inc_op : Op IncReq := mkOp 5 1 Inc.

Definition inc_msg : ApplyMsg (Op IncReq) := mkApplyMsg true (Some inc_op) 1 false [] 0 0.

(** Reaching the send: the operation is registered, applied and looked up. *)
Lemma rsm_send_reachable : ∃ c : RSM (S:=rsmSrv), rsm_reachable 0 c ∧ subs c 0%nat = SWait inc_op 1 1 ∧
  reader c = RSend 1 0 (mkNotification 5 1 (IncRep 1)) ∧ history c = [(1, inc_op, IncRep 1)].
Proof.
  destruct (rsm_started_reachable (mkRsmSrv 0) Inc) as (c & Hc & Hs & Hr & Hsent & Hp & Hsm & Hh). eexists.
  split; [eapply reach_step; [eapply reach_step; [eapply reach_step; [exact Hc|]|]|]|].
  - by apply (r_register 0 c 0%nat inc_op 1 1).
  - eapply (r_apply 0 _ inc_msg inc_op); [done|done|done|simpl; rewrite Hsent; set_solver|].
    simpl. by rewrite Hsm.
  - by eapply r_notify.
  - simpl. unfold notifyPending. simpl. rewrite Hp, Hh. by vm_compute.
Qed.

Lemma Submit_ok_is_own_result_witness :
  ∃ c, rsm_reachable 0 c ∧ subs c 0%nat = SDone inc_op 1 OK (Some (IncRep 1)) ∧
    (1, inc_op, IncRep 1) ∈ history c.
Proof.
  assert (∃ c, rsm_reachable 0 c ∧ subs c 0%nat = SDone inc_op 1 OK (Some (IncRep 1)))
    as (c & Hc & Hs).
  { destruct rsm_send_reachable as (c & Hc & Hs & Hr & Hh). eexists.
    split; [eapply reach_step; [eapply reach_step; [eapply reach_step; [exact Hc|]|]|]|].
    - eapply (r_send 0 c 1 0%nat); [exact Hr|].
      by eapply (ri_send c); [apply (rsm_reachable_inv 0)|].
    - eapply (r_receive 0 _ 0%nat inc_op 1 1); [exact Hs|]. apply lookup_insert_eq.
    - eapply (r_defer 0 _ 0%nat inc_op 1). done.
    - done. }
  exists c. split; [exact Hc|split; [exact Hs|]].
  apply (Submit_ok_is_own_result 0 c 0%nat inc_op 1 (IncRep 1) Hc Hs).
Defined.

Lemma reader_never_blocks_witness :
  ∃ c ch n, rsm_reachable 0 c ∧ reader c = RSend 1 ch n ∧ chans c !! ch = Some ChEmpty.
Proof.
  destruct rsm_send_reachable as (c & Hc & Hs & Hr & Hh).
  exists c, 0%nat, (mkNotification 5 1 (IncRep 1)). split; [exact Hc|split; [exact Hr|]].
  apply (reader_never_blocks 0 c 1 0%nat (mkNotification 5 1 (IncRep 1)) Hc Hr).
Defined.

Lemma snapshot_is_prefix_state_witness :
  ∃ c0 c data s, rsm_init (S:=rsmSrv) (Req:=IncReq) (Res:=IncRes) c0 ∧ (1, data) ∈ snapshots c ∧
    state_at c0 c 1 s ∧ SM_Restore data (mkRsmSrv 9) = Some s.
Proof.
  assert (∃ c data, rsm_reachable 0 c ∧ (1, data) ∈ snapshots c) as (c & data & Hc & Hin).
  { destruct rsm_send_reachable as (c & Hc & Hs & Hr & Hh). eexists _, _.
    split; [eapply reach_step; [eapply reach_step; [exact Hc|]|]|].
    - eapply (r_send 0 c 1 0%nat); [exact Hr|].
      by eapply (ri_send c); [apply (rsm_reachable_inv 0)|].
    - by eapply (r_check 0 _ 1 10).
    - simpl. unfold takeSnapshot. simpl. apply list_elem_of_here. }
  apply reachable_run in Hc as (c0 & Hi & Hrun).
  destruct (snapshot_is_prefix_state 0 c0 c 1 data (mkRsmSrv 9) Hi Hrun Hin) as (s & Hs & Hd).
  by exists c0, c, data, s.
Defined.

(** The notification of a command that is applied between [Start] and the
    registration of its channel is lost: the call waits although its command has
    been executed, and no later step for that command will notify it. *)
Lemma lost_notification :
  ∃ c, rsm_reachable (S:=rsmSrv) (Req:=IncReq) (Res:=IncRes) 0 c ∧
    subs c 0%nat = SWait inc_op 1 1 ∧ (1, inc_op, IncRep 1) ∈ history c ∧
    chans c !! 0%nat = Some ChEmpty ∧ reader c = RRecv.
Proof.
  destruct (rsm_started_reachable (mkRsmSrv 0) Inc) as (c & Hc & Hs & Hr & Hsent & Hp & Hsm & Hh). eexists.
  split; [eapply reach_step; [eapply reach_step; [eapply reach_step; [eapply reach_step;
    [exact Hc|]|]|]|]|].
  - eapply (r_apply 0 _ inc_msg inc_op); [done|done|done|rewrite Hsent; set_solver|].
    by rewrite Hsm.
  - by eapply r_notify.
  - eapply (r_check 0 _ 1 0). simpl. unfold notifyPending. simpl. by rewrite Hp.
  - by eapply (r_register 0 _ 0%nat inc_op 1 1).
  - simpl. split_and!; [done|set_solver|apply lookup_insert_eq|done].
Qed.

Lemma handlers_reply_witness :
  ∃ r, KV_Get (ErrWrongLeader, None) = Some r ∧
    (gr_Err r = ErrWrongLeader ∨ ∃ kv, r = KVServer_Get (mkGetArgs "k") kv).
Proof.
  destruct (rsm_lost_reachable MakeKVServer (KGet (mkGetArgs "k"))) as (c & Hc & Hs).
  by apply (handlers_reply 0 c 0%nat _ 1 ErrWrongLeader None Hc Hs).
Defined.

Lemma RClerk_Put_spec_witness :
  is_Some (RClerk_Put (λ _ s, if decide (s = "c") then Some (mkPutReply OK) else None) 3
             (MakeClerk ["a"; "b"; "c"])).
Proof.
  apply (RClerk_Put_spec (λ _ s, if decide (s = "c") then Some (mkPutReply OK) else None) 3
           (MakeClerk ["a"; "b"; "c"])) with (b := 2) (name := "c"); [done|done|done|done].
Defined.

Lemma KV_snapshot_roundtrip_witness :
  KV_Restore (default [] (KV_Snapshot (mkKVServer {["k" := mkValueVersion "v" 1]}))) MakeKVServer
  = Some (mkKVServer {["k" := mkValueVersion "v" 1]}).
Proof.
  destruct (KV_snapshot_roundtrip (mkKVServer {["k" := mkValueVersion "v" 1]}) MakeKVServer)
    as [(d & -> & _ & H) _]. exact H.
Defined.
