(* ===== verification/Linearizable.v ===== *)
(** * Linearizability of the replicated service

    Clients that call [Submit] of src/6.5840/src/kvraft1/rsm/rsm.go on the
    servers of Replicas.v, any number of them at the same time, and the history
    of their calls: which call was made and which returned OK, with what result,
    in the order in which it happened.  The history is linearizable: the decided
    log is an order of the calls that explains every result and respects real
    time.

    A call is named by the identifier that [Submit] draws for its operation; the
    channel between the reader and a call is abstracted to the notification that
    the reader sends on it (RSM.v has the details of the channel: a call receives
    what the reader of its own server computed for its index). *)

From S2P Require Import Prelude Gob Persister KVRpc Raft RaftNode RaftSpec RaftReplication.
From S2P Require Import RaftProtocol RaftNet RaftLog RaftSafety RSM Replicas.

(** ** Histories *)

Section History.
Context {S Req Res : Type} `{!StateMachine S Req Res}.

(** The invocation of a call and its return with OK. *)
Inductive CallEvent :=
| HInv (id : Z) (req : Req)
| HRet (id : Z) (res : Res).

(** Histories have their newest event first: the call [a] returned before the
    call [b] was made. *)
Definition precedes (h : list CallEvent) (a b : Z) : Prop :=
  ∃ newer older req res, h = newer ++ HInv b req :: older ∧ HRet a res ∈ older.

(** A sequential execution: calls one after the other, with their results. *)
Fixpoint legal (s : S) (lin : list (Z * Req * Res)) : Prop :=
  match lin with
  | [] => True
  | (_, req, res) :: lin => ∃ s', DoOp req s = Some (s', res) ∧ legal s' lin
  end.

(** [lin] explains the history: it is a sequential execution of calls that were
    made, each at most once; it has every call that returned, with its result;
    and it keeps the order of calls that did not overlap. *)
Record linearizes (s0 : S) (h : list CallEvent) (lin : list (Z * Req * Res)) : Prop := {
  lin_legal : legal s0 lin;
  lin_once p p' id req req' res res' :
    lin !! p = Some (id, req, res) → lin !! p' = Some (id, req', res') → p = p';
  lin_made id req res : (id, req, res) ∈ lin → HInv id req ∈ h;
  lin_returned id res : HRet id res ∈ h → ∃ req, (id, req, res) ∈ lin;
  lin_order a b p p' req req' res res' :
    precedes h a b → lin !! p = Some (a, req, res) → lin !! p' = Some (b, req', res') → (p < p')%nat
}.

Definition linearizable (s0 : S) (h : list CallEvent) : Prop := ∃ lin, linearizes s0 h lin.

End History.

(** ** Clients *)

Section Clients.
Context {S Req Res : Type} `{!StateMachine S Req Res}.
Context `{!Gob (RaftVal (Op Req))} `{!GobRegistered (RaftVal (Op Req))}.
Context (N : nat) (s0 : S).
Abbreviation Entry := (LogEntry (Op Req)).
Abbreviation Sys := (System (S:=S) (Req:=Req)).
Context (pol : Policy (Req:=Req)).

(** A call of [Submit] (identifiers are taken to be fresh): after GetState on server [i], after Start, at the end. *)
Inductive Call :=
| KState (i : nat) (req : Req) (term : Z)
| KWait (i : nat) (op : Op Req) (index startTerm : Z)
| KDone (op : Op Req) (index : Z) (err : Err) (res : option Res)
| KRefused (req : Req).

Record World := mkWorld {
  replicas : Sys;
  submits : gmap Z Call;
  calls : list (CallEvent (Req:=Req) (Res:=Res))
}.

(** The event of a return. *)
Definition returned (id : Z) (res : option Res) : list (CallEvent (Req:=Req) (Res:=Res)) :=
  match res with Some r => [HRet id r] | None => [] end.

Inductive lin_step (w : World) : World → Prop :=
(* what the replicas do by themselves *)
| w_quiet σ' :
    sys_lstep N s0 pol (replicas w) OQuiet σ' →
    lin_step w (mkWorld σ' (submits w) (calls w))
(* Submit on server i, which says that it is the leader of term *)
| w_submit id i req term :
    submits w !! id = None → GetState (servers (cluster (replicas w)) i) = (term, true) →
    lin_step w (mkWorld (replicas w) (<[id := KState i req term]> (submits w))
                  (HInv id req :: calls w))
(* Start accepts the operation, or does not *)
| w_start id i req term index startTerm σ' :
    submits w !! id = Some (KState i req term) →
    sys_lstep N s0 pol (replicas w)
      (OStart i (Some (mkOp id term req)) (index, startTerm, true)) σ' →
    lin_step w (mkWorld σ' (<[id := KWait i (mkOp id term req) index startTerm]> (submits w))
                  (calls w))
| w_refused id i req term index startTerm σ' :
    submits w !! id = Some (KState i req term) →
    sys_lstep N s0 pol (replicas w)
      (OStart i (Some (mkOp id term req)) (index, startTerm, false)) σ' →
    lin_step w (mkWorld σ' (<[id := KRefused req]> (submits w)) (calls w))
(* the reader of server i handles a message, without a call waiting for it *)
| w_read i m σ' :
    sys_lstep N s0 pol (replicas w) (ORead i m) σ' →
    lin_step w (mkWorld σ' (submits w) (calls w))
(* ... or with a call that waits for its index *)
| w_notify id i m op op' index startTerm s' res err r σ' :
    submits w !! id = Some (KWait i op index startTerm) →
    sys_lstep N s0 pol (replicas w) (ORead i m) σ' →
    CommandValid m = true → CommandIndex m = index → am_Command m = Some op' →
    DoOp (op_Command op') (machine (replicas w) i) = Some (s', res) →
    submitReceive op startTerm (mkNotification (op_Id op') (op_Term op') res) = (err, r) →
    lin_step w (mkWorld σ' (<[id := KDone op index err r]> (submits w)) (returned id r ++ calls w))
(* a call gives up: the leadership or the term is lost, or the server stops *)
| w_fail id i op index startTerm :
    submits w !! id = Some (KWait i op index startTerm) →
    lin_step w (mkWorld (replicas w) (<[id := KDone op index ErrWrongLeader None]> (submits w))
                  (calls w)).

Definition lin_init (w : World) : Prop :=
  sys_init N s0 (replicas w) ∧ submits w = ∅ ∧ calls w = [].

(** ** Executing the decided log *)

(** The calls of the log with their results, up to the first that fails. *)
Fixpoint results (s : S) (l : list Entry) : list (Z * Req * Res) :=
  match l with
  | [] => []
  | e :: l =>
      match Command e with
      | None => results s l
      | Some op =>
          match DoOp (op_Command op) s with
          | None => []
          | Some (s', res) => (op_Id op, op_Command op, res) :: results s' l
          end
      end
  end.

Definition operations (l : list Entry) : Prop := ∀ j e, l !! j = Some e → is_Some (Command e).

Lemma operations_cons e l : operations (e :: l) → is_Some (Command e) ∧ operations l.
Proof. intros Hl. split; [by apply (Hl 0%nat)|]. intros j. apply (Hl (Datatypes.S j)). Qed.

Lemma results_legal l : ∀ s, legal s (results s l).
Proof.
  induction l as [|e l IH]; intros s; simpl; [done|]. destruct (Command e) as [op|]; [|apply IH].
  destruct (DoOp _ _) as [[s' res]|] eqn:Hd; simpl; [eauto|done].
Qed.

(** A result is at the position of its entry. *)
Lemma results_entry l : ∀ s p id req res,
  operations l → results s l !! p = Some (id, req, res) →
  ∃ e op, l !! p = Some e ∧ Command e = Some op ∧ op_Id op = id ∧ op_Command op = req.
Proof.
  induction l as [|e l IH]; intros s p id req res Hl; simpl; [done|].
  apply operations_cons in Hl as [[op Hop] Hl]. rewrite Hop.
  destruct (DoOp _ _) as [[s' r]|]; [|done]. destruct p as [|p]; simpl.
  - intros [= <- <- _]. by exists e, op.
  - intros Hp. by eapply IH.
Qed.

Lemma results_of_run l : ∀ s p e op sp s' res,
  operations l → l !! p = Some e → Command e = Some op →
  foldl (λ os e, s ← os; exec1 s (Command e)) (Some s) (take p l) = Some sp →
  DoOp (op_Command op) sp = Some (s', res) →
  results s l !! p = Some (op_Id op, op_Command op, res).
Proof.
  induction l as [|e0 l IH]; intros s p e op sp s' res Hl Hp Hop; [done|].
  apply operations_cons in Hl as [[op0 Hop0] Hl].
  assert (∀ l : list Entry,
    foldl (λ (os : option S) e, s ← os; exec1 s (Command e)) None l = None) as Hnone.
  { intros l0. by induction l0. }
  destruct p as [|p]; simpl in *.
  - intros [= ->] Hd. injection Hp as ->. by rewrite Hop, Hd.
  - rewrite Hop0. simpl. destruct (DoOp (op_Command op0) s) as [[s1 r1]|]; simpl.
    + intros Hf Hd. by eapply IH.
    + by rewrite Hnone.
Qed.

(** ** The invariant *)

(** The operation of a call that has been accepted, and its index. *)
Definition accepted (c : Call) : option (Op Req * Z) :=
  match c with
  | KWait _ op index _ | KDone op index _ _ => Some (op, index)
  | _ => None
  end.

(** The entry [e] at position [j] is that of an accepted call. *)
Definition submitted (w : World) (j : nat) (e : Entry) : Prop :=
  ∃ op c, Command e = Some op ∧ submits w !! op_Id op = Some c ∧
          accepted c = Some (op, Z.of_nat j + 1).

Record lin_inv (w : World) (L : list Entry) : Prop := mkLinInv {
  li_sys : sys_inv N s0 (submitted w) (replicas w) L;
  li_server id i op index startTerm :
    submits w !! id = Some (KWait i op index startTerm) → (i < N)%nat;
  li_state id i req term :
    submits w !! id = Some (KState i req term) → HInv id req ∈ calls w;
  li_op id c op index :
    submits w !! id = Some c → accepted c = Some (op, index) →
    op_Id op = id ∧ HInv id (op_Command op) ∈ calls w;
  li_known id req : HInv id req ∈ calls w → is_Some (submits w !! id);
  li_done id res : HRet id res ∈ calls w →
    ∃ op j e s s', submits w !! id = Some (KDone op (Z.of_nat j + 1) OK (Some res)) ∧
      L !! j = Some e ∧ Command e = Some op ∧ state_after s0 L (Z.of_nat j) = Some s ∧
      DoOp (op_Command op) s = Some (s', res);
  li_order a b : precedes (calls w) a b → ∀ p p' e e' op op',
    L !! p = Some e → Command e = Some op → op_Id op = a →
    L !! p' = Some e' → Command e' = Some op' → op_Id op' = b → (p < p')%nat
}.

(** ** Every step preserves it *)

Lemma log_submitted w L j e : sys_inv N s0 (submitted w) (replicas w) L → L !! j = Some e → submitted w j e.
Proof. intros Hs. eapply chosen_origin, Hs. Qed.

(** An operation is decided at most once. *)
Lemma decided_once w L p p' e e' op op' :
  sys_inv N s0 (submitted w) (replicas w) L →
  L !! p = Some e → Command e = Some op → L !! p' = Some e' → Command e' = Some op' →
  op_Id op = op_Id op' → p = p' ∧ op = op'.
Proof.
  intros Hs Hp Hop Hp' Hop' Hid.
  destruct (log_submitted _ _ _ _ Hs Hp) as (o & c & Ho & Hc & Ha).
  destruct (log_submitted _ _ _ _ Hs Hp') as (o' & c' & Ho' & Hc' & Ha').
  rewrite Hop in Ho. rewrite Hop' in Ho'. injection Ho as <-. injection Ho' as <-.
  rewrite Hid, Hc' in Hc. injection Hc as <-. rewrite Ha' in Ha. injection Ha as -> ?.
  split; [lia|done].
Qed.

Lemma done_grows L L' j e s : L `prefix_of` L' → L !! j = Some e →
  state_after s0 L (Z.of_nat j) = Some s →
  L' !! j = Some e ∧ state_after s0 L' (Z.of_nat j) = Some s.
Proof.
  intros Hp Hj Hs. split; [by eapply prefix_lookup_Some|].
  rewrite (state_after_prefix s0 L L'); [done|done|]. apply lookup_lt_Some in Hj. lia.
Qed.

(** New entries come after the calls that have returned. *)
Lemma order_grows w w' L L' a b :
  lin_inv w L → L `prefix_of` L' → sys_inv N s0 (submitted w') (replicas w') L' →
  precedes (calls w) a b → ∀ p p' e e' op op',
    L' !! p = Some e → Command e = Some op → op_Id op = a →
    L' !! p' = Some e' → Command e' = Some op' → op_Id op' = b → (p < p')%nat.
Proof.
  intros Hinv Hpre Hs Hab p p' e e' op op' Hp Hop Ha Hp' Hop' Hb.
  assert (∃ res, HRet a res ∈ calls w) as [res Hret].
  { destruct Hab as (newer & older & req & res & -> & Hin). exists res.
    apply elem_of_app. right. by apply list_elem_of_further. }
  destruct (li_done _ _ Hinv _ _ Hret) as (opa & j & ea & s & s' & Hka & Hja & Hca & _).
  destruct (li_op _ _ Hinv _ _ opa (Z.of_nat j + 1) Hka) as [Hida _]; [done|].
  pose proof (prefix_lookup_Some _ _ _ _ Hja Hpre) as Hja'.
  destruct (decided_once w' L' p j e ea op opa) as [-> _]; [done..|congruence|].
  destruct (decide (p' < length L)%nat) as [Hlt|].
  - apply lookup_lt_is_Some in Hlt as [e1 He1].
    pose proof (prefix_lookup_Some _ _ _ _ He1 Hpre) as He1'. rewrite Hp' in He1'.
    injection He1' as <-. by eapply (li_order _ _ Hinv a b Hab j p' ea e' opa op').
  - apply lookup_lt_Some in Hja. lia.
Qed.

Lemma lin_inv_replicas w L L' σ' :
  lin_inv w L → L `prefix_of` L' → sys_inv N s0 (submitted w) σ' L' →
  lin_inv (mkWorld σ' (submits w) (calls w)) L'.
Proof.
  intros Hinv Hpre Hs. constructor; simpl; [exact Hs|by apply Hinv..| |].
  - intros id res Hret. destruct (li_done _ _ Hinv _ _ Hret) as (op & j & e & s & s' & ? & Hj & ? & Hst & ?).
    destruct (done_grows _ _ _ _ _ Hpre Hj Hst). eauto 15.
  - intros a b Hab. by eapply (order_grows w (mkWorld σ' (submits w) (calls w))).
Qed.

(** The events that a call adds, and what they say about the decided log. *)
Definition event_ok (id : Z) (c : Call) (ev : list (CallEvent (Req:=Req) (Res:=Res))) L : Prop :=
  ev = [] ∨ ∃ op j e s s' res, ev = [HRet id res] ∧
    c = KDone op (Z.of_nat j + 1) OK (Some res) ∧
    L !! j = Some e ∧ Command e = Some op ∧ state_after s0 L (Z.of_nat j) = Some s ∧
    DoOp (op_Command op) s = Some (s', res).

Lemma precedes_returned (h ev : list (CallEvent (Req:=Req) (Res:=Res))) id c L a b :
  event_ok id c ev L → precedes (ev ++ h) a b → precedes h a b.
Proof.
  intros [->|(op & j & e & s & s' & res & -> & _)]; [done|].
  intros ([|x newer] & older & req & r & Heq & Hin); [done|]. injection Heq as _ ->.
  by exists newer, older, req, r.
Qed.

Lemma lin_inv_call w L L' σ' id c c' ev :
  let w' := mkWorld σ' (<[id := c']> (submits w)) (ev ++ calls w) in
  lin_inv w L → L `prefix_of` L' → submits w !! id = Some c →
  sys_inv N s0 (submitted w') σ' L' →
  (∀ op index err res, c ≠ KDone op index err res) →
  (∀ i req term, c' ≠ KState i req term) →
  (∀ i op index startTerm, c' = KWait i op index startTerm → (i < N)%nat) →
  (∀ op index, accepted c' = Some (op, index) → op_Id op = id ∧ HInv id (op_Command op) ∈ calls w) →
  event_ok id c' ev L' → lin_inv w' L'.
Proof.
  intros w' Hinv Hpre Hc Hs Hnd Hns HN Hop Hev.
  assert (∀ x, x ∈ calls w → x ∈ ev ++ calls w) as Hmore
    by (intros x Hx; apply elem_of_app; by right).
  assert (∀ i req, HInv i req ∈ ev ++ calls w → HInv i req ∈ calls w) as Hold.
  { intros i req [Hin|?]%elem_of_app; [|done].
    destruct Hev as [->|(? & ? & ? & ? & ? & ? & -> & _)]; [by apply elem_of_nil in Hin|].
    by apply list_elem_of_singleton in Hin. }
  subst w'. constructor; simpl; [done|..].
  - intros id' i op index startTerm [[-> Heq]|[_ ?]]%lookup_insert_Some; [by eapply HN|by eapply Hinv].
  - intros id' i req term [[-> Heq]|[_ ?]]%lookup_insert_Some; [by apply Hns in Heq|].
    by eapply Hmore, Hinv.
  - intros id' c0 op index [[-> Heq]|[_ ?]]%lookup_insert_Some Ha.
    + subst c0. destruct (Hop _ _ Ha). by auto.
    + destruct (li_op _ _ Hinv id' c0 op index); by auto.
  - intros id' req [x Hx]%Hold%(li_known _ _ Hinv).
    destruct (decide (id = id')) as [->|]; [by rewrite lookup_insert_eq|].
    rewrite lookup_insert_ne by done. eauto.
  - intros id' res [Hin|Hin]%elem_of_app.
    + destruct Hev as [->|(op & j & e & s & s' & r & -> & -> & ? & ? & ? & ?)];
        [by apply elem_of_nil in Hin|]. apply list_elem_of_singleton in Hin. injection Hin as -> ->.
      rewrite lookup_insert_eq. eauto 15.
    + destruct (li_done _ _ Hinv _ _ Hin) as (op & j & e & s & s' & Hk & Hj & ? & Hst & ?).
      destruct (done_grows _ _ _ _ _ Hpre Hj Hst). exists op, j, e, s, s'.
      rewrite lookup_insert_ne; [by auto|]. intros ->. rewrite Hc in Hk. injection Hk as ->.
      by eapply Hnd.
  - intros a b Hab. eapply precedes_returned in Hab; [|exact Hev].
    by eapply (order_grows w (mkWorld σ' (<[id := c']> (submits w)) (ev ++ calls w))).
Qed.

(** A call that moves on keeps what is known to be submitted. *)
Lemma submitted_call w σ' id c c' ev j e :
  submits w !! id = Some c → (∀ x, accepted c = Some x → accepted c' = Some x) →
  submitted w j e → submitted (mkWorld σ' (<[id := c']> (submits w)) ev) j e.
Proof.
  intros Hc Ha (op & c0 & Hop & Hc0 & Hx). exists op. simpl.
  destruct (decide (id = op_Id op)) as [->|].
  - exists c'. rewrite lookup_insert_eq. rewrite Hc in Hc0. injection Hc0 as <-. auto.
  - exists c0. by rewrite lookup_insert_ne.
Qed.

(** Start accepts an operation on a server of the cluster, at the next index. *)
Lemma start_in_range σ σ' i command res :
  sys_lstep N s0 pol σ (OStart i command res) σ' → (i < N)%nat.
Proof. intros Hs. inversion Hs as [|? ? ? c' Hl| | | | |]; subst. by inversion Hl. Qed.

(** Messages are received in order. *)
Context (reads_in_order : ∀ ex m, receive_ok pol ex m → in_order ex m).

(** The command that a reader handles is the next entry of the decided log. *)
Lemma read_entry w L σ' i m op :
  sys_inv N s0 (submitted w) (replicas w) L → (i < N)%nat →
  sys_lstep N s0 pol (replicas w) (ORead i m) σ' →
  CommandValid m = true → am_Command m = Some op →
  ∃ j e, CommandIndex m = Z.of_nat j + 1 ∧ L !! j = Some e ∧ Command e = Some op ∧
    state_after s0 L (Z.of_nat j) = Some (machine (replicas w) i).
Proof.
  intros Hinv HN Hs Hv Hc. inversion Hs as [| | | | |? ? b ins s' index Hr Ho Hd|]; subst.
  destruct (sys_inv_node _ _ _ _ _ _ i Hinv (reflexivity L) HN) as [H0 Hb Hi Hm _].
  apply reads_in_order in Ho. unfold in_order in Ho. rewrite Hv in Ho.
  destruct (receives_Forall _ _ _ _ _ _ Hr Hb Hi) as [[(_ & _ & e & He & Hce)|(Hno & _)] _]; [|congruence].
  exists (Z.to_nat (executed (replicas w) i)), e. rewrite Z2Nat.id by lia.
  split_and!; [done| |congruence|done]. rewrite <-He. f_equal. lia.
Qed.

(** A new call. *)
Lemma lin_inv_submit w L id i req term :
  lin_inv w L → submits w !! id = None →
  lin_inv (mkWorld (replicas w) (<[id := KState i req term]> (submits w)) (HInv id req :: calls w)) L.
Proof.
  intros Hinv Hid. set (w' := mkWorld _ _ _).
  assert (∀ id' c, submits w !! id' = Some c → submits w' !! id' = Some c) as Hmore.
  { intros id' c Hc. simpl. rewrite lookup_insert_ne; [done|]. intros ->. by rewrite Hid in Hc. }
  pose proof (li_sys _ _ Hinv) as Hsys. constructor; cbn [submits calls replicas w'].
  - eapply sys_inv_mono; [|exact Hsys]. intros j e (op & c & Hop & Hc & Ha).
    exists op, c. auto.
  - intros id' j op index startTerm [[_ [=]]|[_ ?]]%lookup_insert_Some. by eapply Hinv.
  - intros id' j req' term' [[-> Heq]|[_ ?]]%lookup_insert_Some.
    + injection Heq as <- <- <-. by apply list_elem_of_here.
    + by eapply list_elem_of_further, Hinv.
  - intros id' c op index [[-> <-]|[_ ?]]%lookup_insert_Some Ha; [done|].
    destruct (li_op _ _ Hinv id' c op index) as [? ?]; [done..|]. split; [done|].
    by apply list_elem_of_further.
  - intros id' req' [Heq|Hin]%elem_of_cons.
    + injection Heq as -> ->. simpl. rewrite lookup_insert_eq. by eexists.
    + apply (li_known _ _ Hinv) in Hin as [c Hc]. exists c. by apply Hmore.
  - intros id' res [[=]|Hin]%elem_of_cons.
    destruct (li_done _ _ Hinv _ _ Hin) as (op & j & e & s & s' & Hk & ?).
    exists op, j, e, s, s'. split; [by apply Hmore|done].
  - intros a b ([|x newer] & older & req' & res & Heq & Hin).
    + injection Heq as -> _ _. intros p p' e e' op op' _ _ _ Hp' Hop' Hb.
      destruct (log_submitted _ _ _ _ Hsys Hp') as (o & c & Ho & Hc & _).
      rewrite Hop' in Ho. injection Ho as <-. by rewrite Hb, Hid in Hc.
    + injection Heq as _ Heq. apply (li_order _ _ Hinv). by exists newer, older, req', res.
Qed.

(** The notification that a call accepts is for its own operation. *)
Lemma notify_event w L L' σ' id i m op op' index startTerm s' res err r :
  lin_inv w L → L `prefix_of` L' → submits w !! id = Some (KWait i op index startTerm) →
  sys_lstep N s0 pol (replicas w) (ORead i m) σ' →
  CommandValid m = true → CommandIndex m = index → am_Command m = Some op' →
  DoOp (op_Command op') (machine (replicas w) i) = Some (s', res) →
  submitReceive op startTerm (mkNotification (op_Id op') (op_Term op') res) = (err, r) →
  event_ok id (KDone op index err r) (returned id r) L'.
Proof.
  intros Hinv Hpre Hid Hs Hv Hi Hc Hd Hr. pose proof (li_sys _ _ Hinv) as Hsys.
  unfold submitReceive in Hr. simpl in Hr.
  destruct (_ || _) eqn:Hg; injection Hr as <- <-; [by left|right].
  apply orb_false_iff in Hg as [_ Hg]. bool_to_prop.
  destruct (read_entry w L σ' i m op') as (j & e & Hij & Hj & Hce & Hst); [done| |done..|].
  { by eapply (li_server _ _ Hinv). }
  destruct (log_submitted _ _ _ _ Hsys Hj) as (o & c & Ho & Hk & Ha).
  rewrite Hce in Ho. injection Ho as <-.
  destruct (li_op _ _ Hinv id _ op index Hid) as [Hop _]; [done|].
  rewrite Hg, Hop, Hid in Hk. injection Hk as <-. simpl in Ha. injection Ha as <- Hidx.
  destruct (done_grows _ _ _ _ _ Hpre Hj Hst).
  exists op, j, e, (machine (replicas w) i), s', res. rewrite Hidx. by split_and!.
Qed.

Lemma lin_step_ok w w' L : lin_inv w L → lin_step w w' → ∃ L', lin_inv w' L'.
Proof.
  intros Hinv Hstep. pose proof (li_sys _ _ Hinv) as Hsys.
  assert (∀ o σ' B', sys_lstep N s0 pol (replicas w) o σ' →
    (∀ j e, submitted w j e → B' j e) → (∀ j e, proposed o j e → B' j e) →
    ∃ L', L `prefix_of` L' ∧ sys_inv N s0 B' σ' L') as Hgo
    by (intros; by eapply sys_lstep_ok).
  destruct Hstep as [σ' Hs|id i req term Hid Hst|id i req term index startTerm σ' Hid Hs
    |id i req term index startTerm σ' Hid Hs|i m σ' Hs
    |id i m op op' index startTerm s' res err r σ' Hid Hs Hv Hi Hc Hd Hr
    |id i op index startTerm Hid].
  - destruct (Hgo _ _ _ Hs (λ _ _ H, H)) as (L' & Hp & Hs'); [done|].
    exists L'. by apply (lin_inv_replicas w L).
  - exists L. by apply lin_inv_submit.
  - destruct (Hgo _ _ (submitted (mkWorld σ' (<[id := KWait i (mkOp id term req) index startTerm]>
      (submits w)) (calls w))) Hs) as (L' & Hp & Hs').
    { intros j e. by apply (submitted_call w σ' id (KState i req term)). }
    { intros j e (_ & -> & ->). exists (mkOp id term req). eexists. split; [done|].
      simpl. by rewrite lookup_insert_eq. }
    exists L'. apply (lin_inv_call w L L' σ' id (KState i req term) _ []); try done.
    + intros ? ? ? ? [= <- _ _ _]. by eapply start_in_range.
    + intros op ? [= <- _]. split; [done|]. by eapply Hinv.
    + by left.
  - destruct (Hgo _ _ (submitted (mkWorld σ' (<[id := KRefused req]> (submits w)) (calls w))) Hs)
      as (L' & Hp & Hs').
    { intros j e. by apply (submitted_call w σ' id (KState i req term)). }
    { intros j e [? _]. done. }
    exists L'. apply (lin_inv_call w L L' σ' id (KState i req term) _ []); try done. by left.
  - destruct (Hgo _ _ _ Hs (λ _ _ H, H)) as (L' & Hp & Hs'); [done|].
    exists L'. by apply (lin_inv_replicas w L).
  - destruct (Hgo _ _ (submitted (mkWorld σ' (<[id := KDone op index err r]> (submits w))
      (returned id r ++ calls w))) Hs) as (L' & Hp & Hs').
    { intros j e. by apply (submitted_call w σ' id (KWait i op index startTerm)). }
    { intros j e []. }
    exists L'. apply (lin_inv_call w L L' σ' id (KWait i op index startTerm)); try done.
    + intros op1 index1 [= <- <-]. by eapply (li_op _ _ Hinv).
    + by eapply notify_event.
  - exists L. apply (lin_inv_call w L L (replicas w) id (KWait i op index startTerm) _ []); try done.
    + eapply sys_inv_mono; [|exact Hsys]. intros j e.
      by apply (submitted_call w _ id (KWait i op index startTerm)).
    + intros op1 index1 [= <- <-]. by eapply (li_op _ _ Hinv).
    + by left.
Qed.

Lemma lin_reachable_inv w : reachable lin_init lin_step w → ∃ L, lin_inv w L.
Proof.
  revert w. apply reachable_invariant.
  - intros w (Hs & Hm & Hh). exists []. constructor; rewrite ?Hm, ?Hh; try done.
    + by apply sys_init_ok.
    + intros id req ?%elem_of_nil. done.
    + intros id res ?%elem_of_nil. done.
  - intros w w' _ [L Hinv] Hs. by eapply lin_step_ok.
Qed.

Lemma world_linearizable w :
  reachable lin_init lin_step w → linearizable s0 (calls w).
Proof.
  intros [L Hinv]%lin_reachable_inv. pose proof (li_sys _ _ Hinv) as Hsys.
  assert (operations L) as HL.
  { intros j e (op & c & Hop & _)%(log_submitted _ _ _ _ Hsys). by exists op. }
  exists (results s0 L). constructor.
  - apply results_legal.
  - intros p p' id req req' res res' (e & op & Hp & Hop & Hid & _)%results_entry
      (e' & op' & Hp' & Hop' & Hid' & _)%results_entry; [|done..].
    eapply (decided_once w L p p' e e' op op'); congruence.
  - intros id req res (p & (e & op & Hp & Hop & <- & <-)%results_entry)%list_elem_of_lookup_1; [|done].
    destruct (log_submitted _ _ _ _ Hsys Hp) as (o & c & Ho & Hc & Ha).
    rewrite Hop in Ho. injection Ho as <-. by eapply (li_op _ _ Hinv).
  - intros id res Hret. destruct (li_done _ _ Hinv _ _ Hret) as (op & j & e & s & s' & Hk & Hj & Hop & Hs & Hd).
    destruct (li_op _ _ Hinv id _ op (Z.of_nat j + 1) Hk) as [<- _]; [done|].
    exists (op_Command op). apply (list_elem_of_lookup_2 _ j).
    eapply results_of_run; [done..| |done]. unfold state_after, exec in Hs. by rewrite Nat2Z.id in Hs.
  - intros a b p p' req req' res res' Hab (e & op & Hp & Hop & Hid & _)%results_entry
      (e' & op' & Hp' & Hop' & Hid' & _)%results_entry; [|done..].
    by eapply (li_order _ _ Hinv a b Hab).
Qed.

(** C2. The replicated service is linearizable: in every run with concurrent
    calls of Submit on any servers, lost and reordered packets, elections,
    snapshots, crashes and restarts in which every service receives its messages
    in order ([in_order]: each command is the next one, no snapshot is older than
    what has been executed - what the code does not see to once there are
    snapshots), there is an order of calls, each taking effect at most once, such
    that every call that returned OK is in it with the result of executing the
    service sequentially in that order, and a call that returned before another was
    made comes before it. *)
Theorem submit_linearizable w :
  reachable lin_init lin_step w → linearizable s0 (calls w).
Proof. apply world_linearizable. Qed.

End Clients.
