(* ===== verification/ReplicasRun.v ===== *)
(** * Runs of the replicated counter

    The scheduler of RaftSim.v extended to the services of Replicas.v, and runs of
    three replicas of the counter of kvraft1/rsm/server.go: one in which a follower
    falls behind and is brought up to date by a snapshot, and two in which messages
    reach a service out of order and the replicas diverge - a snapshot that is older
    than what the follower has applied, and a new one that overtakes commands. *)

From S2P Require Import Prelude Gob Persister KVRpc Raft RaftNode RaftSpec RaftReplication.
From S2P Require Import RaftProtocol RaftNet RaftLog RaftSim RaftSafety RSM Replicas Linearizable.
From S2P Require Import KVRaft.

(** A policy that an executable run can follow. *)
Class PolicyDec {Req} (pol : Policy (Req:=Req)) := {
  install_dec :: ∀ rf index, Decision (install_ok pol rf index);
  receive_dec :: ∀ ex m, Decision (receive_ok pol ex m);
  snapshot_dec :: ∀ rf, Decision (snapshot_ok pol rf)
}.

Section SysSim.
Context {S Req Res : Type} `{!StateMachine S Req Res}.
Context `{!Gob (RaftVal (Op Req))}.
Context (N : nat) (s0 : S) (pol : Policy (Req:=Req)) `{!PolicyDec pol}.

(** [YCluster] is a choice of the cluster, the others are of a service: [YRead]
    receives from the applier loop, [YInstalled] from the [k]-th goroutine of
    InstallSnapshot that waits. *)
Inductive SysChoice :=
| YCluster (ch : Choice (cmd:=Op Req))
| YRead (i : nat)
| YInstalled (i k : nat)
| YSnapshot (i : nat)
| YRestart (i : nat) (now : Z).

Abbreviation Sys := (System (S:=S) (Req:=Req)).

(** The service receives [m], which leaves [b] and [ins] to be sent. *)
Definition read_message (i : nat) (m : ApplyMsg (Op Req)) (b ins : list (ApplyMsg (Op Req)))
    (σ : Sys) : option (Obs (Req:=Req) * Sys) :=
  if decide (receive_ok pol (executed σ i) m) then
    '(s', index) ← deliver m (machine σ i) (executed σ i);
    Some (ORead i m, mkSystem (cluster σ) (<[i := s']> (machine σ)) (<[i := index]> (executed σ))
            (<[i := b]> (batch σ)) (<[i := ins]> (installs σ)))
  else None.

Definition sys_perform (ch : SysChoice) (σ : Sys) : option (Obs (Req:=Req) * Sys) :=
  match ch with
  | YCluster ch =>
      '(ev, c') ← perform N ch (cluster σ);
      let σ' := mkSystem c' (machine σ) (executed σ) (batch σ) (installs σ) in
      match ev with
      | EQuiet => Some (OQuiet, σ')
      | EStart i command res => Some (OStart i command res, σ')
      | EApply i msgs =>
          match batch σ i with
          | [] => Some (OQuiet, mkSystem c' (machine σ) (executed σ) (<[i := msgs]> (batch σ)) (installs σ))
          | _ :: _ => None
          end
      | EInstall i m =>
          let σ' := mkSystem c' (machine σ) (executed σ) (batch σ)
                      (<[i := option_list m ++ installs σ i]> (installs σ)) in
          match m with
          | None => Some (OQuiet, σ')
          | Some msg =>
              if decide (install_ok pol (servers (cluster σ) i) (SnapshotIndex msg))
              then Some (OQuiet, σ') else None
          end
      | _ => None
      end
  | YRead i =>
      match batch σ i with
      | [] => None
      | m :: b => read_message i m b (installs σ i) σ
      end
  | YInstalled i k =>
      m ← installs σ i !! k;
      read_message i m (batch σ i) (take k (installs σ i) ++ drop (Datatypes.S k) (installs σ i)) σ
  | YSnapshot i =>
      if decide (snapshot_ok pol (servers (cluster σ) i)) then
        '(_, c') ← perform N (CSnapshot i (executed σ i) (SM_Snapshot (machine σ i))) (cluster σ);
        Some (OQuiet, mkSystem c' (machine σ) (executed σ) (batch σ) (installs σ))
      else None
  | YRestart i now =>
      '(_, c') ← perform N (CRestart i now) (cluster σ);
      s ← boot s0 (ReadSnapshot (persister (servers c' i)));
      Some (OQuiet, mkSystem c' (<[i := s]> (machine σ))
              (<[i := lastIncludedIndex (servers c' i)]> (executed σ))
              (<[i := []]> (batch σ)) (<[i := []]> (installs σ)))
  end.

Definition sys_perform_all (chs : list SysChoice) (σ : Sys) : option Sys :=
  foldl (λ oσ ch, σ ← oσ; snd <$> sys_perform ch σ) (Some σ) chs.

Lemma read_message_sound i m b ins σ o σ' :
  receives σ i m b ins → read_message i m b ins σ = Some (o, σ') → sys_lstep N s0 pol σ o σ'.
Proof.
  unfold read_message. intros Hr H. case_decide; [|done].
  apply bind_Some in H as ([s' index] & Hd & [= <- <-]). by eapply y_read.
Qed.

Lemma sys_perform_sound ch σ o σ' :
  sys_perform ch σ = Some (o, σ') → sys_lstep N s0 pol σ o σ'.
Proof.
  unfold sys_perform. destruct ch as [ch|i|i k|i|i now]; intros H.
  - apply bind_Some in H as ([ev c'] & Hp & H). apply perform_sound in Hp.
    destruct ev; try done.
    + injection H as <- <-. by apply y_raft.
    + injection H as <- <-. by apply y_start.
    + destruct (batch σ i) eqn:Hb; [|done]. injection H as <- <-. by eapply y_apply.
    + destruct m as [msg|]; [case_decide as Hok; [|done]|];
        injection H as <- <-.
      * apply (y_install _ _ _ _ i (Some msg)); [done|]. intros ? Hm. by injection Hm as <-.
      * by apply (y_install _ _ _ _ i None).
  - destruct (batch σ i) as [|m b] eqn:Hb; [done|].
    eapply read_message_sound; [by apply from_applier|exact H].
  - apply bind_Some in H as (m & Hm & H). eapply read_message_sound; [|exact H].
    apply from_install. by rewrite take_drop_middle.
  - case_decide as Hok; [|done].
    apply bind_Some in H as ([ev c'] & Hp & [= <- <-]). eapply y_snapshot; [exact Hok|].
    unfold perform in Hp. case_decide; [|done]. apply bind_Some in Hp as (rf' & Hs & [= _ <-]).
    by eapply s_snapshot.
  - apply bind_Some in H as ([ev c'] & Hp & H). apply bind_Some in H as (s & Hb & [= <- <-]).
    eapply y_restart; [|exact Hb]. unfold perform in Hp. case_decide; [|done].
    injection Hp as _ <-. by eapply s_restart.
Qed.

Lemma sys_perform_all_sound chs : ∀ σ σ',
  sys_perform_all chs σ = Some σ' → rtc (sys_step N s0 pol) σ σ'.
Proof.
  unfold sys_perform_all. induction chs as [|ch chs IH]; simpl; intros σ σ' H; [by simplify_eq|].
  destruct (sys_perform ch σ) as [[o σ1]|] eqn:Hp; simpl in H.
  - eapply rtc_l; [|by apply IH]. exists o. by apply (sys_perform_sound ch).
  - exfalso. clear -H. induction chs; simpl in *; [done|auto].
Qed.

(** Calls of Submit: [LSubmit] makes one, [LSys] and [LNotify] let the replicas
    go on, the latter with the call that receives the notification. *)
Inductive LinChoice :=
| LSubmit (id : Z) (i : nat) (req : Req)
| LSys (ch : SysChoice)
| LNotify (id : Z) (ch : SysChoice)
| LFail (id : Z).

Context `{!EqDecision Req}.
Abbreviation W := (World (S:=S) (Req:=Req) (Res:=Res)).

Definition lin_perform (ch : LinChoice) (w : W) : option W :=
  match ch with
  | LSubmit id i req =>
      match submits w !! id, GetState (servers (cluster (replicas w)) i) with
      | None, (term, true) =>
          Some (mkWorld (replicas w) (<[id := KState i req term]> (submits w))
                  (HInv id req :: calls w))
      | _, _ => None
      end
  | LSys ch =>
      '(o, σ') ← sys_perform ch (replicas w);
      match o with
      | OQuiet | ORead _ _ => Some (mkWorld σ' (submits w) (calls w))
      | OStart i None res => None
      | OStart i (Some op) (index, startTerm, isLeader) =>
          match submits w !! op_Id op with
          | Some (KState i' req term) =>
              if decide (i' = i ∧ op = mkOp (op_Id op) term req) then
                let c := if (isLeader : bool) then KWait i op index startTerm else KRefused req in
                Some (mkWorld σ' (<[op_Id op := c]> (submits w)) (calls w))
              else None
          | _ => None
          end
      end
  | LNotify id ch =>
      '(o, σ') ← sys_perform ch (replicas w);
      match o, submits w !! id with
      | ORead i m, Some (KWait i' op index startTerm) =>
          op' ← am_Command m;
          '(s', res) ← DoOp (op_Command op') (machine (replicas w) i);
          let '(err, r) := submitReceive op startTerm (mkNotification (op_Id op') (op_Term op') res) in
          if decide (i' = i ∧ CommandValid m = true ∧ CommandIndex m = index) then
            Some (mkWorld σ' (<[id := KDone op index err r]> (submits w)) (returned id r ++ calls w))
          else None
      | _, _ => None
      end
  | LFail id =>
      match submits w !! id with
      | Some (KWait i op index startTerm) =>
          Some (mkWorld (replicas w) (<[id := KDone op index ErrWrongLeader None]> (submits w))
                  (calls w))
      | _ => None
      end
  end.

Definition lin_perform_all (chs : list LinChoice) (w : W) : option W :=
  foldl (λ ow ch, w ← ow; lin_perform ch w) (Some w) chs.

Lemma lin_perform_sound ch w w' :
  lin_perform ch w = Some w' → lin_step N s0 pol w w'.
Proof.
  destruct ch as [id i req|ch|id ch|id]; simpl; intros H.
  - destruct (submits w !! id) eqn:Hid; [done|].
    destruct (bool_decide (role (servers (cluster (replicas w)) i) = Leader)) eqn:Hg; [|done].
    injection H as <-. apply w_submit; [done|]. unfold GetState. by rewrite Hg.
  - apply bind_Some in H as ([o σ'] & Hp & H). apply sys_perform_sound in Hp.
    destruct o as [|i [op|] [[index startTerm] isLeader]|i m]; [|..|done|].
    + injection H as <-. by apply w_quiet.
    + destruct (submits w !! op_Id op) as [[i' req term| | |]|] eqn:Hid; try done.
      case_decide as Hop; [|done]. destruct Hop as [-> Hop]. injection H as <-.
      rewrite Hop in Hp. rewrite Hop. destruct isLeader; by econstructor.
    + injection H as <-. by eapply w_read.
  - apply bind_Some in H as ([o σ'] & Hp & H). apply sys_perform_sound in Hp.
    destruct o as [|i c res|i m]; [done|done|].
    destruct (submits w !! id) as [[|i' op index startTerm| |]|] eqn:Hid; try done.
    apply bind_Some in H as (op' & Hop & H). apply bind_Some in H as ([s' res] & Hd & H).
    destruct (submitReceive _ _ _) as [err r] eqn:Hr. case_decide as Hc; [|done].
    destruct Hc as (-> & ? & ?). injection H as <-. by eapply w_notify.
  - destruct (submits w !! id) as [[|i' op index startTerm| |]|] eqn:Hid; try done.
    injection H as <-. by eapply w_fail.
Qed.

Lemma lin_perform_all_sound chs : ∀ w w',
  lin_perform_all chs w = Some w' → rtc (lin_step N s0 pol) w w'.
Proof.
  unfold lin_perform_all. induction chs as [|ch chs IH]; cbn [foldl]; intros w w' H; [by simplify_eq|].
  destruct (lin_perform ch w) as [w1|] eqn:Hp; cbn in H; rewrite ?Hp in H.
  - eapply rtc_l; [|by apply IH]. by apply (lin_perform_sound ch).
  - exfalso. clear -H. induction chs; simpl in *; [done|auto].
Qed.

End SysSim.

(** ** Three counters *)

#[local] Instance IncReq_eq_dec : EqDecision IncReq.
Proof. solve_decision. Defined.

#[local] Instance IncReq_countable : Countable IncReq :=
  inj_countable' (λ r, match r with Inc => 0%nat | Null => 1%nat | Dec => 2%nat end)
    (λ n, match n with 0%nat => Inc | 1%nat => Null | _ => Dec end)
    (λ r, match r with Inc | Null | Dec => eq_refl end).

#[local] Instance OpVal_gob : Gob (RaftVal (Op IncReq)) := CountableGob.
#[local] Instance Int_gob : Gob Z := CountableGob.

Definition inc (id : Z) : option (Op IncReq) := Some (mkOp id 1 Inc).

Definition counters0 : System (S:=rsmSrv) (Req:=IncReq) :=
  mkSystem (mkCluster (λ i, Make 3 (Z.of_nat i) MakePersister 0) (λ _, 0%nat) ∅ [])
    (λ _, mkRsmSrv 0) (λ _, 0) (λ _, []) (λ _, []).

Lemma counters0_init : sys_init 3 (mkRsmSrv 0) counters0.
Proof. split; [|done]. split_and!; [|done|done]. intros i. by exists 0. Qed.

Abbreviation Y := YCluster.

(** Server 0 is elected by server 1 and accepts two increments. *)
Definition run_elect : list (SysChoice (Req:=IncReq)) :=
  [Y (CTick 0 (ms 1000) 0); Y (CHandle 0 (ms 1001)); Y (CHandle 0 (ms 1002));
   Y (CStart 0 (inc 1)); Y (CStart 0 (inc 2))].

Definition observe (σ : System (S:=rsmSrv) (Req:=IncReq)) : list (Z * Z) :=
  (λ i, (executed σ i, counter (machine σ i))) <$> seq 0 3.

(** The state a run ends in. *)
Definition outcome (pol : Policy (Req:=IncReq)) `{!PolicyDec pol} (chs : list SysChoice)
    (σ : System (S:=rsmSrv) (Req:=IncReq)) : System (S:=rsmSrv) (Req:=IncReq) :=
  default σ (sys_perform_all 3 (mkRsmSrv 0) pol chs σ).

Lemma outcome_run (pol : Policy (Req:=IncReq)) `{!PolicyDec pol} chs σ :
  rtc (sys_step 3 (mkRsmSrv 0) pol) σ (outcome pol chs σ).
Proof.
  unfold outcome. destruct (sys_perform_all _ _ _ _ _) eqn:Hrun; [|apply rtc_refl].
  by eapply sys_perform_all_sound.
Qed.

(** *** Catching up by a snapshot *)

(** The runs in which services receive their messages in order. *)
Definition inOrder : Policy (Req:=IncReq) := mkPolicy (λ _ _, True) in_order (λ _, True).

#[local] Instance inOrder_dec : PolicyDec inOrder.
Proof. split; simpl; apply _. Defined.

(** Server 1 answers, and server 0 commits and executes both increments. *)
Definition run_execute : list (SysChoice (Req:=IncReq)) :=
  [Y (CHandle 0 0); Y (CHandle 0 0); Y (CHandle 0 (ms 1003)); Y (CHandle 0 (ms 1004));
   Y (CApply 0); YRead 0; YRead 0].

(** Server 0 takes a snapshot; server 2, which has no entry, is sent it,
    restores it, crashes and restarts from it. *)
Definition run_install : list (SysChoice (Req:=IncReq)) :=
  [YSnapshot 0; Y (CHandle 0 0); Y (CHandle 0 (ms 1005)); YInstalled 2 0; YRestart 2 (ms 1006)].

Definition counters1 := outcome inOrder (run_elect ++ run_execute) counters0.
Definition counters2 := outcome inOrder run_install counters1.

Example counters1_observe : observe counters1 = [(2, 2); (0, 0); (0, 0)].
Proof. vm_compute. reflexivity. Qed.

Example counters2_observe : observe counters2 = [(2, 2); (0, 0); (2, 2)].
Proof. vm_compute. reflexivity. Qed.

Lemma counters1_reachable :
  reachable (sys_init 3 (mkRsmSrv 0)) (sys_step 3 (mkRsmSrv 0) inOrder) counters1.
Proof. eapply reachable_rtc; [apply reach_init, counters0_init|apply outcome_run]. Qed.

Lemma counters2_run : rtc (sys_step 3 (mkRsmSrv 0) inOrder) counters1 counters2.
Proof. apply outcome_run. Qed.

Lemma replicas_agree_witness :
  executed counters1 0%nat = executed counters2 2%nat ∧
  machine counters1 0%nat = machine counters2 2%nat.
Proof.
  assert (executed counters1 0%nat = executed counters2 2%nat) as He by (vm_compute; reflexivity).
  split; [exact He|]. revert He.
  refine (proj2 (replicas_agree 3 (mkRsmSrv 0) inOrder (λ _ _ Hn, Hn) counters1 counters2 0 2
    counters1_reachable counters2_run _ _)); lia.
Defined.

(** *** Snapshots of the past *)

(** The code as it is: any snapshot newer than the one the peer has, and whatever
    a sender on applyCh offers. *)
Definition anySnapshot : Policy (Req:=IncReq) := mkPolicy (λ _ _, True) (λ _ _, True) (λ _, True).

#[local] Instance any_dec : PolicyDec anySnapshot.
Proof. split; simpl; apply _. Defined.

(** Server 1 gets both but its reply is lost; server 2 answers, which commits
    them; server 1 hears of that, again without being heard, and applies both. *)
Definition run_commit : list (SysChoice (Req:=IncReq)) :=
  [Y (CHandle 0 0); Y (CHandle 0 0); Y (CHandle 0 (ms 1003)); Y (CDrop 0);
   Y (CHandle 0 0); Y (CHandle 0 (ms 1003)); Y (CHandle 0 (ms 1004));
   Y (CHandle 0 0); Y (CHandle 0 0); Y (CHandle 0 (ms 1005)); Y (CDrop 0);
   Y (CHandle 0 0); Y (CDrop 0);
   Y (CApply 1); YRead 1; YRead 1].

(** Server 0 applies the first increment, takes a snapshot of it and, not
    knowing what server 1 has, sends it the snapshot. *)
Definition run_snapshot : list (SysChoice (Req:=IncReq)) :=
  [Y (CApply 0); YRead 0; YSnapshot 0;
   Y (CHandle 0 0); Y (CHandle 0 0); Y (CHandle 0 (ms 1006)); YInstalled 1 0].

(** Server 0 accepts a third increment and commits it with server 1; both
    execute it. *)
Definition run_third : list (SysChoice (Req:=IncReq)) :=
  [Y (CHandle 0 (ms 1007)); Y (CStart 0 (inc 3)); Y (CHandle 0 0); Y (CHandle 0 0);
   Y (CHandle 0 (ms 1008)); Y (CHandle 0 (ms 1009)); Y (CHandle 2 0); Y (CHandle 0 0);
   Y (CHandle 0 (ms 1010)); Y (CApply 1); YRead 1; YRead 0; Y (CApply 0); YRead 0].

Definition counters3 :=
  outcome anySnapshot (run_elect ++ run_commit ++ run_snapshot ++ run_third) counters0.

Example counters3_observe : observe counters3 = [(3, 3); (3, 2); (0, 0)].
Proof. vm_compute. reflexivity. Qed.

(** C14. With snapshots installed the way InstallSnapshot does, whenever they are
    newer than the snapshot of the peer and even if the service has executed
    commands that they do not contain, replicas of the counter diverge: in a
    reachable state two servers have executed the same commands of the log and
    hold different counters. *)
Theorem replicas_diverge :
  ∃ σ, reachable (sys_init 3 (mkRsmSrv 0)) (sys_step 3 (mkRsmSrv 0) anySnapshot) σ ∧
    executed σ 0%nat = executed σ 1%nat ∧ machine σ 0%nat ≠ machine σ 1%nat.
Proof.
  exists counters3. split; [|vm_compute; split; [reflexivity|discriminate]].
  eapply reachable_rtc; [apply reach_init, counters0_init|apply outcome_run].
Qed.

(** *** Snapshots that overtake commands *)

(** InstallSnapshot with a guard that the code lacks: it installs only snapshots
    newer than the last command that the peer has handed to the applier loop. *)
Definition newer : Policy (Req:=IncReq) :=
  mkPolicy (λ rf index, lastApplied rf < index) (λ _ _, True) (λ _, True).

#[local] Instance newer_dec : PolicyDec newer.
Proof. split; simpl; apply _. Defined.

(** Both other servers get both increments and hear that they are committed; the
    service of server 2 executes them, the applier loop of server 1 has yet to
    send them. *)
Definition run_batches : list (SysChoice (Req:=IncReq)) :=
  [Y (CHandle 0 0); Y (CHandle 0 0); Y (CHandle 0 (ms 1003)); Y (CHandle 0 (ms 1004));
   Y (CHandle 0 0); Y (CHandle 0 (ms 1005)); Y (CHandle 0 (ms 1006));
   Y (CHandle 0 0); Y (CHandle 0 0); Y (CHandle 0 (ms 1007)); Y (CHandle 0 (ms 1008));
   Y (CHandle 0 0); Y (CHandle 0 (ms 1007)); Y (CHandle 0 (ms 1008));
   Y (CApply 1); Y (CApply 2); YRead 2; YRead 2].

(** A third increment is committed without server 1.  Server 0 executes all three
    and takes a snapshot, which it sends to server 1; there the goroutine of
    InstallSnapshot sends it before the applier loop sends the two commands. *)
Definition run_overtake : list (SysChoice (Req:=IncReq)) :=
  [Y (CStart 0 (inc 3)); Y (CHandle 0 0); Y (CHandle 0 0); Y (CDrop 0);
   Y (CHandle 0 0); Y (CHandle 0 (ms 1009)); Y (CHandle 0 (ms 1010));
   Y (CApply 0); YRead 0; YRead 0; YRead 0; YSnapshot 0;
   Y (CHandle 0 (ms 1011)); Y (CHandle 0 (ms 1011)); Y (CHandle 0 (ms 1011)); Y (CHandle 0 (ms 1011));
   YInstalled 1 0; YRead 1; YRead 1].

Definition counters4 := outcome newer (run_elect ++ run_batches ++ run_overtake) counters0.

Example counters4_observe : observe counters4 = [(3, 3); (2, 5); (2, 2)].
Proof. vm_compute. reflexivity. Qed.

(** Such a guard is not enough: a new snapshot can overtake the commands that the
    applier loop still has to send, which the service then executes again. *)
Lemma race_diverges :
  ∃ σ, reachable (sys_init 3 (mkRsmSrv 0)) (sys_step 3 (mkRsmSrv 0) newer) σ ∧
    executed σ 1%nat = executed σ 2%nat ∧ machine σ 1%nat ≠ machine σ 2%nat.
Proof.
  exists counters4. split; [|vm_compute; split; [reflexivity|discriminate]].
  eapply reachable_rtc; [apply reach_init, counters0_init|apply outcome_run].
Qed.

(** *** Two calls and their results *)

Definition clients0 : World (S:=rsmSrv) (Req:=IncReq) (Res:=IncRes) := mkWorld counters0 ∅ [].

(** Server 0 is elected; two calls of Submit on it overlap; the first returns
    before a third is made. *)
Definition run_calls : list (LinChoice (Req:=IncReq)) :=
  [LSys (Y (CTick 0 (ms 1000) 0)); LSys (Y (CHandle 0 (ms 1001))); LSys (Y (CHandle 0 (ms 1002)));
   LSubmit 1 0 Inc; LSys (Y (CStart 0 (inc 1))); LSubmit 2 0 Inc; LSys (Y (CStart 0 (inc 2)));
   LSys (Y (CHandle 0 0)); LSys (Y (CHandle 0 0)); LSys (Y (CHandle 0 (ms 1003)));
   LSys (Y (CHandle 0 (ms 1004))); LSys (Y (CApply 0)); LNotify 1 (YRead 0); LSubmit 3 0 Inc;
   LNotify 2 (YRead 0)].

Definition clients1 : World (S:=rsmSrv) (Req:=IncReq) (Res:=IncRes) :=
  default clients0 (lin_perform_all 3 (mkRsmSrv 0) inOrder run_calls clients0).

Example clients1_calls :
  calls clients1 = [HRet 2 (IncRep 2); HInv 3 Inc; HRet 1 (IncRep 1); HInv 2 Inc; HInv 1 Inc].
Proof. vm_compute. reflexivity. Qed.

Lemma clients1_reachable :
  reachable (lin_init 3 (mkRsmSrv 0)) (lin_step 3 (mkRsmSrv 0) inOrder) clients1.
Proof.
  apply (reachable_rtc _ _ clients0); [apply reach_init; split; [apply counters0_init|done]|].
  unfold clients1. destruct (lin_perform_all _ _ _ _ _) eqn:Hrun; [|apply rtc_refl].
  by eapply lin_perform_all_sound.
Qed.

Lemma submit_linearizable_witness :
  linearizable (S:=rsmSrv) (mkRsmSrv 0)
    [HRet 2 (IncRep 2); HInv 3 Inc; HRet 1 (IncRep 1); HInv 2 Inc; HInv 1 Inc].
Proof.
  refine (eq_ind _ (linearizable (S:=rsmSrv) (mkRsmSrv 0)) _ _ clients1_calls).
  exact (submit_linearizable 3 (mkRsmSrv 0) inOrder (λ _ _ Hn, Hn) clients1 clients1_reachable).
Defined.
