(* ===== verification/KVReplicas.v ===== *)
(** * The replicated key/value store is linearizable

    The composition of Linearizable.v with the service of
    src/6.5840/src/kvraft1/server.go: the histories of the replicated store are
    explained by sequential histories that the model of
    src/6.5840/src/models1/kv.go accepts key by key - what the tests ask the
    porcupine checker. *)

From S2P Require Import Prelude Gob Persister KVRpc KVSrv KvModel Raft RaftNode RaftSpec.
From S2P Require Import RaftReplication RaftProtocol RaftNet RaftLog RaftSim RaftSafety RSM.
From S2P Require Import Replicas KVRaft Linearizable ReplicasRun.

(** The operation that the tests log for a request and its result. *)
Definition kv_operation (req : KVReq) (res : KVRes) : option Operation :=
  match req, res with
  | KGet args, KGetReply r => Some (get_op args r)
  | KPut args, KPutReply r => Some (put_op args (pr_Err r))
  | _, _ => None
  end.

Definition kv_operations (lin : list (Z * KVReq * KVRes)) : list Operation :=
  omap (λ x, kv_operation x.1.2 x.2) lin.

(** The handlers submit nothing else. *)
Definition kv_request (req : KVReq) : option Request :=
  match req with KGet args => Some (ReqGet args) | KPut args => Some (ReqPut args) | KOther => None end.

(** The state the servers start in. *)
Definition empty_store : KVServer := mkKVServer ∅.

Lemma empty_store_abs k : abs k empty_store = KvModel_Init.
Proof. done. Qed.

Section Store.
Context `{!Gob (gmap string valueVersion)} `{!GobRegistered (gmap string valueVersion)}.
Context `{!Gob (RaftVal (Op KVReq))} `{!GobRegistered (RaftVal (Op KVReq))}.

(** A step of the service is a step of the server of kvsrv1. *)
Lemma DoOp_handle req r kv kv' res :
  kv_request req = Some r → DoOp req kv = Some (kv', res) →
  ∃ o, kv_operation req res = Some o ∧ KvModel.handle r kv = (kv', o).
Proof.
  destruct (DoOp_is_kvsrv kv) as [HG HP]. unfold DoOp, KV_StateMachine.
  destruct req as [args|args|]; intros [= <-] H; [rewrite HG in H|rewrite HP in H];
    injection H as <- <-; eexists; (split; [done|]); simpl; [done|].
  by destruct (KVServer_Put args kv).
Qed.

Lemma legal_handles lin : ∀ kv,
  legal kv lin → Forall (λ x, is_Some (kv_request x.1.2)) lin →
  ∃ reqs kv', handle_all reqs kv = (kv', kv_operations lin).
Proof.
  induction lin as [|[[id req] res] lin IH]; intros kv Hl Hr; [by exists [], kv|].
  destruct Hl as (kv1 & Hd & Hl). apply Forall_cons_1 in Hr as [[r Hreq] Hr]. simpl in Hreq.
  destruct (DoOp_handle _ _ _ _ _ Hreq Hd) as (o & Ho & Hh).
  destruct (IH kv1 Hl Hr) as (reqs & kv2 & Hall). exists (r :: reqs), kv2. simpl.
  rewrite Hh, Hall. unfold kv_operations. simpl. by rewrite Ho.
Qed.

Context (N : nat) (pol : Policy (Req:=KVReq)).
(** Messages are received in order. *)
Context (reads_in_order : ∀ ex m, receive_ok pol ex m → in_order ex m).

(** The histories of the replicated key/value store are linearizable with
    respect to the model of the tests: there is an order of the calls that
    explains the history, and the operations of that order on each key are
    accepted by the model, from its initial state - for every history in which
    no Put of a missing key asks for a non-zero version. *)
Theorem kv_accepted_by_model w :
  reachable (lin_init N empty_store) (lin_step N empty_store pol) w →
  (∀ id req, HInv id req ∈ calls w → req ≠ KOther) →
  ∃ lin, linearizes empty_store (calls w) lin ∧
    (Forall no_ErrNoKey (kv_operations lin) →
     ∀ k, is_Some (accepts KvModel_Init (filter (on_key k) (kv_operations lin)))).
Proof.
  intros Hw Hreq. destruct (world_linearizable N empty_store pol reads_in_order w Hw) as [lin Hlin].
  exists lin. split; [done|]. intros Hn k.
  destruct (legal_handles lin empty_store) as (reqs & kv' & Hall).
  - apply Hlin.
  - apply list.Forall_forall. intros [[id req] res] Hin. simpl.
    apply (lin_made _ _ _ Hlin), Hreq in Hin. by destruct req.
  - eapply handle_all_accepted in Hall; [|done]. rewrite empty_store_abs in Hall. eauto.
Qed.

End Store.

(** ** A run with three servers *)

#[local] Instance KVReq_eq_dec : EqDecision KVReq.
Proof. solve_decision. Defined.

#[local] Instance KVReq_countable : Countable KVReq :=
  inj_countable'
    (λ r, match r with
          | KGet a => inl (get_Key a)
          | KPut a => inr (Some (put_Key a, put_Value a, put_Version a))
          | KOther => inr None
          end)
    (λ s, match s with
          | inl k => KGet (mkGetArgs k)
          | inr (Some (k, v, n)) => KPut (mkPutArgs k v n)
          | inr None => KOther
          end)
    (λ r, match r with KGet (mkGetArgs _) | KPut (mkPutArgs _ _ _) | KOther => eq_refl end).

#[local] Instance KVVal_gob : Gob (RaftVal (Op KVReq)) := CountableGob.
#[local] Instance KVStore_gob : Gob (gmap string valueVersion) := CountableGob.

Definition ordered_kv : Policy (Req:=KVReq) := mkPolicy (λ _ _, True) in_order (λ _, True).

#[local] Instance ordered_kv_dec : PolicyDec ordered_kv.
Proof. split; simpl; apply _. Defined.

Definition stores0 : World (S:=KVServer) (Req:=KVReq) (Res:=KVRes) :=
  mkWorld (mkSystem (mkCluster (λ i, Make 3 (Z.of_nat i) MakePersister 0) (λ _, 0%nat) ∅ [])
             (λ _, empty_store) (λ _, 0) (λ _, []) (λ _, [])) ∅ [].

Definition put_x (v : string) (n : Z) : KVReq := KPut (mkPutArgs "x" v n).
Definition get_x : KVReq := KGet (mkGetArgs "x").
Definition start_call (id : Z) (req : KVReq) : LinChoice (Req:=KVReq) :=
  LSys (YCluster (CStart 0 (Some (mkOp id 1 req)))).

(** Server 0 is elected; a Get overlaps two Puts of the same version. *)
Definition run_stores : list (LinChoice (Req:=KVReq)) :=
  [LSys (YCluster (CTick 0 (ms 1000) 0)); LSys (YCluster (CHandle 0 (ms 1001)));
   LSys (YCluster (CHandle 0 (ms 1002)));
   LSubmit 1 0 (put_x "a" 0); start_call 1 (put_x "a" 0);
   LSubmit 2 0 get_x; LSubmit 3 0 (put_x "b" 0); start_call 3 (put_x "b" 0); start_call 2 get_x;
   LSys (YCluster (CHandle 0 0)); LSys (YCluster (CHandle 0 0)); LSys (YCluster (CHandle 0 (ms 1003)));
   LSys (YCluster (CHandle 0 (ms 1004))); LSys (YCluster (CApply 0));
   LNotify 1 (YRead 0); LNotify 3 (YRead 0); LNotify 2 (YRead 0)].

Definition stores1 : World (S:=KVServer) (Req:=KVReq) (Res:=KVRes) :=
  default stores0
    (lin_perform_all 3 empty_store ordered_kv run_stores stores0).

Definition history1 : list (CallEvent (Req:=KVReq) (Res:=KVRes)) :=
  [HRet 2 (KGetReply (mkGetReply "a" 1 OK)); HRet 3 (KPutReply (mkPutReply ErrVersion));
   HRet 1 (KPutReply (mkPutReply OK));
   HInv 3 (put_x "b" 0); HInv 2 get_x; HInv 1 (put_x "a" 0)].

Example stores1_calls : calls stores1 = history1.
Proof. vm_compute. reflexivity. Qed.

Lemma stores1_reachable :
  reachable (lin_init 3 empty_store)
    (lin_step 3 empty_store ordered_kv) stores1.
Proof.
  apply (reachable_rtc _ _ stores0).
  - apply reach_init. split; [|done]. split; [|done]. split_and!; [|done|done]. intros i. by exists 0.
  - unfold stores1. destruct (lin_perform_all _ _ _ _ _) eqn:Hrun; [|apply rtc_refl].
    by eapply lin_perform_all_sound.
Qed.

Lemma history1_requests id req : HInv id req ∈ history1 → req ≠ KOther.
Proof.
  intros Hin ->. unfold history1 in Hin.
  repeat (apply elem_of_cons in Hin as [Heq|Hin]; [discriminate Heq|]). by apply elem_of_nil in Hin.
Qed.

Lemma kv_accepted_by_model_witness :
  ∃ lin, linearizes empty_store history1 lin ∧
    (Forall no_ErrNoKey (kv_operations lin) →
     is_Some (accepts KvModel_Init (filter (on_key "x") (kv_operations lin)))).
Proof.
  destruct (kv_accepted_by_model 3 ordered_kv (λ _ _ Hn, Hn) stores1
    stores1_reachable) as (lin & Hlin & Hacc).
  - rewrite stores1_calls. exact history1_requests.
  - exists lin. rewrite <-stores1_calls. exact (conj Hlin (λ Hn, Hacc Hn "x")).
Defined.
