(* ===== verification/NoSnapshots.v ===== *)
(** * Replicated services that take no snapshots

    What MakeRSM of src/6.5840/src/kvraft1/rsm/rsm.go makes when maxraftstate is
    -1: no service ever calls Snapshot.  Then no peer has anything to install, so
    the applier loop is the only sender on applyCh, and the services receive the
    commands in order: the hypothesis under which Replicas.v and Linearizable.v
    prove agreement and linearizability holds by itself. *)

From S2P Require Import Prelude Gob Persister KVRpc Raft RaftNode RaftSpec RaftReplication.
From S2P Require Import RaftProtocol RaftNet RaftLog RaftSim RaftSafety RSM KVRaft KVSrv KvModel.
From S2P Require Import Replicas Linearizable ReplicasRun KVReplicas.

(** The policy of the code: a service takes a snapshot when [applyReader] does. *)
Definition rsm_policy {S Req Res} `{!StateMachine S Req Res} `{!Gob (RaftVal (Op Req))}
    (maxraftstate : Z) : Policy (Req:=Req) :=
  mkPolicy (λ _ _, True) (λ _ _, True)
    (λ rf, ∃ (index : Z) (s : S), takeSnapshot maxraftstate (PersistBytes rf) index s ≠ []).

Section NoSnapshots.
Context {S Req Res : Type} `{!StateMachine S Req Res}.
Context `{!Gob (RaftVal (Op Req))} `{!GobRegistered (RaftVal (Op Req))}.
Context (N : nat) (s0 : S).
Abbreviation Sys := (System (S:=S) (Req:=Req)).
Abbreviation Wld := (World (S:=S) (Req:=Req) (Res:=Res)).
Abbreviation never := (rsm_policy (S:=S) (Req:=Req) (Res:=Res) (-1)).
Implicit Types σ : Sys.
Implicit Types w : Wld.

(** The runs of Linearizable.v. *)
Definition ordered : Policy (Req:=Req) := mkPolicy (λ _ _, True) in_order (λ _, False).

Lemma never_takes (rf : Raft (Op Req)) : ¬ snapshot_ok never rf.
Proof. simpl. intros (index & s & H). done. Qed.

(** The commands after the index [a], up to the index [b]. *)
Fixpoint consecutive (a : Z) (ms : list (ApplyMsg (Op Req))) (b : Z) : Prop :=
  match ms with
  | [] => a = b
  | m :: ms => CommandValid m = true ∧ CommandIndex m = a + 1 ∧ consecutive (a + 1) ms b
  end.

Lemma consecutive_entries (rf : Raft (Op Req)) n : ∀ a,
  consecutive a (entryMsg rf <$> seqZ (a + 1) (Z.of_nat n)) (a + Z.of_nat n).
Proof.
  induction n as [|n IH]; intros a; [simpl; lia|].
  rewrite seqZ_cons by lia. cbn [fmap list_fmap consecutive]. split_and!; [done|done|].
  replace (Z.succ (a + 1)) with (a + 1 + 1) by lia.
  replace (Z.pred (Z.of_nat (Datatypes.S n))) with (Z.of_nat n) by lia.
  replace (a + Z.of_nat (Datatypes.S n)) with (a + 1 + Z.of_nat n) by lia. apply IH.
Qed.

(** Nobody has a snapshot, and those in flight are empty; the commands that wait
    to be sent follow what the service has executed. *)
Record plain (σ : Sys) : Prop := {
  pl_disk i : lastIncludedIndex (servers (cluster σ) i) = 0;
  pl_installs i : installs σ i = [];
  pl_batch i : consecutive (executed σ i) (batch σ i) (lastApplied (servers (cluster σ) i));
  pl_packet : snaps_of (inflight (cluster σ)) (λ args, is_LastIncludedIndex args <= 0)
}.

Lemma plain_init σ : sys_init N s0 σ → plain σ.
Proof.
  intros [(Hm & _ & Hnet) Hs]. split.
  - intros i. by destruct (Hm i) as [now ->].
  - intros i. by destruct (Hs i) as (_ & _ & _ & ->).
  - intros i. destruct (Hm i) as [now ->]. by destruct (Hs i) as (_ & -> & -> & _).
  - intros ????. rewrite Hnet. by intros ?%elem_of_nil.
Qed.

Lemma plain_send σ src inc peer term action :
  plain σ → sendAppendEntriesToPeer peer term (servers (cluster σ) src) = Some action →
  snaps_of (send_packet src inc peer action) (λ args, is_LastIncludedIndex args <= 0).
Proof.
  intros [Hd _ _ _] H src' inc' dst args Hin. unfold sendAppendEntriesToPeer in H.
  destruct (_ || _) in H; [simplify_eq; by apply elem_of_nil in Hin|].
  apply bind_Some in H as (ni & _ & H). destruct (ni <=? _).
  - injection H as <-. apply list_elem_of_singleton in Hin. injection Hin as _ _ _ ->. simpl.
    rewrite Hd. done.
  - apply bind_Some in H as (pe & _ & H). apply bind_Some in H as (es & _ & H).
    injection H as <-. by apply list_elem_of_singleton in Hin.
Qed.

(** The peer of one server moves, and its service with it. *)
Lemma plain_update σ i σ' :
  plain σ →
  (∀ j, j ≠ i → service_view (servers (cluster σ') j) = service_view (servers (cluster σ) j) ∧
     executed σ' j = executed σ j ∧ batch σ' j = batch σ j ∧ installs σ' j = installs σ j) →
  lastIncludedIndex (servers (cluster σ') i) = 0 → installs σ' i = [] →
  consecutive (executed σ' i) (batch σ' i) (lastApplied (servers (cluster σ') i)) →
  snaps_of (inflight (cluster σ')) (λ args, is_LastIncludedIndex args <= 0) → plain σ'.
Proof.
  intros [Hd Hi Hb Hp] Hne Hd' Hi' Hb' Hp'. split; [| | |done];
    intros j; (destruct (decide (j = i)) as [->|Hj]; [done|]);
    destruct (Hne j Hj) as (Hv & He & Hba & Hin); injection Hv as Hv1 Hv2 _.
  - by rewrite Hv2.
  - by rewrite Hin.
  - by rewrite He, Hba, Hv1.
Qed.

Lemma plain_view σ c' :
  plain σ → (∀ j, service_view (servers c' j) = service_view (servers (cluster σ) j)) →
  snaps_of (inflight c') (λ args, is_LastIncludedIndex args <= 0) →
  plain (mkSystem c' (machine σ) (executed σ) (batch σ) (installs σ)).
Proof.
  intros Hp Hv Hn. apply (plain_update σ 0); [done|by auto|..|done];
    cbn [cluster executed batch installs]; try apply Hp;
    specialize (Hv 0%nat); injection Hv as Hv1 Hv2 _; rewrite ?Hv1, ?Hv2; apply Hp.
Qed.

Lemma plain_silent σ ev c' :
  plain σ → lstep N (λ _ _, True) (cluster σ) ev c' → silent ev →
  plain (mkSystem c' (machine σ) (executed σ) (batch σ) (installs σ)).
Proof.
  intros Hp Hs Hev. apply plain_view; [done|by eapply silent_view|].
  eapply silent_snaps; [done..|apply Hp|]. intros. by eapply plain_send.
Qed.

(** Nothing is installed. *)
Lemma plain_install σ i m c' :
  plain σ → lstep N (λ _ _, True) (cluster σ) (EInstall i m) c' →
  m = None ∧ plain (mkSystem c' (machine σ) (executed σ) (batch σ) (installs σ)).
Proof.
  intros Hp Hs.
  inversion Hs as [| | | | | | | | |src inc i' args now rf' reply m' rest Hin Ha| | | | | |]; subst.
  assert (is_LastIncludedIndex args <= 0) as Hargs.
  { apply (pl_packet σ Hp src inc i). rewrite Hin. by apply list_elem_of_here. }
  destruct (InstallSnapshot_view _ _ _ _ _ _ Ha) as [[-> Hv]|(_ & Hlt & _)].
  - split; [done|]. apply plain_view; [done|by apply view_set_server|].
    eapply (snaps_of_app _ [_]); [by repeat constructor|by eapply rest_subset|apply Hp].
  - rewrite (pl_disk σ Hp) in Hlt. lia.
Qed.

Lemma plain_apply B L σ i msgs c' :
  plain σ → sys_inv N s0 B σ L → lstep N (λ _ _, True) (cluster σ) (EApply i msgs) c' →
  batch σ i = [] →
  plain (mkSystem c' (machine σ) (executed σ) (<[i := msgs]> (batch σ)) (installs σ)).
Proof.
  intros Hp Hinv Hs Hb.
  inversion Hs as [| | | | | | | | | | | | |i' rf' msgs' Hi Ha| |]; subst.
  destruct (chosen_bounds _ _ _ _ i (si_chosen _ _ _ _ _ Hinv) Hi) as (Hb1 & Hb2 & Hb3).
  destruct (chosen_wf _ _ _ _ i (si_chosen _ _ _ _ _ Hinv)) as [Hw _].
  pose proof (pl_batch σ Hp i) as Hc. rewrite Hb in Hc. simpl in Hc.
  apply (plain_update σ i); cbn [cluster servers executed batch installs inflight]; [done| | |apply Hp| |apply Hp];
    rewrite ?set_server_eq, ?fn_lookup_insert.
  - intros j Hj. by rewrite fn_lookup_insert_ne, set_server_ne by done.
  - rewrite <-(pl_disk σ Hp i).
    destruct (applier_view _ _ _ Hw ltac:(lia) Ha) as [[_ Hv]|[Hv _]]; by injection Hv as _ -> _.
  - destruct (applier_view _ _ _ Hw ltac:(lia) Ha) as [[-> Hv]|[Hv ->]]; injection Hv as -> _ _; [done|].
    set (rf := servers (cluster σ) i) in *. rewrite Hc.
    pose proof (consecutive_entries rf (Z.to_nat (commitIndex rf - lastApplied rf)) (lastApplied rf)) as H.
    rewrite Z2Nat.id in H by lia. by replace (lastApplied rf + (commitIndex rf - lastApplied rf)) with (commitIndex rf) in H by lia.
Qed.

(** The message that is received is the next command. *)
Lemma plain_receives σ i m b ins :
  plain σ → receives σ i m b ins →
  in_order (executed σ i) m ∧ CommandValid m = true ∧ CommandIndex m = executed σ i + 1 ∧ ins = [] ∧
  consecutive (executed σ i + 1) b (lastApplied (servers (cluster σ) i)).
Proof.
  intros Hp [b' Hb|ins1 ins2 Hi].
  - pose proof (pl_batch σ Hp i) as Hc. rewrite Hb in Hc. destruct Hc as (Hv & Hx & Hc).
    unfold in_order. rewrite Hv. split_and!; [done..|apply Hp|done].
  - rewrite (pl_installs σ Hp i) in Hi. by destruct ins1.
Qed.

(** So every step is one in which messages are received in order. *)
Lemma plain_step B L σ o σ' :
  plain σ → sys_inv N s0 B σ L → sys_lstep N s0 never σ o σ' →
  plain σ' ∧ sys_lstep N s0 ordered σ o σ'.
Proof.
  intros Hp Hinv Hs.
  destruct Hs as [c' Hs|i command res c' Hs|i msgs c' Hs Hb|i m c' Hs Hok|i c' Hno Hs
    |i m b ins s' index Hr _ Hd|i c' s Hs Hb].
  - split; [by eapply plain_silent|by apply y_raft].
  - split; [by eapply plain_silent|by apply y_start].
  - split; [by eapply plain_apply|by apply y_apply].
  - destruct (plain_install σ i m c' Hp Hs) as [-> Hp']. split; [|by apply y_install].
    destruct Hp' as [Hd Hi Hb Hn]. split; [done| |done|done].
    intros j. cbn [installs]. destruct (decide (j = i)) as [->|];
      [rewrite fn_lookup_insert|rewrite fn_lookup_insert_ne by done]; apply Hi.
  - by destruct (never_takes _ Hno).
  - destruct (plain_receives σ i m b ins Hp Hr) as (Ho & Hv & Hx & -> & Hc).
    split; [|by eapply y_read].
    assert (index = executed σ i + 1) as ->.
    { unfold deliver in Hd. rewrite Hv in Hd. apply bind_Some in Hd as (? & _ & [= _ <-]). done. }
    apply (plain_update σ i); cbn [cluster executed batch installs];
      [done| |apply Hp|by rewrite fn_lookup_insert|by rewrite !fn_lookup_insert|apply Hp].
    intros j Hj. by rewrite !fn_lookup_insert_ne by done.
  - split; [|by eapply y_restart].
    inversion Hs as [| | | | | | | | | | | | | | |i' now Hi]; subst.
    destruct (chosen_wf _ _ _ _ i (si_chosen _ _ _ _ _ Hinv)) as [_ Hpers].
    pose proof (Make_view N (Z.of_nat i) now _ Hpers) as Hv. apply view_eq in Hv as (Ha & Hl & _).
    apply (plain_update σ i); cbn [cluster servers executed batch installs inflight];
      rewrite ?fn_lookup_insert, ?set_server_eq; [done| |by rewrite Hl; apply Hp|done|by rewrite Ha, Hl|apply Hp].
    intros j Hj. by rewrite !fn_lookup_insert_ne, set_server_ne by done.
Qed.

Lemma plain_run σ :
  reachable (sys_init N s0) (sys_step N s0 never) σ →
  plain σ ∧ reachable (sys_init N s0) (sys_step N s0 ordered) σ.
Proof.
  revert σ. apply reachable_invariant.
  - intros σ Hi. split; [by apply plain_init|by apply reach_init].
  - intros σ σ' _ [Hp Hr] [o Hs].
    destruct (sys_reachable_inv N s0 ordered (λ _ _ Hn, Hn) σ Hr) as [L Hinv].
    destruct (plain_step _ L σ o σ' Hp Hinv Hs) as [Hp' Hs']. split; [done|].
    eapply reach_step; [exact Hr|by exists o].
Qed.

(** The same for a world with clients. *)
Lemma lin_step_policy (pol : Policy (Req:=Req)) w w' :
  lin_step N s0 never w w' →
  (∀ o σ', sys_lstep N s0 never (replicas w) o σ' → sys_lstep N s0 pol (replicas w) o σ') →
  lin_step N s0 pol w w'.
Proof. intros Hs H. destruct Hs; by econstructor; eauto. Qed.

Lemma lin_step_replicas (pol : Policy (Req:=Req)) w w' :
  lin_step N s0 pol w w' →
  replicas w' = replicas w ∨ ∃ o, sys_lstep N s0 pol (replicas w) o (replicas w').
Proof. intros []; simpl; eauto. Qed.

Lemma plain_world w :
  reachable (lin_init N s0) (lin_step N s0 never) w →
  plain (replicas w) ∧ reachable (lin_init N s0) (lin_step N s0 ordered) w.
Proof.
  revert w. apply reachable_invariant.
  - intros w Hi. split; [|by apply reach_init]. apply plain_init. apply Hi.
  - intros w w' _ [Hp Hr] Hs.
    destruct (lin_reachable_inv N s0 ordered (λ _ _ Hn, Hn) w Hr) as [L Hinv].
    pose proof (λ o σ', plain_step (submitted w) L (replicas w) o σ' Hp (li_sys _ _ _ _ Hinv)) as Hsim.
    split.
    + destruct (lin_step_replicas _ _ _ Hs) as [->|[o Ho]]; [done|].
      by destruct (Hsim o (replicas w') Ho).
    + eapply reach_step; [exact Hr|]. apply lin_step_policy; [done|].
      intros o σ' Ho. by destruct (Hsim o σ' Ho).
Qed.

(** C3. Without snapshots nothing has to be assumed of InstallSnapshot: in every
    run of a service made with maxraftstate -1, with concurrent calls of Submit on
    any servers, lost and reordered packets, elections, crashes and restarts, the
    history of the calls is linearizable, and the state of the service on every
    server is the result of the first commands of one decided log. *)
Theorem linearizable_without_snapshots w :
  reachable (lin_init N s0) (lin_step N s0 never) w →
  linearizable s0 (calls w) ∧
  ∃ L, chosen N anything (cluster (replicas w)) L ∧
    ∀ i, (i < N)%nat → state_after s0 L (executed (replicas w) i) = Some (machine (replicas w) i).
Proof.
  intros [_ Hr]%plain_world. split; [by apply (world_linearizable N s0 ordered (λ _ _ Hn, Hn))|].
  destruct (lin_reachable_inv N s0 ordered (λ _ _ Hn, Hn) w Hr) as [L Hinv].
  exists L. pose proof (li_sys _ _ _ _ Hinv) as Hs. split.
  - eapply chosen_mono; [|apply Hs]. done.
  - apply Hs.
Qed.

End NoSnapshots.

(** ** Instances

    The run of KVReplicas.v needs no snapshots. *)

#[local] Existing Instances KVReq_eq_dec KVReq_countable KVVal_gob KVStore_gob.

Definition plain_kv : Policy (Req:=KVReq) := rsm_policy (S:=KVServer) (-1).

#[local] Instance plain_kv_dec : PolicyDec plain_kv.
Proof.
  split.
  - intros rf index. left. exact I.
  - intros ex m. left. exact I.
  - intros rf. right. by apply never_takes.
Defined.

Definition stores_plain : World (S:=KVServer) (Req:=KVReq) (Res:=KVRes) :=
  default stores0 (lin_perform_all 3 empty_store plain_kv run_stores stores0).

Example stores_plain_calls : calls stores_plain = history1.
Proof. vm_compute. reflexivity. Qed.

Lemma stores0_init : lin_init 3 empty_store stores0.
Proof. split; [|done]. split; [|done]. split_and!; [|done|done]. intros i. by exists 0. Qed.

Lemma stores_plain_reachable :
  reachable (lin_init 3 empty_store) (lin_step 3 empty_store plain_kv) stores_plain.
Proof.
  apply (reachable_rtc _ _ stores0); [apply reach_init, stores0_init|].
  unfold stores_plain. destruct (lin_perform_all _ _ _ _ _) eqn:Hrun; [|apply rtc_refl].
  by eapply lin_perform_all_sound.
Qed.

Lemma linearizable_without_snapshots_witness : linearizable empty_store history1.
Proof.
  refine (eq_ind _ (linearizable empty_store) _ _ stores_plain_calls).
  exact (proj1 (linearizable_without_snapshots 3 empty_store stores_plain stores_plain_reachable)).
Defined.
