(* ===== verification/KVClerk.v ===== *)
(** * The clerk of the replicated key/value service

    Composes the clerk of src/6.5840/src/kvraft1/client.go with the service of
    Linearizable.v: a Put of the clerk makes attempts at one server after the
    other, each of which may reach a handler there, which calls Submit; what the
    clerk returns is related to how often the store performed the Put in the order
    that explains the history of all calls. *)

From S2P Require Import Prelude Gob Persister KVRpc KVSrv KvModel Raft RaftNode RaftSpec.
From S2P Require Import RaftReplication RaftProtocol RaftNet RaftLog RaftSim RaftSafety RSM.
From S2P Require Import Replicas KVRaft Linearizable ReplicasRun KVReplicas NoSnapshots.

Section KVClerk.
Context `{!Gob (gmap string valueVersion)} `{!GobRegistered (gmap string valueVersion)}.
Context `{!Gob (RaftVal (Op KVReq))} `{!GobRegistered (RaftVal (Op KVReq))}.
Context (N : nat).
Abbreviation Wld := (World (S:=KVServer) (Req:=KVReq) (Res:=KVRes)).
Abbreviation Lin := (list (Z * KVReq * KVRes)).

(** ** A Put is performed once *)

Definition performs (a : PutArgs) (x : Z * KVReq * KVRes) : Prop :=
  x.1.2 = KPut a ∧ x.2 = KPutReply (mkPutReply OK).

#[local] Existing Instance KVReq_eq_dec.
#[local] Instance KVRes_eq_dec : EqDecision KVRes.
Proof. solve_decision. Defined.

#[local] Instance performs_dec a x : Decision (performs a x).
Proof. unfold performs. apply _. Defined.

(** One operation of a sequential execution, on the versions of the keys. *)
Lemma legal_version kv req kv' res k :
  DoOp req kv = Some (kv', res) → wf_server kv → version kv k + 1 < 2 ^ 64 →
  wf_server kv' ∧ version kv k <= version kv' k <= version kv k + 1.
Proof.
  intros H Hwf Hv. change (Some (KV_DoOp req kv) = Some (kv', res)) in H. apply (inj Some) in H.
  destruct (DoOp_is_kvsrv kv) as [HG HP]. destruct req as [args|args|].
  - rewrite HG in H. injection H as <- _. split; [done|lia].
  - rewrite HP in H. injection H as <- _. destruct (serve true args kv) as [kv1 e] eqn:Hs.
    pose proof (serve_version _ _ _ _ _ k Hs Hwf Hv).
    pose proof (serve_spec _ _ _ _ _ Hs Hwf) as (_ & _ & Hw & _).
    unfold serve in Hs. destruct (KVServer_Put args kv). injection Hs as <- _. done.
  - injection H as <- _. split; [done|lia].
Qed.

(** A Put that is performed asks for the version of its key and moves it on. *)
Lemma performed_version kv a kv' :
  DoOp (KPut a) kv = Some (kv', KPutReply (mkPutReply OK)) → wf_server kv →
  version kv (put_Key a) + 1 < 2 ^ 64 →
  put_Version a = version kv (put_Key a) ∧ version kv' (put_Key a) = version kv (put_Key a) + 1.
Proof.
  intros H Hwf Hv. change (Some (KV_DoOp (KPut a) kv) = Some (kv', KPutReply (mkPutReply OK))) in H.
  apply (inj Some) in H. destruct (DoOp_is_kvsrv kv) as [_ HP]. rewrite HP in H. injection H as <- Hr.
  destruct (serve true a kv) as [kv1 e] eqn:Hs.
  pose proof (serve_spec _ _ _ _ _ Hs Hwf) as (_ & _ & _ & Hok & Hver & _).
  unfold serve in Hs. destruct (KVServer_Put a kv) as [kv2 r]. injection Hs as <- <-. simpl in *. subst r.
  split; [by apply Hok|]. rewrite Hver, decide_True by done. apply u64_small.
  pose proof (Hwf (put_Key a)). unfold is_u64 in *. lia.
Qed.

(** Once its key is past its version, a Put is not performed any more. *)
Lemma legal_stale a lin : ∀ kv,
  legal kv lin → wf_server kv → put_Version a < version kv (put_Key a) →
  version kv (put_Key a) + len lin < 2 ^ 64 → filter (performs a) lin = [].
Proof.
  induction lin as [|[[id req] res] lin IH]; intros kv Hl Hwf Hlt Hv; [done|].
  destruct Hl as (kv1 & Hd & Hl). simpl length in Hv.
  destruct (legal_version kv req kv1 res (put_Key a) Hd Hwf) as [Hwf1 Hv1]; [lia|].
  rewrite filter_cons, decide_False.
  - apply (IH kv1); [done|done|lia|lia].
  - intros [Hreq Hres]. simpl in Hreq, Hres. subst req res.
    apply performed_version in Hd; [lia|done|lia].
Qed.

Lemma legal_once a lin : ∀ kv,
  legal kv lin → wf_server kv → version kv (put_Key a) + len lin < 2 ^ 64 →
  (length (filter (performs a) lin) <= 1)%nat.
Proof.
  induction lin as [|[[id req] res] lin IH]; intros kv Hl Hwf Hv; [simpl; lia|].
  destruct Hl as (kv1 & Hd & Hl). simpl length in Hv.
  destruct (legal_version kv req kv1 res (put_Key a) Hd Hwf) as [Hwf1 Hv1]; [lia|].
  rewrite filter_cons. case_decide as Hp.
  - destruct Hp as [Hreq Hres]. simpl in Hreq, Hres. subst req res.
    apply performed_version in Hd as [Ha Hn]; [|done|lia].
    rewrite (legal_stale a lin kv1); [simpl; lia|done|done|lia|lia].
  - apply (IH kv1); [done|done|lia].
Qed.

(** ** The clerk's attempts *)

(** [atts] are the attempts of one Put in order: the identifier of the Submit
    that its handler made, if the request reached one; [call] is what the clerk
    gets. *)
Record clerk_put (w : Wld) (args : PutArgs) (ck : Clerk) (call : nat → string → option PutReply)
    (atts : list (option Z)) : Prop := {
  cp_once k k' id : atts !! k = Some (Some id) → atts !! k' = Some (Some id) → k = k';
  cp_submits k id : atts !! k = Some (Some id) → HInv id (KPut args) ∈ calls w;
  (* a reply is what the handler makes of the result of Submit *)
  cp_reply k name r : call k name = Some r →
    ∃ id err res, atts !! k = Some (Some id) ∧ KV_Put (err, res) = Some r ∧
      (err = OK → ∃ v, res = Some v ∧ HRet id v ∈ calls w) ∧
      (err ≠ OK → err = ErrWrongLeader);
  (* the clerk tries again only without an answer *)
  cp_retry k name : (S k < length atts)%nat →
    go_nth (ck_servers ck) ((ck_leader ck + Z.of_nat k) mod len (ck_servers ck)) = Some name →
    answered pr_Err (call k name) = false
}.

(** A linearization has at most one operation for every call. *)
Lemma linearizes_length (h : list (CallEvent (Req:=KVReq) (Res:=KVRes))) lin :
  linearizes empty_store h lin → (length lin <= length h)%nat.
Proof.
  intros Hlin. set (made := omap (λ e : CallEvent (Req:=KVReq) (Res:=KVRes),
    match e with HInv id _ => Some id | _ => None end) h).
  transitivity (length made).
  - rewrite <-(length_fmap (λ x : Z * KVReq * KVRes, x.1.1) lin).
    apply submseteq_length, list.NoDup_submseteq.
    + apply NoDup_alt. intros p p' id Hp Hp'. rewrite list_lookup_fmap in Hp, Hp'.
      destruct (lin !! p) as [[[? ?] ?]|] eqn:H1; [|done]. destruct (lin !! p') as [[[? ?] ?]|] eqn:H2; [|done].
      simpl in Hp, Hp'. simplify_eq. by eapply (lin_once _ _ _ Hlin).
    + intros id ([[? req] res] & -> & Hin)%list_elem_of_fmap. apply list_elem_of_omap.
      exists (HInv z req). split; [by eapply lin_made|done].
  - unfold made. clear. induction h as [|[id req|id res] h IH]; cbn [omap list_omap length];
      [lia|apply le_n_S, IH|apply Nat.le_le_succ_r, IH].
Qed.

(** The operations of the attempts that the store performed. *)
Definition clerk_performed (atts : list (option Z)) (lin : Lin) : Lin :=
  filter (λ x, Some x.1.1 ∈ atts ∧ x.2 = KPutReply (mkPutReply OK)) lin.

(** An answer is the result of the operation in the linearization. *)
Lemma clerk_answer w args ck call atts lin k name r :
  clerk_put w args ck call atts → linearizes empty_store (calls w) lin →
  call k name = Some r → pr_Err r ≠ ErrWrongLeader →
  ∃ id req, atts !! k = Some (Some id) ∧ (id, req, KPutReply r) ∈ lin.
Proof.
  intros Hc Hlin Hcall Hr. destruct (cp_reply _ _ _ _ _ Hc _ _ _ Hcall) as (id & err & res & Hk & Hp & Hok & Hne).
  unfold KV_Put in Hp. case_decide as He.
  - injection Hp as <-. simpl in Hr. by apply Hne in He.
  - destruct (Hok He) as (v & -> & Hret).
    destruct v as [|r'|]; [done| |done]. injection Hp as ->.
    destruct (lin_returned _ _ _ Hlin _ _ Hret) as [req Hin]. by exists id, req.
Qed.

(** The attempts are all of one request, so the store performs one of them at most. *)
Lemma clerk_performed_once w args ck call atts lin :
  clerk_put w args ck call atts → linearizes empty_store (calls w) lin →
  (∀ id req req', HInv id req ∈ calls w → HInv id req' ∈ calls w → req = req') →
  len lin < 2 ^ 64 → (length (clerk_performed atts lin) <= 1)%nat.
Proof.
  intros Hc Hlin Huniq Hlen.
  transitivity (length (filter (performs args) lin)).
  - apply sublist_length. unfold clerk_performed.
    assert (∀ l, (∀ x, x ∈ l → x ∈ lin) →
      sublist (filter (λ x : Z * KVReq * KVRes, Some x.1.1 ∈ atts ∧ x.2 = KPutReply (mkPutReply OK)) l)
        (filter (performs args) l)) as H; [|by apply H].
    induction l as [|[[id req] res] l IH]; intros Hl; [done|].
    specialize (IH ltac:(intros; apply Hl; by apply list_elem_of_further)).
    rewrite !filter_cons. case_decide as H1; case_decide as H2.
    + by constructor.
    + destruct H1 as [Hin Hres]. simpl in Hin, Hres. destruct H2. split; [|done]. simpl.
      apply list_elem_of_lookup_1 in Hin as [k Hk].
      apply (Huniq id); [|by eapply cp_submits].
      eapply lin_made; [exact Hlin|]. apply Hl, list_elem_of_here.
    + by constructor.
    + done.
  - apply (legal_once args lin empty_store); [apply Hlin|done|]. change (0 + len lin < 2 ^ 64). lia.
Qed.

(** What a linearization says of a Put that has returned. *)
Lemma clerk_meaning w args ck call atts lin fuel err ck' :
  clerk_put w args ck call atts → linearizes empty_store (calls w) lin →
  (∀ id req req', HInv id req ∈ calls w → HInv id req' ∈ calls w → req = req') →
  len lin < 2 ^ 64 → 0 <= ck_leader ck < len (ck_servers ck) →
  RClerk_Put call fuel ck = Some (err, ck') →
  let n := length (clerk_performed atts lin) in
  (n <= 1)%nat ∧ (err = OK → n = 1%nat) ∧ (err = ErrVersion → n = 0%nat) ∧
  (err = ErrNoKey → length atts = 1%nat → n = 0%nat).
Proof.
  intros Hc Hlin Huniq Hlen Hck Hput n.
  pose proof (clerk_performed_once w args ck call atts lin Hc Hlin Huniq Hlen) as Hn.
  destruct (proj1 (RClerk_Put_spec call fuel ck Hck) err ck' Hput)
    as (k & name & r & Hl & Hname & Hcall & Hr & Herr & Hfirst & _).
  rewrite Hl in Hname.
  destruct (clerk_answer w args ck call atts lin k name r Hc Hlin Hcall Hr) as (id & req & Hk & Hin).
  (* when the first attempt is answered with an error, nothing is performed *)
  assert (length atts = 1%nat → pr_Err r ≠ OK → n = 0%nat) as Hnone.
  { intros H1 Hne. unfold n. rewrite (elem_of_nil_inv (clerk_performed atts lin)); [done|].
    intros [[id' req'] res'] [[Hid' Hres'] Hin']%list_elem_of_filter. simpl in *.
    apply list_elem_of_lookup_1 in Hid' as [k' Hk'].
    pose proof (lookup_lt_Some _ _ _ Hk). pose proof (lookup_lt_Some _ _ _ Hk').
    replace k' with k in Hk' by lia. rewrite Hk in Hk'. injection Hk' as <-.
    apply list_elem_of_lookup_1 in Hin as [p Hp], Hin' as [p' Hp'].
    pose proof (lin_once _ _ _ Hlin _ _ _ _ _ _ _ Hp Hp') as <-. rewrite Hp' in Hp.
    injection Hp as _ Hres. rewrite Hres' in Hres. injection Hres as <-. by apply Hne. }
  unfold putResult in Herr. split_and!; [done|..].
  - intros ->. case_decide as Hv; [by destruct (Nat.eqb k 0)|].
    assert ((id, req, KPutReply r) ∈ clerk_performed atts lin) as Hin'.
    { apply list_elem_of_filter. split; [|done]. simpl. split; [by apply (list_elem_of_lookup_2 _ k)|].
      destruct r. simpl in *. by subst. }
    unfold n. destruct (clerk_performed atts lin); [by apply elem_of_nil in Hin'|]. simpl in *. lia.
  - intros ->. specialize (Hfirst eq_refl). subst k. apply Hnone.
    + destruct (decide (length atts <= 1)%nat) as [Hle|Hgt].
      * pose proof (lookup_lt_Some _ _ _ Hk). lia.
      * pose proof (cp_retry _ _ _ _ _ Hc 0 name ltac:(lia) Hname) as Hno. rewrite Hcall in Hno.
        simpl in Hno. by apply bool_decide_eq_false in Hno.
    + case_decide as Hv; [by rewrite Hv|]. congruence.
  - intros -> H1. apply Hnone; [done|]. intros Hok. rewrite Hok in Herr. simpl in Herr. done.
Qed.

(** ** The worlds that clients can reach *)

(** The services take no snapshots (maxraftstate is -1), or the run is one in which
    they receive their messages in order. *)
Definition sound_policy (pol : Policy (Req:=KVReq)) : Prop :=
  pol = rsm_policy (S:=KVServer) (-1) ∨ (∀ ex m, receive_ok pol ex m → in_order ex m).

Lemma sound_world pol w :
  sound_policy pol → reachable (lin_init N empty_store) (lin_step N empty_store pol) w →
  ∃ pol', (∀ ex m, receive_ok pol' ex m → in_order ex m) ∧
    reachable (lin_init N empty_store) (lin_step N empty_store pol') w.
Proof.
  intros [->|Hn] Hr; [|by exists pol]. apply plain_world in Hr as [_ Hr]. by exists ordered.
Qed.

(** A call is made once. *)
Lemma calls_unique pol w :
  (∀ ex m, receive_ok pol ex m → in_order ex m) →
  reachable (lin_init N empty_store) (lin_step N empty_store pol) w →
  ∀ id req req', HInv id req ∈ calls w → HInv id req' ∈ calls w → req = req'.
Proof.
  intros Hnew. revert w.
  refine (reachable_invariant _ _ (λ w : Wld, ∀ id req req',
    HInv id req ∈ calls w → HInv id req' ∈ calls w → req = req') _ _).
  - intros w (_ & _ & ->) id req req' ?%elem_of_nil. done.
  - intros w w' Hr IH Hs. destruct (lin_reachable_inv N empty_store pol Hnew w Hr) as [L Hinv].
    pose proof (li_known _ _ _ _ Hinv) as Hknown.
    destruct Hs as [| id i req term Hid Hst| | | |id i m op op' index startTerm s' res err r|]; simpl; try exact IH.
    + intros id' r r' [[= -> ->]|H]%elem_of_cons [H'|H']%elem_of_cons.
      * congruence.
      * apply Hknown in H'. rewrite Hid in H'. by destruct H'.
      * injection H' as -> ->. apply Hknown in H. rewrite Hid in H. by destruct H.
      * by eapply IH.
    + intros id' rq rq' Ha Hb. apply elem_of_app in Ha as [Ha|Ha], Hb as [Hb|Hb]; [..|by eapply IH];
        unfold returned in *; destruct r; set_solver.
Qed.

(** C4. A Put of the replicated clerk, whatever servers it tries, whichever of its
    requests and replies are lost, and however the calls of other clients, crashes
    and elections interleave: of all its attempts the store performs at most one;
    exactly one when the clerk returns OK, none when it returns ErrVersion, and
    none when its only attempt returns ErrNoKey - in one order of the calls that
    explains the results of all clients.  This is so in every run when the services
    take no snapshots (maxraftstate is -1), and with snapshots in the runs in which
    every service receives its messages in order ([in_order]), which the code does
    not see to. *)
Theorem RClerk_Put_meaning pol w args ck call atts fuel err ck' :
  sound_policy pol → reachable (lin_init N empty_store) (lin_step N empty_store pol) w →
  clerk_put w args ck call atts → 0 <= ck_leader ck < len (ck_servers ck) →
  RClerk_Put call fuel ck = Some (err, ck') → len (calls w) < 2 ^ 64 →
  ∃ lin, linearizes empty_store (calls w) lin ∧
    let n := length (clerk_performed atts lin) in
    (n <= 1)%nat ∧ (err = OK → n = 1%nat) ∧ (err = ErrVersion → n = 0%nat) ∧
    (err = ErrNoKey → length atts = 1%nat → n = 0%nat).
Proof.
  intros Hpol Hr Hc Hck Hput Hlen. destruct (sound_world pol w Hpol Hr) as (pol' & Hnew & Hr').
  destruct (world_linearizable N empty_store pol' Hnew w Hr') as [lin Hlin].
  pose proof (linearizes_length _ _ Hlin). exists lin. split; [done|].
  eapply clerk_meaning; [exact Hc|exact Hlin| |lia|exact Hck|exact Hput].
  by apply (calls_unique pol').
Qed.

End KVClerk.

(** ** Instances

    In the run of NoSnapshots.v, a clerk whose first request, to server 2, was
    lost puts "a" through server 0. *)

#[local] Existing Instances KVReq_countable KVVal_gob KVStore_gob.

Definition trying_clerk : Clerk := mkClerk ["s0"; "s1"; "s2"] 2.

Definition trying_call (k : nat) (name : string) : option PutReply :=
  if decide (k = 1%nat ∧ name = "s0") then Some (mkPutReply OK) else None.

Lemma trying_clerk_put :
  clerk_put stores_plain (mkPutArgs "x" "a" 0) trying_clerk trying_call [None; Some 1].
Proof.
  split.
  - intros [|[|k]] [|[|k']] id; simpl; try done.
  - rewrite stores_plain_calls. intros [|[|k]] id; simpl; try done. intros [= <-].
    unfold history1, put_x. set_solver.
  - rewrite stores_plain_calls. unfold trying_call. intros k name r. case_decide as Hk; [|done].
    destruct Hk as [-> ->]. intros [= <-]. exists 1, OK, (Some (KPutReply (mkPutReply OK))).
    split_and!; [done|done| |done]. intros _. eexists. split; [done|]. unfold history1. set_solver.
  - intros k name. simpl. intros Hk. assert (k = 0%nat) as -> by lia. done.
Qed.

Lemma RClerk_Put_meaning_witness :
  ∃ lin, linearizes empty_store history1 lin ∧
    length (clerk_performed [None; Some 1] lin) = 1%nat.
Proof.
  assert (RClerk_Put trying_call 3 trying_clerk = Some (OK, mkClerk ["s0"; "s1"; "s2"] 0)) as Hput
    by (vm_compute; reflexivity).
  assert (len (calls stores_plain) < 2 ^ 64) as Hlen by (rewrite stores_plain_calls; simpl; lia).
  assert (sound_policy plain_kv) as Hpol by (left; reflexivity).
  destruct (RClerk_Put_meaning 3 plain_kv stores_plain (mkPutArgs "x" "a" 0) trying_clerk trying_call
    [None; Some 1] 3 OK (mkClerk ["s0"; "s1"; "s2"] 0) Hpol stores_plain_reachable trying_clerk_put) as (lin & Hlin & _ & Hok & _);
    [simpl; lia|exact Hput|exact Hlen|].
  exists lin. rewrite <-stores_plain_calls. exact (conj Hlin (Hok eq_refl)).
Defined.
