(* ===== verification/KVHistory.v ===== *)
(** * The histories of the replicated clerks are linearizable

    Many clerks of src/6.5840/src/kvraft1/client.go at the same time on the
    replicated store of KVReplicas.v.  A call of Get or Put is a loop that sends its
    request to one server after the other; each request may reach a handler of
    src/6.5840/src/kvraft1/server.go there, at any later time and at most once,
    which calls Submit; its reply may reach the loop while it waits for it.  The
    history is that of the calls of the clerks, not of Submit: it is explained by a
    sequential history of the store that keeps the order of calls that did not
    overlap and that the model of src/6.5840/src/models1/kv.go accepts. *)

From S2P Require Import Prelude Gob Persister KVRpc KVSrv KvModel Raft RaftNode RaftSpec.
From S2P Require Import RaftReplication RaftProtocol RaftNet RaftLog RaftSim RaftSafety RSM.
From S2P Require Import Replicas KVRaft Linearizable ReplicasRun KVReplicas NoSnapshots KVClerk.

(** ** Positions in a filtered list *)

Lemma omap_lookup_from {A B} (f : A → option B) (l : list A) : ∀ i b,
  omap f l !! i = Some b →
  ∃ p x, l !! p = Some x ∧ f x = Some b ∧ i = length (omap f (take p l)).
Proof.
  induction l as [|y l IH]; intros i b; cbn [omap list_omap]; [done|].
  destruct (f y) as [b'|] eqn:Hy.
  - destruct i as [|i]; cbn [lookup list_lookup]; intros Hi.
    + injection Hi as <-. by exists 0%nat, y.
    + destruct (IH i b Hi) as (p & x & Hp & Hx & ->). exists (S p), x. cbn. by rewrite Hy.
  - intros Hi. destruct (IH i b Hi) as (p & x & Hp & Hx & ->). exists (S p), x. cbn. by rewrite Hy.
Qed.

Lemma omap_length_lt {A B} (f : A → option B) (l : list A) p q x b :
  l !! p = Some x → f x = Some b → (p < q)%nat →
  (length (omap f (take p l)) < length (omap f (take q l)))%nat.
Proof.
  intros Hp Hx Hlt. rewrite <-(take_drop p (take q l)), take_take, Nat.min_l by lia.
  rewrite omap_app, length_app. rewrite (drop_S _ x p).
  - cbn [omap list_omap]. rewrite Hx. cbn [length]. lia.
  - by rewrite lookup_take_lt.
Qed.

(** ** A call of a clerk *)

(** What Get and Put return. *)
Inductive ClerkRes :=
| RGet (value : string) (ver : Tversion) (err : Err)
| RPut (err : Err).

#[export] Instance ClerkRes_eq_dec : EqDecision ClerkRes.
Proof. solve_decision. Defined.

(** The variables of the loop; [cc_attempt] counts its iterations, so [first] of
    Put is that it is 0.  [cc_result] is set by the return statement, with the
    clerk as it leaves it. *)
Record ClerkCall := mkClerkCall {
  cc_clerk : Clerk;
  cc_req : KVReq;
  cc_leader : Z;
  cc_attempt : nat;
  cc_result : option (ClerkRes * Clerk)
}.

Definition start_clerk (ck : Clerk) (req : KVReq) : ClerkCall :=
  mkClerkCall ck req (ck_leader ck) 0 None.

(** The value the loop returns for an answer of the server. *)
Definition clerk_result (first : bool) (answer : KVRes) : option ClerkRes :=
  match answer with
  | KGetReply r =>
      if decide (gr_Err r ≠ ErrWrongLeader) then Some (RGet (gr_Value r) (gr_Version r) (gr_Err r))
      else None
  | KPutReply r =>
      if decide (pr_Err r ≠ ErrWrongLeader) then Some (RPut (putResult first (pr_Err r))) else None
  | KNil => None
  end.

(** One iteration, once Call has returned: [reply] is [None] when it returned
    false. *)
Definition clerk_iteration (reply : option KVRes) (cc : ClerkCall) : ClerkCall :=
  match reply ≫= clerk_result (Nat.eqb (cc_attempt cc) 0) with
  | Some res =>
      mkClerkCall (cc_clerk cc) (cc_req cc) (cc_leader cc) (cc_attempt cc)
        (Some (res, mkClerk (ck_servers (cc_clerk cc)) (cc_leader cc)))
  | None =>
      mkClerkCall (cc_clerk cc) (cc_req cc)
        (Z.rem (cc_leader cc + 1) (len (ck_servers (cc_clerk cc)))) (S (cc_attempt cc)) None
  end.

(** The handlers Get and Put of the server, once Submit has returned; [None] is
    the panic of a failed type assertion. *)
Definition clerk_handler (req : KVReq) (submit : Err * option KVRes) : option KVRes :=
  match req with
  | KGet _ => KGetReply <$> KV_Get submit
  | KPut _ => KPutReply <$> KV_Put submit
  | KOther => None
  end.

(** The loop with given answers, and that it is the one of KVRaft.v. *)
Fixpoint clerk_loop (call : nat → string → option KVRes) (fuel : nat) (cc : ClerkCall) :
    option (ClerkRes * Clerk) :=
  match fuel with
  | O => None
  | S fuel =>
      server ← go_nth (ck_servers (cc_clerk cc)) (cc_leader cc);
      let cc := clerk_iteration (call (cc_attempt cc) server) cc in
      match cc_result cc with Some res => Some res | None => clerk_loop call fuel cc end
  end.

Lemma clerk_loop_findLeader {Reply} (call : nat → string → option Reply) (err : Reply → Err)
    (wrap : Reply → KVRes) (out : bool → Reply → ClerkRes) fuel :
  (∀ first r, clerk_result first (wrap r) =
     if decide (err r ≠ ErrWrongLeader) then Some (out first r) else None) →
  ∀ ck req leader k,
  clerk_loop (λ k s, wrap <$> call k s) fuel (mkClerkCall ck req leader k None) =
    '(r, srv, k') ← findLeader call err fuel k (ck_servers ck) leader;
    Some (out (Nat.eqb k' 0) r, mkClerk (ck_servers ck) srv).
Proof.
  intros Hout. induction fuel as [|fuel IH]; intros ck req leader k; [done|]. simpl.
  destruct (go_nth (ck_servers ck) leader) as [server|]; [|done]. simpl.
  unfold clerk_iteration. simpl. destruct (call k server) as [r|] eqn:Hc; simpl; [|apply IH].
  rewrite Hout. case_decide as He.
  - by rewrite bool_decide_true by done.
  - rewrite bool_decide_false by (intros Hne; by apply Hne). simpl. apply IH.
Qed.

Lemma clerk_loop_Put call fuel ck args :
  clerk_loop (λ k s, KPutReply <$> call k s) fuel (start_clerk ck (KPut args)) =
    '(err, ck') ← RClerk_Put call fuel ck; Some (RPut err, ck').
Proof.
  unfold start_clerk. rewrite (clerk_loop_findLeader call pr_Err KPutReply
    (λ first r, RPut (putResult first (pr_Err r)))) by done.
  unfold RClerk_Put. destruct (findLeader _ _ _ _ _ _) as [[[r srv] k]|]; [|done]. simpl.
  unfold putResult. by repeat case_decide; destruct (Nat.eqb k 0).
Qed.

Lemma clerk_loop_Get call fuel ck args :
  clerk_loop (λ k s, KGetReply <$> call k s) fuel (start_clerk ck (KGet args)) =
    '(value, ver, err, ck') ← RClerk_Get call fuel ck; Some (RGet value ver err, ck').
Proof.
  unfold start_clerk. rewrite (clerk_loop_findLeader call gr_Err KGetReply
    (λ _ r, RGet (gr_Value r) (gr_Version r) (gr_Err r))) by done.
  unfold RClerk_Get. by destruct (findLeader _ _ _ _ _ _) as [[[r srv] k]|].
Qed.

(** ** Clerks and the service *)

Section Clerks.
Context `{!Gob (gmap string valueVersion)} `{!GobRegistered (gmap string valueVersion)}.
Context `{!Gob (RaftVal (Op KVReq))} `{!GobRegistered (RaftVal (Op KVReq))}.
Context (N : nat) (pol : Policy (Req:=KVReq)).
Abbreviation Wld := (World (S:=KVServer) (Req:=KVReq) (Res:=KVRes)).
Abbreviation Lin := (list (Z * KVReq * KVRes)).
Abbreviation ClerkEvent := (CallEvent (Req:=KVReq) (Res:=ClerkRes)).
Abbreviation ClerkLin := (list (Z * KVReq * ClerkRes)).

(** The calls of the clerks by name; for every request that a handler has taken,
    the [k]-th of a call, the Submit it made; the history. *)
Record Clerks := mkClerks {
  service : Wld;
  client_calls : gmap Z ClerkCall;
  handlers : gmap (Z * nat) Z;
  clerk_history : list ClerkEvent
}.

(** The server to which the [k]-th request of a call goes. *)
Definition addressee (cc : ClerkCall) (k : nat) : nat :=
  Z.to_nat ((ck_leader (cc_clerk cc) + Z.of_nat k) mod len (ck_servers (cc_clerk cc))).

(** What Submit returned to a handler. *)
Inductive submit_returned (w : Wld) (id : Z) : Err * option KVRes → Prop :=
| sr_done op index err res :
    submits w !! id = Some (KDone op index err res) → submit_returned w id (err, res)
| sr_refused req : submits w !! id = Some (KRefused req) → submit_returned w id (ErrWrongLeader, None).

Definition clerk_events (c : Z) (cc : ClerkCall) : list ClerkEvent :=
  match cc_result cc with Some (res, _) => [HRet c res] | None => [] end.

Inductive clerks_step (W : Clerks) : Clerks → Prop :=
(* the service goes on with the calls of Submit that there are *)
| k_service w' :
    lin_step N empty_store pol (service W) w' →
    (∀ id, submits (service W) !! id = None → submits w' !! id = None) →
    clerks_step W (mkClerks w' (client_calls W) (handlers W) (clerk_history W))
(* a client calls Get or Put of a clerk *)
| k_invoke c ck req :
    client_calls W !! c = None → req ≠ KOther → 0 <= ck_leader ck < len (ck_servers ck) →
    clerks_step W (mkClerks (service W) (<[c := start_clerk ck req]> (client_calls W)) (handlers W)
                     (HInv c req :: clerk_history W))
(* a request that has been sent reaches its server, the leader, which submits it *)
| k_handle c cc k id w' :
    client_calls W !! c = Some cc → (k <= cc_attempt cc)%nat → handlers W !! (c, k) = None →
    submits (service W) !! id = None →
    (∃ term, GetState (servers (cluster (replicas (service W))) (addressee cc k)) = (term, true) ∧
      w' = mkWorld (replicas (service W))
             (<[id := KState (addressee cc k) (cc_req cc) term]> (submits (service W)))
             (HInv id (cc_req cc) :: calls (service W))) →
    clerks_step W (mkClerks w' (client_calls W) (<[(c, k) := id]> (handlers W)) (clerk_history W))
(* Call returns false: the request, or its reply, is lost or late *)
| k_lost c cc :
    client_calls W !! c = Some cc → cc_result cc = None →
    clerks_step W (mkClerks (service W) (<[c := clerk_iteration None cc]> (client_calls W))
                     (handlers W) (clerk_history W))
(* the server is not the leader, and says so *)
| k_not_leader c cc term :
    client_calls W !! c = Some cc → cc_result cc = None →
    GetState (servers (cluster (replicas (service W))) (addressee cc (cc_attempt cc))) = (term, false) →
    clerks_step W (mkClerks (service W)
      (<[c := clerk_iteration (clerk_handler (cc_req cc) (ErrWrongLeader, None)) cc]> (client_calls W))
      (handlers W) (clerk_history W))
(* Call returns the reply of the handler *)
| k_reply c cc id submit reply :
    client_calls W !! c = Some cc → cc_result cc = None →
    handlers W !! (c, cc_attempt cc) = Some id → submit_returned (service W) id submit →
    clerk_handler (cc_req cc) submit = Some reply →
    let cc' := clerk_iteration (Some reply) cc in
    clerks_step W (mkClerks (service W) (<[c := cc']> (client_calls W)) (handlers W)
                     (clerk_events c cc' ++ clerk_history W)).

Definition clerks_init (W : Clerks) : Prop :=
  lin_init N empty_store (service W) ∧ client_calls W = ∅ ∧ handlers W = ∅ ∧ clerk_history W = [].

(** ** Sequential histories of the store as its clerks see them *)

(** What a clerk may return for what the store answered: after a retry, ErrMaybe
    instead of OK or ErrVersion. *)
Definition clerk_sees (res : KVRes) (out : ClerkRes) : Prop :=
  match res, out with
  | KGetReply r, RGet value ver err => value = gr_Value r ∧ ver = gr_Version r ∧ err = gr_Err r
  | KPutReply r, RPut err =>
      err = pr_Err r ∨ (err = ErrMaybe ∧ (pr_Err r = OK ∨ pr_Err r = ErrVersion))
  | _, _ => False
  end.

Fixpoint clerk_legal (kv : KVServer) (lin : ClerkLin) : Prop :=
  match lin with
  | [] => True
  | (_, req, out) :: lin =>
      clerk_sees (KV_DoOp req kv).2 out ∧ clerk_legal (KV_DoOp req kv).1 lin
  end.

(** As [linearizes] of Linearizable.v; a call that has not returned may be in
    [lin], with any result. *)
Record clerk_explains (h : list ClerkEvent) (lin : ClerkLin) : Prop := {
  ce_legal : clerk_legal empty_store lin;
  ce_once p p' c req req' out out' :
    lin !! p = Some (c, req, out) → lin !! p' = Some (c, req', out') → p = p';
  ce_made c req out : (c, req, out) ∈ lin → HInv c req ∈ h;
  ce_returned c out : HRet c out ∈ h → ∃ req, (c, req, out) ∈ lin;
  ce_result c req out out' : (c, req, out) ∈ lin → HRet c out' ∈ h → out = out';
  ce_order a b p p' req req' out out' :
    precedes h a b → lin !! p = Some (a, req, out) → lin !! p' = Some (b, req', out') → (p < p')%nat
}.

(** The operation that the tests log for a call. *)
Definition clerk_operation (x : Z * KVReq * ClerkRes) : option Operation :=
  match x.1.2, x.2 with
  | KGet args, RGet value ver err => Some (get_op args (mkGetReply value ver err))
  | KPut args, RPut err => Some (put_op args err)
  | _, _ => None
  end.

Definition clerk_operations (lin : ClerkLin) : list Operation := omap clerk_operation lin.

(** Versions come from the past: a Put asks for version 0, the one that a Get has
    returned before, or the one that a Put has made before. *)
Definition known (older : list ClerkEvent) (key : string) (ver : Z) : Prop :=
  ver = 0 ∨
  (∃ c value, HInv c (KGet (mkGetArgs key)) ∈ older ∧ HRet c (RGet value ver OK) ∈ older) ∨
  (∃ c value, HInv c (KPut (mkPutArgs key value (ver - 1))) ∈ older ∧ HRet c (RPut OK) ∈ older).

Fixpoint versions_known (h : list ClerkEvent) : Prop :=
  match h with
  | [] => True
  | HInv _ (KPut args) :: older => known older (put_Key args) (put_Version args) ∧ versions_known older
  | _ :: older => versions_known older
  end.

Lemma versions_known_at newer older c args :
  versions_known (newer ++ HInv c (KPut args) :: older) → known older (put_Key args) (put_Version args).
Proof.
  induction newer as [|[? [| |]|] newer IH]; cbn [versions_known app]; try done; [by intros [? _]|].
  intros [_ ?]. by apply IH.
Qed.

(** ** The store along a linearization of Submit *)

Definition store_at (lin : Lin) (p : nat) : KVServer :=
  foldl (λ kv x, (KV_DoOp x.1.2 kv).1) empty_store (take p lin).

Lemma store_at_S lin p x :
  lin !! p = Some x → store_at lin (S p) = (KV_DoOp x.1.2 (store_at lin p)).1.
Proof. intros Hp. unfold store_at. by rewrite (take_S_r _ _ x), foldl_app by done. Qed.

Lemma legal_at lin : ∀ kv p x,
  legal kv lin → lin !! p = Some x →
  (KV_DoOp x.1.2 (foldl (λ kv x, (KV_DoOp x.1.2 kv).1) kv (take p lin))).2 = x.2.
Proof.
  induction lin as [|[[id req] res] lin IH]; intros kv [|p] x Hl Hp; [done|done| |];
    simpl in Hp; destruct Hl as (kv1 & Hd & Hl);
    change (Some (KV_DoOp req kv) = Some (kv1, res)) in Hd; apply (inj Some) in Hd.
  - injection Hp as <-. simpl. by rewrite Hd.
  - cbn [take foldl fst snd]. rewrite Hd. by apply IH.
Qed.

Section Along.
Context (lin : Lin) (Hlegal : legal empty_store lin) (Hlen : len lin < 2 ^ 64).

Lemma store_at_answer p id req res :
  lin !! p = Some (id, req, res) → (KV_DoOp req (store_at lin p)).2 = res.
Proof. apply (legal_at lin empty_store p (id, req, res) Hlegal). Qed.

Lemma store_at_step p id req res :
  lin !! p = Some (id, req, res) →
  KV_DoOp req (store_at lin p) = (store_at lin (S p), res).
Proof.
  intros Hp. rewrite (store_at_S lin p _ Hp), <-(store_at_answer _ _ _ _ Hp). apply surjective_pairing.
Qed.

Lemma store_at_DoOp p id req res :
  lin !! p = Some (id, req, res) → DoOp req (store_at lin p) = Some (store_at lin (S p), res).
Proof. intros Hp. exact (f_equal Some (store_at_step p id req res Hp)). Qed.

Lemma store_at_version p k : (p <= length lin)%nat →
  wf_server (store_at lin p) ∧ 0 <= version (store_at lin p) k <= Z.of_nat p.
Proof.
  induction p as [|p IH]; intros Hp; [done|]. destruct IH as [Hwf Hv]; [lia|].
  destruct (lookup_lt_is_Some_2 lin p) as [[[id req] res] Hx]; [lia|].
  destruct (legal_version (store_at lin p) req (store_at lin (S p)) res k) as [Hwf' Hv'];
    [by apply (store_at_DoOp p id)|done|lia|]. split; [done|lia].
Qed.

Lemma store_at_mono p q k : (p <= q <= length lin)%nat →
  version (store_at lin p) k <= version (store_at lin q) k.
Proof.
  intros [Hpq Hq]. induction Hpq as [|q Hpq IH]; [lia|].
  specialize (IH ltac:(lia)). destruct (lookup_lt_is_Some_2 lin q) as [[[id req] res] Hx]; [lia|].
  destruct (store_at_version q k) as [Hwf Hv]; [lia|].
  destruct (legal_version (store_at lin q) req (store_at lin (S q)) res k) as [_ Hv'];
    [by apply (store_at_DoOp q id)|done|lia|]. lia.
Qed.

(** The entry at [p] is a Put that the store performed. *)
Lemma performed_at p id a :
  lin !! p = Some (id, KPut a, KPutReply (mkPutReply OK)) →
  put_Version a = version (store_at lin p) (put_Key a) ∧
  version (store_at lin (S p)) (put_Key a) = put_Version a + 1.
Proof.
  intros Hp. pose proof (lookup_lt_Some _ _ _ Hp). destruct (store_at_version p (put_Key a)) as [Hwf Hv]; [lia|].
  destruct (performed_version (store_at lin p) a (store_at lin (S p))) as [H1 H2];
    [by apply (store_at_DoOp p id)|done|lia|]. split; lia.
Qed.

(** Each version of a key is asked for by one Put that is performed. *)
Lemma performed_unique p q id id' a :
  lin !! p = Some (id, KPut a, KPutReply (mkPutReply OK)) →
  lin !! q = Some (id', KPut a, KPutReply (mkPutReply OK)) → p = q.
Proof.
  intros Hp Hq. pose proof (lookup_lt_Some _ _ _ Hp). pose proof (lookup_lt_Some _ _ _ Hq).
  pose proof (performed_at _ _ _ Hp) as [H1 H1']. pose proof (performed_at _ _ _ Hq) as [H2 H2'].
  destruct (Nat.lt_trichotomy p q) as [Hlt|[->|Hlt]]; [exfalso|done|exfalso].
  - pose proof (store_at_mono (S p) q (put_Key a)). lia.
  - pose proof (store_at_mono (S q) p (put_Key a)). lia.
Qed.

End Along.

(** ** The calls of Submit that the service has seen *)

Lemma precedes_grows {Req Res} (ev h : list (CallEvent (Req:=Req) (Res:=Res))) a b :
  precedes h a b → precedes (ev ++ h) a b.
Proof.
  intros (newer & older & req & res & -> & Hin). exists (ev ++ newer), older, req, res.
  by rewrite <-app_assoc.
Qed.

Lemma precedes_ret {Req Res} (h : list (CallEvent (Req:=Req) (Res:=Res))) c res a b :
  precedes (HRet c res :: h) a b → precedes h a b.
Proof. intros ([|e newer] & older & req & r & [= ? ->] & Hin). by exists newer, older, req, r. Qed.

Lemma precedes_inv {Req Res} (h : list (CallEvent (Req:=Req) (Res:=Res))) c req a b :
  precedes (HInv c req :: h) a b → precedes h a b ∨ (b = c ∧ ∃ res, HRet a res ∈ h).
Proof.
  intros ([|e newer] & older & rq & r & Heq & Hin); simplify_eq/=.
  - right. split; [done|by exists r].
  - left. by exists newer, older, rq, r.
Qed.

Lemma precedes_events {Req Res} (h : list (CallEvent (Req:=Req) (Res:=Res))) a b :
  precedes h a b → (∃ res, HRet a res ∈ h) ∧ ∃ req, HInv b req ∈ h.
Proof. intros (newer & older & req & res & -> & Hin). split; [exists res|exists req]; set_solver. Qed.

(** A step that makes no call adds results only. *)
Lemma service_calls w w' :
  lin_step N empty_store pol w w' → (∀ id, submits w !! id = None → submits w' !! id = None) →
  ∃ ev, calls w' = ev ++ calls w ∧ ∀ id req, HInv id req ∉ ev.
Proof.
  intros Hs Hnew. destruct Hs as [| id i req term Hid Hst| | | |id i m op op' index startTerm s' res err r|];
    simpl in *; try by (exists []; split; [done|]; intros id0 req0 ?%elem_of_nil).
  - specialize (Hnew id Hid). by rewrite lookup_insert_eq in Hnew.
  - exists (returned id r). split; [done|]. intros id' req'. unfold returned. destruct r; set_solver.
Qed.

Lemma submit_result w id op index err res :
  reachable (lin_init N empty_store) (lin_step N empty_store pol) w →
  submits w !! id = Some (KDone op index err res) →
  (err = OK ∧ ∃ r, res = Some r ∧ HRet id r ∈ calls w) ∨ (err = ErrWrongLeader ∧ res = None).
Proof.
  intros Hr. revert id op index err res. revert w Hr.
  refine (reachable_invariant _ _ (λ w : Wld, ∀ id op index err res,
    submits w !! id = Some (KDone op index err res) →
    (err = OK ∧ ∃ r, res = Some r ∧ HRet id r ∈ calls w) ∨ (err = ErrWrongLeader ∧ res = None)) _ _).
  - intros w (_ & -> & _) id op index err res. by rewrite lookup_empty.
  - intros w w' _ IH Hs id0 op0 index0 err0 res0.
    destruct Hs as [| id i req term Hid Hst| | | |id i m op op' index startTerm s' res err r σ' Hid Hl Hv Hi Hc Hd Hrec|];
      simpl; try apply IH; try (intros [[? ?]|[? ?]]%lookup_insert_Some; [done|by eapply IH]).
    + intros [[? ?]|[? ?]]%lookup_insert_Some; [done|].
      destruct (IH _ _ _ _ _ H0) as [(-> & r & -> & Hin)|H']; [left|by right]. set_solver.
    + intros [[<- [= -> -> -> ->]]|[? Hx]]%lookup_insert_Some.
      * unfold submitReceive in Hrec. case_match; simplify_eq; [by right|left].
        split; [done|]. eexists. split; [done|]. apply list_elem_of_here.
      * destruct (IH _ _ _ _ _ Hx) as [(-> & r' & -> & Hin)|H']; [left|by right]. set_solver.
    + intros [[<- [= -> -> <- <-]]|[? Hx]]%lookup_insert_Some; [by right|by eapply IH].
Qed.

Context (Hpol : sound_policy pol).

Lemma known_call w id req :
  reachable (lin_init N empty_store) (lin_step N empty_store pol) w →
  HInv id req ∈ calls w → is_Some (submits w !! id).
Proof.
  intros (pol' & Hn & Hr)%(sound_world _ _ _ Hpol) Hin.
  destruct (lin_reachable_inv N empty_store pol' Hn w Hr) as [L Hinv]. by eapply (li_known _ _ _ _ Hinv).
Qed.

(** ** The invariant of the clerks *)

Lemma iteration_req reply cc :
  cc_req (clerk_iteration reply cc) = cc_req cc ∧ cc_clerk (clerk_iteration reply cc) = cc_clerk cc ∧
  (cc_attempt cc <= cc_attempt (clerk_iteration reply cc))%nat.
Proof. unfold clerk_iteration. case_match; simpl; auto. Qed.

Lemma iteration_result reply cc out ck :
  cc_result (clerk_iteration reply cc) = Some (out, ck) →
  cc_attempt (clerk_iteration reply cc) = cc_attempt cc ∧
  reply ≫= clerk_result (Nat.eqb (cc_attempt cc) 0) = Some out.
Proof. unfold clerk_iteration. case_match eqn:H; simpl; [|done]. intros [= <- _]. done. Qed.

Lemma clerk_result_put first e out :
  e = OK ∨ e = ErrVersion → clerk_result first (KPutReply (mkPutReply e)) = Some out →
  (out = RPut e ∨ out = RPut ErrMaybe) ∧ (first = false → e = ErrVersion → out = RPut ErrMaybe) ∧
  (e = OK → out = RPut OK).
Proof.
  intros [-> | ->]; simpl; unfold putResult; simpl; [|destruct first]; intros [= <-];
    (split_and!; [by auto|by intros|by intros]).
Qed.

Lemma handler_wrong_leader first req :
  clerk_handler req (ErrWrongLeader, None) ≫= clerk_result first = None.
Proof. by destruct req. Qed.

Lemma handler_answer req r reply : clerk_handler req (OK, Some r) = Some reply → reply = r.
Proof. destruct req, r; simpl; try done; by intros [= <-]. Qed.

Record clerks_inv (W : Clerks) : Prop := {
  ci_world : reachable (lin_init N empty_store) (lin_step N empty_store pol) (service W);
  ci_handled c k id : handlers W !! (c, k) = Some id →
    ∃ cc, client_calls W !! c = Some cc ∧ (k <= cc_attempt cc)%nat ∧
          HInv id (cc_req cc) ∈ calls (service W);
  ci_owner id req : HInv id req ∈ calls (service W) → ∃ x, handlers W !! x = Some id;
  ci_inj x y id : handlers W !! x = Some id → handlers W !! y = Some id → x = y;
  ci_invoked c req : HInv c req ∈ clerk_history W →
    ∃ cc, client_calls W !! c = Some cc ∧ cc_req cc = req;
  ci_called c cc : client_calls W !! c = Some cc →
    HInv c (cc_req cc) ∈ clerk_history W ∧ cc_req cc ≠ KOther;
  ci_returned c out : HRet c out ∈ clerk_history W →
    ∃ cc ck, client_calls W !! c = Some cc ∧ cc_result cc = Some (out, ck);
  ci_answered c cc out ck : client_calls W !! c = Some cc → cc_result cc = Some (out, ck) →
    ∃ id r, handlers W !! (c, cc_attempt cc) = Some id ∧ HRet id r ∈ calls (service W) ∧
            clerk_result (Nat.eqb (cc_attempt cc) 0) r = Some out;
  ci_order a b ca k ida idb :
    precedes (clerk_history W) a b → client_calls W !! a = Some ca →
    handlers W !! (a, cc_attempt ca) = Some ida → handlers W !! (b, k) = Some idb →
    precedes (calls (service W)) ida idb
}.

Lemma clerks_inv_init W : clerks_init W → clerks_inv W.
Proof.
  intros (Hw & Hc & Hh & Hl). pose proof Hw as (_ & _ & Hcalls).
  constructor; rewrite ?Hc, ?Hh, ?Hl, ?Hcalls; try set_solver; try done.
  by apply reach_init.
Qed.

(** The service moves on. *)
Lemma clerks_inv_service W w' :
  clerks_inv W → lin_step N empty_store pol (service W) w' →
  (∀ id, submits (service W) !! id = None → submits w' !! id = None) →
  clerks_inv (mkClerks w' (client_calls W) (handlers W) (clerk_history W)).
Proof.
  intros Hinv Hs Hnew. destruct (service_calls _ _ Hs Hnew) as (ev & Hev & Hno).
  destruct Hinv as [Hr Hh Ho Hi Hv Hc Ht Ha Hord]. constructor; cbn [service client_calls handlers clerk_history];
    rewrite ?Hev; try done.
  - by eapply reach_step.
  - intros c k id Hk. destruct (Hh c k id Hk) as (cc & Hcc & Hle & Hin). exists cc. set_solver.
  - intros id req [Hin|Hin]%elem_of_app; [by apply Hno in Hin|by eapply Ho].
  - intros c cc out ck Hcc Hres. destruct (Ha c cc out ck Hcc Hres) as (id & r & Hid & Hret & Hout).
    exists id, r. set_solver.
  - intros. eapply precedes_grows; eauto.
Qed.

(** A new call. *)
Lemma clerks_inv_invoke W c ck req :
  clerks_inv W → client_calls W !! c = None → req ≠ KOther →
  clerks_inv (mkClerks (service W) (<[c := start_clerk ck req]> (client_calls W)) (handlers W)
                (HInv c req :: clerk_history W)).
Proof.
  intros [Hr Hh Ho Hi Hv Hc Ht Ha Hord] Hnew Hreq.
  assert (∀ k, handlers W !! (c, k) = None) as Hnone.
  { intros k. apply eq_None_not_Some. intros [id Hid]. apply Hh in Hid as (cc & Hcc & _). congruence. }
  constructor; cbn [service client_calls handlers clerk_history]; try done.
  - intros c' k id Hk. destruct (Hh c' k id Hk) as (cc & Hcc & Hle). exists cc. split; [|done].
    rewrite lookup_insert_ne; congruence.
  - intros c' req' [[= <- <-]|Hin]%elem_of_cons.
    + exists (start_clerk ck req'). by rewrite lookup_insert_eq.
    + destruct (Hv c' req' Hin) as (cc & Hcc & Heq). exists cc. split; [|done].
      rewrite lookup_insert_ne; congruence.
  - intros c' cc [[<- <-]|[Hne Hcc]]%lookup_insert_Some; [split; [apply list_elem_of_here|done]|].
    destruct (Hc c' cc Hcc). set_solver.
  - intros c' out [[=]|Hin]%elem_of_cons. destruct (Ht c' out Hin) as (cc & ck' & Hcc & Hres).
    exists cc, ck'. split; [|done]. rewrite lookup_insert_ne; congruence.
  - intros c' cc out ck' [[<- <-]|[Hne Hcc]]%lookup_insert_Some; [done|by apply Ha].
  - intros a b ca k ida idb Hp [[<- <-]|[Hne Hca]]%lookup_insert_Some Hida Hidb.
    + by rewrite Hnone in Hida.
    + apply precedes_inv in Hp as [Hp|[-> _]]; [by eapply Hord|]. by rewrite Hnone in Hidb.
Qed.

(** A handler takes a request. *)
Lemma clerks_inv_handle W c cc k id w' :
  clerks_inv W → client_calls W !! c = Some cc → (k <= cc_attempt cc)%nat →
  handlers W !! (c, k) = None → submits (service W) !! id = None →
  lin_step N empty_store pol (service W) w' → calls w' = HInv id (cc_req cc) :: calls (service W) →
  clerks_inv (mkClerks w' (client_calls W) (<[(c, k) := id]> (handlers W)) (clerk_history W)).
Proof.
  intros [Hr Hh Ho Hi Hv Hc Ht Ha Hord] Hcc Hk Hnone Hid Hs Hcalls.
  assert (∀ x, handlers W !! x = Some id → False) as Hfresh.
  { intros [c' k'] Hx. apply Hh in Hx as (cc' & _ & _ & Hin).
    apply known_call in Hin as [? Hin]; [congruence|done]. }
  constructor; cbn [service client_calls handlers clerk_history]; rewrite ?Hcalls; try done.
  - by eapply reach_step.
  - intros c' k' id' [[[= <- <-] <-]|[Hne Hx]]%lookup_insert_Some; [exists cc; set_solver|].
    destruct (Hh c' k' id' Hx) as (cc' & Hcc' & Hle & Hin). exists cc'. set_solver.
  - intros id' req [[= -> _]|Hin]%elem_of_cons; [exists (c, k); by rewrite lookup_insert_eq|].
    destruct (Ho id' req Hin) as [x Hx]. exists x. rewrite lookup_insert_ne; [done|congruence].
  - intros x y id' [[<- <-]|[Hx Hx']]%lookup_insert_Some [[<- Hy]|[Hy Hy']]%lookup_insert_Some; subst;
      try done; [by destruct (Hfresh y)|by destruct (Hfresh x)|by eapply Hi].
  - intros c' cc' out ck Hc' Hres. destruct (Ha c' cc' out ck Hc' Hres) as (id' & r & Hid' & Hret & Hout).
    exists id', r. split; [rewrite lookup_insert_ne; [done|congruence]|]. set_solver.
  - intros a b ca k' ida idb Hp Hca Hida Hidb.
    destruct (proj1 (precedes_events _ _ _ Hp)) as [out Hout]. destruct (Ht a out Hout) as (ca' & ck & Hca' & Hres).
    simplify_eq. destruct (Ha a ca out ck Hca Hres) as (ida' & r & Hida' & Hret & _).
    rewrite lookup_insert_ne in Hida by congruence. simplify_eq.
    apply lookup_insert_Some in Hidb as [[_ <-]|[_ Hidb]].
    + by exists [], (calls (service W)), (cc_req cc), r.
    + apply (precedes_grows [_]). by eapply Hord.
Qed.

(** An iteration of a clerk's loop. *)
Lemma clerks_inv_iterate W c cc reply :
  clerks_inv W → client_calls W !! c = Some cc → cc_result cc = None →
  let cc' := clerk_iteration reply cc in
  (∀ out, reply ≫= clerk_result (Nat.eqb (cc_attempt cc) 0) = Some out →
     ∃ id r, handlers W !! (c, cc_attempt cc) = Some id ∧ HRet id r ∈ calls (service W) ∧
             clerk_result (Nat.eqb (cc_attempt cc) 0) r = Some out) →
  clerks_inv (mkClerks (service W) (<[c := cc']> (client_calls W)) (handlers W)
                (clerk_events c cc' ++ clerk_history W)).
Proof.
  intros [Hr Hh Ho Hi Hv Hc Ht Ha Hord] Hcc Hnone cc' Hreply.
  destruct (iteration_req reply cc) as (Hreq & _ & Hle). fold cc' in Hreq, Hle.
  assert (∀ e, e ∈ clerk_events c cc' → ∃ out ck, cc_result cc' = Some (out, ck) ∧ e = HRet c out) as Hev.
  { unfold clerk_events. intros e. destruct (cc_result cc') as [[out ck]|]; set_solver. }
  constructor; cbn [service client_calls handlers clerk_history]; try done.
  - intros c' k id Hk. destruct (Hh c' k id Hk) as (cc0 & Hcc0 & Hle0 & Hin).
    destruct (decide (c' = c)) as [->|Hne]; [|exists cc0; by rewrite lookup_insert_ne].
    simplify_eq. exists cc'. rewrite lookup_insert_eq, Hreq. split_and!; [done|lia|done].
  - intros c' req [Hin|Hin]%elem_of_app; [by apply Hev in Hin as (? & ? & _ & ?)|].
    destruct (Hv c' req Hin) as (cc0 & Hcc0 & Heq).
    destruct (decide (c' = c)) as [->|Hne]; [|exists cc0; by rewrite lookup_insert_ne].
    simplify_eq. exists cc'. by rewrite lookup_insert_eq.
  - intros c' cc0 [[<- <-]|[Hne Hc0]]%lookup_insert_Some.
    + rewrite Hreq. destruct (Hc c cc Hcc). set_solver.
    + destruct (Hc c' cc0 Hc0). set_solver.
  - intros c' out [Hin|Hin]%elem_of_app.
    + apply Hev in Hin as (out' & ck & Hres & [= -> ->]). exists cc', ck. by rewrite lookup_insert_eq.
    + destruct (Ht c' out Hin) as (cc0 & ck & Hc0 & Hres). exists cc0, ck. split; [|done].
      rewrite lookup_insert_ne; congruence.
  - intros c' cc0 out ck [[<- <-]|[Hne Hc0]]%lookup_insert_Some Hres; [|by eapply Ha].
    destruct (iteration_result _ _ _ _ Hres) as [Hat Hout]. fold cc' in Hat. rewrite Hat. by apply Hreply.
  - intros a b ca k ida idb Hp Hca Hida Hidb.
    assert (precedes (clerk_history W) a b) as Hp'.
    { unfold clerk_events in Hp. destruct (cc_result cc') as [[out ck]|]; [|done]. by apply precedes_ret in Hp. }
    destruct (proj1 (precedes_events _ _ _ Hp')) as [out Hout].
    apply Ht in Hout as (ca' & ck & Hca' & Hres).
    rewrite lookup_insert_ne in Hca by congruence. exact (Hord _ _ _ _ _ _ Hp' Hca Hida Hidb).
Qed.

Lemma clerks_step_inv W W' : clerks_inv W → clerks_step W W' → clerks_inv W'.
Proof.
  intros Hinv Hs.
  destruct Hs as [w' Hs Hnew|c ck req Hnew Hreq _|c cc k id w' Hcc Hk Hnone Hid (term & Hst & ->)
    |c cc Hcc Hnone|c cc term Hcc Hnone _|c cc id submit reply Hcc Hnone Hid Hsub Hreply cc'].
  - by apply clerks_inv_service.
  - by apply clerks_inv_invoke.
  - eapply clerks_inv_handle; [done..| |done]. by apply w_submit.
  - by apply (clerks_inv_iterate W c cc None).
  - pose proof (clerks_inv_iterate W c cc (clerk_handler (cc_req cc) (ErrWrongLeader, None)) Hinv Hcc Hnone) as H.
    unfold clerk_events, clerk_iteration in *. rewrite handler_wrong_leader in *. by apply H.
  - apply clerks_inv_iterate; [done..|]. intros out Hout. exists id.
    assert (∃ err res, submit = (err, res) ∧ ((err = OK ∧ ∃ r, res = Some r ∧ HRet id r ∈ calls (service W)) ∨
      (err = ErrWrongLeader ∧ res = None))) as (err & res & -> & Hres).
    { destruct Hsub as [op index err res Hd|req Hd]; [|by exists ErrWrongLeader, None; auto].
      exists err, res. split; [done|]. by eapply submit_result, Hd; apply Hinv. }
    destruct Hres as [(-> & r & -> & Hret)|[-> ->]].
    + apply handler_answer in Hreply as ->. by exists r.
    + rewrite <-Hreply, handler_wrong_leader in Hout. done.
Qed.

Lemma clerks_reachable_inv W : reachable clerks_init clerks_step W → clerks_inv W.
Proof.
  revert W. apply reachable_invariant; [apply clerks_inv_init|].
  intros W W' _. apply clerks_step_inv.
Qed.

(** ** The point at which a call takes effect *)

#[local] Existing Instance KVRes_eq_dec.

(** The request whose handler made a Submit. *)
Definition owner (W : Clerks) (id : Z) : option (Z * nat) :=
  fst <$> head (filter (λ x, x.2 = id) (map_to_list (handlers W))).

Lemma owner_Some W id x : owner W id = Some x → handlers W !! x = Some id.
Proof.
  unfold owner. intros ([y id'] & Hy & ->)%fmap_Some.
  apply head_Some_elem_of, list_elem_of_filter in Hy as [Hid Hy]. simpl in *. subst id'.
  by apply elem_of_map_to_list.
Qed.

Lemma owner_handled W id x : clerks_inv W → handlers W !! x = Some id → owner W id = Some x.
Proof.
  intros Hinv Hx. destruct (owner W id) as [y|] eqn:Hy.
  - apply owner_Some in Hy. f_equal. by eapply (ci_inj W Hinv).
  - exfalso. unfold owner in Hy. apply fmap_None in Hy. apply head_None in Hy.
    assert ((x, id) ∈ filter (λ x, x.2 = id) (map_to_list (handlers W))) as Hin.
    { apply list_elem_of_filter. split; [done|]. by apply elem_of_map_to_list. }
    rewrite Hy in Hin. by apply elem_of_nil in Hin.
Qed.

(** An entry that changed the store. *)
Definition is_performed (x : Z * KVReq * KVRes) : Prop := x.2 = KPutReply (mkPutReply OK).

#[local] Instance is_performed_dec x : Decision (is_performed x).
Proof. unfold is_performed. apply _. Defined.

(** Some request of the call was performed. *)
Definition effective (W : Clerks) (lin : Lin) (c : Z) : Prop :=
  Exists (λ x, is_performed x ∧ fst <$> owner W x.1.1 = Some c) lin.

#[local] Instance effective_dec W lin c : Decision (effective W lin c).
Proof. unfold effective. apply _. Defined.

(** The call [c] takes effect at the entry of its request that was performed, or
    at the one that was answered if none was. *)
Definition clerk_point (W : Clerks) (lin : Lin) (x : Z * KVReq * KVRes) : option (Z * KVReq * ClerkRes) :=
  '(c, k) ← owner W x.1.1;
  cc ← client_calls W !! c;
  let out := match cc_result cc with Some (out, _) => out | None => RPut OK end in
  if decide (is_performed x ∨ (k = cc_attempt cc ∧ is_Some (cc_result cc) ∧ ¬ effective W lin c))
  then Some (c, cc_req cc, out) else None.

Definition clerk_lin (W : Clerks) (lin : Lin) : ClerkLin := omap (clerk_point W lin) lin.

Section Explain.
Context (W : Clerks) (Hinv : clerks_inv W) (Hknown : versions_known (clerk_history W)).
Context (lin : Lin) (Hlin : linearizes empty_store (calls (service W)) lin) (Hlen : len lin < 2 ^ 64).

(** The request of an entry. *)
Lemma entry_owner p id req res :
  lin !! p = Some (id, req, res) →
  ∃ c k cc, owner W id = Some (c, k) ∧ handlers W !! (c, k) = Some id ∧
    client_calls W !! c = Some cc ∧ cc_req cc = req ∧ (k <= cc_attempt cc)%nat.
Proof.
  intros Hp. pose proof (list_elem_of_lookup_2 _ _ _ Hp) as Hin.
  apply (lin_made _ _ _ Hlin) in Hin. destruct (ci_owner W Hinv id req Hin) as [[c k] Hx].
  destruct (ci_handled W Hinv c k id Hx) as (cc & Hcc & Hk & Hin').
  destruct (sound_world N pol (service W) Hpol (ci_world W Hinv)) as (pol' & Hn & Hr).
  exists c, k, cc. split_and!; [by apply owner_handled|done|done| |done].
  by eapply (calls_unique N pol' (service W) Hn Hr).
Qed.

(** The answer that a call has returned. *)
Lemma answered_entry c cc out ck :
  client_calls W !! c = Some cc → cc_result cc = Some (out, ck) →
  ∃ p id r, lin !! p = Some (id, cc_req cc, r) ∧ handlers W !! (c, cc_attempt cc) = Some id ∧
    clerk_result (Nat.eqb (cc_attempt cc) 0) r = Some out.
Proof.
  intros Hcc Hres. destruct (ci_answered W Hinv c cc out ck Hcc Hres) as (id & r & Hid & Hret & Hout).
  destruct (lin_returned _ _ _ Hlin _ _ Hret) as [req Hin].
  apply list_elem_of_lookup_1 in Hin as [p Hp].
  destruct (entry_owner p id req r Hp) as (c' & k & cc' & _ & Hid' & Hcc' & Hreq & _).
  pose proof (ci_inj W Hinv _ _ _ Hid Hid') as [= <- _]. simplify_eq.
  by exists p, id, r.
Qed.

(** A request comes after the answers that its client may have known. *)
Lemma answered_before a b k p q id idb req r resb cc out ck :
  precedes (clerk_history W) a b → client_calls W !! a = Some cc → cc_result cc = Some (out, ck) →
  handlers W !! (a, cc_attempt cc) = Some id → handlers W !! (b, k) = Some idb →
  lin !! p = Some (id, cc_req cc, r) → lin !! q = Some (idb, req, resb) → (p < q)%nat.
Proof.
  intros Hab Hcc Hres Hid Hidb Hp Hq.
  pose proof (ci_order W Hinv a b cc k id idb Hab Hcc Hid Hidb) as Hprec.
  by eapply (lin_order _ _ _ Hlin id idb).
Qed.

#[local] Notation at_ := (store_at lin).
#[local] Notation Hlegal := (lin_legal _ _ _ Hlin).

(** A version that the clerk knows is not ahead of the store. *)
Lemma version_known p id c k a res :
  lin !! p = Some (id, KPut a, res) → handlers W !! (c, k) = Some id →
  0 <= put_Version a <= version (at_ p) (put_Key a).
Proof.
  intros Hp Hid. destruct (entry_owner p id _ res Hp) as (c' & k' & cc & _ & Hid' & Hcc & Hreq & _).
  pose proof (ci_inj W Hinv _ _ _ Hid Hid') as [= <- <-].
  destruct (ci_called W Hinv c cc Hcc) as [Hin _]. rewrite Hreq in Hin.
  apply list_elem_of_split in Hin as (newer & older & Hh).
  pose proof (lookup_lt_Some _ _ _ Hp) as Hlt.
  pose proof (store_at_version lin Hlegal Hlen p (put_Key a) ltac:(lia)) as [_ Hv].
  (* the answer [r] to an earlier call of [c0] is at [p0] *)
  assert (∀ c0 req0 out, HInv c0 req0 ∈ older → HRet c0 out ∈ older →
    ∃ p0 id0 r first, lin !! p0 = Some (id0, req0, r) ∧ (p0 < p)%nat ∧ clerk_result first r = Some out) as Hpast.
  { intros c0 req0 out Hi Ho.
    assert (precedes (clerk_history W) c0 c) as Hprec by (by exists newer, older, (KPut a), out).
    destruct (ci_invoked W Hinv c0 req0) as (cc0 & Hcc0 & <-); [rewrite Hh; set_solver|].
    destruct (ci_returned W Hinv c0 out) as (cc1 & ck & Hcc1 & Hout); [rewrite Hh; set_solver|].
    simplify_eq. destruct (answered_entry c0 cc0 out ck Hcc0 Hout) as (p0 & id0 & r & Hp0 & Hid0 & Hr).
    exists p0, id0, r, (Nat.eqb (cc_attempt cc0) 0). split_and!; [done| |done].
    by eapply (answered_before c0 c). }
  rewrite Hh in Hknown. apply versions_known_at in Hknown.
  destruct Hknown as [->|[(c0 & value & Hi & Ho)|(c0 & value & Hi & Ho)]]; [lia|..];
    destruct (Hpast _ _ _ Hi Ho) as (p0 & id0 & r & first & Hp0 & Hlt0 & Hout).
  - pose proof (store_at_answer lin Hlegal p0 _ _ _ Hp0) as Hans.
    destruct (DoOp_is_kvsrv (at_ p0)) as [HG _]. rewrite HG in Hans. simpl in Hans. subst r. simpl in Hout.
    pose proof (store_at_mono lin Hlegal Hlen p0 p (put_Key a) ltac:(lia)).
    pose proof (store_at_version lin Hlegal Hlen p0 (put_Key a) ltac:(lia)) as [_ Hv0].
    assert (version (at_ p0) (put_Key a) = put_Version a); [|lia].
    unfold version, KVServer_Get in *. simpl in Hout.
    destruct (store (at_ p0) !! put_Key a); by injection Hout as _ <-.
  - destruct r as [|r|]; [by simpl in Hout; case_decide| |done].
    assert (r = mkPutReply OK) as ->.
    { simpl in Hout. case_decide; [|done]. injection Hout as Hout. unfold putResult in Hout.
      destruct r as [e]. simpl in *. case_decide; [by destruct first|by subst]. }
    pose proof (performed_at lin Hlegal Hlen p0 _ _ Hp0) as [_ Hnext]. cbn [put_Key put_Version] in Hnext.
    pose proof (store_at_mono lin Hlegal Hlen (S p0) p (put_Key a) ltac:(lia)).
    pose proof (store_at_version lin Hlegal Hlen (S p0) (put_Key a) ltac:(lia)) as [_ Hv0]. lia.
Qed.

(** So the store performs a Put, or is past its version. *)
Lemma put_answer p id c k a res :
  lin !! p = Some (id, KPut a, res) → handlers W !! (c, k) = Some id →
  res = KPutReply (mkPutReply OK) ∨
  (res = KPutReply (mkPutReply ErrVersion) ∧ put_Version a < version (at_ p) (put_Key a) ∧
   at_ (S p) = at_ p).
Proof.
  intros Hp Hid. pose proof (version_known p id c k a res Hp Hid) as Hv.
  pose proof (store_at_step lin Hlegal p _ _ _ Hp) as Hans.
  destruct (DoOp_is_kvsrv (at_ p)) as [_ HP]. rewrite HP, Put_cas in Hans.
  destruct (put_Version a =? version (at_ p) (put_Key a)) eqn:He; bool_to_prop.
  - injection Hans as _ <-. by left.
  - rewrite decide_True in Hans by (apply version_exists; lia). injection Hans as <- <-.
    right. split_and!; [done|lia|done].
Qed.

(** What was performed was so before the call was answered. *)
Lemma performed_before_answer p q id ida c k cc a res out ck :
  lin !! q = Some (id, KPut a, KPutReply (mkPutReply OK)) → handlers W !! (c, k) = Some id →
  client_calls W !! c = Some cc → cc_result cc = Some (out, ck) →
  handlers W !! (c, cc_attempt cc) = Some ida → lin !! p = Some (ida, KPut a, res) → (q <= p)%nat.
Proof.
  intros Hq Hid Hcc Hres Hida Hp. destruct (put_answer p ida c _ a res Hp Hida) as [->|(-> & Hv & _)].
  - by rewrite (performed_unique lin Hlegal Hlen p q ida id a).
  - pose proof (lookup_lt_Some _ _ _ Hq). pose proof (lookup_lt_Some _ _ _ Hp).
    pose proof (performed_at lin Hlegal Hlen q _ _ Hq) as [Hq1 _].
    destruct (decide (q <= p)%nat); [done|].
    pose proof (store_at_mono lin Hlegal Hlen p q (put_Key a) ltac:(lia)). lia.
Qed.

(** What a point says of its entry. *)
Lemma clerk_point_owner p id req res y :
  lin !! p = Some (id, req, res) → clerk_point W lin (id, req, res) = Some y →
  ∃ c k cc out, y = (c, req, out) ∧ owner W id = Some (c, k) ∧ handlers W !! (c, k) = Some id ∧
    client_calls W !! c = Some cc ∧ cc_req cc = req ∧ (k <= cc_attempt cc)%nat ∧
    out = match cc_result cc with Some (out, _) => out | None => RPut OK end ∧
    (is_performed (id, req, res) ∨ k = cc_attempt cc ∧ is_Some (cc_result cc) ∧ ¬ effective W lin c).
Proof.
  intros Hp Hy. destruct (entry_owner p id req res Hp) as (c & k & cc & Ho & Hid & Hcc & <- & Hk).
  unfold clerk_point in Hy. cbn [fst snd] in Hy. rewrite Ho in Hy. cbn in Hy. rewrite Hcc in Hy. cbn in Hy.
  case_decide; [|done]. injection Hy as <-. exists c, k, cc. eexists. by split_and!.
Qed.

(** A performed entry is a Put. *)
Lemma performed_put p id req :
  lin !! p = Some (id, req, KPutReply (mkPutReply OK)) → ∃ a, req = KPut a.
Proof.
  intros Hp. pose proof (store_at_answer lin Hlegal p _ _ _ Hp) as Hans. destruct req; [done|eauto|done].
Qed.

(** Entries at which no call takes effect leave the store as it is. *)
Lemma no_point_step p x :
  lin !! p = Some x → clerk_point W lin x = None → at_ (S p) = at_ p.
Proof.
  destruct x as [[id req] res]. intros Hp Hy.
  destruct (entry_owner p id req res Hp) as (c & k & cc & Ho & Hid & Hcc & Hreq & Hk).
  unfold clerk_point in Hy. cbn [fst snd] in Hy. rewrite Ho in Hy. cbn in Hy. rewrite Hcc in Hy. cbn in Hy.
  case_decide as Hd; [done|]. destruct req as [args|args|].
  - by rewrite (store_at_S lin p _ Hp).
  - destruct (put_answer p id c k args res Hp Hid) as [->|(_ & _ & H)]; [|done].
    exfalso. apply Hd. by left.
  - by destruct (ci_called W Hinv c cc Hcc).
Qed.

(** At the others the clerk returns what it may. *)
Lemma point_sees p id req res c out :
  lin !! p = Some (id, req, res) → clerk_point W lin (id, req, res) = Some (c, req, out) →
  clerk_sees res out ∧ ((∃ a, req = KPut a) → out ≠ RPut ErrNoKey).
Proof.
  intros Hp Hy. destruct (clerk_point_owner p id req res _ Hp Hy)
    as (c' & k & cc & out' & [= <- <-] & Ho & Hid & Hcc & Hreq & Hk & -> & Hd).
  destruct (cc_result cc) as [[out ck]|] eqn:Hres.
  2: { destruct Hd as [->|(_ & [? [=]] & _)]. split; [by left|done]. }
  destruct (answered_entry c cc out ck Hcc Hres) as (p' & id' & r & Hp' & Hid' & Hout). rewrite Hreq in Hp'.
  (* the answer is that of the entry, unless another request was performed *)
  assert ((k = cc_attempt cc → p' = p ∧ r = res) ∧
    (k ≠ cc_attempt cc → Nat.eqb (cc_attempt cc) 0 = false ∧ res = KPutReply (mkPutReply OK))) as [Hsame Hother].
  { split.
    - intros ->. rewrite Hid in Hid'. injection Hid' as <-.
      pose proof (lin_once _ _ _ Hlin _ _ _ _ _ _ _ Hp Hp') as <-. by simplify_eq.
    - intros Hne. destruct Hd as [Hd|[? _]]; [|done]. split; [apply Nat.eqb_neq; lia|done]. }
  destruct req as [args|args|].
  - pose proof (store_at_answer lin Hlegal p _ _ _ Hp) as Hans.
    destruct (decide (k = cc_attempt cc)) as [He|Hne]; [|by destruct (Hother Hne) as [_ ->]].
    destruct (Hsame He) as [-> ->]. simpl in Hans. subst res. simpl in Hout.
    case_decide; [|done]. injection Hout as <-. split; [done|]. by intros [? [=]].
  - pose proof clerk_result_put as Hcases.
    destruct (decide (k = cc_attempt cc)) as [He|Hne].
    + destruct (Hsame He) as [-> ->].
      destruct (put_answer p id c k args res Hp Hid) as [->|(-> & _)].
      * destruct (Hcases _ OK _ ltac:(by left) Hout) as (_ & _ & H). rewrite H by done. split; [by left|done].
      * destruct (Hcases _ ErrVersion _ ltac:(by right) Hout) as ([-> | ->] & _); (split; [simpl; auto|done]).
    + destruct (Hother Hne) as [Hf ->]. rewrite Hf in Hout.
      destruct (put_answer p' id' c _ args r Hp' Hid') as [->|(-> & _)].
      * destruct (Hcases false OK _ ltac:(by left) Hout) as (_ & _ & H). rewrite H by done. split; [by left|done].
      * destruct (Hcases false ErrVersion _ ltac:(by right) Hout) as (_ & H & _). rewrite H by done.
        split; [simpl; auto|done].
  - by destruct (ci_called W Hinv c cc Hcc).
Qed.

(** ** The order of the points explains the history *)

Lemma clerk_lin_legal n : ∀ p, (n + p = length lin)%nat →
  clerk_legal (at_ p) (omap (clerk_point W lin) (drop p lin)).
Proof.
  induction n as [|n IH]; intros p Hn; [by rewrite drop_ge by lia|].
  destruct (lookup_lt_is_Some_2 lin p) as [x Hp]; [lia|]. specialize (IH (S p) ltac:(lia)).
  rewrite (drop_S _ x p Hp). cbn [omap list_omap].
  destruct (clerk_point W lin x) as [y|] eqn:Hy; [|by rewrite <-(no_point_step p x Hp Hy)].
  destruct x as [[id req] res].
  destruct (clerk_point_owner p id req res y Hp Hy) as (c & k & cc & out & -> & _).
  cbn [clerk_legal]. rewrite (store_at_step lin Hlegal p _ _ _ Hp). cbn [fst snd].
  split; [|done]. by apply (point_sees p id req res c out).
Qed.

(** A call has one point. *)
Lemma clerk_point_once p q x x' c req req' out out' :
  lin !! p = Some x → lin !! q = Some x' →
  clerk_point W lin x = Some (c, req, out) → clerk_point W lin x' = Some (c, req', out') → p = q.
Proof.
  destruct x as [[id rq] res], x' as [[id' rq'] res']. intros Hp Hq Hx Hx'.
  destruct (clerk_point_owner p id rq res _ Hp Hx) as (c1 & k & cc & o & [= <- <- <-] & Ho & Hid & Hcc & Hreq & _ & _ & Hd).
  destruct (clerk_point_owner q id' rq' res' _ Hq Hx') as (c2 & k' & cc' & o' & [= <- <- <-] & Ho' & Hid' & Hcc' & Hreq' & _ & _ & Hd').
  rewrite Hcc in Hcc'. injection Hcc' as <-. rewrite Hreq in Hreq'. subst req'.
  assert (∀ p0 id0 k0 res0, lin !! p0 = Some (id0, req, res0) → owner W id0 = Some (c, k0) →
    is_performed (id0, req, res0) → effective W lin c) as Heff.
  { intros p0 id0 k0 res0 Hp0 Ho0 Hperf. apply list.Exists_exists. exists (id0, req, res0).
    split; [by eapply list_elem_of_lookup_2|]. split; [done|]. simpl. by rewrite Ho0. }
  destruct Hd as [Hd|(-> & _ & Hno)], Hd' as [Hd'|(-> & _ & Hno')].
  - unfold is_performed in *. simpl in Hd, Hd'. subst res res'. destruct (performed_put p id req Hp) as [a ->].
    by eapply (performed_unique lin Hlegal Hlen).
  - destruct Hno'. by eapply (Heff p).
  - destruct Hno. by eapply (Heff q).
  - rewrite Hid in Hid'. injection Hid' as <-. by eapply (lin_once _ _ _ Hlin).
Qed.

(** A call that has returned has a point, not later than its answer. *)
Lemma clerk_point_returned c out :
  HRet c out ∈ clerk_history W →
  ∃ cc ck p x, client_calls W !! c = Some cc ∧ cc_result cc = Some (out, ck) ∧
    lin !! p = Some x ∧ clerk_point W lin x = Some (c, cc_req cc, out) ∧
    ∃ pa id r, (p <= pa)%nat ∧ lin !! pa = Some (id, cc_req cc, r) ∧
      handlers W !! (c, cc_attempt cc) = Some id.
Proof.
  intros Hret. destruct (ci_returned W Hinv c out Hret) as (cc & ck & Hcc & Hres).
  destruct (answered_entry c cc out ck Hcc Hres) as (pa & id & r & Hpa & Hid & _).
  pose proof (owner_handled W id _ Hinv Hid) as Ho.
  exists cc, ck. destruct (decide (effective W lin c)) as [He|He].
  - pose proof He as ([[id' req] res] & Hin & Hperf & Ho')%list.Exists_exists. unfold is_performed in Hperf.
    simpl in Hperf, Ho'. subst res. apply list_elem_of_lookup_1 in Hin as [p Hp].
    destruct (entry_owner p id' req _ Hp) as (c' & k & cc' & Ho2 & Hid' & Hcc' & Hreq & Hk).
    rewrite Ho2 in Ho'. injection Ho' as ->. rewrite Hcc in Hcc'. injection Hcc' as <-. subst req.
    exists p, (id', cc_req cc, KPutReply (mkPutReply OK)). split_and!; [done..| |].
    + unfold clerk_point. cbn [fst snd]. rewrite Ho2. cbn. rewrite Hcc. cbn.
      rewrite decide_True by (by left). by rewrite Hres.
    + exists pa, id, r. split_and!; [|done|done].
      destruct (performed_put p id' _ Hp) as [a Ha]. rewrite Ha in Hp, Hpa.
      by eapply (performed_before_answer pa p id' id c k cc a r out ck).
  - exists pa, (id, cc_req cc, r). split_and!; [done..| |by exists pa, id, r].
    unfold clerk_point. cbn [fst snd]. rewrite Ho. cbn. rewrite Hcc. cbn.
    rewrite decide_True by (right; split_and!; [done|by rewrite Hres|done]). by rewrite Hres.
Qed.

Lemma clerk_lin_explains : clerk_explains (clerk_history W) (clerk_lin W lin).
Proof.
  unfold clerk_lin. constructor.
  - apply (clerk_lin_legal (length lin) 0). lia.
  - intros i j c req req' out out' (p & x & Hp & Hx & ->)%omap_lookup_from (q & x' & Hq & Hx' & ->)%omap_lookup_from.
    by rewrite (clerk_point_once p q x x' c req req' out out').
  - intros c req out ([[id rq] res] & Hin & Hx)%list_elem_of_omap. apply list_elem_of_lookup_1 in Hin as [p Hp].
    destruct (clerk_point_owner p id rq res _ Hp Hx) as (c1 & k & cc & o & [= <- <- <-] & _ & _ & Hcc & <- & _).
    by apply (ci_called W Hinv).
  - intros c out (cc & ck & p & x & _ & _ & Hp & Hx & _)%clerk_point_returned. exists (cc_req cc).
    apply list_elem_of_omap. exists x. split; [by eapply list_elem_of_lookup_2|done].
  - intros c req out out' ([[id rq] res] & Hin & Hx)%list_elem_of_omap Hret.
    apply list_elem_of_lookup_1 in Hin as [p Hp].
    destruct (clerk_point_owner p id rq res _ Hp Hx) as (c1 & k & cc & o & [= <- <- <-] & _ & _ & Hcc & _ & _ & -> & _).
    destruct (ci_returned W Hinv c out' Hret) as (cc' & ck & Hcc' & Hres). simplify_eq. by rewrite Hres.
  - intros a b i j req req' out out' Hab (p & x & Hp & Hx & ->)%omap_lookup_from (q & y & Hq & Hy & ->)%omap_lookup_from.
    apply (omap_length_lt _ _ _ _ x _ Hp Hx).
    destruct (proj1 (precedes_events _ _ _ Hab)) as [o Ho].
    destruct (clerk_point_returned a o Ho) as (cc & ck & p' & x' & Hcc & Hres & Hp' & Hx' & pa & ida & r & Hle & Hpa & Hida).
    rewrite (clerk_point_once p p' x x' a req (cc_req cc) out o Hp Hp' Hx Hx').
    destruct y as [[idb rqb] resb].
    destruct (clerk_point_owner q idb rqb resb _ Hq Hy) as (b' & k & cb & ob & [= <- <- <-] & _ & Hidb & _).
    pose proof (answered_before a b k pa q ida idb _ r resb cc o ck Hab Hcc Hres Hida Hidb Hpa Hq). lia.
Qed.

(** No Put returns ErrNoKey. *)
Lemma clerk_lin_no_ErrNoKey : Forall no_ErrNoKey (clerk_operations (clerk_lin W lin)).
Proof.
  apply list.Forall_forall. intros o ([[c req] out] & Hin & Ho)%list_elem_of_omap.
  apply list_elem_of_omap in Hin as ([[id rq] res] & Hin & Hx). apply list_elem_of_lookup_1 in Hin as [p Hp].
  pose proof Hx as Hx2.
  apply (clerk_point_owner p) in Hx as (c1 & k & cc & o1 & [= <- <- <-] & _); [|done].
  destruct (point_sees p id req res c out Hp Hx2) as [_ Hne].
  destruct req as [args|args|], out as [v n e|e]; try done; injection Ho as <-; [done|].
  intros _ He. simpl in He. apply Hne; [by eexists|by rewrite He].
Qed.

End Explain.

(** The model of the tests accepts what the clerks see. *)
Lemma clerk_sees_accepted args kv err :
  clerk_sees (KV_DoOp (KPut args) kv).2 (RPut err) → err ≠ ErrNoKey →
  accepts (abs (put_Key args) kv) [put_op args err] =
    Some (abs (put_Key args) (KVServer_Put args kv).1).
Proof.
  destruct (DoOp_is_kvsrv kv) as [_ HP]. rewrite HP. intros Hsee Hne. simpl in Hsee.
  destruct (KVServer_Put args kv) as [kv' r] eqn:Hput. cbn [fst snd] in *.
  destruct (decide (pr_Err r = OK)) as [Hok|Hok].
  - eapply step_performed; [done..|]. destruct Hsee as [->|[-> _]]; auto.
  - rewrite Put_cas in Hput. destruct (_ =? _) eqn:He; [by injection Hput as _ <-|].
    bool_to_prop. injection Hput as <- <-. simpl in Hsee, Hok.
    apply step_failed; [done|]. destruct Hsee as [->|[-> _]]; [|by right].
    by case_decide; [left|].
Qed.

Lemma accepts_cons st o h : accepts st (o :: h) = accepts st [o] ≫= λ st', accepts st' h.
Proof. apply (accepts_app st [o] h). Qed.

Lemma clerk_legal_accepted k clin : ∀ kv,
  clerk_legal kv clin → Forall no_ErrNoKey (clerk_operations clin) →
  is_Some (accepts (abs k kv) (filter (on_key k) (clerk_operations clin))).
Proof.
  induction clin as [|[[c req] out] clin IH]; intros kv Hl Hn; [by eexists|].
  cbn [clerk_legal] in Hl. destruct Hl as [Hsee Hl]. unfold clerk_operations in *. cbn [omap list_omap] in *.
  destruct (DoOp_is_kvsrv kv) as [HG HP].
  destruct req as [args|args|], out as [v n e|e]; unfold clerk_operation in *; cbn [fst snd] in *;
    rewrite ?HG, ?HP in Hl, Hsee; try (exfalso; exact Hsee).
  - apply Forall_cons_1 in Hn as [_ Hn]. simpl in Hsee, Hl.
    destruct Hsee as (-> & -> & ->). rewrite filter_cons. case_decide as Hk; [|by apply IH].
    unfold on_key in Hk. simpl in Hk. subst k. rewrite accepts_cons.
    replace (mkGetReply _ _ _) with (KVServer_Get args kv) by (by destruct (KVServer_Get args kv)).
    rewrite step_get. by apply IH.
  - apply Forall_cons_1 in Hn as [Hne Hn]. cbn [fst] in Hl.
    rewrite filter_cons. case_decide as Hk; unfold on_key in Hk; simpl in Hk.
    + subst k. rewrite accepts_cons, clerk_sees_accepted; [by apply IH|by rewrite HP|by apply Hne].
    + specialize (IH _ Hl Hn). by rewrite abs_other in IH.
Qed.

(** C1. The replicated key/value store is linearizable for the clients of its
    clerks: whatever servers the clerks try, whichever requests and replies are
    lost or late, however elections, crashes and restarts interleave with the calls
    of all clients, there is one order of the calls of Get and Put, each taking
    effect at most once and between its invocation and its return, in which every
    value, version and error returned is what the store answers - with ErrMaybe
    for a Put that was or was not performed - and whose operations on each key the
    model of the tests accepts, provided that clients ask for versions that they
    can know.  This is so in every run when the services take no snapshots
    (maxraftstate is -1), and with snapshots in the runs in which every service
    receives its messages in order ([in_order]), which the code does not see to. *)
Theorem clerks_linearizable W :
  reachable clerks_init clerks_step W → versions_known (clerk_history W) →
  len (calls (service W)) < 2 ^ 64 →
  ∃ clin, clerk_explains (clerk_history W) clin ∧
    ∀ k, is_Some (accepts KvModel_Init (filter (on_key k) (clerk_operations clin))).
Proof.
  intros Hr Hknown Hlen. pose proof (clerks_reachable_inv W Hr) as Hinv.
  destruct (sound_world N pol (service W) Hpol (ci_world W Hinv)) as (pol' & Hn & Hr').
  destruct (world_linearizable N empty_store pol' Hn (service W) Hr') as [lin Hlin].
  pose proof (linearizes_length _ _ Hlin).
  assert (clerk_explains (clerk_history W) (clerk_lin W lin)) as Hex by (apply clerk_lin_explains; [done..|lia]).
  exists (clerk_lin W lin). split; [done|]. intros k.
  rewrite <-(empty_store_abs k). apply clerk_legal_accepted; [apply Hex|].
  apply clerk_lin_no_ErrNoKey; [done..|lia].
Qed.

End Clerks.

(** ** Executing clerks *)

Section ClerksRun.
Context `{!Gob (gmap string valueVersion)} `{!GobRegistered (gmap string valueVersion)}.
Context `{!Gob (RaftVal (Op KVReq))} `{!GobRegistered (RaftVal (Op KVReq))}.
Context (N : nat) (pol : Policy (Req:=KVReq)) `{!PolicyDec pol}.

#[local] Existing Instance KVReq_eq_dec.

(** [KService] lets the service go on, the others are of the call [c]. *)
Inductive ClerkChoice :=
| KService (ch : LinChoice (Req:=KVReq))
| KInvoke (c : Z) (ck : Clerk) (req : KVReq)
| KHandle (c : Z) (k : nat) (id : Z)
| KLost (c : Z)
| KReply (c : Z).

Definition is_submit (ch : LinChoice (Req:=KVReq)) : bool :=
  match ch with LSubmit _ _ _ => true | _ => false end.

Definition clerks_perform (ch : ClerkChoice) (W : Clerks) : option Clerks :=
  match ch with
  | KService ch =>
      if is_submit ch then None
      else w' ← lin_perform N empty_store pol ch (service W);
        Some (mkClerks w' (client_calls W) (handlers W) (clerk_history W))
  | KInvoke c ck req =>
      if decide (client_calls W !! c = None ∧ req ≠ KOther ∧ 0 <= ck_leader ck < len (ck_servers ck)) then
        Some (mkClerks (service W) (<[c := start_clerk ck req]> (client_calls W)) (handlers W)
                (HInv c req :: clerk_history W))
      else None
  | KHandle c k id =>
      cc ← client_calls W !! c;
      if decide ((k <= cc_attempt cc)%nat ∧ handlers W !! (c, k) = None ∧
                 submits (service W) !! id = None) then
        match GetState (servers (cluster (replicas (service W))) (addressee cc k)) with
        | (term, true) =>
            Some (mkClerks (mkWorld (replicas (service W))
                      (<[id := KState (addressee cc k) (cc_req cc) term]> (submits (service W)))
                      (HInv id (cc_req cc) :: calls (service W)))
                    (client_calls W) (<[(c, k) := id]> (handlers W)) (clerk_history W))
        | _ => None
        end
      else None
  | KLost c =>
      cc ← client_calls W !! c;
      match cc_result cc with
      | None => Some (mkClerks (service W) (<[c := clerk_iteration None cc]> (client_calls W))
                        (handlers W) (clerk_history W))
      | Some _ => None
      end
  | KReply c =>
      cc ← client_calls W !! c;
      id ← handlers W !! (c, cc_attempt cc);
      match cc_result cc, submits (service W) !! id with
      | None, Some (KDone op index err res) =>
          reply ← clerk_handler (cc_req cc) (err, res);
          let cc' := clerk_iteration (Some reply) cc in
          Some (mkClerks (service W) (<[c := cc']> (client_calls W)) (handlers W)
                  (clerk_events c cc' ++ clerk_history W))
      | _, _ => None
      end
  end.

Definition clerks_perform_all (chs : list ClerkChoice) (W : Clerks) : option Clerks :=
  foldl (λ oW ch, W ← oW; clerks_perform ch W) (Some W) chs.

(** Only [LSubmit] makes a call. *)
Lemma lin_perform_keeps ch w w' :
  is_submit ch = false → lin_perform N empty_store pol ch w = Some w' →
  ∀ id, submits w !! id = None → submits w' !! id = None.
Proof.
  intros Hs H id Hid.
  assert (∀ id' c c', submits w !! id' = Some c → <[id' := c']> (submits w) !! id = None) as Hins.
  { intros id' c c' Hc. rewrite lookup_insert_ne; congruence. }
  destruct ch as [|ch|id' ch|id']; [done|..]; simpl in H.
  - apply bind_Some in H as ([o σ'] & _ & H).
    destruct o as [|i [op|] [[index startTerm] isLeader]|i m]; [by injection H as <-| |done|by injection H as <-].
    destruct (submits w !! op_Id op) as [[i' req term| | |]|] eqn:Hc; try done.
    case_decide; [|done]. injection H as <-. by eapply Hins.
  - apply bind_Some in H as ([o σ'] & _ & H). destruct o as [|i c res|i m]; [done|done|].
    destruct (submits w !! id') as [[|i' op index startTerm| |]|] eqn:Hc; try done.
    apply bind_Some in H as (op' & _ & H). destruct (KV_DoOp _ _) as [s' res].
    destruct (submitReceive _ _ _) as [err r]. case_decide; [|done]. injection H as <-. by eapply Hins.
  - destruct (submits w !! id') as [[|i' op index startTerm| |]|] eqn:Hc; try done.
    injection H as <-. by eapply Hins.
Qed.

Lemma clerks_perform_sound ch W W' :
  clerks_perform ch W = Some W' → clerks_step N pol W W'.
Proof.
  destruct ch as [ch|c ck req|c k id|c|c]; cbn [clerks_perform]; intros H.
  - destruct (is_submit ch) eqn:Hs; [done|]. apply bind_Some in H as (w' & Hw & [= <-]).
    apply k_service; [by eapply lin_perform_sound|by eapply lin_perform_keeps].
  - case_decide as Hd; [|done]. injection H as <-. apply k_invoke; apply Hd.
  - apply bind_Some in H as (cc & Hcc & H). case_decide as Hd; [|done].
    destruct (GetState _) as [term [|]] eqn:Hst; [|done]. injection H as <-.
    eapply (k_handle N pol W c cc k id); [apply Hcc|apply Hd|apply Hd|apply Hd|]. by exists term.
  - apply bind_Some in H as (cc & Hcc & H). destruct (cc_result cc) eqn:Hres; [done|].
    injection H as <-. by apply k_lost.
  - apply bind_Some in H as (cc & Hcc & H). apply bind_Some in H as (id & Hid & H).
    destruct (cc_result cc) eqn:Hres; [done|]. destruct (submits (service W) !! id) as [[]|] eqn:Hsub; try done.
    apply bind_Some in H as (reply & Hr & [= <-]).
    eapply (k_reply N pol W c cc id); [done..| |done]. by econstructor.
Qed.

Lemma clerks_perform_all_sound chs : ∀ W W',
  clerks_perform_all chs W = Some W' → rtc (clerks_step N pol) W W'.
Proof.
  unfold clerks_perform_all. induction chs as [|ch chs IH]; cbn [foldl]; intros W W' H; [by simplify_eq|].
  destruct (clerks_perform ch W) as [W1|] eqn:Hp; cbn in H; rewrite ?Hp in H.
  - eapply rtc_l; [|by apply IH]. by apply (clerks_perform_sound ch).
  - exfalso. clear -H. induction chs; simpl in *; [done|auto].
Qed.

End ClerksRun.

(** ** Instances

    In a run of three servers, a clerk puts "a"; the reply to its first request is
    lost, servers 1 and 2 do not answer, and the second request of server 0 finds
    the work done.  A second clerk gets the key and puts "b". *)

#[local] Existing Instances KVReq_eq_dec KVReq_countable KVVal_gob KVStore_gob plain_kv_dec.

Definition clerk0 : Clerk := MakeClerk ["s0"; "s1"; "s2"].

Definition clerks0 : Clerks := mkClerks stores0 ∅ ∅ [].

Definition service_run (chs : list (LinChoice (Req:=KVReq))) : list ClerkChoice := KService <$> chs.

Definition cluster_run (chs : list (Choice (cmd:=Op KVReq))) : list ClerkChoice :=
  service_run (LSys ∘ YCluster <$> chs).

Definition run_retry : list ClerkChoice :=
  cluster_run [CTick 0 (ms 1000) 0; CHandle 0 (ms 1001); CHandle 0 (ms 1002)] ++
  [KInvoke 10 clerk0 (put_x "a" 0); KHandle 10 0 1; KService (start_call 1 (put_x "a" 0));
   KLost 10; KLost 10; KLost 10; KHandle 10 3 2; KService (start_call 2 (put_x "a" 0));
   KInvoke 11 clerk0 get_x; KHandle 11 0 3; KService (start_call 3 get_x)] ++
  cluster_run [CHandle 0 0; CHandle 0 0; CHandle 0 (ms 1003); CHandle 0 (ms 1004); CApply 0] ++
  service_run [LNotify 1 (YRead 0); LNotify 2 (YRead 0); LNotify 3 (YRead 0)] ++
  [KReply 10; KReply 11].

Definition run_again : list ClerkChoice :=
  [KInvoke 12 clerk0 (put_x "b" 1); KHandle 12 0 4; KService (start_call 4 (put_x "b" 1))] ++
  cluster_run [CHandle 0 0; CHandle 0 0; CHandle 0 (ms 1005); CHandle 0 (ms 1006); CApply 0] ++
  [KService (LNotify 4 (YRead 0)); KReply 12].

Definition clerks_after (chs : list ClerkChoice) : Clerks :=
  default clerks0 (clerks_perform_all 3 plain_kv chs clerks0).

Lemma clerks_after_reachable chs :
  reachable (clerks_init 3) (clerks_step 3 plain_kv) (clerks_after chs).
Proof.
  apply (reachable_rtc _ _ clerks0).
  - apply reach_init. split; [apply stores0_init|done].
  - unfold clerks_after. destruct (clerks_perform_all _ _ _ _) eqn:Hrun; [|apply rtc_refl].
    by eapply clerks_perform_all_sound.
Qed.

Definition history2 : list (CallEvent (Req:=KVReq) (Res:=ClerkRes)) :=
  [HRet 12 (RPut OK); HInv 12 (put_x "b" 1);
   HRet 11 (RGet "a" 1 OK); HRet 10 (RPut ErrMaybe); HInv 11 get_x; HInv 10 (put_x "a" 0)].

Example clerks_after_history : clerk_history (clerks_after (run_retry ++ run_again)) = history2.
Proof. vm_compute. reflexivity. Qed.

Lemma clerks_linearizable_witness :
  ∃ clin, clerk_explains history2 clin ∧
    is_Some (accepts KvModel_Init (filter (on_key "x") (clerk_operations clin))).
Proof.
  assert (sound_policy plain_kv) as Hpol by (left; reflexivity).
  assert (versions_known (clerk_history (clerks_after (run_retry ++ run_again)))) as Hknown.
  { rewrite clerks_after_history. split; [|split; [by left|done]].
    right. left. exists 11, "a". unfold get_x. set_solver. }
  assert (len (calls (service (clerks_after (run_retry ++ run_again)))) < 2 ^ 64) as Hlen
    by (vm_compute; reflexivity).
  destruct (clerks_linearizable 3 plain_kv Hpol _ (clerks_after_reachable _) Hknown Hlen)
    as (clin & Hex & Hacc).
  exists clin. rewrite <-clerks_after_history. exact (conj Hex (Hacc "x")).
Defined.

(** *** Versions from the future

    A clerk puts "z" under version 2 when the key has version 1: its first request
    is delayed, the next that is answered finds the wrong version, and the clerk
    returns ErrMaybe.  Another Put makes version 2, which a Get returns; then the
    first request arrives and is performed. *)

Definition quick_call (c id : Z) (req : KVReq) : list ClerkChoice :=
  [KInvoke c clerk0 req; KHandle c 0 id; KService (start_call id req)].

Definition run_future : list ClerkChoice :=
  cluster_run [CTick 0 (ms 1000) 0; CHandle 0 (ms 1001); CHandle 0 (ms 1002)] ++
  quick_call 20 1 (put_x "a" 0) ++
  cluster_run [CHandle 0 0; CHandle 0 0; CHandle 0 (ms 1003); CHandle 0 (ms 1004); CApply 0] ++
  [KService (LNotify 1 (YRead 0)); KReply 20;
   KInvoke 21 clerk0 (put_x "z" 2); KLost 21; KLost 21; KLost 21; KHandle 21 3 2;
   KService (start_call 2 (put_x "z" 2))] ++
  cluster_run [CHandle 0 0; CHandle 0 0; CHandle 0 (ms 1005); CHandle 0 (ms 1006); CApply 0] ++
  [KService (LNotify 2 (YRead 0)); KReply 21] ++
  quick_call 22 3 (put_x "b" 1) ++
  cluster_run [CHandle 0 0; CHandle 0 0; CHandle 0 (ms 1007); CHandle 0 (ms 1008); CApply 0] ++
  [KService (LNotify 3 (YRead 0)); KReply 22] ++
  quick_call 23 4 get_x ++ [KHandle 21 0 5; KService (start_call 5 (put_x "z" 2))] ++
  cluster_run [CHandle 0 0; CHandle 0 0; CHandle 0 (ms 1009); CHandle 0 (ms 1010); CApply 0] ++
  [KService (LNotify 4 (YRead 0)); KReply 23; KService (LSys (YRead 0))] ++
  quick_call 24 6 get_x ++
  cluster_run [CHandle 0 0; CHandle 0 0; CHandle 0 (ms 1011); CHandle 0 (ms 1012); CApply 0] ++
  [KService (LNotify 6 (YRead 0)); KReply 24].

Definition calls_future : list (Z * KVReq * ClerkRes) :=
  [(20, put_x "a" 0, RPut OK); (21, put_x "z" 2, RPut ErrMaybe); (22, put_x "b" 1, RPut OK);
   (23, get_x, RGet "b" 2 OK); (24, get_x, RGet "z" 3 OK)].

(** One call after the other, newest first. *)
Fixpoint one_by_one (l : list (Z * KVReq * ClerkRes)) : list (CallEvent (Req:=KVReq) (Res:=ClerkRes)) :=
  match l with
  | [] => []
  | (c, req, out) :: l => one_by_one l ++ [HRet c out; HInv c req]
  end.

Example clerks_after_future : clerk_history (clerks_after run_future) = one_by_one calls_future.
Proof. vm_compute. reflexivity. Qed.

Lemma one_by_one_elem l :
  (∀ c req out, (c, req, out) ∈ l → HRet c out ∈ one_by_one l) ∧
  (∀ c req, HInv c req ∈ one_by_one l → ∃ out, (c, req, out) ∈ l).
Proof.
  induction l as [|[[c req] out] l [IH1 IH2]]; simpl; [set_solver|]. split.
  - intros c' req' out' [[= -> -> ->]|Hin]%elem_of_cons; [set_solver|]. apply elem_of_app. left. eauto.
  - intros c' req' [Hin|Hin]%elem_of_app; [destruct (IH2 c' req' Hin); set_solver|]. exists out. set_solver.
Qed.

Lemma one_by_one_precedes l : ∀ i j a b ra rb oa ob,
  l !! i = Some (a, ra, oa) → l !! j = Some (b, rb, ob) → (i < j)%nat → precedes (one_by_one l) a b.
Proof.
  induction l as [|[[c req] out] l IH]; intros [|i] [|j] a b ra rb oa ob Hi Hj Hlt; try done; try lia;
    simpl in Hi, Hj |- *.
  - simplify_eq. apply list_elem_of_lookup_2 in Hj. apply one_by_one_elem in Hj as Hret.
    assert (HInv b rb ∈ one_by_one l) as Hin.
    { clear -Hj. induction l as [|[[c req] o] l IH]; [by apply elem_of_nil in Hj|]. simpl. set_solver. }
    apply list_elem_of_split in Hin as (newer & older & ->).
    exists newer, (older ++ [HRet a oa; HInv a ra]), rb, oa. rewrite <-app_assoc. split; [done|set_solver].
  - destruct (IH i j a b ra rb oa ob Hi Hj ltac:(lia)) as (newer & older & r & o & -> & Hin).
    exists newer, (older ++ [HRet c out; HInv c req]), r, o. rewrite <-app_assoc. split; [done|set_solver].
Qed.

(** Calls that do not overlap have one order. *)
Lemma one_by_one_forced l clin :
  NoDup (fst ∘ fst <$> l) → clerk_explains (one_by_one l) clin → clin = l.
Proof.
  intros Hnd Hex.
  assert (∀ p c req out, clin !! p = Some (c, req, out) → (c, req, out) ∈ l) as Hin.
  { intros p c req out Hp%list_elem_of_lookup_2.
    pose proof (ce_made _ _ Hex _ _ _ Hp) as [out' Hl]%one_by_one_elem.
    by rewrite (ce_result _ _ Hex c req out out' Hp) by (by eapply one_by_one_elem). }
  assert (∀ i c req out, l !! i = Some (c, req, out) → ∃ p, clin !! p = Some (c, req, out)) as Hpos.
  { intros i c req out Hi%list_elem_of_lookup_2. pose proof Hi as Hret.
    apply one_by_one_elem in Hret. destruct (ce_returned _ _ Hex c out Hret) as [req' Hc].
    apply list_elem_of_lookup_1 in Hc as [p Hp]. exists p. pose proof (Hin _ _ _ _ Hp) as Hl.
    apply list_elem_of_lookup_1 in Hi as [i1 Hi1]. apply list_elem_of_lookup_1 in Hl as [i2 Hi2].
    assert (i1 = i2) as <- by (eapply NoDup_lookup; [exact Hnd| |];
      rewrite list_lookup_fmap; [by rewrite Hi1|by rewrite Hi2]). by rewrite Hi1 in Hi2; simplify_eq. }
  (* both lists are in the order of the calls *)
  assert (∀ n i, (i < n)%nat → clin !! i = l !! i) as Heq; [|apply list_eq; intros i; apply (Heq (S i)); lia].
  induction n as [|n IH]; intros i Hi; [lia|]. destruct (decide (i < n)%nat) as [|Hge]; [by apply IH|].
  assert (i = n) as -> by lia. clear Hi Hge.
  assert (∀ y, clin !! n = Some y → ∃ k, l !! k = Some y ∧ (n <= k)%nat) as Hafter.
  { intros [[c req] out] Hy. pose proof (Hin _ _ _ _ Hy) as [k Hk]%list_elem_of_lookup_1.
    exists k. split; [done|]. destruct (decide (k < n)%nat) as [Hlt|]; [|lia].
    pose proof (IH k Hlt) as Hck. rewrite Hk in Hck. by rewrite (ce_once _ _ Hex n k c req req out out). }
  destruct (l !! n) as [[[c req] out]|] eqn:Hn.
  - destruct (Hpos n c req out Hn) as [p Hp]. destruct (Nat.lt_trichotomy p n) as [Hlt|[->|Hlt]]; [|done|].
    + pose proof (IH p Hlt) as Hlp. rewrite Hp in Hlp. symmetry in Hlp.
      assert (p = n); [|lia]. eapply NoDup_lookup; [exact Hnd| |]; rewrite list_lookup_fmap; [by rewrite Hlp|by rewrite Hn].
    + destruct (lookup_lt_is_Some_2 clin n) as [[[c' req'] out'] Hy];
        [pose proof (lookup_lt_Some _ _ _ Hp); lia|].
      destruct (Hafter _ Hy) as (k & Hk & Hle). destruct (decide (k = n)) as [->|Hne]; [by rewrite Hn in Hk; simplify_eq|].
      pose proof (one_by_one_precedes l n k c c' req req' out out' Hn Hk ltac:(lia)) as Hprec.
      pose proof (ce_order _ _ Hex _ _ _ _ _ _ _ _ Hprec Hp Hy). lia.
  - destruct (clin !! n) as [y|] eqn:Hy; [|done]. destruct (Hafter y eq_refl) as (k & Hk & Hle).
    apply lookup_ge_None in Hn. apply lookup_lt_Some in Hk. lia.
Qed.

(** C15. The proviso on versions is needed: a Put of the replicated clerk that asks
    for a version the key does not have yet can return ErrMaybe and be performed
    after that.  A run of three servers that do not fail, in which a request is delayed,
    ends in a history of calls, one after the other, that no order explains. *)
Theorem future_version_not_linearizable :
  ∃ W, reachable (clerks_init 3) (clerks_step 3 plain_kv) W ∧
    clerk_history W = one_by_one calls_future ∧ ¬ ∃ clin, clerk_explains (clerk_history W) clin.
Proof.
  exists (clerks_after run_future). split; [apply clerks_after_reachable|].
  rewrite clerks_after_future. split; [done|]. intros (clin & Hex).
  pose proof (ce_legal _ _ Hex) as Hl. rewrite (one_by_one_forced calls_future clin) in Hl; [|by apply (bool_decide_unpack _)|done].
  destruct Hl as (_ & _ & _ & _ & Hsee & _). vm_compute in Hsee. by destruct Hsee.
Qed.
