(* ===== verification/ReplicasLive.v ===== *)
(** * Calls of Submit complete

    The replicated service of Replicas.v and Linearizable.v makes progress, with
    the code as it is (InstallSnapshot sends every snapshot that it installs):
    in every world that can be reached, a majority of the servers that can talk
    to each other can serve a new call of [Submit] of
    src/6.5840/src/kvraft1/rsm/rsm.go, which returns OK with a result.  The run of
    the Raft cluster is that of RaftProgress.v; here the services follow it, the
    reader of the leader works off its applyCh, and the call is notified. *)

From S2P Require Import Prelude Gob Persister KVRpc KVSrv Raft RaftNode RaftSpec RaftReplication.
From S2P Require Import RaftProtocol RaftNet RaftLog RaftSafety RaftElect RaftProgress.
From S2P Require Import RSM Replicas KVRaft Linearizable ReplicasRun KVReplicas.

Section ServiceLive.
Context {S Req Res : Type} `{!StateMachine S Req Res}.
Context `{!Gob (RaftVal (Op Req))} `{!GobRegistered (RaftVal (Op Req))}.
Context (N : nat) (s0 : S).
Abbreviation Msg := (ApplyMsg (Op Req)).
Abbreviation Sys := (System (S:=S) (Req:=Req)).
Abbreviation Wld := (World (S:=S) (Req:=Req) (Res:=Res)).
Implicit Types σ : Sys.
Implicit Types w : Wld.

(** The service executes every request. *)
Context (total : ∀ (req : Req) (s : S), is_Some (DoOp req s)).

(** The code sends every snapshot that InstallSnapshot installs, and services
    receive what a sender offers; a service may take snapshots in the states
    [may_snap]. *)
Context (may_snap : Raft (Op Req) → Prop).

Definition any_snapshot : Policy (Req:=Req) := mkPolicy (λ _ _, True) (λ _ _, True) may_snap.

Abbreviation sys_step1 := (sys_lstep N s0 any_snapshot).
Abbreviation wstep := (lin_step N s0 any_snapshot).

(** ** What the reader may find on applyCh *)

Definition genuine (data : list byte) : Prop := ∃ s : S, data = SM_Snapshot s.

(** The index of a message, and the messages a reader can handle. *)
Definition msg_index (m : Msg) : Z := if CommandValid m then CommandIndex m else SnapshotIndex m.

Definition readable (m : Msg) : Prop :=
  CommandValid m = true ∨ SnapshotValid m = true ∧ genuine (am_Snapshot m).

Lemma deliver_readable m s index :
  readable m → ∃ s', deliver m s index = Some (s', msg_index m).
Proof.
  unfold deliver, msg_index. intros [Hv|[Hsv [s1 Hs1]]].
  - rewrite Hv. destruct (am_Command m) as [op|]; simpl; [|eauto].
    destruct (total (op_Command op) s) as [[s' r] ->]. simpl. eauto.
  - destruct (CommandValid m).
    + destruct (am_Command m) as [op|]; simpl; [|eauto].
      destruct (total (op_Command op) s) as [[s' r] ->]. simpl. eauto.
    + rewrite Hsv, Hs1, restore_snapshot. simpl. eauto.
Qed.

(** The snapshots on disk and in flight come from the service, and no service
    is ahead of its peer. *)
Record sound σ : Prop := mkSound {
  so_live : live N (cluster σ);
  so_executed i : executed σ i <= lastApplied (servers (cluster σ) i);
  so_batch i : Forall (λ m, readable m ∧ msg_index m <= lastApplied (servers (cluster σ) i))
                 (batch σ i);
  so_installs i : Forall (λ m, readable m ∧ msg_index m <= lastApplied (servers (cluster σ) i))
                    (installs σ i);
  so_disk i : let rf := servers (cluster σ) i in
    0 < lastIncludedIndex rf → genuine (ReadSnapshot (persister rf));
  so_net : snaps_of (inflight (cluster σ))
             (λ args, 0 < is_LastIncludedIndex args → genuine (is_Data args))
}.

(** One server at most shows its service something new. *)
Lemma sound_update σ i σ' :
  sound σ → live N (cluster σ') →
  (∀ j, j ≠ i → service_view (servers (cluster σ') j) = service_view (servers (cluster σ) j) ∧
     executed σ' j = executed σ j ∧ batch σ' j = batch σ j ∧ installs σ' j = installs σ j) →
  let rf := servers (cluster σ') i in
  executed σ' i <= lastApplied rf →
  Forall (λ m, readable m ∧ msg_index m <= lastApplied rf) (batch σ' i) →
  Forall (λ m, readable m ∧ msg_index m <= lastApplied rf) (installs σ' i) →
  (0 < lastIncludedIndex rf → genuine (ReadSnapshot (persister rf))) →
  snaps_of (inflight (cluster σ')) (λ args, 0 < is_LastIncludedIndex args → genuine (is_Data args)) →
  sound σ'.
Proof.
  intros Hso Hl Hne rf He Hb Hi Hd Hn. split; [done| | | | |done];
    intros j; (destruct (decide (j = i)) as [->|Hj]; [done|]);
    destruct (Hne j Hj) as (Hv & H1 & H2 & H3); injection Hv as Hv1 Hv2 Hv3;
    cbv zeta; rewrite ?Hv1, ?Hv2, ?Hv3, ?H1, ?H2, ?H3; apply Hso.
Qed.

Lemma sound_silent σ ev c' :
  sound σ → lstep N (λ _ _, True) (cluster σ) ev c' → silent ev → live N c' →
  sound (mkSystem c' (machine σ) (executed σ) (batch σ) (installs σ)).
Proof.
  intros Hso Hs Hev Hl. pose proof (silent_view _ _ _ _ _ Hs Hev) as Hv.
  apply (sound_update σ 0); cbn [cluster executed batch installs];
    [done|done|by intros j _; rewrite Hv|..]; try (specialize (Hv 0%nat); injection Hv as Hv1 Hv2 Hv3;
      rewrite ?Hv1, ?Hv2, ?Hv3; apply Hso).
  eapply silent_snaps; [exact Hs|done|apply Hso|].
  intros src inc peer term action Ha src' inc' dst args Hin.
  unfold sendAppendEntriesToPeer in Ha. raft_case; simpl in Hin;
    try (by apply elem_of_nil in Hin); apply list_elem_of_singleton in Hin; [|done].
  injection Hin as _ _ _ ->. simpl. apply (so_disk _ Hso).
Qed.

(** ** Every step preserves it *)

Lemma sound_live σ ev c' :
  sound σ → lstep N (λ _ _, True) (cluster σ) ev c' →
  (∀ i index snap, ev = ESnapshot i index snap → applied_only (servers (cluster σ) i) index) →
  live N c'.
Proof.
  intros Hso Hs Ha. eapply live_step; [apply Hso|]. exists ev. by apply lstep_service.
Qed.

Lemma live_bounds (c : Cluster (cmd:=Op Req)) i :
  live N c → wf (servers c i) ∧ commitIndex (servers c i) <= lastLogIndex (servers c i).
Proof.
  intros [[A Hci] _ _]. destruct (inv_node _ _ _ (ci_inv _ _ _ Hci) i) as (Hw & _).
  split; [done|]. destruct (ci_node _ _ _ Hci i) as [_ Hr _ _ Hcov].
  rewrite (repr_last _ _ Hr). by eapply covered_len.
Qed.

Lemma queue_raised (l : list Msg) (a b : Z) :
  a <= b → Forall (λ m, readable m ∧ msg_index m <= a) l →
  Forall (λ m, readable m ∧ msg_index m <= b) l.
Proof.
  rewrite !list.Forall_forall. intros Hab Hl m [? ?]%Hl. split; [done|lia].
Qed.

Lemma sound_apply σ i msgs c' :
  sound σ → lstep N (λ _ _, True) (cluster σ) (EApply i msgs) c' →
  sound (mkSystem c' (machine σ) (executed σ) (<[i := msgs]> (batch σ)) (installs σ)).
Proof.
  intros Hso Hs. pose proof (sound_live _ _ _ Hso Hs ltac:(done)) as Hl.
  inversion Hs as [| | | | | | | | | | | | |i' rf' msgs' Hi Ha| |]; subst.
  destruct (live_bounds (cluster σ) i (so_live _ Hso)) as [Hw Hc].
  pose proof (wf_commit _ Hw). pose proof (so_executed _ Hso i). pose proof (so_installs _ Hso i) as Hins.
  destruct (applier_view _ _ _ Hw Hc Ha) as [[-> Hv]|[Hv ->]]; apply view_eq in Hv as (Ha1 & Hl1 & Hs1);
    apply (sound_update σ i); cbn [cluster servers executed batch installs inflight];
    rewrite ?set_server_eq, ?fn_lookup_insert, ?Ha1, ?Hl1, ?Hs1; try done; try apply Hso; try lia;
    try (intros j Hj; by rewrite fn_lookup_insert_ne, set_server_ne by done).
  - apply list.Forall_forall. intros m (k & -> & Hk%elem_of_seqZ)%list_elem_of_fmap.
    split; [by left|]. unfold msg_index. simpl. lia.
  - eapply queue_raised; [|exact Hins]. lia.
Qed.

Lemma sound_install σ i m c' :
  sound σ → lstep N (λ _ _, True) (cluster σ) (EInstall i m) c' →
  sound (mkSystem c' (machine σ) (executed σ) (batch σ)
           (<[i := option_list m ++ installs σ i]> (installs σ))).
Proof.
  intros Hso Hs. pose proof (sound_live _ _ _ Hso Hs ltac:(done)) as Hl.
  inversion Hs as [| | | | | | | | |src inc i' args now rf' reply m' rest Hin Ha| | | | | |]; subst.
  assert (0 < is_LastIncludedIndex args → genuine (is_Data args)) as Hdata.
  { apply (so_net _ Hso src inc i). rewrite Hin. by apply list_elem_of_here. }
  destruct (live_bounds (cluster σ) i (so_live _ Hso)) as [Hw _]. pose proof (wf_lii _ Hw).
  pose proof (so_executed _ Hso i). pose proof (so_batch _ Hso i). pose proof (so_installs _ Hso i).
  assert (lastApplied (servers (cluster σ) i) <= lastApplied rf' ∧
    (0 < lastIncludedIndex rf' → genuine (ReadSnapshot (persister rf'))) ∧
    Forall (λ m, readable m ∧ msg_index m <= lastApplied rf') (option_list m)) as (Happ & Hdisk & Hm).
  { destruct (InstallSnapshot_view _ _ _ _ _ _ Ha) as [[-> Hv]|(_ & Hlt & -> & Hv)];
      apply view_eq in Hv as (-> & -> & ->).
    - split_and!; [lia|apply Hso|by constructor].
    - split_and!; [lia|intros _; apply Hdata; lia|]. apply list.Forall_singleton.
      split; [right; split; [done|apply Hdata; lia]|unfold msg_index; simpl; lia]. }
  apply (sound_update σ i); cbn [cluster servers executed batch installs inflight];
    rewrite ?set_server_eq, ?fn_lookup_insert; [done|done| |lia|by eapply queue_raised| |done|].
  - intros j Hj. by rewrite fn_lookup_insert_ne, set_server_ne by done.
  - apply Forall_app. split; [done|by eapply queue_raised].
  - eapply (snaps_of_app _ [_]); [by repeat constructor|by eapply rest_subset|apply Hso].
Qed.

Lemma sound_snapshot σ i c' :
  sound σ →
  lstep N (λ _ _, True) (cluster σ) (ESnapshot i (executed σ i) (SM_Snapshot (machine σ i))) c' →
  sound (mkSystem c' (machine σ) (executed σ) (batch σ) (installs σ)).
Proof.
  intros Hso Hs. pose proof (so_executed _ Hso i) as Hle.
  assert (live N c') as Hl by (eapply sound_live; [done|done|]; by intros ??? [= <- <- <-]).
  inversion Hs as [| | | | | | | | | | | |i' index snap rf' Hi _ Ha| | |]; subst.
  destruct (live_bounds (cluster σ) i (so_live _ Hso)) as [Hw _].
  assert (lastApplied rf' = lastApplied (servers (cluster σ) i) ∧
    (0 < lastIncludedIndex rf' → genuine (ReadSnapshot (persister rf')))) as (Happ & Hdisk).
  { destruct (Snapshot_view _ _ _ _ Hw Hle Ha) as [Hv|[Hlt Hv]];
      apply view_eq in Hv as (-> & -> & ->); (split; [done|]); [apply Hso|by eexists]. }
  apply (sound_update σ i); cbn [cluster servers executed batch installs inflight];
    rewrite ?set_server_eq, ?Happ; try done; try apply Hso.
  intros j Hj. by rewrite set_server_ne by done.
Qed.

Lemma sound_read σ i m b ins s' index :
  sound σ → receives σ i m b ins → deliver m (machine σ i) (executed σ i) = Some (s', index) →
  sound (mkSystem (cluster σ) (<[i := s']> (machine σ)) (<[i := index]> (executed σ))
           (<[i := b]> (batch σ)) (<[i := ins]> (installs σ))).
Proof.
  intros Hso Hr Hd.
  destruct (receives_Forall _ _ _ _ _ _ Hr (so_batch _ Hso i) (so_installs _ Hso i)) as ([Hm Hle] & Hb & Hi).
  destruct (deliver_readable m (machine σ i) (executed σ i) Hm) as [s1 Hd'].
  rewrite Hd in Hd'. injection Hd' as _ ->.
  apply (sound_update σ i); cbn [cluster executed batch installs]; try rewrite !fn_lookup_insert;
    try done; try apply Hso.
  intros j Hj. by rewrite !fn_lookup_insert_ne by done.
Qed.

Lemma sound_restart σ i c' s :
  sound σ → lstep N (λ _ _, True) (cluster σ) (ERestart i) c' →
  sound (mkSystem c' (<[i := s]> (machine σ))
    (<[i := lastIncludedIndex (servers c' i)]> (executed σ))
    (<[i := []]> (batch σ)) (<[i := []]> (installs σ))).
Proof.
  intros Hso Hs. pose proof (sound_live _ _ _ Hso Hs ltac:(done)) as Hl.
  destruct (so_live _ Hso) as [[A Hci] _ _].
  destruct (inv_node _ _ _ (ci_inv _ _ _ Hci) i) as (Hw & Hpers & _).
  inversion Hs as [| | | | | | | | | | | | | | |i' now Hi]; subst.
  pose proof (Make_view N (Z.of_nat i) now _ Hpers) as Hv. apply view_eq in Hv as (Ha & Hli & Hsn).
  apply (sound_update σ i); cbn [cluster servers executed batch installs inflight];
    rewrite ?set_server_eq, ?fn_lookup_insert, ?Ha, ?Hli, ?Hsn; try done; try apply Hso; try by constructor.
  intros j Hj. by rewrite !fn_lookup_insert_ne, set_server_ne by done.
Qed.

Lemma sound_step σ o σ' : sound σ → sys_lstep N s0 any_snapshot σ o σ' → sound σ'.
Proof.
  intros Hso Hs.
  destruct Hs; eauto using sound_apply, sound_install, sound_snapshot, sound_read, sound_restart.
  - eapply sound_silent; [done|done|done|]. by eapply sound_live.
  - eapply sound_silent; [done|done|done|]. by eapply sound_live.
Qed.

Lemma sound_init σ : sys_init N s0 σ → sound σ.
Proof.
  intros [Hc Hs]. pose proof (live_init N _ Hc) as Hl. destruct Hc as (Hm & _ & Hnet).
  split; [done|..].
  - intros i. destruct (Hs i) as (_ & -> & _), (Hm i) as [now ->]. done.
  - intros i. destruct (Hs i) as (_ & _ & -> & _). by constructor.
  - intros i. destruct (Hs i) as (_ & _ & _ & ->). by constructor.
  - intros i. destruct (Hm i) as [now ->]. simpl. done.
  - intros src inc dst args. rewrite Hnet. by intros ?%elem_of_nil.
Qed.

(** ** The clients *)

Lemma world_sound_step w w' : wstep w w' → sound (replicas w) → sound (replicas w').
Proof. intros Hs Hso. destruct Hs; simpl in *; eauto using sound_step. Qed.

Lemma world_sound_run w w' : rtc wstep w w' → sound (replicas w) → sound (replicas w').
Proof. induction 1; eauto using world_sound_step. Qed.

Lemma world_sound w : reachable (lin_init N s0) wstep w → sound (replicas w).
Proof.
  revert w. apply reachable_invariant; [intros w [Hi _]; by apply sound_init|].
  intros w w' _ Hso Hs. by eapply world_sound_step.
Qed.

(** The services follow a run of the peers. *)
Lemma world_follows (Q : gset nat) w c' :
  runs_among N Q (cluster (replicas w)) c' →
  ∃ σ', rtc wstep w (mkWorld σ' (submits w) (calls w)) ∧ cluster σ' = c'.
Proof.
  intros Hr. remember (cluster (replicas w)) as c eqn:Hc. revert w Hc.
  induction Hr as [c|c c1 c' (ev & Hs & Hev & _) _ IH]; intros w ->.
  { exists (replicas w). split; [|done]. by destruct w. }
  apply (lstep_weaken N _ (λ _ _, True)) in Hs; [|done].
  assert (∃ σ1, sys_lstep N s0 any_snapshot (replicas w) OQuiet σ1 ∧ cluster σ1 = c1) as (σ1 & Hs1 & Hc1).
  { destruct Hev as [->|(i & m & ->)].
    - eexists. split; [by apply y_raft|done].
    - eexists. split; [by apply y_install|done]. }
  destruct (IH (mkWorld σ1 (submits w) (calls w))) as (σ' & Hr' & Hc'); [done|].
  exists σ'. split; [|done]. eapply rtc_l; [by apply w_quiet|exact Hr'].
Qed.

(** The reader of server [i] works off the messages of the batch before [rest]. *)
Lemma world_reads i ms rest : ∀ w,
  sound (replicas w) → batch (replicas w) i = ms ++ rest →
  ∃ σ', rtc wstep w (mkWorld σ' (submits w) (calls w)) ∧
    cluster σ' = cluster (replicas w) ∧ batch σ' i = rest.
Proof.
  induction ms as [|m ms IH]; intros w Hso Hq.
  { exists (replicas w). split; [|done]. by destruct w. }
  pose proof (so_batch _ Hso i) as Hall. rewrite Hq in Hall. apply Forall_cons_1 in Hall as [[Hr _] _].
  destruct (deliver_readable m (machine (replicas w) i) (executed (replicas w) i) Hr) as [s' Hd].
  pose proof (y_read N s0 any_snapshot (replicas w) i m _ _ s' _
    (from_applier (replicas w) i m (ms ++ rest) Hq) I Hd) as Hs.
  set (σ1 := mkSystem _ _ _ _ _) in Hs.
  destruct (IH (mkWorld σ1 (submits w) (calls w))) as (σ' & Hr' & Hc & Hq').
  - by eapply sound_step.
  - subst σ1. simpl. by rewrite fn_lookup_insert.
  - exists σ'. split; [|done]. eapply rtc_l; [by eapply w_read|exact Hr'].
Qed.

(** A call that waits for the command that the applier loop sends next gets its
    result. *)
Lemma world_notifies w id i op index term rest :
  submits w !! id = Some (KWait i op index term) → op_Id op = id → op_Term op = term →
  batch (replicas w) i = command_msg (mkLogEntry (Some op) term) index :: rest →
  ∃ w' res, wstep w w' ∧ HRet id res ∈ calls w' ∧ cluster (replicas w') = cluster (replicas w).
Proof.
  intros Hk Hid Ht Hq.
  destruct (total (op_Command op) (machine (replicas w) i)) as [[s' res] Hd].
  assert (deliver (command_msg (mkLogEntry (Some op) term) index) (machine (replicas w) i)
            (executed (replicas w) i) = Some (s', index)) as Hdel.
  { unfold deliver, command_msg. simpl. by rewrite Hd. }
  pose proof (y_read N s0 any_snapshot (replicas w) i _ _ _ s' _
    (from_applier (replicas w) i _ rest Hq) I Hdel) as Hs.
  eexists _, res. split; [|split].
  - eapply (w_notify N s0 any_snapshot w id i _ op op index term s' res); [done|exact Hs|done..|].
    unfold submitReceive. simpl. by rewrite Ht, !Z.eqb_refl.
  - simpl. apply list_elem_of_here.
  - done.
Qed.

(** Submit on a leader: GetState, and Start accepts the operation. *)
Lemma world_submits w id i req index c' :
  let term := currentTerm (servers (cluster (replicas w)) i) in
  let op := mkOp id term req in
  submits w !! id = None → role (servers (cluster (replicas w)) i) = Leader →
  lstep N applied_only (cluster (replicas w)) (EStart i (Some op) (index, term, true)) c' →
  ∃ w', rtc wstep w w' ∧ cluster (replicas w') = c' ∧ submits w' !! id = Some (KWait i op index term).
Proof.
  intros term op Hid Hlead Hs. apply (lstep_weaken N _ (λ _ _, True)) in Hs; [|done].
  pose proof (y_start N s0 any_snapshot (replicas w) i _ _ _ Hs) as Hsys.
  set (w1 := mkWorld (replicas w) (<[id := KState i req term]> (submits w)) (HInv id req :: calls w)).
  assert (wstep w w1) as Hw1.
  { apply w_submit; [done|]. unfold GetState. by rewrite Hlead. }
  pose proof (w_start N s0 any_snapshot w1 id i req term index term _
    (lookup_insert_eq _ _ _) Hsys) as Hw2.
  eexists. split; [eapply rtc_l, rtc_once; [exact Hw1|exact Hw2]|].
  split; [done|]. simpl. by rewrite lookup_insert_eq.
Qed.

(** A committed operation that a call waits for is handed over, executed and
    its result returned. *)
Lemma world_serves w id i op index term rf' msgs :
  sound (replicas w) → (i < N)%nat → submits w !! id = Some (KWait i op index term) →
  op_Id op = id → op_Term op = term →
  applierStep (servers (cluster (replicas w)) i) = Some (rf', msgs) →
  command_msg (mkLogEntry (Some op) term) index ∈ msgs →
  ∃ w' res, rtc wstep w w' ∧ HRet id res ∈ calls w' ∧
    ∀ j, j ≠ i → servers (cluster (replicas w')) j = servers (cluster (replicas w)) j.
Proof.
  intros Hso Hi Hk Hid Ht Ha Hm.
  (* the applier loop sends the rest of its last batch first *)
  destruct (world_reads i (batch (replicas w) i) [] w Hso) as (σ0 & Hw0 & Hc0 & Hq0);
    [by rewrite app_nil_r|].
  set (w0 := mkWorld σ0 (submits w) (calls w)) in *. rewrite <-Hc0 in Ha.
  pose proof (s_apply N (λ _ _, True) (cluster σ0) i rf' msgs Hi Ha) as Hs.
  pose proof (y_apply N s0 any_snapshot σ0 i msgs _ Hs Hq0) as Hsys.
  pose proof (w_quiet N s0 any_snapshot w0 _ Hsys) as Hw1. set (w1 := mkWorld _ _ _) in Hw1.
  apply list_elem_of_split in Hm as (before & after & Hm).
  destruct (world_reads i before (command_msg (mkLogEntry (Some op) term) index :: after) w1)
    as (σ2 & Hw2 & Hc2 & Hq2).
  { eapply world_sound_step; [exact Hw1|]. by eapply world_sound_run. }
  { simpl. by rewrite fn_lookup_insert. }
  destruct (world_notifies (mkWorld σ2 (submits w1) (calls w1)) id i op index term after)
    as (w3 & res & Hw3 & Hret & Hc3); [done..|].
  exists w3, res. split; [etrans; [exact Hw0|]; eapply rtc_l; [exact Hw1|]; eapply rtc_r; done|].
  split; [done|].
  intros j Hj. rewrite Hc3. simpl. rewrite Hc2, <-Hc0. apply set_server_ne. congruence.
Qed.

(** C5. Calls of Submit can always complete: for a service that can execute every
    request (no DoOp ends its process) on at least two servers, in every world that
    clients and services can reach, whatever was lost, compacted, restarted or
    received out of order, a majority of the servers can serve a new call - there is
    a run in which no other server's Raft peer moves and at the end of which the
    call has returned OK with a result. *)
Theorem submit_completes (Q : gset nat) w id (req : Req) :
  reachable (lin_init N s0) wstep w →
  (2 <= N)%nat → (∀ q, q ∈ Q → (q < N)%nat) → Z.of_nat N / 2 < Z.of_nat (size Q) →
  submits w !! id = None →
  ∃ w' res, rtc wstep w w' ∧ HRet id res ∈ calls w' ∧
    ∀ j, j ∉ Q → servers (cluster (replicas w')) j = servers (cluster (replicas w)) j.
Proof.
  intros Hw HN HQ Hmaj Hid. pose proof (world_sound w Hw) as Hso.
  destruct (majority_progress N Q HQ (cluster (replicas w)) (so_live _ Hso) HN Hmaj)
    as (c1 & i & Hr1 & Hi & Hlead & Hcmd).
  destruct (world_follows Q w c1 Hr1) as (σ1 & Hw1 & Hc1). rewrite <-Hc1 in *.
  set (term := currentTerm (servers (cluster σ1) i)) in *.
  destruct (Hcmd (Some (mkOp id term req))) as (index & c2 & c3 & Hs & Hr3 & Hall).
  destruct (Hall i Hi) as (_ & rf' & msgs & Ha & Hm).
  destruct (world_submits (mkWorld σ1 (submits w) (calls w)) id i req index c2 Hid Hlead Hs)
    as (w2 & Hw2 & Hc2 & Hk2).
  rewrite <-Hc2 in Hr3. destruct (world_follows Q w2 c3 Hr3) as (σ3 & Hw3 & Hc3).
  assert (rtc wstep w (mkWorld σ3 (submits w2) (calls w2))) as Hrun
    by (etrans; [exact Hw1|]; etrans; [exact Hw2|exact Hw3]).
  rewrite <-Hc3 in Ha.
  destruct (world_serves (mkWorld σ3 (submits w2) (calls w2)) id i _ index term rf' msgs
    (world_sound_run _ _ Hrun Hso) (HQ i Hi) Hk2 eq_refl eq_refl Ha Hm)
    as (w4 & res & Hw4 & Hret & Hsame).
  exists w4, res. split; [by etrans|]. split; [done|].
  intros j Hj. assert (j ≠ i) as Hji by (by intros ->). rewrite Hsame by done. simpl.
  rewrite Hc3, (runs_others N Q _ _ _ Hr3 Hj), <-(runs_others N Q _ _ _ Hr1 Hj), Hc2.
  inversion Hs; subst. apply set_server_ne. congruence.
Qed.

End ServiceLive.

(** ** The key/value store

    After the run of KVReplicas.v, servers 1 and 2 serve a Get without server 0,
    which led. *)

#[local] Existing Instances KVReq_eq_dec KVReq_countable KVVal_gob KVStore_gob.

Definition any_kv : Policy (Req:=KVReq) := any_snapshot (λ _, True).

#[local] Instance any_kv_dec : PolicyDec any_kv.
Proof. split; simpl; apply _. Defined.

Definition stores2 : World (S:=KVServer) (Req:=KVReq) (Res:=KVRes) :=
  default stores0 (lin_perform_all 3 empty_store any_kv run_stores stores0).

Lemma stores2_reachable : reachable (lin_init 3 empty_store) (lin_step 3 empty_store any_kv) stores2.
Proof.
  apply (reachable_rtc _ _ stores0).
  - apply reach_init. split; [|done]. split; [|done]. split_and!; [|done|done]. intros i. by exists 0.
  - unfold stores2. destruct (lin_perform_all _ _ _ _ _) eqn:Hrun; [|apply rtc_refl].
    by eapply lin_perform_all_sound.
Qed.

Lemma KV_total (req : KVReq) (kv : KVServer) : is_Some (DoOp req kv).
Proof. by eexists. Qed.

Example stores2_calls : calls stores2 = history1 ∧ submits stores2 !! 7 = None.
Proof. vm_compute. done. Qed.

Lemma without_0 : 0%nat ∉ ({[1%nat; 2%nat]} : gset nat) ∧
  ∀ q, q ∈ ({[1%nat; 2%nat]} : gset nat) → (q < 3)%nat.
Proof. split; set_solver by lia. Qed.

Lemma submit_completes_witness :
  ∃ w' res, rtc (lin_step 3 empty_store any_kv) stores2 w' ∧ HRet 7 res ∈ calls w' ∧
    servers (cluster (replicas w')) 0%nat = servers (cluster (replicas stores2)) 0%nat.
Proof.
  destruct (submit_completes 3 empty_store KV_total (λ _, True) {[1%nat; 2%nat]} stores2 7 get_x
    stores2_reachable) as (w' & res & Hr & Hret & Hsame);
    [lia|exact (proj2 without_0)|by vm_compute|exact (proj2 stores2_calls)|].
  exists w', res. split; [exact Hr|]. split; [exact Hret|]. apply Hsame. exact (proj1 without_0).
Defined.
