(* ===== verification/ShardCfg.v ===== *)
(** * Shard configurations

    Models src/6.5840/src/shardkv1/shardcfg/shardcfg.go: the assignment of
    shards to groups, joining and leaving, and rebalancing.  The order in which
    Go iterates over a map is arbitrary: where it matters (Join) the map argument
    is the list of its entries in that order, and the theorems hold for every
    order. *)

From S2P Require Import Prelude.

Definition NShards : nat := 12.

(** [tester.Tgid] is [int]; 0 stands for no group. *)
Definition Tgid : Type := Z.

Record ShardConfig := mkShardConfig {
  Num : Z;
  Shards : list Tgid;                 (* [NShards]Tgid *)
  Groups : gmap Tgid (list string)
}.

Definition MakeShardConfig : ShardConfig := mkShardConfig 0 (replicate NShards 0) ∅.

(** ** Key2Shard *)

Definition Key2Shard (key : string) : Z := Z.rem (fnv1a fnv_offset key) (Z.of_nat NShards).

(** ** Copy *)

Definition Copy (cfg : ShardConfig) : option ShardConfig :=
  let c := MakeShardConfig in
  groups ← foldl (λ og '(k, srvs), g ← og; s ← go_make (len srvs) "";
                    Some (<[k := go_copy s srvs]> g))
             (Some (Groups c)) (map_to_list (Groups cfg));
  Some (mkShardConfig (Num cfg) (Shards cfg) groups).

(** ** Balancing *)

(** [counts[g] += 1] for every shard. *)
Definition shardCounts (shards : list Tgid) : gmap Tgid Z :=
  foldl (λ m g, <[g := default 0 (m !! g) + 1]> m) ∅ shards.

Definition sortedGroups (c : ShardConfig) : list Tgid :=
  merge_sort Z.le (elements (dom (Groups c))).

(** mostgroup, mostn, leastgroup, leastn *)
Definition analyze (c : ShardConfig) : Tgid * Z * Tgid * Z :=
  let counts := shardCounts (Shards c) in
  foldl (λ '(mg, mn, lg, ln) g,
           let n := default 0 (counts !! g) in
           let '(lg, ln) := if n <? ln then (g, n) else (lg, ln) in
           let '(mg, mn) := if mn <? n then (g, n) else (mg, mn) in
           (mg, mn, lg, ln))
    (-1, -1, -1, 257) (sortedGroups c).

Definition least (c : ShardConfig) : Tgid := let '(_, _, lg, _) := analyze c in lg.

Definition set_Shards (shards : list Tgid) (c : ShardConfig) : ShardConfig :=
  mkShardConfig (Num c) shards (Groups c).

(** [for s, g := range c.Shards]: shards of no group go to the least loaded. *)
Fixpoint assignLoop (s : nat) (gs : list Tgid) (c : ShardConfig) : ShardConfig :=
  match gs with
  | [] => c
  | g :: gs =>
      assignLoop (S s) gs
        (match Groups c !! g with
         | Some _ => c
         | None => set_Shards (<[s := least c]> (Shards c)) c
         end)
  end.

(** The first shard of [mg] is given to [lg]. *)
Fixpoint moveOne (mg lg : Tgid) (shards : list Tgid) : list Tgid :=
  match shards with
  | [] => []
  | g :: gs => if g =? mg then lg :: gs else g :: moveOne mg lg gs
  end.

(** The loop that moves shards; [None] when the fuel is used up. *)
Fixpoint balanceLoop (fuel : nat) (c : ShardConfig) : option ShardConfig :=
  match fuel with
  | O => None
  | S fuel =>
      let '(mg, mn, lg, ln) := analyze c in
      if mn <? ln + 2 then Some c
      else balanceLoop fuel (set_Shards (moveOne mg lg (Shards c)) c)
  end.

(** Every move removes at least one pair of shards from the same group, so the
    number of such pairs bounds the moves. *)
Definition balanceFuel : nat := S (NShards * NShards).

Definition Rebalance (c : ShardConfig) : option ShardConfig :=
  if (size (Groups c) <? 1)%nat then Some (set_Shards ((λ _, 0) <$> Shards c) c)
  else balanceLoop balanceFuel (assignLoop 0 (Shards c) c).

(** ** Joining and leaving *)

(** The result of a call: [log.Fatalf], or the flag it returns and the
    configuration it leaves. *)
Inductive CfgOutcome := Fatal | Returned (ok : bool) (c : ShardConfig).

Definition set_Groups (g : gmap Tgid (list string)) (c : ShardConfig) : ShardConfig :=
  mkShardConfig (Num c) (Shards c) g.
Definition next_Num (c : ShardConfig) : ShardConfig :=
  mkShardConfig (Num c + 1) (Shards c) (Groups c).

(** Some server of a group of the configuration is among [servers]. *)
Definition sharesServer (c : ShardConfig) (servers : list string) : bool :=
  existsb (λ '(_, xservers), existsb (λ s1, existsb (λ s2, bool_decide (s1 = s2)) servers) xservers)
    (map_to_list (Groups c)).

Fixpoint Join_loop (changed : bool) (servers : list (Tgid * list string)) (cfg : ShardConfig) :
    CfgOutcome :=
  match servers with
  | [] => if changed then Returned true (next_Num cfg) else Fatal
  | (gid, srvs) :: servers =>
      match Groups cfg !! gid with
      | Some _ => Returned false cfg
      | None =>
          if sharesServer cfg srvs then Fatal
          else Join_loop true servers (set_Groups (<[gid := srvs]> (Groups cfg)) cfg)
      end
  end.

Definition Join (servers : list (Tgid * list string)) (cfg : ShardConfig) : CfgOutcome :=
  Join_loop false servers cfg.

Fixpoint Leave_loop (changed : bool) (gids : list Tgid) (cfg : ShardConfig) : CfgOutcome :=
  match gids with
  | [] => if changed then Returned true (next_Num cfg) else Fatal
  | gid :: gids =>
      match Groups cfg !! gid with
      | None => Returned false cfg
      | Some _ => Leave_loop true gids (set_Groups (delete gid (Groups cfg)) cfg)
      end
  end.

Definition Leave (gids : list Tgid) (cfg : ShardConfig) : CfgOutcome := Leave_loop false gids cfg.

(** [None] when Rebalance does not terminate. *)
Definition JoinBalance (servers : list (Tgid * list string)) (cfg : ShardConfig) : option CfgOutcome :=
  match Join servers cfg with
  | Fatal => Some Fatal
  | Returned false c => Some (Returned false c)
  | Returned true c => c' ← Rebalance c; Some (Returned true c')
  end.

Definition LeaveBalance (gids : list Tgid) (cfg : ShardConfig) : option CfgOutcome :=
  match Leave gids cfg with
  | Fatal => Some Fatal
  | Returned false c => Some (Returned false c)
  | Returned true c => c' ← Rebalance c; Some (Returned true c')
  end.

(** ** Lookups and the check of the tests *)

Definition GidServers (sh : Z) (cfg : ShardConfig) : option (Tgid * list string * bool) :=
  gid ← go_nth (Shards cfg) sh;
  Some (match Groups cfg !! gid with
        | Some srvs => (gid, srvs, true)
        | None => (gid, [], false)
        end).

Definition IsMember (gid : Tgid) (cfg : ShardConfig) : bool :=
  existsb (λ g, g =? gid) (Shards cfg).

(** [true] when no check calls [fatalf]. *)
Definition CheckConfig (groups : list Tgid) (cfg : ShardConfig) : bool :=
  (Z.of_nat (size (Groups cfg)) =? len groups) &&
  forallb (λ g, bool_decide (is_Some (Groups cfg !! g))) groups &&
  (if 0 <? len groups then
     forallb (λ g, bool_decide (is_Some (Groups cfg !! g))) (Shards cfg) else true) &&
  (let counts := shardCounts (Shards cfg) in
   let '(mn, mx) :=
     foldl (λ '(mn, mx) '(g, _),
              let n := default 0 (counts !! g) in
              let mx := if mx <? n then n else mx in
              let mn := if n <? mn then n else mn in
              (mn, mx)) (257, 0) (map_to_list (Groups cfg)) in
   mx <=? mn + 1).

(** ** Counting *)

(** The number of shards of [l] assigned to [g]. *)
Definition cnt (l : list Tgid) (g : Tgid) : nat := length (filter (λ x, x = g) l).

Lemma cnt_cons x l g : cnt (x :: l) g = ((if decide (x = g) then 1 else 0) + cnt l g)%nat.
Proof. unfold cnt. rewrite filter_cons. by case_decide. Qed.

Lemma cnt_app l k g : cnt (l ++ k) g = (cnt l g + cnt k g)%nat.
Proof. unfold cnt. by rewrite list.filter_app, length_app. Qed.

Lemma cnt_le l g : (cnt l g <= length l)%nat.
Proof. apply length_filter. Qed.

#[local] Instance cnt_perm : Proper ((≡ₚ) ==> (=) ==> (=)) cnt.
Proof. intros l l' Hl g ? <-. unfold cnt. by rewrite Hl. Qed.

Lemma cnt_pos l g : g ∈ l → (0 < cnt l g)%nat.
Proof.
  intros (a & b & ->)%list_elem_of_split. rewrite cnt_app, cnt_cons, decide_True by done. lia.
Qed.

Lemma shardCounts_lookup l g : default 0 (shardCounts l !! g) = Z.of_nat (cnt l g).
Proof.
  unfold shardCounts. induction l as [|x l IH] using rev_ind; [done|].
  rewrite foldl_app, cnt_app, cnt_cons. simpl. destruct (decide (x = g)) as [->|Hne].
  - rewrite lookup_insert_eq, IH. unfold cnt. simpl. lia.
  - rewrite lookup_insert_ne, IH by done. unfold cnt. simpl. lia.
Qed.

(** The pairs of shards assigned to the same group. *)
Definition pairs (l : list Tgid) : nat := sum_list_with (cnt l) l.

Lemma sum_list_with_ext {A} (f g : A → nat) l :
  (∀ x, x ∈ l → f x = g x) → sum_list_with f l = sum_list_with g l.
Proof. induction l as [|x l IH]; intros H; simpl; [done|]. rewrite H, IH by set_solver. done. Qed.

Lemma sum_list_with_count l k x :
  sum_list_with (λ y, (if decide (x = y) then 1 else 0) + cnt k y)%nat l =
  (cnt l x + sum_list_with (cnt k) l)%nat.
Proof.
  induction l as [|y l IH]; [done|]. simpl. rewrite IH, cnt_cons.
  destruct (decide (x = y)) as [->|Hne]; [rewrite decide_True by done|rewrite decide_False by done];
    lia.
Qed.

Lemma pairs_cons x l : pairs (x :: l) = (pairs l + 2 * cnt l x + 1)%nat.
Proof.
  unfold pairs. simpl. rewrite cnt_cons, decide_True by done.
  rewrite (sum_list_with_ext _ (λ y, (if decide (x = y) then 1 else 0) + cnt l y)%nat)
    by (intros; apply cnt_cons).
  rewrite sum_list_with_count. lia.
Qed.

#[local] Instance pairs_perm : Proper ((≡ₚ) ==> (=)) pairs.
Proof.
  intros l l' Hl. unfold pairs.
  rewrite (sum_list_with_ext (cnt l) (cnt l')) by (intros; by rewrite Hl).
  clear -Hl. generalize (cnt l'). intros f. induction Hl; simpl; lia.
Qed.

Lemma pairs_le l : (pairs l <= length l * length l)%nat.
Proof.
  unfold pairs. assert (∀ k, (sum_list_with (cnt l) k <= length k * length l)%nat) as H.
  { induction k as [|x k IH]; simpl; [lia|]. pose proof (cnt_le l x). lia. }
  apply H.
Qed.

(** ** analyze *)

(** The least and the most loaded of the groups seen so far. *)
Definition extremes (l gs : list Tgid) (r : Tgid * Z * Tgid * Z) : Prop :=
  let '(mg, mn, lg, ln) := r in
  match gs with
  | [] => mn = -1 ∧ ln = 257
  | _ => mg ∈ gs ∧ mn = Z.of_nat (cnt l mg) ∧ (∀ g, g ∈ gs → Z.of_nat (cnt l g) <= mn) ∧
         lg ∈ gs ∧ ln = Z.of_nat (cnt l lg) ∧ (∀ g, g ∈ gs → ln <= Z.of_nat (cnt l g))
  end.

Lemma sortedGroups_elem c g : g ∈ sortedGroups c ↔ is_Some (Groups c !! g).
Proof.
  unfold sortedGroups. rewrite merge_sort_Permutation, elem_of_elements. apply elem_of_dom.
Qed.

Lemma analyze_extremes c :
  (length (Shards c) < 257)%nat → extremes (Shards c) (sortedGroups c) (analyze c).
Proof.
  intros Hlen. unfold analyze. generalize (sortedGroups c). intros gs.
  induction gs as [|g gs IH] using rev_ind; [done|].
  rewrite foldl_app. simpl. destruct (foldl _ _ gs) as [[[mg mn] lg] ln].
  rewrite shardCounts_lookup. set (n := Z.of_nat (cnt (Shards c) g)).
  assert (0 <= n < 257) as Hn by (pose proof (cnt_le (Shards c) g); lia).
  destruct gs as [|g0 gs'].
  - destruct IH as [-> ->]. simpl.
    rewrite (proj2 (Z.ltb_lt n 257)), (proj2 (Z.ltb_lt (-1) n)) by lia. simpl.
    split_and!; try set_solver.
  - assert (∃ g1 gs1, (g0 :: gs') ++ [g] = g1 :: gs1) as (g1 & gs1 & Hgs) by (simpl; eauto).
    destruct IH as (H1 & H2 & H3 & H4 & H5 & H6).
    assert (∀ x, x ∈ g1 :: gs1 ↔ x ∈ g0 :: gs' ∨ x = g) as Hx by (rewrite <-Hgs; set_solver).
    unfold extremes. destruct (n <? ln) eqn:Hl, (mn <? n) eqn:Hm; bool_to_prop; rewrite Hgs;
      setoid_rewrite Hx; (split_and!; [auto|done|..]).
    all: try (by right). all: try (by left).
    all: try done.
    all: intros x [Hin|Hin]; [first [specialize (H3 x Hin)|idtac]; specialize (H6 x Hin); lia|subst; lia].
Qed.

(** ** Rebalance *)

(** Every shard belongs to a group of the configuration. *)
Definition assigned (c : ShardConfig) : Prop := Forall (λ g, is_Some (Groups c !! g)) (Shards c).

Definition balanced (c : ShardConfig) : Prop :=
  ∀ g1 g2, is_Some (Groups c !! g1) → is_Some (Groups c !! g2) →
    (cnt (Shards c) g1 <= cnt (Shards c) g2 + 1)%nat.

(** Same groups, number and number of shards. *)
Definition same_groups (c c' : ShardConfig) : Prop :=
  Num c' = Num c ∧ Groups c' = Groups c ∧ length (Shards c') = length (Shards c).

Lemma sortedGroups_nonempty c : Groups c ≠ ∅ → sortedGroups c ≠ [].
Proof.
  intros (g & x & Hg)%map_choose Hn. assert (g ∈ sortedGroups c) as Hin
    by (apply sortedGroups_elem; eauto).
  rewrite Hn in Hin. by apply elem_of_nil in Hin.
Qed.

(** The result of analyze when there are groups. *)
Lemma analyze_spec c mg mn lg ln :
  (length (Shards c) < 257)%nat → Groups c ≠ ∅ → analyze c = (mg, mn, lg, ln) →
  is_Some (Groups c !! mg) ∧ mn = Z.of_nat (cnt (Shards c) mg) ∧
  is_Some (Groups c !! lg) ∧ ln = Z.of_nat (cnt (Shards c) lg) ∧
  ∀ g, is_Some (Groups c !! g) → ln <= Z.of_nat (cnt (Shards c) g) <= mn.
Proof.
  intros Hlen Hne Ha. pose proof (analyze_extremes c Hlen) as He. rewrite Ha in He.
  pose proof (sortedGroups_nonempty c Hne). pose proof (sortedGroups_elem c) as Hel.
  destruct (sortedGroups c) as [|g0 gs] eqn:Hs; [done|].
  destruct He as (H1 & H2 & H3 & H4 & H5 & H6). split_and!; try done; [by apply Hel..|].
  intros g Hg%Hel. auto.
Qed.

Lemma least_spec c :
  (length (Shards c) < 257)%nat → Groups c ≠ ∅ → is_Some (Groups c !! least c).
Proof.
  intros Hlen Hne. unfold least. destruct (analyze c) as [[[mg mn] lg] ln] eqn:Ha.
  by destruct (analyze_spec _ _ _ _ _ Hlen Hne Ha) as (_ & _ & ? & _).
Qed.

Lemma assignLoop_spec gs : ∀ s c pre,
  Shards c = pre ++ gs → length pre = s → Forall (λ g, is_Some (Groups c !! g)) pre →
  (length (Shards c) < 257)%nat → Groups c ≠ ∅ →
  let c' := assignLoop s gs c in
  same_groups c c' ∧ assigned c' ∧
  ∀ i g, Shards c !! i = Some g → is_Some (Groups c !! g) → Shards c' !! i = Some g.
Proof.
  induction gs as [|g gs IH]; simpl; intros s c pre Hs Hp Hf Hlen Hne.
  { rewrite app_nil_r in Hs. split_and!; [done| |done]. unfold assigned. by rewrite Hs. }
  destruct (Groups c !! g) as [x|] eqn:Hg.
  - destruct (IH (S s) c (pre ++ [g])) as (H1 & H2 & H3); try done.
    + by rewrite <-app_assoc.
    + rewrite length_app. simpl. lia.
    + apply Forall_app. split; [done|]. constructor; [by rewrite Hg|constructor].
  - set (c1 := set_Shards (<[s := least c]> (Shards c)) c).
    assert (Shards c1 = pre ++ least c :: gs) as Hs1.
    { unfold c1. simpl. rewrite Hs, <-Hp. by rewrite insert_app_r_alt, Nat.sub_diag by lia. }
    destruct (IH (S s) c1 (pre ++ [least c])) as (H1 & H2 & H3).
    + by rewrite Hs1, <-app_assoc.
    + rewrite length_app. simpl. lia.
    + apply Forall_app. split; [done|]. constructor; [exact (least_spec c Hlen Hne)|constructor].
    + unfold c1. simpl. by rewrite length_insert.
    + done.
    + destruct H1 as (? & ? & Hl). split_and!; [| |].
      * unfold same_groups. rewrite Hl. unfold c1. simpl. by rewrite length_insert.
      * done.
      * intros i g' Hi Hg'. apply H3; [|done]. unfold c1. simpl.
        rewrite list_lookup_insert_ne; [done|]. intros <-. rewrite Hs, <-Hp in Hi.
        rewrite lookup_app_r, Nat.sub_diag in Hi by lia. simpl in Hi. simplify_eq.
        rewrite Hg in Hg'. by destruct Hg'.
Qed.

Lemma moveOne_spec mg lg l :
  mg ∈ l → ∃ a b, l = a ++ mg :: b ∧ moveOne mg lg l = a ++ lg :: b.
Proof.
  induction l as [|g l IH]; intros Hin; [by apply elem_of_nil in Hin|]. simpl.
  destruct (g =? mg) eqn:He; bool_to_prop; [subst; by exists [], l|].
  destruct IH as (a & b & -> & ->); [set_solver|]. by exists (g :: a), b.
Qed.

Lemma cnt_elem l g : (0 < cnt l g)%nat → g ∈ l.
Proof.
  unfold cnt. destruct (filter (λ x, x = g) l) as [|x k] eqn:He; [simpl; lia|]. intros _.
  assert (x ∈ filter (λ x, x = g) l) as Hx by (rewrite He; apply list_elem_of_here).
  by apply list_elem_of_filter in Hx as [-> ?].
Qed.

(** A move brings the configuration closer to balance. *)
Lemma move_pairs mg lg l :
  (cnt l lg + 2 <= cnt l mg)%nat →
  (pairs (moveOne mg lg l) < pairs l)%nat ∧ length (moveOne mg lg l) = length l ∧
  ∀ g, g ∈ moveOne mg lg l → g ∈ l ∨ g = lg.
Proof.
  intros Hc. destruct (moveOne_spec mg lg l) as (a & b & -> & ->); [apply cnt_elem; lia|].
  rewrite <-!Permutation_middle in *. rewrite !cnt_cons in Hc. destruct (decide (mg = mg)); [|done].
  split_and!; [|done|set_solver].
  rewrite !pairs_cons. destruct (decide (mg = lg)); lia.
Qed.

Lemma balanceLoop_spec fuel : ∀ c,
  (length (Shards c) < 257)%nat → Groups c ≠ ∅ → assigned c → (pairs (Shards c) < fuel)%nat →
  ∃ c', balanceLoop fuel c = Some c' ∧ same_groups c c' ∧ assigned c' ∧ balanced c'.
Proof.
  induction fuel as [|fuel IH]; intros c Hlen Hne Has Hf; [lia|]. simpl.
  destruct (analyze c) as [[[mg mn] lg] ln] eqn:Ha.
  destruct (analyze_spec _ _ _ _ _ Hlen Hne Ha) as (Hmg & -> & Hlg & -> & Hall).
  destruct (_ <? _) eqn:Hlt; bool_to_prop.
  - exists c. split_and!; try done. intros g1 g2 H1 H2. apply Hall in H1, H2. lia.
  - destruct (move_pairs mg lg (Shards c)) as (Hp & Hl & Hin); [lia|].
    destruct (IH (set_Shards (moveOne mg lg (Shards c)) c)) as (c' & Hc & (? & ? & Hl') & ? & ?);
      simpl; [lia|done| |lia|].
    + apply list.Forall_forall. intros g [Hg| ->]%Hin; [|done].
      by apply (proj1 (list.Forall_forall _ _) Has).
    + exists c'. split_and!; try done. unfold same_groups. by rewrite Hl'.
Qed.

Lemma Rebalance_result c :
  length (Shards c) = NShards → Groups c ≠ ∅ →
  ∃ c', Rebalance c = Some c' ∧ same_groups c c' ∧ assigned c' ∧ balanced c'.
Proof.
  intros Hlen Hne. unfold Rebalance.
  assert (size (Groups c) ≠ 0%nat) by (by rewrite map_size_non_empty_iff).
  rewrite (proj2 (Nat.ltb_ge _ _)) by lia.
  destruct (assignLoop_spec (Shards c) 0 c []) as ((Hn & Hg & Hl) & Has & _);
    [done|done|constructor|rewrite Hlen; unfold NShards; lia|done|].
  destruct (balanceLoop_spec balanceFuel (assignLoop 0 (Shards c) c)) as (c' & Hc & Hsame & Ha & Hb).
  - rewrite Hl, Hlen. unfold NShards. lia.
  - by rewrite Hg.
  - done.
  - unfold balanceFuel. pose proof (pairs_le (Shards (assignLoop 0 (Shards c) c))) as Hp.
    rewrite Hl, Hlen in Hp. lia.
  - exists c'. split_and!; try done. destruct Hsame as (? & ? & ?).
    unfold same_groups. split_and!; congruence.
Qed.

(** C37. Rebalance always terminates (its loop makes at most 144 moves) and
    keeps the groups and the configuration number; when there are groups it
    leaves every shard assigned to one of them and the loads of any two groups
    at most one apart, and with no groups it unassigns every shard. *)
Theorem Rebalance_balances c :
  length (Shards c) = NShards →
  ∃ c', Rebalance c = Some c' ∧ same_groups c c' ∧
    (Groups c ≠ ∅ → assigned c' ∧ balanced c') ∧
    (Groups c = ∅ → ∀ g, g ∈ Shards c' → g = 0).
Proof.
  intros Hlen. destruct (decide (Groups c = ∅)) as [He|Hne].
  - exists (set_Shards ((λ _, 0) <$> Shards c) c). unfold Rebalance. rewrite He, map_size_empty.
    split_and!; [done| |done|].
    + unfold same_groups. simpl. by rewrite length_fmap.
    + intros _ g. simpl. set_solver.
  - destruct (Rebalance_result c Hlen Hne) as (c' & ? & ? & ? & ?). exists c'. done.
Qed.

Lemma assignLoop_id gs : ∀ s c,
  Forall (λ g, is_Some (Groups c !! g)) gs → assignLoop s gs c = c.
Proof.
  induction gs as [|g gs IH]; intros s c Hf; [done|]. simpl.
  apply list.Forall_cons in Hf as [[x Hx] Hf]. rewrite Hx. auto.
Qed.

(** A configuration that is already balanced is left exactly as it is: no
    shard moves without need, and rebalancing twice is rebalancing once. *)
Theorem Rebalance_stable c :
  length (Shards c) = NShards → Groups c ≠ ∅ → assigned c → balanced c → Rebalance c = Some c.
Proof.
  intros Hlen Hne Ha Hb. unfold Rebalance.
  assert (size (Groups c) ≠ 0%nat) by (by rewrite map_size_non_empty_iff).
  rewrite (proj2 (Nat.ltb_ge _ _)), assignLoop_id by (done || lia).
  unfold balanceFuel. cbn [balanceLoop].
  destruct (analyze c) as [[[mg mn] lg] ln] eqn:Han.
  destruct (analyze_spec c mg mn lg ln) as (Hmg & -> & Hlg & -> & _); [|done|done|].
  - rewrite Hlen. unfold NShards. lia.
  - rewrite (proj2 (Z.ltb_lt _ _)); [done|]. specialize (Hb mg lg Hmg Hlg). lia.
Qed.

(** ** CheckConfig accepts what Rebalance leaves *)

Lemma minmax_balanced (ns : list (Tgid * list string)) (f : Tgid → Z) : ∀ mn mx,
  mx <= mn + 1 → (∀ e, e ∈ ns → f e.1 <= mn + 1 ∧ mx <= f e.1 + 1) →
  (∀ e e', e ∈ ns → e' ∈ ns → f e.1 <= f e'.1 + 1) →
  let '(mn', mx') :=
    foldl (λ '(mn, mx) '(g, _),
             let n := f g in
             let mx := if mx <? n then n else mx in
             let mn := if n <? mn then n else mn in
             (mn, mx)) (mn, mx) ns in
  mx' <= mn' + 1.
Proof.
  induction ns as [|[g x] ns IH]; simpl; intros mn mx H0 H1 H2; [done|].
  pose proof (H1 (g, x) (list_elem_of_here _ _)) as Hg. simpl in Hg. apply IH.
  - destruct (mx <? f g) eqn:?, (f g <? mn) eqn:?; bool_to_prop; lia.
  - intros e He. pose proof (H1 e (list_elem_of_further _ _ _ He)).
    pose proof (H2 e (g, x) (list_elem_of_further _ _ _ He) (list_elem_of_here _ _)).
    pose proof (H2 (g, x) e (list_elem_of_here _ _) (list_elem_of_further _ _ _ He)). simpl in *.
    destruct (mx <? f g) eqn:?, (f g <? mn) eqn:?; bool_to_prop; lia.
  - intros e e' He He'. apply H2; by apply list_elem_of_further.
Qed.

Lemma CheckConfig_ok c groups :
  (length (Shards c) < 257)%nat → groups ≡ₚ elements (dom (Groups c)) →
  (Groups c ≠ ∅ → assigned c) → balanced c → CheckConfig groups c = true.
Proof.
  intros Hlen Hgs Has Hb. unfold CheckConfig.
  assert (∀ g, g ∈ groups ↔ is_Some (Groups c !! g)) as Hin.
  { intros g. rewrite Hgs, elem_of_elements. apply elem_of_dom. }
  rewrite !andb_true_iff. split_and!.
  - apply Z.eqb_eq. rewrite Hgs. change (length (elements ?X)) with (size X).
    by rewrite size_dom.
  - apply forallb_forall. intros g Hg%list_elem_of_In. by apply bool_decide_eq_true, Hin.
  - destruct (_ <? _) eqn:Hl; [|done]. bool_to_prop.
    assert (Groups c ≠ ∅) as Hne.
    { intros He. rewrite Hgs, He, dom_empty_L, elements_empty in Hl. done. }
    apply forallb_forall. intros g Hg%list_elem_of_In. apply bool_decide_eq_true.
    by apply (proj1 (list.Forall_forall _ _) (Has Hne)).
  - pose proof (minmax_balanced (map_to_list (Groups c))
      (λ g, default 0 (shardCounts (Shards c) !! g)) 257 0) as Hm.
    cbv zeta in Hm |- *. destruct (foldl _ (257, 0) _) as [mn mx]. apply Z.leb_le, Hm; [lia|..].
    + intros e _. rewrite shardCounts_lookup. pose proof (cnt_le (Shards c) e.1). lia.
    + intros [g x] [g' x'] H1%elem_of_map_to_list H2%elem_of_map_to_list. simpl.
      rewrite !shardCounts_lookup. specialize (Hb g g' ltac:(eauto) ltac:(eauto)). lia.
Qed.

(** ** Joining and leaving *)

(** No server is in two groups. *)
Definition disjoint_groups (c : ShardConfig) : Prop :=
  ∀ g1 g2 s1 s2 srv, Groups c !! g1 = Some s1 → Groups c !! g2 = Some s2 →
    srv ∈ s1 → srv ∈ s2 → g1 = g2.

Lemma sharesServer_false c srvs :
  sharesServer c srvs = false →
  ∀ g xs s, Groups c !! g = Some xs → s ∈ xs → s ∉ srvs.
Proof.
  unfold sharesServer. intros H g xs s Hg Hs Hin.
  apply not_true_iff_false in H. apply H. apply existsb_exists. exists (g, xs).
  split; [by apply list_elem_of_In, elem_of_map_to_list|].
  apply existsb_exists. exists s. split; [by apply list_elem_of_In|].
  apply existsb_exists. exists s. split; [by apply list_elem_of_In|]. by apply bool_decide_eq_true.
Qed.

Lemma Join_loop_spec servers : ∀ changed cfg c',
  Join_loop changed servers cfg = Returned true c' → NoDup servers.*1 →
  (changed = true ∨ servers ≠ []) ∧
  Num c' = Num cfg + 1 ∧ Shards c' = Shards cfg ∧
  Groups c' = list_to_map servers ∪ Groups cfg ∧
  (∀ gid, gid ∈ servers.*1 → Groups cfg !! gid = None) ∧
  (disjoint_groups cfg → disjoint_groups c').
Proof.
  induction servers as [|[gid srvs] servers IH]; simpl; intros changed cfg c' H Hnd.
  { destruct changed; [|done]. simplify_eq. simpl. rewrite (left_id_L ∅ (∪)).
    split_and!; try done; [by left|]. intros gid Hg. by apply elem_of_nil in Hg. }
  destruct (Groups cfg !! gid) eqn:Hg; [done|]. destruct (sharesServer cfg srvs) eqn:Hsh; [done|].
  apply list.NoDup_cons in Hnd as [Hni Hnd].
  destruct (IH _ _ _ H Hnd) as (_ & HN & HS & HG & Hnew & Hdis). simpl in *.
  assert (list_to_map servers !! gid = None) as Hnone by (by apply not_elem_of_list_to_map).
  split_and!; [by right|done|done| | |].
  - rewrite HG. rewrite <-insert_union_l. symmetry. by apply insert_union_r.
  - intros g [->|Hin]%elem_of_cons; [done|]. specialize (Hnew g Hin).
    rewrite lookup_insert_None in Hnew. naive_solver.
  - intros Hd. apply Hdis. intros g1 g2 s1 s2 srv. simpl.
    rewrite !lookup_insert_Some. pose proof (sharesServer_false _ _ Hsh) as Hs.
    intros [[<- <-]|[? H1]] [[<- <-]|[? H2]] Hi1 Hi2; [done| | |by eapply Hd].
    + by destruct (Hs _ _ _ H2 Hi2).
    + by destruct (Hs _ _ _ H1 Hi1).
Qed.

Lemma Leave_loop_spec gids : ∀ changed cfg c',
  Leave_loop changed gids cfg = Returned true c' →
  Num c' = Num cfg + 1 ∧ Shards c' = Shards cfg ∧
  (∀ g, Groups c' !! g = if decide (g ∈ gids) then None else Groups cfg !! g).
Proof.
  induction gids as [|gid gids IH]; simpl; intros changed cfg c' H.
  { destruct changed; [|done]. by simplify_eq. }
  destruct (Groups cfg !! gid) eqn:Hg; [|done].
  destruct (IH _ _ _ H) as (HN & HS & HG). simpl in *. split_and!; [done|done|].
  intros g. rewrite HG. destruct (decide (g ∈ gids)).
  - by rewrite decide_True by set_solver.
  - destruct (decide (g = gid)) as [->|Hne].
    + rewrite lookup_delete_eq, decide_True by set_solver. done.
    + rewrite lookup_delete_ne, decide_False by set_solver. done.
Qed.

(** Rebalancing after a change of the groups. *)
Lemma Rebalance_checks c :
  length (Shards c) = NShards →
  ∃ c', Rebalance c = Some c' ∧ same_groups c c' ∧
    ∀ groups, groups ≡ₚ elements (dom (Groups c)) → CheckConfig groups c' = true.
Proof.
  intros Hlen. destruct (decide (Groups c = ∅)) as [He|Hne].
  - exists (set_Shards ((λ _, 0) <$> Shards c) c). unfold Rebalance. rewrite He, map_size_empty.
    split_and!; [done|unfold same_groups; simpl; by rewrite length_fmap|].
    intros groups Hg. apply CheckConfig_ok; simpl; [|by rewrite He|done|].
    + rewrite length_fmap, Hlen. unfold NShards. lia.
    + intros g1 g2. simpl. rewrite He, lookup_empty. by intros [? ?].
  - destruct (Rebalance_result c Hlen Hne) as (c' & Hr & (HN & HG & HL) & Ha & Hb).
    exists c'. split_and!; [done|done|]. intros groups Hg.
    apply CheckConfig_ok; [|by rewrite HG|done|done]. rewrite HL, Hlen. unfold NShards. lia.
Qed.

(** Joining groups to a configuration, whatever the order in which the map
    is traversed: JoinBalance returns (or reports a fatal error), and on success
    the new configuration has the next number, the old and the new groups, no
    server in two groups, and passes CheckConfig for exactly those groups. *)
Theorem JoinBalance_spec servers cfg :
  length (Shards cfg) = NShards → NoDup servers.*1 → disjoint_groups cfg →
  ∃ o, JoinBalance servers cfg = Some o ∧
    ∀ c', o = Returned true c' →
      servers ≠ [] ∧ Num c' = Num cfg + 1 ∧ Groups c' = list_to_map servers ∪ Groups cfg ∧
      (∀ gid, gid ∈ servers.*1 → Groups cfg !! gid = None) ∧ disjoint_groups c' ∧
      length (Shards c') = NShards ∧
      ∀ groups, groups ≡ₚ elements (dom (Groups c')) → CheckConfig groups c' = true.
Proof.
  intros Hlen Hnd Hd. unfold JoinBalance.
  destruct (Join servers cfg) as [|[] c1] eqn:Hj; [eexists; split; [done|naive_solver]| |
    eexists; split; [done|naive_solver]].
  destruct (Join_loop_spec _ _ _ _ Hj Hnd) as ([?|Hne] & HN & HS & HG & Hnew & Hdis); [done|].
  destruct (Rebalance_checks c1) as (c' & -> & (HN' & HG' & HL) & Hck); [by rewrite HS|].
  eexists. split; [done|]. intros ? [= <-]. rewrite HN', HG', HL, HS.
  split_and!; try done. intros g1 g2. rewrite HG'. apply Hdis, Hd.
Qed.

(** Leaving: LeaveBalance returns (or reports a fatal error), and on
    success the new configuration has the next number, exactly the groups that
    did not leave, and passes CheckConfig for them (with no group left, every
    shard is unassigned). *)
Theorem LeaveBalance_spec gids cfg :
  length (Shards cfg) = NShards →
  ∃ o, LeaveBalance gids cfg = Some o ∧
    ∀ c', o = Returned true c' →
      Num c' = Num cfg + 1 ∧
      (∀ g, Groups c' !! g = if decide (g ∈ gids) then None else Groups cfg !! g) ∧
      length (Shards c') = NShards ∧
      ∀ groups, groups ≡ₚ elements (dom (Groups c')) → CheckConfig groups c' = true.
Proof.
  intros Hlen. unfold LeaveBalance.
  destruct (Leave gids cfg) as [|[] c1] eqn:Hj; [eexists; split; [done|naive_solver]| |
    eexists; split; [done|naive_solver]].
  destruct (Leave_loop_spec _ _ _ _ Hj) as (HN & HS & HG).
  destruct (Rebalance_checks c1) as (c' & -> & (HN' & HG' & HL) & Hck); [by rewrite HS|].
  eexists. split; [done|]. intros ? [= <-]. rewrite HN', HG', HL, HS. split_and!; done.
Qed.

(** ** Keys *)

(** Every key belongs to one of the NShards shards, so looking up the
    group of a key never indexes outside the configuration. *)
Theorem Key2Shard_in_range key cfg :
  length (Shards cfg) = NShards →
  0 <= Key2Shard key < Z.of_nat NShards ∧ is_Some (GidServers (Key2Shard key) cfg).
Proof.
  intros Hlen. assert (0 <= Key2Shard key < Z.of_nat NShards) as Hr.
  { unfold Key2Shard. pose proof (fnv1a_range key fnv_offset) as Hf.
    rewrite Z.rem_mod_nonneg; [apply Z.mod_pos_bound; unfold NShards; lia| |unfold NShards; lia].
    apply Hf. unfold fnv_offset. lia. }
  split; [done|]. unfold GidServers.
  destruct (proj2 (go_nth_is_Some (Shards cfg) (Key2Shard key))) as [g ->]; [lia|done].
Qed.

(** ** Copy *)

Lemma copy_groups (l : list (Tgid * list string)) : ∀ g : gmap Tgid (list string),
  foldl (λ og '(k, srvs), g ← og; s ← go_make (len srvs) ""; Some (<[k := go_copy s srvs]> g))
    (Some g) l = Some (foldr (λ p, <[p.1 := p.2]>) g (reverse l)).
Proof.
  induction l as [|[k srvs] l IH] using rev_ind; intros g; [done|].
  rewrite foldl_app, IH, reverse_app. simpl.
  rewrite go_make_ok by lia. simpl.
  by rewrite go_copy_exact by (rewrite length_replicate; lia).
Qed.

Lemma Copy_equal cfg : Copy cfg = Some cfg.
Proof.
  unfold Copy. rewrite copy_groups. simpl. f_equal. destruct cfg as [n sh gs]. simpl. f_equal.
  change (foldr _ ∅ ?l) with (list_to_map (M:=gmap Tgid (list string)) l).
  rewrite <-(list_to_map_to_list gs) at 2. apply list_to_map_proper.
  - rewrite reverse_Permutation. apply NoDup_fst_map_to_list.
  - by rewrite reverse_Permutation.
Qed.

(** ** As a string

    [None] is log.Fatalf. *)
Section Json.
Context (json_marshal : ShardConfig → option string) (json_unmarshal : string → option ShardConfig).

Definition ShardConfig_String (cfg : ShardConfig) : option string := json_marshal cfg.
Definition FromString (s : string) : option ShardConfig := json_unmarshal s.

(** A configuration that a controller stores as a string is read back. *)
Lemma FromString_String (round_trip : ∀ cfg, ∃ s, json_marshal cfg = Some s ∧ json_unmarshal s = Some cfg) cfg :
  ∃ s, ShardConfig_String cfg = Some s ∧ FromString s = Some cfg.
Proof. apply round_trip. Qed.

End Json.

(** ** Instances *)

Definition one_group : ShardConfig := mkShardConfig 1 (replicate NShards 1) {[1 := ["a"]]}.

(** A Join that is refused half way leaves the groups it had already added, and
    which ones depends on the order of the map. *)
Lemma refused_Join_changes_groups :
  Join [(2, ["b"]); (1, ["c"])] one_group =
    Returned false (mkShardConfig 1 (replicate NShards 1) (<[2 := ["b"]]> {[1 := ["a"]]})) ∧
  Join [(1, ["c"]); (2, ["b"])] one_group = Returned false one_group.
Proof. by vm_compute. Qed.

Lemma one_group_disjoint : disjoint_groups one_group.
Proof.
  intros g1 g2 s1 s2 srv. unfold one_group. simpl. rewrite !lookup_singleton_Some. naive_solver.
Qed.

Lemma Rebalance_balances_witness :
  ∃ c', Rebalance (mkShardConfig 1 (replicate NShards 1) {[1 := ["a"]; 2 := ["b"]; 3 := ["c"]]})
          = Some c' ∧ balanced c'.
Proof.
  destruct (Rebalance_balances
    (mkShardConfig 1 (replicate NShards 1) {[1 := ["a"]; 2 := ["b"]; 3 := ["c"]]}))
    as (c' & Hr & _ & Hb & _); [done|].
  exists c'. split; [exact Hr|]. by apply Hb.
Defined.

Lemma Rebalance_stable_witness : Rebalance one_group = Some one_group.
Proof.
  apply (Rebalance_stable one_group); [done|done| |].
  - unfold assigned. apply list.Forall_forall. intros g. simpl.
    intros Hg. assert (g = 1) as -> by (simpl in Hg; set_solver). by eexists.
  - intros g1 g2 H1 H2. simpl in *. rewrite !lookup_singleton_is_Some in *. subst. lia.
Defined.

Lemma JoinBalance_spec_witness :
  ∃ c', JoinBalance [(2, ["b"]); (3, ["c"])] one_group = Some (Returned true c') ∧ Num c' = 2.
Proof.
  destruct (JoinBalance_spec [(2, ["b"]); (3, ["c"])] one_group) as (o & Ho & Hc);
    [done| |apply one_group_disjoint|].
  { simpl. repeat constructor; set_solver. }
  destruct o as [|b c']; [by vm_compute in Ho|]. destruct b; [|by vm_compute in Ho].
  exists c'. split; [exact Ho|]. by destruct (Hc c' eq_refl) as (_ & -> & _).
Defined.

Lemma LeaveBalance_spec_witness :
  ∃ c', LeaveBalance [1] one_group = Some (Returned true c') ∧
    CheckConfig (elements (dom (Groups c'))) c' = true.
Proof.
  destruct (LeaveBalance_spec [1] one_group) as (o & Ho & Hc); [done|].
  destruct o as [|b c']; [by vm_compute in Ho|]. destruct b; [|by vm_compute in Ho].
  exists c'. split; [exact Ho|]. by apply (Hc c' eq_refl).
Defined.

Lemma Key2Shard_in_range_witness : is_Some (GidServers (Key2Shard "a") one_group).
Proof. by apply (Key2Shard_in_range "a" one_group). Defined.
