(* ===== verification/MrWorker.v ===== *)
(** * MapReduce: what the tasks compute

    Models the map and reduce tasks of src/6.5840/src/mr/worker.go, the
    sequential MapReduce of src/6.5840/src/main/mrsequential.go and the plug-ins
    of src/6.5840/src/mrapps whose functions compute their result.  The files of
    a task are byte strings; the scheduling of tasks is in MapReduce. *)

From S2P Require Import Prelude Gob.

Record KeyValue := mkKeyValue { kv_Key : string; kv_Value : string }.

#[export] Instance KeyValue_eq_dec : EqDecision KeyValue.
Proof. solve_decision. Defined.

(** *** Text *)

(** [utf8.ValidString]: the encodings of the code points but the surrogates, in the
    shortest form. *)
Definition byte_in (lo hi : N) (a : Ascii.ascii) : bool :=
  N.leb lo (Ascii.N_of_ascii a) && N.leb (Ascii.N_of_ascii a) hi.

Definition continues : Ascii.ascii → bool := byte_in 0x80 0xbf.

Definition utf8_two (a b : Ascii.ascii) : bool := byte_in 0xc2 0xdf a && continues b.

Definition utf8_three (a b c : Ascii.ascii) : bool :=
  (byte_in 0xe0 0xe0 a && byte_in 0xa0 0xbf b || byte_in 0xe1 0xec a && continues b ||
   byte_in 0xed 0xed a && byte_in 0x80 0x9f b || byte_in 0xee 0xef a && continues b) && continues c.

Definition utf8_four (a b c d : Ascii.ascii) : bool :=
  (byte_in 0xf0 0xf0 a && byte_in 0x90 0xbf b || byte_in 0xf1 0xf3 a && continues b ||
   byte_in 0xf4 0xf4 a && byte_in 0x80 0x8f b) && continues c && continues d.

Fixpoint utf8_valid (s : string) : bool :=
  match s with
  | EmptyString => true
  | String a s1 =>
      if byte_in 0 0x7f a then utf8_valid s1 else
      match s1 with
      | String b s2 =>
          if utf8_two a b then utf8_valid s2 else
          match s2 with
          | String c s3 =>
              if utf8_three a b c then utf8_valid s3 else
              match s3 with
              | String d s4 => utf8_four a b c d && utf8_valid s4
              | EmptyString => false
              end
          | EmptyString => false
          end
      | EmptyString => false
      end
  end.

Definition from_bytes (bs : list N) : string :=
  foldr (λ b s, String (Ascii.ascii_of_N b) s) EmptyString bs.

(** An e with an acute accent and a smiley; a lone continuation byte, an overlong
    slash, a surrogate and a truncated sequence. *)
Example utf8_values :
  utf8_valid "word" = true ∧ utf8_valid (from_bytes [0xc3; 0xa9; 0xf0; 0x9f; 0x98; 0x80]%N) = true ∧
  utf8_valid (from_bytes [0x80]%N) = false ∧ utf8_valid (from_bytes [0xc0; 0xaf]%N) = false ∧
  utf8_valid (from_bytes [0xed; 0xa0; 0x80]%N) = false ∧ utf8_valid (from_bytes [0xe2; 0x82]%N) = false.
Proof. vm_compute. done. Qed.

(** Pairs that package encoding/json writes as they are; it replaces the bytes of
    other strings. *)
Definition text_pair (kv : KeyValue) : Prop :=
  utf8_valid (kv_Key kv) = true ∧ utf8_valid (kv_Value kv) = true.

Definition ihash (key : string) : Z := Z.land (fnv1a fnv_offset key) 0x7fffffff.

(** [ByKey.Less] *)
Definition by_key_le (a b : KeyValue) : Prop := String.le (kv_Key a) (kv_Key b).

#[export] Instance by_key_le_dec : RelDecision by_key_le.
Proof. intros a b. unfold by_key_le. apply _. Defined.

(** ** Map tasks *)

(** The loop that distributes the pairs; [None] is the panic of an index out of
    range, or of the division by [nReduce = 0]. *)
Definition fillBuckets (nReduce : Z) (kva : list KeyValue) : option (list (list KeyValue)) :=
  buckets0 ← go_make nReduce [];
  foldl (λ ob kv,
           buckets ← ob;
           if nReduce =? 0 then None
           else
             let idx := Z.rem (ihash (kv_Key kv)) nReduce in
             b ← go_nth buckets idx; go_set buckets idx (b ++ [kv]))
    (Some buckets0) kva.

(** ** Reduce tasks *)

(** [for j < len(kva) && kva[j].Key == kva[i].Key { j++ }]: the pairs of the
    run and the rest. *)
Fixpoint takeRun (key : string) (kva : list KeyValue) : list KeyValue * list KeyValue :=
  match kva with
  | [] => ([], [])
  | kv :: rest =>
      if decide (kv_Key kv = key) then
        let '(run, rest') := takeRun key rest in (kv :: run, rest')
      else ([], kv :: rest)
  end.

(** [for i < len(kva)]: the lines of the output; the fuel is [len(kva)]. *)
Fixpoint reduceLoop (reducef : string → list string → string) (fuel : nat)
    (kva : list KeyValue) : list (string * string) :=
  match fuel, kva with
  | S fuel, kv :: rest =>
      let '(run, rest') := takeRun (kv_Key kv) rest in
      (kv_Key kv, reducef (kv_Key kv) (kv_Value <$> kv :: run)) :: reduceLoop reducef fuel rest'
  | _, _ => []
  end.

(** A line of the output file, ["%v %v\n"]. *)
Definition newline : string := String (Ascii.ascii_of_N 10) EmptyString.

Definition formatLine (l : string * string) : string := (l.1 ++ " " ++ l.2 ++ newline)%string.

(** ** The lines of a reduce task *)

Section Lines.
Context (reducef : string → list string → string).

Definition values_of (k : string) (kva : list KeyValue) : list string :=
  kv_Value <$> filter (λ kv, kv_Key kv = k) kva.

Lemma takeRun_spec key kva run rest :
  takeRun key kva = (run, rest) →
  kva = run ++ rest ∧ Forall (λ kv, kv_Key kv = key) run ∧
  match rest with [] => True | kv :: _ => kv_Key kv ≠ key end.
Proof.
  revert run rest. induction kva as [|kv kva IH]; simpl; intros run rest H; [by simplify_eq|].
  case_decide as Hk; [|by simplify_eq]. destruct (takeRun key kva) as [run' rest'].
  destruct (IH _ _ eq_refl) as (-> & Hf & Hr). simplify_eq. split_and!; [done|by constructor|done].
Qed.

Lemma sorted_suffix (l l' : list KeyValue) :
  StronglySorted by_key_le (l ++ l') → StronglySorted by_key_le l'.
Proof.
  induction l as [|x l IH]; [done|]. intros [Hs _]%StronglySorted_inv. auto.
Qed.

(** After the first run of a sorted list the key does not come back. *)
Lemma run_complete kv run rest :
  StronglySorted by_key_le (kv :: run ++ rest) → Forall (λ x, kv_Key x = kv_Key kv) run →
  match rest with [] => True | x :: _ => kv_Key x ≠ kv_Key kv end →
  Forall (λ x, kv_Key x ≠ kv_Key kv) rest.
Proof.
  intros Hs Hrun Hr. destruct rest as [|x rest]; [constructor|].
  apply StronglySorted_inv in Hs as [Hs Hall].
  apply list.Forall_app in Hall as [_ [Hx _]%list.Forall_cons].
  assert (StronglySorted by_key_le (x :: rest)) as Hs' by (by eapply sorted_suffix).
  apply StronglySorted_inv in Hs' as [_ Hx']. constructor; [done|].
  eapply list.Forall_impl; [done|]. intros y Hy Heq. apply Hr. apply (anti_symm String.le); [|done].
  unfold by_key_le in Hy. by rewrite Heq in Hy.
Qed.

Lemma values_of_app k l l' : values_of k (l ++ l') = values_of k l ++ values_of k l'.
Proof. unfold values_of. by rewrite list.filter_app, fmap_app. Qed.

Lemma values_of_all k l : Forall (λ kv, kv_Key kv = k) l → values_of k l = kv_Value <$> l.
Proof.
  induction 1 as [|kv l Hk _ IH]; [done|]. unfold values_of in *.
  rewrite filter_cons_True by done. simpl. by f_equal.
Qed.

Lemma values_of_none k l : Forall (λ kv, kv_Key kv ≠ k) l → values_of k l = [].
Proof.
  induction 1 as [|kv l Hk _ IH]; [done|]. unfold values_of in *. by rewrite filter_cons_False.
Qed.

(** On sorted pairs, one line per key, with the values of all its pairs. *)
Lemma reduceLoop_lines fuel : ∀ kva,
  StronglySorted by_key_le kva → (length kva <= fuel)%nat →
  NoDup (reduceLoop reducef fuel kva).*1 ∧
  (∀ k, k ∈ (reduceLoop reducef fuel kva).*1 ↔ k ∈ kv_Key <$> kva) ∧
  (∀ k v, (k, v) ∈ reduceLoop reducef fuel kva → v = reducef k (values_of k kva)).
Proof.
  induction fuel as [|fuel IH]; intros kva Hs Hf.
  { destruct kva; [|simpl in Hf; lia]. simpl. split_and!; [constructor|done|].
    intros k v Hin. by apply elem_of_nil in Hin. }
  destruct kva as [|kv kva]; simpl.
  { split_and!; [constructor|done|]. intros k v Hin. by apply elem_of_nil in Hin. }
  destruct (takeRun (kv_Key kv) kva) as [run rest] eqn:Hr.
  destruct (takeRun_spec _ _ _ _ Hr) as (-> & Hrun & Hnext).
  pose proof (run_complete _ _ _ Hs Hrun Hnext) as Hrest.
  apply StronglySorted_inv in Hs as [Hs _].
  destruct (IH rest) as (Hnd & Hk & Hv); [by eapply sorted_suffix| |].
  { simpl in Hf. rewrite length_app in Hf. lia. }
  split_and!.
  - simpl. constructor; [|done]. rewrite Hk. intros (x & Hx & Hin)%list_elem_of_fmap.
    by apply (proj1 (list.Forall_forall _ _) Hrest x Hin).
  - intros k. simpl. rewrite !elem_of_cons, Hk, fmap_app, elem_of_app.
    assert (k ∈ kv_Key <$> run → k = kv_Key kv); [|naive_solver].
    intros (x & -> & Hin)%list_elem_of_fmap. by apply (proj1 (list.Forall_forall _ _) Hrun x Hin).
  - intros k v [Heq|Hin]%elem_of_cons.
    + simplify_eq. f_equal. rewrite (app_comm_cons run rest kv), values_of_app.
      rewrite (values_of_none _ rest Hrest), app_nil_r. rewrite values_of_all; [done|].
      by constructor.
    + rewrite (Hv _ _ Hin). f_equal.
      assert (k ≠ kv_Key kv) as Hne.
      { assert (k ∈ (reduceLoop reducef fuel rest).*1) as Hkin
          by (apply list_elem_of_fmap; by exists (k, v)).
        apply Hk, list_elem_of_fmap in Hkin as (x & -> & Hx).
        by apply (proj1 (list.Forall_forall _ _) Hrest x Hx). }
      rewrite (app_comm_cons run rest kv), values_of_app.
      rewrite (values_of_none _ (kv :: run)); [done|]. constructor; [done|].
      eapply list.Forall_impl; [done|]. simpl. congruence.
Qed.

Lemma reduceLoop_elem kva k v :
  StronglySorted by_key_le kva →
  (k, v) ∈ reduceLoop reducef (length kva) kva ↔
    k ∈ kv_Key <$> kva ∧ v = reducef k (values_of k kva).
Proof.
  intros Hs. destruct (reduceLoop_lines (length kva) kva Hs) as (_ & Hk & Hv); [done|]. split.
  - intros Hin. split; [|by apply Hv]. apply Hk, list_elem_of_fmap. by exists (k, v).
  - intros [Hin ->]. apply Hk, list_elem_of_fmap in Hin as ([k' v'] & -> & Hin).
    simpl. by rewrite <-(Hv _ _ Hin).
Qed.

End Lines.

(** ** Buckets *)

(** The reduce task of a pair. *)
Definition bucketOf (n : nat) (kv : KeyValue) : nat :=
  Z.to_nat (Z.rem (ihash (kv_Key kv)) (Z.of_nat n)).

Definition bucket (n r : nat) (kva : list KeyValue) : list KeyValue :=
  filter (λ kv, bucketOf n kv = r) kva.

Lemma ihash_nonneg key : 0 <= ihash key.
Proof. unfold ihash. apply Z.land_nonneg. right. done. Qed.

Lemma bucketOf_lt n kv : (0 < n)%nat → (bucketOf n kv < n)%nat.
Proof.
  intros. unfold bucketOf. pose proof (ihash_nonneg (kv_Key kv)).
  rewrite Z.rem_mod_nonneg by lia.
  pose proof (Z.mod_pos_bound (ihash (kv_Key kv)) (Z.of_nat n) ltac:(lia)). lia.
Qed.

Lemma bucket_snoc n r kva kv :
  bucket n r (kva ++ [kv]) = if decide (bucketOf n kv = r) then bucket n r kva ++ [kv]
                             else bucket n r kva.
Proof.
  unfold bucket. rewrite list.filter_app, filter_cons, list.filter_nil.
  case_decide; [done|by rewrite app_nil_r].
Qed.

Lemma fillBuckets_spec n kva :
  (0 < n)%nat →
  fillBuckets (Z.of_nat n) kva = Some ((λ r, bucket n r kva) <$> seq 0 n).
Proof.
  intros Hn. unfold fillBuckets. rewrite go_make_ok by lia. rewrite Nat2Z.id. obind.
  induction kva as [|kv kva IH] using rev_ind.
  - simpl. f_equal. clear. generalize 0%nat. induction n as [|n IH]; intros k; [done|].
    simpl. f_equal. apply IH.
  - rewrite foldl_app, IH. simpl. rewrite (proj2 (Z.eqb_neq _ _)) by lia.
    pose proof (bucketOf_lt n kv Hn) as Hlt. pose proof (ihash_nonneg (kv_Key kv)).
    set (b := Z.rem (ihash (kv_Key kv)) (Z.of_nat n)).
    assert (0 <= b) as Hb by (unfold b; rewrite Z.rem_mod_nonneg by lia; apply Z.mod_pos_bound; lia).
    assert (b = Z.of_nat (bucketOf n kv)) as -> by (unfold bucketOf; fold b; lia).
    rewrite go_nth_nat, list_lookup_fmap, lookup_seq_lt by done. simpl.
    rewrite go_set_ok by (rewrite length_fmap, length_seq; lia). rewrite Nat2Z.id. f_equal.
    apply list_eq. intros r. destruct (decide (r < n)%nat) as [Hr|Hr].
    + rewrite list_lookup_fmap, lookup_seq_lt by done. simpl. rewrite bucket_snoc.
      destruct (decide (bucketOf n kv = r)) as [<-|Hne].
      * by rewrite list_lookup_insert_eq by (rewrite length_fmap, length_seq; lia).
      * by rewrite list_lookup_insert_ne, list_lookup_fmap, lookup_seq_lt by done.
    + rewrite !lookup_ge_None_2; [done|..];
        rewrite ?length_insert, ?length_fmap, ?length_seq; lia.
Qed.

Section Tasks.
Context (mapf : string → string → list KeyValue) (reducef : string → list string → string).

(** [sort.Sort], [json.Encoder] and [json.Decoder]. *)
Context (sort : list KeyValue → list KeyValue).
Context (json_encode : KeyValue → list byte) (json_decode : list byte → option (KeyValue * list byte)).

(** The intermediate file of a bucket. *)
Definition encodeBucket (kvs : list KeyValue) : list byte := kvs ≫= json_encode.

(** [for { if err := dec.Decode(&kv); err != nil { break }; ... }]; the fuel is
    the length of the file plus one. *)
Fixpoint decodeAll (fuel : nat) (bs : list byte) : list KeyValue :=
  match fuel with
  | O => []
  | S fuel =>
      match json_decode bs with
      | Some (kv, bs') => kv :: decodeAll fuel bs'
      | None => []
      end
  end.

(** The contents of the files mr-taskId-0, ..., mr-taskId-(nReduce-1). *)
Definition doMap (filename content : string) (nReduce : Z) : option (list (list byte)) :=
  buckets ← fillBuckets nReduce (mapf filename content);
  Some (fmap (M:=list) encodeBucket buckets).

(** The lines of mr-out-taskId, from the files mr-m-taskId for [m < nMap];
    [None] stands for a file that cannot be opened. *)
Definition doReduce (files : list (option (list byte))) : list (string * string) :=
  let kva := files ≫= λ f,
    match f with Some bs => decodeAll (S (length bs)) bs | None => [] end in
  let kva := sort kva in
  reduceLoop reducef (length kva) kva.

(** mrsequential *)
Definition sequential (inputs : list (string * string)) : list (string * string) :=
  let intermediate := inputs ≫= λ '(filename, content), mapf filename content in
  let intermediate := sort intermediate in
  reduceLoop reducef (length intermediate) intermediate.

(** ** What the tasks rely on *)

(** [sort.Sort] orders the pairs by key, in some order among equal keys. *)
Context (sort_perm : ∀ l, sort l ≡ₚ l) (sort_sorted : ∀ l, StronglySorted by_key_le (sort l)).

(** Pairs of valid text written one after the other are read back, and the end of
    the file is an error. *)
Context (json_nonempty : ∀ kv, json_encode kv ≠ []).
Context (json_roundtrip : ∀ kv bs,
  text_pair kv → json_decode (json_encode kv ++ bs) = Some (kv, bs)).
Context (json_eof : json_decode [] = None).

(** The reduce function does not depend on the order of the values. *)
Context (reducef_perm : ∀ k vs vs', vs ≡ₚ vs' → reducef k vs = reducef k vs').

(** The map function makes such pairs of the inputs. *)
Definition maps_to_text (inputs : list (string * string)) : Prop :=
  ∀ f c, (f, c) ∈ inputs → Forall text_pair (mapf f c).

Lemma decodeAll_encode kvs : ∀ fuel,
  Forall text_pair kvs →
  (length (encodeBucket kvs) < fuel)%nat → decodeAll fuel (encodeBucket kvs) = kvs.
Proof.
  induction kvs as [|kv kvs IH]; intros fuel Ht Hf; (destruct fuel as [|fuel]; [lia|]); simpl.
  - by rewrite json_eof.
  - simpl in Hf. rewrite length_app in Hf.
    assert (length (json_encode kv) ≠ 0%nat) by (by intros ?%length_zero_iff_nil; eapply json_nonempty).
    apply Forall_cons_1 in Ht as [? ?]. rewrite json_roundtrip by done. f_equal.
    apply IH; [done|]. unfold encodeBucket in *. lia.
Qed.

(** The files mr-m-r, for all [m], after all the map tasks have run. *)
Definition mapOutputs (n r : nat) (inputs : list (string * string)) : list (option (list byte)) :=
  (λ '(f, c), Some (encodeBucket (bucket n r (mapf f c)))) <$> inputs.

Lemma doReduce_input n r inputs :
  maps_to_text inputs →
  doReduce (mapOutputs n r inputs) =
  let kva := sort (bucket n r (inputs ≫= λ '(f, c), mapf f c)) in
  reduceLoop reducef (length kva) kva.
Proof.
  intros Htext. unfold doReduce. cbv zeta.
  enough ((mapOutputs n r inputs ≫= λ f, match f with
      Some bs => decodeAll (S (length bs)) bs | None => [] end) =
    bucket n r (inputs ≫= λ '(f, c), mapf f c)) as -> by done.
  unfold mapOutputs, bucket. induction inputs as [|[f c] inputs IH]; [done|].
  rewrite fmap_cons, !bind_cons, list.filter_app, IH
    by (intros f' c' ?; apply Htext; by apply list_elem_of_further).
  f_equal. apply decodeAll_encode; [|lia]. apply list.Forall_forall.
  intros kv [_ Hin]%list_elem_of_filter. revert kv Hin. apply list.Forall_forall, Htext, list_elem_of_here.
Qed.

Lemma values_of_perm k l l' : l ≡ₚ l' → values_of k l ≡ₚ values_of k l'.
Proof. intros H. unfold values_of. by rewrite H. Qed.

Lemma values_of_bucket n k kva r :
  (∀ kv, kv_Key kv = k → bucketOf n kv = r) → values_of k (bucket n r kva) = values_of k kva.
Proof.
  intros Hk. unfold values_of, bucket. f_equal. rewrite list_filter_filter.
  apply list_filter_iff. naive_solver.
Qed.

Lemma bucketOf_key n kv kv' : kv_Key kv = kv_Key kv' → bucketOf n kv = bucketOf n kv'.
Proof. unfold bucketOf. by intros ->. Qed.

Lemma keys_sort k l : k ∈ kv_Key <$> sort l ↔ k ∈ kv_Key <$> l.
Proof. by rewrite (fmap_Permutation kv_Key _ _ (sort_perm l)). Qed.

(** The lines of reduce task [r] are those of the sequential program whose keys
    belong to [r]. *)
Lemma reduce_lines n r inputs k v :
  maps_to_text inputs →
  (k, v) ∈ doReduce (mapOutputs n r inputs) ↔
  (k, v) ∈ sequential inputs ∧ bucketOf n (mkKeyValue k "") = r.
Proof.
  intros Htext. rewrite doReduce_input by done. unfold sequential. cbv zeta.
  set (all := inputs ≫= λ '(f, c), mapf f c).
  rewrite !reduceLoop_elem by apply sort_sorted. rewrite !keys_sort.
  assert (k ∈ kv_Key <$> bucket n r all ↔
          k ∈ kv_Key <$> all ∧ bucketOf n (mkKeyValue k "") = r) as Hk.
  { unfold bucket. rewrite !list_elem_of_fmap. split.
    - intros (kv & -> & [Hb Hin]%list_elem_of_filter). split; [eauto|].
      rewrite <-Hb. by apply bucketOf_key.
    - intros [(kv & -> & Hin) Hb]. exists kv. split; [done|]. apply list_elem_of_filter.
      split; [|done]. rewrite <-Hb. by apply bucketOf_key. }
  rewrite Hk.
  assert (bucketOf n (mkKeyValue k "") = r →
    reducef k (values_of k (sort (bucket n r all))) = reducef k (values_of k (sort all))) as Hv.
  { intros Hb. apply reducef_perm. rewrite !(values_of_perm k _ _ (sort_perm _)).
    rewrite values_of_bucket; [done|]. intros kv Hkv. rewrite <-Hb. by apply bucketOf_key. }
  split.
  - intros [[Hin Hb] ->]. rewrite Hv by done. done.
  - intros [[Hin ->] Hb]. rewrite Hv by done. done.
Qed.

Lemma doReduce_NoDup n r inputs :
  maps_to_text inputs → NoDup (doReduce (mapOutputs n r inputs)).
Proof.
  intros Htext. rewrite doReduce_input by done. apply (NoDup_fmap_1 fst).
  by apply (reduceLoop_lines reducef _ _ (sort_sorted _)).
Qed.

Lemma sequential_NoDup inputs : NoDup (sequential inputs).
Proof. apply (NoDup_fmap_1 fst). by apply (reduceLoop_lines reducef _ _ (sort_sorted _)). Qed.

(** Distributing a job does not change its result: for every number of reduce tasks, the output lines of all the reduce tasks over the files the
    map tasks write are, up to order, exactly the lines the sequential program
    prints for the same inputs. *)
Lemma distributed_equals_sequential n inputs :
  (0 < n)%nat → maps_to_text inputs →
  (∀ f c, (f, c) ∈ inputs → doMap f c (Z.of_nat n) =
     Some ((λ r, encodeBucket (bucket n r (mapf f c))) <$> seq 0 n)) ∧
  (seq 0 n ≫= λ r, doReduce (mapOutputs n r inputs)) ≡ₚ sequential inputs.
Proof.
  intros Hn Htext. split.
  { intros f c _. unfold doMap. rewrite fillBuckets_spec by done. simpl. f_equal.
    by rewrite <-list_fmap_compose. }
  assert (∀ l : list nat, NoDup l →
    NoDup (l ≫= λ r, doReduce (mapOutputs n r inputs)) ∧
    ∀ k v, (k, v) ∈ (l ≫= λ r, doReduce (mapOutputs n r inputs)) ↔
      (k, v) ∈ sequential inputs ∧ bucketOf n (mkKeyValue k "") ∈ l) as Hl.
  { induction 1 as [|r l Hr _ [IHn IHe]]; simpl.
    - split; [constructor|]. set_solver.
    - split.
      + apply list.NoDup_app. split_and!; [by apply doReduce_NoDup| |done].
        intros [k v] [_ Hb]%(reduce_lines _ _ _ _ _ Htext) [_ Hl]%IHe. congruence.
      + intros k v. rewrite elem_of_app, reduce_lines, IHe, elem_of_cons by done. naive_solver. }
  destruct (Hl (seq 0 n) (NoDup_seq 0 n)) as [Hnd He].
  apply NoDup_Permutation; [done|apply sequential_NoDup|].
  intros [k v]. rewrite He. split; [by intros [? _]|]. intros Hin. split; [done|].
  apply elem_of_seq. pose proof (bucketOf_lt n (mkKeyValue k "") Hn). lia.
Qed.

End Tasks.
