(* ===== verification/MrApps.v ===== *)
(** * MapReduce applications

    Models the Map and Reduce functions of the plug-ins of
    src/6.5840/src/mrapps: word count (wc.go), the inverted index (indexer.go),
    the crash tests (nocrash.go; crash.go and the Reduce of mtiming.go compute
    the same), rtiming.go's Map and early_exit.go.  [fields] is
    [strings.FieldsFunc] with the test "not a letter", a parameter of the model. *)

From stdpp Require Import pretty.
From S2P Require Import Prelude Gob MrWorker.

(** [strconv.Itoa] and the verb [%d] *)
Definition itoa (z : Z) : string := pretty z.

(** [strings.Join] *)
Fixpoint join (sep : string) (l : list string) : string :=
  match l with
  | [] => ""
  | [s] => s
  | s :: l => (s ++ sep ++ join sep l)%string
  end.

(** [sort.Strings]; equal strings are indistinguishable, so any sorting
    algorithm has this result. *)
Definition sortStrings (l : list string) : list string := merge_sort String.le l.

Section Apps.
Context (fields : string → list string).

(** ** wc.go *)

Definition wc_Map (filename contents : string) : list KeyValue :=
  foldl (λ kva w, kva ++ [mkKeyValue w "1"]) [] (fields contents).

Definition wc_Reduce (key : string) (values : list string) : string := itoa (len values).

(** ** indexer.go; [order] lists the keys of the map in iteration order *)

Definition indexer_words (value : string) : gset string :=
  foldl (λ m w, {[w]} ∪ m) ∅ (fields value).

Definition indexer_Map (order : gset string → list string) (document value : string) :
    list KeyValue :=
  foldl (λ res w, res ++ [mkKeyValue w document]) [] (order (indexer_words value)).

Definition indexer_Reduce (key : string) (values : list string) : string :=
  let values := sortStrings values in
  (itoa (len values) ++ " " ++ join "," values)%string.

(** ** nocrash.go *)

Definition crash_Map (filename contents : string) : list KeyValue :=
  [mkKeyValue "a" filename; mkKeyValue "b" (itoa (Z.of_nat (String.length filename)));
   mkKeyValue "c" (itoa (Z.of_nat (String.length contents))); mkKeyValue "d" "xyzzy"].

Definition crash_Reduce (key : string) (values : list string) : option string :=
  vv ← go_make (len values) "";
  let vv := sortStrings (go_copy vv values) in
  Some (join " " vv).

(** ** rtiming.go and early_exit.go *)

Definition rtiming_Map (filename contents : string) : list KeyValue :=
  [mkKeyValue "a" "1"; mkKeyValue "b" "1"; mkKeyValue "c" "1"; mkKeyValue "d" "1";
   mkKeyValue "e" "1"; mkKeyValue "f" "1"; mkKeyValue "g" "1"; mkKeyValue "h" "1";
   mkKeyValue "i" "1"; mkKeyValue "j" "1"].

Definition early_exit_Map (filename contents : string) : list KeyValue :=
  [mkKeyValue filename "1"].

Definition early_exit_Reduce (key : string) (values : list string) : string :=
  itoa (len values).

(** ** Properties *)

Lemma sortStrings_perm l l' : l ≡ₚ l' → sortStrings l = sortStrings l'.
Proof.
  intros Hl. unfold sortStrings. eapply (StronglySorted_unique String.le);
    [apply StronglySorted_merge_sort; apply _..|].
  by rewrite !merge_sort_Permutation.
Qed.

Lemma crash_Reduce_value key values : crash_Reduce key values = Some (join " " (sortStrings values)).
Proof.
  unfold crash_Reduce. rewrite go_make_ok by lia. simpl.
  by rewrite go_copy_exact by (rewrite length_replicate; lia).
Qed.

(** The applications meet what the framework relies on: their Reduce
    functions return the same result for the values of a key in any order. *)
Theorem apps_order_insensitive key values values' :
  values ≡ₚ values' →
  wc_Reduce key values = wc_Reduce key values' ∧
  indexer_Reduce key values = indexer_Reduce key values' ∧
  crash_Reduce key values = crash_Reduce key values' ∧
  early_exit_Reduce key values = early_exit_Reduce key values'.
Proof.
  intros H. unfold wc_Reduce, indexer_Reduce, early_exit_Reduce. rewrite !crash_Reduce_value.
  by rewrite (sortStrings_perm _ _ H), H.
Qed.

Lemma wc_Map_spec filename contents :
  wc_Map filename contents = (λ w, mkKeyValue w "1") <$> fields contents.
Proof.
  unfold wc_Map. assert (∀ l acc, foldl (λ kva w, kva ++ [mkKeyValue w "1"]) acc l =
    acc ++ ((λ w, mkKeyValue w "1") <$> l)) as H.
  { induction l as [|w l IH]; intros acc; simpl; [by rewrite app_nil_r|].
    by rewrite IH, <-app_assoc. }
  apply H.
Qed.

(** Word count counts words: the line sequential MapReduce prints for a
    word is the number of its occurrences in all the inputs, and exactly the
    words that occur have a line. *)
Theorem wc_counts (sort : list KeyValue → list KeyValue) inputs w v :
  (∀ l, sort l ≡ₚ l) → (∀ l, StronglySorted by_key_le (sort l)) →
  (w, v) ∈ sequential wc_Map wc_Reduce sort inputs ↔
    w ∈ (inputs ≫= λ '(_, c), fields c) ∧
    v = itoa (len (filter (λ x, x = w) (inputs ≫= λ '(_, c), fields c))).
Proof.
  intros Hp Hs. unfold sequential. cbv zeta.
  assert ((inputs ≫= λ '(filename, content), wc_Map filename content) =
    (λ w, mkKeyValue w "1") <$> (inputs ≫= λ '(_, c), fields c)) as ->.
  { induction inputs as [|[f c] inputs IH]; [done|].
    rewrite !bind_cons, fmap_app, IH. f_equal. apply wc_Map_spec. }
  set (ws := inputs ≫= _). rewrite reduceLoop_elem by apply Hs.
  rewrite (fmap_Permutation kv_Key _ _ (Hp _)).
  rewrite <-list_fmap_compose. unfold compose. simpl. rewrite list_fmap_id. unfold wc_Reduce.
  assert (length (values_of w (sort ((λ w, mkKeyValue w "1") <$> ws))) =
          length (filter (λ x, x = w) ws)) as ->; [|done].
  rewrite (Permutation_length (values_of_perm w _ _ (Hp _))). unfold values_of.
  rewrite length_fmap. clearbody ws. clear. induction ws as [|x ws IH]; [done|].
  rewrite fmap_cons, !filter_cons. simpl. case_decide; simpl; by rewrite IH.
Qed.

End Apps.

(** ** Instances *)

Lemma apps_order_insensitive_witness :
  wc_Reduce "a" ["x"; "y"] = wc_Reduce "a" ["y"; "x"].
Proof. apply (apps_order_insensitive "a" ["x"; "y"] ["y"; "x"]). constructor. Defined.

#[local] Instance by_key_le_total : Total by_key_le.
Proof. intros a b. apply (total String.le). Qed.

#[local] Instance by_key_le_trans : Transitive by_key_le.
Proof. intros a b c. unfold by_key_le. apply transitivity. Qed.

(** Two one-word files. *)
Definition two_files : list (string * string) := [("f1", "w"); ("f2", "w")].

Lemma merge_sorted l : StronglySorted by_key_le (merge_sort by_key_le l).
Proof. apply StronglySorted_merge_sort; apply _. Qed.

Lemma wc_counts_witness :
  ("w", "2") ∈ sequential (wc_Map (λ c, [c])) wc_Reduce (merge_sort by_key_le) two_files.
Proof.
  apply (wc_counts (λ c, [c]) (merge_sort by_key_le) two_files "w" "2");
    [apply merge_sort_Permutation|apply merge_sorted|].
  split; [set_solver|by vm_compute].
Defined.
