(* ===== verification/MrPlugins.v ===== *)
(** * MapReduce applications that look at the file system

    Models what src/6.5840/src/mrapps/mtiming.go, rtiming.go, jobcount.go and
    crash.go add to the applications of MrApps.v: [nparallel], which counts the
    workers that run at the same time by the files they leave in the working
    directory, the Map and Reduce functions that report it, the files that count
    the invocations of Map, and the random exits.  A directory is a set of names;
    what the operating system answers (process ids, whether a process lives, in
    which order a directory is read) is an argument. *)

From Stdlib Require Import Ascii.
From stdpp Require Import pretty.
From S2P Require Import Prelude Numerals MrWorker MrApps.

(** ** nparallel *)

Definition worker_prefix (phase : string) : string := "mr-worker-" +:+ phase +:+ "-".
Definition worker_file (phase : string) (pid : Z) : string := worker_prefix phase +:+ pretty pid.

(** The loop over the names of the directory; [alive] is [syscall.Kill(xpid, 0)]
    without an error. *)
Definition np_count (phase : string) (alive : Z → bool) (names : list string) : Z :=
  foldl (λ ret name, match Sscanf_d (worker_prefix phase) name with
                     | Some xpid => if alive xpid then ret + 1 else ret
                     | None => ret
                     end) 0 names.

(** [ioutil.WriteFile] and [os.Remove]; [None] is the panic. *)
Definition np_write (phase : string) (pid : Z) (files : gset string) : gset string :=
  {[worker_file phase pid]} ∪ files.

Definition np_remove (phase : string) (pid : Z) (files : gset string) : option (gset string) :=
  if decide (worker_file phase pid ∈ files) then Some (files ∖ {[worker_file phase pid]}) else None.

(** ** The Map and Reduce functions *)

(** [ts] is the time as text. *)
Definition mtiming_Map (pid : Z) (ts : string) (n : Z) (filename contents : string) : list KeyValue :=
  [mkKeyValue ("times-" +:+ pretty pid) ts; mkKeyValue ("parallel-" +:+ pretty pid) (pretty n)].

Definition rtiming_Reduce (n : Z) (key : string) (values : list string) : string := pretty n.

(** jobcount.go: the variable [count] of every process, and the directory. *)
Definition jobcount_file (pid count : Z) : string :=
  "mr-worker-jobcount-" +:+ pretty pid +:+ "-" +:+ pretty count.

Record JobCount := mkJobCount { jc_files : gset string; jc_count : gmap Z Z }.

Definition jobcount_Map (pid : Z) (filename contents : string) (st : JobCount) :
    JobCount * list KeyValue :=
  let count := default 0 (jc_count st !! pid) in
  (mkJobCount ({[jobcount_file pid count]} ∪ jc_files st) (<[pid := count + 1]> (jc_count st)),
   [mkKeyValue "a" "x"]).

Definition jobcount_Reduce (names : list string) (key : string) (values : list string) : string :=
  pretty (foldl (λ invocations name,
                   if after_prefix "mr-worker-jobcount" name then invocations + 1 else invocations)
            0 names).

(** crash.go: [rr] is the random number below 1000 and [ms] the delay. *)
Inductive CrashFate := CrashExit | CrashDelay (ms : Z) | CrashGo.

Definition maybeCrash (rr ms : Z) : CrashFate :=
  if rr <? 330 then CrashExit else if rr <? 660 then CrashDelay ms else CrashGo.

(** [None]: the process is gone. *)
Definition crashing_Map (rr ms : Z) (filename contents : string) : option (list KeyValue) :=
  match maybeCrash rr ms with CrashExit => None | _ => Some (crash_Map filename contents) end.

(** ** Processes in nparallel *)

(** [inside] holds the phase of every process that has written its file and not
    yet removed it. *)
Record Machine := mkMachine {
  m_files : gset string;
  m_alive : gset Z;
  m_inside : gmap Z string
}.

Inductive np_step (m : Machine) : Machine → Prop :=
| np_enter phase pid :
    pid ∈ m_alive m → m_inside m !! pid = None → no_dash phase →
    np_step m (mkMachine (np_write phase pid (m_files m)) (m_alive m)
                 (<[pid := phase]> (m_inside m)))
| np_leave phase pid files :
    m_inside m !! pid = Some phase → np_remove phase pid (m_files m) = Some files →
    np_step m (mkMachine files (m_alive m) (delete pid (m_inside m)))
| np_crash pid :
    np_step m (mkMachine (m_files m) (m_alive m ∖ {[pid]}) (delete pid (m_inside m))).

(** The tests clean the directory before they start the workers. *)
Definition np_init (m : Machine) : Prop :=
  m_inside m = ∅ ∧ (∀ pid, pid ∈ m_alive m → 0 <= pid < 2 ^ 63) ∧
  ∀ phase name, name ∈ m_files m → Sscanf_d (worker_prefix phase) name = None.

Definition np_reachable : Machine → Prop := reachable np_init np_step.

Definition lives (m : Machine) (pid : Z) : bool := bool_decide (pid ∈ m_alive m).

(** The processes that are in [nparallel phase]. *)
Definition inside (phase : string) (m : Machine) : gset Z :=
  dom (filter (λ '(pid, ph), ph = phase) (m_inside m)).

Lemma elem_inside phase m pid : pid ∈ inside phase m ↔ m_inside m !! pid = Some phase.
Proof.
  unfold inside. rewrite elem_of_dom. split.
  - intros [ph [H ->]%map_lookup_filter_Some]. done.
  - intros H. exists phase. by apply map_lookup_filter_Some.
Qed.

(** A file is read as the process and the phase that made it. *)
Lemma scan_worker_file phase phase' pid :
  no_dash phase → no_dash phase' → 0 <= pid < 2 ^ 63 →
  Sscanf_d (worker_prefix phase') (worker_file phase pid) = if decide (phase' = phase) then Some pid else None.
Proof.
  intros H H' Hpid. unfold Sscanf_d, worker_file.
  destruct (decide (phase' = phase)) as [->|Hne].
  - rewrite after_prefix_app. obind. by apply scanInt_pretty.
  - destruct (after_prefix _ _) as [t|] eqn:Ht; [|done]. exfalso. apply Hne.
    apply after_prefix_Some in Ht. unfold worker_prefix in Ht.
    change (("mr-worker-" ++ ((phase ++ "-") ++ pretty pid))%string =
      ("mr-worker-" ++ ((phase' ++ "-") ++ t))%string) in Ht.
    apply append_inj in Ht. rewrite !append_dash in Ht.
    by apply (dash_split phase phase') in Ht as [-> _].
Qed.

Record np_inv (m : Machine) : Prop := {
  ni_inside pid phase : m_inside m !! pid = Some phase →
    pid ∈ m_alive m ∧ worker_file phase pid ∈ m_files m ∧ no_dash phase;
  ni_pid pid : pid ∈ m_alive m → 0 <= pid < 2 ^ 63;
  ni_file phase name pid : name ∈ m_files m → no_dash phase →
    Sscanf_d (worker_prefix phase) name = Some pid → pid ∈ m_alive m →
    m_inside m !! pid = Some phase ∧ name = worker_file phase pid
}.

Lemma np_reachable_inv m : np_reachable m → np_inv m.
Proof.
  revert m. apply reachable_invariant.
  - intros m (Hi & Hp & Hf). split; [by intros ??; rewrite Hi|done|].
    intros phase name pid Hn _. by rewrite Hf.
  - intros m m' _ [I1 I2 I3] Hs. destruct Hs as [phase pid Ha Hi Hd|phase pid files Hi Hr|pid]; split; simpl.
    + intros pid' phase' [[<- <-]|[Hne H]]%lookup_insert_Some; [split_and!; [done|unfold np_write; set_solver|done]|].
      destruct (I1 _ _ H) as (? & ? & ?). split_and!; [done|unfold np_write; set_solver|done].
    + done.
    + intros phase' name pid' Hn Hd' Hsc Ha'. unfold np_write in Hn. apply elem_of_union in Hn as [->%elem_of_singleton|Hn].
      * rewrite scan_worker_file in Hsc by auto. case_decide; [|done]. subst phase'. injection Hsc as <-.
        by rewrite lookup_insert_eq.
      * destruct (I3 _ _ _ Hn Hd' Hsc Ha') as [H ?]. by rewrite lookup_insert_ne by congruence.
    + unfold np_remove in Hr. case_decide as Hin; [|done]. injection Hr as <-.
      intros pid' phase' [Hne H]%lookup_delete_Some. destruct (I1 _ _ H) as (? & ? & ?).
      split_and!; [done| |done]. apply elem_of_difference. split; [done|].
      rewrite elem_of_singleton. intros Heq. apply Hne.
      assert (Sscanf_d (worker_prefix phase') (worker_file phase pid) = Some pid') as Hsc.
      { rewrite <-Heq, scan_worker_file, decide_True; auto. }
      destruct (I1 _ _ Hi) as (? & ? & ?).
      rewrite scan_worker_file in Hsc by auto. case_decide; congruence.
    + done.
    + unfold np_remove in Hr. case_decide as Hin; [|done]. injection Hr as <-.
      intros phase' name pid' [Hn Hne]%elem_of_difference Hd' Hsc Ha'.
      destruct (I3 _ _ _ Hn Hd' Hsc Ha') as [H ->]. split; [|done].
      apply lookup_delete_Some. split; [|done]. intros ->. set_solver.
    + intros pid' phase' [Hne H]%lookup_delete_Some. destruct (I1 _ _ H) as (? & ? & ?). set_solver.
    + set_solver.
    + intros phase' name pid' Hn Hd' Hsc [Ha' Hne]%elem_of_difference.
      destruct (I3 _ _ _ Hn Hd' Hsc Ha') as [H ->]. split; [|done].
      apply lookup_delete_Some. set_solver.
Qed.

(** The names that the loop counts. *)
Definition counted (phase : string) (alive : Z → bool) (name : string) : Prop :=
  match Sscanf_d (worker_prefix phase) name with Some pid => alive pid = true | None => False end.

#[local] Instance counted_dec phase alive name : Decision (counted phase alive name).
Proof. unfold counted. destruct (Sscanf_d _ _); apply _. Defined.

Lemma np_count_filter phase alive names :
  np_count phase alive names = len (filter (counted phase alive) names).
Proof.
  unfold np_count. assert (∀ acc, foldl (λ ret name, match Sscanf_d (worker_prefix phase) name with
    | Some xpid => if alive xpid then ret + 1 else ret | None => ret end) acc names =
    acc + len (filter (counted phase alive) names)) as H; [|apply (H 0)].
  induction names as [|name names IH]; intros acc; simpl; [lia|]. rewrite IH, filter_cons.
  case_decide as Hc; unfold counted in Hc; destruct (Sscanf_d _ _) as [pid|];
    [rewrite Hc|done|destruct (alive pid)|]; simpl; try done; lia.
Qed.

(** However workers enter and leave [nparallel], and whichever of them crash
    and leave their files behind, a worker that reads the directory counts
    exactly the live processes that are in [nparallel] for the same phase at that
    moment, itself included, in whatever order it sees the names; and the removal
    of its own file never panics. *)
Theorem nparallel_counts m phase names :
  np_reachable m → no_dash phase →
  base.NoDup names → (∀ name, name ∈ names ↔ name ∈ m_files m) →
  np_count phase (lives m) names = Z.of_nat (size (inside phase m)) ∧
  ∀ pid, m_inside m !! pid = Some phase →
    1 <= np_count phase (lives m) names ∧ is_Some (np_remove phase pid (m_files m)).
Proof.
  intros [I1 I2 I3]%np_reachable_inv Hd Hnd Hnames.
  assert (np_count phase (lives m) names = Z.of_nat (size (inside phase m))) as Hcount.
  { rewrite np_count_filter. f_equal.
    transitivity (length (worker_file phase <$> elements (inside phase m))); [|by rewrite length_fmap].
    apply Permutation_length, list.NoDup_Permutation.
    - by apply list.NoDup_filter.
    - apply list.NoDup_fmap_2_strong; [|apply base.NoDup_elements].
      intros x y (Hx & _ & _)%elem_of_elements%elem_inside%I1 (Hy & _ & _)%elem_of_elements%elem_inside%I1 H.
      apply (f_equal (Sscanf_d (worker_prefix phase))) in H.
      rewrite !scan_worker_file, !decide_True in H by auto. congruence.
    - intros name. rewrite list_elem_of_filter, Hnames, list_elem_of_fmap. split.
      + intros [Hc Hn]. unfold counted in Hc. destruct (Sscanf_d _ _) as [pid|] eqn:Hs; [|done].
        apply bool_decide_eq_true in Hc. destruct (I3 _ _ _ Hn Hd Hs Hc) as [Hi ->].
        exists pid. split; [done|]. by apply elem_of_elements, elem_inside.
      + intros (pid & -> & (Ha & Hf & _)%elem_of_elements%elem_inside%I1). split; [|done].
        unfold counted. rewrite scan_worker_file, decide_True by auto.
        by apply bool_decide_eq_true. }
  split; [done|]. intros pid Hi. split.
  - rewrite Hcount. apply elem_inside in Hi.
    assert (size (inside phase m) ≠ 0%nat); [|lia]. intros H0%size_empty_inv. set_solver.
  - unfold np_remove. destruct (I1 _ _ Hi) as (_ & Hf & _). by rewrite decide_True.
Qed.

(** ** Counting the invocations of Map *)

Definition jobcount_run (pids : list Z) (st : JobCount) : JobCount :=
  foldl (λ st pid, (jobcount_Map pid "" "" st).1) st pids.

Lemma jobcount_file_inj p c p' c' :
  0 <= p → 0 <= p' → jobcount_file p c = jobcount_file p' c' → p = p' ∧ c = c'.
Proof.
  unfold jobcount_file. intros Hp Hp' H%append_inj.
  apply dash_split in H as [? ?]; [|by apply pretty_no_dash..]. split; by apply (inj pretty).
Qed.

Definition counts_job (name : string) : Prop := is_Some (after_prefix "mr-worker-jobcount" name).

#[local] Instance counts_job_dec name : Decision (counts_job name).
Proof. unfold counts_job. apply _. Defined.

Lemma jobcount_file_counts p c : counts_job (jobcount_file p c).
Proof.
  unfold counts_job, jobcount_file.
  change ("mr-worker-jobcount-" +:+ pretty p +:+ "-" +:+ pretty c)
    with ("mr-worker-jobcount" +:+ ("-" +:+ pretty p +:+ "-" +:+ pretty c)).
  rewrite after_prefix_app. by eexists.
Qed.

(** [n] files have been made, and the next one of a process is new. *)
Record jc_inv (n : nat) (st : JobCount) : Prop := {
  jc_made : size (filter counts_job (jc_files st)) = n;
  jc_next pid c : 0 <= pid → jobcount_file pid c ∈ jc_files st → c < default 0 (jc_count st !! pid)
}.

Lemma jc_inv_map n pid st :
  0 <= pid → jc_inv n st → jc_inv (S n) (jobcount_Map pid "" "" st).1.
Proof.
  intros Hp [Hm Hn]. simpl. set (c := default 0 (jc_count st !! pid)).
  assert (jobcount_file pid c ∉ jc_files st) as Hnew by (intros H%Hn; [lia|done]).
  split; simpl.
  - pose proof (jobcount_file_counts pid c) as Hc.
    assert (filter counts_job ({[jobcount_file pid c]} ∪ jc_files st) =
      {[jobcount_file pid c]} ∪ filter counts_job (jc_files st)) as ->
      by (apply set_eq; intros; rewrite elem_of_filter, !elem_of_union, elem_of_filter,
            elem_of_singleton; naive_solver).
    rewrite size_union, size_singleton, Hm; [done|]. set_solver.
  - intros pid' c' Hp' [He%elem_of_singleton|Hin]%elem_of_union.
    + apply jobcount_file_inj in He as [-> ->]; [|done..]. rewrite lookup_insert_eq. simpl. lia.
    + specialize (Hn pid' c' Hp' Hin). destruct (decide (pid' = pid)) as [->|Hne].
      * rewrite lookup_insert_eq. simpl. subst c. lia.
      * by rewrite lookup_insert_ne by congruence.
Qed.

Lemma jc_inv_run pids : ∀ n st,
  Forall (λ pid, 0 <= pid) pids → jc_inv n st → jc_inv (n + length pids) (jobcount_run pids st).
Proof.
  induction pids as [|pid pids IH]; intros n st Hp Hi; [by rewrite Nat.add_0_r|].
  apply Forall_cons_1 in Hp as [Hpid Hp]. simpl length. rewrite Nat.add_succ_r, <-Nat.add_succ_l.
  apply (IH (S n) (jobcount_Map pid "" "" st).1 Hp). by apply jc_inv_map.
Qed.

(** In a directory that had no such files, Reduce of jobcount reports the number
    of invocations of Map by all the processes together, in whatever order it sees
    the names. *)
Theorem jobcount_counts pids files names key values :
  Forall (λ pid, 0 <= pid) pids → (∀ name, name ∈ files → ¬ counts_job name) →
  base.NoDup names →
  (∀ name, name ∈ names ↔ name ∈ jc_files (jobcount_run pids (mkJobCount files ∅))) →
  jobcount_Reduce names key values = pretty (len pids).
Proof.
  intros Hp Hclean Hnd Hnames.
  assert (jc_inv 0 (mkJobCount files ∅)) as Hinit.
  { split; simpl.
    - apply size_empty_iff. set_solver.
    - intros pid c _ H. destruct (Hclean _ H). apply jobcount_file_counts. }
  destruct (jc_inv_run pids _ _ Hp Hinit) as [Hm _]. rewrite Nat.add_0_l in Hm.
  unfold jobcount_Reduce. f_equal. rewrite <-Hm.
  assert (∀ acc, foldl (λ invocations name,
    if after_prefix "mr-worker-jobcount" name then invocations + 1 else invocations) acc names =
    acc + len (filter counts_job names)) as ->.
  { clear. induction names as [|name names IH]; intros acc; cbn [foldl]; [simpl; lia|]. rewrite IH, filter_cons.
    case_decide as Hc; unfold counts_job in Hc; destruct (after_prefix _ name); cbn [length]; try lia.
    - by destruct Hc.
    - destruct Hc. by eexists. }
  rewrite Z.add_0_l. f_equal. unfold size, set_size. simpl.
  apply Permutation_length, list.NoDup_Permutation.
  - by apply list.NoDup_filter.
  - apply base.NoDup_elements.
  - intros name. rewrite elem_of_elements, elem_of_filter, list_elem_of_filter, Hnames. done.
Qed.

(** ** Instances *)

(** Two workers in Map at the same time, one of which crashes; a third is in
    Reduce. *)
Definition machine0 : Machine := mkMachine {["pg-tom.txt"]} {[101; 102; 103]} ∅.

Definition entered (phase : string) (pid : Z) (m : Machine) : Machine :=
  mkMachine (np_write phase pid (m_files m)) (m_alive m) (<[pid := phase]> (m_inside m)).

Definition machine1 : Machine :=
  entered "map" 103 (entered "reduce" 102 (entered "map" 101 machine0)).

Definition machine2 : Machine :=
  mkMachine (m_files machine1) (m_alive machine1 ∖ {[101]}) (delete 101 (m_inside machine1)).

Lemma machine2_reachable : np_reachable machine2.
Proof.
  assert (np_reachable machine1) as H1.
  { eapply reach_step; [eapply reach_step; [eapply reach_step; [apply (reach_init _ _ machine0)|]|]|].
    - split; [done|]. split; [set_solver by lia|].
      intros phase name Hn. simpl in Hn. apply elem_of_singleton in Hn as ->. done.
    - apply (np_enter _ "map" 101); [set_solver|done|by repeat split].
    - apply (np_enter _ "reduce" 102); [simpl; set_solver|done|by repeat split].
    - apply (np_enter _ "map" 103); [simpl; set_solver|done|by repeat split]. }
  eapply reach_step; [exact H1|]. apply (np_crash machine1 101).
Qed.

Lemma nparallel_counts_witness :
  np_count "map" (lives machine2) (elements (m_files machine2)) = 1 ∧
  is_Some (np_remove "map" 103 (m_files machine2)).
Proof.
  destruct (nparallel_counts machine2 "map" (elements (m_files machine2)) machine2_reachable)
    as [Hc Hi].
  - by repeat split.
  - apply base.NoDup_elements.
  - intros name. apply elem_of_elements.
  - split; [rewrite Hc; vm_compute; reflexivity|]. apply (Hi 103). vm_compute. reflexivity.
Defined.

Lemma jobcount_counts_witness :
  jobcount_Reduce (elements (jc_files (jobcount_run [7; 8; 7] (mkJobCount ∅ ∅)))) "a" [] = "3".
Proof.
  apply (jobcount_counts [7; 8; 7] ∅).
  - by repeat constructor.
  - intros name. set_solver.
  - apply base.NoDup_elements.
  - intros name. apply elem_of_elements.
Defined.
