(* ===== verification/MapReduce.v ===== *)
(** * The MapReduce coordinator and a job

    Models src/6.5840/src/mr/coordinator.go (every method runs under the lock,
    so it is one function on the state; [now] is the clock in nanoseconds) and
    the loop of src/6.5840/src/mr/worker.go, and a whole job: workers that ask
    for tasks, write their files one by one, report, stall and crash in any
    interleaving. *)

From S2P Require Import Prelude Gob MrWorker MrApps.

Inductive TaskState := Idle | InProgress | Completed.

#[export] Instance TaskState_eq_dec : EqDecision TaskState.
Proof. solve_decision. Defined.

Inductive TaskType := MapTask | ReduceTask | WaitTask | ExitTask.

#[export] Instance TaskType_eq_dec : EqDecision TaskType.
Proof. solve_decision. Defined.

Record TaskInfo := mkTaskInfo { ti_State : TaskState; ti_StartTime : Z; ti_Filename : string }.

Record Coordinator := mkCoordinator {
  c_nReduce : Z;
  c_nMap : Z;
  mapTasks : list TaskInfo;
  reduceTasks : list TaskInfo;
  phase : TaskType
}.

Record GetTaskReply := mkGetTaskReply {
  gt_Type : TaskType;
  gt_TaskId : Z;
  gt_Filename : string;
  gt_NReduce : Z;
  gt_NMap : Z
}.

Record FinishedTaskArgs := mkFinishedTaskArgs { ft_Type : TaskType; ft_TaskId : Z }.

(** ** Handing out tasks *)

Definition start (now : Z) (t : TaskInfo) : TaskInfo :=
  mkTaskInfo InProgress now (ti_Filename t).

(** The loop over the tasks of a phase: the first idle one, started, or whether
    all are completed. *)
Fixpoint scanTasks (now : Z) (i : Z) (allDone : bool) (tasks : list TaskInfo) :
    (Z * TaskInfo * list TaskInfo) + bool :=
  match tasks with
  | [] => inr allDone
  | t :: ts =>
      if decide (ti_State t = Idle) then inl (i, t, start now t :: ts)
      else
        match scanTasks now (i + 1)
                (if decide (ti_State t ≠ Completed) then false else allDone) ts with
        | inl (j, t', ts') => inl (j, t', t :: ts')
        | inr b => inr b
        end
  end.

Definition set_mapTasks (l : list TaskInfo) (c : Coordinator) : Coordinator :=
  mkCoordinator (c_nReduce c) (c_nMap c) l (reduceTasks c) (phase c).
Definition set_reduceTasks (l : list TaskInfo) (c : Coordinator) : Coordinator :=
  mkCoordinator (c_nReduce c) (c_nMap c) (mapTasks c) l (phase c).
Definition set_phase (p : TaskType) (c : Coordinator) : Coordinator :=
  mkCoordinator (c_nReduce c) (c_nMap c) (mapTasks c) (reduceTasks c) p.

Definition waitReply : GetTaskReply := mkGetTaskReply WaitTask 0 "" 0 0.
Definition exitReply : GetTaskReply := mkGetTaskReply ExitTask 0 "" 0 0.

(** The part of GetTask for the reduce phase and after. *)
Definition GetReduceTask (now : Z) (c : Coordinator) : Coordinator * GetTaskReply :=
  if decide (phase c = ReduceTask) then
    match scanTasks now 0 true (reduceTasks c) with
    | inl (i, t, ts) =>
        (set_reduceTasks ts c, mkGetTaskReply ReduceTask i "" (c_nReduce c) (c_nMap c))
    | inr true => (set_phase ExitTask c, exitReply)
    | inr false => (c, waitReply)
    end
  else (c, exitReply).

Definition GetTask (now : Z) (c : Coordinator) : Coordinator * GetTaskReply :=
  if decide (phase c = MapTask) then
    match scanTasks now 0 true (mapTasks c) with
    | inl (i, t, ts) =>
        (set_mapTasks ts c,
         mkGetTaskReply MapTask i (ti_Filename t) (c_nReduce c) (c_nMap c))
    | inr true => GetReduceTask now (set_phase ReduceTask c)
    | inr false => (c, waitReply)
    end
  else GetReduceTask now c.

(** ** Reports and timeouts *)

Definition complete (t : TaskInfo) : TaskInfo :=
  mkTaskInfo Completed (ti_StartTime t) (ti_Filename t).

(** [None] is the panic of a task number out of range. *)
Definition FinishedTask (args : FinishedTaskArgs) (c : Coordinator) : option Coordinator :=
  if decide (ft_Type args = MapTask ∧ phase c = MapTask) then
    t ← go_nth (mapTasks c) (ft_TaskId args);
    ts ← go_set (mapTasks c) (ft_TaskId args) (complete t); Some (set_mapTasks ts c)
  else if decide (ft_Type args = ReduceTask ∧ phase c = ReduceTask) then
    t ← go_nth (reduceTasks c) (ft_TaskId args);
    ts ← go_set (reduceTasks c) (ft_TaskId args) (complete t); Some (set_reduceTasks ts c)
  else Some c.

Definition seconds (n : Z) : Z := n * 1000000000.

Definition expire (now : Z) (t : TaskInfo) : TaskInfo :=
  if decide (ti_State t = InProgress) then
    if seconds 10 <? now - ti_StartTime t
    then mkTaskInfo Idle (ti_StartTime t) (ti_Filename t) else t
  else t.

(** One iteration of checkTimeouts; [None] when the loop ends. *)
Definition checkTimeouts (now : Z) (c : Coordinator) : option Coordinator :=
  if decide (phase c = ExitTask) then None
  else if decide (phase c = MapTask) then Some (set_mapTasks (expire now <$> mapTasks c) c)
  else if decide (phase c = ReduceTask) then
    Some (set_reduceTasks (expire now <$> reduceTasks c) c)
  else Some c.

Definition Done (c : Coordinator) : bool := bool_decide (phase c = ExitTask).

Definition MakeCoordinator (files : list string) (nReduce : nat) : Coordinator :=
  mkCoordinator (Z.of_nat nReduce) (len files)
    ((λ f, mkTaskInfo Idle 0 f) <$> files) (replicate nReduce (mkTaskInfo Idle 0 "")) MapTask.

(** ** What a call does to the coordinator *)

Definition all_completed (ts : list TaskInfo) : Prop := Forall (λ t, ti_State t = Completed) ts.

(** The phase says which tasks are completed. *)
Definition phase_ok (c : Coordinator) : Prop :=
  (phase c = ReduceTask ∨ phase c = ExitTask → all_completed (mapTasks c)) ∧
  (phase c = ExitTask → all_completed (reduceTasks c)) ∧ phase c ≠ WaitTask.

(** Tasks are never forgotten, phases never go back, and the tasks newly
    completed are among [newMap] and [newReduce]. *)
Record coord_evolves (newMap newReduce : nat → Prop) (c c' : Coordinator) : Prop := mkCoordEvolves {
  ce_nMap : c_nMap c' = c_nMap c;
  ce_names : ti_Filename <$> mapTasks c' = ti_Filename <$> mapTasks c;
  ce_reduces : length (reduceTasks c') = length (reduceTasks c);
  ce_map m t : mapTasks c' !! m = Some t → ti_State t = Completed →
    (∃ t0, mapTasks c !! m = Some t0 ∧ ti_State t0 = Completed) ∨ newMap m;
  ce_reduce r t : reduceTasks c' !! r = Some t → ti_State t = Completed →
    (∃ t0, reduceTasks c !! r = Some t0 ∧ ti_State t0 = Completed) ∨ newReduce r;
  ce_phase_ok : phase_ok c → phase_ok c';
  ce_forward : phase_ok c → phase c ≠ MapTask →
    phase c' ≠ MapTask ∧ all_completed (mapTasks c')
}.

Lemma scanTasks_found now ts : ∀ i b k t ts',
  scanTasks now i b ts = inl (k, t, ts') →
  ∃ n : nat, k = i + Z.of_nat n ∧ ts !! n = Some t ∧ ti_State t = Idle ∧
    ts' = <[n := start now t]> ts.
Proof.
  induction ts as [|t0 ts IH]; simpl; intros i b k t ts' H; [done|].
  destruct (decide (ti_State t0 = Idle)) as [Hi|Hi].
  - simplify_eq. exists 0%nat. split_and!; [lia|done|done|done].
  - destruct (scanTasks now (i + 1) _ ts) as [[[k1 t1] ts1]|] eqn:Hs; [|done]. simplify_eq.
    destruct (IH _ _ _ _ _ Hs) as (n & -> & Hn & Hst & ->). exists (S n). split_and!; [lia|done..].
Qed.

Lemma scanTasks_all now ts : ∀ i b,
  scanTasks now i b ts = inr true → b = true ∧ all_completed ts.
Proof.
  induction ts as [|t ts IH]; simpl; intros i b H; [by simplify_eq; split; [|constructor]|].
  destruct (decide (ti_State t = Idle)); [done|].
  destruct (scanTasks now (i + 1) _ ts) as [[[??]?]|b'] eqn:Hs; [done|]. simplify_eq.
  apply IH in Hs as [Hb Hall]. case_decide as Hc; [done|]. split; [done|].
  constructor; [|done]. destruct (ti_State t); tauto.
Qed.

(** An idle task is not completed. *)
Lemma all_completed_lookup ts (n : nat) t :
  all_completed ts → ts !! n = Some t → ti_State t = Completed.
Proof. intros Hall Hn. by apply (Forall_lookup_1 _ _ _ _ Hall Hn). Qed.

Lemma all_completed_insert ts (n : nat) t :
  ti_State t = Completed → all_completed ts → all_completed (<[n := t]> ts).
Proof. intros Ht Hall. by apply Forall_insert. Qed.

Lemma all_completed_expire now ts : all_completed ts → all_completed (expire now <$> ts).
Proof.
  intros Hall. apply Forall_fmap. eapply list.Forall_impl; [done|]. intros t Ht. simpl.
  unfold expire. rewrite decide_False by congruence. done.
Qed.

Lemma start_lookup now (ts : list TaskInfo) (n : nat) t (m : nat) t' :
  ts !! n = Some t → <[n := start now t]> ts !! m = Some t' → ti_State t' = Completed →
  ts !! m = Some t'.
Proof.
  intros Hn. destruct (decide (n = m)) as [<-|Hne].
  - rewrite list_lookup_insert_eq by (by eapply lookup_lt_Some). by intros [= <-].
  - by rewrite list_lookup_insert_ne.
Qed.

Lemma start_names now (ts : list TaskInfo) (n : nat) t :
  ts !! n = Some t → ti_Filename <$> <[n := start now t]> ts = ti_Filename <$> ts.
Proof.
  intros Hn. rewrite list_fmap_insert. simpl. apply list_insert_id.
  by rewrite list_lookup_fmap, Hn.
Qed.

Lemma coord_evolves_refl P Q c : coord_evolves P Q c c.
Proof. constructor; try done; eauto. intros (H1 & H2 & H3) Hm. split; [done|]. apply H1.
  destruct (phase c); tauto. Qed.

Lemma GetReduceTask_evolves P Q now c c0 :
  phase c ≠ MapTask → (phase c0 = phase c ∨ phase c0 = MapTask ∧ phase c = ReduceTask) →
  c = set_phase (phase c) c0 → (phase c0 = MapTask → all_completed (mapTasks c0)) →
  coord_evolves P Q c0 (GetReduceTask now c).1.
Proof.
  intros Hm Hp Hc Hall.
  assert (phase_ok c0 → phase_ok c) as Hok0.
  { intros (H1 & H2 & H3). rewrite Hc. unfold phase_ok. simpl.
    destruct Hp as [Hp|[Hp Hp']]; [by rewrite <-Hp|]. rewrite Hp'. split_and!; [|done|done]. auto. }
  assert (mapTasks c = mapTasks c0 ∧ reduceTasks c = reduceTasks c0 ∧ c_nMap c = c_nMap c0)
    as (Em & Er & En) by (by rewrite Hc).
  assert (phase_ok c → all_completed (mapTasks c)) as Hmaps.
  { intros (H1 & H2 & H3). apply H1. destruct (phase c); tauto. }
  unfold GetReduceTask. destruct (decide (phase c = ReduceTask)) as [Hr|Hr].
  - destruct (scanTasks now 0 true (reduceTasks c)) as [[[k t] ts]|[]] eqn:Hs; simpl.
    + apply scanTasks_found in Hs as (n & -> & Hn & Hi & ->).
      constructor; simpl; rewrite <-?Em, <-?Er, <-?En; try done.
      * by rewrite length_insert.
      * intros m t' ??. left. eauto.
      * intros r t' H1 H2. left. exists t'. split; [by eapply start_lookup|done].
      * intros Hok. pose proof (Hmaps (Hok0 Hok)). unfold phase_ok. simpl. rewrite Hr. done.
      * intros Hok _. pose proof (Hmaps (Hok0 Hok)). by rewrite Hr.
    + apply scanTasks_all in Hs as [_ Hs].
      constructor; simpl; rewrite <-?Em, <-?Er, <-?En; eauto.
      intros Hok. pose proof (Hmaps (Hok0 Hok)). unfold phase_ok. simpl. done.
    + constructor; rewrite ?Em, ?Er, ?En; eauto. intros Hok _. rewrite <-Em. auto.
  - simpl. constructor; rewrite ?Em, ?Er, ?En; eauto. intros Hok _. rewrite <-Em. auto.
Qed.

Lemma GetTask_evolves P Q now c : coord_evolves P Q c (GetTask now c).1.
Proof.
  unfold GetTask. destruct (decide (phase c = MapTask)) as [Hm|Hm].
  - destruct (scanTasks now 0 true (mapTasks c)) as [[[k t] ts]|[]] eqn:Hs; simpl.
    + apply scanTasks_found in Hs as (n & -> & Hn & Hi & ->). constructor; simpl; eauto.
      * by apply start_names.
      * intros m t' H1 H2. left. exists t'. split; [by eapply start_lookup|done].
      * intros (H1 & H2 & H3). unfold phase_ok. simpl. rewrite Hm. naive_solver.
      * done.
    + apply scanTasks_all in Hs as [_ Hs]. apply GetReduceTask_evolves; simpl; auto.
    + apply coord_evolves_refl.
  - apply GetReduceTask_evolves; auto; [|done]. by destruct c.
Qed.

Lemma checkTimeouts_evolves P Q now c c' :
  checkTimeouts now c = Some c' → coord_evolves P Q c c'.
Proof.
  assert (∀ (ts : list TaskInfo) (m : nat) t', (expire now <$> ts) !! m = Some t' → ti_State t' = Completed →
    ∃ t0, ts !! m = Some t0 ∧ ti_State t0 = Completed) as Hex.
  { intros ts m t'. rewrite list_lookup_fmap. destruct (ts !! m) as [t|]; [|done].
    intros [= <-]. unfold expire. repeat case_decide; [case_match|]; simpl; eauto. done. }
  unfold checkTimeouts. destruct (decide (phase c = ExitTask)); [done|].
  destruct (decide (phase c = MapTask)) as [Hm|Hm];
    [|destruct (decide (phase c = ReduceTask)) as [Hr|Hr]]; intros [= <-].
  - constructor; simpl; eauto.
    + rewrite <-list_fmap_compose. apply list_fmap_ext. intros i t _. simpl. unfold expire.
      repeat case_decide; [case_match|]; done.
    + unfold phase_ok. simpl. rewrite Hm. naive_solver.
    + done.
  - constructor; simpl; eauto.
    + by rewrite length_fmap.
    + intros (H1 & H2 & H3). unfold phase_ok. simpl. rewrite Hr. naive_solver.
    + intros (H1 & H2 & H3) _. rewrite Hr in *. auto.
  - apply coord_evolves_refl.
Qed.

Lemma FinishedTask_evolves args c c' :
  FinishedTask args c = Some c' →
  coord_evolves (λ m, ft_Type args = MapTask ∧ ft_TaskId args = Z.of_nat m)
                (λ r, ft_Type args = ReduceTask ∧ ft_TaskId args = Z.of_nat r) c c'.
Proof.
  assert (∀ (ts : list TaskInfo) (n : nat) t (m : nat) t', ts !! n = Some t → <[n := complete t]> ts !! m = Some t' →
    ti_State t' = Completed → (∃ t0, ts !! m = Some t0 ∧ ti_State t0 = Completed) ∨ n = m) as Hl.
  { intros ts n t m t' Hn. destruct (decide (n = m)) as [<-|Hne]; [by right|].
    rewrite list_lookup_insert_ne by done. eauto. }
  unfold FinishedTask. intros H. destruct (decide _) as [[Ht Hp]|_];
    [|destruct (decide _) as [[Ht Hp]|_]]; [..|simplify_eq; apply coord_evolves_refl].
  - apply bind_Some in H as (t & Hn & H). apply bind_Some in H as (ts & Hs & [= <-]).
    apply go_nth_lookup in Hn as [H0 Hn]. apply go_set_Some in Hs as [_ ->].
    constructor; simpl; eauto.
    + rewrite list_fmap_insert. simpl. apply list_insert_id. by rewrite list_lookup_fmap, Hn.
    + intros m t' H1 H2. destruct (Hl _ _ _ _ _ Hn H1 H2) as [?|<-]; [by left|right].
      split; [done|lia].
    + intros (H1 & H2 & H3). unfold phase_ok. simpl. rewrite Hp. naive_solver.
    + done.
  - apply bind_Some in H as (t & Hn & H). apply bind_Some in H as (ts & Hs & [= <-]).
    apply go_nth_lookup in Hn as [H0 Hn]. apply go_set_Some in Hs as [_ ->].
    constructor; simpl; eauto.
    + by rewrite length_insert.
    + intros m t' H1 H2. destruct (Hl _ _ _ _ _ Hn H1 H2) as [?|<-]; [by left|right].
      split; [done|lia].
    + intros (H1 & H2 & H3). unfold phase_ok. simpl. rewrite Hp. naive_solver.
    + intros (H1 & H2 & H3) _. rewrite Hp in *. auto.
Qed.

(** ** No task is handed out twice *)

(** The tasks of the phase a reply is about. *)
Definition tasks_of (ty : TaskType) (c : Coordinator) : list TaskInfo :=
  match ty with MapTask => mapTasks c | _ => reduceTasks c end.

Lemma GetTask_starts now c ty i :
  gt_Type (GetTask now c).2 = ty → gt_TaskId (GetTask now c).2 = i →
  ty = MapTask ∨ ty = ReduceTask →
  ∃ (n : nat) t, i = Z.of_nat n ∧ tasks_of ty c !! n = Some t ∧ ti_State t = Idle ∧
    tasks_of ty (GetTask now c).1 !! n = Some (start now t).
Proof.
  assert (∀ (ts : list TaskInfo) (n : nat) t, ts !! n = Some t → <[n := start now t]> ts !! n = Some (start now t)) as Hl.
  { intros ts n t Hn. apply list_lookup_insert_eq. by eapply lookup_lt_Some. }
  assert (∀ c, gt_Type (GetReduceTask now c).2 = ty → gt_TaskId (GetReduceTask now c).2 = i →
    ty = MapTask ∨ ty = ReduceTask →
    ∃ (n : nat) t, i = Z.of_nat n ∧ ty = ReduceTask ∧ reduceTasks c !! n = Some t ∧
      ti_State t = Idle ∧ reduceTasks (GetReduceTask now c).1 !! n = Some (start now t)) as Hr.
  { intros c'. unfold GetReduceTask. destruct (decide _); [|simpl; naive_solver].
    destruct (scanTasks now 0 true (reduceTasks c')) as [[[k t] ts]|[]] eqn:Hs; simpl;
      [|naive_solver..].
    apply scanTasks_found in Hs as (n & -> & Hn & Hi & ->). intros <- <- _. eauto 10. }
  unfold GetTask. destruct (decide (phase c = MapTask)) as [Hm|Hm].
  - destruct (scanTasks now 0 true (mapTasks c)) as [[[k t] ts]|[]] eqn:Hs; simpl.
    + apply scanTasks_found in Hs as (n & -> & Hn & Hi & ->). intros <- <- _. simpl. eauto 10.
    + intros H1 H2 H3. destruct (Hr _ H1 H2 H3) as (n & t & -> & -> & ?). eauto 10.
    + naive_solver.
  - intros H1 H2 H3. destruct (Hr _ H1 H2 H3) as (n & t & -> & -> & ?). eauto 10.
Qed.

(** GetTask marks the task it hands out: unless a timeout intervenes, the
    next request, by whatever worker and at whatever time, is never answered with
    the same task. *)
Theorem GetTask_no_double now now' c :
  let '(c1, r1) := GetTask now c in
  let '(c2, r2) := GetTask now' c1 in
  gt_Type r1 = MapTask ∨ gt_Type r1 = ReduceTask →
  gt_Type r2 = gt_Type r1 → gt_TaskId r2 ≠ gt_TaskId r1.
Proof.
  destruct (GetTask now c) as [c1 r1] eqn:H1. destruct (GetTask now' c1) as [c2 r2] eqn:H2.
  intros Hty Heq Hid.
  destruct (GetTask_starts now c (gt_Type r1) (gt_TaskId r1)) as (n & t & Hn & _ & _ & Hs);
    [by rewrite H1..|done|].
  destruct (GetTask_starts now' c1 (gt_Type r2) (gt_TaskId r2)) as (n' & t' & Hn' & Ht & Hi & _);
    [by rewrite H2..|congruence|].
  rewrite H1 in Hs. simpl in Hs. rewrite Heq in Ht.
  assert (n' = n) as -> by lia. rewrite Hs in Ht. by simplify_eq.
Qed.

Lemma bind_ext_in {A B} (f g : A → list B) l :
  (∀ x, x ∈ l → f x = g x) → l ≫= f = l ≫= g.
Proof.
  induction l as [|x l IH]; intros H; [done|].
  rewrite !bind_cons, H, IH by set_solver. done.
Qed.

(** ** A job *)

Section Job.
Context (mapf : string → string → list KeyValue) (reducef : string → list string → string).
Context (sort : list KeyValue → list KeyValue).
Context (json_encode : KeyValue → list byte) (json_decode : list byte → option (KeyValue * list byte)).

(** The inputs, by name and content, and the number of reduce tasks. *)
Context (inputs : list (string * string)) (nReduce : nat).

(** A worker: asking for a task, in doMap with the files below [r] renamed, at
    the report of doMap, in doReduce, at its report, sleeping, gone. *)
Inductive WorkerPC :=
| WAsk
| WMap (taskId : nat) (filename : string) (r : nat)
| WReduce (taskId : nat)
| WReport (args : FinishedTaskArgs)
| WExit.

Record Job := mkJob {
  coord : Coordinator;
  workers : nat → WorkerPC;
  inter : gmap (nat * nat) (list byte);             (* the files mr-m-r *)
  outs : gmap nat (list (string * string))          (* the files mr-out-r *)
}.

Definition set_worker (w : nat) (p : WorkerPC) (j : Job) : nat → WorkerPC :=
  λ w', if decide (w = w') then p else workers j w'.

(** What a worker does with the reply of GetTask: the switch of Worker. *)
Definition dispatch (r : GetTaskReply) : WorkerPC :=
  match gt_Type r with
  | MapTask => WMap (Z.to_nat (gt_TaskId r)) (gt_Filename r) 0
  | ReduceTask => WReduce (Z.to_nat (gt_TaskId r))
  | WaitTask => WAsk
  | ExitTask => WExit
  end.

(** The content of the input file [filename]. *)
Definition content_of (filename : string) : option string :=
  (list_to_map inputs : gmap string string) !! filename.

Inductive job_step (j : Job) : Job → Prop :=
| j_ask w now : workers j w = WAsk →
    job_step j (mkJob (GetTask now (coord j)).1
                  (set_worker w (dispatch (GetTask now (coord j)).2) j) (inter j) (outs j))
(* the next intermediate file is renamed into place *)
| j_map_file w m f r content files bs : workers j w = WMap m f r →
    content_of f = Some content →
    doMap mapf json_encode f content (Z.of_nat nReduce) = Some files → files !! r = Some bs →
    job_step j (mkJob (coord j) (set_worker w (WMap m f (S r)) j)
                  (<[(m, r) := bs]> (inter j)) (outs j))
| j_map_done w m f : workers j w = WMap m f nReduce →
    job_step j (mkJob (coord j)
                  (set_worker w (WReport (mkFinishedTaskArgs MapTask (Z.of_nat m))) j)
                  (inter j) (outs j))
| j_reduce w r : workers j w = WReduce r →
    job_step j (mkJob (coord j)
                  (set_worker w (WReport (mkFinishedTaskArgs ReduceTask (Z.of_nat r))) j)
                  (inter j)
                  (<[r := doReduce reducef sort json_decode
                            ((λ m, inter j !! (m, r)) <$> seq 0 (Z.to_nat (c_nMap (coord j))))]>
                     (outs j)))
| j_report w args c' : workers j w = WReport args → FinishedTask args (coord j) = Some c' →
    job_step j (mkJob c' (set_worker w WAsk j) (inter j) (outs j))
(* the report is lost, or the worker crashes and another takes its place *)
| j_crash w p : p = WAsk ∨ p = WExit →
    job_step j (mkJob (coord j) (set_worker w p j) (inter j) (outs j))
| j_timeout now c' : checkTimeouts now (coord j) = Some c' →
    job_step j (mkJob c' (workers j) (inter j) (outs j)).

Definition job_init (j : Job) : Prop :=
  coord j = MakeCoordinator (fst <$> inputs) nReduce ∧ (∀ w, workers j w = WAsk) ∧
  inter j = ∅ ∧ outs j = ∅.

Definition job_reachable : Job → Prop := reachable job_init job_step.

(** ** The invariant *)

(** The right content of mr-m-r and of mr-out-r. *)
Definition right_inter (m r : nat) : option (list byte) :=
  '(f, c) ← inputs !! m; Some (encodeBucket json_encode (bucket nReduce r (mapf f c))).

Definition right_out (r : nat) : list (string * string) :=
  doReduce reducef sort json_decode (mapOutputs mapf json_encode nReduce r inputs).

(** The intermediate files of map task [m] below [r] are in place. *)
Definition written_upto (j : Job) (m r : nat) : Prop :=
  ∀ r', (r' < r)%nat → inter j !! (m, r') = right_inter m r' ∧ is_Some (inter j !! (m, r')).

Record job_inv (j : Job) : Prop := mkJobInv {
  jv_nMap : c_nMap (coord j) = len inputs;
  jv_names : ti_Filename <$> mapTasks (coord j) = fst <$> inputs;
  jv_reduces : length (reduceTasks (coord j)) = nReduce;
  jv_inter m r : is_Some (inter j !! (m, r)) → inter j !! (m, r) = right_inter m r;
  jv_outs r l : outs j !! r = Some l → l = right_out r;
  jv_map m t : mapTasks (coord j) !! m = Some t → ti_State t = Completed →
    written_upto j m nReduce;
  jv_reduce r t : reduceTasks (coord j) !! r = Some t → ti_State t = Completed →
    is_Some (outs j !! r);
  jv_phase : phase_ok (coord j);
  jv_worker w : match workers j w with
    | WMap m f r => fst <$> inputs !! m = Some f ∧ written_upto j m r
    | WReduce r => (r < nReduce)%nat ∧ phase (coord j) ≠ MapTask
    | WReport args =>
        (ft_Type args = MapTask ∧ ∃ m, ft_TaskId args = Z.of_nat m ∧ (m < length inputs)%nat ∧
           written_upto j m nReduce) ∨
        (ft_Type args = ReduceTask ∧ ∃ r, ft_TaskId args = Z.of_nat r ∧ (r < nReduce)%nat ∧
           is_Some (outs j !! r))
    | _ => True
    end
}.

(** A file name stands for one content, and there is a reduce task. *)
Context (inputs_ok : ∀ f c c', (f, c) ∈ inputs → (f, c') ∈ inputs → c = c').
Context (nReduce_pos : (0 < nReduce)%nat).

Lemma written_upto_mono j j' m r :
  (∀ k, is_Some (inter j !! k) → inter j' !! k = inter j !! k) →
  written_upto j m r → written_upto j' m r.
Proof. intros H Hw r' Hr. destruct (Hw r' Hr) as [He Hs]. by rewrite H. Qed.

(** A call on the coordinator by worker [w] (or by nobody). *)
Lemma inv_coord j c' ws P Q :
  job_inv j → coord_evolves P Q (coord j) c' →
  (∀ m, P m → written_upto j m nReduce) → (∀ r, Q r → is_Some (outs j !! r)) →
  (∀ w, ws w = workers j w ∨
        match ws w with
        | WMap m f r => fst <$> inputs !! m = Some f ∧ r = 0%nat
        | WReduce r => (r < nReduce)%nat ∧ phase c' ≠ MapTask
        | WReport _ => False
        | _ => True
        end) →
  job_inv (mkJob c' ws (inter j) (outs j)).
Proof.
  intros [HnM Hnames Hred Hint Hout Hmap Hreduce Hph Hw] [H1 H2 H3 H4 H5 H6 H7] HP HQ Hws.
  constructor; simpl; [congruence|congruence|congruence|done|done| | |auto|].
  - intros m t Ht Hc. destruct (H4 _ _ Ht Hc) as [(t0 & ? & ?)|?]; [|by apply HP].
    by eapply Hmap.
  - intros r t Ht Hc. destruct (H5 _ _ Ht Hc) as [(t0 & ? & ?)|?]; [|by apply HQ].
    by eapply Hreduce.
  - intros w. specialize (Hw w). destruct (Hws w) as [Heq|Hnew].
    + rewrite Heq. destruct (workers j w); try exact Hw. destruct Hw as [Hr Hm].
      split; [done|]. by apply H7.
    + destruct (ws w); try done. destruct Hnew as [? ->]. split; [done|]. intros r' Hr'. lia.
Qed.

Lemma GetTask_dispatch j now :
  job_inv j →
  match dispatch (GetTask now (coord j)).2 with
  | WMap m f r => fst <$> inputs !! m = Some f ∧ r = 0%nat
  | WReduce r => (r < nReduce)%nat ∧ phase (GetTask now (coord j)).1 ≠ MapTask
  | WReport _ => False
  | _ => True
  end.
Proof.
  intros Hinv. pose proof (jv_names _ Hinv) as Hnames. pose proof (jv_reduces _ Hinv) as Hred.
  assert (∀ c, reduceTasks c = reduceTasks (coord j) →
    match dispatch (GetReduceTask now c).2 with
    | WMap m f r => fst <$> inputs !! m = Some f ∧ r = 0%nat
    | WReduce r => (r < nReduce)%nat ∧ phase (GetReduceTask now c).1 ≠ MapTask
    | WReport _ => False
    | _ => True
    end) as Hr.
  { intros c Hc. unfold GetReduceTask. destruct (decide (phase c = ReduceTask)) as [Hp|]; [|done].
    destruct (scanTasks now 0 true (reduceTasks c)) as [[[k t] ts]|[]] eqn:Hs; [|done|done].
    apply scanTasks_found in Hs as (n & -> & Hn & _). rewrite Hc in Hn.
    apply lookup_lt_Some in Hn. simpl. rewrite Hp. split; [lia|done]. }
  unfold GetTask. destruct (decide (phase (coord j) = MapTask)); [|by apply Hr].
  destruct (scanTasks now 0 true (mapTasks (coord j))) as [[[k t] ts]|[]] eqn:Hs; [|by apply Hr|done].
  apply scanTasks_found in Hs as (n & -> & Hn & _). simpl. split; [|done].
  replace (Z.to_nat (0 + Z.of_nat n)) with n by lia.
  assert ((ti_Filename <$> mapTasks (coord j)) !! n = Some (ti_Filename t)) as Hf
    by (by rewrite list_lookup_fmap, Hn).
  rewrite Hnames in Hf. by rewrite <-list_lookup_fmap.
Qed.

Lemma content_right m f c : content_of f = Some c → fst <$> inputs !! m = Some f →
  inputs !! m = Some (f, c).
Proof.
  unfold content_of. intros Hc%elem_of_list_to_map_2 Hm.
  destruct (inputs !! m) as [[f' c']|] eqn:Hi; [|done]. simplify_eq/=.
  apply list_elem_of_lookup_2 in Hi as Hin. by rewrite (inputs_ok _ _ _ Hin Hc).
Qed.

Lemma inv_map_file j w m f r content files bs :
  job_inv j → workers j w = WMap m f r → content_of f = Some content →
  doMap mapf json_encode f content (Z.of_nat nReduce) = Some files → files !! r = Some bs →
  job_inv (mkJob (coord j) (set_worker w (WMap m f (S r)) j)
             (<[(m, r) := bs]> (inter j)) (outs j)).
Proof.
  intros [HnM Hnames Hred Hint Hout Hmap Hreduce Hph Hw] Hpc Hc Hd Hbs.
  pose proof (Hw w) as Hww. rewrite Hpc in Hww. destruct Hww as [Hm Hupto].
  pose proof (content_right _ _ _ Hc Hm) as Hin.
  assert (right_inter m r = Some bs) as Hright.
  { unfold right_inter. rewrite Hin. simpl. unfold doMap in Hd.
    rewrite fillBuckets_spec in Hd by done. simpl in Hd. simplify_eq.
    rewrite !list_lookup_fmap in Hbs. destruct (seq 0 nReduce !! r) as [x|] eqn:Hx; [|done].
    apply lookup_seq in Hx as [-> _]. by simplify_eq/=. }
  assert (∀ k, is_Some (inter j !! k) → <[(m, r) := bs]> (inter j) !! k = inter j !! k) as Hmono.
  { intros k Hk. destruct (decide (k = (m, r))) as [->|Hne]; [|by rewrite lookup_insert_ne].
    rewrite lookup_insert_eq. by rewrite (Hint _ _ Hk), Hright. }
  assert (∀ ws m' r', written_upto j m' r' →
    written_upto (mkJob (coord j) ws (<[(m, r) := bs]> (inter j)) (outs j)) m' r') as Hup
    by (intros; by eapply written_upto_mono).
  constructor; simpl; [done|done|done| |done| |done|done|].
  - intros m' r' Hs. destruct (decide ((m, r) = (m', r'))) as [Heq|Hne].
    + simplify_eq. by rewrite lookup_insert_eq.
    + rewrite lookup_insert_ne in * by done. by apply Hint.
  - intros m' t Ht Hcomp. eapply Hup, Hmap; done.
  - intros w'. unfold set_worker. case_decide.
    + split; [done|]. intros r' Hr'. simpl. destruct (decide (r' = r)) as [->|Hne].
      * by rewrite lookup_insert_eq.
      * apply (Hup (workers j) m r Hupto). lia.
    + specialize (Hw w'). destruct (workers j w'); naive_solver.
Qed.

Lemma inv_worker j w p :
  job_inv j →
  match p with
  | WMap _ _ _ | WReduce _ => False
  | WReport args =>
      ft_Type args = MapTask ∧ ∃ m, ft_TaskId args = Z.of_nat m ∧ (m < length inputs)%nat ∧
         written_upto j m nReduce
  | _ => True
  end →
  job_inv (mkJob (coord j) (set_worker w p j) (inter j) (outs j)).
Proof.
  intros [HnM Hnames Hred Hint Hout Hmap Hreduce Hph Hw] Hp. constructor; simpl; try done.
  intros w'. unfold set_worker. case_decide; [|apply Hw]. destruct p; try done. by left.
Qed.

(** Once the maps are done, the files a reduce task reads are the right ones. *)
Lemma reduce_reads j r :
  job_inv j → phase (coord j) ≠ MapTask → (r < nReduce)%nat →
  (λ m, inter j !! (m, r)) <$> seq 0 (Z.to_nat (c_nMap (coord j))) =
  mapOutputs mapf json_encode nReduce r inputs.
Proof.
  intros [HnM Hnames Hred Hint Hout Hmap Hreduce (H1 & _ & H3) Hw] Hph Hr.
  assert (all_completed (mapTasks (coord j))) as Hall
    by (apply H1; destruct (phase (coord j)); tauto).
  rewrite HnM, Nat2Z.id. apply list_eq. intros m. unfold mapOutputs. rewrite !list_lookup_fmap.
  destruct (inputs !! m) as [[f c]|] eqn:Hm.
  - rewrite lookup_seq_lt by (by eapply lookup_lt_Some). simpl. f_equal.
    assert (∃ t, mapTasks (coord j) !! m = Some t) as [t Ht].
    { apply lookup_lt_is_Some. rewrite <-(length_fmap ti_Filename), Hnames, length_fmap.
      by eapply lookup_lt_Some. }
    destruct (Hmap _ _ Ht (all_completed_lookup _ _ _ Hall Ht) r Hr) as [-> _].
    unfold right_inter. by rewrite Hm.
  - rewrite lookup_seq_ge; [done|]. by apply lookup_ge_None.
Qed.

Lemma inv_reduce j w r :
  job_inv j → workers j w = WReduce r →
  job_inv (mkJob (coord j)
    (set_worker w (WReport (mkFinishedTaskArgs ReduceTask (Z.of_nat r))) j) (inter j)
    (<[r := doReduce reducef sort json_decode
              ((λ m, inter j !! (m, r)) <$> seq 0 (Z.to_nat (c_nMap (coord j))))]> (outs j))).
Proof.
  intros Hinv Hpc. pose proof (jv_worker _ Hinv w) as Hww. rewrite Hpc in Hww.
  destruct Hww as [Hr Hph]. rewrite (reduce_reads _ _ Hinv Hph Hr).
  destruct Hinv as [HnM Hnames Hred Hint Hout Hmap Hreduce Hphase Hw].
  constructor; simpl; [done|done|done|done| |done| |done|].
  - intros r' l. rewrite lookup_insert_Some. intros [[<- <-]|[_ ?]]; [done|auto].
  - intros r' t Ht Hc. rewrite lookup_insert_is_Some'. right. by eapply Hreduce.
  - intros w'. unfold set_worker. case_decide.
    + right. split; [done|]. exists r. split_and!; [done|done|]. simpl. by rewrite lookup_insert_eq.
    + specialize (Hw w'). destruct (workers j w'); try done.
      destruct Hw as [?|(? & r' & ? & ? & ?)]; [by left|right]. split; [done|]. exists r'.
      split_and!; [done|done|]. simpl. rewrite lookup_insert_is_Some'. by right.
Qed.

Lemma job_inv_init j : job_init j → job_inv j.
Proof.
  intros (Hc & Hw & Hi & Ho). unfold MakeCoordinator in Hc. constructor; rewrite ?Hc, ?Hi, ?Ho; simpl.
  - by rewrite length_fmap.
  - rewrite <-list_fmap_compose. by rewrite list_fmap_id.
  - apply length_replicate.
  - intros m r. rewrite lookup_empty. by intros [? ?].
  - intros r l. by rewrite lookup_empty.
  - intros m t. rewrite list_lookup_fmap. destruct ((fst <$> inputs) !! m); [|done]. by intros [= <-].
  - intros r t [-> _]%lookup_replicate. done.
  - unfold phase_ok. simpl. naive_solver.
  - intros w. by rewrite Hw.
Qed.

Lemma job_inv_step j j' : job_inv j → job_step j j' → job_inv j'.
Proof.
  intros Hinv Hstep.
  destruct Hstep as [w now Hw|w m f r c files bs Hw Hc Hd Hb|w m f Hw|w r Hw|w args c' Hw Hf
    |w p Hp|now c' Hc].
  - eapply (inv_coord _ _ _ (λ _, False) (λ _, False)); [done|apply GetTask_evolves|done|done|].
    intros w'. unfold set_worker. case_decide; [right; by apply GetTask_dispatch|by left].
  - by eapply inv_map_file.
  - apply inv_worker; [done|]. split; [done|]. exists m. split; [done|].
    pose proof (jv_worker _ Hinv w) as Hww. rewrite Hw in Hww. destruct Hww as [Hm Hup].
    split; [|done]. destruct (inputs !! m) eqn:Hi; [|done]. by eapply lookup_lt_Some.
  - by apply inv_reduce.
  - pose proof (jv_worker _ Hinv w) as Hww. rewrite Hw in Hww.
    eapply inv_coord; [done|by apply FinishedTask_evolves|..].
    + intros m [Ht Hid]. destruct Hww as [(_ & m' & Hid' & _ & ?)|[Ht' _]]; [|congruence].
      by replace m with m' by lia.
    + intros r [Ht Hid]. destruct Hww as [[Ht' _]|(_ & r' & Hid' & _ & ?)]; [congruence|].
      by replace r with r' by lia.
    + intros w'. unfold set_worker. case_decide; [by right|by left].
  - apply inv_worker; [done|]. by destruct Hp as [->| ->].
  - eapply (inv_coord _ _ _ (λ _, False) (λ _, False)); [done|by eapply checkTimeouts_evolves|done|done|].
    by left.
Qed.

Lemma job_reachable_inv j : job_reachable j → job_inv j.
Proof.
  revert j. apply reachable_invariant; [apply job_inv_init|]. intros j j' _. apply job_inv_step.
Qed.

(** No reduce task is handed out early, and reports never crash the
    coordinator: when GetTask answers with a reduce task, every map task is
    completed and every intermediate file of that reduce task is in place with
    its right content; and the report of any worker names an existing task. *)
Theorem reduce_after_maps j now w args :
  job_reachable j →
  (gt_Type (GetTask now (coord j)).2 = ReduceTask →
     all_completed (mapTasks (GetTask now (coord j)).1) ∧
     ∀ m f c r, inputs !! m = Some (f, c) → (r < nReduce)%nat →
       inter j !! (m, r) = Some (encodeBucket json_encode (bucket nReduce r (mapf f c)))) ∧
  (workers j w = WReport args → is_Some (FinishedTask args (coord j))).
Proof.
  intros Hinv%job_reachable_inv. split.
  - intros Ht. set (j1 := mkJob (GetTask now (coord j)).1 (workers j) (inter j) (outs j)).
    assert (job_inv j1) as Hinv1.
    { eapply (inv_coord _ _ _ (λ _, False) (λ _, False)); [done|apply GetTask_evolves|done|done|].
      by left. }
    pose proof (GetTask_dispatch j now Hinv) as Hd. unfold dispatch in Hd. rewrite Ht in Hd.
    destruct Hd as [Hr Hp]. destruct (jv_phase _ Hinv1) as (H1 & _ & H3). simpl in H1, H3.
    assert (all_completed (mapTasks (GetTask now (coord j)).1)) as Hall
      by (apply H1; destruct (phase (GetTask now (coord j)).1); tauto).
    split; [done|]. intros m f c r Hm Hr'.
    assert (∃ t, mapTasks (GetTask now (coord j)).1 !! m = Some t) as [t Hmt].
    { apply lookup_lt_is_Some. pose proof (jv_names _ Hinv1) as Hn. simpl in Hn.
      rewrite <-(length_fmap ti_Filename), Hn, length_fmap. by eapply lookup_lt_Some. }
    destruct (jv_map _ Hinv1 _ _ Hmt (all_completed_lookup _ _ _ Hall Hmt) r Hr') as [He _].
    simpl in He. rewrite He. unfold right_inter. by rewrite Hm.
  - intros Hw. pose proof (jv_worker _ Hinv w) as Hww. rewrite Hw in Hww.
    assert (length (mapTasks (coord j)) = length inputs) as Hl.
    { by rewrite <-(length_fmap ti_Filename), (jv_names _ Hinv), length_fmap. }
    pose proof (jv_reduces _ Hinv) as Hr. unfold FinishedTask.
    destruct Hww as [(Ht & m & Hid & Hm & _)|(Ht & r & Hid & Hr' & _)]; rewrite Ht, Hid.
    + destruct (decide _); [|by rewrite decide_False by naive_solver].
      destruct (proj2 (go_nth_is_Some (mapTasks (coord j)) (Z.of_nat m))) as [t ->]; [lia|].
      obind. by rewrite go_set_ok by lia.
    + rewrite decide_False by naive_solver. destruct (decide _); [|done].
      destruct (proj2 (go_nth_is_Some (reduceTasks (coord j)) (Z.of_nat r))) as [t ->]; [lia|].
      obind. by rewrite go_set_ok by lia.
Qed.

(** What [sort.Sort] and the JSON codec provide, and what the application owes. *)
Context (sort_perm : ∀ l, sort l ≡ₚ l) (sort_sorted : ∀ l, StronglySorted by_key_le (sort l)).
Context (json_nonempty : ∀ kv, json_encode kv ≠ []).
Context (json_roundtrip : ∀ kv bs,
  text_pair kv → json_decode (json_encode kv ++ bs) = Some (kv, bs)).
Context (json_eof : json_decode [] = None).
Context (mapf_text : maps_to_text mapf inputs).
Context (reducef_perm : ∀ k vs vs', vs ≡ₚ vs' → reducef k vs = reducef k vs').

(** End to end: whenever Done reports that the job has finished - after any
    interleaving of workers that stall, are timed out, crash half way through
    their files or report twice - every output file is in place, and their lines
    together are, up to order, those of the sequential program. *)
Theorem job_output_is_sequential j :
  job_reachable j → Done (coord j) = true →
  (∀ r, (r < nReduce)%nat → is_Some (outs j !! r)) ∧
  (seq 0 nReduce ≫= λ r, default [] (outs j !! r)) ≡ₚ sequential mapf reducef sort inputs.
Proof.
  intros Hinv%job_reachable_inv Hd. unfold Done in Hd. bool_to_prop.
  destruct (jv_phase _ Hinv) as (_ & Hall & _). specialize (Hall Hd).
  assert (∀ r, (r < nReduce)%nat → outs j !! r = Some (right_out r)) as Hout.
  { intros r Hr. rewrite <-(jv_reduces _ Hinv) in Hr. apply lookup_lt_is_Some in Hr as [t Ht].
    destruct (jv_reduce _ Hinv _ _ Ht (all_completed_lookup _ _ _ Hall Ht)) as [l Hl].
    rewrite Hl. by rewrite (jv_outs _ Hinv _ _ Hl). }
  split; [intros r Hr; by rewrite Hout|].
  rewrite <-(proj2 (distributed_equals_sequential mapf reducef sort json_encode json_decode
    sort_perm sort_sorted json_nonempty json_roundtrip json_eof reducef_perm nReduce inputs
    nReduce_pos mapf_text)).
  apply reflexive_eq. apply bind_ext_in. intros r Hr%elem_of_seq.
  rewrite Hout by lia. done.
Qed.

End Job.

(** ** Instances *)

#[export] Instance KeyValue_countable : Countable KeyValue :=
  inj_countable' (λ kv, (kv_Key kv, kv_Value kv)) (λ '(k, v), mkKeyValue k v)
    (λ kv, match kv with mkKeyValue _ _ => eq_refl end).

(** Word count of one file with one reduce task, by one worker. *)
Definition ex_inputs : list (string * string) := [("f1", "w")].
Definition ex_mapf : string → string → list KeyValue := wc_Map (λ c, [c]).
Abbreviation ex_reachable := (job_reachable ex_mapf wc_Reduce (merge_sort by_key_le)
  val_bytes val_decode ex_inputs 1).

Lemma ex_inputs_ok f c c' : (f, c) ∈ ex_inputs → (f, c') ∈ ex_inputs → c = c'.
Proof. unfold ex_inputs. set_solver. Qed.

Lemma ex_json_nonempty (kv : KeyValue) : val_bytes kv ≠ [].
Proof. unfold val_bytes. by destruct (encode kv). Qed.

Lemma ex_json_roundtrip (kv : KeyValue) bs :
  text_pair kv → val_decode (val_bytes kv ++ bs) = Some (kv, bs).
Proof. intros _. unfold val_decode, val_bytes. rewrite bytes_pos_bytes. simpl. by rewrite decode_encode. Qed.

Lemma ex_mapf_text : maps_to_text ex_mapf ex_inputs.
Proof. intros f c [= -> ->]%list_elem_of_singleton. by repeat constructor. Qed.

(** The map task is done and reported. *)
Lemma ex_mapped : ∃ j, ex_reachable j ∧ workers j 0%nat = WAsk ∧
  coord j = mkCoordinator 1 1 [mkTaskInfo Completed 0 "f1"] [mkTaskInfo Idle 0 ""] MapTask ∧
  outs j = ∅.
Proof.
  eexists. split; [eapply reach_step; [eapply reach_step; [eapply reach_step; [eapply reach_step;
    [apply (reach_init _ _ (mkJob (MakeCoordinator ["f1"] 1) (λ _, WAsk) ∅ ∅))|]|]|]|]|].
  - done.
  - by apply (j_ask _ _ _ _ _ _ _ _ 0%nat 0).
  - eapply (j_map_file _ _ _ _ _ _ _ _ 0%nat 0%nat "f1" 0%nat "w"); [done|done|by vm_compute|done].
  - by eapply (j_map_done _ _ _ _ _ _ _ _ 0%nat 0%nat "f1").
  - by eapply (j_report _ _ _ _ _ _ _ _ 0%nat).
  - done.
Qed.

Lemma reduce_after_maps_witness :
  ∃ j, ex_reachable j ∧ gt_Type (GetTask 5 (coord j)).2 = ReduceTask ∧
    all_completed (mapTasks (GetTask 5 (coord j)).1).
Proof.
  destruct ex_mapped as (j & Hr & Hw & Hc & Ho). exists j. split; [exact Hr|].
  assert (gt_Type (GetTask 5 (coord j)).2 = ReduceTask) as Ht by (by rewrite Hc).
  split; [exact Ht|].
  apply (reduce_after_maps ex_mapf wc_Reduce (merge_sort by_key_le) val_bytes val_decode
    ex_inputs 1 ex_inputs_ok ltac:(lia) j 5 0%nat (mkFinishedTaskArgs MapTask 0) Hr). exact Ht.
Defined.

Lemma job_output_is_sequential_witness :
  ∃ j, ex_reachable j ∧ Done (coord j) = true ∧
    default [] (outs j !! 0%nat) ++ [] ≡ₚ
      sequential ex_mapf wc_Reduce (merge_sort by_key_le) ex_inputs.
Proof.
  assert (∃ j, ex_reachable j ∧ Done (coord j) = true) as (j & Hr & Hd).
  { destruct ex_mapped as (j & Hr & Hw & Hc & Ho). eexists.
    split; [eapply reach_step; [eapply reach_step; [eapply reach_step; [eapply reach_step;
      [exact Hr|]|]|]|]|].
    - by apply (j_ask _ _ _ _ _ _ _ j 0%nat 5).
    - eapply (j_reduce _ _ _ _ _ _ _ _ 0%nat 0%nat). simpl. by rewrite Hc.
    - eapply (j_report _ _ _ _ _ _ _ _ 0%nat); [done|]. simpl. by rewrite Hc.
    - by apply (j_ask _ _ _ _ _ _ _ _ 0%nat 6).
    - done. }
  exists j. split; [exact Hr|split; [exact Hd|]].
  apply (job_output_is_sequential ex_mapf wc_Reduce (merge_sort by_key_le) val_bytes val_decode
    ex_inputs 1 ex_inputs_ok ltac:(lia)) with (j := j);
    [apply merge_sort_Permutation|apply merge_sorted|apply ex_json_nonempty|apply ex_json_roundtrip
    |done|exact ex_mapf_text| |exact Hr|exact Hd].
  intros k vs vs' H. unfold wc_Reduce. by rewrite H.
Defined.
