(* ===== verification/MrMain.v ===== *)
(** * The programs that run a MapReduce job

    Models src/6.5840/src/main/mrcoordinator.go and src/6.5840/src/main/mrworker.go:
    the program of the coordinator, which makes the tasks for the files on its
    command line and polls until the job is done, together with the job of
    MapReduce.v; and the program of a worker, which loads Map and Reduce from a
    plug-in.  A worker that is left alone can finish a job, so the program of the
    coordinator can come to its end, and what it leaves are the lines of the
    sequential program. *)

From S2P Require Import Prelude Gob MrWorker MrApps MapReduce.

(** ** main/mrworker.go *)

(** What [plugin.Lookup] finds under a name: a function of one of the two types, or
    anything else. *)
Inductive Symbol :=
| SMap (mapf : string → string → list KeyValue)
| SReduce (reducef : string → list string → string)
| SOther.

(** The functions, [log.Fatalf], or the panic of a failed type assertion. *)
Inductive Loaded :=
| LoadedFunctions (mapf : string → string → list KeyValue) (reducef : string → list string → string)
| LoadFatal (message : string)
| LoadPanic.

Inductive WorkerStart :=
| UsageExit (message : string)
| StartsWorker (mapf : string → string → list KeyValue) (reducef : string → list string → string)
| WorkerFails (l : Loaded).

Section Plugin.
(** Package plugin: opening a file, and the symbols of what was opened. *)
Context {Plugin : Type} (plugin_Open : string → option Plugin) (Lookup : Plugin → string → option Symbol).

Definition loadPlugin (filename : string) : Loaded :=
  match plugin_Open filename with
  | None => LoadFatal ("cannot load plugin " ++ filename)
  | Some p =>
      match Lookup p "Map" with
      | None => LoadFatal ("cannot find Map in " ++ filename)
      | Some (SMap mapf) =>
          match Lookup p "Reduce" with
          | None => LoadFatal ("cannot find Reduce in " ++ filename)
          | Some (SReduce reducef) => LoadedFunctions mapf reducef
          | Some _ => LoadPanic
          end
      | Some _ => LoadPanic
      end
  end.

(** [args] is os.Args, the name of the program first. *)
Definition mrworker_main (args : list string) : WorkerStart :=
  match args with
  | [_; filename] =>
      match loadPlugin filename with
      | LoadedFunctions mapf reducef => StartsWorker mapf reducef
      | l => WorkerFails l
      end
  | _ => UsageExit "Usage: mrworker xxx.so"
  end.

(** The worker starts exactly with one argument that names a plug-in whose Map and
    Reduce have the right types, and then with these. *)
Lemma mrworker_starts args mapf reducef :
  mrworker_main args = StartsWorker mapf reducef ↔
  ∃ prog filename p, args = [prog; filename] ∧ plugin_Open filename = Some p ∧
    Lookup p "Map" = Some (SMap mapf) ∧ Lookup p "Reduce" = Some (SReduce reducef).
Proof.
  split.
  - destruct args as [|prog [|filename [|]]]; [done|done| |done]. simpl. unfold loadPlugin.
    destruct (plugin_Open filename) as [p|] eqn:Ho; [|done].
    destruct (Lookup p "Map") as [[m| |]|] eqn:Hm; try done.
    destruct (Lookup p "Reduce") as [[|r|]|] eqn:Hr; try done. intros [= -> ->]. by eauto 10.
  - intros (prog & filename & p & -> & Ho & Hm & Hr). simpl. unfold loadPlugin. by rewrite Ho, Hm, Hr.
Qed.

End Plugin.

(** ** A worker alone finishes the job *)

(** What is left to do: the tasks that are not completed, and the phases. *)
Definition open_task (t : TaskInfo) : nat := if decide (ti_State t = Completed) then 0 else 1.

Definition open_tasks (ts : list TaskInfo) : nat := sum_list_with open_task ts.

Definition phases_left (c : Coordinator) : nat :=
  match phase c with MapTask => 3 | ReduceTask => 2 | WaitTask => 1 | ExitTask => 0 end.

Definition work_left (c : Coordinator) : nat :=
  open_tasks (mapTasks c) + open_tasks (reduceTasks c) + phases_left c.

(** Nobody works on a task. *)
Definition unattended (ts : list TaskInfo) : Prop := Forall (λ t, ti_State t ≠ InProgress) ts.

Lemma open_tasks_insert ts (n : nat) t t' :
  ts !! n = Some t → (open_tasks (<[n := t']> ts) + open_task t = open_tasks ts + open_task t')%nat.
Proof.
  unfold open_tasks. revert n. induction ts as [|t0 ts IH]; intros [|n] Hn; simplify_eq/=; [lia|].
  specialize (IH n Hn). lia.
Qed.

Lemma open_tasks_complete ts (n : nat) t t' :
  ts !! n = Some t → ti_State t = Idle → S (open_tasks (<[n := complete t']> ts)) = open_tasks ts.
Proof.
  intros Hn Ht. pose proof (open_tasks_insert ts n t (complete t') Hn) as H.
  unfold open_task in H. rewrite Ht in H. simpl in H. lia.
Qed.

Lemma expire_open now ts : open_tasks (expire now <$> ts) = open_tasks ts.
Proof.
  unfold open_tasks. induction ts as [|t ts IH]; csimpl; [done|]. rewrite IH. f_equal.
  unfold expire, open_task. destruct (decide (ti_State t = InProgress)) as [Ht|]; [|done].
  destruct (_ <? _); simpl; rewrite ?Ht; done.
Qed.

(** Late enough, every task in progress is given up. *)
Lemma expire_all ts : ∃ now0, ∀ now, now0 <= now → unattended (expire now <$> ts).
Proof.
  induction ts as [|t ts [now0 IH]]; [exists 0; constructor|].
  exists (Z.max now0 (ti_StartTime t + seconds 11)). intros now Hnow. constructor; [|apply IH; lia].
  unfold expire. destruct (decide (ti_State t = InProgress)) as [Ht|Ht]; [|done].
  rewrite (proj2 (Z.ltb_lt _ _)); [done|]. unfold seconds in *. lia.
Qed.

(** Then a scan finds an idle task or none that is open. *)
Lemma scanTasks_unattended now ts : unattended ts → ∀ i, scanTasks now i true ts ≠ inr false.
Proof.
  induction 1 as [|t ts Ht _ IH]; intros i; simpl; [done|].
  destruct (decide (ti_State t = Idle)) as [|Hi]; [done|].
  assert (ti_State t = Completed) as Hc by (destruct (ti_State t); done).
  rewrite decide_False by (intros H; by apply H). specialize (IH (i + 1)).
  destruct (scanTasks now (i + 1) true ts) as [[[??]?]|b]; [done|]. congruence.
Qed.

Section Alone.
Context (mapf : string → string → list KeyValue) (reducef : string → list string → string).
Context (sort : list KeyValue → list KeyValue).
Context (json_encode : KeyValue → list byte) (json_decode : list byte → option (KeyValue * list byte)).
Context (inputs : list (string * string)) (nReduce : nat).
Context (inputs_ok : ∀ f c c', (f, c) ∈ inputs → (f, c') ∈ inputs → c = c').
Context (nReduce_pos : (0 < nReduce)%nat).

Abbreviation job_step := (job_step mapf reducef sort json_encode json_decode inputs nReduce).
Abbreviation job_inv := (job_inv mapf reducef sort json_encode json_decode inputs nReduce).

(** Steps of worker [w] and of the coordinator: the other workers do nothing. *)
Definition alone (w : nat) (j j' : Job) : Prop :=
  job_step j j' ∧ ∀ w', w' ≠ w → workers j' w' = workers j w'.

Lemma alone_inv w j j' : rtc (alone w) j j' → job_inv j → job_inv j'.
Proof.
  induction 1 as [|j j1 j' [Hs _] _ IH]; [done|]. intros Hj. apply IH.
  by eapply (job_inv_step mapf reducef sort json_encode json_decode inputs nReduce inputs_ok nReduce_pos).
Qed.

Lemma set_worker_eq w p j : set_worker w p j w = p.
Proof. unfold set_worker. by rewrite decide_True. Qed.

Lemma set_worker_ne w p j w' : w' ≠ w → set_worker w p j w' = workers j w'.
Proof. intros. unfold set_worker. by rewrite decide_False by done. Qed.

(** A map task runs to its report. *)
Lemma run_map w m f k : ∀ r j,
  job_inv j → workers j w = WMap m f r → (r + k)%nat = nReduce →
  ∃ j', rtc (alone w) j j' ∧ coord j' = coord j ∧
    workers j' w = WReport (mkFinishedTaskArgs MapTask (Z.of_nat m)).
Proof.
  induction k as [|k IH]; intros r j Hj Hw Hr.
  - eexists. split; [apply rtc_once; split; [eapply (j_map_done _ _ _ _ _ _ _ j w m f)|]|].
    + rewrite Hw. by replace nReduce with r by lia.
    + intros w' Hw'. by apply set_worker_ne.
    + split; [done|]. apply set_worker_eq.
  - pose proof (jv_worker _ _ _ _ _ _ _ _ Hj w) as Hin. rewrite Hw in Hin. destruct Hin as [Hin _].
    destruct (inputs !! m) as [[f' c]|] eqn:Him; [|done]. simplify_eq/=.
    assert (content_of inputs f = Some c) as Hcont.
    { unfold content_of. apply elem_of_list_to_map_1'; [|by eapply list_elem_of_lookup_2].
      intros c' Hc'. eapply inputs_ok; [by eapply list_elem_of_lookup_2|done]. }
    set (bs := encodeBucket json_encode (bucket nReduce r (mapf f c))).
    set (j1 := mkJob (coord j) (set_worker w (WMap m f (S r)) j) (<[(m, r) := bs]> (inter j)) (outs j)).
    assert (alone w j j1) as H1.
    { split; [|intros w' Hw'; by apply set_worker_ne].
      eapply (j_map_file _ _ _ _ _ _ _ j w m f r c); [done|done| |].
      - unfold doMap. by rewrite fillBuckets_spec.
      - rewrite !list_lookup_fmap, lookup_seq_lt by lia. done. }
    destruct (IH (S r) j1) as (j' & Hrun & Hc & Hw'); [|apply set_worker_eq|lia|].
    + by eapply alone_inv; [apply rtc_once|].
    + exists j'. split; [by eapply rtc_l|done].
Qed.

(** A worker that was given a task completes it. *)
Lemma run_task w j (n : nat) ty now ts t :
  job_inv j → phase (coord j) = ty → ty = MapTask ∨ ty = ReduceTask →
  tasks_of ty (coord j) = <[n := start now t]> ts → ts !! n = Some t → ti_State t = Idle →
  match workers j w with
  | WMap m f r => ty = MapTask ∧ m = n ∧ r = 0%nat
  | WReduce r => ty = ReduceTask ∧ r = n
  | _ => False
  end →
  ∃ j', rtc (alone w) j j' ∧ workers j' w = WAsk ∧
    S (work_left (coord j')) = (work_left (coord j))%nat.
Proof.
  intros Hj Hph Hty Hts Hn Ht Hw.
  assert (∃ j1, rtc (alone w) j j1 ∧ coord j1 = coord j ∧
            workers j1 w = WReport (mkFinishedTaskArgs ty (Z.of_nat n))) as (j1 & Hrun & Hc1 & Hw1).
  { destruct (workers j w) as [|m f r|r| |] eqn:Hwj; try done.
    - destruct Hw as (-> & -> & ->). by eapply (run_map w n f nReduce 0 j Hj Hwj).
    - destruct Hw as [-> ->]. eexists. split; [apply rtc_once; split; [by eapply (j_reduce _ _ _ _ _ _ _ j w n)|]|].
      + intros w' Hw'. by apply set_worker_ne.
      + split; [done|]. apply set_worker_eq. }
  assert (tasks_of ty (coord j) !! n = Some (start now t)) as Hlook.
  { rewrite Hts. apply list_lookup_insert_eq. by eapply lookup_lt_Some. }
  set (done_ts := <[n := complete (start now t)]> (tasks_of ty (coord j))).
  assert (S (open_tasks done_ts) = open_tasks (tasks_of ty (coord j))) as Hopen.
  { pose proof (open_tasks_insert _ _ _ (complete (start now t)) Hlook) as H.
    fold done_ts in H. unfold open_task in H. simpl in H. lia. }
  assert (FinishedTask (mkFinishedTaskArgs ty (Z.of_nat n)) (coord j1) =
            Some (match ty with MapTask => set_mapTasks done_ts (coord j)
                  | _ => set_reduceTasks done_ts (coord j) end)) as Hfin.
  { rewrite Hc1. unfold FinishedTask. cbn [ft_Type ft_TaskId]. rewrite Hph.
    destruct Hty as [-> | ->]; cbn [tasks_of] in Hlook; simpl.
    all: rewrite go_nth_nat, Hlook; simpl; rewrite go_set_ok by (apply lookup_lt_Some in Hlook; lia); by rewrite Nat2Z.id. }
  eexists. split; [eapply rtc_r; [exact Hrun|]; split; [by eapply (j_report _ _ _ _ _ _ _ j1 w)|]|].
  - intros w' Hw'. by apply set_worker_ne.
  - split; [apply set_worker_eq|]. simpl.
    destruct Hty as [-> | ->]; unfold work_left, phases_left; simpl in *; lia.
Qed.

(** The coordinator gives up all tasks of its phase. *)
Lemma expire_phase w j :
  job_inv j → phase (coord j) ≠ ExitTask →
  ∃ j1, alone w j j1 ∧ workers j1 = workers j ∧ phase (coord j1) = phase (coord j) ∧
    work_left (coord j1) = work_left (coord j) ∧ unattended (tasks_of (phase (coord j1)) (coord j1)).
Proof.
  intros Hj Hne. destruct (jv_phase _ _ _ _ _ _ _ _ Hj) as (_ & _ & Hnw).
  destruct (expire_all (tasks_of (phase (coord j)) (coord j))) as [now Hnow].
  specialize (Hnow now ltac:(lia)).
  assert (∃ c', checkTimeouts now (coord j) = Some c' ∧ phase c' = phase (coord j) ∧
            work_left c' = work_left (coord j) ∧ unattended (tasks_of (phase c') c'))
    as (c' & Hct & Hph & Hwl & Hun).
  { unfold checkTimeouts, work_left, phases_left. rewrite decide_False by done.
    destruct (phase (coord j)) eqn:Hp; try done; simpl in Hnow |- *;
      (eexists; split; [done|]; simpl; rewrite ?Hp, ?expire_open; done). }
  exists (mkJob c' (workers j) (inter j) (outs j)). split; [|done].
  split; [by apply (j_timeout _ _ _ _ _ _ _ j now)|done].
Qed.

Lemma GetReduceTask_cases now c :
  phase c = ReduceTask →
  (∃ (n : nat) t r, reduceTasks c !! n = Some t ∧ ti_State t = Idle ∧ dispatch r = WReduce n ∧
     GetReduceTask now c = (set_reduceTasks (<[n := start now t]> (reduceTasks c)) c, r)) ∨
  GetReduceTask now c = (set_phase ExitTask c, exitReply) ∨
  (GetReduceTask now c = (c, waitReply) ∧ ¬ unattended (reduceTasks c)).
Proof.
  intros Hph. unfold GetReduceTask. rewrite decide_True by done.
  destruct (scanTasks now 0 true (reduceTasks c)) as [[[i t] ts]|[]] eqn:Hs; [left|auto|right; right].
  - apply scanTasks_found in Hs as (n & -> & Hn & Ht & ->). exists n, t. eexists.
    split; [done|]. split; [done|]. split; [|done]. unfold dispatch. cbn. f_equal. lia.
  - split; [done|]. intros Hu. by apply (scanTasks_unattended now _ Hu) in Hs.
Qed.

Lemma GetTask_cases now c :
  phase c = MapTask → unattended (mapTasks c) →
  (∃ (n : nat) t f r, mapTasks c !! n = Some t ∧ ti_State t = Idle ∧ dispatch r = WMap n f 0 ∧
     GetTask now c = (set_mapTasks (<[n := start now t]> (mapTasks c)) c, r)) ∨
  GetTask now c = GetReduceTask now (set_phase ReduceTask c).
Proof.
  intros Hph Hu. unfold GetTask. rewrite decide_True by done.
  destruct (scanTasks now 0 true (mapTasks c)) as [[[i t] ts]|[]] eqn:Hs; [left|by right|].
  - apply scanTasks_found in Hs as (n & -> & Hn & Ht & ->). exists n, t. do 2 eexists.
    split; [done|]. split; [done|]. split; [|done]. unfold dispatch. cbn. f_equal. lia.
  - by apply (scanTasks_unattended now _ Hu) in Hs.
Qed.

(** A request, at time 0 for instance, and the task it brings. *)
Definition asked (w : nat) (j : Job) : Job :=
  mkJob (GetTask 0 (coord j)).1 (set_worker w (dispatch (GetTask 0 (coord j)).2) j) (inter j) (outs j).

Lemma alone_ask w j : workers j w = WAsk → alone w j (asked w j).
Proof. split; [by apply j_ask|]. intros w' Hw'. by apply set_worker_ne. Qed.

(** The job gets on: there is less to do, and the worker can ask again unless all
    is done. *)
Definition gets_on (w : nat) (j : Job) : Prop :=
  ∃ j', rtc (alone w) j j' ∧ (work_left (coord j') < work_left (coord j))%nat ∧
    (workers j' w = WAsk ∨ Done (coord j') = true).

Section Asked.
Context (w : nat) (j : Job) (Hj : job_inv j) (Hw : workers j w = WAsk).

Lemma asked_inv : job_inv (asked w j).
Proof. eapply alone_inv; [by apply rtc_once, alone_ask|done]. Qed.

(** It brought the task [n]. *)
Lemma asked_task (n : nat) ty t ts :
  phase (coord (asked w j)) = ty → ty = MapTask ∨ ty = ReduceTask →
  ts !! n = Some t → ti_State t = Idle → tasks_of ty (coord (asked w j)) = <[n := start 0 t]> ts →
  match workers (asked w j) w with
  | WMap m f r => ty = MapTask ∧ m = n ∧ r = 0%nat
  | WReduce r => ty = ReduceTask ∧ r = n
  | _ => False
  end → (work_left (coord (asked w j)) <= work_left (coord j))%nat → gets_on w j.
Proof.
  intros Hph Hty Hn Ht Hts Hwt Hle.
  destruct (run_task w (asked w j) n ty 0 ts t asked_inv Hph Hty Hts Hn Ht Hwt) as (j' & Hrun & Hw' & Hwl).
  exists j'. split; [by eapply rtc_l, Hrun; apply alone_ask|]. split; [lia|by left].
Qed.

Lemma start_work (ts : list TaskInfo) (n : nat) t :
  ts !! n = Some t → ti_State t = Idle → open_tasks (<[n := start 0 t]> ts) = open_tasks ts.
Proof.
  intros Hn Ht. pose proof (open_tasks_insert _ _ _ (start 0 t) Hn) as H.
  unfold open_task in H. rewrite Ht in H. simpl in H. lia.
Qed.

(** It was answered by the part for reduce tasks. *)
Lemma asked_reduce c :
  GetTask 0 (coord j) = GetReduceTask 0 c → phase c = ReduceTask →
  (work_left c <= work_left (coord j))%nat →
  (work_left c < work_left (coord j))%nat ∨ unattended (reduceTasks c) → gets_on w j.
Proof.
  intros Hg Hph Hle Hlt. pose proof (alone_ask w j Hw) as Hask.
  destruct (GetReduceTask_cases 0 c Hph) as [(n & t & r & Hn & Ht & Hr & Hget)|[Hget|[Hget Hnu]]];
    rewrite Hget in Hg.
  - apply (asked_task n ReduceTask t (reduceTasks c)); simpl; rewrite ?Hg; auto.
    + rewrite set_worker_eq. simpl. by rewrite Hr.
    + unfold work_left, phases_left in *. simpl. by rewrite start_work.
  - exists (asked w j). split; [by apply rtc_once|]. simpl. rewrite Hg. simpl. split; [|by right].
    unfold work_left, phases_left in *. rewrite Hph in Hle. simpl. lia.
  - exists (asked w j). split; [by apply rtc_once|]. simpl. rewrite Hg. simpl.
    destruct Hlt as [Hlt|]; [|done]. split; [done|left]. by rewrite set_worker_eq.
Qed.

Lemma run_asked :
  phase (coord j) ≠ ExitTask → unattended (tasks_of (phase (coord j)) (coord j)) → gets_on w j.
Proof.
  intros Hne Hu. destruct (jv_phase _ _ _ _ _ _ _ _ Hj) as (_ & _ & Hnw).
  destruct (phase (coord j)) eqn:Hph; try done; simpl in Hu.
  - destruct (GetTask_cases 0 (coord j) Hph Hu) as [(n & t & f & r & Hn & Ht & Hr & Hget)|Hget].
    + apply (asked_task n MapTask t (mapTasks (coord j))); simpl; rewrite ?Hget; auto.
      * rewrite set_worker_eq. simpl. by rewrite Hr.
      * unfold work_left, phases_left. simpl. by rewrite start_work.
    + apply (asked_reduce _ Hget); [done| |left]; unfold work_left, phases_left; rewrite Hph; simpl; lia.
  - apply (asked_reduce (coord j)); [|done|done|by right].
    unfold GetTask. by rewrite decide_False by by rewrite Hph.
Qed.

End Asked.

Lemma run_round w j :
  job_inv j → workers j w = WAsk → phase (coord j) ≠ ExitTask → gets_on w j.
Proof.
  intros Hj Hw Hne. destruct (expire_phase w j Hj Hne) as (j1 & H1 & Hws & Hph & Hwl & Hu).
  assert (job_inv j1) as Hj1 by (eapply alone_inv; [by apply rtc_once|done]).
  destruct (run_asked w j1 Hj1) as (j' & Hrun & Hlt & Hw'); [by rewrite Hws|by rewrite Hph|done|].
  exists j'. split; [by eapply rtc_l|]. by rewrite <-Hwl.
Qed.

(** However far the job has come, a worker that asks for tasks can finish it alone. *)
Lemma worker_finishes w j :
  job_inv j → workers j w = WAsk → ∃ j', rtc (alone w) j j' ∧ Done (coord j') = true.
Proof.
  remember (work_left (coord j)) as n eqn:Hn. revert j Hn.
  induction n as [n IH] using lt_wf_ind. intros j -> Hj Hw.
  destruct (decide (phase (coord j) = ExitTask)) as [He|Hne].
  { exists j. split; [done|]. unfold Done. by rewrite He. }
  destruct (run_round w j Hj Hw Hne) as (j1 & Hrun & Hlt & [Hw1|Hd]); [|by exists j1].
  destruct (IH _ Hlt j1 eq_refl) as (j' & Hrun' & Hd); [by eapply alone_inv|done|].
  exists j'. split; [by etrans|done].
Qed.

End Alone.

(** ** main/mrcoordinator.go *)

(** [args] is os.Args; [None] is the exit with the usage. *)
Definition mrcoordinator_main (args : list string) : option Coordinator :=
  if len args <? 2 then None else Some (MakeCoordinator (drop 1 args) 10).

(** Between two calls of Done, in the last sleep, at the end of main. *)
Inductive MainPC := MPoll | MFound | MReturned.

(** One call of Done by the loop. *)
Definition main_poll (c : Coordinator) : MainPC := if Done c then MFound else MPoll.

(** The program with its job. *)
Record MainState := mkMain { m_pc : MainPC; m_job : Job }.

Section Main.
Context (mapf : string → string → list KeyValue) (reducef : string → list string → string).
Context (sort : list KeyValue → list KeyValue).
Context (json_encode : KeyValue → list byte) (json_decode : list byte → option (KeyValue * list byte)).

(** The content of the files, and the command line. *)
Context (content : string → string) (args : list string).

Definition main_inputs : list (string * string) := (λ f, (f, content f)) <$> drop 1 args.

Abbreviation job_step := (job_step mapf reducef sort json_encode json_decode main_inputs 10).

Definition main_init (st : MainState) : Prop :=
  m_pc st = MPoll ∧ mrcoordinator_main args = Some (coord (m_job st)) ∧
  (∀ w, workers (m_job st) w = WAsk) ∧ inter (m_job st) = ∅ ∧ outs (m_job st) = ∅.

(** Workers are processes of their own, which may go on after main has returned;
    a call that fails for that reason ends them, as the reply ExitTask does. *)
Inductive main_step (st : MainState) : MainState → Prop :=
| ms_job j' : job_step (m_job st) j' → main_step st (mkMain (m_pc st) j')
| ms_poll : m_pc st = MPoll → main_step st (mkMain (main_poll (coord (m_job st))) (m_job st))
| ms_return : m_pc st = MFound → main_step st (mkMain MReturned (m_job st)).

Lemma main_inputs_ok f c c' : (f, c) ∈ main_inputs → (f, c') ∈ main_inputs → c = c'.
Proof. unfold main_inputs. rewrite !list_elem_of_fmap. by intros (? & [= -> ->] & _) (? & [= -> ->] & _). Qed.

Lemma main_init_job st :
  main_init st → job_reachable mapf reducef sort json_encode json_decode main_inputs 10 (m_job st).
Proof.
  intros (_ & Hm & Hw & Hi & Ho). apply reach_init. split; [|done].
  unfold mrcoordinator_main in Hm. destruct (_ <? _); [done|]. apply (inj Some) in Hm. rewrite <-Hm.
  f_equal. unfold main_inputs. rewrite <-list_fmap_compose. symmetry. apply list_fmap_id.
Qed.

(** Once the job is done it stays done. *)
Lemma job_step_Done j j' : job_step j j' → Done (coord j) = true → Done (coord j') = true.
Proof.
  unfold Done. rewrite !bool_decide_eq_true. intros Hs Hd.
  destruct Hs as [w now _| | | |w args' c' _ Hf| |now c' Hc]; simpl; try done.
  - unfold GetTask, GetReduceTask. by rewrite !decide_False by by rewrite Hd.
  - unfold FinishedTask in Hf. rewrite Hd, !decide_False in Hf by naive_solver. by simplify_eq.
  - unfold checkTimeouts in Hc. by rewrite decide_True in Hc.
Qed.

Lemma main_reachable_job st :
  reachable main_init main_step st →
  job_reachable mapf reducef sort json_encode json_decode main_inputs 10 (m_job st) ∧
  (m_pc st ≠ MPoll → Done (coord (m_job st)) = true).
Proof.
  induction 1 as [st Hi|st st' _ [IHj IHd] Hs].
  - split; [by apply main_init_job|]. by destruct Hi as [-> _].
  - destruct Hs as [j' Hs|Hp|Hp]; simpl.
    + split; [by eapply reach_step|]. intros Hne. eapply job_step_Done; eauto.
    + split; [done|]. unfold main_poll. by destruct (Done _).
    + split; [done|]. intros _. apply IHd. by rewrite Hp.
Qed.

Lemma alone_main w pc j j' :
  rtc (alone mapf reducef sort json_encode json_decode main_inputs 10 w) j j' →
  rtc main_step (mkMain pc j) (mkMain pc j') ∧ ∀ w', w' ≠ w → workers j' w' = workers j w'.
Proof.
  induction 1 as [|j j1 j' [Hs Ho] _ [IH IHo]]; [done|]. split.
  - eapply rtc_l; [|done]. by apply (ms_job (mkMain pc j)).
  - intros w' Hw'. by rewrite IHo, Ho.
Qed.

Lemma main_ends st :
  Done (coord (m_job st)) = true → ∃ st', rtc main_step st st' ∧ m_pc st' = MReturned ∧ m_job st' = m_job st.
Proof.
  destruct st as [pc j]. simpl. intros Hd. exists (mkMain MReturned j). split; [|done].
  assert (main_step (mkMain MFound j) (mkMain MReturned j)) as H2 by by apply (ms_return (mkMain MFound j)).
  destruct pc; [|by apply rtc_once|done]. eapply rtc_l, rtc_once, H2.
  pose proof (ms_poll (mkMain MPoll j) eq_refl) as H. simpl in H. unfold main_poll in H. by rewrite Hd in H.
Qed.

Context (sort_perm : ∀ l, sort l ≡ₚ l) (sort_sorted : ∀ l, StronglySorted by_key_le (sort l)).
Context (json_nonempty : ∀ kv, json_encode kv ≠ []).
Context (json_roundtrip : ∀ kv bs,
  text_pair kv → json_decode (json_encode kv ++ bs) = Some (kv, bs)).
Context (json_eof : json_decode [] = None).
Context (mapf_text : maps_to_text mapf main_inputs).
Context (reducef_perm : ∀ k vs vs', vs ≡ₚ vs' → reducef k vs = reducef k vs').

(** C21. The program of the coordinator does the job, for an application whose Map
    makes pairs of valid UTF-8 of the input files and whose Reduce does not depend
    on the order of the values of a key: when main returns - after any interleaving
    of workers that stall, crash half way through their files or do work twice - the
    files mr-out-0, ..., mr-out-9 exist and together hold
    exactly the lines that mrsequential prints for the files on the command line;
    and at every moment before that, however many tasks are unfinished and
    whatever the other workers left behind, a single worker that asks for tasks can
    bring main to its end without any of them. *)
Theorem mrcoordinator_does_the_job st w :
  reachable main_init main_step st →
  (m_pc st = MReturned →
     (∀ r, (r < 10)%nat → is_Some (outs (m_job st) !! r)) ∧
     (seq 0 10 ≫= λ r, default [] (outs (m_job st) !! r)) ≡ₚ
       sequential mapf reducef sort ((λ f, (f, content f)) <$> drop 1 args)) ∧
  (workers (m_job st) w = WAsk →
     ∃ st', rtc main_step st st' ∧ m_pc st' = MReturned ∧
       ∀ w', w' ≠ w → workers (m_job st') w' = workers (m_job st) w').
Proof.
  intros [Hj Hd]%main_reachable_job. split.
  - intros Hr. eapply job_output_is_sequential; eauto using main_inputs_ok; [lia|].
    apply Hd. by rewrite Hr.
  - intros Hw. destruct st as [pc j]. simpl in *.
    destruct (worker_finishes mapf reducef sort json_encode json_decode main_inputs 10 main_inputs_ok
      ltac:(lia) w j) as (j' & Hrun & Hdone); [|done|].
    { by eapply job_reachable_inv; eauto using main_inputs_ok; lia. }
    destruct (alone_main w pc j j' Hrun) as [Hmain Ho].
    destruct (main_ends (mkMain pc j') Hdone) as (st' & Hend & Hret & Hjob).
    exists st'. split; [by etrans|]. split; [done|]. by rewrite Hjob.
Qed.

End Main.

(** ** Instances *)

Example usage_of_mrcoordinator : mrcoordinator_main ["mrcoordinator"] = None.
Proof. reflexivity. Qed.

(** A plug-in file with both functions, and one whose Map is no function. *)
Example mrworker_values :
  let opens := λ f : string, if decide (f = "wc.so" ∨ f = "bad.so") then Some f else None in
  let wc := λ c : string, [c] in
  let symbols := λ (p name : string),
    if decide (name = "Reduce") then Some (SReduce wc_Reduce)
    else Some (if decide (p = "wc.so") then SMap (wc_Map wc) else SOther) in
  mrworker_main opens symbols ["mrworker"; "wc.so"] = StartsWorker (wc_Map wc) wc_Reduce ∧
  mrworker_main opens symbols ["mrworker"; "bad.so"] = WorkerFails LoadPanic ∧
  mrworker_main opens symbols ["mrworker"; "no.so"] = WorkerFails (LoadFatal "cannot load plugin no.so") ∧
  mrworker_main opens symbols ["mrworker"] = UsageExit "Usage: mrworker xxx.so".
Proof. done. Qed.

(** Word count of one file: the run that the theorem gives, from the first state. *)
Definition wc_args : list string := ["mrcoordinator"; "f1"].

Definition wc_state0 : MainState :=
  mkMain MPoll (mkJob (MakeCoordinator ["f1"] 10) (λ _, WAsk) ∅ ∅).

Lemma wc_args_text : maps_to_text ex_mapf (main_inputs (λ _, "w") wc_args).
Proof. intros f c [= -> ->]%list_elem_of_singleton. by repeat constructor. Qed.

Lemma mrcoordinator_does_the_job_witness :
  ∃ st, rtc (main_step ex_mapf wc_Reduce (merge_sort by_key_le) val_bytes val_decode (λ _, "w") wc_args)
          wc_state0 st ∧ m_pc st = MReturned ∧ workers (m_job st) 1%nat = WAsk ∧
    (seq 0 10 ≫= λ r, default [] (outs (m_job st) !! r)) ≡ₚ [("w", "1")].
Proof.
  assert (∀ k vs vs', vs ≡ₚ vs' → wc_Reduce k vs = wc_Reduce k vs') as Hperm.
  { intros k vs vs' H. unfold wc_Reduce. by rewrite H. }
  pose proof (λ st, mrcoordinator_does_the_job ex_mapf wc_Reduce (merge_sort by_key_le) val_bytes val_decode
    (λ _, "w") wc_args ltac:(apply merge_sort_Permutation) ltac:(apply merge_sorted) ex_json_nonempty
    ex_json_roundtrip eq_refl ltac:(apply wc_args_text) Hperm st 0%nat) as Hmain.
  assert (reachable (main_init wc_args)
    (main_step ex_mapf wc_Reduce (merge_sort by_key_le) val_bytes val_decode (λ _, "w") wc_args) wc_state0)
    as Hreach by by apply reach_init.
  destruct (proj2 (Hmain wc_state0 Hreach) eq_refl) as (st & Hrun & Hret & Ho).
  exists st. split; [done|]. split; [done|]. split; [by apply Ho|].
  apply (Hmain st); [by eapply reachable_rtc|done].
Defined.
