(* ===== verification/LabRpc.v ===== *)
(** * The simulated network

    Models src/6.5840/src/labrpc/labrpc.go: the tables of a [Network], the
    dispatch of a request to a method of a service, and [processReq], which
    carries one request.  Names of ends and servers are strings; a server object
    is known by a number, so that a server that replaces another under the same
    name is distinguished, as the pointer comparison of the source does.  The
    random choices and the moments at which the network is looked at are
    arguments. *)

From S2P Require Import Prelude Gob.

Record reqMsg := mkReqMsg { rq_endname : string; rq_svcMeth : string; rq_args : list byte }.

Record replyMsg := mkReplyMsg { rp_ok : bool; rp_reply : list byte }.

Definition noReply : replyMsg := mkReplyMsg false [].

(** A [nil] entry of [servers] or [connections] is [None]. *)
Record Network := mkNetwork {
  reliable : bool;
  longDelays : bool;
  longReordering : bool;
  ends : gset string;
  enabled : gmap string bool;
  servers : gmap string (option nat);
  connections : gmap string (option string);
  rn_count : Z;
  rn_bytes : Z
}.

Definition MakeNetwork : Network := mkNetwork true false false ∅ ∅ ∅ ∅ 0 0.

(** ** Configuration *)

Definition Reliable (yes : bool) (rn : Network) : Network :=
  mkNetwork yes (longDelays rn) (longReordering rn) (ends rn) (enabled rn) (servers rn)
    (connections rn) (rn_count rn) (rn_bytes rn).

Definition IsReliable (rn : Network) : bool := reliable rn.

Definition LongReordering (yes : bool) (rn : Network) : Network :=
  mkNetwork (reliable rn) (longDelays rn) yes (ends rn) (enabled rn) (servers rn)
    (connections rn) (rn_count rn) (rn_bytes rn).

Definition LongDelays (yes : bool) (rn : Network) : Network :=
  mkNetwork (reliable rn) yes (longReordering rn) (ends rn) (enabled rn) (servers rn)
    (connections rn) (rn_count rn) (rn_bytes rn).

Definition IsLongDelays (rn : Network) : bool := longDelays rn.

(** [None] is [log.Fatalf]. *)
Definition MakeEnd (endname : string) (rn : Network) : option Network :=
  if decide (endname ∈ ends rn) then None
  else Some (mkNetwork (reliable rn) (longDelays rn) (longReordering rn) ({[endname]} ∪ ends rn)
               (<[endname := false]> (enabled rn)) (servers rn)
               (<[endname := None]> (connections rn)) (rn_count rn) (rn_bytes rn)).

Definition DeleteEnd (endname : string) (rn : Network) : option Network :=
  if decide (endname ∈ ends rn) then
    Some (mkNetwork (reliable rn) (longDelays rn) (longReordering rn) (ends rn ∖ {[endname]})
            (delete endname (enabled rn)) (servers rn) (delete endname (connections rn))
            (rn_count rn) (rn_bytes rn))
  else None.

Definition AddServer (servername : string) (rs : nat) (rn : Network) : Network :=
  mkNetwork (reliable rn) (longDelays rn) (longReordering rn) (ends rn) (enabled rn)
    (<[servername := Some rs]> (servers rn)) (connections rn) (rn_count rn) (rn_bytes rn).

Definition DeleteServer (servername : string) (rn : Network) : Network :=
  mkNetwork (reliable rn) (longDelays rn) (longReordering rn) (ends rn) (enabled rn)
    (<[servername := None]> (servers rn)) (connections rn) (rn_count rn) (rn_bytes rn).

Definition Connect (endname servername : string) (rn : Network) : Network :=
  mkNetwork (reliable rn) (longDelays rn) (longReordering rn) (ends rn) (enabled rn) (servers rn)
    (<[endname := Some servername]> (connections rn)) (rn_count rn) (rn_bytes rn).

Definition Enable (endname : string) (en : bool) (rn : Network) : Network :=
  mkNetwork (reliable rn) (longDelays rn) (longReordering rn) (ends rn)
    (<[endname := en]> (enabled rn)) (servers rn) (connections rn) (rn_count rn) (rn_bytes rn).

(** The reception of a request by the network's goroutine. *)
Definition countRequest (req : reqMsg) (rn : Network) : Network :=
  mkNetwork (reliable rn) (longDelays rn) (longReordering rn) (ends rn) (enabled rn) (servers rn)
    (connections rn) (i32 (rn_count rn + 1)) (rn_bytes rn + len (rq_args req)).

Definition GetTotalCount (rn : Network) : Z := rn_count rn.
Definition GetTotalBytes (rn : Network) : Z := rn_bytes rn.

Definition readEndnameInfo (endname : string) (rn : Network) :
    bool * option string * option nat * bool * bool :=
  let servername := default None (connections rn !! endname) in
  let server := name ← servername; default None (servers rn !! name) in
  (default false (enabled rn !! endname), servername, server, reliable rn, longReordering rn).

Definition isServerDead (endname servername : string) (server : nat) (rn : Network) : bool :=
  negb (default false (enabled rn !! endname)) ||
  bool_decide (default None (servers rn !! servername) ≠ Some server).

(** ** Dispatch *)

Section Dispatch.
(** The receiver's state; a method decodes its argument, runs and encodes its
    reply. *)
Context {St : Type}.

Record Service := mkService {
  svc_name : string;
  svc_methods : gmap string (list byte → St → St * list byte)
}.

Record Server := mkServer { services : gmap string Service; srv_count : Z }.

Definition MakeServer : Server := mkServer ∅ 0.

Definition AddService (svc : Service) (rs : Server) : Server :=
  mkServer (<[svc_name svc := svc]> (services rs)) (srv_count rs).

Definition GetCount (rs : Server) : Z := srv_count rs.

(** [strings.LastIndex(s, ".")] *)
Fixpoint lastDot (i : Z) (best : Z) (s : string) : Z :=
  match s with
  | EmptyString => best
  | String c s => lastDot (i + 1) (if decide (c = Ascii.ascii_of_N 46) then i else best) s
  end.

(** [s[:n]] and [s[n:]] of a string; [None] is a panic. *)
Definition str_upto (s : string) (n : Z) : option string :=
  if (0 <=? n) && (n <=? Z.of_nat (String.length s))
  then Some (String.substring 0 (Z.to_nat n) s) else None.

Definition str_from (s : string) (n : Z) : option string :=
  if (0 <=? n) && (n <=? Z.of_nat (String.length s))
  then Some (String.substring (Z.to_nat n) (String.length s - Z.to_nat n) s) else None.

(** [None] is [log.Fatalf]. *)
Definition Service_dispatch (methname : string) (req : reqMsg) (svc : Service) (st : St) :
    option (St * replyMsg) :=
  method ← svc_methods svc !! methname;
  let '(st', reply) := method (rq_args req) st in
  Some (st', mkReplyMsg true reply).

Definition Server_dispatch (req : reqMsg) (rs : Server) (st : St) :
    option (Server * St * replyMsg) :=
  let rs := mkServer (services rs) (srv_count rs + 1) in
  let dot := lastDot 0 (-1) (rq_svcMeth req) in
  serviceName ← str_upto (rq_svcMeth req) dot;
  methodName ← str_from (rq_svcMeth req) (dot + 1);
  service ← services rs !! serviceName;
  '(st', r) ← Service_dispatch methodName req service st;
  Some (rs, st', r).

End Dispatch.
Arguments Service : clear implicits.
Arguments Server : clear implicits.

(** ** processReq *)

(** What happens while the handler runs: it returns its reply, or 100ms pass
    and the network, in its state at that moment, is asked whether the server is
    dead. *)
Inductive WaitEvent := HandlerReturns (r : replyMsg) | Poll (rn : Network).

(** The loop [for replyOK == false && serverDead == false]: the reply, or none
    when the server died; [None] while it is still waiting. *)
Fixpoint waitLoop (endname servername : string) (server : nat) (evs : list WaitEvent) :
    option (option replyMsg) :=
  match evs with
  | [] => None
  | HandlerReturns r :: _ => Some (Some r)
  | Poll rn :: evs =>
      if isServerDead endname servername server rn then Some None
      else waitLoop endname servername server evs
  end.

(** The random choices: [rand.Int() % 1000 < 100] for the request and for the
    reply, and the [rand.Intn(900)] that decides whether a reply is delayed. *)
Record Chance := mkChance { ch_request : Z; ch_reply : Z; ch_delay : Z }.

(** The fate of a request: whether the handler was started, on which server;
    what arrives on [replyCh] ([None] while waiting for the handler); whether a
    timer delivers it later; and what is added to [rn.bytes]. *)
Record Fate := mkFate {
  f_handler : option nat;
  f_reply : option replyMsg;
  f_delayed : bool;
  f_bytes : Z
}.

(** [rn0] is the network when the request arrives, [evs] what happens while the
    handler runs, [rn1] the network when it has returned. *)
Definition processReq (req : reqMsg) (rn0 : Network) (ch : Chance) (evs : list WaitEvent)
    (rn1 : Network) : Fate :=
  match readEndnameInfo (rq_endname req) rn0 with
  | (true, Some servername, Some server, reliable, longreordering) =>
      if negb reliable && (Z.rem (ch_request ch) 1000 <? 100) then
        mkFate None (Some noReply) false 0
      else
        match waitLoop (rq_endname req) servername server evs with
        | None => mkFate (Some server) None false 0
        | Some reply =>
            let serverDead := isServerDead (rq_endname req) servername server rn1 in
            match reply with
            | None => mkFate (Some server) (Some noReply) false 0
            | Some r =>
                if serverDead then mkFate (Some server) (Some noReply) false 0
                else if negb reliable && (Z.rem (ch_reply ch) 1000 <? 100)
                then mkFate (Some server) (Some noReply) false 0
                else mkFate (Some server) (Some r) (longreordering && (ch_delay ch <? 600))
                       (len (rp_reply r))
            end
        end
  | _ => mkFate None (Some noReply) true 0
  end.

(** ** What a caller can rely on *)

(** The end is enabled and its server is the object [server]. *)
Definition alive (rn : Network) (endname : string) (server : nat) : Prop :=
  enabled rn !! endname = Some true ∧
  ∃ name, connections rn !! endname = Some (Some name) ∧ servers rn !! name = Some (Some server).

Lemma waitLoop_reply endname name server evs r :
  waitLoop endname name server evs = Some (Some r) → HandlerReturns r ∈ evs.
Proof.
  induction evs as [|[r'|rn] evs IH]; simpl; [done|intros [= ->]; set_solver|].
  destruct (isServerDead _ _ _ _); [done|]. intros ?%IH. set_solver.
Qed.

Lemma isServerDead_alive rn endname name server :
  isServerDead endname name server rn = false ↔
  enabled rn !! endname = Some true ∧ servers rn !! name = Some (Some server).
Proof.
  unfold isServerDead. rewrite orb_false_iff, negb_false_iff, bool_decide_eq_false.
  destruct (enabled rn !! endname) as [[]|], (servers rn !! name) as [[s|]|]; simpl;
    (destruct (decide (s = server)) as [->|] || idtac); naive_solver.
Qed.

(** A caller that gets a reply gets the reply of the one handler the
    network started for its request, on the server the end was connected to when
    the request arrived, and that server was still the one connected and enabled
    when the handler returned; a request that is not answered ran at most one
    handler.  On a reliable network, a request to a server that stays alive is
    always answered with what the handler returned, and its bytes are counted. *)
Theorem processReq_at_most_once req rn0 ch evs rn1 :
  let fate := processReq req rn0 ch evs rn1 in
  (∀ r, f_reply fate = Some r → rp_ok r = true →
     ∃ server, f_handler fate = Some server ∧ HandlerReturns r ∈ evs ∧
       alive rn0 (rq_endname req) server ∧ enabled rn1 !! rq_endname req = Some true) ∧
  (∀ server r,
     reliable rn0 = true → alive rn0 (rq_endname req) server →
     connections rn1 = connections rn0 → alive rn1 (rq_endname req) server →
     waitLoop (rq_endname req) (default "" (default None (connections rn0 !! rq_endname req)))
       server evs = Some (Some r) →
     f_handler fate = Some server ∧ f_reply fate = Some r ∧ f_bytes fate = len (rp_reply r)).
Proof.
  cbv zeta. unfold processReq, readEndnameInfo, alive. split.
  - intros r Hf Hok.
    destruct (enabled rn0 !! rq_endname req) as [[]|] eqn:He; simpl in Hf; try by simplify_eq.
    destruct (connections rn0 !! rq_endname req) as [[name|]|] eqn:Hc; simpl in Hf; try by simplify_eq.
    destruct (servers rn0 !! name) as [[server|]|] eqn:Hs; simpl in Hf; try by simplify_eq.
    simpl. destruct (negb (reliable rn0) && (_ <? _)); simpl in Hf; [by simplify_eq|].
    destruct (waitLoop _ _ _ _) as [[r'|]|] eqn:Hw; simpl in Hf; try by simplify_eq.
    destruct (isServerDead _ _ _ rn1) eqn:Hd; simpl in Hf; [by simplify_eq|].
    destruct (negb (reliable rn0) && (_ <? _)) eqn:Hx; simpl in Hf; [by simplify_eq|]. simplify_eq.
    exists server. pose proof (waitLoop_reply _ _ _ _ _ Hw). pose proof (proj1 (isServerDead_alive _ _ _ _) Hd) as [? _].
    rewrite Hs. simpl. rewrite Hw, Hd. split_and!; eauto.
  - intros server r Hr (He & name & Hc & Hs) Hcc (He1 & name1 & Hc1 & Hs1) Hw.
    rewrite Hcc, Hc in Hc1. simplify_eq. rewrite Hc in Hw. simpl in Hw.
    rewrite He, Hc. simpl. rewrite Hs. simpl. rewrite Hr. simpl. rewrite Hw. simpl.
    by rewrite (proj2 (isServerDead_alive rn1 (rq_endname req) name1 server)).
Qed.

(** ** Instances *)

Definition net1 : Network :=
  AddServer "server" 7
    (Enable "end" true (Connect "end" "server" (default MakeNetwork (MakeEnd "end" MakeNetwork)))).

Definition req1 : reqMsg := mkReqMsg "end" "Raft.RequestVote" [].
Definition reply1 : replyMsg := mkReplyMsg true [Byte.x01].

(** A request on a reliable network, answered after one poll. *)
Lemma processReq_at_most_once_witness :
  let fate := processReq req1 net1 (mkChance 0 0 0) [Poll net1; HandlerReturns reply1] net1 in
  f_handler fate = Some 7%nat ∧ f_reply fate = Some reply1 ∧ f_bytes fate = 1.
Proof.
  apply (processReq_at_most_once req1 net1 (mkChance 0 0 0) [Poll net1; HandlerReturns reply1] net1);
    [done| |done| |by vm_compute].
  - split; [by vm_compute|]. exists "server". by vm_compute.
  - split; [by vm_compute|]. exists "server". by vm_compute.
Defined.

(** The service and the method of a request are split at the last dot. *)
Example dispatch_split :
  let dot := lastDot 0 (-1) "Raft.RequestVote" in
  str_upto "Raft.RequestVote" dot = Some "Raft" ∧
  str_from "Raft.RequestVote" (dot + 1) = Some "RequestVote".
Proof. by vm_compute. Qed.
