(* ===== verification/RpcCall.v ===== *)
(** * Remote procedure calls, from the caller to the handler and back

    Models the two ends of src/6.5840/src/labrpc/labrpc.go that LabRpc.v leaves
    as bytes: [ClientEnd.Call], which encodes the argument and decodes the reply,
    and the services that [MakeService] makes from the methods of an object,
    which decode the argument and encode the reply.  The encoder is the class
    [Gob]; a call is followed from the encoding to the answer through
    [processReq] and [Server.dispatch]. *)

From S2P Require Import Prelude Gob KVRpc KVSrv LabRpc.

Section RpcCall.
(** [V] is the type of arguments and replies, [St] the state of the receiver;
    [partial] is what is left in the argument variable when it cannot be
    decoded, which [Service.dispatch] does not notice. *)
Context {V St : Type} `{!Gob V} (partial : list byte → V).

(** ** Services *)

(** [reflect.Method]: the package of a method that is not exported, the number
    of its arguments (the receiver is one) and of its results, whether the third
    argument is a pointer, and what it does: from the argument and the state,
    the new state and the reply. *)
Record Method := mkMethod {
  mt_name : string;
  mt_PkgPath : string;
  mt_NumIn : Z;
  mt_In2_ptr : bool;
  mt_NumOut : Z;
  mt_call : V → St → St * V
}.

(** The part of [Service.dispatch] between the bytes. *)
Definition callMethod (call : V → St → St * V) (bytes : list byte) (st : St) : St * list byte :=
  let args := match gob_decode (new_decoder bytes) with
              | Some (v, _) => v
              | None => partial bytes
              end in
  let '(st', reply) := call args st in
  (st', enc_bytes (encode_ignoring [reply] new_encoder)).

Definition suitable (m : Method) : bool :=
  negb (negb (bool_decide (mt_PkgPath m = "")) || negb (mt_NumIn m =? 3) ||
        negb (mt_In2_ptr m) || negb (mt_NumOut m =? 0)).

(** [name] is the name of the receiver's type. *)
Definition MakeService (name : string) (methods : list Method) : Service St :=
  mkService name
    (foldl (λ ms m, if suitable m then <[mt_name m := callMethod (mt_call m)]> ms else ms) ∅ methods).

(** [rn.servers[servername].GetCount()]; [None] is the nil dereference. *)
Definition Network_GetCount (servername : string) (objs : nat → Server St) (rn : Network) : option Z :=
  svr ← default None (servers rn !! servername);
  Some (GetCount (objs svr)).

(** ** Call *)

Definition Call_request (endname svcMeth : string) (args : V) : option reqMsg :=
  enc ← gob_encode args new_encoder; Some (mkReqMsg endname svcMeth (enc_bytes enc)).

Inductive CallResult := Answer (reply : V) | NoReply.

(** Into a fresh reply variable; [None] is [log.Fatalf]. *)
Definition Call_receive (rep : replyMsg) : option CallResult :=
  if rp_ok rep then '(v, _) ← gob_decode (new_decoder (rp_reply rep)); Some (Answer v)
  else Some NoReply.

(** While the caller waits: the network polls; or the goroutine of the handler
    gets to run, when the server objects and the states of their receivers are
    those of [objs]. *)
Inductive CallEvent := CPoll (rn : Network) | CRun (objs : nat → Server St * St).

(** What the network sees of the events; [handler] is the object on which it has
    started a handler that has not run yet. *)
Fixpoint wait_events (req : reqMsg) (handler : option nat) (evs : list CallEvent) :
    option (list WaitEvent) :=
  match evs with
  | [] => Some []
  | CPoll rn :: evs => wevs ← wait_events req handler evs; Some (Poll rn :: wevs)
  | CRun objs :: evs =>
      match handler with
      | None => wait_events req None evs
      | Some server =>
          '(_, _, r) ← Server_dispatch req (objs server).1 (objs server).2;
          wevs ← wait_events req None evs; Some (HandlerReturns r :: wevs)
      end
  end.

(** The object on which the network starts a handler for the request. *)
Definition started (req : reqMsg) (rn0 : Network) (ch : Chance) : option nat :=
  f_handler (processReq req rn0 ch [] rn0).

(** [sent]: the select sends the request, the network not having been cleaned
    up.  [None] is a crash of the program, [Some None] a call that waits. *)
Definition Call (endname svcMeth : string) (args : V) (sent : bool) (rn0 : Network) (ch : Chance)
    (evs : list CallEvent) (rn1 : Network) : option (option CallResult) :=
  req ← Call_request endname svcMeth args;
  if negb sent then Some (Some NoReply)
  else
    wevs ← wait_events req (started req rn0 ch) evs;
    match f_reply (processReq req rn0 ch wevs rn1) with
    | None => Some None
    | Some rep => Some <$> Call_receive rep
    end.

(** ** Splitting the name of a method *)

Definition dot : Ascii.ascii := Ascii.ascii_of_N 46.

Fixpoint no_dot (s : string) : bool :=
  match s with
  | EmptyString => true
  | String c s => negb (bool_decide (c = dot)) && no_dot s
  end.

Lemma lastDot_no_dot s : ∀ i best, no_dot s = true → lastDot i best s = best.
Proof.
  induction s as [|c s IH]; intros i best H; simpl in *; [done|].
  apply andb_true_iff in H as [Hc Hs]. rewrite IH by done.
  apply negb_true_iff, bool_decide_eq_false in Hc. by rewrite decide_False.
Qed.

Lemma lastDot_split svc meth : ∀ i best,
  no_dot meth = true →
  lastDot i best (svc +:+ String dot meth) = i + Z.of_nat (String.length svc).
Proof.
  induction svc as [|c svc IH]; intros i best H; simpl.
  - rewrite lastDot_no_dot by done. lia.
  - rewrite IH by done. lia.
Qed.

Lemma substring_prefix s t : String.substring 0 (String.length s) (s +:+ t) = s.
Proof. induction s as [|c s IH]; simpl; [by destruct t|by rewrite IH]. Qed.

Lemma substring_all s : String.substring 0 (String.length s) s = s.
Proof. induction s as [|c s IH]; simpl; [done|by rewrite IH]. Qed.

Lemma substring_suffix s t :
  String.substring (String.length s) (String.length t) (s +:+ t) = t.
Proof. induction s as [|c s IH]; simpl; [apply substring_all|done]. Qed.

Lemma length_append s t : String.length (s +:+ t) = (String.length s + String.length t)%nat.
Proof. induction s as [|c s IH]; simpl; [done|by rewrite IH]. Qed.

Lemma append_dot svc meth :
  (svc +:+ String dot meth = (svc +:+ String dot "") +:+ meth)%string.
Proof. induction svc as [|c svc IH]; [done|]. exact (f_equal (String c) IH). Qed.

Lemma dispatch_found req (rs : Server St) st svc meth s h :
  rq_svcMeth req = (svc +:+ String dot meth)%string → no_dot meth = true →
  services rs !! svc = Some s → svc_methods s !! meth = Some h →
  Server_dispatch req rs st =
    Some (mkServer (services rs) (srv_count rs + 1), (h (rq_args req) st).1,
          mkReplyMsg true (h (rq_args req) st).2).
Proof.
  intros Hreq Hd Hs Hh. unfold Server_dispatch. rewrite Hreq, lastDot_split by done.
  unfold str_upto, str_from. rewrite length_append. simpl String.length.
  repeat rewrite (proj2 (Z.leb_le _ _)) by lia. simpl.
  replace (Z.to_nat (0 + Z.of_nat (String.length svc))) with (String.length svc) by lia.
  rewrite substring_prefix. simpl.
  replace (Z.to_nat (0 + Z.of_nat (String.length svc) + 1)) with (S (String.length svc)) by lia.
  rewrite append_dot.
  replace (S (String.length svc)) with (String.length (svc +:+ String dot ""))
    by (rewrite length_append; simpl; lia).
  replace (_ + _ - _)%nat with (String.length meth) by (rewrite length_append; simpl; lia).
  rewrite substring_suffix, Hs. simpl. unfold Service_dispatch. rewrite Hh. simpl.
  by destruct (h _ _).
Qed.

(** A method that is suitable is found under its name. *)
Lemma MakeService_found name methods m :
  base.NoDup (mt_name <$> methods) → m ∈ methods → suitable m = true →
  svc_methods (MakeService name methods) !! mt_name m = Some (callMethod (mt_call m)).
Proof.
  simpl. induction methods as [|x methods IH] using rev_ind; intros Hnd Hm Hs; [set_solver|].
  rewrite foldl_snoc. rewrite fmap_app in Hnd. apply list.NoDup_app in Hnd as (Hnd & Hx & _).
  apply elem_of_app in Hm as [Hm|Hm%list_elem_of_singleton].
  - specialize (IH Hnd Hm Hs). destruct (suitable x); [|done].
    rewrite lookup_insert_ne; [done|]. intros He. apply (Hx (mt_name m)).
    + by apply list_elem_of_fmap_2.
    + rewrite <-He. apply list_elem_of_here.
  - subst. rewrite Hs. apply lookup_insert_eq.
Qed.

(** ** A call through the network *)

Context `{!GobRegistered V}.

Lemma callMethod_decoded f args e st :
  written e = [args] →
  callMethod f (enc_bytes e) st =
    ((f args st).1, enc_bytes (encode_ignoring [(f args st).2] new_encoder)).
Proof.
  intros Hw. unfold callMethod. destruct (encode_decode_1 args e [] Hw) as (d & -> & _).
  by destruct (f args st).
Qed.

Lemma receive_encoded reply :
  Call_receive (mkReplyMsg true (enc_bytes (encode_ignoring [reply] new_encoder))) =
    Some (Answer reply).
Proof.
  unfold Call_receive. cbn [rp_ok rp_reply].
  pose proof (encode_ignoring_registered [reply] new_encoder) as He.
  apply encode_all_written in He. rewrite written_new in He.
  destruct (encode_decode_1 reply _ [] He) as (d & -> & _). done.
Qed.

(** The server of the end offers the method [m] when a handler may run there. *)
Definition offers (rn0 : Network) (endname svc : string) (m : Method) (evs : list CallEvent) : Prop :=
  ∀ server objs, alive rn0 endname server → CRun objs ∈ evs → ∃ methods,
    services (objs server).1 !! svc = Some (MakeService svc methods) ∧
    base.NoDup (mt_name <$> methods) ∧ m ∈ methods.

(** The reply of the method, as the network carries it. *)
Definition reply_of (m : Method) (args : V) (st : St) : replyMsg :=
  mkReplyMsg true (enc_bytes (encode_ignoring [(mt_call m args st).2] new_encoder)).

Fixpoint seen (m : Method) (args : V) (handler : option nat) (evs : list CallEvent) : list WaitEvent :=
  match evs with
  | [] => []
  | CPoll rn :: evs => Poll rn :: seen m args handler evs
  | CRun objs :: evs =>
      match handler with
      | None => seen m args None evs
      | Some server => HandlerReturns (reply_of m args (objs server).2) :: seen m args None evs
      end
  end.

(** A handler is started on the server of the end, whatever happens then. *)
Lemma processReq_started req rn0 ch wevs rn1 :
  f_handler (processReq req rn0 ch wevs rn1) = started req rn0 ch.
Proof.
  unfold started, processReq. destruct (readEndnameInfo _ _) as [[[[[] [name|]] [server|]] rel] lr]; try done.
  destruct (_ && _); [done|]. simpl. destruct (waitLoop _ _ _ _) as [[r|]|]; [|done..]. by repeat case_match.
Qed.

Lemma started_alive req rn0 ch server :
  started req rn0 ch = Some server → alive rn0 (rq_endname req) server.
Proof.
  unfold started, processReq, readEndnameInfo, alive.
  destruct (enabled rn0 !! rq_endname req) as [[]|]; simpl; try done.
  destruct (connections rn0 !! rq_endname req) as [[name|]|]; simpl; try done.
  destruct (LabRpc.servers rn0 !! name) as [[server'|]|] eqn:Hs; simpl; try done.
  destruct (_ && _); simpl; [done|]. intros [= <-]. by eauto.
Qed.

Lemma wait_events_seen rn0 endname svc m args e handler evs :
  written e = [args] → offers rn0 endname svc m evs → suitable m = true → no_dot (mt_name m) = true →
  (∀ server, handler = Some server → alive rn0 endname server) →
  wait_events (mkReqMsg endname (svc +:+ String dot (mt_name m)) (enc_bytes e)) handler evs =
    Some (seen m args handler evs).
Proof.
  intros Hw Ho Hs Hd. revert handler. induction evs as [|[rn|objs] evs IH]; intros handler Hh; [done|..];
    cbn [wait_events seen];
    (assert (offers rn0 endname svc m evs) as Ho'
      by (intros server objs' Ha Hin; apply (Ho server objs' Ha), list_elem_of_further, Hin)).
  - by rewrite (IH Ho' handler Hh).
  - destruct handler as [server|]; [|by apply (IH Ho')].
    destruct (Ho server objs (Hh server eq_refl)) as (methods & Hsvc & Hnd & Hm); [by apply list_elem_of_here|].
    rewrite (dispatch_found (mkReqMsg endname _ (enc_bytes e)) _ _ svc (mt_name m) _ (callMethod (mt_call m)) eq_refl Hd Hsvc
               (MakeService_found svc methods m Hnd Hm Hs)).
    cbn [mbind option_bind rq_args]. rewrite (callMethod_decoded _ _ _ _ Hw).
    by rewrite (IH Ho' None) by done.
Qed.

Lemma Call_request_ok endname svcMeth args :
  ∃ e, Call_request endname svcMeth args = Some (mkReqMsg endname svcMeth (enc_bytes e)) ∧
    written e = [args].
Proof.
  unfold Call_request. destruct (gob_encode_ok args new_encoder) as [e He]. rewrite He. simpl.
  exists e. split; [done|]. apply written_encode in He. by rewrite written_new in He.
Qed.

(** While the server stays alive, polling does not stop the wait. *)
Lemma waitLoop_alive endname name server polls evs :
  Forall (λ rn, isServerDead endname name server rn = false) polls →
  waitLoop endname name server ((Poll <$> polls) ++ evs) = waitLoop endname name server evs.
Proof. induction 1 as [|rn polls Hrn _ IH]; simpl; [done|]. by rewrite Hrn. Qed.

(** The handler runs for the first time at an event. *)
Definition runs_first (objs : nat → Server St * St) (evs : list CallEvent) : Prop :=
  ∃ polls rest, evs = (CPoll <$> polls) ++ CRun objs :: rest.

(** What the caller makes of an answer from the network. *)
Lemma answer_from_run m args handler evs r :
  HandlerReturns r ∈ seen m args handler evs →
  ∃ server objs, handler = Some server ∧ runs_first objs evs ∧
    Call_receive r = Some (Answer (mt_call m args (objs server).2).2).
Proof.
  revert handler. induction evs as [|[rn|objs] evs IH]; intros handler Hin; cbn [seen] in Hin.
  - by apply elem_of_nil in Hin.
  - apply elem_of_cons in Hin as [?|Hin]; [done|].
    destruct (IH handler Hin) as (server & objs & -> & (polls & rest & ->) & Hr).
    exists server, objs. split_and!; [done| |done]. by exists (rn :: polls), rest.
  - assert (∀ l, HandlerReturns r ∉ seen m args None l) as Hnone.
    { intros l. induction l as [|[]]; cbn [seen]; set_solver. }
    destruct handler as [server|]; [|by apply Hnone in Hin].
    apply elem_of_cons in Hin as [[= ->]|Hin]; [|by apply Hnone in Hin].
    exists server, objs. split_and!; [done|by exists [], evs|apply receive_encoded].
Qed.

Lemma seen_polls m args handler polls evs :
  seen m args handler ((CPoll <$> polls) ++ evs) = (Poll <$> polls) ++ seen m args handler evs.
Proof. induction polls as [|rn polls IH]; [done|]. exact (f_equal (cons (Poll rn)) IH). Qed.

(** On a reliable network a handler is started on a server that is alive. *)
Lemma started_reliable req rn0 ch server :
  reliable rn0 = true → alive rn0 (rq_endname req) server → started req rn0 ch = Some server.
Proof.
  intros Hr (He & name & Hc & Hs). unfold started, processReq, readEndnameInfo.
  rewrite He, Hc. simpl. rewrite Hs. simpl. by rewrite Hr.
Qed.

(** On a reliable network to a server that stays alive. *)
Lemma processReq_alive m args req rn0 ch polls objs (rest : list CallEvent) rn1 server :
  reliable rn0 = true → alive rn0 (rq_endname req) server →
  Forall (λ rn, alive rn (rq_endname req) server ∧ connections rn = connections rn0) (rn1 :: polls) →
  ∃ r, f_reply (processReq req rn0 ch
         (seen m args (Some server) ((CPoll <$> polls) ++ CRun objs :: rest)) rn1) = Some r ∧
    Call_receive r = Some (Answer (mt_call m args (objs server).2).2).
Proof.
  intros Hrl Ha Hall. apply Forall_cons_1 in Hall as [[Ha1 Hc1] Hpolls].
  rewrite seen_polls. cbn [seen].
  destruct (processReq_at_most_once req rn0 ch ((Poll <$> polls) ++
    HandlerReturns (reply_of m args (objs server).2) :: seen m args None rest) rn1) as [_ Hrel].
  pose proof Ha as (_ & name & Hc & _).
  eexists. split; [|apply receive_encoded].
  apply (Hrel server); [done..|]. rewrite Hc. cbn [default from_option].
  rewrite (waitLoop_alive _ _ _ polls); [done|].
  eapply list.Forall_impl; [exact Hpolls|]. intros rn [(He & name' & Hc' & Hs') Heq].
  rewrite Heq, Hc in Hc'. injection Hc' as <-. by apply isServerDead_alive.
Qed.

(** A call of an offered method never crashes the program, and what it returns
    was computed by the one run of the handler, on the server of the end. *)
Lemma Call_result endname svc m args sent rn0 ch (evs : list CallEvent) rn1 :
  offers rn0 endname svc m evs → suitable m = true → no_dot (mt_name m) = true →
  ∃ res,
    Call endname (svc +:+ String dot (mt_name m)) args sent rn0 ch evs rn1 = Some res ∧
    (∀ reply, res = Some (Answer reply) →
       sent = true ∧ ∃ server objs, alive rn0 endname server ∧ runs_first objs evs ∧
         reply = (mt_call m args (objs server).2).2).
Proof.
  intros Ho Hs Hd. unfold Call.
  destruct (Call_request_ok endname (svc +:+ String dot (mt_name m)) args) as (e & -> & Hw).
  cbn [mbind option_bind]. destruct sent; cbn [negb].
  2:{ by exists (Some NoReply). }
  set (req := mkReqMsg _ _ _).
  rewrite (wait_events_seen rn0 endname svc m args e _ evs Hw Ho Hs Hd)
    by (intros server; apply (started_alive req)).
  cbn [mbind option_bind].
  destruct (processReq_at_most_once req rn0 ch (seen m args (started req rn0 ch) evs) rn1) as [Hok _].
  destruct (f_reply (processReq req rn0 ch _ rn1)) as [r|] eqn:Hr; [|by exists None].
  destruct (rp_ok r) eqn:Hrok.
  - destruct (Hok r eq_refl Hrok) as (server & _ & Hin & _).
    destruct (answer_from_run _ _ _ _ _ Hin) as (server' & objs & Hst & Hrun & ->).
    eexists. split; [done|]. intros reply [= <-]. split; [done|]. exists server', objs.
    split_and!; [by apply started_alive in Hst|done|done].
  - exists (Some NoReply). unfold Call_receive. by rewrite Hrok.
Qed.

(** On a reliable network, to a server that stays alive, the call is answered. *)
Lemma Call_reliable endname svc m args rn0 ch polls objs (rest : list CallEvent) rn1 server :
  offers rn0 endname svc m ((CPoll <$> polls) ++ CRun objs :: rest) → suitable m = true →
  no_dot (mt_name m) = true → reliable rn0 = true → alive rn0 endname server →
  Forall (λ rn, alive rn endname server ∧ connections rn = connections rn0) (rn1 :: polls) →
  Call endname (svc +:+ String dot (mt_name m)) args true rn0 ch
    ((CPoll <$> polls) ++ CRun objs :: rest) rn1 = Some (Some (Answer (mt_call m args (objs server).2).2)).
Proof.
  intros Ho Hs Hd Hrl Ha Hall. unfold Call.
  destruct (Call_request_ok endname (svc +:+ String dot (mt_name m)) args) as (e & -> & Hw).
  cbn [mbind option_bind negb]. set (req := mkReqMsg _ _ _).
  rewrite (started_reliable req rn0 ch server Hrl Ha).
  rewrite (wait_events_seen rn0 endname svc m args e _ _ Hw Ho Hs Hd) by by intros ? [= <-].
  cbn [mbind option_bind].
  destruct (processReq_alive m args req rn0 ch polls objs rest rn1 server Hrl Ha Hall) as (r & -> & ->).
  done.
Qed.

(** C31. A call of a method that the server's object offers never crashes the
    program.  When it returns true, the reply is what the method computed from
    exactly the caller's argument, in its one run, on the object of the server that
    the end was connected to and in the state in which it found it; and on a
    reliable network, to a server that stays alive while the method runs, it does
    return true. *)
Theorem Call_answers endname svc m args sent rn0 ch (evs : list CallEvent) rn1 :
  offers rn0 endname svc m evs → suitable m = true → no_dot (mt_name m) = true →
  ∃ res,
    Call endname (svc +:+ String dot (mt_name m)) args sent rn0 ch evs rn1 = Some res ∧
    (∀ reply, res = Some (Answer reply) →
       sent = true ∧ ∃ server objs, alive rn0 endname server ∧ runs_first objs evs ∧
         reply = (mt_call m args (objs server).2).2) ∧
    (∀ server polls objs rest, evs = (CPoll <$> polls) ++ CRun objs :: rest →
       sent = true → reliable rn0 = true → alive rn0 endname server →
       Forall (λ rn, alive rn endname server ∧ connections rn = connections rn0) (rn1 :: polls) →
       res = Some (Answer (mt_call m args (objs server).2).2)).
Proof.
  intros Ho Hs Hd.
  destruct (Call_result endname svc m args sent rn0 ch evs rn1 Ho Hs Hd) as (res & Hcall & Hres).
  exists res. split_and!; [done..|]. intros server polls objs rest -> -> Hrl Ha Hall.
  rewrite (Call_reliable endname svc m args rn0 ch polls objs rest rn1 server) in Hcall by done.
  congruence.
Qed.

End RpcCall.
Arguments Method : clear implicits.

(** ** An instance: the key/value server of kvsrv1 *)

Inductive KVMsg :=
| MGetArgs (a : GetArgs)
| MPutArgs (a : PutArgs)
| MGetReply (r : GetReply)
| MPutReply (r : PutReply).

#[local] Instance KVMsg_eq_dec : EqDecision KVMsg.
Proof. intros x y. unfold Decision. repeat decide equality. Defined.

#[local] Instance KVMsg_countable : Countable KVMsg :=
  inj_countable'
    (λ m, match m with
          | MGetArgs a => inl (inl (get_Key a))
          | MPutArgs a => inl (inr (put_Key a, put_Value a, put_Version a))
          | MGetReply r => inr (inl (gr_Value r, gr_Version r, gr_Err r))
          | MPutReply r => inr (inr (pr_Err r))
          end)
    (λ x, match x with
          | inl (inl k) => MGetArgs (mkGetArgs k)
          | inl (inr (k, v, n)) => MPutArgs (mkPutArgs k v n)
          | inr (inl (v, n, e)) => MGetReply (mkGetReply v n e)
          | inr (inr e) => MPutReply (mkPutReply e)
          end)
    (λ m, match m with
          | MGetArgs (mkGetArgs _) | MPutArgs (mkPutArgs _ _ _)
          | MGetReply (mkGetReply _ _ _) | MPutReply (mkPutReply _) => eq_refl
          end).

#[local] Instance KVMsg_gob : Gob KVMsg := CountableGob.

(** The methods of KVServer in kvsrv1/server.go; Kill has no arguments, so it is
    not offered.  An argument of another type is decoded as far as its fields
    fit, here not at all. *)
Definition put_method : Method KVMsg KVServer :=
  mkMethod "Put" "" 3 true 0
    (λ m kv, match m with
             | MPutArgs a => let '(kv', r) := KVServer_Put a kv in (kv', MPutReply r)
             | _ => let '(kv', r) := KVServer_Put (mkPutArgs "" "" 0) kv in (kv', MPutReply r)
             end).

Definition get_method : Method KVMsg KVServer :=
  mkMethod "Get" "" 3 true 0
    (λ m kv, match m with
             | MGetArgs a => (kv, MGetReply (KVServer_Get a kv))
             | _ => (kv, MGetReply (KVServer_Get (mkGetArgs "") kv))
             end).

Definition kill_method : Method KVMsg KVServer := mkMethod "Kill" "" 1 false 0 (λ m kv, (kv, m)).

Definition kv_service : Service KVServer :=
  MakeService (λ _, MGetArgs (mkGetArgs "")) "KVServer" [get_method; kill_method; put_method].

Definition kv_object : Server KVServer := AddService kv_service MakeServer.

Example Kill_not_offered : is_Some (svc_methods kv_service !! "Put") ∧ svc_methods kv_service !! "Kill" = None.
Proof. split; [by eexists|reflexivity]. Qed.

(** The key/value server is object 7; other objects have no service. *)
Definition kv_objects (n : nat) : Server KVServer * KVServer :=
  (if decide (n = 7%nat) then kv_object else MakeServer, MakeKVServer).

Lemma net1_alive server : alive net1 "end" server → server = 7%nat.
Proof.
  intros (_ & name & Hc & Hs). vm_compute in Hc. injection Hc as <-. vm_compute in Hs. by injection Hs as <-.
Qed.

(** A Put of a new key, on a reliable network, polled once. *)
Lemma Call_answers_witness :
  Call "end" "KVServer.Put" (MPutArgs (mkPutArgs "k" "v" 0)) true net1 (mkChance 0 0 0)
    [CPoll net1; CRun kv_objects] net1 = Some (Some (Answer (MPutReply (mkPutReply OK)))).
Proof.
  assert (offers (λ _, MGetArgs (mkGetArgs "")) net1 "end" "KVServer" put_method
            [CPoll net1; CRun kv_objects]) as Ho.
  { intros server objs ->%net1_alive Hin. exists [get_method; kill_method; put_method].
    apply elem_of_cons in Hin as [?|Hin]; [done|]. apply list_elem_of_singleton in Hin.
    injection Hin as ->. split; [reflexivity|]. split; [|set_solver].
    apply (bool_decide_unpack _). reflexivity. }
  assert (alive net1 "end" 7) as Ha.
  { split; [by vm_compute|]. exists "server". by vm_compute. }
  assert (Forall (λ rn, alive rn "end" 7 ∧ connections rn = connections net1) [net1; net1]) as Hall.
  { apply list.Forall_forall. intros rn Hin. assert (rn = net1) as -> by set_solver.
    split; [exact Ha|reflexivity]. }
  destruct (Call_answers (λ _, MGetArgs (mkGetArgs "")) "end" "KVServer" put_method
    (MPutArgs (mkPutArgs "k" "v" 0)) true net1 (mkChance 0 0 0) _ net1 Ho eq_refl eq_refl)
    as (res & Hcall & _ & Hans).
  specialize (Hans 7%nat [net1] kv_objects [] eq_refl eq_refl eq_refl Ha Hall).
  rewrite Hans in Hcall. exact Hcall.
Defined.
