(* ===== verification/Tester.v ===== *)
(** * Server groups of the tester

    Models src/6.5840/src/tester1/group.go and srv.go, which start, stop,
    connect and partition the servers of a group on the simulated network, and
    the clients of clnts.go.  The network is the one of LabRpc; the names of the
    ends, which [Randstring] draws, and the number of a new server object are
    arguments.  [None] is a panic or [log.Fatalf].  What [mks] starts is not part
    of the state, only whether the services run. *)

From stdpp Require Import pretty.
From S2P Require Import Prelude Gob Persister LabRpc.

Definition ServerName (gid i : Z) : string :=
  ("server-" ++ pretty gid ++ "-" ++ pretty i)%string.

(** srv.go: a server of a group. *)
Record Srv := mkSrv {
  saved : option Persister;
  running : bool;              (* svcs != nil *)
  endNames : list string
}.

Record ServerGrp := mkServerGrp {
  sg_net : Network;
  sg_srvs : list Srv;
  servernames : list string;
  sg_gid : Z;
  connected : list bool
}.

Definition set_net (net : Network) (sg : ServerGrp) : ServerGrp :=
  mkServerGrp net (sg_srvs sg) (servernames sg) (sg_gid sg) (connected sg).
Definition set_connected (c : list bool) (sg : ServerGrp) : ServerGrp :=
  mkServerGrp (sg_net sg) (sg_srvs sg) (servernames sg) (sg_gid sg) c.
Definition set_srvs (s : list Srv) (sg : ServerGrp) : ServerGrp :=
  mkServerGrp (sg_net sg) s (servernames sg) (sg_gid sg) (connected sg).

(** ** srv.go *)

(** The loop of [makeServer] over the names of the fresh ends; [j] is the number
    of the first. *)
Fixpoint makeEnds (gid j : Z) (names : list string) (net : Network) : option Network :=
  match names with
  | [] => Some net
  | name :: names =>
      net ← MakeEnd name net;
      makeEnds gid (j + 1) names (Connect name (ServerName gid j) net)
  end.

Definition makeServer (gid : Z) (names : list string) (net : Network) : option (Network * Srv) :=
  net ← makeEnds gid 0 names net;
  Some (net, mkSrv None false names).

(** [names] are as many as the server has ends. *)
Definition startServer (gid : Z) (names : list string) (s : Srv) (net : Network) :
    option (Network * Srv) :=
  '(net, srv) ← makeServer gid names net;
  let p := match saved s with Some p => Copy p | None => MakePersister end in
  Some (net, mkSrv (Some p) (running srv) (endNames srv)).

(** A loop that enables or disables, for each [j] of a list, the end [pick j]
    names; [Some None] leaves the network alone. *)
Definition enableEach (en : bool) (pick : Z → option (option string)) (js : list Z)
    (net : Network) : option Network :=
  foldl (λ on j, net ← on; o ← pick j;
           Some match o with Some endname => Enable endname en net | None => net end)
    (Some net) js.

(** [Server.connect]; [conn] is what [sg.IsConnected] reads. *)
Definition Srv_connect (s : Srv) (conn : list bool) (to : list Z) (net : Network) :
    option Network :=
  enableEach true (λ j, c ← go_nth conn j;
                     if (c : bool) then endname ← go_nth (endNames s) j; Some (Some endname)
                     else Some None) to net.

Definition Srv_disconnect (s : Srv) (from : list Z) (net : Network) : option Network :=
  enableEach false (λ j, endname ← go_nth (endNames s) j; Some (Some endname)) from net.

(** [shutdownServer]: the services stop; the persister is replaced by a copy. *)
Definition shutdownServer (s : Srv) : Srv := mkSrv (Copy <$> saved s) false (endNames s).

(** ** group.go *)

Definition makeSrvGrp (gid : Z) (names : list (list string)) (net : Network) : option ServerGrp :=
  '(net, srvs) ← foldl (λ acc ns, '(net, srvs) ← acc; '(net, s) ← makeServer gid ns net;
                           Some (net, srvs ++ [s])) (Some (net, [])) names;
  Some (mkServerGrp net srvs (ServerName gid <$> seqZ 0 (len names)) gid
          (replicate (length names) false)).

Definition all (sg : ServerGrp) : list Z := seqZ 0 (len (sg_srvs sg)).

Definition IsConnected (i : Z) (sg : ServerGrp) : option bool := go_nth (connected sg) i.

Definition connect (i : Z) (to : list Z) (sg : ServerGrp) : option ServerGrp :=
  conn ← go_set (connected sg) i true;
  s ← go_nth (sg_srvs sg) i;
  net ← Srv_connect s conn to (sg_net sg);
  net ← enableEach true (λ j, c ← go_nth conn j;
                           if (c : bool) then
                             s ← go_nth (sg_srvs sg) j;
                             endname ← go_nth (endNames s) i; Some (Some endname)
                           else Some None) to net;
  Some (set_net net (set_connected conn sg)).

Definition disconnect (i : Z) (from : list Z) (sg : ServerGrp) : option ServerGrp :=
  conn ← go_set (connected sg) i false;
  s ← go_nth (sg_srvs sg) i;
  net ← Srv_disconnect s from (sg_net sg);
  net ← enableEach false (λ j, s ← go_nth (sg_srvs sg) j;
                            endname ← go_nth (endNames s) i; Some (Some endname)) from net;
  Some (set_net net (set_connected conn sg)).

Definition ConnectOne (i : Z) (sg : ServerGrp) : option ServerGrp := connect i (all sg) sg.

Definition ConnectAll (sg : ServerGrp) : option ServerGrp :=
  foldl (λ osg i, sg ← osg; ConnectOne i sg) (Some sg) (all sg).

Definition DisconnectAll (i : Z) (sg : ServerGrp) : option ServerGrp := disconnect i (all sg) sg.

(** The two loops of [Partition] are the same with [p1] and [p2] swapped. *)
Definition partitionHalf (p other : list Z) (sg : ServerGrp) : option ServerGrp :=
  foldl (λ osg i, sg ← osg; sg ← disconnect i other sg; connect i p sg) (Some sg) p.

Definition Partition (p1 p2 : list Z) (sg : ServerGrp) : option ServerGrp :=
  sg ← partitionHalf p1 p2 sg; partitionHalf p2 p1 sg.

(** The loop of [MakePartition]: the servers other than the leader fill the two
    parts in order. *)
Definition fillParts (l : Z) (xs : list Z) (p1 p2 : list Z) (j : Z) : option (list Z * list Z * Z) :=
  foldl (λ acc i, '(p1, p2, j) ← acc;
           if decide (i ≠ l) then
             if j <? len p1 then p1 ← go_set p1 j i; Some (p1, p2, j + 1)
             else p2 ← go_set p2 (j - len p1) i; Some (p1, p2, j + 1)
           else Some (p1, p2, j))
    (Some (p1, p2, j)) xs.

(** [MakePartition(l)] of a group of [n] servers. *)
Definition MakePartition (n l : Z) : option (list Z * list Z) :=
  p1 ← go_make (n / 2 + 1) 0;
  p2 ← go_make (n / 2) 0;
  '(p1, p2, _) ← fillParts l (seqZ 0 n) p1 p2 0;
  p2 ← go_set p2 (len p2 - 1) l;
  Some (p1, p2).

(** [StartServer(i)]; [rs] is the new labrpc server, which serves what [mks]
    starts. *)
Definition StartServer (i : Z) (names : list string) (rs : nat) (sg : ServerGrp) :
    option ServerGrp :=
  s ← go_nth (sg_srvs sg) i;
  '(net, srv) ← startServer (sg_gid sg) names s (sg_net sg);
  srvs ← go_set (sg_srvs sg) i (mkSrv (saved srv) true (endNames srv));
  Some (set_net (AddServer (ServerName (sg_gid sg) i) rs net) (set_srvs srvs sg)).

Definition ShutdownServer (i : Z) (sg : ServerGrp) : option ServerGrp :=
  sg ← disconnect i (all sg) sg;
  let sg := set_net (DeleteServer (ServerName (sg_gid sg) i) (sg_net sg)) sg in
  s ← go_nth (sg_srvs sg) i;
  srvs ← go_set (sg_srvs sg) i (shutdownServer s);
  Some (set_srvs srvs sg).

(** The largest value of [f] over the servers; a server that was never started
    has no persister, and reading it is a panic. *)
Definition maxSaved (f : Persister → Z) (sg : ServerGrp) : option Z :=
  foldl (λ om s, m ← om; p ← saved s; Some (if m <? f p then f p else m)) (Some 0) (sg_srvs sg).

Definition LogSize : ServerGrp → option Z := maxSaved RaftStateSize.
Definition Grp_SnapshotSize : ServerGrp → option Z := maxSaved SnapshotSize.

(** ** clnts.go *)

(** A client: its ends by server name, and the servers it may talk to, [None]
    when it may talk to all. *)
Record Clnt := mkClnt { clnt_ends : gmap string string; clnt_srvs : option (list string) }.

Definition makeClntTo (srvs : option (list string)) : Clnt := mkClnt ∅ srvs.

Definition allowedL (server : string) (clnt : Clnt) : bool :=
  match clnt_srvs clnt with
  | None => true
  | Some srvs => bool_decide (server ∈ srvs)
  end.

(** The name of the end for [server], made when there is none. *)
Definition Clnt_makeEnd (server name : string) (clnt : Clnt) (net : Network) :
    option (Clnt * Network * string) :=
  match clnt_ends clnt !! server with
  | Some e => Some (clnt, net, e)
  | None =>
      net ← MakeEnd name net;
      let net := Enable name (allowedL server clnt) (Connect name server net) in
      Some (mkClnt (<[server := name]> (clnt_ends clnt)) (clnt_srvs clnt), net, name)
  end.

(** The loops over [clnt.ends] that enable or disable the ends of the servers
    [which] selects; the order does not matter, the names being distinct. *)
Definition enableEnds (which : string → bool) (en : bool) (clnt : Clnt) (net : Network) : Network :=
  map_fold (λ srv e net, if which srv then Enable e en net else net) net (clnt_ends clnt).

Definition Clnt_ConnectAll (clnt : Clnt) (net : Network) : Clnt * Network :=
  (mkClnt (clnt_ends clnt) None, enableEnds (λ _, true) true clnt net).

Definition ConnectTo (srvs : list string) (clnt : Clnt) (net : Network) : Clnt * Network :=
  let clnt := mkClnt (clnt_ends clnt) (Some srvs) in
  (clnt, enableEnds (λ srv, allowedL srv clnt) true clnt net).

Definition Clnt_Disconnect (srv : string) (clnt : Clnt) (net : Network) : Clnt * Network :=
  (clnt, enableEnds (λ s, bool_decide (s = srv)) false clnt net).

Definition Clnt_DisconnectAll (clnt : Clnt) (net : Network) : Clnt * Network :=
  (mkClnt (clnt_ends clnt) (Some []), enableEnds (λ _, true) false clnt net).

(** [remove] *)
Definition remove (clnt : Clnt) (net : Network) : option Network :=
  foldl (λ on e, net ← on; DeleteEnd e net) (Some net) (map_to_list (clnt_ends clnt)).*2.

(** ** Links *)

Section Links.
Implicit Types (sg : ServerGrp) (net : Network) (js p other : list Z) (i j a b : Z).

(** The end of server [a] for server [b]. *)
Definition endName (sg : ServerGrp) (a b : Z) : option string :=
  s ← go_nth (sg_srvs sg) a; go_nth (endNames s) b.

(** Requests of server [a] to server [b] reach the network. *)
Definition link (sg : ServerGrp) (a b : Z) : Prop :=
  ∃ e, endName sg a b = Some e ∧ enabled (sg_net sg) !! e = Some true.

Definition in_group (sg : ServerGrp) (i : Z) : Prop := 0 <= i < len (sg_srvs sg).

(** Every server has an end for every server, no two ends have the same name. *)
Record grp_ok (sg : ServerGrp) : Prop := mkGrpOk {
  ok_connected : length (connected sg) = length (sg_srvs sg);
  ok_ends a b : in_group sg a → in_group sg b → is_Some (endName sg a b);
  ok_distinct a b a' b' e : endName sg a b = Some e → endName sg a' b' = Some e → a = a' ∧ b = b'
}.

Lemma enableEach_spec en pick js : ∀ net,
  (∀ j, j ∈ js → is_Some (pick j)) →
  ∃ net', enableEach en pick js net = Some net' ∧
    ∀ e, enabled net' !! e =
      if decide (Some (Some e) ∈ pick <$> js) then Some en else enabled net !! e.
Proof.
  induction js as [|j js IH] using rev_ind; intros net Hp.
  - exists net. split; [done|]. intros e. rewrite decide_False; [done|]. apply not_elem_of_nil.
  - destruct (IH net) as (net' & Hr & He); [set_solver|].
    destruct (Hp j) as [o Ho]; [set_solver|].
    unfold enableEach in *. rewrite foldl_snoc, Hr. obind. rewrite Ho. obind. eexists. split; [done|].
    intros e. rewrite fmap_app. cbn [fmap list_fmap]. rewrite Ho.
    destruct o as [e'|]; [simpl; destruct (decide (e = e')) as [->|Hne]|].
    + rewrite lookup_insert_eq, decide_True by set_solver. done.
    + rewrite lookup_insert_ne, He by done. do 2 case_decide; set_solver.
    + rewrite He. do 2 case_decide; set_solver.
Qed.

(** A loop that enables or disables the ends [E j] of the [j] with [P j]. *)
Lemma enableEach_ends en pick js net (P : Z → bool) (E : Z → option string) :
  (∀ j, j ∈ js → pick j = if P j then e ← E j; Some (Some e) else Some None) →
  (∀ j, j ∈ js → is_Some (E j)) →
  ∃ net', enableEach en pick js net = Some net' ∧
    (∀ e j, j ∈ js → P j = true → E j = Some e → enabled net' !! e = Some en) ∧
    (∀ e, (∀ j, j ∈ js → P j = true → E j ≠ Some e) → enabled net' !! e = enabled net !! e).
Proof.
  intros Hp HE. destruct (enableEach_spec en pick js net) as (net' & Hr & He).
  { intros j Hj. rewrite (Hp j Hj). destruct (HE j Hj) as [e ->]. by destruct (P j). }
  exists net'. split; [done|]. split.
  - intros e j Hj HP Hej. rewrite He, decide_True; [done|]. apply list_elem_of_fmap. exists j.
    by rewrite (Hp j Hj), HP, Hej.
  - intros e Hn. rewrite He, decide_False; [done|].
    intros (j & Hj & Hin)%list_elem_of_fmap. rewrite (Hp j Hin) in Hj.
    destruct (P j) eqn:HP; [|done]. specialize (Hn j Hin HP). destruct (E j); [|done].
    cbn in Hj. congruence.
Qed.

(** Server [i] counts as connected. *)
Definition is_conn (sg : ServerGrp) (i : Z) : Prop := go_nth (connected sg) i = Some true.

(** The link from [a] to [b] has [i] at one end and at the other a server of
    [js] with [P]. *)
Definition touches (P : Z → bool) (i : Z) (js : list Z) (a b : Z) : Prop :=
  (a = i ∧ b ∈ js ∧ P b = true) ∨ (b = i ∧ a ∈ js ∧ P a = true).

(** Name the functions of the two loops of the goal. *)
Ltac name_loops pick1 pick2 :=
  match goal with |- context [enableEach _ ?p _ (sg_net _)] => set (pick1 := p) end;
  match goal with |- context [enableEach _ ?p _] =>
    tryif is_var p then fail else set (pick2 := p) end.

(** The two loops of [connect] and of [disconnect]: the outgoing ends of [i] and
    the incoming ones. *)
Lemma both_loops en sg i js (P : Z → bool) pick1 pick2 :
  grp_ok sg → in_group sg i → (∀ j, j ∈ js → in_group sg j) →
  (∀ j, j ∈ js → pick1 j = if P j then e ← endName sg i j; Some (Some e) else Some None) →
  (∀ j, j ∈ js → pick2 j = if P j then e ← endName sg j i; Some (Some e) else Some None) →
  ∃ net1 net2, enableEach en pick1 js (sg_net sg) = Some net1 ∧ enableEach en pick2 js net1 = Some net2 ∧
    ∀ a b e, endName sg a b = Some e →
      (touches P i js a b → enabled net2 !! e = Some en) ∧
      (¬ touches P i js a b → enabled net2 !! e = enabled (sg_net sg) !! e).
Proof.
  intros [_ Hends Hdist] Hi Hjs Hp1 Hp2.
  destruct (enableEach_ends en pick1 js (sg_net sg) P (endName sg i)) as (net1 & H1 & Hset1 & Hkeep1);
    [done|intros j Hj; apply Hends; auto|].
  destruct (enableEach_ends en pick2 js net1 P (λ j, endName sg j i)) as (net2 & H2 & Hset2 & Hkeep2);
    [done|intros j Hj; apply Hends; auto|].
  exists net1, net2. split; [done|]. split; [done|]. intros a b e He. split.
  - intros Ht. destruct (decide (b = i ∧ a ∈ js ∧ P a = true)) as [(-> & Ha & HPa)|Hn]; [by eapply Hset2|].
    destruct Ht as [(-> & Hb & HPb)|?]; [|done]. rewrite Hkeep2; [by eapply Hset1|].
    intros j Hj HPj HE. destruct (Hdist _ _ _ _ _ He HE) as [-> ->]. by apply Hn.
  - intros Hn. rewrite Hkeep2, Hkeep1; [done|..]; intros j Hj HPj HE; apply Hn;
      destruct (Hdist _ _ _ _ _ He HE) as [-> ->]; [by left|by right].
Qed.

Lemma connect_spec i to sg :
  grp_ok sg → in_group sg i → (∀ j, j ∈ to → in_group sg j) →
  ∃ sg', connect i to sg = Some sg' ∧ sg_srvs sg' = sg_srvs sg ∧
    connected sg' = <[Z.to_nat i := true]> (connected sg) ∧
    ∀ a b, in_group sg a → in_group sg b →
      (link sg' a b ↔ link sg a b ∨ (a = i ∧ b ∈ to ∧ is_conn sg' b) ∨ (b = i ∧ a ∈ to ∧ is_conn sg' a)).
Proof.
  intros Hok Hi Hto. unfold connect. rewrite go_set_ok by (destruct Hok; unfold in_group in *; lia).
  obind. set (conn := <[_ := true]> (connected sg)).
  destruct (proj2 (go_nth_is_Some (sg_srvs sg) i) Hi) as [s Hs]. rewrite Hs. obind.
  assert (∀ j, j ∈ to → is_Some (go_nth conn j)) as Hconn.
  { intros j Hj%Hto. apply go_nth_is_Some. unfold conn. rewrite length_insert, ok_connected; done. }
  unfold Srv_connect. name_loops pick1 pick2.
  destruct (both_loops true sg i to (λ j, default false (go_nth conn j)) pick1 pick2)
    as (net1 & net2 & -> & H2 & Hen); [done..| | |].
  { intros j Hj. unfold pick1. destruct (Hconn j Hj) as [[] ->]; obind; [|done]. unfold endName. by rewrite Hs. }
  { intros j Hj. unfold pick2. destruct (Hconn j Hj) as [[] ->]; obind; [|done]. unfold endName.
    by destruct (go_nth (sg_srvs sg) j). }
  obind. rewrite H2. obind. eexists. split; [done|]. split; [done|]. split; [done|].
  intros a b Ha Hb. destruct (ok_ends sg Hok a b Ha Hb) as [e He]. destruct (Hen a b e He) as [Hen1 Hen2].
  assert (∀ x, is_conn (set_net net2 (set_connected conn sg)) x ↔ default false (go_nth conn x) = true) as Hc.
  { intros x. unfold is_conn. simpl. destruct (go_nth conn x) as [[]|]; naive_solver. }
  unfold link. rewrite !Hc. change (endName (set_net _ _) a b) with (endName sg a b). simpl sg_net.
  setoid_rewrite He. split.
  - intros (e' & [= <-] & Hl).
    destruct (decide (touches (λ j, default false (go_nth conn j)) i to a b)) as [Ht|Ht]; [by right|].
    left. exists e. by rewrite <-Hen2.
  - intros [(e' & [= <-] & Hl)|Ht]; exists e; (split; [done|]); [|by apply Hen1].
    destruct (decide (touches (λ j, default false (go_nth conn j)) i to a b)) as [Ht|Ht]; [by apply Hen1|].
    by rewrite Hen2.
Qed.

Lemma disconnect_spec i from sg :
  grp_ok sg → in_group sg i → (∀ j, j ∈ from → in_group sg j) →
  ∃ sg', disconnect i from sg = Some sg' ∧ sg_srvs sg' = sg_srvs sg ∧
    connected sg' = <[Z.to_nat i := false]> (connected sg) ∧
    ∀ a b, in_group sg a → in_group sg b →
      (link sg' a b ↔ link sg a b ∧ ¬ (a = i ∧ b ∈ from) ∧ ¬ (b = i ∧ a ∈ from)).
Proof.
  intros Hok Hi Hfrom. unfold disconnect. rewrite go_set_ok by (destruct Hok; unfold in_group in *; lia).
  obind. destruct (proj2 (go_nth_is_Some (sg_srvs sg) i) Hi) as [s Hs]. rewrite Hs. obind.
  unfold Srv_disconnect. name_loops pick1 pick2.
  destruct (both_loops false sg i from (λ _, true) pick1 pick2)
    as (net1 & net2 & -> & H2 & Hen); [done..| | |].
  { intros j Hj. unfold pick1, endName. by rewrite Hs. }
  { intros j Hj. unfold pick2, endName. by destruct (go_nth (sg_srvs sg) j). }
  obind. rewrite H2. obind. eexists. split; [done|]. split; [done|]. split; [done|].
  intros a b Ha Hb. destruct (ok_ends sg Hok a b Ha Hb) as [e He]. destruct (Hen a b e He) as [Hen1 Hen2].
  unfold link. change (endName (set_net _ _) a b) with (endName sg a b). simpl sg_net.
  setoid_rewrite He.
  destruct (decide (touches (λ _, true) i from a b)) as [Ht|Ht].
  - split.
    + intros (e' & [= <-] & Hl). rewrite Hen1 in Hl by done. done.
    + intros (_ & H1 & H3). destruct Ht; naive_solver.
  - specialize (Hen2 Ht). unfold touches in Ht. split.
    + intros (e' & [= <-] & Hl). split; [exists e; by rewrite <-Hen2|]. naive_solver.
    + intros ((e' & [= <-] & Hl) & _). exists e. by rewrite Hen2.
Qed.

(** ** Partitions *)

Lemma grp_ok_frame sg sg' :
  grp_ok sg → sg_srvs sg' = sg_srvs sg → length (connected sg') = length (connected sg) → grp_ok sg'.
Proof.
  intros [H1 H2 H3] Hs Hc. unfold endName, in_group in *. constructor; unfold endName, in_group;
    rewrite ?Hs; try done. congruence.
Qed.

Lemma is_conn_insert sg i v j l :
  connected sg = <[Z.to_nat i := v]> l → 0 <= i < len l → 0 <= j →
  is_conn sg j ↔ if decide (i = j) then v = true else go_nth l j = Some true.
Proof.
  intros Hc Hi Hj. unfold is_conn, go_nth. rewrite Hc, !(proj2 (Z.leb_le _ _)) by lia.
  destruct (decide (i = j)) as [->|Hne].
  - rewrite list_lookup_insert_eq by lia. naive_solver.
  - by rewrite list_lookup_insert_ne by lia.
Qed.

(** What [partitionHalf p other] has achieved for the servers [done] of [p],
    starting from [sg0]. *)
Record half_done (p other done : list Z) (sg0 sg : ServerGrp) : Prop := mkHalfDone {
  hd_srvs : sg_srvs sg = sg_srvs sg0;
  hd_length : length (connected sg) = length (connected sg0);
  hd_conn a : a ∈ done → is_conn sg a;
  hd_inside a b : a ∈ done → b ∈ done → link sg a b;
  hd_across a b : a ∈ done → b ∈ other → ¬ link sg a b ∧ ¬ link sg b a;
  hd_outside a b : in_group sg0 a → in_group sg0 b → a ∉ p → b ∉ p → link sg a b ↔ link sg0 a b
}.

Lemma half_step p other done i sg0 sg :
  grp_ok sg0 → (∀ j, j ∈ p ∨ j ∈ other → in_group sg0 j) → (∀ j, j ∈ p → j ∉ other) →
  i ∈ p → (∀ j, j ∈ done → j ∈ p) → half_done p other done sg0 sg →
  ∃ sg1 sg2, disconnect i other sg = Some sg1 ∧ connect i p sg1 = Some sg2 ∧
    half_done p other (done ++ [i]) sg0 sg2.
Proof.
  intros Hok Hin Hdisj Hi Hdone [Hs Hlen Hc Hins Hacr Hout].
  assert (∀ x, in_group sg x ↔ in_group sg0 x) as Hg by (intros; unfold in_group; by rewrite Hs).
  destruct (disconnect_spec i other sg) as (sg1 & H1 & Hs1 & Hc1 & Hl1);
    [by eapply grp_ok_frame|apply Hg; auto|intros; apply Hg; auto|].
  assert (∀ x, in_group sg1 x ↔ in_group sg0 x) as Hg1 by (intros; unfold in_group; by rewrite Hs1, Hs).
  destruct (connect_spec i p sg1) as (sg2 & H2 & Hs2 & Hc2 & Hl2).
  { eapply grp_ok_frame; [done|congruence|]. rewrite Hc1, length_insert. congruence. }
  { apply Hg1; auto. } { intros; apply Hg1; auto. }
  exists sg1, sg2. split; [done|]. split; [done|].
  assert (0 <= i < len (connected sg0)) as Hib.
  { destruct Hok as [-> _ _]. apply Hin. by left. }
  assert (∀ j, 0 <= j → is_conn sg2 j ↔ j = i ∨ is_conn sg j) as Hconn.
  { intros j Hj. rewrite (is_conn_insert sg2 i true j (connected sg1));
      [|done|rewrite Hc1, length_insert; lia|done].
    case_decide as Hij; [naive_solver|]. fold (is_conn sg1 j).
    rewrite (is_conn_insert sg1 i false j (connected sg)), decide_False by (lia || done).
    unfold is_conn. naive_solver. }
  assert (∀ a b, in_group sg0 a → in_group sg0 b → link sg2 a b ↔
    (link sg a b ∧ ¬ (a = i ∧ b ∈ other) ∧ ¬ (b = i ∧ a ∈ other)) ∨
    (a = i ∧ b ∈ p ∧ is_conn sg2 b) ∨ (b = i ∧ a ∈ p ∧ is_conn sg2 a)) as Hlink.
  { intros a b Ha Hb. rewrite Hl2, Hl1 by (by (apply Hg || apply Hg1)). done. }
  constructor; [congruence|by rewrite Hc2, length_insert, Hc1, length_insert| | | |].
  - intros a [Ha| ->%list_elem_of_singleton]%elem_of_app; apply Hconn; [|right; by apply Hc|lia|by left].
    apply Hin. left. auto.
  - intros a b Ha Hb.
    assert (∀ x, x ∈ done ++ [i] → x ∈ p ∧ in_group sg0 x ∧ is_conn sg2 x) as Hx.
    { intros x Hx. assert (x ∈ p) by set_solver. assert (in_group sg0 x) by auto.
      split_and!; [done..|]. apply Hconn; [unfold in_group in *; lia|].
      apply elem_of_app in Hx as [Hx| ->%list_elem_of_singleton]; auto. }
    destruct (Hx a Ha) as (Hap & Hag & Hac), (Hx b Hb) as (Hbp & Hbg & Hbc).
    apply Hlink; [done..|]. destruct (decide (a = i)), (decide (b = i)); [tauto..|].
    left. split; [apply Hins; set_solver|]. naive_solver.
  - intros a b Ha Hb. assert (a ∈ p) as Hap by set_solver.
    assert (in_group sg0 a ∧ in_group sg0 b) as [Hag Hbg] by auto.
    assert (b ∉ p) as Hbp by (intros ?; by eapply Hdisj).
    assert (a ∈ done ∨ a = i) as Had by set_solver.
    rewrite !Hlink by done. split; intros Hl; destruct Had as [Had| ->];
      try (destruct (Hacr a b Had Hb)); naive_solver.
  - intros a b Ha Hb Hap Hbp. rewrite Hlink, Hout by done.
    assert (a ≠ i ∧ b ≠ i) as [??] by (split; congruence). naive_solver.
Qed.

Lemma partitionHalf_spec p other sg :
  grp_ok sg → (∀ j, j ∈ p ∨ j ∈ other → in_group sg j) → (∀ j, j ∈ p → j ∉ other) →
  ∃ sg', partitionHalf p other sg = Some sg' ∧ half_done p other p sg sg'.
Proof.
  intros Hok Hin Hdisj.
  cut (∀ done, (∀ j, j ∈ done → j ∈ p) →
    ∃ sg', foldl (λ osg i, sg ← osg; sg ← disconnect i other sg; connect i p sg) (Some sg) done = Some sg' ∧
      half_done p other done sg sg'); [intros H; by apply (H p)|].
  induction done as [|i done IH] using rev_ind; intros Hd.
  - exists sg. split; [done|]. constructor; try done; intros a ?; by intros ?%elem_of_nil || set_solver.
  - destruct IH as (sg1 & Hr & Hh); [set_solver|].
    destruct (half_step p other done i sg sg1) as (sg2 & sg3 & H1 & H2 & H3);
      [done|done|done|apply Hd; set_solver|set_solver|done|].
    exists sg3. split; [|done]. rewrite foldl_snoc, Hr. obind. rewrite H1. obind. done.
Qed.

Lemma Partition_spec p1 p2 sg :
  grp_ok sg → (∀ j, j ∈ p1 ∨ j ∈ p2 → in_group sg j) → (∀ j, j ∈ p1 → j ∉ p2) →
  ∃ sg', Partition p1 p2 sg = Some sg' ∧ grp_ok sg' ∧ sg_srvs sg' = sg_srvs sg ∧
    (∀ a b, (a ∈ p1 ∧ b ∈ p1) ∨ (a ∈ p2 ∧ b ∈ p2) → link sg' a b) ∧
    (∀ a b, (a ∈ p1 ∧ b ∈ p2) ∨ (a ∈ p2 ∧ b ∈ p1) → ¬ link sg' a b).
Proof.
  intros Hok Hin Hdisj.
  destruct (partitionHalf_spec p1 p2 sg Hok Hin Hdisj) as (sg1 & H1 & [Hs1 Hl1 _ Hi1 _ _]).
  assert (∀ x, in_group sg1 x ↔ in_group sg x) as Hg by (intros; unfold in_group; by rewrite Hs1).
  assert (grp_ok sg1) as Hok1 by (by eapply grp_ok_frame).
  destruct (partitionHalf_spec p2 p1 sg1) as (sg2 & H2 & [Hs2 Hl2 _ Hi2 Ha2 Ho2]).
  { done. } { intros j Hj. apply Hg, Hin. tauto. } { intros j Hj Hj'. by eapply Hdisj. }
  exists sg2. unfold Partition. rewrite H1. split; [done|]. split; [by eapply grp_ok_frame|].
  split; [congruence|]. split.
  - intros a b [[Ha Hb]|[Ha Hb]]; [|by apply Hi2].
    apply Ho2; [apply Hg; auto..|by apply Hdisj|by apply Hdisj|by apply Hi1].
  - intros a b [[Ha Hb]|[Ha Hb]]; [apply (Ha2 b a Hb Ha)|apply (Ha2 a b Ha Hb)].
Qed.

(** Partition separates: whatever the links were before, afterwards a
    server can reach exactly the servers of its own part - every link inside a
    part is enabled and every link across is disabled, in both directions. *)
Theorem Partition_isolates p1 p2 sg :
  grp_ok sg → (∀ j, j ∈ p1 ∨ j ∈ p2 → in_group sg j) → (∀ j, j ∈ p1 → j ∉ p2) →
  ∃ sg', Partition p1 p2 sg = Some sg' ∧ sg_srvs sg' = sg_srvs sg ∧
    (∀ a b, (a ∈ p1 ∧ b ∈ p1) ∨ (a ∈ p2 ∧ b ∈ p2) → link sg' a b) ∧
    (∀ a b, (a ∈ p1 ∧ b ∈ p2) ∨ (a ∈ p2 ∧ b ∈ p1) → ¬ link sg' a b).
Proof.
  intros Hok Hin Hdisj. destruct (Partition_spec p1 p2 sg Hok Hin Hdisj) as (sg' & H1 & _ & H2).
  by exists sg'.
Qed.

(** ** The partition that isolates a leader *)

Lemma go_set_replicate (os : list Z) n i :
  go_set (os ++ replicate (S n) 0) (len os) i = Some ((os ++ [i]) ++ replicate n 0).
Proof.
  rewrite go_set_ok by (rewrite length_app; simpl; lia).
  rewrite Nat2Z.id, insert_app_r_alt, Nat.sub_diag by lia. simpl. by rewrite <-app_assoc.
Qed.

(** The two parts, one after the other, are one array. *)
Lemma fillParts_spec l p1 p2 xs : ∀ n,
  p1 ++ p2 = replicate n 0 → (length (filter (λ i, i ≠ l) xs) <= n)%nat →
  ∃ p1' p2', fillParts l xs p1 p2 0 = Some (p1', p2', len (filter (λ i, i ≠ l) xs)) ∧
    length p1' = length p1 ∧ length p2' = length p2 ∧
    p1' ++ p2' = filter (λ i, i ≠ l) xs ++ replicate (n - length (filter (λ i, i ≠ l) xs)) 0.
Proof.
  intros n Hp. assert (n = length p1 + length p2)%nat as Hn
    by (rewrite <-length_app, Hp; by rewrite length_replicate).
  induction xs as [|i xs IH] using rev_ind; intros Hle.
  - exists p1, p2. rewrite list.filter_nil, Nat.sub_0_r. done.
  - rewrite list.filter_app in *. rewrite length_app in Hle.
    destruct IH as (q1 & q2 & Hr & Hq1 & Hq2 & Hq); [lia|].
    set (os := filter (λ i, i ≠ l) xs) in *. unfold fillParts in *. rewrite foldl_snoc, Hr. obind.
    destruct (decide (i ≠ l)) as [Hi|Hi].
    + rewrite filter_cons_True, list.filter_nil in * by done. simpl in Hle.
      assert (∃ m, n - length os = S m)%nat as [m Hm] by (exists (n - length os - 1)%nat; lia).
      rewrite Hm in Hq. pose proof (go_set_replicate os m i) as Hset. rewrite <-Hq in Hset.
      apply go_set_Some in Hset as [_ Hset].
      rewrite !length_app. simpl. replace (n - (length os + 1))%nat with m by lia.
      destruct (len os <? len q1) eqn:Hlt; bool_to_prop.
      * rewrite go_set_ok by lia. obind. eexists _, _. split; [by rewrite Nat2Z.inj_add|].
        rewrite length_insert. split_and!; [done|done|].
        rewrite Hset, insert_app_l by lia. done.
      * rewrite go_set_ok by lia. obind. eexists _, _. split; [by rewrite Nat2Z.inj_add|].
        rewrite length_insert. split_and!; [done|done|].
        rewrite Hset, insert_app_r_alt by lia. do 2 f_equal. lia.
    + rewrite filter_cons_False, list.filter_nil, app_nil_r in * by done. by exists q1, q2.
Qed.

(** MakePartition of an odd group of at least three splits it: the parts
    together are all the servers, each once, the first part is a majority, and
    the leader is the last of the second, the minority. *)
Theorem MakePartition_splits n l :
  Z.Odd n → 3 <= n → 0 <= l < n →
  ∃ p1 p2, MakePartition n l = Some (p1, p2) ∧ p1 ++ p2 ≡ₚ seqZ 0 n ∧
    len p1 = n / 2 + 1 ∧ list.last p2 = Some l.
Proof.
  intros [m ->] Hn Hl.
  assert ((2 * m + 1) / 2 = m) as Hhalf by (symmetry; apply Z.div_unique with 1; lia).
  unfold MakePartition. rewrite Hhalf.
  unfold go_make. rewrite !(proj2 (Z.leb_le _ _)) by lia. obind.
  assert (l ∈ seqZ 0 (2 * m + 1)) as Hin by (apply elem_of_seqZ; lia).
  pose proof (NoDup_seqZ 0 (2 * m + 1)) as Hnd.
  assert (seqZ 0 (2 * m + 1) ≡ₚ l :: filter (λ i, i ≠ l) (seqZ 0 (2 * m + 1))) as Hperm.
  { apply NoDup_Permutation; [done| |].
    - apply list.NoDup_cons. split; [by intros [? _]%list_elem_of_filter|by apply list.NoDup_filter].
    - intros x. rewrite elem_of_cons, list_elem_of_filter. destruct (decide (x = l)); naive_solver. }
  set (os := filter (λ i, i ≠ l) (seqZ 0 (2 * m + 1))) in *.
  assert (length os = Z.to_nat (2 * m)) as Hos.
  { apply Permutation_length in Hperm. rewrite length_seqZ in Hperm. simpl in Hperm. lia. }
  destruct (fillParts_spec l (replicate (Z.to_nat (m + 1)) 0) (replicate (Z.to_nat m) 0)
              (seqZ 0 (2 * m + 1)) (Z.to_nat (2 * m + 1))) as (p1 & p2 & Hr & H1 & H2 & Hp).
  { rewrite <-replicate_add. f_equal. lia. } { fold os. lia. }
  fold os in Hp, Hr. rewrite Hos in Hp.
  replace (Z.to_nat (2 * m + 1) - Z.to_nat (2 * m))%nat with 1%nat in Hp by lia.
  rewrite Hr. obind. rewrite length_replicate in H1, H2.
  rewrite go_set_ok by lia. obind. eexists _, _. split; [done|].
  destruct p2 as [|x p2 _] using rev_ind; [simpl in H2; lia|].
  rewrite app_assoc in Hp. apply app_inj_tail in Hp as [Hp ->].
  rewrite length_app in *. simpl in *.
  rewrite insert_app_r_alt by lia. replace (Z.to_nat _ - length p2)%nat with 0%nat by lia. simpl.
  split_and!; [|lia|by rewrite last_snoc].
  rewrite app_assoc, Hp, Hperm, Permutation_app_comm. done.
Qed.

(** ** Restarting a server *)

(** A request whose server object is no longer the one registered when the
    handler returns is not answered. *)
Lemma processReq_dead req rn0 ch evs rn1 name r :
  connections rn0 !! rq_endname req = Some (Some name) →
  (∀ server, f_handler (processReq req rn0 ch evs rn1) = Some server →
     servers rn1 !! name ≠ Some (Some server)) →
  f_reply (processReq req rn0 ch evs rn1) = Some r → rp_ok r = false.
Proof.
  unfold processReq, readEndnameInfo. intros Hc. rewrite Hc. simpl.
  destruct (default false (enabled rn0 !! rq_endname req)); [|by intros _ [= <-]].
  destruct (default None (servers rn0 !! name)) as [server|]; [|by intros _ [= <-]].
  destruct (_ && _); [by intros _ [= <-]|].
  destruct (waitLoop _ _ _ _) as [[r'|]|]; [|by intros _ [= <-]|done].
  destruct (isServerDead _ _ _ _) eqn:Hd; [by intros _ [= <-]|].
  apply isServerDead_alive in Hd as [_ Hs].
  destruct (_ && _); [by intros _ [= <-]|]. intros H. by destruct (H server eq_refl).
Qed.

Lemma makeEnds_spec gid names : ∀ j net net',
  makeEnds gid j names net = Some net' →
  NoDup names ∧ ends net' = list_to_set names ∪ ends net ∧
  (∀ e, e ∈ names → e ∉ ends net ∧ enabled net' !! e = Some false) ∧
  (∀ e, e ∈ ends net → enabled net' !! e = enabled net !! e).
Proof.
  induction names as [|name names IH]; intros j net net'; simpl.
  - intros [= <-]. split_and!; [constructor|set_solver| |done]. intros e He. by apply elem_of_nil in He.
  - unfold MakeEnd. case_decide as Hn; [done|]. intros H%IH. simpl in H. destruct H as (H0 & H1 & H2 & H3).
    split_and!.
    + apply list.NoDup_cons. split; [|done]. intros [Hnot _]%H2. apply Hnot. set_solver.
    + rewrite H1. set_solver.
    + intros e [->|He]%elem_of_cons; [|set_solver]. split; [done|].
      rewrite (H3 name) by set_solver. apply lookup_insert_eq.
    + intros e He. rewrite (H3 e) by set_solver. rewrite lookup_insert_ne; [done|]. by intros ->.
Qed.

(** ** A new group *)

Lemma concat_distinct {A} (ls : list (list A)) : ∀ (a b a' b' : nat) l l' e,
  NoDup (concat ls) → ls !! a = Some l → l !! b = Some e → ls !! a' = Some l' → l' !! b' = Some e →
  a = a' ∧ b = b'.
Proof.
  induction ls as [|l0 ls IH]; intros a b a' b' l l' e Hnd Ha Hb Ha' Hb'; [done|]. simpl in Hnd.
  apply list.NoDup_app in Hnd as (Hnd0 & Hdis & Hnd).
  assert (∀ k m, ls !! k = Some m → e ∈ m → e ∈ concat ls) as Hcat.
  { intros k m Hk Hm. apply list_elem_of_In, in_concat. exists m. split; apply list_elem_of_In; [|done].
    by eapply list_elem_of_lookup_2. }
  destruct a as [|a], a' as [|a']; simpl in *.
  - injection Ha as <-. injection Ha' as <-. split; [done|]. exact (NoDup_lookup l0 b b' e Hnd0 Hb Hb').
  - simplify_eq. destruct (Hdis e); [by eapply list_elem_of_lookup_2|].
    eapply Hcat; [done|by eapply list_elem_of_lookup_2].
  - simplify_eq. destruct (Hdis e); [by eapply list_elem_of_lookup_2|].
    eapply Hcat; [done|by eapply list_elem_of_lookup_2].
  - destruct (IH a b a' b' l l' e) as [-> ->]; done.
Qed.

(** The loop of [makeSrvGrp]. *)
Lemma makeServers_spec gid names : ∀ net net' srvs,
  foldl (λ acc ns, '(net, srvs) ← acc; '(net, s) ← makeServer gid ns net;
           Some (net, srvs ++ [s])) (Some (net, [])) names = Some (net', srvs) →
  endNames <$> srvs = names ∧ NoDup (concat names) ∧ list_to_set (concat names) ⊆ ends net'.
Proof.
  induction names as [|ns names IH] using rev_ind; intros net net' srvs H.
  - injection H as <- <-. split_and!; [done|constructor|set_solver].
  - rewrite foldl_snoc in H. apply bind_Some in H as ([net1 srvs1] & H1 & H).
    destruct (IH _ _ _ H1) as (Hn & Hnd & Hin). cbn in H. unfold makeServer in H.
    destruct (makeEnds gid 0 ns net1) as [net2|] eqn:Hm; [|done]. cbn in H. injection H as <- <-.
    destruct (makeEnds_spec _ _ _ _ _ Hm) as (Hnd' & He & Hfresh & _).
    rewrite fmap_app, Hn, concat_app. cbn [concat fmap list_fmap endNames]. rewrite app_nil_r.
    split_and!; [done| |rewrite He; set_solver].
    apply list.NoDup_app. split_and!; [done| |done]. intros x Hx [Hx' _]%Hfresh. set_solver.
Qed.

Lemma makeSrvGrp_ok gid names net sg :
  makeSrvGrp gid names net = Some sg → (∀ ns, ns ∈ names → length ns = length names) → grp_ok sg.
Proof.
  intros H Hlen. unfold makeSrvGrp in H. apply bind_Some in H as ([net' srvs] & H & [= <-]).
  destruct (makeServers_spec _ _ _ _ _ H) as (Hn & Hnd & _).
  assert (length srvs = length names) as Hl by (by rewrite <-Hn, length_fmap).
  assert (∀ (a : nat) s, srvs !! a = Some s → names !! a = Some (endNames s)) as Hsrv
    by (intros a s Hs; by rewrite <-Hn, list_lookup_fmap, Hs).
  constructor; unfold in_group, endName; simpl.
  - by rewrite length_replicate.
  - intros a b Ha Hb. destruct (proj2 (go_nth_is_Some srvs a) Ha) as [s Hs]. rewrite Hs. cbn.
    apply go_nth_is_Some. unfold go_nth in Hs. destruct (0 <=? a); [|done].
    rewrite (Hlen (endNames s)); [lia|]. by eapply list_elem_of_lookup_2, Hsrv.
  - intros a b a' b' e (s & Hs & He)%bind_Some (s' & Hs' & He')%bind_Some.
    unfold go_nth in *. destruct (0 <=? a) eqn:?, (0 <=? b) eqn:?, (0 <=? a') eqn:?, (0 <=? b') eqn:?; try done.
    destruct (concat_distinct names (Z.to_nat a) (Z.to_nat b) (Z.to_nat a') (Z.to_nat b')
                (endNames s) (endNames s') e); [done|by apply Hsrv|done|by apply Hsrv|done|]. lia.
Qed.

Lemma go_nth_insert_eq {A} (l : list A) i x :
  0 <= i < len l → go_nth (<[Z.to_nat i := x]> l) i = Some x.
Proof.
  intros Hi. unfold go_nth. rewrite (proj2 (Z.leb_le _ _)) by lia.
  apply list_lookup_insert_eq. lia.
Qed.

Lemma ShutdownServer_spec i s sg sg1 :
  go_nth (sg_srvs sg) i = Some s → ShutdownServer i sg = Some sg1 →
  sg_gid sg1 = sg_gid sg ∧ go_nth (sg_srvs sg1) i = Some (shutdownServer s) ∧
  servers (sg_net sg1) !! ServerName (sg_gid sg) i = Some None.
Proof.
  intros Hs H. unfold ShutdownServer in H. apply bind_Some in H as (sgd & Hd & H).
  assert (sg_gid sgd = sg_gid sg ∧ sg_srvs sgd = sg_srvs sg) as [Hg Hsd].
  { unfold disconnect in Hd. repeat (apply bind_Some in Hd as (? & _ & Hd)). by injection Hd as <-. }
  cbv zeta in H. simpl in H. rewrite Hsd, Hs in H. cbn [mbind option_bind] in H.
  pose proof (go_nth_Some _ _ _ Hs) as Hi. rewrite go_set_ok in H by done. injection H as <-. simpl.
  split_and!; [done|by apply go_nth_insert_eq|]. rewrite Hg. apply lookup_insert_eq.
Qed.

Lemma StartServer_spec i names rs s sg sg' :
  go_nth (sg_srvs sg) i = Some s → StartServer i names rs sg = Some sg' →
  go_nth (sg_srvs sg') i = Some (mkSrv (Some (default MakePersister (saved s))) true names) ∧
  servers (sg_net sg') !! ServerName (sg_gid sg) i = Some (Some rs) ∧
  (∀ e, e ∈ names → enabled (sg_net sg') !! e = Some false ∧ e ∉ ends (sg_net sg)).
Proof.
  intros Hs H. unfold StartServer in H. rewrite Hs in H. cbn [mbind option_bind] in H.
  unfold startServer, makeServer in H.
  destruct (makeEnds (sg_gid sg) 0 names (sg_net sg)) as [net|] eqn:Hm; [|done].
  cbn [mbind option_bind] in H. simpl in H.
  pose proof (go_nth_Some _ _ _ Hs) as Hi. rewrite go_set_ok in H by done. injection H as <-. simpl.
  destruct (makeEnds_spec _ _ _ _ _ Hm) as (_ & _ & H1 & _). split_and!.
  - rewrite go_nth_insert_eq by done. destruct (saved s) as [[]|]; done.
  - apply lookup_insert_eq.
  - intros e [He1 He2]%H1. done.
Qed.

(** A restart loses no persisted state and lets no old reply through: the
    new instance starts from the bytes the old one saved last; its ends are new
    and disabled; and a request that the old instance was still handling, or
    handles after the restart, is never answered successfully. *)
Theorem restart_preserves i names rs s sg sg1 sg2 :
  go_nth (sg_srvs sg) i = Some s →
  ShutdownServer i sg = Some sg1 → StartServer i names rs sg1 = Some sg2 →
  (∃ s2, go_nth (sg_srvs sg2) i = Some s2 ∧ running s2 = true ∧ endNames s2 = names ∧
     saved s2 = Some (default MakePersister (saved s))) ∧
  (∀ e, e ∈ names → enabled (sg_net sg2) !! e = Some false ∧ e ∉ ends (sg_net sg1)) ∧
  (∀ sg' req rn0 ch evs r, sg' = sg1 ∨ sg' = sg2 →
     let fate := processReq req rn0 ch evs (sg_net sg') in
     connections rn0 !! rq_endname req = Some (Some (ServerName (sg_gid sg) i)) →
     f_handler fate ≠ Some rs → f_reply fate = Some r → rp_ok r = false).
Proof.
  intros Hs Hd Hst.
  destruct (ShutdownServer_spec _ _ _ _ Hs Hd) as (Hg1 & Hs1 & Hn1).
  destruct (StartServer_spec _ _ _ _ _ _ Hs1 Hst) as (Hs2 & Hn2 & He). rewrite Hg1 in Hn2.
  split_and!; [|done|].
  - eexists. split; [done|]. simpl. destruct (saved s) as [[]|]; done.
  - intros sg' req rn0 ch evs r Hsg fate Hc Hh Hr.
    eapply processReq_dead; [done| |exact Hr].
    intros server Hf Hss. destruct Hsg as [->| ->]; [congruence|]. unfold fate in Hh. congruence.
Qed.

End Links.

(** ** Clients *)

Section Clients.
Implicit Types (clnt : Clnt) (net : Network).

(** The ends of a client have distinct names. *)
Definition clnt_ok (clnt : Clnt) : Prop :=
  ∀ srv srv' e, clnt_ends clnt !! srv = Some e → clnt_ends clnt !! srv' = Some e → srv = srv'.

Lemma enableEnds_all (which : string → bool) en (m : gmap string string) net :
  (∀ srv srv' e, m !! srv = Some e → m !! srv' = Some e → srv = srv') →
  let net' := map_fold (λ srv e net, if which srv then Enable e en net else net) net m in
  (∀ srv e, m !! srv = Some e →
     enabled net' !! e = if which srv then Some en else enabled net !! e) ∧
  (∀ e, (∀ srv, m !! srv ≠ Some e) → enabled net' !! e = enabled net !! e).
Proof.
  apply (map_fold_weak_ind (λ (net' : Network) (m : gmap string string),
    (∀ srv srv' e, m !! srv = Some e → m !! srv' = Some e → srv = srv') →
    (∀ srv e, m !! srv = Some e →
       enabled net' !! e = if which srv then Some en else enabled net !! e) ∧
    (∀ e, (∀ srv, m !! srv ≠ Some e) → enabled net' !! e = enabled net !! e))).
  - intros _. split; [|done]. intros srv e H. by rewrite lookup_empty in H.
  - intros x ex m' r Hx IH Hinj.
    assert (∀ srv, m' !! srv ≠ Some ex) as Hex.
    { intros srv Hs. assert (x ≠ srv) as Hne by congruence. apply Hne.
      apply (Hinj x srv ex); [apply lookup_insert_eq|by rewrite lookup_insert_ne]. }
    destruct IH as [IH1 IH2].
    { intros srv srv' e H1 H2. apply (Hinj srv srv' e); rewrite lookup_insert_ne; congruence. }
    split.
    + intros srv e [[<- <-]|[Hne Hs]]%lookup_insert_Some.
      * destruct (which x); [apply lookup_insert_eq|by apply IH2].
      * rewrite <-(IH1 srv e Hs). destruct (which x); [|done]. simpl.
        rewrite lookup_insert_ne; [done|]. intros ->. by eapply Hex.
    + intros e He. assert (ex ≠ e) as Hne by (intros ->; apply (He x); apply lookup_insert_eq).
      rewrite <-(IH2 e).
      * destruct (which x); [|done]. by apply lookup_insert_ne.
      * intros srv Hs. apply (He srv). rewrite lookup_insert_ne; [done|]. congruence.
Qed.

(** A client that is disconnected and then connected to some servers can
    reach exactly those: its ends to them are enabled, its other ends disabled,
    and an end it makes later is enabled only for one of them. *)
Theorem ConnectTo_exact srvs clnt net :
  clnt_ok clnt →
  let '(clnt1, net1) := Clnt_DisconnectAll clnt net in
  let '(clnt2, net2) := ConnectTo srvs clnt1 net1 in
  (∀ srv e, clnt_ends clnt !! srv = Some e →
     enabled net2 !! e = Some (bool_decide (srv ∈ srvs))) ∧
  (∀ srv name clnt3 net3 e, clnt_ends clnt !! srv = None →
     Clnt_makeEnd srv name clnt2 net2 = Some (clnt3, net3, e) →
     enabled net3 !! e = Some (bool_decide (srv ∈ srvs)) ∧ clnt_ends clnt3 !! srv = Some e).
Proof.
  intros Hok. cbn. unfold enableEnds. cbn. split.
  - intros srv e Hs.
    destruct (enableEnds_all (λ _, true) false (clnt_ends clnt) net Hok) as [H1 _]. cbv zeta in H1.
    set (net1 := map_fold _ net (clnt_ends clnt)) in *.
    destruct (enableEnds_all (λ srv, allowedL srv (mkClnt (clnt_ends clnt) (Some srvs))) true
      (clnt_ends clnt) net1 Hok) as [H2 _]. cbv zeta in H2.
    etrans; [exact (H2 srv e Hs)|]. rewrite (H1 srv e Hs). unfold allowedL. simpl. by destruct (bool_decide _).
  - intros srv name clnt3 net3 e Hs. unfold Clnt_makeEnd. cbn. rewrite Hs.
    unfold MakeEnd. case_decide; [done|]. intros [= <- <- <-]. simpl. by rewrite !lookup_insert_eq.
Qed.

(** Without the disconnection, the ends to servers that are not in the list stay
    as they are. *)
Lemma ConnectTo_keeps_others :
  ∃ clnt net, clnt_ok clnt ∧ clnt_ends clnt !! "a" = Some "e" ∧
    allowedL "a" (ConnectTo ["b"] clnt net).1 = false ∧
    enabled (ConnectTo ["b"] clnt net).2 !! "e" = Some true.
Proof.
  exists (mkClnt {["a" := "e"]} None), (Enable "e" true MakeNetwork). split; [|by vm_compute].
  intros srv srv' e H H'. simpl in *. apply lookup_singleton_Some in H as [<- _], H' as [<- _]. done.
Qed.

End Clients.

(** ** Instances *)

(** A group of three servers on a fresh network. *)
Definition three : ServerGrp :=
  default (mkServerGrp MakeNetwork [] [] 0 [])
    (makeSrvGrp 1 [["a0"; "a1"; "a2"]; ["b0"; "b1"; "b2"]; ["c0"; "c1"; "c2"]] MakeNetwork).

Lemma three_in_group i : in_group three i ↔ i = 0 ∨ i = 1 ∨ i = 2.
Proof.
  unfold in_group. assert (length (sg_srvs three) = 3%nat) as -> by by vm_compute. lia.
Qed.

Lemma three_ok : grp_ok three.
Proof.
  apply (makeSrvGrp_ok 1 [["a0"; "a1"; "a2"]; ["b0"; "b1"; "b2"]; ["c0"; "c1"; "c2"]] MakeNetwork);
    [by vm_compute|set_solver].
Qed.

Lemma Partition_isolates_witness :
  ∃ sg', Partition [0; 2] [1] three = Some sg' ∧ link sg' 0 2 ∧ ¬ link sg' 0 1.
Proof.
  destruct (Partition_isolates [0; 2] [1] three three_ok) as (sg' & H & _ & Hin & Hout).
  - intros j Hj. apply three_in_group. set_solver.
  - set_solver.
  - exists sg'. split; [exact H|]. split; [apply Hin|apply Hout]; left; split; repeat constructor.
Defined.

Lemma MakePartition_splits_witness :
  ∃ p1 p2, MakePartition 5 3 = Some (p1, p2) ∧ list.last p2 = Some 3.
Proof.
  destruct (MakePartition_splits 5 3) as (p1 & p2 & H & _ & _ & Hl); [by exists 2|lia|lia|].
  by exists p1, p2.
Defined.

(** With an even number of servers the parts have one place too many: the
    second part keeps its initial 0, a server of the first part. *)
Example MakePartition_even : MakePartition 4 3 = Some ([0; 1; 2], [0; 3]).
Proof. reflexivity. Qed.

Definition names' : list string := ["d0"; "d1"; "d2"].

Definition stopped : ServerGrp := default three (ShutdownServer 1 three).
Definition restarted : ServerGrp := default three (StartServer 1 names' 7 stopped).

Lemma restart_preserves_witness :
  ShutdownServer 1 three = Some stopped ∧ StartServer 1 names' 7 stopped = Some restarted ∧
  ∃ s2, go_nth (sg_srvs restarted) 1 = Some s2 ∧ saved s2 = Some MakePersister.
Proof.
  assert (ShutdownServer 1 three = Some stopped) as H1 by (vm_compute; reflexivity).
  assert (StartServer 1 names' 7 stopped = Some restarted) as H2 by (vm_compute; reflexivity).
  split; [exact H1|]. split; [exact H2|].
  destruct (restart_preserves 1 names' 7 (mkSrv None false ["b0"; "b1"; "b2"]) three stopped restarted)
    as ((s2 & Hs & _ & _ & Hp) & _ & _); [vm_compute; reflexivity|exact H1|exact H2|].
  exists s2. split; [exact Hs|exact Hp].
Defined.
