(* ===== verification/ClerkNet.v ===== *)
(** * The clerk of kvsrv1 over the simulated network

    Joins the clerk of src/6.5840/src/kvsrv1/client.go with the layers below it:
    [Clnt.Call] of src/6.5840/src/tester1/clnts.go, the calls of RpcCall.v, the
    network of LabRpc.v and the service that [MakeService] makes of the server.
    KVSrv.v drives the retry loops by a schedule of lost requests and replies; here
    the loops make calls that encode, travel, are dispatched and decoded, while
    the tester changes the network and other clients are served, and the theorems
    give the schedule that explains what happened.

    A handler runs in a goroutine of its own, which outlives the call when the
    network finds the server dead and stops waiting: the requests of such handlers
    are kept ([w_stalled]), and any of them may run at any later moment, during
    later attempts of the clerk or after it has returned.  One server object is on
    the network; a request that the network takes to another object is not run. *)

From S2P Require Import Prelude Gob KVRpc KVSrv LabRpc RpcCall Tester.

(** What happens around a call: the network polls whether the server is dead; the
    handler of this call gets the server's lock, or the one of an earlier call that
    was given up, or a Put of another client; or the tester changes the network.
    Requests that earlier Puts of the same clerk left behind count as those of
    other clients. *)
Inductive NetEvent :=
| NPoll
| NHandler
| NStalled (k : nat)
| NOther (p : PutArgs)
| NNetwork (rn : Network).

(** One call of [ck.clnt.Call]: the name that [Randstring] draws for a new end,
    whether the request is sent before the network is cleaned up, what happens
    before the network looks at it and while the caller waits, and the random
    choices of the network. *)
Record Attempt := mkAttempt {
  at_name : string;
  at_sent : bool;
  at_before : list NetEvent;
  at_wait : list NetEvent;
  at_chance : Chance
}.

(** What the server has executed, for whom, and the store before and after: for
    another client, for a call while the network waited, or for one that had been
    given up.  This is for the theorems; the code keeps no such list. *)
Inductive Who := ByOther | ByCall | ByStalled.

#[export] Instance Who_eq_dec : EqDecision Who.
Proof. solve_decision. Defined.

Record Run := mkRun { run_by : Who; run_from : KVServer; run_to : KVServer }.

Record World := mkWorld {
  w_net : Network;
  w_clnt : Clnt;
  w_obj : Server KVServer;
  w_kv : KVServer;
  w_stalled : list reqMsg;
  w_runs : list Run
}.

Definition set_w_net (net : Network) (w : World) : World :=
  mkWorld net (w_clnt w) (w_obj w) (w_kv w) (w_stalled w) (w_runs w).
Definition set_w_stalled (l : list reqMsg) (w : World) : World :=
  mkWorld (w_net w) (w_clnt w) (w_obj w) (w_kv w) l (w_runs w).

(** The server has executed something. *)
Definition ran (by_ : Who) (rs : Server KVServer) (kv : KVServer) (w : World) : World :=
  mkWorld (w_net w) (w_clnt w) rs kv (w_stalled w) (w_runs w ++ [mkRun by_ (w_kv w) kv]).

Section ClerkNet.
Context `{!Gob KVMsg, !GobRegistered KVMsg} (partial : list byte → KVMsg).

(** The service of [StartKVServer], as startServer of srv.go adds it. *)
Definition kvsrv_service : Service KVServer :=
  MakeService partial "KVServer" [get_method; kill_method; put_method].

(** [obj] is the number of the server object, [server] its name. *)
Context (obj : nat) (server : string).

(** The goroutine of a handler; [None] is [log.Fatalf]. *)
Definition run_handler (by_ : Who) (req : reqMsg) (w : World) : option World :=
  '(rs, kv, _) ← Server_dispatch req (w_obj w) (w_kv w); Some (ran by_ rs kv w).

(** What does not concern the call that is under way. *)
Definition world_event (ev : NetEvent) (w : World) : option World :=
  match ev with
  | NPoll | NHandler => Some w
  | NStalled k =>
      match w_stalled w !! k with
      | None => Some w
      | Some req => run_handler ByStalled req (set_w_stalled (delete k (w_stalled w)) w)
      end
  | NOther p => Some (ran ByOther (w_obj w) (KVServer_Put p (w_kv w)).1 w)
  | NNetwork rn => Some (set_w_net rn w)
  end.

(** [run]: the handler of the request [req] is started and has not run yet; it is
    returned whether this is so in the end, with the events as the network of
    LabRpc.v sees them. *)
Fixpoint run_wait (req : reqMsg) (run : bool) (evs : list NetEvent) (w : World) :
    option (World * bool * list (CallEvent (St := KVServer))) :=
  match evs with
  | [] => Some (w, run, [])
  | ev :: evs =>
      match ev with
      | NPoll =>
          '(w', pend, cevs) ← run_wait req run evs w; Some (w', pend, CPoll (w_net w) :: cevs)
      | NHandler =>
          if run then
            w1 ← run_handler ByCall req w;
            '(w', pend, cevs) ← run_wait req false evs w1;
            Some (w', pend, CRun (λ _, (w_obj w, w_kv w)) :: cevs)
          else run_wait req run evs w
      | _ => w1 ← world_event ev w; run_wait req run evs w1
      end
  end.

(** After the clerk has returned. *)
Definition run_later (evs : list NetEvent) (w : World) : option World :=
  foldl (λ ow ev, w ← ow; world_event ev w) (Some w) evs.

(** [Clnt.Call].  [None] is a crash of the program; a call may be left waiting
    when the events end.  A handler that has not run yet goes on without it. *)
Definition Clnt_Call (method : string) (args : KVMsg) (att : Attempt) (w : World) :
    option (World * option (CallResult (V := KVMsg))) :=
  '(clnt, net, e) ← Clnt_makeEnd server (at_name att) (w_clnt w) (w_net w);
  let w := mkWorld net clnt (w_obj w) (w_kv w) (w_stalled w) (w_runs w) in
  req ← Call_request e method args;
  if negb (at_sent att) then
    res ← RpcCall.Call (St := KVServer) e method args false net (at_chance att) [] net;
    Some (w, res)
  else
    '(w, _, _) ← run_wait req false (at_before att) (set_w_net (countRequest req net) w);
    let net := w_net w in
    let run := bool_decide (started req net (at_chance att) = Some obj) in
    '(w, pend, evs) ← run_wait req run (at_wait att) w;
    res ← RpcCall.Call e method args true net (at_chance att) evs (w_net w);
    Some (if (pend : bool) then set_w_stalled (req :: w_stalled w) w else w, res).

(** The loops of [Clerk.Put] and [Clerk.Get]; [atts] are the calls they make, and
    there is no result while they are still trying. *)
Fixpoint Net_Put_loop (first : bool) (args : PutArgs) (atts : list Attempt) (w : World) :
    option (World * option Err) :=
  match atts with
  | [] => Some (w, None)
  | att :: atts =>
      '(w, res) ← Clnt_Call "KVServer.Put" (MPutArgs args) att w;
      match res with
      | None => Some (w, None)
      | Some NoReply => Net_Put_loop false args atts w
      | Some (Answer (MPutReply reply)) => Some (w, Some (putResult first (pr_Err reply)))
      | Some (Answer _) => None
      end
  end.

Definition Net_Put (key value : string) (version : Tversion) (atts : list Attempt) (w : World) :
    option (World * option Err) :=
  Net_Put_loop true (mkPutArgs key value version) atts w.

Fixpoint Net_Get (key : string) (atts : list Attempt) (w : World) :
    option (World * option (string * Tversion * Err)) :=
  match atts with
  | [] => Some (w, None)
  | att :: atts =>
      '(w, res) ← Clnt_Call "KVServer.Get" (MGetArgs (mkGetArgs key)) att w;
      match res with
      | None => Some (w, None)
      | Some NoReply => Net_Get key atts w
      | Some (Answer (MGetReply reply)) =>
          Some (w, Some (gr_Value reply, gr_Version reply, gr_Err reply))
      | Some (Answer _) => None
      end
  end.

(** ** What the server executes *)

(** The state after Puts of other clients. *)
Definition others (ps : list PutArgs) (kv : KVServer) : KVServer := (serve_others ps kv).1.

Lemma others_cons p ps kv : others (p :: ps) kv = others ps (KVServer_Put p kv).1.
Proof.
  unfold others, serve. simpl. unfold serve. destruct (KVServer_Put p kv) as [kv1 r]. simpl.
  by destruct (serve_others ps kv1).
Qed.

Lemma others_app ps qs : ∀ kv, others (ps ++ qs) kv = others qs (others ps kv).
Proof. induction ps as [|p ps IH]; intros kv; [done|]. simpl. by rewrite !others_cons, IH. Qed.

(** Each run begins where the last one ended; the store in the end. *)
Fixpoint path (kv : KVServer) (runs : list Run) : Prop :=
  match runs with [] => True | r :: runs => run_from r = kv ∧ path (run_to r) runs end.

Fixpoint end_of (kv : KVServer) (runs : list Run) : KVServer :=
  match runs with [] => kv | r :: runs => end_of (run_to r) runs end.

Lemma end_of_app runs runs' : ∀ kv, end_of kv (runs ++ runs') = end_of (end_of kv runs) runs'.
Proof. induction runs; simpl; auto. Qed.

Lemma path_app runs runs' : ∀ kv, path kv (runs ++ runs') ↔ path kv runs ∧ path (end_of kv runs) runs'.
Proof. induction runs as [|r runs IH]; intros kv; simpl; [tauto|]. rewrite IH. tauto. Qed.

(** The clerk calls the method [m] with [args], the other clients call Put. *)
Definition run_ok (m : Method KVMsg KVServer) (args : KVMsg) (r : Run) : Prop :=
  match run_by r with
  | ByOther => ∃ p, run_to r = (KVServer_Put p (run_from r)).1
  | _ => run_to r = (mt_call m args (run_from r)).1
  end.

Definition own_request (m : Method KVMsg KVServer) (args : KVMsg) (req : reqMsg) : Prop :=
  ∃ e enc, req = mkReqMsg e ("KVServer" +:+ String dot (mt_name m)) (enc_bytes enc) ∧ written enc = [args].

(** From [w] to [w'] the server made the [runs]. *)
Record follows (m : Method KVMsg KVServer) (args : KVMsg) (w w' : World) (runs : list Run) : Prop := {
  fo_runs : w_runs w' = w_runs w ++ runs;
  fo_path : path (w_kv w) runs;
  fo_kv : w_kv w' = end_of (w_kv w) runs;
  fo_ok : Forall (run_ok m args) runs;
  fo_stalled : Forall (own_request m args) (w_stalled w');
  fo_obj : services (w_obj w') !! "KVServer" = Some kvsrv_service
}.

Lemma follows_refl m args w :
  Forall (own_request m args) (w_stalled w) → services (w_obj w) !! "KVServer" = Some kvsrv_service →
  follows m args w w [].
Proof. split; try done. by rewrite app_nil_r. Qed.

Lemma follows_trans m args w1 w2 w3 runs runs' :
  follows m args w1 w2 runs → follows m args w2 w3 runs' → follows m args w1 w3 (runs ++ runs').
Proof.
  intros [H1 H2 H3 H4 _ _] [G1 G2 G3 G4 G5 G6]. rewrite H3 in G2, G3. split; [..|done|done].
  - by rewrite G1, H1, app_assoc.
  - by apply path_app.
  - by rewrite end_of_app.
  - by apply Forall_app.
Qed.

(** The server runs the service, and the client has its end or can make it. *)
Definition w_ready (w : World) : Prop :=
  services (w_obj w) !! "KVServer" = Some kvsrv_service ∧
  is_Some (clnt_ends (w_clnt w) !! server).

Definition startable (atts : list Attempt) (w : World) : Prop :=
  services (w_obj w) !! "KVServer" = Some kvsrv_service ∧
  (is_Some (clnt_ends (w_clnt w) !! server) ∨
   match atts with [] => True | att :: _ => at_name att ∉ ends (w_net w) end).

Lemma ready_startable atts w : w_ready w → startable atts w.
Proof. intros [Hs He]. split; [done|]. by left. Qed.

(** What a method of the server is, seen from a client. *)
Record kv_method (m : Method KVMsg KVServer) : Prop := {
  km_in : m ∈ [get_method; kill_method; put_method];
  km_suitable : suitable m = true;
  km_no_dot : no_dot (mt_name m) = true
}.

Lemma put_kv_method : kv_method put_method.
Proof. split; [set_solver|done|done]. Qed.
Lemma get_kv_method : kv_method get_method.
Proof. split; [set_solver|done|done]. Qed.

Lemma kvsrv_offers rn0 e m evs :
  kv_method m →
  (∀ objs n, CRun objs ∈ evs → services (objs n).1 !! "KVServer" = Some kvsrv_service) →
  offers partial rn0 e "KVServer" m evs.
Proof.
  intros [Hin _ _] Hs n objs _ Hrun. exists [get_method; kill_method; put_method].
  split; [by apply (Hs objs n)|]. split; [|done]. apply (bool_decide_unpack _). reflexivity.
Qed.

Lemma run_handler_ok m args by_ req w :
  kv_method m → own_request m args req → by_ ≠ ByOther →
  Forall (own_request m args) (w_stalled w) → services (w_obj w) !! "KVServer" = Some kvsrv_service →
  ∃ w', run_handler by_ req w = Some w' ∧ w_stalled w' = w_stalled w ∧ w_clnt w' = w_clnt w ∧
    w_net w' = w_net w ∧ follows m args w w' [mkRun by_ (w_kv w) (mt_call m args (w_kv w)).1].
Proof.
  intros Hm (e & enc & -> & Hw) Hby Hst Hs.
  assert (base.NoDup (mt_name <$> [get_method; kill_method; put_method])) as Hnd
    by (apply (bool_decide_unpack _); reflexivity).
  pose proof (MakeService_found partial "KVServer" _ m Hnd (km_in m Hm) (km_suitable m Hm)) as Hf.
  unfold run_handler.
  rewrite (dispatch_found (mkReqMsg e _ (enc_bytes enc)) _ _ _ _ _ _ eq_refl (km_no_dot m Hm) Hs Hf).
  cbn [rq_args mbind option_bind]. rewrite (callMethod_decoded partial _ _ _ _ Hw). cbn [fst snd].
  eexists. split_and!; [done..|]. split; try done. repeat constructor. unfold run_ok. by destruct by_.
Qed.

Lemma world_event_ok m args ev w :
  kv_method m → Forall (own_request m args) (w_stalled w) →
  services (w_obj w) !! "KVServer" = Some kvsrv_service →
  ∃ w' runs, world_event ev w = Some w' ∧ follows m args w w' runs ∧ w_clnt w' = w_clnt w ∧
    Forall (λ r, run_by r ≠ ByCall) runs ∧ (length runs <= 1)%nat ∧
    (w_stalled w = [] → w_stalled w' = [] ∧ Forall (λ r, run_by r ≠ ByStalled) runs).
Proof.
  intros Hm Hst Hs. destruct ev as [| |k|p|rn]; simpl.
  - exists w, []. split_and!; try done; [by apply follows_refl|simpl; lia].
  - exists w, []. split_and!; try done; [by apply follows_refl|simpl; lia].
  - destruct (w_stalled w !! k) as [req|] eqn:Hk.
    2:{ exists w, []. split_and!; try done; [by apply follows_refl|simpl; lia]. }
    destruct (run_handler_ok m args ByStalled req (set_w_stalled (delete k (w_stalled w)) w))
      as (w' & -> & Hst' & Hc & _ & [F1 F2 F3 F4 F5 F6]); [done| |done| |done|].
    { by eapply list.Forall_forall, list_elem_of_lookup_2. }
    { simpl. by apply Forall_delete. }
    eexists w', _. split_and!; [done|by split|done|by repeat constructor|done|].
    intros H. by rewrite H in Hk.
  - exists (ran ByOther (w_obj w) (KVServer_Put p (w_kv w)).1 w), [mkRun ByOther (w_kv w) (KVServer_Put p (w_kv w)).1].
    split_and!; [done| |done|by repeat constructor|done|].
    + split; simpl; try done. constructor; [|done]. by exists p.
    + intros H. split; [done|]. by repeat constructor.
  - eexists _, []. split_and!; try done; [|simpl; lia]. split; simpl; try done. by rewrite app_nil_r.
Qed.

(** What [run_wait] did: runs before that of the handler, and that run with those
    after it. *)
Definition mid_runs (m : Method KVMsg KVServer) (args : KVMsg) (mid : option (KVServer * list Run)) :
    list Run :=
  match mid with
  | None => []
  | Some (st, after) => mkRun ByCall st (mt_call m args st).1 :: after
  end.

Record waited (m : Method KVMsg KVServer) (args : KVMsg) (run pend : bool) (evs : list NetEvent)
    (w w' : World) (cevs : list CallEvent) (before : list Run)
    (mid : option (KVServer * list Run)) : Prop := {
  wd_follows : follows m args w w' (before ++ mid_runs m args mid);
  wd_before : Forall (λ r, run_by r ≠ ByCall) before;
  wd_after st after : mid = Some (st, after) → Forall (λ r, run_by r ≠ ByCall) after;
  wd_len : (length (before ++ mid_runs m args mid) <= length evs)%nat;
  wd_run : match mid with None => pend = run | Some _ => run = true ∧ pend = false end;
  wd_seen objs : CRun objs ∈ cevs → ∃ st after, mid = Some (st, after) ∧
    ∀ n, (objs n).2 = st ∧ services (objs n).1 !! "KVServer" = Some kvsrv_service;
  wd_none : w_stalled w = [] → w_stalled w' = [] ∧
    Forall (λ r, run_by r ≠ ByStalled) (before ++ mid_runs m args mid);
  wd_clnt : w_clnt w' = w_clnt w
}.

(** An event that is not for the call, in front. *)
Lemma waited_event m args run pend ev evs w w1 w' cevs before mid runs :
  follows m args w w1 runs → w_clnt w1 = w_clnt w →
  Forall (λ r, run_by r ≠ ByCall) runs → (length runs <= 1)%nat →
  (w_stalled w = [] → w_stalled w1 = [] ∧ Forall (λ r, run_by r ≠ ByStalled) runs) →
  waited m args run pend evs w1 w' cevs before mid →
  waited m args run pend (ev :: evs) w w' cevs (runs ++ before) mid.
Proof.
  intros Hf Hc Hno Hlen Hnone [F B A L R S N C]. split; try done.
  - rewrite <-app_assoc. by eapply follows_trans.
  - by apply Forall_app.
  - rewrite <-app_assoc, length_app. simpl. lia.
  - intros [H1 ?]%Hnone. destruct (N H1). rewrite <-app_assoc, Forall_app. done.
  - by rewrite C.
Qed.

Lemma run_wait_ok m args req evs : ∀ run w,
  kv_method m → own_request m args req → Forall (own_request m args) (w_stalled w) →
  services (w_obj w) !! "KVServer" = Some kvsrv_service →
  ∃ w' pend cevs before mid,
    run_wait req run evs w = Some (w', pend, cevs) ∧
    waited m args run pend evs w w' cevs before mid.
Proof.
  intros run w Hm Hreq. revert run w.
  induction evs as [|ev evs IH]; intros run w Hst Hs; cbn [run_wait].
  { exists w, run, [], [], None. split; [done|]. split; try done; [by apply follows_refl|].
    intros objs ?%elem_of_nil. done. }
  assert (∃ w' pend cevs before mid,
    (w1 ← world_event ev w; run_wait req run evs w1) = Some (w', pend, cevs) ∧
    waited m args run pend (ev :: evs) w w' cevs before mid) as Hother.
  { destruct (world_event_ok m args ev w Hm Hst Hs) as (w1 & runs & -> & Hf & Hc & Hno & Hlen & Hnone).
    destruct (IH run w1 (fo_stalled _ _ _ _ _ Hf) (fo_obj _ _ _ _ _ Hf))
      as (w' & pend & cevs & before & mid & Hr & Hw).
    eexists w', pend, cevs, _, mid. split; [done|]. by eapply waited_event. }
  destruct ev as [| |k|p|rn]; [| |exact Hother..].
  - destruct (IH run w Hst Hs) as (w' & pend & cevs & before & mid & -> & Hw).
    apply (waited_event m args run pend NPoll _ w) with (runs := []) in Hw;
      [|by apply follows_refl|done..|simpl; lia|done].
    eexists w', pend, _, before, mid. split; [done|]. destruct Hw as [F B A L R S N C]. split; try done.
    intros objs [?|Hin]%elem_of_cons; [done|]. by apply S.
  - destruct run.
    + destruct (run_handler_ok m args ByCall req w Hm Hreq ltac:(done) Hst Hs)
        as (w1 & -> & Hst1 & Hc1 & _ & Hf1). cbn [mbind option_bind].
      destruct (IH false w1 (fo_stalled _ _ _ _ _ Hf1) (fo_obj _ _ _ _ _ Hf1))
        as (w' & pend & cevs & before & mid & -> & [F B A L R S N C]).
      assert (mid = None) as -> by (destruct mid as [[]|]; [by destruct R|done]).
      cbn [mid_runs] in *. rewrite app_nil_r in *.
      eexists w', pend, _, [], (Some (w_kv w, before)). split; [done|]. split; cbn [mid_runs app].
      * by apply (follows_trans m args w w1 w' [_]).
      * done.
      * by intros ? ? [= _ <-].
      * simpl. lia.
      * by rewrite R.
      * intros objs [[= ->]|Hin]%elem_of_cons; [by eauto|].
        by destruct (S objs Hin) as (? & ? & ? & _).
      * rewrite Hst1 in N. intros H. destruct (N H). split; [done|]. by constructor.
      * by rewrite C.
    + destruct (IH false w Hst Hs) as (w' & pend & cevs & before & mid & -> & Hw).
      apply (waited_event m args false pend NHandler _ w) with (runs := []) in Hw;
        [|by apply follows_refl|done..|simpl; lia|done].
      by exists w', pend, cevs, before, mid.
Qed.

Lemma run_later_ok m args evs : ∀ w,
  kv_method m → Forall (own_request m args) (w_stalled w) →
  services (w_obj w) !! "KVServer" = Some kvsrv_service →
  ∃ w' runs, run_later evs w = Some w' ∧ follows m args w w' runs ∧
    Forall (λ r, run_by r ≠ ByCall) runs ∧ (length runs <= length evs)%nat ∧
    (w_stalled w = [] → Forall (λ r, run_by r ≠ ByStalled) runs).
Proof.
  unfold run_later. induction evs as [|ev evs IH]; intros w Hm Hst Hs.
  { exists w, []. split_and!; try done. by apply follows_refl. }
  destruct (world_event_ok m args ev w Hm Hst Hs) as (w1 & runs & H & Hf & _ & Hno & Hlen & Hnone).
  cbn [foldl mbind option_bind]. rewrite H.
  destruct (IH w1 Hm (fo_stalled _ _ _ _ _ Hf) (fo_obj _ _ _ _ _ Hf)) as (w' & runs' & -> & Hf' & Hno' & Hlen' & Hnone').
  exists w', (runs ++ runs'). split_and!; [done|by eapply follows_trans|by apply Forall_app| |].
  - rewrite length_app. simpl. lia.
  - intros [H1 ?]%Hnone. apply Forall_app. auto.
Qed.

(** ** One call *)

Lemma makeEnd_ready name clnt net :
  is_Some (clnt_ends clnt !! server) ∨ name ∉ ends net →
  ∃ clnt' net' e, Clnt_makeEnd server name clnt net = Some (clnt', net', e) ∧
    clnt_ends clnt' !! server = Some e.
Proof.
  unfold Clnt_makeEnd, MakeEnd. intros H.
  destruct (clnt_ends clnt !! server) as [e|] eqn:He; [by exists clnt, net, e|].
  destruct H as [[? ?]|H]; [done|]. rewrite decide_False by done. simpl.
  eexists _, _, name. split; [done|]. simpl. apply lookup_insert_eq.
Qed.

(** A call never crashes the program; the server makes runs for others and at most
    one for the call, whose reply is what it may return. *)
Record called (m : Method KVMsg KVServer) (args : KVMsg) (att : Attempt) (w w' : World)
    (res : option (CallResult (V:=KVMsg))) (before : list Run) (mid : option (KVServer * list Run)) : Prop := {
  cl_follows : follows m args w w' (before ++ mid_runs m args mid);
  cl_before : Forall (λ r, run_by r ≠ ByCall) before;
  cl_after st after : mid = Some (st, after) → Forall (λ r, run_by r ≠ ByCall) after;
  cl_len : (length (before ++ mid_runs m args mid) <= length (at_before att ++ at_wait att))%nat;
  cl_answer v : res = Some (Answer v) →
    ∃ st after, mid = Some (st, after) ∧ v = (mt_call m args st).2;
  cl_none : w_stalled w = [] →
    Forall (λ r, run_by r ≠ ByStalled) (before ++ mid_runs m args mid) ∧
    (is_Some mid → w_stalled w' = []);
  cl_ready : w_ready w'
}.

Lemma Clnt_Call_ok m args att atts w :
  kv_method m → startable (att :: atts) w → Forall (own_request m args) (w_stalled w) →
  ∃ w' res before mid,
    Clnt_Call ("KVServer" +:+ String dot (mt_name m)) args att w = Some (w', res) ∧
    called m args att w w' res before mid.
Proof.
  intros Hm [Hs He] Hst. unfold Clnt_Call.
  destruct (makeEnd_ready (at_name att) (w_clnt w) (w_net w) He) as (clnt & net & e & -> & Hc).
  cbn [mbind option_bind].
  destruct (Call_request_ok e ("KVServer" +:+ String dot (mt_name m)) args)
    as (enc & -> & Hw).
  cbn [mbind option_bind]. set (req := mkReqMsg _ _ _).
  assert (own_request m args req) as Hreq by (by exists e, enc).
  destruct (at_sent att); cbn [negb].
  - set (w0 := set_w_net _ _).
    destruct (run_wait_ok m args req (at_before att) false w0 Hm Hreq Hst Hs)
      as (w1 & pend1 & cevs1 & before1 & mid1 & -> & [F1 B1 A1 L1 R1 _ N1 C1]).
    assert (mid1 = None) as -> by (destruct mid1 as [[]|]; [by destruct R1|done]).
    cbn [mid_runs mbind option_bind] in *. rewrite app_nil_r in *.
    destruct (run_wait_ok m args req (at_wait att)
      (bool_decide (started req (w_net w1) (at_chance att) = Some obj)) w1 Hm Hreq
      (fo_stalled _ _ _ _ _ F1) (fo_obj _ _ _ _ _ F1))
      as (w2 & pend & cevs & before & mid & -> & [F B A L R S N C]).
    cbn [mbind option_bind].
    destruct (Call_result partial e "KVServer" m args true (w_net w1) (at_chance att) cevs (w_net w2))
      as (res & -> & Hres).
    { apply kvsrv_offers; [done|]. intros objs n Hin. by destruct (S objs Hin) as (? & ? & _ & Ho); apply Ho. }
    { apply Hm. }
    { apply Hm. }
    cbn [mbind option_bind]. eexists _, res, (before1 ++ before), mid. split; [done|].
    assert (follows m args w w2 ((before1 ++ before) ++ mid_runs m args mid)) as F2.
    { rewrite <-app_assoc. apply (follows_trans m args w w1 w2); [|done].
      destruct F1 as [G1 G2 G3 G4 G5 G6]. by split. }
    split; [| |done| | | |].
    + destruct pend; [|done]. destruct F2 as [G1 G2 G3 G4 G5 G6]. split; try done.
      simpl. by constructor.
    + by apply Forall_app.
    + rewrite <-app_assoc, !length_app in *. lia.
    + intros v Hv. destruct (Hres v Hv) as (_ & n & objs & _ & (polls & rest & ->) & ->).
      destruct (S objs) as (st & after & -> & Ho); [apply elem_of_app; right; apply list_elem_of_here|].
      exists st, after. split; [done|]. by destruct (Ho n) as [-> _].
    + intros Hnil. destruct (N1 Hnil) as [Hnil1 ?]. destruct (N Hnil1) as [Hnil2 ?]. split.
      * rewrite <-app_assoc, Forall_app. done.
      * intros [[st after] ->]. destruct R as [_ ->]. done.
    + split; [by destruct pend; apply F|]. exists e. destruct pend; simpl; by rewrite C, C1.
  - destruct (Call_result partial e "KVServer" m args false net (at_chance att) [] net)
      as (res & -> & Hres).
    { apply kvsrv_offers; [done|]. intros objs n ?%elem_of_nil. done. }
    { apply Hm. }
    { apply Hm. }
    cbn [mbind option_bind]. eexists _, res, [], None. split; [done|]. split; cbn [mid_runs app]; try done.
    + split; try done. simpl. by rewrite app_nil_r.
    + simpl. lia.
    + intros v Hv. by destruct (Hres v Hv) as [? _].
Qed.

(** ** What the runs of a Put do to the store *)

(** Runs that are Puts, of whoever, are Puts of others to a schedule. *)
Lemma runs_puts m args runs : ∀ kv,
  (∀ kv, ∃ ps, (mt_call m args kv).1 = others ps kv) →
  path kv runs → Forall (run_ok m args) runs → ∃ ps, end_of kv runs = others ps kv.
Proof.
  induction runs as [|r runs IH]; intros kv Hm Hp Hok; [by exists []|].
  destruct Hp as [<- Hp]. apply Forall_cons_1 in Hok as [Hr Hok].
  destruct (IH _ Hm Hp Hok) as [qs Hqs].
  assert (∃ ps, run_to r = others ps (run_from r)) as [ps Hps].
  { unfold run_ok in Hr. destruct (run_by r); [destruct Hr as [p ->]; by exists [p]; rewrite others_cons|
      rewrite Hr; apply Hm..]. }
  exists (ps ++ qs). cbn [end_of]. by rewrite Hqs, others_app, Hps.
Qed.

Lemma put_call args kv :
  mt_call put_method (MPutArgs args) kv = ((KVServer_Put args kv).1, MPutReply (KVServer_Put args kv).2).
Proof. simpl. by destruct (KVServer_Put args kv). Qed.

Lemma put_call_puts args kv : ∃ ps, (mt_call put_method (MPutArgs args) kv).1 = others ps kv.
Proof. exists [args]. by rewrite put_call, others_cons. Qed.

(** The server performed the clerk's request in this run. *)
Definition own_performed (args : PutArgs) (r : Run) : bool :=
  bool_decide (run_by r ≠ ByOther ∧ pr_Err (KVServer_Put args (run_from r)).2 = OK).

Definition performed_runs (args : PutArgs) (runs : list Run) : list Run :=
  base.filter (λ r, own_performed args r = true) runs.

Abbreviation put_run args := (run_ok put_method (MPutArgs args)).

Lemma put_run_step args r :
  put_run args r → wf_server (run_from r) →
  wf_server (run_to r) ∧
  (∀ k, is_Some (store (run_from r) !! k) → is_Some (store (run_to r) !! k)) ∧
  (∀ k, version (run_from r) k + 1 < 2 ^ 64 →
    version (run_from r) k <= version (run_to r) k <= version (run_from r) k + 1) ∧
  (own_performed args r = true →
    version (run_from r) (put_Key args) = put_Version args ∧
    version (run_to r) (put_Key args) = u64 (put_Version args + 1)).
Proof.
  intros Hr Hw.
  assert (∃ p, run_to r = (KVServer_Put p (run_from r)).1 ∧ (run_by r ≠ ByOther → p = args)) as (p & Hto & Hp).
  { unfold run_ok in Hr. rewrite !put_call in Hr. destruct (run_by r); [|by exists args..].
    destruct Hr as [p ?]. by exists p. }
  destruct (serve true p (run_from r)) as [kv e] eqn:Hs.
  destruct (serve_spec _ _ _ _ _ Hs Hw) as (_ & _ & Hw' & Hok & Hv & _).
  assert (kv = run_to r ∧ ev_err e = pr_Err (KVServer_Put p (run_from r)).2) as [-> He].
  { rewrite Hto. unfold serve in Hs. destruct (KVServer_Put p (run_from r)). by injection Hs as <- <-. }
  split_and!; [done| | |].
  - intros k Hk. rewrite Hto, Put_cas. case_match; [|done]. simpl. apply lookup_insert_is_Some'. by right.
  - intros k. by apply (serve_version _ _ _ _ _ k Hs).
  - intros [Hby Hperf]%bool_decide_eq_true. rewrite (Hp Hby) in *. rewrite <-He in Hperf.
    rewrite Hv, decide_True by done. apply Hok in Hperf. by rewrite Hperf.
Qed.

(** Over some runs versions only grow, and keys do not go away. *)
Lemma put_runs_grow args runs k : ∀ kv,
  path kv runs → Forall (put_run args) runs → wf_server kv →
  version kv k + len runs < 2 ^ 64 →
  wf_server (end_of kv runs) ∧ (is_Some (store kv !! k) → is_Some (store (end_of kv runs) !! k)) ∧
  version kv k <= version (end_of kv runs) k <= version kv k + len runs.
Proof.
  induction runs as [|r runs IH]; intros kv Hp Hok Hw Hb; [simpl; split_and!; [done|done|lia..]|].
  destruct Hp as [<- Hp]. apply Forall_cons_1 in Hok as [Hr Hok].
  destruct (put_run_step args r Hr Hw) as (Hw' & Hk & Hv & _). simpl in Hb. specialize (Hv k ltac:(lia)).
  destruct (IH _ Hp Hok Hw' ltac:(lia)) as (? & ? & ?). cbn [end_of length]. split_and!; [done|auto|lia..].
Qed.

(** Past the version of the request, it is performed no more. *)
Lemma put_runs_stale args runs : ∀ kv,
  path kv runs → Forall (put_run args) runs → wf_server kv →
  version kv (put_Key args) + len runs < 2 ^ 64 → put_Version args < version kv (put_Key args) →
  performed_runs args runs = [].
Proof.
  induction runs as [|r runs IH]; intros kv Hp Hok Hw Hb Hv; [done|].
  destruct Hp as [<- Hp]. apply Forall_cons_1 in Hok as [Hr Hok].
  destruct (put_run_step args r Hr Hw) as (Hw' & _ & Hg & Hperf). simpl in Hb.
  specialize (Hg (put_Key args) ltac:(lia)). unfold performed_runs. rewrite filter_cons_False.
  - apply (IH _ Hp Hok Hw'); lia.
  - intros [? _]%Hperf. lia.
Qed.

(** It is performed at most once, and its version is past then. *)
Lemma put_runs_once args runs : ∀ kv,
  path kv runs → Forall (put_run args) runs → wf_server kv → put_ok args →
  version kv (put_Key args) + len runs < 2 ^ 64 →
  performed_runs args runs = [] ∨
  length (performed_runs args runs) = 1%nat ∧
  put_Version args < version (end_of kv runs) (put_Key args).
Proof.
  induction runs as [|r runs IH]; intros kv Hp Hok Hw Ha Hb; [by left|].
  destruct Hp as [<- Hp]. apply Forall_cons_1 in Hok as [Hr Hok].
  destruct (put_run_step args r Hr Hw) as (Hw' & _ & Hg & Hperf). simpl in Hb.
  specialize (Hg (put_Key args) ltac:(lia)). cbn [end_of]. unfold performed_runs.
  destruct (own_performed args r) eqn:Ho.
  - right. rewrite filter_cons_True by done. destruct (Hperf eq_refl) as [H1 H2].
    unfold put_ok, is_u64 in Ha. rewrite u64_small in H2 by (unfold is_u64; lia).
    pose proof (put_runs_stale args runs _ Hp Hok Hw' ltac:(lia) ltac:(lia)) as Hn.
    unfold performed_runs in Hn. rewrite Hn. split; [done|].
    destruct (put_runs_grow args runs (put_Key args) _ Hp Hok Hw' ltac:(lia)) as (_ & _ & ?). lia.
  - rewrite filter_cons_False by (by rewrite Ho). apply (IH _ Hp Hok Hw' Ha). lia.
Qed.

Lemma performed_runs_app args runs runs' :
  performed_runs args (runs ++ runs') = performed_runs args runs ++ performed_runs args runs'.
Proof. apply list.filter_app. Qed.

Lemma performed_by_others args runs :
  Forall (λ r, run_by r = ByOther) runs → performed_runs args runs = [].
Proof.
  unfold performed_runs, own_performed. induction 1 as [|r runs Hr _ IH]; [done|].
  rewrite filter_cons_False; [done|]. rewrite Hr, bool_decide_false; [done|]. by intros [].
Qed.

(** ** The schedules that explain the loops *)

(** From the state [kv] to the state [kv'] a Put of the clerk got the result [r]
    under some schedule; Puts of others follow. *)
Definition put_explained (first : bool) (args : PutArgs) (kv kv' : KVServer) (r : option Err) : Prop :=
  ∃ sched kv1 es rest, Clerk_Put_loop first args sched kv = (kv1, es, r) ∧ kv' = others rest kv1.

Lemma serve_others_eq ps kv : ∃ es, serve_others ps kv = (others ps kv, es).
Proof. unfold others. destruct (serve_others ps kv) as [kv' es]. by exists es. Qed.

Lemma put_explained_after ps first args kv kv' r :
  put_explained first args (others ps kv) kv' r → put_explained first args kv kv' r.
Proof.
  intros (sched & kv1 & es & rest & Hl & ->). destruct sched as [|[os o] sched].
  - simpl in Hl. injection Hl as <- <- <-. exists [], kv, [], (ps ++ rest). by rewrite others_app.
  - destruct (serve_others_eq os (others ps kv)) as (e2 & H2).
    destruct (serve_others_eq (ps ++ os) kv) as (e1 & H1). rewrite others_app in H1.
    simpl in Hl. rewrite H2 in Hl. exists ((ps ++ os, o) :: sched). simpl. rewrite H1.
    destruct o; [|destruct (serve true args _)..]; try destruct (Clerk_Put_loop false args sched _) as [[? ?] ?];
      simplify_eq; by eexists _, _, rest.
Qed.

(** An attempt whose request was not run, one whose reply did not arrive, and
    the one that is answered. *)
Lemma put_explained_lost before first args kv kv' r :
  put_explained false args (others before kv) kv' r → put_explained first args kv kv' r.
Proof.
  intros (sched & kv1 & es & rest & Hl & ->). exists ((before, RequestLost) :: sched). simpl.
  destruct (serve_others_eq before kv) as (es' & ->). rewrite Hl. by eexists _, _, rest.
Qed.

Lemma put_explained_run before first args kv kv' r :
  put_explained false args (KVServer_Put args (others before kv)).1 kv' r →
  put_explained first args kv kv' r.
Proof.
  intros (sched & kv1 & es & rest & Hl & ->). exists ((before, ReplyLost) :: sched). simpl.
  destruct (serve_others_eq before kv) as (es' & ->). unfold serve.
  destruct (KVServer_Put args (others before kv)) as [kv2 rep]. simpl in Hl. rewrite Hl.
  by eexists _, _, rest.
Qed.

Lemma put_explained_answer before ps (first : bool) args kv :
  put_explained first args kv (others ps (KVServer_Put args (others before kv)).1)
    (Some (putResult first (pr_Err (KVServer_Put args (others before kv)).2))).
Proof.
  exists [(before, Delivered)]. simpl.
  destruct (serve_others_eq before kv) as (es' & ->). unfold serve.
  destruct (KVServer_Put args (others before kv)) as [kv2 rep]. by eexists _, _, ps.
Qed.

Lemma put_explained_none (first : bool) args kv : put_explained first args kv kv None.
Proof. by exists [], kv, [], []. Qed.

(** The run that answered the Put, among the [runs] that the loop saw; [once]
    when it belongs to the first call, which leaves nothing behind. *)
Definition put_answered (first : bool) (args : PutArgs) (w w' : World) (runs : list Run)
    (err : Err) : Prop :=
  ∃ once pre st post,
    runs = pre ++ mkRun ByCall st (KVServer_Put args st).1 :: post ∧
    err = putResult once (pr_Err (KVServer_Put args st).2) ∧
    Forall (λ r, run_by r ≠ ByCall) post ∧
    (once = true → first = true ∧ (w_stalled w = [] → w_stalled w' = [] ∧
       Forall (λ r, run_by r = ByOther) pre ∧ Forall (λ r, run_by r = ByOther) post)).

(** The events of the calls; at most one request is served at each. *)
Definition events (atts : list Attempt) : nat :=
  length (atts ≫= λ att, at_before att ++ at_wait att).

Lemma events_cons att atts :
  events (att :: atts) = (length (at_before att ++ at_wait att) + events atts)%nat.
Proof. unfold events. simpl. apply length_app. Qed.

Lemma by_others runs :
  Forall (λ r, run_by r ≠ ByCall) runs → Forall (λ r, run_by r ≠ ByStalled) runs →
  Forall (λ r, run_by r = ByOther) runs.
Proof. induction 1; inversion 1; subst; constructor; [by destruct (run_by _)|auto]. Qed.

(** The state after a call of Put, as Puts of others around a run of the call. *)
Lemma put_call_states args att w w1 res before mid :
  called put_method (MPutArgs args) att w w1 res before mid →
  ∃ ps qs, match mid with
    | None => w_kv w1 = others ps (w_kv w)
    | Some (st, _) =>
        st = others ps (w_kv w) ∧ w_kv w1 = others qs (KVServer_Put args (others ps (w_kv w))).1
    end.
Proof.
  intros [[_ Hp Hkv Hok _ _] _ _ _ _ _ _]. rewrite Hkv, end_of_app.
  apply path_app in Hp as [Hp Hp']. apply Forall_app in Hok as [Hok Hok'].
  destruct (runs_puts _ _ _ _ (put_call_puts args) Hp Hok) as [ps Hps]. rewrite Hps in *. exists ps.
  destruct mid as [[st after]|]; [|by exists []]. destruct Hp' as [<- Hp']. cbn [run_from run_to end_of mid_runs] in *.
  rewrite put_call in *. apply Forall_cons_1 in Hok' as [_ Hok'].
  destruct (runs_puts _ _ _ _ (put_call_puts args) Hp' Hok') as [qs ->]. by exists qs.
Qed.

Lemma Net_Put_loop_ok args atts : ∀ first w,
  startable atts w → Forall (own_request put_method (MPutArgs args)) (w_stalled w) →
  ∃ w' r runs, Net_Put_loop first args atts w = Some (w', r) ∧
    follows put_method (MPutArgs args) w w' runs ∧ (length runs <= events atts)%nat ∧
    put_explained first args (w_kv w) (w_kv w') r ∧
    (∀ err, r = Some err → put_answered first args w w' runs err).
Proof.
  induction atts as [|att atts IH]; intros first w Hst Hown.
  { exists w, None, []. split_and!; [done|apply follows_refl; [done|apply Hst]|simpl; lia|apply put_explained_none|done]. }
  rewrite events_cons.
  destruct (Clnt_Call_ok put_method (MPutArgs args) att atts w put_kv_method Hst Hown)
    as (w1 & res & before & mid & Hcall & Hc).
  destruct (put_call_states _ _ _ _ _ _ _ Hc) as (ps & qs & Hkv).
  destruct Hc as [Hf Hb Ha Hlen Hans Hnone Hready].
  assert (∀ kv' r, put_explained false args (w_kv w1) kv' r → put_explained first args (w_kv w) kv' r) as Hretry.
  { intros kv' r He. destruct mid as [[st after]|].
    - destruct Hkv as [_ Hkv]. rewrite Hkv in He. by apply (put_explained_run ps), (put_explained_after qs).
    - rewrite Hkv in He. by apply (put_explained_lost ps). }
  cbn [Net_Put_loop]. rewrite (Hcall : Clnt_Call "KVServer.Put" _ _ _ = _). cbn [mbind option_bind].
  destruct res as [[v|]|].
  - destruct (Hans v eq_refl) as (st & after & -> & ->). rewrite put_call. cbn [snd].
    eexists w1, _, _. split; [done|]. split; [exact Hf|]. split; [lia|]. destruct Hkv as [-> ->]. split.
    + apply put_explained_answer.
    + intros err [= <-]. exists first, before, (others ps (w_kv w)), after.
      split; [cbn [mid_runs]; by rewrite put_call|]. split; [done|]. split; [by eapply Ha|].
      intros ->. split; [done|]. intros Hnil. destruct (Hnone Hnil) as [Hs Hm].
      apply Forall_app in Hs as [? [_ ?]%Forall_cons_1].
      split_and!; [by apply Hm|by apply by_others|apply by_others; [by eapply Ha|done]].
  - destruct (IH false w1 (ready_startable atts w1 Hready) (fo_stalled _ _ _ _ _ Hf))
      as (w' & r & runs & -> & Hf' & Hlen' & He & Hr).
    eexists w', r, _. split; [done|]. split; [by eapply follows_trans|].
    split; [rewrite length_app; lia|]. split; [by apply Hretry|]. intros err Herr.
    destruct (Hr err Herr) as (once & pre & st & post & -> & ? & ? & Hone).
    destruct once; [by destruct (Hone eq_refl)|].
    exists false, ((before ++ mid_runs put_method (MPutArgs args) mid) ++ pre), st, post.
    split; [by rewrite <-!app_assoc|]. done.
  - eexists w1, None, _. split; [done|]. split; [exact Hf|]. split; [lia|]. split; [|done].
    apply Hretry, put_explained_none.
Qed.

(** ** What the clerk's results mean on the network *)

(** What the result of a Put says about the runs of its requests, also of those
    that the clerk had given up, and also after it has returned. *)
Definition put_runs_meaning (args : PutArgs) (r : option Err) (runs : list Run) : Prop :=
  let mine := performed_runs args runs in
  match r with
  | None => (length mine <= 1)%nat
  | Some err =>
      (err = OK ∧ length mine = 1%nat) ∨
      (err = ErrMaybe ∧ (length mine <= 1)%nat) ∨
      (err = ErrVersion ∧ mine = []) ∨
      (err = ErrNoKey ∧ (length mine <= 1)%nat ∧ Forall (λ r, run_by r = ByStalled) mine)
  end.

Lemma answered_meaning args kv pre st post once :
  let runs := pre ++ mkRun ByCall st (KVServer_Put args st).1 :: post in
  path kv runs → Forall (put_run args) runs → wf_server kv → put_ok args →
  version kv (put_Key args) + len runs < 2 ^ 64 →
  Forall (λ r, run_by r ≠ ByCall) post →
  (once = true → Forall (λ r, run_by r = ByOther) pre ∧ Forall (λ r, run_by r = ByOther) post) →
  put_runs_meaning args (Some (putResult once (pr_Err (KVServer_Put args st).2))) runs.
Proof.
  intros runs Hp Hok Hw Ha Hb Hno Hone.
  assert ((length (performed_runs args runs) <= 1)%nat) as Hle.
  { destruct (put_runs_once args runs kv Hp Hok Hw Ha Hb) as [->|[-> _]]; simpl; lia. }
  subst runs. apply path_app in Hp as [Hp1 [Hst Hp2]]. apply Forall_app in Hok as [Hok1 [_ Hok2]%Forall_cons_1].
  cbn [run_from run_to] in *. rewrite length_app in Hb. cbn [length] in Hb.
  destruct (put_runs_grow args pre (put_Key args) kv Hp1 Hok1 Hw ltac:(lia)) as (Hw1 & _ & Hv1).
  pose proof (put_runs_once args pre kv Hp1 Hok1 Hw Ha ltac:(lia)) as Hpre. rewrite <-Hst in *.
  unfold put_ok, is_u64 in Ha.
  assert (own_performed args (mkRun ByCall st (KVServer_Put args st).1) =
    bool_decide (pr_Err (KVServer_Put args st).2 = OK)) as Hown.
  { unfold own_performed. simpl. apply bool_decide_ext. naive_solver. }
  assert (performed_runs args (pre ++ mkRun ByCall st (KVServer_Put args st).1 :: post) =
    performed_runs args pre ++ (if bool_decide (pr_Err (KVServer_Put args st).2 = OK)
      then [mkRun ByCall st (KVServer_Put args st).1] else []) ++ performed_runs args post) as Heq.
  { rewrite performed_runs_app. f_equal. unfold performed_runs at 1. rewrite filter_cons, Hown.
    by case_bool_decide. }
  unfold put_runs_meaning, putResult. rewrite Heq in *. clear Heq. rewrite Put_cas in *.
  destruct (put_Version args =? version st (put_Key args)) eqn:Hv; bool_to_prop; cbn [fst snd pr_Err] in *.
  - rewrite bool_decide_true, decide_False by done. left. split; [done|]. destruct Hpre as [->|[_ ?]]; [|lia].
    rewrite (put_runs_stale args post _ Hp2 Hok2); [done|..].
    + intros k. unfold version. simpl. destruct (decide (k = put_Key args)) as [->|Hk].
      * rewrite lookup_insert_eq. simpl. apply u64_range.
      * rewrite lookup_insert_ne by done. apply Hw1.
    + unfold version. simpl. rewrite lookup_insert_eq. simpl. rewrite u64_small by (unfold is_u64; lia). lia.
    + unfold version. simpl. rewrite lookup_insert_eq. simpl. rewrite u64_small by (unfold is_u64; lia). lia.
  - destruct (decide (is_Some (store st !! put_Key args))) as [He|He].
    + rewrite decide_True, bool_decide_false in * by done.
      destruct once; [|right; left; by split]. right. right. left. split; [done|].
      destruct (Hone eq_refl) as [H1 H2]. by rewrite !performed_by_others.
    + rewrite decide_False, bool_decide_false in * by done.
      right. right. right. split; [done|]. split; [exact Hle|].
      destruct Hpre as [->|[_ Hgt]]; [|destruct He; apply version_exists; lia].
      apply list.Forall_forall. intros r [Hr Hin]%list_elem_of_filter.
      rewrite list.Forall_forall in Hno. specialize (Hno r Hin).
      apply bool_decide_eq_true in Hr as [? _]. by destruct (run_by r).
Qed.

(** C38. Whatever the tester does to the network and however other clients are
    served meanwhile, a Put of the clerk over the simulated network never crashes
    the program, and its result and the server's state, now and later, are those
    of the abstract clerk under some schedule of lost requests and lost replies,
    followed by Puts of others.  The server may also execute a request that the
    clerk has given up, during its later calls or after it has returned.  Counting
    those, OK means that the server performs the Put exactly once, ErrVersion that
    it never does, ErrMaybe at most once, and ErrNoKey at most once and only by a
    request that was given up, as long as the version of the key cannot wrap around
    within the events. *)
Theorem Net_Put_refines key value ver atts later w :
  startable atts w → w_stalled w = [] → w_runs w = [] →
  ∃ w1 r w2, Net_Put key value ver atts w = Some (w1, r) ∧ run_later later w1 = Some w2 ∧
    (∃ sched kv1 es rest more,
       Clerk_Put key value ver sched (w_kv w) = (kv1, es, r) ∧
       w_kv w1 = others rest kv1 ∧ w_kv w2 = others (rest ++ more) kv1) ∧
    path (w_kv w) (w_runs w2) ∧ end_of (w_kv w) (w_runs w2) = w_kv w2 ∧
    (wf_server (w_kv w) → is_u64 ver →
     version (w_kv w) key + Z.of_nat (events atts) + len later < 2 ^ 64 →
     put_runs_meaning (mkPutArgs key value ver) r (w_runs w2)).
Proof.
  intros Hst Hnil Hruns. set (args := mkPutArgs key value ver).
  destruct (Net_Put_loop_ok args atts true w Hst ltac:(by rewrite Hnil))
    as (w1 & r & runs & Hput & Hf & Hlen & (sched & kv1 & es & rest & Hl & Hkv) & Hr).
  destruct (run_later_ok put_method (MPutArgs args) later w1 put_kv_method
    (fo_stalled _ _ _ _ _ Hf) (fo_obj _ _ _ _ _ Hf)) as (w2 & runs2 & Hlater & Hf2 & Hno & Hlen2 & Hst2).
  exists w1, r, w2. split; [exact Hput|]. split; [exact Hlater|].
  destruct (runs_puts _ _ _ _ (put_call_puts args) (fo_path _ _ _ _ _ Hf2) (fo_ok _ _ _ _ _ Hf2)) as [more Hmore].
  destruct (follows_trans _ _ _ _ _ _ _ Hf Hf2) as [E P K O _ _]. rewrite Hruns in E. simpl in E. rewrite E.
  split; [|split; [exact P|split; [done|]]].
  { exists sched, kv1, es, rest, more. split; [exact Hl|]. split; [exact Hkv|].
    by rewrite (fo_kv _ _ _ _ _ Hf2), Hmore, others_app, Hkv. }
  intros Hw Hver Hv.
  assert (version (w_kv w) (put_Key args) + len (runs ++ runs2) < 2 ^ 64) as Hb
    by (rewrite length_app; simpl; lia).
  destruct r as [err|].
  - destruct (Hr err eq_refl) as (once & pre & st & post & -> & -> & Hpost & Hone).
    rewrite <-app_assoc in *. apply (answered_meaning args (w_kv w)); try done.
    + by apply Forall_app.
    + intros Ho. destruct (Hone Ho) as [_ Hone']. destruct (Hone' Hnil) as (Hs & ? & ?). split; [done|].
      apply Forall_app. split; [done|]. apply by_others; auto.
  - unfold put_runs_meaning.
    destruct (put_runs_once args _ _ P O Hw Hver Hb) as [->|[-> _]]; simpl; lia.
Qed.

(** A Get over the network never crashes the program, and returns what the server
    holds for the key after Puts of others, or nothing yet. *)
Theorem Net_Get_refines key atts w :
  startable atts w → Forall (own_request get_method (MGetArgs (mkGetArgs key))) (w_stalled w) →
  ∃ w' r, Net_Get key atts w = Some (w', r) ∧
    (∃ ps, w_kv w' = others ps (w_kv w)) ∧
    (∀ res, r = Some res → ∃ ps,
       let reply := KVServer_Get (mkGetArgs key) (others ps (w_kv w)) in
       res = (gr_Value reply, gr_Version reply, gr_Err reply)).
Proof.
  revert w. induction atts as [|att atts IH]; intros w Hst Hown.
  { exists w, None. split; [done|]. split; [by exists []|done]. }
  set (m := get_method). set (args := MGetArgs (mkGetArgs key)) in *.
  assert (∀ kv, ∃ ps, (mt_call m args kv).1 = others ps kv) as Hm by (intros kv; by exists []).
  destruct (Clnt_Call_ok m args att atts w get_kv_method Hst Hown) as (w1 & res & before & mid & Hcall & Hc).
  destruct Hc as [[_ Hp Hkv Hok Hown1 _] _ _ _ Hans _ Hready].
  destruct (runs_puts m args _ _ Hm Hp Hok) as [ps Hps]. rewrite Hps in Hkv.
  cbn [Net_Get]. rewrite (Hcall : Clnt_Call "KVServer.Get" (MGetArgs (mkGetArgs key)) _ _ = _). cbn [mbind option_bind].
  destruct res as [[v|]|].
  - destruct (Hans v eq_refl) as (st & after & -> & ->).
    eexists w1, _. split; [done|]. split; [by exists ps|]. intros res [= <-].
    apply path_app in Hp as [Hp [Hfrom _]]. apply Forall_app in Hok as [Hok _].
    destruct (runs_puts m args _ _ Hm Hp Hok) as [qs Hqs]. exists qs. cbn in Hfrom. by rewrite <-Hqs, <-Hfrom.
  - destruct (IH w1 (ready_startable atts w1 Hready) Hown1) as (w' & r & -> & (qs & Hqs) & Hr).
    exists w', r. split; [done|]. rewrite Hkv in *. split; [exists (ps ++ qs); by rewrite others_app|].
    intros res Hres. destruct (Hr res Hres) as [rs Hrs]. exists (ps ++ rs). by rewrite others_app.
  - exists w1, None. split; [done|]. split; [by exists ps|done].
Qed.

(** ** On a reliable network one call is enough *)

(** The tester leaves the network alone. *)
Definition steady (evs : list NetEvent) : Prop := ∀ rn, NNetwork rn ∉ evs.

Lemma steady_cons ev evs : steady (ev :: evs) → steady evs ∧ ∀ rn, ev ≠ NNetwork rn.
Proof.
  intros H. split; intros rn; [|intros ->; apply (H rn), list_elem_of_here].
  intros Hin. by apply (H rn), list_elem_of_further.
Qed.

Lemma run_handler_net by_ req w w' : run_handler by_ req w = Some w' → w_net w' = w_net w.
Proof. unfold run_handler. intros H. by apply bind_Some in H as ([[rs kv] r] & _ & [= <-]). Qed.

Lemma world_event_net ev w w' :
  world_event ev w = Some w' → (∀ rn, ev ≠ NNetwork rn) → w_net w' = w_net w.
Proof.
  intros H Hev. destruct ev as [| |k|p|rn]; simpl in H; [by injection H as <-..| |by injection H as <-|].
  - destruct (w_stalled w !! k); [|by injection H as <-]. by apply run_handler_net in H.
  - by destruct (Hev rn).
Qed.

Lemma run_wait_net req evs : ∀ run w w' pend cevs,
  run_wait req run evs w = Some (w', pend, cevs) → steady evs → w_net w' = w_net w.
Proof.
  induction evs as [|ev evs IH]; intros run w w' pend cevs H Hst; [by injection H as <- <- <-|].
  apply steady_cons in Hst as [Hst Hev]. cbn [run_wait] in H.
  assert (∀ o, (w1 ← world_event o w; run_wait req run evs w1) = Some (w', pend, cevs) →
    (∀ rn, o ≠ NNetwork rn) → w_net w' = w_net w) as Hother.
  { intros o (w1 & Hw1 & H')%bind_Some Ho. rewrite <-(world_event_net o w w1 Hw1 Ho). by eapply IH. }
  destruct ev as [| |k|p|rn]; [| |by eapply Hother..].
  - apply bind_Some in H as ([[w1 p1] c1] & H & [= <- <- <-]). by eapply IH.
  - destruct run; [|by eapply IH]. apply bind_Some in H as (w1 & Hw1 & H).
    apply bind_Some in H as ([[w2 p2] c2] & H & [= <- <- <-]).
    by rewrite (IH _ _ _ _ _ H Hst), (run_handler_net _ _ _ _ Hw1).
Qed.

(** The polls before the handler runs see the network as it was. *)
Lemma run_wait_polls req evs : ∀ w w' pend cevs,
  run_wait req true evs w = Some (w', pend, cevs) →
  steady evs → NHandler ∈ evs →
  ∃ polls objs rest, cevs = (CPoll <$> polls) ++ CRun objs :: rest ∧
    Forall (λ rn, rn = w_net w) polls.
Proof.
  induction evs as [|ev evs IH]; intros w w' pend cevs H Hst Hin; [set_solver|].
  apply steady_cons in Hst as [Hst Hev]. cbn [run_wait] in H.
  assert (∀ o, (w1 ← world_event o w; run_wait req true evs w1) = Some (w', pend, cevs) →
    (∀ rn, o ≠ NNetwork rn) → NHandler ∈ evs →
    ∃ polls objs rest, cevs = (CPoll <$> polls) ++ CRun objs :: rest ∧
      Forall (λ rn, rn = w_net w) polls) as Hother.
  { intros o (w1 & Hw1 & H')%bind_Some Ho Hin'. rewrite <-(world_event_net o w w1 Hw1 Ho). by eapply IH. }
  destruct ev as [| |k|p|rn]; [| |by eapply Hother; [|done|set_solver]..].
  - apply bind_Some in H as ([[w1 p1] c1] & H & [= <- <- <-]).
    destruct (IH _ _ _ _ H Hst ltac:(set_solver)) as (polls & objs & rest & -> & Hp).
    exists (w_net w :: polls), objs, rest. split; [done|]. by constructor.
  - apply bind_Some in H as (w1 & _ & H). apply bind_Some in H as ([[w2 p2] c2] & H & [= <- <- <-]).
    by exists [], (λ _, (w_obj w, w_kv w)), c2.
Qed.

(** The end that the client uses leads to the server, over a reliable network. *)
Definition reaches (name : string) (w : World) : Prop :=
  ∃ clnt net e, Clnt_makeEnd server name (w_clnt w) (w_net w) = Some (clnt, net, e) ∧
    alive net e obj ∧ reliable net = true.

Lemma Clnt_Call_reliable m args att atts w :
  kv_method m → startable (att :: atts) w → Forall (own_request m args) (w_stalled w) →
  reaches (at_name att) w → at_sent att = true →
  steady (at_before att) → steady (at_wait att) → NHandler ∈ at_wait att →
  ∃ w' v, Clnt_Call ("KVServer" +:+ String dot (mt_name m)) args att w
            = Some (w', Some (Answer v)) ∧
    GetTotalCount (w_net w') = i32 (GetTotalCount (w_net w) + 1).
Proof.
  intros Hm [Hs _] Hown (clnt & net & e & He & Ha & Hrl) Hsent Hb Hw Hin. unfold Clnt_Call. rewrite He.
  cbn [mbind option_bind].
  destruct (Call_request_ok e ("KVServer" +:+ String dot (mt_name m)) args) as (enc & -> & Henc).
  cbn [mbind option_bind]. rewrite Hsent. cbn [negb]. set (req := mkReqMsg _ _ _).
  assert (own_request m args req) as Hreq by (by exists e, enc).
  set (w0 := set_w_net _ _).
  destruct (run_wait_ok m args req (at_before att) false w0 Hm Hreq Hown Hs) as
    (w1 & pend1 & cevs1 & before1 & mid1 & H1 & [F1 _ _ _ _ _ _ _]).
  pose proof (run_wait_net _ _ _ _ _ _ _ H1 Hb) as Hn1. rewrite H1. cbn [mbind option_bind].
  rewrite bool_decide_true by (rewrite Hn1; by apply started_reliable).
  destruct (run_wait_ok m args req (at_wait att) true w1 Hm Hreq (fo_stalled _ _ _ _ _ F1) (fo_obj _ _ _ _ _ F1))
    as (w2 & pend & cevs & before & mid & H2 & [_ _ _ _ _ Hseen _ _]).
  pose proof (run_wait_net _ _ _ _ _ _ _ H2 Hw) as Hn2. rewrite H2. cbn [mbind option_bind].
  destruct (run_wait_polls _ _ _ _ _ _ H2 Hw Hin) as (polls & objs & rest & -> & Hp).
  rewrite Hn2, Hn1. subst w0. simpl w_net. erewrite (Call_reliable partial e "KVServer" m).
  - eexists _, _. split; [done|].
    assert (∀ b : bool, w_net (if b then set_w_stalled (req :: w_stalled w2) w2 else w2) = w_net w2) as ->
      by by intros [].
    rewrite Hn2, Hn1. simpl.
    unfold Clnt_makeEnd in He. destruct (clnt_ends (w_clnt w) !! server); [by injection He as _ <- _|].
    apply bind_Some in He as (net1 & Hnet & [= _ <- _]). unfold MakeEnd in Hnet.
    by destruct (decide _); [|injection Hnet as <-].
  - apply kvsrv_offers; [done|]. intros o n Hrun. by destruct (Hseen o Hrun) as (? & ? & _ & Ho); apply Ho.
  - apply Hm.
  - apply Hm.
  - done.
  - exact Ha.
  - constructor; [by split|]. eapply list.Forall_impl; [exact Hp|]. intros rn ->. rewrite Hn1. by split.
Qed.

(** On a reliable network that leads the client to the server, one call is
    enough, it is the only message the network counts, and Put returns what the
    server answered: ErrMaybe is not among its results. *)
Theorem Net_Put_reliable key value ver att atts w :
  startable (att :: atts) w → w_stalled w = [] → reaches (at_name att) w → at_sent att = true →
  steady (at_before att) → steady (at_wait att) → NHandler ∈ at_wait att →
  ∃ w' err ps, Net_Put key value ver (att :: atts) w = Some (w', Some err) ∧
    err = pr_Err (KVServer_Put (mkPutArgs key value ver) (others ps (w_kv w))).2 ∧
    err ≠ ErrMaybe ∧
    GetTotalCount (w_net w') = i32 (GetTotalCount (w_net w) + 1).
Proof.
  intros Hst Hnil Hre Hsent Hb Hw Hin. set (args := mkPutArgs key value ver).
  assert (Forall (own_request put_method (MPutArgs args)) (w_stalled w)) as Hown by by rewrite Hnil.
  destruct (Clnt_Call_ok put_method (MPutArgs args) att atts w put_kv_method Hst Hown)
    as (w1 & res & before & mid & Hcall & Hc).
  destruct (put_call_states _ _ _ _ _ _ _ Hc) as (ps & qs & Hkv).
  destruct (Clnt_Call_reliable put_method (MPutArgs args) att atts w
              put_kv_method Hst Hown Hre Hsent Hb Hw Hin) as (w2 & v & Hcall2 & Hcount).
  rewrite Hcall2 in Hcall. injection Hcall as <- <-.
  destruct (cl_answer _ _ _ _ _ _ _ _ Hc v eq_refl) as (st & after & -> & ->). destruct Hkv as [-> _].
  unfold Net_Put. cbn [Net_Put_loop]. fold args.
  rewrite (Hcall2 : Clnt_Call "KVServer.Put" _ _ _ = _).
  cbn [mbind option_bind]. rewrite put_call. cbn [snd].
  eexists w2, _, ps. split; [done|]. split; [|split; [|done]].
  - unfold putResult. by destruct (decide _).
  - unfold putResult. rewrite Put_cas. by repeat case_decide || case_match.
Qed.

End ClerkNet.

(** ** Instances *)

#[local] Existing Instance KVMsg_gob.

Definition no_msg : list byte → KVMsg := λ _, MGetArgs (mkGetArgs "").

Definition world1 : World :=
  mkWorld (AddServer "server" 7 MakeNetwork) (makeClntTo None) (AddService (kvsrv_service no_msg) MakeServer)
    MakeKVServer [] [].

(** The tester cuts the client off while the handler of its first call is under
    way, so the network gives the call up; the second call is answered that there
    is no such key.  Then another client creates the key, and the handler of the
    first call gets the server's lock. *)
Definition given_up_calls : list Attempt :=
  [mkAttempt "end" true [] [NNetwork (Enable "end" false net1); NPoll] (mkChance 0 0 0);
   mkAttempt "end2" true [NNetwork net1] [NPoll; NHandler] (mkChance 0 0 0)].

Definition after_return : list NetEvent := [NOther (mkPutArgs "k" "x" 0); NStalled 0].

Definition good_call : Attempt :=
  mkAttempt "end" true [NOther (mkPutArgs "x" "0" 0)] [NPoll; NHandler; NPoll] (mkChance 0 0 0).

Lemma startable_world1 att atts : startable no_msg "server" (att :: atts) world1.
Proof. split; [reflexivity|]. right. simpl. set_solver. Qed.

(** ErrNoKey does not mean that the Put will not be performed. *)
Lemma given_up_put_performed :
  ('(w1, r) ← Net_Put 7 "server" "k" "v" 1 given_up_calls world1;
   w2 ← run_later after_return w1;
   Some (r, KVServer_Get (mkGetArgs "k") (w_kv w2),
         length (performed_runs (mkPutArgs "k" "v" 1) (w_runs w2))))
  = Some (Some ErrNoKey, mkGetReply "v" 2 OK, 1%nat).
Proof. vm_compute. reflexivity. Qed.

(** The Put of [given_up_calls]: what happens later is bounded, and explained. *)
Lemma Net_Put_refines_witness :
  ∃ w1 w2 sched kv1 es rest more,
    Net_Put 7 "server" "k" "v" 1 given_up_calls world1 = Some (w1, Some ErrNoKey) ∧
    run_later after_return w1 = Some w2 ∧
    Clerk_Put "k" "v" 1 sched MakeKVServer = (kv1, es, Some ErrNoKey) ∧
    w_kv w2 = others (rest ++ more) kv1 ∧
    Forall (λ r, run_by r = ByStalled) (performed_runs (mkPutArgs "k" "v" 1) (w_runs w2)) ∧
    length (performed_runs (mkPutArgs "k" "v" 1) (w_runs w2)) = 1%nat.
Proof.
  destruct (Net_Put_refines no_msg 7 "server" "k" "v" 1 given_up_calls after_return world1
              (startable_world1 _ _) eq_refl eq_refl)
    as (w1 & r & w2 & Hput & Hlater & (sched & kv1 & es & rest & more & Hs & _ & Hkv) & _ & _ & Hm).
  pose proof given_up_put_performed as Hr. rewrite Hput in Hr. cbn [mbind option_bind] in Hr.
  rewrite Hlater in Hr. cbn [mbind option_bind] in Hr. apply (inj Some) in Hr.
  apply pair_equal_spec in Hr as [Hr Hlen]. apply pair_equal_spec in Hr as [-> _].
  exists w1, w2, sched, kv1, es, rest, more. split; [exact Hput|]. split; [exact Hlater|].
  split; [exact Hs|]. split; [exact Hkv|].
  specialize (Hm MakeKVServer_wf).
  destruct Hm as [[? _]|[[? _]|[[? _]|[_ [_ Hm]]]]]; [by vm_compute|by vm_compute|done..|by split].
Defined.

Lemma Net_Put_reliable_witness :
  ∃ w' err ps, Net_Put 7 "server" "k" "v" 0 [good_call] world1 = Some (w', Some err) ∧
    err = pr_Err (KVServer_Put (mkPutArgs "k" "v" 0) (others ps MakeKVServer)).2 ∧
    err ≠ ErrMaybe ∧ GetTotalCount (w_net w') = 1.
Proof.
  destruct (Net_Put_reliable no_msg 7 "server" "k" "v" 0 good_call [] world1)
    as (w' & err & ps & H1 & H2 & H3 & H4).
  - apply startable_world1.
  - reflexivity.
  - eexists _, _, _. split; [vm_compute; reflexivity|]. split; [|reflexivity].
    split; [reflexivity|]. exists "server". split; reflexivity.
  - reflexivity.
  - intros rn. simpl. set_solver.
  - intros rn. simpl. set_solver.
  - simpl. set_solver.
  - exists w', err, ps. split; [exact H1|]. split; [exact H2|]. split; [exact H3|]. rewrite H4.
    reflexivity.
Defined.
