(* ===== verification/TestConfig.v ===== *)
(** * The configuration of a test

    Models src/6.5840/src/tester1/config.go with the tables of groups (group.go)
    and of clients (clnts.go) that it is made of: starting a test's servers on a
    new network, its statistics, and adding and removing groups and clients.
    The groups share the network of the configuration: an operation on a group
    runs on that network and leaves it there.  The names of ends, which
    [Randstring] draws, the numbers of new server objects and of new clients are
    arguments; [None] is a panic or [log.Fatalf].  The clock and the output are
    left out. *)

From stdpp Require Import pretty.
From S2P Require Import Prelude Numerals Gob Persister LabRpc Tester.

(** ** group.go: all servers of a group *)

Definition N (sg : ServerGrp) : Z := len (sg_srvs sg).
Definition SrvNames (sg : ServerGrp) : list string := servernames sg.
Definition SrvName (sg : ServerGrp) (i : Z) : option string := go_nth (servernames sg) i.
Definition SrvNamesTo (sg : ServerGrp) (to : list Z) : option (list string) :=
  foldl (λ ons i, ns ← ons; n ← go_nth (servernames sg) i; Some (ns ++ [n])) (Some []) to.
Definition GetConnected (sg : ServerGrp) : list bool := connected sg.

(** [start], from server [i] on: for every server, the names of its ends and the
    number of its server object. *)
Fixpoint start_from (i : Z) (xs : list (list string * nat)) (sg : ServerGrp) : option ServerGrp :=
  match xs with
  | [] => Some sg
  | (names, rs) :: xs => sg ← StartServer i names rs sg; start_from (i + 1) xs sg
  end.

Definition start_grp (xs : list (list string * nat)) (sg : ServerGrp) : option ServerGrp :=
  start_from 0 xs sg.

Definition StartServers (xs : list (list string * nat)) (sg : ServerGrp) : option ServerGrp :=
  sg ← start_grp xs sg; ConnectAll sg.

Definition Shutdown (sg : ServerGrp) : option ServerGrp :=
  foldl (λ osg i, sg ← osg; ShutdownServer i sg) (Some sg) (all sg).

(** ** The configuration *)

Definition GRP0 : Z := 0.

(** [clerks] is the set of clients, by their numbers, nil after [cleanup]. *)
Record Config := mkConfig {
  cfg_net : Network;
  grps : gmap Z ServerGrp;
  clerks : option (gmap nat Clnt);
  rpcs0 : Z;
  ops : Z
}.

Definition set_cfg_net (net : Network) (cfg : Config) : Config :=
  mkConfig net (grps cfg) (clerks cfg) (rpcs0 cfg) (ops cfg).

Definition set_grps (m : gmap Z ServerGrp) (cfg : Config) : Config :=
  mkConfig (cfg_net cfg) m (clerks cfg) (rpcs0 cfg) (ops cfg).

Definition set_clerks (m : option (gmap nat Clnt)) (cfg : Config) : Config :=
  mkConfig (cfg_net cfg) (grps cfg) m (rpcs0 cfg) (ops cfg).

(** [Group], [lookupGroup]: the group on the network as it is; nil when there
    is none. *)
Definition lookupGroup (gid : Z) (cfg : Config) : option ServerGrp :=
  set_net (cfg_net cfg) <$> grps cfg !! gid.

(** A method of a group. *)
Definition on_group (gid : Z) (f : ServerGrp → option ServerGrp) (cfg : Config) : option Config :=
  sg ← lookupGroup gid cfg;
  sg ← f sg;
  Some (set_grps (<[gid := sg]> (grps cfg)) (set_cfg_net (sg_net sg) cfg)).

(** [names]: the ends of the servers, as many names for each as there are
    servers. *)
Definition MakeGroup (gid : Z) (names : list (list string)) (cfg : Config) : option Config :=
  sg ← makeSrvGrp gid names (cfg_net cfg);
  Some (set_grps (<[gid := sg]> (grps cfg)) (set_cfg_net (sg_net sg) cfg)).

Definition MakeGroupStart (gid : Z) (names : list (list string)) (xs : list (list string * nat))
    (cfg : Config) : option Config :=
  cfg ← MakeGroup gid names cfg; on_group gid (StartServers xs) cfg.

(** [delete] *)
Definition Groups_delete (gid : Z) (cfg : Config) : Config := set_grps (delete gid (grps cfg)) cfg.

Definition ExitGroup (gid : Z) (cfg : Config) : option Config :=
  cfg ← on_group gid Shutdown cfg; Some (Groups_delete gid cfg).

(** A new network and no groups; the clients are made last. *)
Definition newConfig : Config := mkConfig MakeNetwork ∅ None 0 0.

Definition SetReliable (yes : bool) (cfg : Config) : Config := set_cfg_net (Reliable yes (cfg_net cfg)) cfg.
Definition Config_IsReliable (cfg : Config) : bool := IsReliable (cfg_net cfg).
Definition SetLongReordering (yes : bool) (cfg : Config) : Config :=
  set_cfg_net (LongReordering yes (cfg_net cfg)) cfg.
Definition SetLongDelays (yes : bool) (cfg : Config) : Config :=
  set_cfg_net (LongDelays yes (cfg_net cfg)) cfg.

Definition MakeConfig (names : list (list string)) (xs : list (list string * nat)) (reliable : bool) :
    option Config :=
  cfg ← MakeGroupStart GRP0 names xs newConfig;
  Some (SetReliable reliable (set_clerks (Some ∅) cfg)).

(** ** Statistics *)

Definition RpcTotal (cfg : Config) : Z := GetTotalCount (cfg_net cfg).
Definition BytesTotal (cfg : Config) : Z := GetTotalBytes (cfg_net cfg).

Definition Begin (cfg : Config) : Config :=
  mkConfig (cfg_net cfg) (grps cfg) (clerks cfg) (RpcTotal cfg) 0.

(** [atomic.AddInt32] *)
Definition Config_Op (cfg : Config) : Config :=
  mkConfig (cfg_net cfg) (grps cfg) (clerks cfg) (rpcs0 cfg) (i32 (ops cfg + 1)).

(** What [End] prints of a test that has not failed: peers, RPCs, operations. *)
Definition End_ (cfg : Config) : option (Z * Z * Z) :=
  sg ← lookupGroup GRP0 cfg; Some (N sg, RpcTotal cfg - rpcs0 cfg, ops cfg).

(** ** clnts.go: the table of clients *)

(** [Clnts.makeEnd] *)
Definition Clnts_makeEnd (servername name : string) (cfg : Config) : option Config :=
  net ← MakeEnd name (cfg_net cfg);
  Some (set_cfg_net (Enable name true (Connect name servername net)) cfg).

(** [id] is the number of the new client; writing to the nil table panics. *)
Definition MakeClientTo (srvs : option (list string)) (id : nat) (cfg : Config) : option Config :=
  m ← clerks cfg; Some (set_clerks (Some (<[id := makeClntTo srvs]> m)) cfg).

Definition MakeClient : nat → Config → option Config := MakeClientTo None.

(** Reading and deleting from the nil table do nothing. *)
Definition DeleteClient (id : nat) (cfg : Config) : option Config :=
  match clerks cfg with
  | None => Some cfg
  | Some m =>
      match m !! id with
      | None => Some cfg
      | Some clnt =>
          net ← remove clnt (cfg_net cfg);
          Some (set_clerks (Some (delete id m)) (set_cfg_net net cfg))
      end
  end.

(** [Clnts.cleanup]: the clients are removed in the order of the map. *)
Definition Clnts_cleanup (cfg : Config) : option Config :=
  net ← foldl (λ on c, net ← on; remove c net) (Some (cfg_net cfg))
          (map_to_list (default ∅ (clerks cfg))).*2;
  Some (set_clerks None (set_cfg_net net cfg)).

(** [random_handles], given the results of [rand.Intn(i + 1)]: swap [i] with
    [j], for every [i]. *)
Definition swap {A} (i j : nat) (sa : list A) : list A :=
  match sa !! i, sa !! j with
  | Some x, Some y => <[j := x]> (<[i := y]> sa)
  | _, _ => sa
  end.

Definition random_handles {A} (kvh : list A) (rand : nat → nat) : list A :=
  foldl (λ sa i, swap i (rand i) sa) kvh (seq 0 (length kvh)).

(** ** Names *)

Lemma ServerName_inj gid i j : ServerName gid i = ServerName gid j → i = j.
Proof. unfold ServerName. intros H%append_inj%append_inj%append_inj. by apply (inj pretty). Qed.

(** ** Ends *)

(** The ends [names] are connected to the servers of the group from [j] on. *)
Definition wired (net : Network) (gid j : Z) (names : list string) : Prop :=
  ∀ (b : nat) e, names !! b = Some e →
    connections net !! e = Some (Some (ServerName gid (j + Z.of_nat b))).

(** What does not change when new ends are made, or ends are enabled. *)
Definition keeps (net net' : Network) : Prop :=
  reliable net' = reliable net ∧ ends net ⊆ ends net' ∧
  ∀ e, e ∈ ends net → connections net' !! e = connections net !! e.

Lemma keeps_refl net : keeps net net.
Proof. done. Qed.

Lemma keeps_trans net1 net2 net3 : keeps net1 net2 → keeps net2 net3 → keeps net1 net3.
Proof.
  intros (H1 & H2 & H3) (H1' & H2' & H3'). split_and!; [congruence|set_solver|].
  intros e He. rewrite H3' by set_solver. by apply H3.
Qed.

Lemma makeEnds_total gid names : ∀ j net,
  NoDup names → (∀ e, e ∈ names → e ∉ ends net) →
  ∃ net', makeEnds gid j names net = Some net' ∧ wired net' gid j names ∧ keeps net net' ∧
    servers net' = servers net.
Proof.
  induction names as [|name names IH]; intros j net Hnd Hfresh; simpl.
  - exists net. split_and!; [done|by intros b e|done..].
  - apply list.NoDup_cons in Hnd as [Hn Hnd]. unfold MakeEnd.
    rewrite decide_False by (apply Hfresh; set_solver). obind. set (net1 := Connect _ _ _).
    destruct (IH (j + 1) net1 Hnd) as (net' & Hr & Hw & Hk & Hs).
    { intros e He. unfold net1. simpl. rewrite not_elem_of_union, not_elem_of_singleton.
      split; [by intros ->|apply Hfresh; set_solver]. }
    exists net'. split; [done|]. destruct Hk as (Hk2 & Hk3 & Hk4). split_and!; [|split|done].
    + intros [|b] e He; simpl in He.
      * injection He as ->. rewrite Hk4 by (simpl; set_solver). simpl. rewrite lookup_insert_eq.
        by rewrite Z.add_0_r.
      * rewrite (Hw b e He). do 3 f_equal. lia.
    + done.
    + split; [simpl in Hk3; set_solver|]. intros e He. rewrite Hk4 by (simpl; set_solver). simpl.
      assert (e ≠ name) by (intros ->; apply (Hfresh name); set_solver).
      by rewrite !lookup_insert_ne by done.
Qed.

Lemma wired_keeps net net' gid j names :
  wired net gid j names → (∀ e, e ∈ names → e ∈ ends net) → keeps net net' → wired net' gid j names.
Proof.
  intros Hw He (_ & _ & Hk) b e Hb. rewrite Hk; [by apply Hw|].
  apply He. by eapply list_elem_of_lookup_2.
Qed.

(** ** Making a group *)

Lemma makeServers_total gid names : ∀ net,
  NoDup (concat names) → (∀ e, e ∈ concat names → e ∉ ends net) →
  ∃ net' srvs,
    foldl (λ acc ns, '(net, srvs) ← acc; '(net, s) ← makeServer gid ns net;
             Some (net, srvs ++ [s])) (Some (net, [])) names = Some (net', srvs) ∧
    srvs = mkSrv None false <$> names ∧ keeps net net' ∧ ends net' = list_to_set (concat names) ∪ ends net.
Proof.
  induction names as [|ns names IH] using rev_ind; intros net Hnd Hfresh.
  - exists net, []. split_and!; [done|done|done|set_solver].
  - rewrite concat_app in Hnd, Hfresh. cbn [concat] in Hnd, Hfresh. rewrite app_nil_r in Hnd, Hfresh.
    apply list.NoDup_app in Hnd as (Hnd & Hdis & Hnd').
    destruct (IH net Hnd) as (net1 & srvs & H1 & -> & Hk1 & He1); [set_solver|].
    rewrite foldl_snoc, H1. obind. unfold makeServer.
    destruct (makeEnds_total gid ns 0 net1 Hnd') as (net2 & H2 & _ & Hk2 & _).
    { intros e He. rewrite He1, not_elem_of_union, elem_of_list_to_set.
      split; [|apply Hfresh; set_solver]. intros Hc. by apply (Hdis e). }
    rewrite H2. obind. eexists _, _. split; [done|]. rewrite fmap_app. split; [done|].
    split; [by eapply keeps_trans|].
    destruct (makeEnds_spec _ _ _ _ _ H2) as (_ & -> & _). rewrite He1, concat_app. simpl.
    rewrite app_nil_r. set_solver.
Qed.

(** ** Starting the servers *)

Lemma StartServer_total i names rs s sg :
  go_nth (sg_srvs sg) i = Some s → NoDup names → (∀ e, e ∈ names → e ∉ ends (sg_net sg)) →
  ∃ sg', StartServer i names rs sg = Some sg' ∧
    sg_srvs sg' = <[Z.to_nat i := mkSrv (Some (default MakePersister (saved s))) true names]> (sg_srvs sg) ∧
    sg_gid sg' = sg_gid sg ∧ connected sg' = connected sg ∧
    wired (sg_net sg') (sg_gid sg) 0 names ∧ keeps (sg_net sg) (sg_net sg') ∧
    ends (sg_net sg') = list_to_set names ∪ ends (sg_net sg) ∧
    servers (sg_net sg') = <[ServerName (sg_gid sg) i := Some rs]> (servers (sg_net sg)).
Proof.
  intros Hs Hnd Hfresh. unfold StartServer. rewrite Hs. obind. unfold startServer, makeServer.
  destruct (makeEnds_total (sg_gid sg) names 0 (sg_net sg) Hnd Hfresh) as (net & Hm & Hw & Hk & Hsv).
  rewrite Hm. obind. simpl. rewrite go_set_ok by (by eapply go_nth_Some). eexists. split; [done|].
  destruct (makeEnds_spec _ _ _ _ _ Hm) as (_ & He & _). simpl. rewrite Hsv.
  split_and!; try done; try apply Hk. by destruct (saved s) as [[]|].
Qed.

Lemma start_from_spec xs : ∀ i sg,
  NoDup (concat xs.*1) → (∀ e, e ∈ concat xs.*1 → e ∉ ends (sg_net sg)) →
  0 <= i → i + len xs = len (sg_srvs sg) →
  ∃ sg', start_from i xs sg = Some sg' ∧ sg_gid sg' = sg_gid sg ∧ connected sg' = connected sg ∧
    length (sg_srvs sg') = length (sg_srvs sg) ∧ keeps (sg_net sg) (sg_net sg') ∧
    (∀ a, 0 <= a < i → go_nth (sg_srvs sg') a = go_nth (sg_srvs sg) a ∧
       servers (sg_net sg') !! ServerName (sg_gid sg) a = servers (sg_net sg) !! ServerName (sg_gid sg) a) ∧
    (∀ (k : nat) ns rs, xs !! k = Some (ns, rs) →
       (∃ s, go_nth (sg_srvs sg) (i + Z.of_nat k) = Some s ∧
          go_nth (sg_srvs sg') (i + Z.of_nat k) =
            Some (mkSrv (Some (default MakePersister (saved s))) true ns)) ∧
       wired (sg_net sg') (sg_gid sg) 0 ns ∧
       servers (sg_net sg') !! ServerName (sg_gid sg) (i + Z.of_nat k) = Some (Some rs)).
Proof.
  induction xs as [|[names rs] xs IH]; intros i sg Hnd Hfresh Hi Hlen; simpl.
  { exists sg. split_and!; try done. }
  simpl in Hnd, Hfresh, Hlen. apply list.NoDup_app in Hnd as (Hnd & Hdis & Hnd').
  destruct (proj2 (go_nth_is_Some (sg_srvs sg) i)) as [s Hs]; [lia|].
  destruct (StartServer_total i names rs s sg Hs Hnd) as (sg1 & -> & Hsr1 & Hg1 & Hc1 & Hw1 & Hk1 & He1 & Hsv1);
    [set_solver|]. obind.
  assert (go_set (sg_srvs sg) i (mkSrv (Some (default MakePersister (saved s))) true names) =
          Some (sg_srvs sg1)) as Hset by (rewrite Hsr1; apply go_set_ok; lia).
  assert (length (sg_srvs sg1) = length (sg_srvs sg)) as Hl1 by (by eapply go_set_length).
  destruct (IH (i + 1) sg1 Hnd') as (sg' & Hr & Hg & Hc & Hl & Hk & Hlow & Hxs); [|lia|lia|].
  { intros e He. rewrite He1, not_elem_of_union, elem_of_list_to_set. set_solver. }
  exists sg'. rewrite Hg1 in *. split_and!; [done|done|congruence|congruence|by eapply keeps_trans| |].
  - intros a Ha. destruct (Hlow a) as [-> ->]; [lia|]. rewrite Hsv1.
    split; [eapply go_nth_set_ne; [exact Hset|lia]|].
    rewrite lookup_insert_ne; [done|]. intros Hn%ServerName_inj. lia.
  - intros [|k] ns rs' Hx; simpl in Hx.
    + injection Hx as <- <-. rewrite Z.add_0_r. destruct (Hlow i) as [Hlo1 Hlo2]; [lia|]. split_and!.
      * exists s. split; [done|]. rewrite Hlo1. by eapply go_nth_set_eq.
      * eapply wired_keeps; [exact Hw1| |exact Hk]. intros e He. rewrite He1. set_solver.
      * rewrite Hlo2, Hsv1. apply lookup_insert_eq.
    + destruct (Hxs k ns rs' Hx) as ((s' & Hs1 & Hs2) & Hw & Hsv).
      replace (i + Z.of_nat (S k)) with (i + 1 + Z.of_nat k) by lia. split_and!; [|done|done].
      exists s'. split; [|done]. rewrite <-Hs1. symmetry. eapply go_nth_set_ne; [exact Hset|lia].
Qed.

(** ** Connecting them *)

(** Enabling changes nothing but [enabled]. *)
Definition same_tables (net net' : Network) : Prop :=
  connections net' = connections net ∧ servers net' = servers net ∧ reliable net' = reliable net ∧
  ends net' = ends net.

Lemma enableEach_tables en pick js : ∀ net net',
  enableEach en pick js net = Some net' → same_tables net net'.
Proof.
  induction js as [|j js IH] using rev_ind; intros net net' H; [by injection H as <-|].
  unfold enableEach in H. rewrite foldl_snoc in H. apply bind_Some in H as (net1 & H1 & H).
  apply IH in H1. apply bind_Some in H as (o & _ & [= <-]). by destruct o.
Qed.

Lemma connect_tables i to sg sg' :
  connect i to sg = Some sg' → sg_gid sg' = sg_gid sg ∧ same_tables (sg_net sg) (sg_net sg').
Proof.
  unfold connect, Srv_connect.
  intros (conn & _ & (s & _ & (net1 & H1%enableEach_tables & (net2 & H2%enableEach_tables & [= <-])%bind_Some)%bind_Some)%bind_Some)%bind_Some.
  split; [done|]. simpl. destruct H1 as (? & ? & ? & ?), H2 as (? & ? & ? & ?). split_and!; congruence.
Qed.

Lemma all_in sg j : j ∈ all sg ↔ in_group sg j.
Proof. unfold all, in_group. rewrite elem_of_seqZ. lia. Qed.

Lemma ConnectOnes_spec js sg :
  grp_ok sg → (∀ j, j ∈ js → in_group sg j) →
  ∃ sg', foldl (λ osg i, sg ← osg; ConnectOne i sg) (Some sg) js = Some sg' ∧
    sg_srvs sg' = sg_srvs sg ∧ length (connected sg') = length (connected sg) ∧
    sg_gid sg' = sg_gid sg ∧ same_tables (sg_net sg) (sg_net sg') ∧
    (∀ a, a ∈ js → is_conn sg' a) ∧ (∀ a b, a ∈ js → b ∈ js → link sg' a b).
Proof.
  intros Hok. induction js as [|i js IH] using rev_ind; intros Hjs.
  - exists sg. split_and!; try done; by intros a ?%elem_of_nil || intros a b ?%elem_of_nil.
  - destruct IH as (sg1 & Hr & Hs1 & Hl1 & Hg1 & Ht1 & Hc1 & Hlink1); [set_solver|].
    assert (grp_ok sg1) as Hok1 by (by eapply grp_ok_frame).
    assert (∀ j, in_group sg1 j ↔ in_group sg j) as Hin by (intros j; unfold in_group; by rewrite Hs1).
    destruct (connect_spec i (all sg1) sg1 Hok1) as (sg2 & H2 & Hs2 & Hc2 & Hlink2).
    { apply Hin, Hjs. set_solver. }
    { intros j. by rewrite all_in. }
    destruct (connect_tables _ _ _ _ H2) as [Hg2 Ht2].
    exists sg2. rewrite foldl_snoc, Hr. obind. unfold ConnectOne.
    assert (in_group sg i) as Hi by (apply Hjs; set_solver).
    assert (length (connected sg1) = length (sg_srvs sg)) as Hlc by (rewrite Hl1; apply Hok).
    assert (∀ a, a ∈ js ++ [i] → is_conn sg2 a) as Hconn.
    { intros a Ha. pose proof (Hjs a Ha) as Hga.
      rewrite (is_conn_insert sg2 i true a (connected sg1)); [|done|unfold in_group in *; lia|unfold in_group in Hga; lia].
      case_decide; [done|]. apply elem_of_app in Ha as [Ha|Ha]; [by apply Hc1|set_solver]. }
    split_and!; [done|congruence|rewrite Hc2, length_insert; done|congruence| |done|].
    { destruct Ht1 as (? & ? & ? & ?), Ht2 as (? & ? & ? & ?). split_and!; congruence. }
    intros a b Ha Hb. apply Hlink2; [by apply Hin, Hjs..|].
    destruct (decide (a = i)) as [->|Hai].
    { right; left. split_and!; [done|by apply all_in, Hin, Hjs|by apply Hconn]. }
    destruct (decide (b = i)) as [->|Hbi].
    { right; right. split_and!; [done|by apply all_in, Hin, Hjs|by apply Hconn]. }
    left. apply Hlink1; set_solver.
Qed.

(** ** A new configuration *)

Lemma started_ok (xs : list (list string * nat)) sg :
  (∀ ns, ns ∈ xs.*1 → length ns = length xs) → NoDup (concat xs.*1) →
  length (connected sg) = length xs → endNames <$> sg_srvs sg = xs.*1 → grp_ok sg.
Proof.
  intros Hlen Hnd Hc Hn.
  assert (length (sg_srvs sg) = length xs) as Hl
    by (apply (f_equal length) in Hn; by rewrite !length_fmap in Hn).
  assert (∀ (a : nat) s, sg_srvs sg !! a = Some s → xs.*1 !! a = Some (endNames s)) as Hsrv
    by (intros a s Hs; by rewrite <-Hn, list_lookup_fmap, Hs).
  constructor; unfold in_group, endName.
  - congruence.
  - intros a b Ha Hb. destruct (proj2 (go_nth_is_Some _ a) Ha) as [s Hs]. rewrite Hs. cbn.
    apply go_nth_is_Some. apply go_nth_lookup in Hs as [_ Hs].
    rewrite (Hlen (endNames s)); [lia|]. by eapply list_elem_of_lookup_2, Hsrv.
  - intros a b a' b' e (s & [Ha Hs]%go_nth_lookup & [Hb He]%go_nth_lookup)%bind_Some
      (s' & [Ha' Hs']%go_nth_lookup & [Hb' He']%go_nth_lookup)%bind_Some.
    destruct (concat_distinct xs.*1 (Z.to_nat a) (Z.to_nat b) (Z.to_nat a') (Z.to_nat b')
                (endNames s) (endNames s') e Hnd); [by apply Hsrv|done|by apply Hsrv|done|]. lia.
Qed.

Lemma makeSrvGrp_total gid names net :
  NoDup (concat names) → (∀ e, e ∈ concat names → e ∉ ends net) →
  ∃ sg, makeSrvGrp gid names net = Some sg ∧ sg_gid sg = gid ∧
    sg_srvs sg = mkSrv None false <$> names ∧ connected sg = replicate (length names) false ∧
    ends (sg_net sg) = list_to_set (concat names) ∪ ends net.
Proof.
  intros Hnd Hfresh. unfold makeSrvGrp.
  destruct (makeServers_total gid names net Hnd Hfresh) as (net' & srvs & -> & -> & _ & He).
  obind. eexists. split; [done|]. by split_and!.
Qed.

(** What [StartServers] makes of servers that have never run. *)
Lemma StartServers_spec (xs : list (list string * nat)) sg :
  (∀ ns, ns ∈ xs.*1 → length ns = length xs) → NoDup (concat xs.*1) →
  (∀ e, e ∈ concat xs.*1 → e ∉ ends (sg_net sg)) →
  length (sg_srvs sg) = length xs → length (connected sg) = length xs →
  (∀ s, s ∈ sg_srvs sg → saved s = None) →
  ∃ sg', StartServers xs sg = Some sg' ∧ grp_ok sg' ∧
    sg_srvs sg' = (λ x, mkSrv (Some MakePersister) true x.1) <$> xs ∧
    (∀ (a b : nat) ns rs e ns' rs', xs !! a = Some (ns, rs) → ns !! b = Some e →
       xs !! b = Some (ns', rs') → alive (sg_net sg') e rs').
Proof.
  intros Hlen Hnd Hfresh Hl Hc Hsaved. unfold StartServers, start_grp.
  destruct (start_from_spec xs 0 sg Hnd Hfresh) as (sg1 & -> & Hg1 & Hc1 & Hl1 & Hk1 & _ & Hxs); [lia|lia|].
  obind.
  assert (sg_srvs sg1 = (λ x, mkSrv (Some MakePersister) true x.1) <$> xs) as Hs1.
  { apply list_eq_same_length with (length xs); [by rewrite length_fmap|congruence|].
    intros a s s' Ha Hs Hs'. rewrite list_lookup_fmap in Hs'.
    destruct (xs !! a) as [[ns rs]|] eqn:Hx; [|done]. injection Hs' as <-.
    destruct (Hxs a ns rs Hx) as ((s0 & Hs0 & Hs1) & _). rewrite Z.add_0_l, go_nth_nat in Hs0, Hs1.
    rewrite (Hsaved s0) in Hs1 by (by eapply list_elem_of_lookup_2). simpl in *. congruence. }
  assert (grp_ok sg1) as Hok.
  { apply (started_ok xs); [done|done|congruence|]. rewrite Hs1, <-list_fmap_compose. done. }
  destruct (ConnectOnes_spec (all sg1) sg1 Hok) as (sg2 & Hr & Hs2 & Hcl & _ & Ht & _ & Hlink).
  { intros j. by rewrite all_in. }
  exists sg2. split; [exact Hr|]. split; [by eapply grp_ok_frame|]. split; [by rewrite Hs2|].
  intros a b ns rs e ns' rs' Ha He Hb. destruct Ht as (Htc & Hts & _).
  assert (∀ (c : nat) x, xs !! c = Some x → Z.of_nat c ∈ all sg1) as Hall.
  { intros c x Hx%lookup_lt_Some. apply all_in. unfold in_group. rewrite Hs1, length_fmap. lia. }
  destruct (Hlink (Z.of_nat a) (Z.of_nat b)) as (e' & He' & Hen); [by eapply Hall..|].
  unfold endName in He'. rewrite Hs2, Hs1, go_nth_nat, list_lookup_fmap, Ha in He'. cbn in He'.
  rewrite go_nth_nat, He in He'. injection He' as <-.
  destruct (Hxs a ns rs Ha) as (_ & Hw & _). destruct (Hxs b ns' rs' Hb) as (_ & _ & Hsv).
  split; [done|]. exists (ServerName (sg_gid sg) (Z.of_nat b)). rewrite Htc, Hts.
  rewrite Z.add_0_l in Hsv. split; [by apply Hw|done].
Qed.

(** A new configuration works: with as many distinct names of ends as there
    are, MakeConfig does not panic; every server of group 0 runs, with an empty
    persister; and from every server the end for every server, itself included,
    is enabled and leads to the object that serves that server, on a network
    that is reliable as asked. *)
Theorem MakeConfig_connects names (xs : list (list string * nat)) rel :
  length names = length xs → (∀ ns, ns ∈ xs.*1 → length ns = length xs) →
  NoDup (concat names ++ concat xs.*1) →
  ∃ cfg sg, MakeConfig names xs rel = Some cfg ∧ lookupGroup GRP0 cfg = Some sg ∧
    Config_IsReliable cfg = rel ∧ N sg = len xs ∧
    (∀ s, s ∈ sg_srvs sg → saved s = Some MakePersister ∧ running s = true) ∧
    (∀ (a b : nat) ns rs e ns' rs', xs !! a = Some (ns, rs) → ns !! b = Some e →
       xs !! b = Some (ns', rs') → alive (cfg_net cfg) e rs').
Proof.
  intros Hn Hlen (Hnd & Hdis & Hnd')%list.NoDup_app. unfold MakeConfig, MakeGroupStart, MakeGroup.
  destruct (makeSrvGrp_total GRP0 names (cfg_net newConfig) Hnd) as (sg0 & -> & Hg0 & Hs0 & Hc0 & He0).
  { intros e _. simpl. set_solver. }
  obind. unfold on_group, lookupGroup. cbn [grps set_grps set_cfg_net cfg_net].
  rewrite lookup_insert_eq. cbn [fmap option_fmap option_map]. obind.
  destruct (StartServers_spec xs (set_net (sg_net sg0) sg0) Hlen Hnd') as (sg1 & -> & _ & Hs1 & Ha1).
  - intros e He. simpl. rewrite He0. simpl. rewrite not_elem_of_union, elem_of_list_to_set.
    split; [|set_solver]. intros Hin. by apply (Hdis e).
  - simpl. by rewrite Hs0, length_fmap.
  - simpl. by rewrite Hc0, length_replicate.
  - intros s Hs. simpl in Hs. rewrite Hs0 in Hs. by apply list_elem_of_fmap in Hs as (ns & -> & _).
  - obind. eexists _, _. split; [done|]. split.
    { cbn [grps SetReliable set_clerks set_cfg_net set_grps cfg_net]. by rewrite lookup_insert_eq. }
    split; [done|]. split; [unfold N; simpl; by rewrite Hs1, length_fmap|]. split.
    + intros s Hs. simpl in Hs. rewrite Hs1 in Hs. by apply list_elem_of_fmap in Hs as (x & -> & _).
    + exact Ha1.
Qed.

(** ** Shuffling *)

Lemma swap_Permutation {A} i j (sa : list A) : swap i j sa ≡ₚ sa.
Proof.
  unfold swap. destruct (sa !! i) eqn:Hi, (sa !! j) eqn:Hj; try done.
  by apply Permutation_insert_swap.
Qed.

(** The handles are only put in another order. *)
Lemma random_handles_Permutation {A} (kvh : list A) rand : random_handles kvh rand ≡ₚ kvh.
Proof.
  unfold random_handles. generalize (seq 0 (length kvh)) as js. intros js.
  induction js as [|i js IH] using rev_ind; [done|]. rewrite foldl_snoc. by rewrite swap_Permutation.
Qed.

(** ** An instance: two servers *)

Definition two_names : list (list string) := [["a0"; "a1"]; ["b0"; "b1"]].
Definition two_servers : list (list string * nat) := [(["c0"; "c1"], 5%nat); (["d0"; "d1"], 6%nat)].

Lemma MakeConfig_connects_witness :
  ∃ cfg, MakeConfig two_names two_servers true = Some cfg ∧ alive (cfg_net cfg) "c1" 6.
Proof.
  destruct (MakeConfig_connects two_names two_servers true) as (cfg & sg & H & _ & _ & _ & _ & Ha).
  - reflexivity.
  - intros ns Hns. assert (ns = ["c0"; "c1"] ∨ ns = ["d0"; "d1"]) as [->| ->] by set_solver; reflexivity.
  - apply (bool_decide_unpack _). vm_compute. exact I.
  - exists cfg. split; [exact H|].
    exact (Ha 0%nat 1%nat ["c0"; "c1"] 5%nat "c1" ["d0"; "d1"] 6%nat eq_refl eq_refl eq_refl).
Defined.
