(* ===== verification/Annotation.v ===== *)
(** * Annotations of the test runs

    Models src/6.5840/src/tester1/annotation.go: the annotations that the tests
    and the users put on the history of a run, and the description of the faults
    that the test framework keeps up to date.  The clock is an argument ([t]);
    what is done with the annotations (porcupine's visualization, files) is
    outside. *)

From stdpp Require Import pretty.
From S2P Require Import Prelude.

Record PAnnotation := mkPAnnotation {
  Tag : string; Start : Z; End_ : Z; Description : string; Details : string; BackgroundColor : string
}.

Record Continuous := mkContinuous {
  co_start : Z; co_desp : string; co_details : string; co_bgcolor : string
}.

Record Annotation := mkAnnotation' {
  annotations : list PAnnotation;
  continuous : gmap string Continuous;
  finalized : bool
}.

Record CheckerBegin := mkCheckerBegin { cb_ts : Z; cb_details : string }.

Record FrameworkInfo := mkFrameworkInfo' {
  nservers : nat;
  connected : list bool;
  crashed : list bool;
  ckbegin : CheckerBegin
}.

(** The package's variables; [finfo] is nil until a test is announced. *)
Record Globals := mkGlobals { annotation : Annotation; finfo : option FrameworkInfo }.

Definition COLOR_INFO : string := "#FAFAFA".
Definition COLOR_NEUTRAL : string := "#FFECB3".
Definition COLOR_SUCCESS : string := "#C8E6C9".
Definition COLOR_FAILURE : string := "#FFCDD2".
Definition COLOR_FAULT : string := "#B3E5FC".
Definition COLOR_USER : string := "#FFF176".
Definition TAG_CHECKER : string := "$ Checker".
Definition TAG_PARTITION : string := "$ Failure".
Definition TAG_INFO : string := "$ Test Info".

(** ** The methods of Annotation *)

Definition mkAnnotation : Annotation := mkAnnotation' [] ∅ false.

Definition clear (an : Annotation) : Annotation := mkAnnotation' [] ∅ false.

Definition push (a : PAnnotation) (an : Annotation) : Annotation :=
  mkAnnotation' (annotations an ++ [a]) (continuous an) (finalized an).

Definition annotatePointColor (tag desp details bgcolor : string) (t : Z) (an : Annotation) :
    Annotation :=
  push (mkPAnnotation tag t 0 desp details bgcolor) an.

Definition annotateIntervalColor (tag : string) (start : Z) (desp details bgcolor : string) (t : Z)
    (an : Annotation) : Annotation :=
  push (mkPAnnotation tag start t desp details bgcolor) an.

(** The annotation of what was going on under a tag from its start until [t]. *)
Definition concretize (tag : string) (cont : Continuous) (t : Z) : PAnnotation :=
  mkPAnnotation tag (co_start cont) t (co_desp cont) (co_details cont) (co_bgcolor cont).

Definition annotateContinuousColor (tag desp details bgcolor : string) (t : Z) (an : Annotation) :
    Annotation :=
  let start m := <[tag := mkContinuous t desp details bgcolor]> m in
  match continuous an !! tag with
  | None => mkAnnotation' (annotations an) (start (continuous an)) (finalized an)
  | Some cont =>
      mkAnnotation' (annotations an ++ [concretize tag cont t]) (start (continuous an)) (finalized an)
  end.

(** The [if !ok] of the source does nothing: a missing entry is the zero value. *)
Definition annotateContinuousEnd (tag : string) (t : Z) (an : Annotation) : Annotation :=
  let cont := default (mkContinuous 0 "" "" "") (continuous an !! tag) in
  mkAnnotation' (annotations an ++ [concretize tag cont t]) (delete tag (continuous an)) (finalized an).

(** The loop over the map, in the order [iter]. *)
Definition finalize (iter : gmap string Continuous → list (string * Continuous)) (t : Z)
    (an : Annotation) : list PAnnotation * Annotation :=
  (annotations an ++ ((λ '(tag, cont), concretize tag cont t) <$> iter (continuous an)),
   mkAnnotation' (annotations an) (continuous an) true).

(** The annotation that marks the end of the test. *)
Definition endMark (end_ : string) (t : Z) : PAnnotation :=
  mkPAnnotation TAG_INFO t 0 end_ end_ COLOR_INFO.

Definition FinalizeAnnotations iter (end_ : string) (t t' : Z) (g : Globals) :
    list PAnnotation * Globals :=
  let '(l, an) := finalize iter t (annotation g) in
  (l ++ [endMark end_ t'], mkGlobals an (finfo g)).

(** [cleanup]: the annotations that are visualized, if any (and if the file can
    be opened). *)
Definition cleanup iter (enabled : string) (failed : bool) (end_ : string) (t t' : Z)
    (an : Annotation) : option (list PAnnotation) * Annotation :=
  if decide (enabled = "never") then (None, clear an)
  else if negb failed && negb (bool_decide (enabled = "always")) then (None, clear an)
  else if finalized an then (None, clear an)
  else
    let '(l, an) := finalize iter t an in
    if decide (l = []) then (None, an) else (Some (l ++ [endMark end_ t']), an).

(** ** The public functions *)

Definition on_annotation (f : Annotation → Annotation) (g : Globals) : Globals :=
  mkGlobals (f (annotation g)) (finfo g).

Definition AnnotatePointColor tag desp details bgcolor t : Globals → Globals :=
  on_annotation (annotatePointColor tag desp details bgcolor t).
Definition AnnotateIntervalColor tag start desp details bgcolor t : Globals → Globals :=
  on_annotation (annotateIntervalColor tag start desp details bgcolor t).
Definition AnnotateContinuousColor tag desp details bgcolor t : Globals → Globals :=
  on_annotation (annotateContinuousColor tag desp details bgcolor t).
Definition AnnotateContinuousEnd tag t : Globals → Globals :=
  on_annotation (annotateContinuousEnd tag t).

Definition Annotate tag desp details t : Globals → Globals :=
  AnnotatePointColor tag desp details COLOR_USER t.
Definition AnnotateInterval tag start desp details t : Globals → Globals :=
  AnnotateIntervalColor tag start desp details COLOR_USER t.
Definition AnnotateContinuous tag desp details t : Globals → Globals :=
  AnnotateContinuousColor tag desp details COLOR_USER t.
Definition AnnotateInfo desp details t : Globals → Globals :=
  AnnotatePointColor TAG_INFO desp details COLOR_INFO t.
Definition AnnotateInfoInterval start desp details t : Globals → Globals :=
  AnnotateIntervalColor TAG_INFO start desp details COLOR_INFO t.

Definition SetAnnotationFinalized : Globals → Globals :=
  on_annotation (λ an, mkAnnotation' (annotations an) (continuous an) true).
Definition GetAnnotationFinalized (g : Globals) : bool := finalized (annotation g).

Definition mkFrameworkInfo (n : nat) : FrameworkInfo :=
  mkFrameworkInfo' n (replicate n true) (replicate n false) (mkCheckerBegin 0 "").

Definition AnnotateTest (desp : string) (n : nat) (t : Z) (g : Globals) : Globals :=
  let details := (desp +:+ " (" +:+ pretty (Z.of_nat n) +:+ " servers)")%string in
  AnnotateInfo details details t (mkGlobals (clear (annotation g)) (Some (mkFrameworkInfo n))).

(** ** Checkers

    [None] is the nil dereference when no test has been announced. *)

Definition AnnotateCheckerBegin (details : string) (t : Z) (g : Globals) : option Globals :=
  fi ← finfo g;
  Some (mkGlobals (annotation g)
          (Some (mkFrameworkInfo' (nservers fi) (connected fi) (crashed fi) (mkCheckerBegin t details)))).

(** The assignment [ckbegin.ts = 0] at the end is to a local copy. *)
Definition AnnotateCheckerEnd (desp details color : string) (t : Z) (g : Globals) : option Globals :=
  fi ← finfo g;
  let ckbegin := ckbegin fi in
  if cb_ts ckbegin =? 0 then Some (AnnotatePointColor TAG_CHECKER desp details color t g)
  else
    let d := (cb_details ckbegin +:+ ": " +:+ details)%string in
    Some (AnnotateIntervalColor TAG_CHECKER (cb_ts ckbegin) desp d color t g).

Definition AnnotateCheckerSuccess desp details := AnnotateCheckerEnd desp details COLOR_SUCCESS.
Definition AnnotateCheckerFailure desp details := AnnotateCheckerEnd desp details COLOR_FAILURE.
Definition AnnotateCheckerNeutral desp details := AnnotateCheckerEnd desp details COLOR_NEUTRAL.

(** ** Faults *)

(** [fmt.Sprintf("%v", l)] of a slice of ints. *)
Definition showInts (l : list nat) : string :=
  ("[" +:+ String.concat " " ((λ n, pretty (Z.of_nat n)) <$> l) +:+ "]")%string.

(** The loop over the servers: the connected ones, the crashed ones, and the
    text about the disconnected ones; [crashed[id]] may panic. *)
Fixpoint faultLoop (id : nat) (conn_l crash_l : list bool) (conn crashes : list nat) (text : string) :
    option (list nat * list nat * string) :=
  match conn_l with
  | [] => Some (conn, crashes, text)
  | c :: conn_l =>
      crash ← head crash_l;
      if (crash : bool) then faultLoop (S id) conn_l (tail crash_l) conn (crashes ++ [id]) text
      else if (c : bool) then faultLoop (S id) conn_l (tail crash_l) (conn ++ [id]) crashes text
      else faultLoop (S id) conn_l (tail crash_l) conn crashes
             (text +:+ "[" +:+ pretty (Z.of_nat id) +:+ "] ")%string
  end.

Definition faultText (fi : FrameworkInfo) : option string :=
  '(conn, crashes, text) ← faultLoop 0 (connected fi) (crashed fi) [] [] "partition = ";
  let text := if decide (conn = []) then text else (text +:+ showInts conn)%string in
  Some (if decide (crashes = []) then text else (text +:+ " / crash = " +:+ showInts crashes)%string).

(** No partition and no crash. *)
Definition healthy (fi : FrameworkInfo) : bool :=
  bool_decide (connected fi = replicate (nservers fi) true) &&
  bool_decide (crashed fi = replicate (nservers fi) false).

Definition annotateFault (t : Z) (fi : FrameworkInfo) (an : Annotation) : option Globals :=
  if healthy fi then Some (mkGlobals (annotateContinuousEnd TAG_PARTITION t an) (Some fi))
  else
    text ← faultText fi;
    Some (mkGlobals (annotateContinuousColor TAG_PARTITION text text COLOR_FAULT t an) (Some fi)).

Definition set_connected (l : list bool) (fi : FrameworkInfo) : FrameworkInfo :=
  mkFrameworkInfo' (nservers fi) l (crashed fi) (ckbegin fi).
Definition set_crashed (l : list bool) (fi : FrameworkInfo) : FrameworkInfo :=
  mkFrameworkInfo' (nservers fi) (connected fi) l (ckbegin fi).

Definition AnnotateConnection (connection : list bool) (t : Z) (g : Globals) : option Globals :=
  fi ← finfo g;
  if decide (connected fi = connection) then Some g
  else annotateFault t (set_connected (go_copy (connected fi) connection) fi) (annotation g).

Definition AnnotateTwoPartitions (p1 p2 : list nat) (t : Z) : Globals → Globals :=
  let text := ("partition = " +:+ showInts p1 +:+ " " +:+ showInts p2)%string in
  AnnotateContinuousColor TAG_PARTITION text text COLOR_FAULT t.

Definition AnnotateClearFailure (t : Z) (g : Globals) : option Globals :=
  fi ← finfo g;
  let fi := set_connected ((λ _, true) <$> connected fi) (set_crashed ((λ _, false) <$> crashed fi) fi) in
  Some (mkGlobals (annotateContinuousEnd TAG_PARTITION t (annotation g)) (Some fi)).

(** The loops of AnnotateShutdown ([down] true) and AnnotateRestart. *)
Fixpoint markCrashed (down : bool) (servers : list Z) (crashed : list bool) (changed : bool) :
    option (list bool * bool) :=
  match servers with
  | [] => Some (crashed, changed)
  | id :: servers =>
      c ← go_nth crashed id;
      crashed ← go_set crashed id down;
      markCrashed down servers crashed (changed || negb (Bool.eqb c down))
  end.

Definition annotateCrash (down : bool) (servers : list Z) (t : Z) (g : Globals) : option Globals :=
  fi ← finfo g;
  '(crashed, changed) ← markCrashed down servers (crashed fi) false;
  let fi := set_crashed crashed fi in
  if (changed : bool) then annotateFault t fi (annotation g)
  else Some (mkGlobals (annotation g) (Some fi)).

Definition AnnotateShutdown : list Z → Z → Globals → option Globals := annotateCrash true.
Definition AnnotateRestart : list Z → Z → Globals → option Globals := annotateCrash false.

Definition allServers (g : Globals) : option (list Z) :=
  fi ← finfo g; Some (seqZ 0 (Z.of_nat (nservers fi))).
Definition AnnotateShutdownAll (t : Z) (g : Globals) : option Globals :=
  servers ← allServers g; AnnotateShutdown servers t g.
Definition AnnotateRestartAll (t : Z) (g : Globals) : option Globals :=
  servers ← allServers g; AnnotateRestart servers t g.

(** Used before [log.Fatalf]. *)
Definition AnnotateCheckerFailureBeforeExit iter enabled desp details (t t' t'' : Z) (g : Globals) :
    option (option (list PAnnotation) * Globals) :=
  g ← AnnotateCheckerFailure desp details t g;
  let '(out, an) := cleanup iter enabled true "test failed" t' t'' (annotation g) in
  Some (out, mkGlobals an (finfo g)).

(** ** A checker's begin is never reset *)

(** Calls of AnnotateCheckerEnd, one after the other. *)
Definition checkerEnds (ends : list (string * string * string * Z)) (g : Globals) : option Globals :=
  foldl (λ og '(desp, details, color, t), g ← og; AnnotateCheckerEnd desp details color t g)
    (Some g) ends.

(** The annotations these calls add. *)
Definition checkerIntervals (details : string) (t0 : Z) (ends : list (string * string * string * Z)) :
    list PAnnotation :=
  (λ '(desp, d, color, t),
     mkPAnnotation TAG_CHECKER t0 t desp (details +:+ ": " +:+ d)%string color) <$> ends.

Lemma checkerEnds_intervals details t0 ends : ∀ g fi,
  t0 ≠ 0 → finfo g = Some fi → ckbegin fi = mkCheckerBegin t0 details →
  ∃ g', checkerEnds ends g = Some g' ∧
    annotations (annotation g') = annotations (annotation g) ++ checkerIntervals details t0 ends.
Proof.
  induction ends as [|[[[desp d] color] t] ends IH]; intros g fi Ht H1 H2.
  { exists g. split; [done|]. by rewrite app_nil_r. }
  unfold checkerEnds. cbn [foldl mbind option_bind]. unfold AnnotateCheckerEnd at 2. rewrite H1. simpl.
  rewrite H2. simpl. rewrite (proj2 (Z.eqb_neq _ _)) by done.
  destruct (IH (AnnotateIntervalColor TAG_CHECKER t0 desp (details +:+ ": " +:+ d)%string color t g) fi)
    as (g' & Hr & Ha); [done..|].
  exists g'. split; [exact Hr|]. rewrite Ha. simpl. by rewrite <-app_assoc.
Qed.

(** After AnnotateCheckerBegin at a time other than 0, all calls of
    AnnotateCheckerEnd, not just the first one, add an interval that starts at
    that time and repeats its text: the code resets the time in a copy. *)
Theorem checker_begin_sticks details t0 ends g :
  t0 ≠ 0 → is_Some (finfo g) →
  ∃ g0 g', AnnotateCheckerBegin details t0 g = Some g0 ∧ checkerEnds ends g0 = Some g' ∧
    annotations (annotation g') =
      annotations (annotation g) ++ checkerIntervals details t0 ends.
Proof.
  intros Ht [fi Hfi]. unfold AnnotateCheckerBegin. rewrite Hfi. simpl. eexists.
  set (g0 := mkGlobals _ _). destruct (checkerEnds_intervals details t0 ends g0 _ Ht eq_refl eq_refl)
    as (g' & Hr & Ha). by exists g'.
Qed.

(** ** The fault annotation follows the state *)

Definition framework_ok (fi : FrameworkInfo) : Prop :=
  length (connected fi) = nservers fi ∧ length (crashed fi) = nservers fi.

(** What the test framework calls, with arguments that fit the test. *)
Inductive FrameOp :=
| FConnection (connection : list bool)
| FShutdown (servers : list Z)
| FRestart (servers : list Z)
| FShutdownAll
| FRestartAll
| FClearFailure
| FCheckerBegin (details : string)
| FCheckerEnd (desp details color : string).

Definition frame_op (op : FrameOp) (t : Z) (g : Globals) : option Globals :=
  match op with
  | FConnection l => AnnotateConnection l t g
  | FShutdown l => AnnotateShutdown l t g
  | FRestart l => AnnotateRestart l t g
  | FShutdownAll => AnnotateShutdownAll t g
  | FRestartAll => AnnotateRestartAll t g
  | FClearFailure => AnnotateClearFailure t g
  | FCheckerBegin details => AnnotateCheckerBegin details t g
  | FCheckerEnd desp details color => AnnotateCheckerEnd desp details color t g
  end.

Definition frame_ok (n : nat) (op : FrameOp) : Prop :=
  match op with
  | FConnection l => length l = n
  | FShutdown l | FRestart l => Forall (λ id, 0 <= id < Z.of_nat n) l
  | _ => True
  end.

Definition frame_run (ops : list (FrameOp * Z)) (g : Globals) : option Globals :=
  foldl (λ og '(op, t), g ← og; frame_op op t g) (Some g) ops.

(** *** What it has to say

    Which servers are connected to the network and which have crashed, by number,
    and how the calls of the framework change that. *)
Record Fleet := mkFleet { is_up : nat → bool; is_down : nat → bool }.

Definition fleet_op (op : FrameOp) (f : Fleet) : Fleet :=
  match op with
  | FConnection l => mkFleet (λ id, default true (l !! id)) (is_down f)
  | FShutdown l => mkFleet (is_up f) (λ id, bool_decide (Z.of_nat id ∈ l) || is_down f id)
  | FRestart l => mkFleet (is_up f) (λ id, negb (bool_decide (Z.of_nat id ∈ l)) && is_down f id)
  | FShutdownAll => mkFleet (is_up f) (λ _, true)
  | FRestartAll => mkFleet (is_up f) (λ _, false)
  | FClearFailure => mkFleet (λ _, true) (λ _, false)
  | FCheckerBegin _ | FCheckerEnd _ _ _ => f
  end.

(** All servers are connected and none has crashed, when a test begins. *)
Definition fleet0 : Fleet := mkFleet (λ _, true) (λ _, false).

Definition fleet_run (ops : list (FrameOp * Z)) (f : Fleet) : Fleet :=
  foldl (λ f '(op, _), fleet_op op f) f ops.

(** One of the [n] servers is disconnected or crashed. *)
Definition in_trouble (n : nat) (f : Fleet) : Prop :=
  Exists (λ id, is_up f id = false ∨ is_down f id = true) (seq 0 n).

#[export] Instance in_trouble_dec n f : Decision (in_trouble n f).
Proof. unfold in_trouble. apply _. Defined.

(** Of the servers that have not crashed, each that is disconnected is alone, the
    others are together; the crashed ones come last. *)
Definition lonely (f : Fleet) (ids : list nat) : list nat :=
  filter (λ id, is_down f id = false ∧ is_up f id = false) ids.
Definition together (f : Fleet) (ids : list nat) : list nat :=
  filter (λ id, is_down f id = false ∧ is_up f id = true) ids.
Definition gone (f : Fleet) (ids : list nat) : list nat := filter (λ id, is_down f id = true) ids.

Definition unless_empty (l : list nat) (text : string) : string :=
  match l with [] => "" | _ => text end.

Definition trouble_text (n : nat) (f : Fleet) : string :=
  let ids := seq 0 n in
  ("partition = " +:+ foldr (λ id s, "[" +:+ pretty (Z.of_nat id) +:+ "] " +:+ s) "" (lonely f ids) +:+
   unless_empty (together f ids) (showInts (together f ids)) +:+
   unless_empty (gone f ids) (" / crash = " +:+ showInts (gone f ids)))%string.

(** A fault annotation is going on exactly when there is trouble, with this text. *)
Definition mirrors (an : Annotation) (n : nat) (f : Fleet) : Prop :=
  if decide (in_trouble n f) then
    ∃ t, continuous an !! TAG_PARTITION =
           Some (mkContinuous t (trouble_text n f) (trouble_text n f) COLOR_FAULT)
  else continuous an !! TAG_PARTITION = None.

(** *** What it says *)

(** The lists of the framework hold the state of the servers. *)
Definition holds_fleet (fi : FrameworkInfo) (f : Fleet) : Prop :=
  connected fi = is_up f <$> seq 0 (nservers fi) ∧ crashed fi = is_down f <$> seq 0 (nservers fi).

Lemma holds_fleet_ok fi f : holds_fleet fi f → framework_ok fi.
Proof. intros [H1 H2]. split; [rewrite H1|rewrite H2]; by rewrite length_fmap, length_seq. Qed.

Lemma append_assoc (a b c : string) : ((a +:+ b) +:+ c = a +:+ (b +:+ c))%string.
Proof. induction a as [|x a IH]; [done|]. exact (f_equal (String x) IH). Qed.

Lemma append_empty (a : string) : (a +:+ "")%string = a.
Proof. induction a as [|x a IH]; [done|]. exact (f_equal (String x) IH). Qed.

Lemma faultLoop_spec f n : ∀ id conn crashes text,
  faultLoop id (is_up f <$> seq id n) (is_down f <$> seq id n) conn crashes text =
    Some (conn ++ together f (seq id n), crashes ++ gone f (seq id n),
          (text +:+ foldr (λ id s, "[" +:+ pretty (Z.of_nat id) +:+ "] " +:+ s) "" (lonely f (seq id n)))%string).
Proof.
  unfold together, gone, lonely.
  induction n as [|n IH]; intros id conn crashes text; cbn [seq fmap list_fmap faultLoop head hd_error].
  { by rewrite !list.filter_nil, !app_nil_r, append_empty. }
  cbn [mbind option_bind tail tl]. rewrite !filter_cons.
  destruct (is_down f id) eqn:Hd, (is_up f id) eqn:Hu; rewrite IH;
    repeat (case_decide as HH; [try by destruct HH|try by exfalso; apply HH]);
    cbn [foldr]; by rewrite <-?app_assoc, ?append_assoc.
Qed.

Lemma faultText_spec fi f : holds_fleet fi f → faultText fi = Some (trouble_text (nservers fi) f).
Proof.
  intros [H1 H2]. unfold faultText. rewrite H1, H2, faultLoop_spec. cbn [mbind option_bind app].
  f_equal. unfold trouble_text, unless_empty.
  destruct (together f _) as [|x l], (gone f _) as [|y l'];
    repeat (case_decide as HH; [try discriminate HH|try (exfalso; by apply HH); clear HH]);
    by rewrite ?append_assoc, ?append_empty.
Qed.

Lemma fmap_replicate (g : nat → bool) b n : ∀ id,
  g <$> seq id n = replicate n b ↔ Forall (λ i, g i = b) (seq id n).
Proof.
  induction n as [|n IH]; intros id; [by split|]. cbn [seq replicate].
  rewrite fmap_cons, list.Forall_cons, <-IH. split; [by intros [= H1 H2]|]. by intros [-> ->].
Qed.

Lemma healthy_spec fi f :
  holds_fleet fi f → healthy fi = bool_decide (¬ in_trouble (nservers fi) f).
Proof.
  intros [H1 H2]. unfold healthy, in_trouble. rewrite H1, H2.
  rewrite <-bool_decide_and. apply bool_decide_ext. rewrite !fmap_replicate, <-Forall_Exists_neg.
  rewrite !list.Forall_forall. split.
  - intros [Hc Hd] id Hin. rewrite Hc, Hd by done. by intros [|].
  - intros H. split; intros id Hin; specialize (H id Hin); destruct (is_up f id), (is_down f id); naive_solver.
Qed.

Lemma annotateFault_mirrors t fi f an :
  holds_fleet fi f →
  ∃ g, annotateFault t fi an = Some g ∧ finfo g = Some fi ∧ mirrors (annotation g) (nservers fi) f.
Proof.
  intros Hf. unfold annotateFault, mirrors. rewrite (healthy_spec fi f Hf), (faultText_spec fi f Hf).
  case_bool_decide as Ht; case_decide; try done.
  - eexists. split_and!; [done|done|]. simpl. apply lookup_delete_eq.
  - simpl. eexists. split_and!; [done|done|]. exists t. unfold annotateContinuousColor.
    destruct (continuous an !! TAG_PARTITION); apply lookup_insert_eq.
Qed.

Lemma filter_ext_in {A} (P Q : A → Prop) `{!∀ x, Decision (P x), !∀ x, Decision (Q x)} (l : list A) :
  (∀ x, x ∈ l → P x ↔ Q x) → filter P l = filter Q l.
Proof.
  induction l as [|x l IH]; intros Hl; [done|]. rewrite !filter_cons, IH by set_solver.
  assert (P x ↔ Q x) by set_solver. by repeat case_decide; try tauto.
Qed.

(** Only what the servers do matters. *)
Lemma mirrors_ext an n f f' :
  (∀ id, (id < n)%nat → is_up f' id = is_up f id ∧ is_down f' id = is_down f id) →
  mirrors an n f → mirrors an n f'.
Proof.
  intros He Hm.
  assert (∀ id, id ∈ seq 0 n → is_up f' id = is_up f id ∧ is_down f' id = is_down f id) as Hin.
  { intros id ?%elem_of_seq. apply He. lia. }
  assert (trouble_text n f' = trouble_text n f) as Htext.
  { assert (lonely f' (seq 0 n) = lonely f (seq 0 n) ∧ together f' (seq 0 n) = together f (seq 0 n) ∧
      gone f' (seq 0 n) = gone f (seq 0 n)) as (H1 & H2 & H3).
    { unfold lonely, together, gone. split_and!; apply filter_ext_in; intros id Hid;
        destruct (Hin id Hid) as [H1 H2]; by rewrite ?H1, ?H2. }
    unfold trouble_text. by rewrite H1, H2, H3. }
  assert (in_trouble n f' ↔ in_trouble n f) as Hiff.
  { unfold in_trouble. rewrite !list.Exists_exists.
    split; intros (id & Hid & H); exists id; (split; [done|]);
      destruct (Hin id Hid) as [H1 H2]; [by rewrite <-H1, <-H2|by rewrite H1, H2]. }
  unfold mirrors in *. rewrite Htext. case_decide; case_decide; tauto.
Qed.

(** *** Every call keeps it up to date *)

Definition frame_inv (n : nat) (f : Fleet) (g : Globals) : Prop :=
  ∃ fi, finfo g = Some fi ∧ nservers fi = n ∧ holds_fleet fi f ∧ mirrors (annotation g) n f.

Lemma list_of_fun {A} (l : list A) (g : nat → A) n :
  length l = n → (∀ id x, l !! id = Some x → g id = x) → l = g <$> seq 0 n.
Proof.
  intros <- Hg. apply list_eq. intros id. rewrite list_lookup_fmap.
  destruct (l !! id) as [x|] eqn:Hx.
  - rewrite lookup_seq_lt by (by eapply lookup_lt_Some). simpl. by rewrite (Hg id x).
  - by rewrite lookup_seq_ge by (by apply lookup_ge_None).
Qed.

Lemma markCrashed_spec down servers : ∀ l b,
  Forall (λ id, 0 <= id < len l) servers →
  ∃ l' b', markCrashed down servers l b = Some (l', b') ∧ length l' = length l ∧
    (b' = false → b = false ∧ l' = l) ∧
    ∀ id x, l !! id = Some x → l' !! id = Some (if bool_decide (Z.of_nat id ∈ servers) then down else x).
Proof.
  induction servers as [|id servers IH]; intros l b Hs; simpl; [exists l, b; by split_and!|].
  apply Forall_cons_1 in Hs as [Hid Hs].
  destruct (lookup_lt_is_Some_2 l (Z.to_nat id)) as [c Hc]; [lia|].
  assert (go_nth l id = Some c) as -> by (apply go_nth_lookup; split; [lia|done]). simpl.
  unfold go_set. rewrite (proj2 (Z.leb_le _ _)), (proj2 (Z.ltb_lt _ _)) by lia. simpl.
  destruct (IH (<[Z.to_nat id := down]> l) (b || negb (Bool.eqb c down))) as (l' & b' & -> & Hl & Hb & Hx).
  { by rewrite length_insert. }
  exists l', b'. rewrite length_insert in Hl. split_and!; [done|done| |].
  - intros [Hf ->]%Hb.
    apply orb_false_iff in Hf as [-> Hf]. split; [done|]. apply negb_false_iff, eqb_prop in Hf as ->.
    by apply list_insert_id.
  - intros k x Hk. destruct (decide (k = Z.to_nat id)) as [->|Hne].
    + rewrite (Hx _ down) by (apply list_lookup_insert_eq; lia).
      rewrite (bool_decide_eq_true_2 (_ ∈ id :: _)) by (rewrite Z2Nat.id by lia; apply list_elem_of_here).
      by case_bool_decide.
    + rewrite (Hx k x) by (by rewrite list_lookup_insert_ne). f_equal.
      rewrite (bool_decide_ext (Z.of_nat k ∈ servers) (Z.of_nat k ∈ id :: servers)); [done|].
      rewrite elem_of_cons. split; [by right|]. intros [|]; [lia|done].
Qed.

Lemma crash_inv n f f' down l t g :
  frame_inv n f g → Forall (λ id, 0 <= id < Z.of_nat n) l →
  (∀ id, (id < n)%nat → is_up f' id = is_up f id ∧
     is_down f' id = if bool_decide (Z.of_nat id ∈ l) then down else is_down f id) →
  ∃ g', annotateCrash down l t g = Some g' ∧ frame_inv n f' g'.
Proof.
  intros (fi & Hfi & Hn & Hf & Hm) Hl Hf'. destruct (holds_fleet_ok _ _ Hf) as [Hl1 Hl2].
  destruct Hf as [Hc Hd]. unfold annotateCrash. rewrite Hfi. simpl.
  destruct (markCrashed_spec down l (crashed fi) false) as (l' & b' & -> & Hlen & Hb & Hx);
    [by rewrite Hl2, Hn|]. simpl.
  assert (holds_fleet (set_crashed l' fi) f') as Hf2.
  { split; simpl; (apply list_of_fun; [lia|]); intros id x Hid;
      pose proof (lookup_lt_Some _ _ _ Hid) as Hlt; (destruct (Hf' id) as [H1 H2]; [lia|]).
    - rewrite Hc, list_lookup_fmap, lookup_seq_lt in Hid by lia. injection Hid as <-. done.
    - specialize (Hx id (is_down f id)). rewrite Hd, list_lookup_fmap, lookup_seq_lt in Hx by lia.
      rewrite (Hx eq_refl) in Hid. injection Hid as <-. done. }
  destruct b'.
  - destruct (annotateFault_mirrors t (set_crashed l' fi) f' (annotation g) Hf2) as (g' & -> & Hg' & Hm').
    exists g'. split; [done|]. exists (set_crashed l' fi). simpl in *. rewrite Hn in Hm'. by split_and!.
  - destruct Hb as [_ ->]; [done|]. eexists. split; [done|]. exists (set_crashed (crashed fi) fi).
    split_and!; [done|done|done|]. apply (mirrors_ext _ n f); [|done]. intros id Hid.
    destruct (Hf' id Hid) as [-> ->]. split; [done|]. destruct Hf2 as [_ Hd2]. simpl in Hd2.
    rewrite Hd in Hd2. apply (f_equal (.!! id)) in Hd2.
    rewrite !list_lookup_fmap, !lookup_seq_lt in Hd2 by lia. injection Hd2 as Hd2.
    destruct (Hf' id Hid) as [_ Hx']. simpl in *. congruence.
Qed.

Lemma frame_op_inv n f op t g :
  frame_inv n f g → frame_ok n op → ∃ g', frame_op op t g = Some g' ∧ frame_inv n (fleet_op op f) g'.
Proof.
  intros Hinv Hop. pose proof Hinv as (fi & Hfi & Hn & Hf & Hm).
  destruct (holds_fleet_ok _ _ Hf) as [Hl1 Hl2].
  assert (∀ id, (id < n)%nat → bool_decide (Z.of_nat id ∈ seqZ 0 (Z.of_nat n)) = true) as Hall.
  { intros id Hid. apply bool_decide_eq_true_2, elem_of_seqZ. lia. }
  assert (Forall (λ id, 0 <= id < Z.of_nat n) (seqZ 0 (Z.of_nat n))) as Hseq.
  { apply list.Forall_forall. intros id ?%elem_of_seqZ. lia. }
  destruct op as [l|l|l| | | |details|desp details color]; simpl in Hop; cbn [frame_op fleet_op].
  - unfold AnnotateConnection. rewrite Hfi. simpl.
    assert (∀ id x, l !! id = Some x → default true (l !! id) = x) as Hx by (by intros id x ->).
    case_decide as Hl.
    + exists g. split; [done|]. exists fi. split_and!; [done|done| |].
      * split; [|apply Hf]. simpl. rewrite Hl. by apply list_of_fun; [congruence|].
      * apply (mirrors_ext _ n f); [|done]. intros id Hid. split; [|done]. simpl.
        destruct Hf as [Hc _]. rewrite Hl in Hc. by rewrite Hc, list_lookup_fmap, lookup_seq_lt by lia.
    + rewrite go_copy_exact by lia. set (f' := mkFleet _ _).
      destruct (annotateFault_mirrors t (set_connected l fi) f' (annotation g)) as (g' & -> & Hg' & Hm').
      { split; [|apply Hf]. simpl. by apply list_of_fun; [congruence|]. }
      exists g'. split; [done|]. exists (set_connected l fi). simpl in *. rewrite Hn in Hm'.
      split_and!; [done|done| |done]. split; [|apply Hf]. simpl. by apply list_of_fun; [congruence|].
  - apply (crash_inv n f); [done|done|]. intros id Hid. split; [done|]. simpl. by case_bool_decide.
  - apply (crash_inv n f); [done|done|]. intros id Hid. split; [done|]. simpl. by case_bool_decide.
  - unfold AnnotateShutdownAll, AnnotateShutdown, allServers. rewrite Hfi. simpl. rewrite Hn.
    apply (crash_inv n f); [done|done|]. intros id Hid. by rewrite Hall.
  - unfold AnnotateRestartAll, AnnotateRestart, allServers. rewrite Hfi. simpl. rewrite Hn.
    apply (crash_inv n f); [done|done|]. intros id Hid. by rewrite Hall.
  - unfold AnnotateClearFailure. rewrite Hfi. simpl. eexists. split; [done|]. eexists.
    split_and!; [done|done| |].
    + destruct Hf as [H1 H2]. split; simpl; [rewrite H1|rewrite H2]; by rewrite <-list_fmap_compose.
    + unfold mirrors. case_decide as Ht; [|simpl; apply lookup_delete_eq].
      apply list.Exists_exists in Ht as (id & _ & [[=]|[=]]).
  - unfold AnnotateCheckerBegin. rewrite Hfi. simpl. eexists. split; [done|].
    eexists. by split_and!.
  - unfold AnnotateCheckerEnd. rewrite Hfi. simpl. destruct (_ =? _);
      (eexists; split; [done|]; exists fi; by split_and!).
Qed.

(** C29. From the announcement of a test on, whatever the framework connects,
    disconnects, shuts down, restarts, clears and checks, nothing panics, and at
    every moment a fault annotation is going on exactly when some server is
    disconnected or crashed, after those calls; its text says which ones: each
    disconnected server alone, the connected ones together, then the crashed. *)
Theorem fault_annotation_mirrors desp n t0 g ops :
  Forall (λ x, frame_ok n x.1) ops →
  ∃ g', frame_run ops (AnnotateTest desp n t0 g) = Some g' ∧
    mirrors (annotation g') n (fleet_run ops fleet0).
Proof.
  intros Hops.
  assert (frame_inv n fleet0 (AnnotateTest desp n t0 g)) as Hinv.
  { exists (mkFrameworkInfo n). split_and!; [done|done| |].
    - split; symmetry; apply fmap_replicate; by apply list.Forall_forall.
    - unfold mirrors. case_decide as Ht; [|done]. apply list.Exists_exists in Ht as (id & _ & [[=]|[=]]). }
  revert Hinv. generalize (AnnotateTest desp n t0 g) fleet0. unfold frame_run, fleet_run.
  induction ops as [|[op t] ops IH]; intros g0 f Hinv; cbn [foldl mbind option_bind].
  - exists g0. split; [done|]. by destruct Hinv as (fi & _ & _ & _ & ?).
  - apply Forall_cons_1 in Hops as [Hop Hops].
    destruct (frame_op_inv n f op t g0 Hinv Hop) as (g1 & -> & Hinv1). by apply IH.
Qed.

(** ** Continuous annotations do not overlap *)

Inductive AnnOp :=
| OPoint (tag desp details color : string)
| OInterval (tag : string) (start : Z) (desp details color : string)
| OContinuous (tag desp details color : string)
| OEnd (tag : string).

Definition ann_op (op : AnnOp) (t : Z) (an : Annotation) : Annotation :=
  match op with
  | OPoint tag desp details color => annotatePointColor tag desp details color t an
  | OInterval tag start desp details color => annotateIntervalColor tag start desp details color t an
  | OContinuous tag desp details color => annotateContinuousColor tag desp details color t an
  | OEnd tag => annotateContinuousEnd tag t an
  end.

Definition ann_run (ops : list (AnnOp * Z)) (an : Annotation) : Annotation :=
  foldl (λ an '(op, t), ann_op op t an) an ops.

(** The clock does not go back, the tag is only used for continuous annotations,
    and these are ended only while one is going on. *)
Fixpoint well_used (tag : string) (ongoing : bool) (now : Z) (ops : list (AnnOp * Z)) : Prop :=
  match ops with
  | [] => True
  | (op, t) :: ops =>
      now <= t ∧
      match op with
      | OPoint tag' _ _ _ | OInterval tag' _ _ _ _ => tag' ≠ tag ∧ well_used tag ongoing t ops
      | OContinuous tag' _ _ _ => well_used tag (ongoing || bool_decide (tag' = tag)) t ops
      | OEnd tag' =>
          if decide (tag' = tag) then ongoing = true ∧ well_used tag false t ops
          else well_used tag ongoing t ops
      end
  end.

Definition timeline (tag : string) (an : Annotation) : list PAnnotation :=
  filter (λ a, Tag a = tag) (annotations an).

(** One after the other, and over by [now]. *)
Definition in_order (l : list PAnnotation) (now : Z) : Prop :=
  StronglySorted (λ a b, End_ a <= Start b) l ∧ Forall (λ a, Start a <= End_ a <= now) l.

Lemma in_order_later l now now' : now <= now' → in_order l now → in_order l now'.
Proof.
  intros Hn [Hs Hl]. split; [done|]. eapply list.Forall_impl; [exact Hl|]. simpl. lia.
Qed.

Lemma in_order_snoc l a start now :
  in_order l start → Start a = start → End_ a = now → start <= now → in_order (l ++ [a]) now.
Proof.
  intros [Hs Hl] Ha He Hn. split.
  - apply StronglySorted_app. split_and!; [|done|by repeat constructor].
    intros b x Hb Hx. apply list_elem_of_singleton in Hx as ->. rewrite list.Forall_forall in Hl.
    specialize (Hl b Hb). simpl in Hl. lia.
  - apply Forall_app. split; [|constructor; [lia|constructor]].
    eapply list.Forall_impl; [exact Hl|]. simpl. lia.
Qed.

(** What is over, and what is going on since [co_start]. *)
Definition tag_inv (tag : string) (ongoing : bool) (now : Z) (an : Annotation) : Prop :=
  match continuous an !! tag with
  | None => ongoing = false ∧ in_order (timeline tag an) now
  | Some cont => ongoing = true ∧ in_order (timeline tag an) (co_start cont) ∧ co_start cont <= now
  end.

Lemma timeline_snoc tag an a c f :
  timeline tag (mkAnnotation' (annotations an ++ [a]) c f) =
    timeline tag an ++ (if decide (Tag a = tag) then [a] else []).
Proof. unfold timeline. simpl. rewrite list.filter_app, filter_cons, list.filter_nil. done. Qed.

Lemma tag_inv_push tag ongoing now t an a :
  Tag a ≠ tag → now <= t → tag_inv tag ongoing now an → tag_inv tag ongoing t (push a an).
Proof.
  unfold tag_inv, push. intros Ha Ht. rewrite timeline_snoc, decide_False, app_nil_r by done. simpl.
  destruct (continuous an !! tag).
  - intros (? & ? & ?). split_and!; [done|done|lia].
  - intros [? ?]. split; [done|]. by eapply in_order_later.
Qed.

Lemma tag_inv_run tag ops : ∀ ongoing now an,
  tag_inv tag ongoing now an → well_used tag ongoing now ops →
  ∃ ongoing' now', tag_inv tag ongoing' now' (ann_run ops an).
Proof.
  induction ops as [|[op t] ops IH]; intros ongoing now an Hinv; [by eexists _, _|].
  destruct op as [tag' desp d color|tag' start desp d color|tag' desp d color|tag'];
    simpl; intros [Ht Hw].
  - destruct Hw as [Hne Hw]. eapply IH; [|exact Hw]. by eapply tag_inv_push.
  - destruct Hw as [Hne Hw]. eapply IH; [|exact Hw]. by eapply tag_inv_push.
  - eapply IH; [|exact Hw]. unfold tag_inv in *. unfold annotateContinuousColor.
    destruct (decide (tag' = tag)) as [->|Hne].
    + rewrite bool_decide_eq_true_2, orb_true_r by done.
      destruct (continuous an !! tag) as [cont|] eqn:Hc; simpl; rewrite lookup_insert_eq.
      * destruct Hinv as (_ & Ho & Hs). split_and!; [done| |simpl; lia].
        rewrite timeline_snoc. simpl. rewrite decide_True by done.
        eapply in_order_snoc; [exact Ho|done|done|lia].
      * destruct Hinv as [_ Ho]. split_and!; [done| |done]. by eapply in_order_later.
    + rewrite bool_decide_eq_false_2, orb_false_r by done.
      destruct (continuous an !! tag') as [cont|] eqn:Hc; simpl;
        rewrite lookup_insert_ne, ?timeline_snoc by done; simpl;
        rewrite ?decide_False, ?app_nil_r by done;
        (destruct (continuous an !! tag); [destruct Hinv as (? & ? & ?); split_and!; [done|done|lia]|]);
        destruct Hinv as [? ?]; (split; [done|]); by eapply in_order_later.
  - unfold tag_inv, annotateContinuousEnd in *. case_decide as Hd.
    + subst tag'. destruct Hw as [-> Hw]. eapply IH; [|exact Hw]. unfold tag_inv. simpl.
      rewrite lookup_delete_eq, timeline_snoc. split; [done|]. simpl. rewrite decide_True by done.
      destruct (continuous an !! tag) as [cont|]; [|by destruct Hinv].
      destruct Hinv as (_ & Ho & Hs). eapply in_order_snoc; [exact Ho|done|done|lia].
    + eapply IH; [|exact Hw]. unfold tag_inv. simpl. rewrite lookup_delete_ne, timeline_snoc by done.
      simpl. rewrite decide_False, app_nil_r by done.
      destruct (continuous an !! tag); [destruct Hinv as (? & ? & ?); split_and!; [done|done|lia]|].
      destruct Hinv as [? ?]. split; [done|]. by eapply in_order_later.
Qed.

(** However annotations of many tags are interleaved, the continuous
    annotations of a tag that is used for nothing else follow one another without
    overlap, and each ends after it has begun - provided that none is ended
    while none is going on. *)
Theorem continuous_no_overlap tag now ops :
  well_used tag false now ops →
  let l := timeline tag (ann_run ops mkAnnotation) in
  StronglySorted (λ a b, End_ a <= Start b) l ∧ Forall (λ a, Start a <= End_ a) l.
Proof.
  intros Hw. destruct (tag_inv_run tag ops false now mkAnnotation) as (o & n & Hinv); [|done|].
  { split; [done|]. split; constructor. }
  unfold tag_inv in Hinv.
  assert (∃ m, in_order (timeline tag (ann_run ops mkAnnotation)) m) as (m & Hs & Hl).
  { destruct (continuous _ !! tag); [destruct Hinv as (_ & ? & _)|destruct Hinv as [_ ?]]; eauto. }
  split; [done|]. eapply list.Forall_impl; [exact Hl|]. simpl. lia.
Qed.

(** ** Examples *)

Definition test0 : Globals := AnnotateTest "Test" 3 1 (mkGlobals mkAnnotation None).

(** Two servers are cut off, one of them also crashes, then all is well. *)
Example faults_run :
  (λ g, (λ a, (Start a, End_ a, Description a)) <$> annotations (annotation g)) <$>
    frame_run [(FConnection [true; false; false], 10); (FShutdown [2], 20);
               (FRestart [2], 30); (FConnection [true; true; true], 40)] test0 =
  Some [(1, 0, "Test (3 servers)"); (10, 20, "partition = [1] [2] [0]");
        (20, 30, "partition = [1] [0] / crash = [2]"); (30, 40, "partition = [1] [2] [0]")].
Proof. vm_compute. reflexivity. Qed.

(** Clearing the failures when there is none adds an annotation that begins at 0. *)
Example clear_without_failure :
  (λ g, (λ a, (Tag a, Start a, End_ a)) <$> annotations (annotation g)) <$>
    AnnotateClearFailure 10 test0 = Some [(TAG_INFO, 1, 0); (TAG_PARTITION, 0, 10)].
Proof. vm_compute. reflexivity. Qed.

Lemma checker_begin_sticks_witness :
  ∃ g0 g', AnnotateCheckerBegin "agreement" 5 test0 = Some g0 ∧
    checkerEnds [("ok", "OK", COLOR_SUCCESS, 7); ("late", "x", COLOR_FAILURE, 90)] g0 = Some g' ∧
    Start <$> annotations (annotation g') = [1; 5; 5].
Proof.
  destruct (checker_begin_sticks "agreement" 5
    [("ok", "OK", COLOR_SUCCESS, 7); ("late", "x", COLOR_FAILURE, 90)] test0)
    as (g0 & g' & H1 & H2 & H3); [done|by eexists|].
  exists g0, g'. split; [exact H1|split; [exact H2|]]. rewrite H3. reflexivity.
Defined.

Definition faults3 : list (FrameOp * Z) :=
  [(FConnection [true; false; true], 10); (FShutdownAll, 20); (FRestart [0; 1; 2], 30)].

(** A crashed server that is also cut off is only listed as crashed. *)
Example trouble_texts :
  trouble_text 3 (fleet_run faults3 fleet0) = "partition = [1] [0 2]" ∧
  trouble_text 3 (mkFleet (λ id, Nat.eqb id 0) (λ id, Nat.eqb id 2)) = "partition = [1] [0] / crash = [2]" ∧
  trouble_text 2 (mkFleet (λ _, true) (λ _, true)) = "partition =  / crash = [0 1]".
Proof. vm_compute. done. Qed.

Lemma fault_annotation_mirrors_witness :
  ∃ g', frame_run faults3 (AnnotateTest "Test" 3 1 (mkGlobals mkAnnotation None)) = Some g' ∧
    mirrors (annotation g') 3 (fleet_run faults3 fleet0) ∧
    co_desp <$> (continuous (annotation g') !! TAG_PARTITION) = Some "partition = [1] [0 2]".
Proof.
  destruct (fault_annotation_mirrors "Test" 3 1 (mkGlobals mkAnnotation None) faults3)
    as (g' & H1 & H2).
  { repeat constructor; simpl; lia. }
  exists g'. split; [exact H1|split; [exact H2|]].
  vm_compute in H1. injection H1 as <-. reflexivity.
Defined.

Definition uses : list (AnnOp * Z) :=
  [(OContinuous "p" "a" "a" "", 1); (OPoint "q" "x" "x" "", 2); (OContinuous "p" "b" "b" "", 3);
   (OEnd "p", 5); (OContinuous "p" "c" "c" "", 6); (OEnd "p", 7)].

Lemma continuous_no_overlap_witness :
  (λ a, (Start a, End_ a)) <$> timeline "p" (ann_run uses mkAnnotation) = [(1, 3); (3, 5); (6, 7)] ∧
  StronglySorted (λ a b, End_ a <= Start b) (timeline "p" (ann_run uses mkAnnotation)).
Proof.
  split; [reflexivity|]. apply (continuous_no_overlap "p" 0 uses).
  simpl. repeat (split; [done|]). done.
Defined.
