(* ===== verification/TestRun.v ===== *)
(** * How a test begins and ends

    Models the rest of src/6.5840/src/tester1/config.go: the limit of two minutes,
    End and Cleanup with what they stop, the report of Fatalf and the random names
    of Randstring; and the beginning and end of the tests that are built on it, in
    raft1/test.go, kvtest1/kvtest.go, kvraft1/test.go and kvsrv1/test.go.  A
    [t.Fatal] ends the goroutine of the test: what follows it is not executed. *)

From Stdlib Require Import Ascii.
From stdpp Require Import pretty.
From S2P Require Import Prelude Numerals Gob Persister Annotation LabRpc Tester TestConfig.

(** ** Randstring *)

Definition base64_alphabet : string := "ABCDEFGHIJKLMNOPQRSTUVWXYZabcdefghijklmnopqrstuvwxyz0123456789-_".

(** The digit of value [v]. *)
Definition base64_digit (v : Z) : ascii := default "="%char (String.get (Z.to_nat v) base64_alphabet).

(** base64.URLEncoding.EncodeToString: three bytes are four digits of six bits. *)
Fixpoint base64_encode (b : list Z) : list ascii :=
  match b with
  | [] => []
  | [x] => [base64_digit (x / 4); base64_digit (x mod 4 * 16); "="%char; "="%char]
  | [x; y] =>
      [base64_digit (x / 4); base64_digit (x mod 4 * 16 + y / 16); base64_digit (y mod 16 * 4); "="%char]
  | x :: y :: z :: b =>
      base64_digit (x / 4) :: base64_digit (x mod 4 * 16 + y / 16) ::
      base64_digit (y mod 16 * 4 + z / 64) :: base64_digit (z mod 64) :: base64_encode b
  end.

(** [b] is what crand.Read fills the [2*n] bytes with; [None] is a slice out of
    range. *)
Definition Randstring (n : Z) (b : list Z) : option string :=
  str_upto (String.string_of_list_ascii (base64_encode b)) n.

Definition is_byte (x : Z) : Prop := 0 <= x < 256.

(** ** The clock and the end of a test *)

(** A statement of the test goes on, or t.Fatal ended the goroutine. *)
Inductive Flow (A : Type) := Continues (a : A) | Exited (a : A).
Arguments Continues {A} a.
Arguments Exited {A} a.

(** The state of a test: [t.Failed()], its configuration and annotations, whether
    the network has been closed, the servers whose services were killed, the
    statistics that were printed with "Passed", and the visualization that was
    written. *)
Record TestRun := mkTestRun {
  tr_failed : bool;
  tr_cfg : Config;
  tr_ann : Annotation;
  tr_closed : bool;
  tr_killed : list string;
  tr_passed : option (Z * Z * Z);
  tr_written : option (list PAnnotation)
}.

Definition fail_run (r : TestRun) : TestRun :=
  mkTestRun true (tr_cfg r) (tr_ann r) (tr_closed r) (tr_killed r) (tr_passed r) (tr_written r).

(** [elapsed] nanoseconds since the test was made. *)
Definition CheckTimeout (elapsed : Z) (r : TestRun) : Flow TestRun :=
  if negb (tr_failed r) && (120 * 10 ^ 9 <? elapsed) then Exited (fail_run r) else Continues r.

(** [None] is a panic: there is no group 0. *)
Definition Config_End (elapsed : Z) (r : TestRun) : option (Flow TestRun) :=
  match CheckTimeout elapsed r with
  | Exited r => Some (Exited r)
  | Continues r =>
      if tr_failed r then Some (Continues r)
      else
        p ← TestConfig.End_ (tr_cfg r);
        Some (Continues (mkTestRun (tr_failed r) (tr_cfg r) (tr_ann r) (tr_closed r) (tr_killed r) (Some p)
                (tr_written r)))
  end.

(** group.go: [Groups.cleanup] and [ServerGrp.cleanup] kill the services of every
    server that has some. *)
Definition Grp_cleanup (sg : ServerGrp) : list string :=
  omap (λ '(i, s), if running s then Some (ServerName (sg_gid sg) (Z.of_nat i)) else None)
    (imap pair (sg_srvs sg)).

Definition Groups_cleanup (cfg : Config) : list string :=
  (map_to_list (grps cfg)).*2 ≫= Grp_cleanup.

Section Ends.
(** The order of the map of annotations, two readings of the clock, VIS_ENABLE. *)
Context (iter : gmap string Continuous → list (string * Continuous)) (t t' : Z) (enabled : string).

(** [None] is a panic: an end is deleted or the network closed for the second
    time. *)
Definition Config_Cleanup (elapsed : Z) (r : TestRun) : option (Flow TestRun) :=
  cfg ← Clnts_cleanup (tr_cfg r);
  if tr_closed r then None
  else
    let '(written, an) := Annotation.cleanup iter enabled (tr_failed r)
      (if tr_failed r then "test failed" else "test passed") t t' (tr_ann r) in
    Some (CheckTimeout elapsed
      (mkTestRun (tr_failed r) cfg an true (tr_killed r ++ Groups_cleanup cfg) (tr_passed r)
         (match written with Some w => Some w | None => tr_written r end))).

(** kvtest.go: [Cleanup]; the tests of raft1 and of rsm check the time once more. *)
Definition KvTest_Cleanup (elapsed1 elapsed2 : Z) (r : TestRun) : option (Flow TestRun) :=
  f ← Config_End elapsed1 r;
  match f with Exited r => Some (Exited r) | Continues r => Config_Cleanup elapsed2 r end.

Definition RaftTest_cleanup (elapsed1 elapsed2 elapsed3 : Z) (r : TestRun) : option (Flow TestRun) :=
  f ← KvTest_Cleanup elapsed1 elapsed2 r;
  match f with Exited r => Some (Exited r) | Continues r => Some (CheckTimeout elapsed3 r) end.

Definition RsmTest_cleanup : Z → Z → Z → TestRun → option (Flow TestRun) := RaftTest_cleanup.

End Ends.

(** ** Fatalf *)

(** strings.Contains *)
Definition contains (s sub : string) : bool :=
  match String.index 0 sub s with Some _ => true | None => false end.

(** The loop over the frames of the stack, a file and a line each. *)
Fixpoint test_frames (frames : list (string * Z)) : list (string * Z) :=
  match frames with
  | [] => []
  | (file, line) :: frames =>
      if contains file "test.go" then (file, line) :: test_frames frames else test_frames frames
  end.

(** The lines that are reported; [None] is the panic on an empty stack. *)
Definition Fatalf (frames : list (string * Z)) (r : TestRun) : option (list (string * Z) * Flow TestRun) :=
  if bool_decide (frames = []) then None else Some (test_frames frames, Exited (fail_run r)).

(** ** The beginning of a test *)

Definition new_run (cfg : Config) (an : Annotation) : TestRun := mkTestRun false cfg an false [] None None.

(** raft1/test.go: [makeTest]. *)
Definition RaftTest_makeTest (names : list (list string)) (xs : list (list string * nat)) (reliable : bool) :
    option Config :=
  cfg ← MakeConfig names xs reliable; Some (SetLongDelays true cfg).

(** raft1/test.go: [restart]. *)
Definition RaftTest_restart (i : Z) (names : list string) (rs : nat) (cfg : Config) : option Config :=
  cfg ← on_group GRP0 (StartServer i names rs) cfg; on_group GRP0 ConnectAll cfg.

(** kvraft1/test.go: [MakeTest]. *)
Definition KvRaft_MakeTest (names : list (list string)) (xs : list (list string * nat)) (reliable : bool) :
    option Config :=
  cfg ← MakeConfig names xs reliable; Some (Begin cfg).

(** kvsrv1/test.go: [MakeTestKV], one server. *)
Definition MakeTestKV (names : list string) (x : list string * nat) (reliable : bool) : option Config :=
  MakeConfig [names] [x] reliable.

(** ** Random names are as different as the random bytes *)

Lemma base64_digit_inj v w : 0 <= v < 64 → 0 <= w < 64 → base64_digit v = base64_digit w → v = w.
Proof.
  intros Hv Hw.
  assert (Forall (λ '(a, b), a = b ∨ base64_digit a ≠ base64_digit b)
    (a ← seqZ 0 64; b ← seqZ 0 64; [(a, b)])) as Hall.
  { apply (bool_decide_unpack _). vm_compute. exact I. }
  rewrite list.Forall_forall in Hall. specialize (Hall (v, w)). intros Heq. destruct Hall as [->|Hne]; [|done|done].
  apply list_elem_of_bind. exists v. split; [|apply elem_of_seqZ; lia].
  apply list_elem_of_bind. exists w. split; [apply list_elem_of_here|apply elem_of_seqZ; lia].
Qed.

(** Induction three bytes at a time. *)
Lemma list_ind_3 {A} (P : list A → Prop) :
  P [] → (∀ x, P [x]) → (∀ x y, P [x; y]) → (∀ x y z l, P l → P (x :: y :: z :: l)) → ∀ l, P l.
Proof.
  intros H0 H1 H2 H3.
  assert (∀ n l, (length l <= n)%nat → P l) as H; [|intros l; by apply (H (length l))].
  induction n as [|n IH]; intros [|x [|y [|z l]]] Hl; simpl in Hl; auto; try lia. apply H3, IH. lia.
Qed.

Lemma base64_length b : length (base64_encode b) = (4 * ((length b + 2) / 3))%nat.
Proof.
  induction b as [|x|x y|x y z b IH] using list_ind_3; [done..|].
  cbn [base64_encode length]. rewrite IH. replace (S (S (S (length b))) + 2)%nat with (length b + 2 + 1 * 3)%nat by lia.
  rewrite Nat.div_add by lia. lia.
Qed.

(** The first digits tell the first bytes, six bits of eight each. *)
Lemma digit_1 x x' : is_byte x → is_byte x' → base64_digit (x / 4) = base64_digit (x' / 4) → x / 4 = x' / 4.
Proof. unfold is_byte. intros ?? H. apply base64_digit_inj in H; Z.to_euclidean_division_equations; lia. Qed.

Lemma digit_2 x y x' y' : is_byte x → is_byte x' → is_byte y → is_byte y' →
  base64_digit (x mod 4 * 16 + y / 16) = base64_digit (x' mod 4 * 16 + y' / 16) →
  x mod 4 = x' mod 4 ∧ y / 16 = y' / 16.
Proof. unfold is_byte. intros ???? H. apply base64_digit_inj in H; Z.to_euclidean_division_equations; lia. Qed.

Lemma digit_3 y z y' z' : is_byte y → is_byte y' → is_byte z → is_byte z' →
  base64_digit (y mod 16 * 4 + z / 64) = base64_digit (y' mod 16 * 4 + z' / 64) →
  y mod 16 = y' mod 16 ∧ z / 64 = z' / 64.
Proof. unfold is_byte. intros ???? H. apply base64_digit_inj in H; Z.to_euclidean_division_equations; lia. Qed.

Lemma digit_4 z z' : base64_digit (z mod 64) = base64_digit (z' mod 64) → z mod 64 = z' mod 64.
Proof. intros H. apply base64_digit_inj in H; Z.to_euclidean_division_equations; lia. Qed.

Lemma byte_parts x x' d : 0 < d → x / d = x' / d → x mod d = x' mod d → x = x'.
Proof. intros Hd H1 H2. rewrite (Z.div_mod x d), (Z.div_mod x' d) by lia. congruence. Qed.

Lemma base64_take b : ∀ b' n,
  Forall is_byte b → Forall is_byte b' → length b = length b' →
  take n (base64_encode b) = take n (base64_encode b') →
  take (3 * n / 4) b = take (3 * n / 4) b'.
Proof.
  assert (is_byte 0) as H0 by (unfold is_byte; lia).
  assert (∀ x x', is_byte x → is_byte x' →
    base64_digit (x mod 4 * 16) = base64_digit (x' mod 4 * 16) → x mod 4 = x' mod 4) as Hd2.
  { intros x x' Hx Hx' H. apply (digit_2 x 0 x' 0); [done..|]. by rewrite Z.div_0_l, !Z.add_0_r. }
  assert (∀ x x', is_byte x → is_byte x' →
    base64_digit (x mod 16 * 4) = base64_digit (x' mod 16 * 4) → x mod 16 = x' mod 16) as Hd3.
  { intros x x' Hx Hx' H. apply (digit_3 x 0 x' 0); [done..|]. by rewrite Z.div_0_l, !Z.add_0_r. }
  induction b as [|x|x y|x y z b IH] using list_ind_3; intros b' n Hb Hb' Hlen Heq.
  - by destruct b'.
  - destruct b' as [|x' [|]]; try done. apply Forall_cons_1 in Hb as [Hx _], Hb' as [Hx' _].
    destruct n as [|[|n]]; [done..|]. injection Heq as H1 H2.
    apply digit_1 in H1; [|done..]. apply Hd2 in H2; [|done..].
    by rewrite (byte_parts x x' 4).
  - destruct b' as [|x' [|y' [|]]]; try done.
    apply Forall_cons_1 in Hb as [Hx [Hy _]%Forall_cons_1], Hb' as [Hx' [Hy' _]%Forall_cons_1].
    destruct n as [|[|n]]; [done..|]. injection Heq as H1 H2 Heq.
    apply digit_1 in H1; [|done..]. apply digit_2 in H2 as [H2 H2']; [|done..].
    rewrite (byte_parts x x' 4) by done. destruct n as [|n]; [done|]. injection Heq as H3.
    apply Hd3 in H3; [|done..]. by rewrite (byte_parts y y' 16).
  - destruct b' as [|x' [|y' [|z' b']]]; try done.
    apply Forall_cons_1 in Hb as [Hx [Hy [Hz Hb]%Forall_cons_1]%Forall_cons_1],
      Hb' as [Hx' [Hy' [Hz' Hb']%Forall_cons_1]%Forall_cons_1].
    destruct n as [|[|n]]; [done..|]. injection Heq as H1 H2 Heq.
    apply digit_1 in H1; [|done..]. apply digit_2 in H2 as [H2 H2']; [|done..].
    rewrite (byte_parts x x' 4) by done. destruct n as [|n]; [done|]. injection Heq as H3 Heq.
    apply digit_3 in H3 as [H3 H3']; [|done..].
    rewrite (byte_parts y y' 16) by done. destruct n as [|n]; [done|]. injection Heq as H4 Heq.
    apply digit_4 in H4. rewrite (byte_parts z z' 64) by done.
    replace (3 * S (S (S (S n))) / 4)%nat with (3 + 3 * n / 4)%nat
      by (replace (3 * S (S (S (S n))))%nat with (3 * n + 3 * 4)%nat by lia; rewrite Nat.div_add; lia).
    cbn [take Nat.add]. do 3 f_equal. apply IH; [done..| |done]. simpl in Hlen. lia.
Qed.

Lemma string_take l n : (n <= length l)%nat →
  String.substring 0 n (String.string_of_list_ascii l) = String.string_of_list_ascii (take n l).
Proof.
  revert n. induction l as [|c l IH]; intros [|n] Hn; simpl in *; try done; try lia.
  rewrite IH by lia. done.
Qed.

Lemma string_of_list_length l : String.length (String.string_of_list_ascii l) = length l.
Proof. induction l; simpl; congruence. Qed.

Lemma string_of_list_inj l l' : String.string_of_list_ascii l = String.string_of_list_ascii l' → l = l'.
Proof.
  intros H. rewrite <-(String.list_ascii_of_string_of_list_ascii l), H.
  apply String.list_ascii_of_string_of_list_ascii.
Qed.

(** Randstring never slices out of range, its result has [n] characters, and two
    results are equal only if the first three quarters of [n] random bytes are:
    the 20 characters of an end's name carry 15 random bytes. *)
Theorem Randstring_distinct n b :
  0 <= n → Forall is_byte b → len b = 2 * n →
  ∃ s, Randstring n b = Some s ∧ Z.of_nat (String.length s) = n ∧
    ∀ b', Forall is_byte b' → len b' = 2 * n → Randstring n b' = Some s →
      take (Z.to_nat (3 * n / 4)) b = take (Z.to_nat (3 * n / 4)) b'.
Proof.
  intros Hn Hb Hlen.
  assert (∀ b, len b = 2 * n → (Z.to_nat n <= length (base64_encode b))%nat) as Hlong.
  { intros b0 Hb0. rewrite base64_length. pose proof (Nat.div_mod_eq (length b0 + 2) 3). pose proof (Nat.mod_upper_bound (length b0 + 2) 3). lia. }
  assert (∀ b, len b = 2 * n → Randstring n b =
    Some (String.string_of_list_ascii (take (Z.to_nat n) (base64_encode b)))) as Hval.
  { intros b0 Hb0. unfold Randstring, str_upto. rewrite string_of_list_length. specialize (Hlong b0 Hb0).
    replace ((0 <=? n) && (n <=? len (base64_encode b0))) with true by (symmetry; apply andb_true_iff; lia).
    by rewrite string_take. }
  rewrite (Hval b Hlen). eexists. split; [done|]. split.
  - rewrite string_of_list_length, length_take. specialize (Hlong b Hlen). lia.
  - intros b' Hb' Hlen' Heq. rewrite (Hval b' Hlen') in Heq. apply (inj Some), string_of_list_inj in Heq.
    replace (Z.to_nat (3 * n / 4)) with (3 * Z.to_nat n / 4)%nat
      by (rewrite Z2Nat.inj_div, Z2Nat.inj_mul by lia; done).
    apply base64_take; [done..|lia|done].
Qed.

(** ** The end of a test *)

Lemma Grp_cleanup_elem sg name :
  name ∈ Grp_cleanup sg ↔
    ∃ (i : nat) s, sg_srvs sg !! i = Some s ∧ running s = true ∧ name = ServerName (sg_gid sg) (Z.of_nat i).
Proof.
  unfold Grp_cleanup. rewrite list_elem_of_omap. split.
  - intros ([i s] & Hin & Hx). apply list_elem_of_lookup_1 in Hin as [k Hk].
    rewrite list_lookup_imap in Hk. apply fmap_Some in Hk as (s' & Hs & [= -> ->]).
    destruct (running s') eqn:Hr; [|done]. injection Hx as <-. eauto.
  - intros (i & s & Hs & Hr & ->). exists (i, s). split; [|by rewrite Hr].
    apply (list_elem_of_lookup_2 _ i). by rewrite list_lookup_imap, Hs.
Qed.

(** The services that are killed are those of the servers that run. *)
Lemma Groups_cleanup_elem cfg name :
  name ∈ Groups_cleanup cfg ↔
    ∃ gid sg (i : nat) s, grps cfg !! gid = Some sg ∧ sg_srvs sg !! i = Some s ∧ running s = true ∧
      name = ServerName (sg_gid sg) (Z.of_nat i).
Proof.
  unfold Groups_cleanup. rewrite list_elem_of_bind. split.
  - intros (sg & Hn & Hin). apply Grp_cleanup_elem in Hn as (i & s & Hs & Hr & ->).
    apply list_elem_of_fmap in Hin as ([gid sg'] & -> & Hin%elem_of_map_to_list). eauto 10.
  - intros (gid & sg & i & s & Hg & Hs & Hr & ->). exists sg. split; [apply Grp_cleanup_elem; eauto|].
    apply list_elem_of_fmap. exists (gid, sg). split; [done|]. by apply elem_of_map_to_list.
Qed.

Lemma Clnts_cleanup_groups cfg cfg' :
  Clnts_cleanup cfg = Some cfg' → grps cfg' = grps cfg ∧ clerks cfg' = None.
Proof. unfold Clnts_cleanup. intros (net & _ & [= <-])%bind_Some. done. Qed.

Section EndsFacts.
Context (iter : gmap string Continuous → list (string * Continuous)) (t t' : Z) (enabled : string).
Abbreviation cleanup_kv := (KvTest_Cleanup iter t t' enabled).

(** A test that ends in time prints its statistics, and when Cleanup is through,
    all clients are removed, the services of exactly the servers that run have
    been killed and the network is closed; a test that has failed is cleaned up
    the same way at any time, without statistics. *)
Theorem Cleanup_stops_everything elapsed1 elapsed2 r cfg sg :
  Clnts_cleanup (tr_cfg r) = Some cfg → lookupGroup GRP0 (tr_cfg r) = Some sg →
  tr_closed r = false → tr_killed r = [] → tr_passed r = None →
  tr_failed r = true ∨ (elapsed1 <= 120 * 10 ^ 9 ∧ elapsed2 <= 120 * 10 ^ 9) →
  ∃ r', cleanup_kv elapsed1 elapsed2 r = Some (Continues r') ∧
    tr_failed r' = tr_failed r ∧ clerks (tr_cfg r') = None ∧ tr_closed r' = true ∧
    (∀ name, name ∈ tr_killed r' ↔ ∃ gid sg (i : nat) s,
       grps (tr_cfg r) !! gid = Some sg ∧ sg_srvs sg !! i = Some s ∧ running s = true ∧
       name = ServerName (sg_gid sg) (Z.of_nat i)) ∧
    tr_passed r' = (if tr_failed r then None
                    else Some (N sg, RpcTotal (tr_cfg r) - rpcs0 (tr_cfg r), ops (tr_cfg r))).
Proof.
  intros Hc Hg Hcl Hk Hp Hok. destruct (Clnts_cleanup_groups _ _ Hc) as [Hgr Hcks].
  unfold KvTest_Cleanup, Config_End, Config_Cleanup, CheckTimeout, TestConfig.End_.
  assert (negb (tr_failed r) && (120 * 10 ^ 9 <? elapsed1) = false ∧
    negb (tr_failed r) && (120 * 10 ^ 9 <? elapsed2) = false) as [-> H2].
  { destruct Hok as [->|[H1 H2]]; [done|]. split; apply andb_false_iff; right; lia. }
  destruct (tr_failed r) eqn:Hf; rewrite ?Hf; simpl; rewrite ?Hg; simpl; rewrite Hc, Hcl; simpl; rewrite ?Hf;
    (destruct (cleanup _ _ _ _ _ _ _) as [written an]); simpl; simpl in H2; rewrite ?H2;
    (eexists; split; [done|]; simpl; split_and!; try done; intros name; rewrite Hk, app_nil_l, Groups_cleanup_elem; by rewrite Hgr).
Qed.

(** A test that takes longer than two minutes fails in End, which ends the
    goroutine: the statement after it, Config.Cleanup, is never reached.  No
    client is removed, no service killed, the network is not closed and the
    visualization of the failed test is not written. *)
Theorem late_test_not_cleaned elapsed1 elapsed2 r :
  tr_failed r = false → 120 * 10 ^ 9 < elapsed1 →
  cleanup_kv elapsed1 elapsed2 r = Some (Exited (fail_run r)).
Proof.
  intros Hf Hlt. unfold KvTest_Cleanup, Config_End, CheckTimeout. rewrite Hf.
  by replace (120 * 10 ^ 9 <? elapsed1) with true by lia.
Qed.

End EndsFacts.

(** The report names the files of tests only, in the order of the stack. *)
Lemma test_frames_filter frames :
  test_frames frames = filter (λ f, contains f.1 "test.go" = true) frames.
Proof.
  induction frames as [|[file line] frames IH]; [done|]. rewrite filter_cons. cbn [test_frames fst].
  destruct (contains file "test.go") eqn:Hc; [rewrite decide_True by done|rewrite decide_False by done]; by rewrite IH.
Qed.

(** ** Restarting a server of a Raft test *)

(** The ends of the group exist and lead to its servers. *)
Definition grp_wired (sg : ServerGrp) : Prop :=
  ∀ a b e, endName sg a b = Some e →
    e ∈ ends (sg_net sg) ∧ connections (sg_net sg) !! e = Some (Some (ServerName (sg_gid sg) b)).

Section Restart.
Context (sg sg' : ServerGrp) (i : Z) (names : list string) (s : Srv).
Context (Hok : grp_ok sg) (Hw : grp_wired sg) (Hi : go_nth (sg_srvs sg) i = Some s).
Context (Hlen : length names = length (sg_srvs sg)) (Hnd : NoDup names).
Context (Hfresh : ∀ e, e ∈ names → e ∉ ends (sg_net sg)).
Context (Hsrvs : sg_srvs sg' = <[Z.to_nat i := mkSrv (Some (default MakePersister (saved s))) true names]> (sg_srvs sg)).

(** The ends of the restarted server are the new ones. *)
Lemma endName_restart a b :
  endName sg' a b = if decide (a = i) then go_nth names b else endName sg a b.
Proof.
  pose proof (go_nth_Some _ _ _ Hi) as Hb. unfold endName. rewrite Hsrvs. case_decide as Ha.
  - subst a. by rewrite go_nth_insert_eq.
  - destruct (go_nth (sg_srvs sg) a) as [x|] eqn:Hx.
    + apply go_nth_lookup in Hx as [Ha0 Hx].
      assert (go_nth (<[Z.to_nat i:=mkSrv (Some (default MakePersister (saved s))) true names]> (sg_srvs sg)) a = Some x) as ->; [|done].
      apply go_nth_lookup. split; [done|]. rewrite list_lookup_insert_ne by lia. done.
    + destruct (go_nth (<[Z.to_nat i:=_]> (sg_srvs sg)) a) as [y|] eqn:Hy; [|done]. exfalso.
      apply go_nth_Some in Hy. rewrite length_insert in Hy.
      assert (is_Some (go_nth (sg_srvs sg) a)) as [z Hz] by (by apply go_nth_is_Some). congruence.
Qed.

Lemma grp_ok_restart : connected sg' = connected sg → grp_ok sg'.
Proof.
  intros Hc. pose proof (go_nth_Some _ _ _ Hi) as Hb. destruct Hok as [H1 H2 H3].
  assert (∀ a, in_group sg' a ↔ in_group sg a) as Hin
    by (intros a; unfold in_group; by rewrite Hsrvs, length_insert).
  assert (∀ b e, go_nth names b = Some e → ∀ a b', endName sg a b' ≠ Some e) as Hnew.
  { intros b e He a b' Ha. apply Hw in Ha as [Ha _]. apply (Hfresh e); [|done].
    apply go_nth_lookup in He as [_ He]. by eapply list_elem_of_lookup_2. }
  constructor.
  - by rewrite Hc, Hsrvs, length_insert.
  - intros a b Ha Hbb. rewrite endName_restart. case_decide; [|by apply H2; apply Hin].
    apply go_nth_is_Some. apply Hin in Hbb. unfold in_group in Hbb. lia.
  - intros a b a' b' e. rewrite !endName_restart. case_decide as Ha; case_decide as Ha'; intros He He'.
    + apply go_nth_lookup in He as [? He], He' as [? He'].
      pose proof (proj1 (NoDup_alt names) Hnd _ _ _ He He'). split; [congruence|lia].
    + by destruct (Hnew b e He a' b').
    + by destruct (Hnew b' e He' a b).
    + by eapply H3.
Qed.

End Restart.

(** [restart] of the Raft tests brings a server back and heals the network: a new
    object serves under the old name, started from the state that was saved; the
    other servers keep running; and every server reaches every server. *)
Theorem restart_reconnects i names rs cfg sg s :
  lookupGroup GRP0 cfg = Some sg → grp_ok sg → grp_wired sg → go_nth (sg_srvs sg) i = Some s →
  length names = length (sg_srvs sg) → NoDup names → (∀ e, e ∈ names → e ∉ ends (sg_net sg)) →
  ∃ cfg' sg', RaftTest_restart i names rs cfg = Some cfg' ∧ lookupGroup GRP0 cfg' = Some sg' ∧
    go_nth (sg_srvs sg') i = Some (mkSrv (Some (default MakePersister (saved s))) true names) ∧
    servers (cfg_net cfg') = <[ServerName (sg_gid sg) i := Some rs]> (servers (cfg_net cfg)) ∧
    (∀ a, in_group sg a → is_conn sg' a) ∧
    (∀ a b e server, in_group sg a → in_group sg b → endName sg' a b = Some e →
       servers (cfg_net cfg') !! ServerName (sg_gid sg) b = Some (Some server) →
       alive (cfg_net cfg') e server).
Proof.
  intros Hg Hok Hw Hi Hlen Hnd Hfresh.
  destruct (StartServer_total i names rs s sg Hi Hnd Hfresh)
    as (sg1 & H1 & Hs1 & Hg1 & Hc1 & Hw1 & (Hrel & Hsub & Hkeep) & He1 & Hsv1).
  pose proof (grp_ok_restart sg sg1 i names s Hok Hw Hi Hlen Hnd Hfresh Hs1 Hc1) as Hok1.
  assert (∀ a, in_group sg1 a ↔ in_group sg a) as Hin
    by (intros a; unfold in_group; by rewrite Hs1, length_insert).
  destruct (ConnectOnes_spec (all sg1) sg1 Hok1) as (sg2 & H2 & Hs2 & _ & Hg2 & (Ht1 & Ht2 & _) & Hc2 & Hl2).
  { intros a. by rewrite all_in. }
  assert (sg_net sg = cfg_net cfg) as Hnet by (by apply fmap_Some in Hg as (x & _ & ->)).
  assert (ConnectAll (set_net (sg_net sg1) sg1) = Some sg2) as Hall by (by destruct sg1).
  unfold RaftTest_restart, on_group. rewrite Hg. cbn. rewrite H1. cbn.
  unfold lookupGroup at 1. cbn. rewrite lookup_insert_eq. cbn. rewrite Hall. cbn.
  eexists _, sg2. split; [done|]. unfold lookupGroup. cbn. rewrite lookup_insert_eq. cbn.
  split; [by destruct sg2|]. pose proof (go_nth_Some _ _ _ Hi) as Hib. split_and!.
  - rewrite Hs2, Hs1. by apply go_nth_insert_eq.
  - by rewrite Ht2, Hsv1, Hnet.
  - intros a Ha. apply Hc2, all_in, Hin, Ha.
  - intros a b e server Ha Hb He Hsrv.
    destruct (Hl2 a b) as (e' & He' & Hen); [by apply all_in, Hin..|]. rewrite He in He'. injection He' as <-.
    split; [done|]. exists (ServerName (sg_gid sg) b). split; [|done]. rewrite Ht1.
    assert (endName sg1 a b = Some e) as He1' by (unfold endName in *; by rewrite <-Hs2).
    rewrite (endName_restart sg sg1 i names s Hi Hlen Hs1) in He1'.
    case_decide as Hai.
    + apply go_nth_lookup in He1' as [Hb0 He1']. rewrite (Hw1 _ _ He1'). do 3 f_equal. lia.
    + apply Hw in He1' as [Hin' Hconn]. by rewrite Hkeep.
Qed.

(** ** Instances *)

Example base64_values :
  (λ b, String.string_of_list_ascii (base64_encode b)) <$> [[77; 97; 110]; [77; 97]; [77]; [255; 239; 254]] =
    ["TWFu"; "TWE="; "TQ=="; "_-_-"].
Proof. vm_compute. reflexivity. Qed.

Example Randstring_values : Randstring 3 [77; 97; 110; 1; 2; 3] = Some "TWF".
Proof. vm_compute. reflexivity. Qed.

Definition cfg2 : Config := default newConfig (MakeConfig two_names two_servers true).

Definition run2 : TestRun := new_run (Begin cfg2) mkAnnotation.

(** A run that ends in time, and one that does not. *)
Example run2_ends :
  (KvTest_Cleanup map_to_list 5 6 "" (1 * 10 ^ 9) (2 * 10 ^ 9) run2 =
     Some (Continues (mkTestRun false (set_clerks None (tr_cfg run2)) mkAnnotation true
                        ["server-0-0"; "server-0-1"] (Some (2, 0, 0)) None))) ∧
  KvTest_Cleanup map_to_list 5 6 "" (121 * 10 ^ 9) (121 * 10 ^ 9) run2 = Some (Exited (fail_run run2)).
Proof. split; vm_compute; reflexivity. Qed.

Example restart2 :
  (cfg' ← RaftTest_restart 1 ["e0"; "e1"] 7 cfg2;
   Some (enabled (cfg_net cfg') !! "e0", enabled (cfg_net cfg') !! "c1",
         servers (cfg_net cfg') !! "server-0-1")) = Some (Some true, Some true, Some (Some 7%nat)).
Proof. vm_compute. reflexivity. Qed.

Example Fatalf_lines :
  fst <$> Fatalf [("/src/tester1/config.go", 145); ("/src/kvsrv1/test.go", 20); ("/src/kvsrv_test.go", 3)] run2 =
    Some [("/src/kvsrv1/test.go", 20); ("/src/kvsrv_test.go", 3)].
Proof. vm_compute. reflexivity. Qed.

Lemma Randstring_distinct_witness :
  ∃ s, Randstring 3 [77; 97; 110; 1; 2; 3] = Some s ∧ Z.of_nat (String.length s) = 3.
Proof.
  destruct (Randstring_distinct 3 [77; 97; 110; 1; 2; 3]) as (s & Hs & Hl & _);
    [lia|unfold is_byte; repeat constructor; lia|reflexivity|].
  exists s. exact (conj Hs Hl).
Defined.
