(* ===== verification/KvTest.v ===== *)
(** * The tests of the key/value services

    Models src/6.5840/src/kvtest1/kvtest.go and porcupine.go: the log of the
    operations that the checker is given, the clients that the tests run and the
    checks of their results.  The clients of [OneClientPut] are run against the
    server of kvsrv1 with lost requests and replies, as in Lock.v, to show that
    they never report an error and that [CheckPutConcurrent] accepts what they
    did.  [ts.Fatalf] ends the goroutine that calls it. *)

From Stdlib Require Import Ascii.
From stdpp Require Import pretty.
From S2P Require Import Prelude KVRpc KVSrv KvModel.

(** ** The log of operations *)

(** [porcupine.Operation]. *)
Record LogOp := mkLogOp {
  lo_ClientId : Z; lo_Input : KvInput; lo_Call : Z; lo_Output : KvOutput; lo_Return : Z
}.

Record OpLog := mkOpLog { operations : list LogOp }.

Definition OpLog_Len (log : OpLog) : Z := len (operations log).
Definition OpLog_Append (op : LogOp) (log : OpLog) : OpLog := mkOpLog (operations log ++ [op]).
Definition OpLog_Read (log : OpLog) : list LogOp :=
  go_copy (replicate (length (operations log)) (mkLogOp 0 (mkKvInput 0 "" "" 0) 0 (mkKvOutput "" 0 "") 0))
    (operations log).

(** [Get] and [Put]: what is logged for a call that the clerk answered. *)
Definition logGet (key : string) (cli start end_ : Z) (result : string * Tversion * Err) (log : OpLog) :
    OpLog :=
  let '(val, ver, err) := result in
  OpLog_Append (mkLogOp cli (mkKvInput 0 key "" 0) start (mkKvOutput val ver err) end_) log.

Definition logPut (key value : string) (version : Tversion) (cli start end_ : Z) (err : Err)
    (log : OpLog) : OpLog :=
  OpLog_Append (mkLogOp cli (mkKvInput 1 key value version) start (mkKvOutput "" 0 err) end_) log.

(** The copy that the checker reads is what was appended. *)
Lemma OpLog_Read_all log : OpLog_Read log = operations log.
Proof. apply go_copy_exact. apply length_replicate. Qed.

(** ** Outcomes and checks *)

Inductive TestOutcome (A : Type) := Returned (a : A) | Fatal | Running.
Arguments Returned {A} _.
Arguments Fatal {A}.
Arguments Running {A}.

Record ClntRes := mkClntRes { Nok : Z; Nmaybe : Z }.

Definition addRes (res r : ClntRes) : ClntRes := mkClntRes (Nok res + Nok r) (Nmaybe res + Nmaybe r).

(** The new [*res], and whether the check passes; [ver0] is the version that
    [GetJson] returned. *)
Definition CheckPutConcurrent (ver0 : Tversion) (rs : list ClntRes) (res : ClntRes) (reliable : bool) :
    ClntRes * bool :=
  let res := foldl addRes res rs in
  (res, if reliable then ver0 =? u64 (Nok res) else ver0 <=? u64 (Nok res + Nmaybe res)).

Definition letterBytes : string := "abcdefghijklmnopqrstuvwxyzABCDEFGHIJKLMNOPQRSTUVWXYZ".

(** [RandValue], given the results of [rand.Int63]. *)
Definition RandValue (rands : list Z) : list (option Ascii.ascii) :=
  (λ r, String.get (Z.to_nat (r mod Z.of_nat (String.length letterBytes))) letterBytes) <$> rands.

(** ** OnePut *)

Record EntryV := mkEntryV { ev_Id : Z; ev_V : Tversion }.

(** After [PutJson]: whether the error is one that may occur. *)
Definition onePut_put (err : Err) : bool :=
  negb (bool_decide (¬ (err = OK ∨ err = ErrVersion ∨ err = ErrMaybe))).

(** After [GetJson] of [e] at version [ver0]: whether the check of the value
    fails, and, if the loop ends, what is returned. *)
Definition onePut_get (me : Z) (ver : Tversion) (err : Err) (e : EntryV) (ver0 : Tversion) :
    bool * option (Tversion * bool) :=
  let wrong := bool_decide (err = OK) && (ver0 =? u64 (ver + 1)) &&
               (negb (ev_Id e =? me) && negb (ev_V e =? ver)) in
  (wrong,
   if bool_decide (err = OK) || bool_decide (err = ErrMaybe) then Some (ver0, bool_decide (err = OK))
   else None).

(** The check needs both fields to be wrong: a successful Put at version 3 whose
    key then holds, at version 4, the value of another client passes. *)
Example onePut_get_lenient : onePut_get 0 3 OK (mkEntryV 1 3) 4 = (false, Some (4, true)).
Proof. reflexivity. Qed.

(** The counters of [OneClientPut]. *)
Definition count (ok : bool) (res : ClntRes) : ClntRes :=
  if ok then mkClntRes (Nok res + 1) (Nmaybe res) else mkClntRes (Nok res) (Nmaybe res + 1).

(** ** The clients of OneClientPut

    All of them put to one key ([randomkeys] false). *)
Section PutClients.
Context (k : string).
(** [json.Marshal] and [json.Unmarshal]. *)
Context (marshal : EntryV → string) (unmarshal : string → option EntryV).
Context (reliable : bool).

(** At the select; inside [PutJson], with the clerk's variable [first]; before
    [GetJson]; returned; in [Fatalf]. *)
Inductive PutPC :=
| CNext
| CPut (ver : Tversion) (first : bool)
| CGet (ver : Tversion) (err : Err)
| CDone
| CFatal.

(** [c_ver] is [verm[k]]; [c_puts] counts the Puts of the client that the server
    has performed. *)
Record PutClient := mkPutClient { c_pc : PutPC; c_ver : Tversion; c_res : ClntRes; c_puts : Z }.

Record PutSys := mkPutSys { ps_kv : KVServer; ps_clients : list PutClient }.

Definition put_args (me : nat) (ver : Tversion) : PutArgs :=
  mkPutArgs k (marshal (mkEntryV (Z.of_nat me) ver)) ver.

Definition jump (p : PutPC) (c : PutClient) : PutClient :=
  mkPutClient p (c_ver c) (c_res c) (c_puts c).

(** A Put executed by the server. *)
Definition performed_by (r : PutReply) (c : PutClient) : PutClient :=
  if decide (pr_Err r = OK) then mkPutClient (c_pc c) (c_ver c) (c_res c) (c_puts c + 1) else c.

(** After the reply to the Put. *)
Definition after_put (ver : Tversion) (err : Err) : PutPC :=
  if onePut_put err then CGet ver err else CFatal.

(** [GetJson] and the rest of the loop body. *)
Definition after_get (me : nat) (ver : Tversion) (err : Err) (r : GetReply) (c : PutClient) : PutClient :=
  if decide (gr_Err r = OK) then
    match unmarshal (gr_Value r) with
    | None => jump CFatal c
    | Some e =>
        match onePut_get (Z.of_nat me) ver err e (gr_Version r) with
        | (true, _) => jump CFatal c
        | (false, Some (ver0, ok)) => mkPutClient CNext ver0 (count ok (c_res c)) (c_puts c)
        | (false, None) => jump (CPut (gr_Version r) true) c
        end
    end
  else jump CFatal c.

Definition set_client (i : nat) (c : PutClient) (s : PutSys) : list PutClient :=
  <[i := c]> (ps_clients s).

Inductive put_step (s : PutSys) : PutSys → Prop :=
(* the select: done, or another OnePut *)
| t_done i c : ps_clients s !! i = Some c → c_pc c = CNext →
    put_step s (mkPutSys (ps_kv s) (set_client i (jump CDone c) s))
| t_begin i c : ps_clients s !! i = Some c → c_pc c = CNext →
    put_step s (mkPutSys (ps_kv s) (set_client i (jump (CPut (c_ver c) true) c) s))
(* an attempt of the clerk: the request is lost, the reply is lost, or neither *)
| t_put_lost i c ver first : reliable = false →
    ps_clients s !! i = Some c → c_pc c = CPut ver first →
    put_step s (mkPutSys (ps_kv s) (set_client i (jump (CPut ver false) c) s))
| t_put_unheard i c ver first kv' r : reliable = false →
    ps_clients s !! i = Some c → c_pc c = CPut ver first →
    KVServer_Put (put_args i ver) (ps_kv s) = (kv', r) →
    put_step s (mkPutSys kv' (set_client i (jump (CPut ver false) (performed_by r c)) s))
| t_put i c ver first kv' r :
    ps_clients s !! i = Some c → c_pc c = CPut ver first →
    KVServer_Put (put_args i ver) (ps_kv s) = (kv', r) →
    put_step s (mkPutSys kv'
      (set_client i (jump (after_put ver (putResult first (pr_Err r))) (performed_by r c)) s))
| t_get i c ver err :
    ps_clients s !! i = Some c → c_pc c = CGet ver err →
    put_step s (mkPutSys (ps_kv s)
      (set_client i (after_get i ver err (KVServer_Get (mkGetArgs k) (ps_kv s)) c) s)).

Definition put_init (n : nat) (s : PutSys) : Prop :=
  store (ps_kv s) !! k = None ∧ ps_clients s = replicate n (mkPutClient CNext 0 (mkClntRes 0 0) 0).

(** ** The invariant *)

Definition total (f : PutClient → Z) (cs : list PutClient) : Z := foldr (λ c n, f c + n) 0 cs.

(** OnePuts that returned. *)
Definition returned (c : PutClient) : Z := Nok (c_res c) + Nmaybe (c_res c).

(** How many Puts of the client the server has performed: [lo] to [hi] more than
    the counters say. *)
Definition between (lo hi : Z) (c : PutClient) : Prop :=
  Nok (c_res c) + lo <= c_puts c <= returned c + hi ∧ (reliable = true → Nmaybe (c_res c) = 0).

(** The version [cur] of the key and a client that is at [p]. *)
Definition at_pc (cur : Z) (c : PutClient) (p : PutPC) : Prop :=
  match p with
  | CNext | CDone => between 0 0 c
  | CPut ver first =>
      0 <= ver <= cur ∧ between 0 1 c ∧ (first = true ∨ ver = cur → between 0 0 c) ∧
      (reliable = true → first = true)
  | CGet ver err =>
      1 <= cur ∧ 0 <= ver < 2 ^ 64 - 1 ∧
      ((err = OK ∧ between 1 1 c) ∨ (err = ErrVersion ∧ between 0 0 c) ∨
       (err = ErrMaybe ∧ between 0 1 c ∧ reliable = false))
  | CFatal => False
  end.

Definition client_inv (cur : Z) (c : PutClient) : Prop :=
  0 <= c_ver c <= cur ∧ at_pc cur c (c_pc c).

(** The value of the key is of the Put that made its version. *)
Definition value_inv (kv : KVServer) : Prop :=
  ∀ item, store kv !! k = Some item →
    ∃ e, vv_val item = marshal e ∧ ev_V e + 1 = vv_ver item.

Record put_inv (m : nat) (s : PutSys) : Prop := mkPutInv {
  pi_value : value_inv (ps_kv s);
  pi_range : 0 <= version (ps_kv s) k <= Z.of_nat m;
  pi_puts : version (ps_kv s) k = total c_puts (ps_clients s);
  pi_returned : total returned (ps_clients s) <= Z.of_nat m;
  pi_clients : Forall (client_inv (version (ps_kv s) k)) (ps_clients s)
}.

(** ** A scheduler *)

Inductive PutMove := MDone | MBegin | MPutLost | MPutUnheard | MPut | MGet.

Definition put_perform (mv : nat * PutMove) (s : PutSys) : option PutSys :=
  let '(i, mv) := mv in
  c ← ps_clients s !! i;
  match mv, c_pc c with
  | MDone, CNext => Some (mkPutSys (ps_kv s) (set_client i (jump CDone c) s))
  | MBegin, CNext => Some (mkPutSys (ps_kv s) (set_client i (jump (CPut (c_ver c) true) c) s))
  | MPutLost, CPut ver _ =>
      if reliable then None else Some (mkPutSys (ps_kv s) (set_client i (jump (CPut ver false) c) s))
  | MPutUnheard, CPut ver _ =>
      if reliable then None
      else let '(kv', r) := KVServer_Put (put_args i ver) (ps_kv s) in
           Some (mkPutSys kv' (set_client i (jump (CPut ver false) (performed_by r c)) s))
  | MPut, CPut ver first =>
      let '(kv', r) := KVServer_Put (put_args i ver) (ps_kv s) in
      Some (mkPutSys kv'
        (set_client i (jump (after_put ver (putResult first (pr_Err r))) (performed_by r c)) s))
  | MGet, CGet ver err =>
      Some (mkPutSys (ps_kv s)
        (set_client i (after_get i ver err (KVServer_Get (mkGetArgs k) (ps_kv s)) c) s))
  | _, _ => None
  end.

Lemma put_perform_step mv s s' : put_perform mv s = Some s' → put_step s s'.
Proof.
  destruct mv as [i mv]. unfold put_perform. intros (c & Hi & H)%bind_Some.
  destruct (c_pc c) as [|ver first|ver err| |] eqn:Hpc; destruct mv; try done.
  - injection H as <-. by apply t_done.
  - injection H as <-. by apply t_begin.
  - destruct reliable eqn:Hr; [done|]. injection H as <-. by eapply t_put_lost.
  - destruct reliable eqn:Hr; [done|].
    destruct (KVServer_Put _ _) eqn:Hput. injection H as <-. by eapply t_put_unheard.
  - destruct (KVServer_Put _ _) eqn:Hput. injection H as <-. by eapply t_put.
  - injection H as <-. by apply t_get.
Qed.

Fixpoint put_run (mvs : list (nat * PutMove)) (s : PutSys) : option PutSys :=
  match mvs with
  | [] => Some s
  | mv :: mvs => s' ← put_perform mv s; put_run mvs s'
  end.

Lemma put_run_steps mvs : ∀ s s', put_run mvs s = Some s' → nsteps put_step (length mvs) s s'.
Proof.
  induction mvs as [|mv mvs IH]; simpl; intros s s' H; [injection H as <-; constructor|].
  apply bind_Some in H as (s1 & H1 & H2). econstructor; [by eapply put_perform_step|by apply IH].
Qed.

Context (unmarshal_marshal : ∀ e, unmarshal (marshal e) = Some e).

Lemma total_insert f cs i c c' :
  cs !! i = Some c → total f (<[i := c']> cs) = total f cs - f c + f c'.
Proof.
  revert i. induction cs as [|x cs IH]; intros [|i] Hi; simplify_eq/=; [lia|].
  rewrite (IH i) by done. lia.
Qed.

Lemma total_le f g cs : Forall (λ c, f c <= g c) cs → total f cs <= total g cs.
Proof. induction 1; simpl; lia. Qed.

(** A Put of a version that is not ahead of the server's. *)
Lemma put_outcome i ver kv kv' r :
  KVServer_Put (put_args i ver) kv = (kv', r) → 0 <= ver <= version kv k →
  version kv k < 2 ^ 64 - 1 → value_inv kv →
  value_inv kv' ∧
  ((ver = version kv k ∧ pr_Err r = OK ∧ version kv' k = version kv k + 1) ∨
   (ver < version kv k ∧ pr_Err r = ErrVersion ∧ kv' = kv)).
Proof.
  rewrite Put_cas. simpl. intros H Hver Hb Hv.
  destruct (_ =? _) eqn:He; apply pair_equal_spec in H as [<- <-]; bool_to_prop.
  - rewrite u64_small by (unfold is_u64; lia). split.
    + intros item. simpl. rewrite lookup_insert_eq. intros [= <-]. by eexists.
    + left. split_and!; [done|done|]. unfold version at 1. simpl. rewrite lookup_insert_eq. simpl. lia.
  - split; [done|]. right. simpl. unfold version in *.
    destruct (store kv !! k) as [item|]; simpl in *; [|lia].
    split_and!; [lia|done|done].
Qed.

(** The version grows: only a client at the old version notices. *)
Lemma client_inv_mono cur cur' c : client_inv cur c → cur <= cur' → client_inv cur' c.
Proof.
  intros [Hv Hp] Hle. split; [lia|]. destruct (c_pc c) as [|ver first|ver err| |]; simpl in *; try done.
  - destruct Hp as (H1 & H2 & H3 & H4). split_and!; [lia|lia|done| |done].
    intros [ -> | -> ]; apply H3; [by left|]. right; lia.
  - destruct Hp as (H1 & H2 & H3). split_and!; [lia|lia|lia|done].
Qed.

(** One client moves to [c']. *)
Lemma inv_set m s i c c' kv' :
  put_inv m s → ps_clients s !! i = Some c → value_inv kv' →
  version kv' k = version (ps_kv s) k + (c_puts c' - c_puts c) →
  0 <= c_puts c' - c_puts c <= 1 → returned c' <= returned c + 1 →
  client_inv (version kv' k) c' → put_inv (S m) (mkPutSys kv' (set_client i c' s)).
Proof.
  intros [H1 H2 H3 H4 H5] Hi Hv Hcur Hd Hr Hc. unfold set_client. constructor; simpl.
  - done.
  - lia.
  - rewrite (total_insert _ _ _ c) by done. lia.
  - rewrite (total_insert _ _ _ c) by done. lia.
  - apply Forall_insert; [|done]. eapply list.Forall_impl; [exact H5|].
    intros x Hx. eapply client_inv_mono; [exact Hx|lia].
Qed.

(** A client that only changes its position. *)
Lemma inv_jump m s i c p :
  put_inv m s → ps_clients s !! i = Some c → at_pc (version (ps_kv s) k) c p →
  put_inv (S m) (mkPutSys (ps_kv s) (set_client i (jump p c) s)).
Proof.
  intros Hinv Hi Hp. pose proof (Forall_lookup_1 _ _ _ _ (pi_clients _ _ Hinv) Hi) as [Hc _].
  eapply inv_set; try done; simpl; [apply Hinv|lia|lia|unfold returned; simpl; lia].
Qed.

(** The server executes a Put of client [i], which goes on at [p]. *)
Lemma inv_put m s i c ver first kv' r p :
  put_inv m s → ps_clients s !! i = Some c → c_pc c = CPut ver first →
  KVServer_Put (put_args i ver) (ps_kv s) = (kv', r) → Z.of_nat m < 2 ^ 64 - 1 →
  (pr_Err r = OK → at_pc (version kv' k) (performed_by r c) p) →
  (pr_Err r = ErrVersion → ver < version kv' k → at_pc (version kv' k) c p) →
  put_inv (S m) (mkPutSys kv' (set_client i (jump p (performed_by r c)) s)).
Proof.
  intros Hinv Hi Hpc Hput Hm Hok Herr. pose proof (pi_range _ _ Hinv).
  pose proof (Forall_lookup_1 _ _ _ _ (pi_clients _ _ Hinv) Hi) as [Hv Hp].
  rewrite Hpc in Hp. destruct Hp as (Hver & _).
  destruct (put_outcome _ _ _ _ _ Hput ltac:(lia) ltac:(lia) (pi_value _ _ Hinv))
    as [Hval [(He & HOK & Hcur)|(Hlt & HErr & ->)]].
  - specialize (Hok HOK). unfold performed_by in *. rewrite decide_True in * by done.
    eapply inv_set; try done; simpl; [lia|lia|unfold returned; simpl; lia|].
    split; simpl; [lia|done].
  - specialize (Herr HErr Hlt). unfold performed_by. rewrite HErr. simpl.
    by apply inv_jump.
Qed.

Lemma after_get_inv cur i c ver err item :
  client_inv cur c → c_pc c = CGet ver err → vv_ver item = cur → cur < 2 ^ 64 - 1 →
  (∃ e, vv_val item = marshal e ∧ ev_V e + 1 = cur) →
  let c' := after_get i ver err (mkGetReply (vv_val item) cur OK) c in
  client_inv cur c' ∧ c_puts c' = c_puts c ∧ returned c' <= returned c + 1.
Proof.
  intros [Hv Hp] Hpc Hcur Hb (e & -> & He). rewrite Hpc in Hp.
  destruct Hp as (Hc & Hver & Hcase). simpl. unfold after_get. simpl.
  rewrite unmarshal_marshal. unfold onePut_get.
  assert (bool_decide (err = OK) && (cur =? u64 (ver + 1)) &&
          (negb (ev_Id e =? Z.of_nat i) && negb (ev_V e =? ver)) = false) as ->.
  { rewrite u64_small by (unfold is_u64; lia). destruct (cur =? ver + 1) eqn:Heq; bool_to_prop.
    - rewrite (proj2 (Z.eqb_eq (ev_V e) ver)) by lia. by rewrite !andb_false_r.
    - by rewrite andb_false_r. }
  destruct Hcase as [[-> Hbt]|[[-> Hbt]|(-> & Hbt & Hrel)]]; simpl.
  - split_and!; [|done|unfold returned; simpl; lia].
    split; [simpl; lia|]. unfold at_pc, between, returned, count in *. simpl in *. split; [lia|apply Hbt].
  - split_and!; [|done|unfold returned; simpl; lia]. split; [simpl; lia|].
    unfold at_pc, between, returned in *. simpl in *. destruct Hbt as [Hb1 Hb2].
    split_and!; try lia; try done.
  - split_and!; [|done|unfold returned; simpl; lia].
    split; [simpl; lia|]. unfold at_pc, between, returned, count in *. simpl in *.
    split; [lia|congruence].
Qed.

Lemma put_inv_step m s s' :
  put_inv m s → put_step s s' → Z.of_nat m < 2 ^ 64 - 1 → put_inv (S m) s'.
Proof.
  intros Hinv Hstep Hm. pose proof (pi_range _ _ Hinv) as Hr.
  destruct Hstep as [i c Hi Hpc|i c Hi Hpc|i c ver first Hrel Hi Hpc
    |i c ver first kv' r Hrel Hi Hpc Hput|i c ver first kv' r Hi Hpc Hput|i c ver err Hi Hpc];
    pose proof (Forall_lookup_1 _ _ _ _ (pi_clients _ _ Hinv) Hi) as [Hv Hp];
    rewrite Hpc in Hp; simpl in Hp.
  - by apply inv_jump.
  - apply inv_jump; [done|done|]. simpl. unfold between in *.
    destruct Hp as [Hp1 Hp2]. split_and!; try lia; try done.
  - apply inv_jump; [done|done|]. simpl. destruct Hp as (H1 & H2 & H3 & H4).
    split_and!; [lia|lia|apply H2..| |congruence]. intros [?|?]; [done|apply H3; by right].
  - destruct Hp as (H1 & H2 & H3 & H4).
    eapply (inv_put _ _ _ _ _ _ _ _ (CPut ver false)); try done; simpl.
    + intros HOK. unfold performed_by. rewrite decide_True by done.
      destruct (put_outcome _ _ _ _ _ Hput H1 ltac:(lia) (pi_value _ _ Hinv))
        as [_ [(He & _ & Hcur)|(_ & He & _)]]; [|by rewrite He in HOK].
      destruct (H3 (or_intror He)) as [H5 H6]. unfold between, returned in *. simpl.
      split_and!; try lia; try done; try congruence.
    + intros _ Hlt. split_and!; [lia|lia|apply H2..| |congruence]. intros [?|?]; [done|lia].
  - destruct Hp as (H1 & H2 & H3 & H4).
    eapply (inv_put _ _ _ _ _ _ _ _ (after_put ver (putResult first (pr_Err r)))); try done.
    + intros HOK. unfold performed_by. rewrite HOK, decide_True by done.
      destruct (put_outcome _ _ _ _ _ Hput H1 ltac:(lia) (pi_value _ _ Hinv))
        as [_ [(He & _ & Hcur)|(_ & He & _)]]; [|by rewrite He in HOK].
      destruct (H3 (or_intror He)) as [H5 H6]. destruct first; simpl; unfold between, returned in *; simpl;
        (split_and!; [lia|lia|lia|]); left; (split_and!; [done|lia|lia|done]).
    + intros HErr Hlt. rewrite HErr. destruct first; simpl; (split_and!; [lia|lia|lia|]).
      * right; left. split; [done|]. apply H3. by left.
      * right; right. split; [done|]. split; [done|].
        destruct reliable; [by specialize (H4 eq_refl)|done].
  - destruct (store (ps_kv s) !! k) as [item|] eqn:Hk.
    + assert (version (ps_kv s) k = vv_ver item) as Hcur by (unfold version; by rewrite Hk).
      destruct (pi_value _ _ Hinv item Hk) as (e & He & HV).
      pose proof (after_get_inv (vv_ver item) i c ver err item) as Ha.
      unfold KVServer_Get. simpl. rewrite Hk.
      destruct Ha as (Hc' & Hp' & Hr'); [|done..|lia|by exists e|].
      { split; [by rewrite <-Hcur|]. rewrite Hpc. simpl. by rewrite <-Hcur. }
      eapply inv_set; [done|done|apply Hinv|lia|lia|done|by rewrite Hcur].
    + exfalso. destruct Hp as [Hp _]. unfold version in Hp. rewrite Hk in Hp. lia.
Qed.

Lemma total_replicate f n c : f c = 0 → total f (replicate n c) = 0.
Proof. intros H. induction n as [|n IH]; [done|]. change (f c + total f (replicate n c) = 0). lia. Qed.

Lemma put_inv_run n m : ∀ s0 s,
  put_init n s0 → nsteps put_step m s0 s → Z.of_nat m < 2 ^ 64 → put_inv m s.
Proof.
  induction m as [|m IH]; intros s0 s Hi Hs Hm.
  - inversion Hs; subst. destruct Hi as [Hk Hc].
    assert (version (ps_kv s) k = 0) as Hv by (unfold version; by rewrite Hk).
    constructor; [|lia|..]; rewrite ?Hv, ?Hc, ?total_replicate by done; try done.
    + intros item. by rewrite Hk.
    + apply list.Forall_forall. intros c [-> _]%elem_of_replicate. done.
  - apply nsteps_inv_r in Hs as (s1 & Hs & Hlast).
    eapply put_inv_step; [|done|lia]. apply (IH s0); [done|done|lia].
Qed.

Lemma foldl_addRes cs : ∀ r,
  Nok (foldl addRes r (c_res <$> cs)) = Nok r + total (Nok ∘ c_res) cs ∧
  Nmaybe (foldl addRes r (c_res <$> cs)) = Nmaybe r + total (Nmaybe ∘ c_res) cs.
Proof.
  induction cs as [|c cs IH]; intros r; [simpl; lia|].
  rewrite fmap_cons. cbn [foldl]. destruct (IH (addRes r (c_res c))) as [-> ->].
  unfold total. simpl. lia.
Qed.

Lemma total_add f g cs : total (λ c, f c + g c) cs = total f cs + total g cs.
Proof. induction cs; simpl; lia. Qed.

(** C26. The clients of OneClientPut and the check at the end, against the
    server of kvsrv1 and a network that, unless it is reliable, loses requests
    and replies: after fewer than 2^63 steps no client has called Fatalf, the
    version of the key is the number of Puts performed, and, when all clients
    have returned, it is within what they counted, so [CheckPutConcurrent]
    passes. *)
Theorem put_clients_checked n m s0 s :
  put_init n s0 → nsteps put_step m s0 s → Z.of_nat m < 2 ^ 63 →
  Forall (λ c, c_pc c ≠ CFatal) (ps_clients s) ∧
  version (ps_kv s) k = total c_puts (ps_clients s) ∧
  (Forall (λ c, c_pc c = CDone) (ps_clients s) →
   snd (CheckPutConcurrent (version (ps_kv s) k) (c_res <$> ps_clients s) (mkClntRes 0 0)
          reliable) = true).
Proof.
  intros H0 Hs Hm. destruct (put_inv_run _ _ _ _ H0 Hs ltac:(lia)) as [_ H2 H3 H4 H5].
  split_and!; [|done|].
  { eapply list.Forall_impl; [exact H5|]. intros c [_ Hp] He. by rewrite He in Hp. }
  intros Hdone.
  assert (Forall (between 0 0) (ps_clients s)) as Hb.
  { apply list.Forall_forall. intros c Hc. rewrite list.Forall_forall in H5, Hdone.
    destruct (H5 c Hc) as [_ Hp]. by rewrite (Hdone c Hc) in Hp. }
  assert (total (Nok ∘ c_res) (ps_clients s) <= total c_puts (ps_clients s)) as Hlo.
  { apply total_le. eapply list.Forall_impl; [exact Hb|]. intros c Hc. simpl. apply proj1 in Hc. lia. }
  assert (total c_puts (ps_clients s) <= total returned (ps_clients s)) as Hhi.
  { apply total_le. eapply list.Forall_impl; [exact Hb|]. intros c Hc. simpl. apply proj1 in Hc. lia. }
  unfold CheckPutConcurrent. simpl.
  destruct (foldl_addRes (ps_clients s) (mkClntRes 0 0)) as [-> ->]. simpl.
  pose proof (total_add (Nok ∘ c_res) (Nmaybe ∘ c_res) (ps_clients s)) as Hadd.
  change (total returned (ps_clients s) =
    total (Nok ∘ c_res) (ps_clients s) + total (Nmaybe ∘ c_res) (ps_clients s)) in Hadd.
  destruct reliable eqn:Hrel.
  - assert (total (Nmaybe ∘ c_res) (ps_clients s) <= total (λ _, 0) (ps_clients s)) as Hz.
    { apply total_le. eapply list.Forall_impl; [exact Hb|]. intros c [_ Hc]. simpl. specialize (Hc Hrel); lia. }
    assert (total (λ _, 0) (ps_clients s) = 0) as Hz0
      by (clear; induction (ps_clients s); simpl; [done|lia]).
    apply Z.eqb_eq. rewrite u64_small by (unfold is_u64; lia). lia.
  - apply Z.leb_le. rewrite u64_small by (unfold is_u64; lia). lia.
Qed.

End PutClients.


(** ** An instance: two clients, of which the first loses the reply to its Put *)

Fixpoint pos_bits (p : positive) : string :=
  match p with
  | xH => EmptyString
  | xO p => String "0"%char (pos_bits p)
  | xI p => String "1"%char (pos_bits p)
  end.

Fixpoint bits_pos (s : string) : positive :=
  match s with
  | EmptyString => xH
  | String a s => if decide (a = "0"%char) then xO (bits_pos s) else xI (bits_pos s)
  end.

Lemma bits_pos_bits p : bits_pos (pos_bits p) = p.
Proof. induction p as [p IH|p IH|]; simpl; by rewrite ?IH. Qed.

Definition to_bits (e : EntryV) : string := pos_bits (encode (ev_Id e, ev_V e)).
Definition of_bits (s : string) : option EntryV :=
  (λ '(id, v), mkEntryV id v) <$> decode (bits_pos s).

Lemma of_to_bits e : of_bits (to_bits e) = Some e.
Proof. unfold of_bits, to_bits. rewrite bits_pos_bits, decode_encode. by destruct e. Qed.

Definition put_moves : list (nat * PutMove) :=
  [(0, MBegin); (1, MBegin); (0, MPutUnheard); (1, MPut); (0, MPut); (0, MGet); (1, MGet);
   (1, MPut); (1, MGet); (0, MDone); (1, MDone)]%nat.

Definition put_start : PutSys :=
  mkPutSys MakeKVServer (replicate 2 (mkPutClient CNext 0 (mkClntRes 0 0) 0)).

Definition put_end : option PutSys := put_run "k" to_bits of_bits false put_moves put_start.

Example put_end_eq :
  (λ s, (version (ps_kv s) "k", (λ c, (c_pc c, c_ver c, c_res c)) <$> ps_clients s)) <$> put_end =
  Some (2, [(CDone, 1, mkClntRes 0 1); (CDone, 2, mkClntRes 1 0)]).
Proof. vm_compute. reflexivity. Qed.

Lemma put_clients_checked_witness :
  ∃ s, nsteps (put_step "k" to_bits of_bits false) 11 put_start s ∧
    version (ps_kv s) "k" = total c_puts (ps_clients s) ∧
    snd (CheckPutConcurrent (version (ps_kv s) "k") (c_res <$> ps_clients s) (mkClntRes 0 0)
           false) = true.
Proof.
  destruct put_end as [s|] eqn:He; [|pose proof put_end_eq as Hx; by rewrite He in Hx].
  pose proof (put_run_steps "k" to_bits of_bits false _ _ _ He) as Hs.
  destruct (put_clients_checked "k" to_bits of_bits false of_to_bits 2 11 put_start s
              (conj eq_refl eq_refl) Hs ltac:(lia)) as (_ & Hv & Hc).
  exists s. split; [exact Hs|]. split; [exact Hv|]. apply Hc.
  pose proof put_end_eq as Hx. rewrite He in Hx. injection Hx as _ Hx.
  destruct (ps_clients s) as [|c0 [|c1 [|]]]; try discriminate Hx.
  injection Hx as H0 _ _ H1 _ _. repeat constructor; assumption.
Defined.
