(* ===== verification/Porcupine.v ===== *)
(** * The verdict on a history

    Models [checkPorcupine] of src/6.5840/src/kvtest1/porcupine.go: what becomes of
    the answer of the linearizability checker, and the visualization that is
    written on the way.  The checker, files and the visualization itself are
    outside: the answer, whether the file can be opened and whether it can be
    written are arguments. *)

From S2P Require Import Prelude KVRpc KVSrv KvModel KvTest Annotation.

(** [porcupine.CheckResult]. *)
Inductive CheckResult := CheckOk | CheckIllegal | CheckUnknown.

#[export] Instance CheckResult_eq_dec : EqDecision CheckResult.
Proof. solve_decision. Defined.

(** What is printed. *)
Inductive VisInfo := OpenFailed | WriteFailed | Wrote | TimedOut.

(** The annotations after the check, the visualization that was written, if any,
    what was printed, and whether [t.Fatal] ended the test. *)
Record Verdict := mkVerdict {
  vd_globals : Globals;
  vd_written : option (list PAnnotation);
  vd_prints : list VisInfo;
  vd_fatal : bool
}.

Section Check.
(** The order of the map of annotations, and the two readings of the clock. *)
Context (iter : gmap string Continuous → list (string * Continuous)) (t t' : Z).
(** Whether the file opens; whether Visualize succeeds. *)
Context (open_ok write_ok : bool).

(** Finalize the annotations and write the visualization. *)
Definition visualize (end_ : string) (g : Globals) : Globals * option (list PAnnotation) * VisInfo :=
  let '(annotations, g) := FinalizeAnnotations iter end_ t t' g in
  if write_ok then (g, Some annotations, Wrote) else (g, None, WriteFailed).

(** [enabled] is VIS_ENABLE. *)
Definition checkPorcupine (enabled : string) (res : CheckResult) (g : Globals) : Verdict :=
  if decide (res = CheckIllegal) then
    if negb open_ok then mkVerdict g None [OpenFailed] true
    else if decide (enabled ≠ "never") then
      let '(g, w, p) := visualize "test failed" g in mkVerdict g w [p] true
    else mkVerdict g None [] true
  else
    let prints := if decide (res = CheckUnknown) then [TimedOut] else [] in
    if bool_decide (enabled = "always") && GetAnnotationFinalized g then
      if negb open_ok then mkVerdict g None (prints ++ [OpenFailed]) false
      else let '(g, w, p) := visualize "test passed" g in mkVerdict g w (prints ++ [p]) false
    else mkVerdict g None prints false.

(** [CheckPorcupineT]: the log is read and given to the checker. *)
Definition CheckPorcupineT (check : list LogOp → Z → CheckResult) (enabled : string) (log : OpLog) (nsec : Z)
    (g : Globals) : Verdict :=
  checkPorcupine enabled (check (OpLog_Read log) nsec) g.

Definition CheckPorcupine (check : list LogOp → Z → CheckResult) (enabled : string) (log : OpLog) (g : Globals) :
    Verdict :=
  CheckPorcupineT check enabled log (1 * 10 ^ 9) g.

(** The test fails exactly when the checker, run on the whole log, says that the
    history is illegal; a checker that runs out of time does not fail it. *)
Theorem CheckPorcupine_verdict check enabled log g :
  vd_fatal (CheckPorcupine check enabled log g) = true ↔
    check (operations log) (10 ^ 9) = CheckIllegal.
Proof.
  unfold CheckPorcupine, CheckPorcupineT. rewrite OpLog_Read_all, Z.mul_1_l. unfold checkPorcupine, visualize.
  case_decide as Hr; [|by repeat (split_if || case_decide || case_match)].
  split; [done|intros _]. by repeat (split_if || case_decide || case_match).
Qed.

(** A visualization that was written here is not overwritten by the one without
    operations that the clean-up of the test would write; and with VIS_ENABLE set
    to "never" nothing is written. *)
Theorem visualization_kept enabled res g end_ t1 t2 w iter' failed :
  vd_written (checkPorcupine enabled res g) = Some w →
  enabled ≠ "never" ∧
  (cleanup iter' enabled failed end_ t1 t2 (annotation (vd_globals (checkPorcupine enabled res g)))).1 = None.
Proof.
  unfold checkPorcupine, visualize, FinalizeAnnotations, finalize. intros Hw.
  assert (finalized (annotation (vd_globals (checkPorcupine enabled res g))) = true ∧ enabled ≠ "never") as [Hf Hn].
  { unfold checkPorcupine, visualize, FinalizeAnnotations, finalize.
    case_decide.
    - destruct open_ok; [|done]. simpl in *. case_decide; [|done]. by destruct write_ok.
    - destruct (bool_decide (enabled = "always") && GetAnnotationFinalized g) eqn:Hb; [|done].
      apply andb_true_iff in Hb as [He%bool_decide_eq_true Hg]. destruct open_ok; [|done].
      simpl. by destruct write_ok; subst. }
  split; [done|]. unfold checkPorcupine, visualize, FinalizeAnnotations, finalize in Hf.
  unfold cleanup. rewrite decide_False by done. rewrite Hf. by destruct (negb failed && _).
Qed.

End Check.
