(* ===== verification/KvClerks.v ===== *)
(** * The tests of the key/value services as programs over a clerk

    Models the functions of src/6.5840/src/kvtest1/kvtest.go that call a clerk,
    against the interface [IKVClerk] that the tests use: the logged Get and Put,
    the JSON values, [CheckGet], [PutAtLeastOnce], [OnePut], [OneClientPut] and
    [SpreadPuts].  [ExclusiveClerk] states what a clerk promises to a client that
    is the only one to put to some keys; what the functions do with such a clerk
    is proved from it, and the clerk of kvsrv1 is an instance, whatever requests
    and replies the network loses. *)

From Stdlib Require Import Ascii.
From stdpp Require Import pretty.
From S2P Require Import Prelude KVRpc KVSrv KvModel KvTest.

(** ** The interface *)

(** [IKVClerk], in a world of type [W]; [None] is a call that has not returned. *)
Class IKVClerk (W : Type) := {
  ck_Get : string → W → option (string * Tversion * Err * W);
  ck_Put : string → string → Tversion → W → option (Err * W)
}.

(** The log and the counter of operations of a test. *)
Record KvTestState := mkKvTestState { ts_oplog : option OpLog; ts_ops : Z }.

(** [MakeTest], after the configuration has been made. *)
Definition KvTest_MakeTest : KvTestState := mkKvTestState (Some (mkOpLog [])) 0.

(** A function of the test: it uses the clerk, appends to the log, and may call
    [Fatalf]. *)
Definition TestM (W A : Type) : Type := KvTestState * W → TestOutcome (A * (KvTestState * W)).

#[export] Instance TestM_ret W : MRet (TestM W) := λ A a s, Returned (a, s).
#[export] Instance TestM_bind W : MBind (TestM W) := λ A B f m s,
  match m s with
  | Returned (a, s') => f a s'
  | Fatal => Fatal
  | Running => Running
  end.

Definition fatal {W A} : TestM W A := λ _, Fatal.
Definition running {W A} : TestM W A := λ _, Running.

(** A bind that returns. *)
Lemma bind_Returned {W A B} (m : TestM W A) (f : A → TestM W B) s b s' :
  (m ≫= f) s = Returned (b, s') → ∃ a s1, m s = Returned (a, s1) ∧ f a s1 = Returned (b, s').
Proof. unfold mbind, TestM_bind. destruct (m s) as [[a s1]| |]; [by eauto|done..]. Qed.

(** ** The functions of the tests *)

Section Test.
Context {W : Type} `{!IKVClerk W}.
(** [time.Since(t0)]. *)
Context (now : W → Z).

Definition Test_Get (key : string) (cli : Z) : TestM W (string * Tversion * Err) := λ '(ts, w),
  let start := now w in
  match ck_Get key w with
  | None => Running
  | Some (r, w') =>
      Returned (r, (mkKvTestState (logGet key cli start (now w') r <$> ts_oplog ts)
                      (i32 (ts_ops ts + 1)), w'))
  end.

Definition Test_Put (key value : string) (version : Tversion) (cli : Z) : TestM W Err := λ '(ts, w),
  let start := now w in
  match ck_Put key value version w with
  | None => Running
  | Some (err, w') =>
      Returned (err, (mkKvTestState (logPut key value version cli start (now w') err <$> ts_oplog ts)
                        (i32 (ts_ops ts + 1)), w'))
  end.

Definition CheckGet (key value : string) (version : Tversion) : TestM W unit :=
  '(val, ver, err) ← Test_Get key 0;
  if decide (err ≠ OK) then fatal
  else if negb (bool_decide (val = value)) || negb (ver =? version) then fatal
  else mret ().

(** [n] bounds the iterations of the loop. *)
Fixpoint PutAtLeastOnce (n : nat) (key value : string) (ver : Tversion) (me : Z) : TestM W Tversion :=
  match n with
  | O => running
  | S n =>
      err ← Test_Put key value ver me;
      if decide (err = OK) then mret (u64 (ver + 1))
      else if decide (err = ErrMaybe ∨ err = ErrVersion) then
        PutAtLeastOnce n key value (u64 (ver + 1)) me
      else if negb (ver =? 0) then fatal
      else PutAtLeastOnce n key value ver me
  end.

Section Json.
Context {A : Type}.
(** [json.Marshal] and [json.Unmarshal]. *)
Context (marshal : A → option string) (unmarshal : string → option A).

Definition GetJson (key : string) (me : Z) : TestM W (A * Tversion) :=
  '(val, ver, err) ← Test_Get key me;
  if decide (err = OK) then
    match unmarshal val with None => fatal | Some v => mret (v, ver) end
  else fatal.

Definition PutJson (key : string) (v : A) (ver : Tversion) (me : Z) : TestM W Err :=
  match marshal v with None => fatal | Some b => Test_Put key b ver me end.

(** Every Put has version 0. *)
Fixpoint PutAtLeastOnceJson (n : nat) (key : string) (value : A) (ver : Tversion) (me : Z) :
    TestM W Tversion :=
  match n with
  | O => running
  | S n =>
      err ← PutJson key value 0 me;
      if decide (err ≠ ErrMaybe) then mret ver else PutAtLeastOnceJson n key value (u64 (ver + 1)) me
  end.

End Json.

Section Put.
Context (marshal : EntryV → option string) (unmarshal : string → option EntryV).

Fixpoint OnePut (n : nat) (me : Z) (key : string) (ver : Tversion) : TestM W (Tversion * bool) :=
  match n with
  | O => running
  | S n =>
      err ← PutJson marshal key (mkEntryV me ver) ver me;
      if negb (onePut_put err) then fatal
      else
        '(e, ver0) ← GetJson unmarshal key me;
        match onePut_get me ver err e ver0 with
        | (true, _) => fatal
        | (false, Some r) => mret r
        | (false, None) => OnePut n me key ver0
        end
  end.

(** The loop of [OneClientPut]: [sel] has an element for every select that does
    not see [done], the result of [rand.Int]; [n] bounds the loops of OnePut. *)
Fixpoint clientPutLoop (n : nat) (randomkeys : bool) (cli : Z) (ka : list string) (sel : list Z)
    (verm : gmap string Tversion) (res : ClntRes) : TestM W ClntRes :=
  match sel with
  | [] => mret res
  | r :: sel =>
      (* out of range is a panic *)
      match ka !! (if randomkeys then Z.to_nat (r mod len ka) else 0%nat) with
      | None => fatal
      | Some k =>
          '(ver, ok) ← OnePut n cli k (default 0 (verm !! k));
          clientPutLoop n randomkeys cli ka sel (<[k := ver]> verm) (count ok res)
      end
  end.

Definition OneClientPut (n : nat) (randomkeys : bool) (cli : Z) (ka : list string) (sel : list Z) :
    TestM W ClntRes :=
  clientPutLoop n randomkeys cli ka sel (foldl (λ verm k, <[k := 0]> verm) ∅ ka) (mkClntRes 0 0).

End Put.

Definition MakeKeys (n : nat) : list string := (λ i, "k" +:+ pretty (Z.of_nat i))%string <$> seq 0 n.

(** The two loops of [SpreadPutsSize]; these Puts are not logged and their
    results are ignored. *)
Fixpoint spreadPuts (kvs : list (string * string)) : TestM W unit :=
  match kvs with
  | [] => mret ()
  | (k, v) :: kvs => λ '(ts, w),
      match ck_Put k v 0 w with
      | None => Running
      | Some (_, w') => spreadPuts kvs (ts, w')
      end
  end.

Fixpoint checkGets (kvs : list (string * string)) : TestM W unit :=
  match kvs with
  | [] => mret ()
  | (k, v) :: kvs => _ ← CheckGet k v 1; checkGets kvs
  end.

(** [va] are the strings of [tester.Randstring]. *)
Definition SpreadPutsSize (va : list string) : TestM W (list string * list string) :=
  let ka := MakeKeys (length va) in
  let kvs := zip ka va in
  _ ← spreadPuts kvs; _ ← checkGets kvs; mret (ka, va).

End Test.

(** ** What a clerk promises to the only client of some keys *)

(** The value and version of a key; a key without a value has version 0. *)
Abbreviation KeyState := (option (string * Tversion)).

Definition keyVersion (st : KeyState) : Tversion := from_option snd 0 st.

Definition get_result (st : KeyState) : string * Tversion * Err :=
  match st with Some (val, ver) => (val, ver, OK) | None => ("", 0, ErrNoKey) end.

(** A Put of [value] at version [ver] that returned [err]: it took effect
    exactly when [ver] is the version of the key. *)
Definition put_effect (st : KeyState) (value : string) (ver : Tversion) (err : Err) (st' : KeyState) :
    Prop :=
  if decide (ver = keyVersion st) then
    (err = OK ∨ err = ErrMaybe) ∧ st' = Some (value, u64 (ver + 1))
  else
    st' = st ∧ (is_Some st → err = ErrVersion ∨ err = ErrMaybe) ∧ (st = None → err = ErrNoKey).

(** [own] are the keys to which no other client puts; [ck_ok] are the worlds in
    which that is so. *)
Class ExclusiveClerk (W : Type) `{!IKVClerk W} (own : string → Prop) := {
  ck_ok : W → Prop;
  ck_key : W → string → KeyState;
  ck_Get_own k w r w' :
    ck_ok w → own k → ck_Get k w = Some (r, w') →
    ck_ok w' ∧ r = get_result (ck_key w k) ∧ ∀ k', own k' → ck_key w' k' = ck_key w k';
  ck_Put_own k v ver w err w' :
    ck_ok w → own k → is_u64 ver → ck_Put k v ver w = Some (err, w') →
    ck_ok w' ∧ put_effect (ck_key w k) v ver err (ck_key w' k) ∧
    ∀ k', own k' → k' ≠ k → ck_key w' k' = ck_key w k'
}.

(** ** The functions of the tests with such a clerk *)

Section Exclusive.
Context {W : Type} `{Hck : IKVClerk W} (own : string → Prop) `{!ExclusiveClerk W own}.
Context (now : W → Z).

(** The worlds of two states are both fine and hold the same values of the keys
    in [own] but [ks]. *)
Definition agree_but (ks : list string) (w w' : W) : Prop :=
  ck_ok w' ∧ ∀ k, own k → k ∉ ks → ck_key w' k = ck_key w k.

Lemma agree_refl ks w : ck_ok w → agree_but ks w w.
Proof. by split. Qed.

Lemma agree_trans ks w1 w2 w3 : agree_but ks w1 w2 → agree_but ks w2 w3 → agree_but ks w1 w3.
Proof. intros [_ H1] [H2 H3]. split; [done|]. intros k Hk Hn. by rewrite H3, H1. Qed.

Lemma agree_weaken ks ks' w w' : agree_but ks w w' → (∀ k, k ∈ ks → k ∈ ks') → agree_but ks' w w'.
Proof. intros [H1 H2] Hs. split; [done|]. intros k Hk Hn. apply H2; [done|]. intros ?. by apply Hn, Hs. Qed.

(** One logged Get. *)
Lemma Test_Get_own k cli ts w r ts' w' :
  ck_ok w → own k → Test_Get now k cli (ts, w) = Returned (r, (ts', w')) →
  r = get_result (ck_key w k) ∧ agree_but [] w w'.
Proof.
  intros Hw Hk. unfold Test_Get. destruct (ck_Get k w) as [[r1 w1]|] eqn:Hg; [|done].
  intros [= <- _ <-]. apply ck_Get_own in Hg as (H1 & H2 & H3); [|done..]. split; [done|].
  split; [done|]. intros; by apply H3.
Qed.

(** One logged Put. *)
Lemma Test_Put_own k v ver cli ts w err ts' w' :
  ck_ok w → own k → is_u64 ver → Test_Put now k v ver cli (ts, w) = Returned (err, (ts', w')) →
  put_effect (ck_key w k) v ver err (ck_key w' k) ∧ agree_but [k] w w'.
Proof.
  intros Hw Hk Hv. unfold Test_Put. destruct (ck_Put k v ver w) as [[e1 w1]|] eqn:Hp; [|done].
  intros [= <- _ <-]. apply ck_Put_own in Hp as (H1 & H2 & H3); [|done..]. split; [done|].
  split; [done|]. intros k' Hk' Hn. apply H3; [done|]. set_solver.
Qed.

Lemma Test_Get_not_Fatal k cli s : Test_Get now k cli s ≠ Fatal.
Proof. destruct s as [ts w]. unfold Test_Get. by destruct (ck_Get k w) as [[??]|]. Qed.

Lemma Test_Put_not_Fatal k v ver cli s : Test_Put now k v ver cli s ≠ Fatal.
Proof. destruct s as [ts w]. unfold Test_Put. by destruct (ck_Put k v ver w) as [[??]|]. Qed.

(** Every call of the clerk returns. *)
Definition clerk_returns : Prop :=
  (∀ k w, is_Some (ck_Get k w)) ∧ (∀ k v ver w, is_Some (ck_Put k v ver w)).

(** A function does not call Fatalf, [post] holds of its result, and if it does
    not return then [run] holds. *)
Definition safe {A} (run : Prop) (m : TestM W A) (s : KvTestState * W) (post : A → W → Prop) : Prop :=
  match m s with Returned (a, (_, w')) => post a w' | Fatal => False | Running => run end.

Lemma safe_ret {A} run (a : A) s (post : A → W → Prop) : post a s.2 → safe run (mret a) s post.
Proof. by destruct s. Qed.

Lemma safe_bind {A B} run (m : TestM W A) (f : A → TestM W B) s post post' :
  safe run m s post' → (∀ a ts w, post' a w → safe run (f a) (ts, w) post) →
  safe run (m ≫= f) s post.
Proof.
  unfold safe, mbind, TestM_bind. destruct (m s) as [[a [ts w]]| |]; [|done..].
  intros H1 H2. by apply H2.
Qed.

Lemma safe_mono {A} (run run' : Prop) (m : TestM W A) s (post post' : A → W → Prop) :
  safe run' m s post' → (run' → run) → (∀ a w, post' a w → post a w) → safe run m s post.
Proof. unfold safe. destruct (m s) as [[a [ts w]]| |]; [by auto|done|by auto]. Qed.

Lemma safe_Get k cli ts w :
  ck_ok w → own k →
  safe (¬ clerk_returns) (Test_Get now k cli) (ts, w)
    (λ r w', r = get_result (ck_key w k) ∧ agree_but [] w w').
Proof.
  intros Hw Hk. unfold safe. destruct (Test_Get now k cli (ts, w)) as [[r [ts' w']]| |] eqn:Hg.
  - by eapply Test_Get_own.
  - by apply Test_Get_not_Fatal in Hg.
  - intros [Hr _]. unfold Test_Get in Hg. destruct (Hr k w) as [[??] He]. by rewrite He in Hg.
Qed.

Lemma safe_Put k v ver cli ts w :
  ck_ok w → own k → is_u64 ver →
  safe (¬ clerk_returns) (Test_Put now k v ver cli) (ts, w)
    (λ err w', put_effect (ck_key w k) v ver err (ck_key w' k) ∧ agree_but [k] w w').
Proof.
  intros Hw Hk Hv. unfold safe.
  destruct (Test_Put now k v ver cli (ts, w)) as [[r [ts' w']]| |] eqn:Hg.
  - by eapply Test_Put_own.
  - by apply Test_Put_not_Fatal in Hg.
  - intros [_ Hr]. unfold Test_Put in Hg. destruct (Hr k v ver w) as [[??] He]. by rewrite He in Hg.
Qed.

(** [CheckGet] of the value that the key has. *)
Lemma CheckGet_safe k value ver ts w :
  ck_ok w → own k → ck_key w k = Some (value, ver) →
  safe (¬ clerk_returns) (CheckGet now k value ver) (ts, w) (λ _ w', agree_but [] w w').
Proof.
  intros Hw Hk Hc. unfold CheckGet. eapply safe_bind; [by apply safe_Get|].
  intros r ts' w' [-> Ha]. rewrite Hc. simpl. rewrite bool_decide_true, Z.eqb_refl by done. by apply safe_ret.
Qed.

(** [PutAtLeastOnce] from the key's version. *)
Lemma PutAtLeastOnce_safe n k value me : ∀ ver ts w,
  ck_ok w → own k → ver = keyVersion (ck_key w k) → is_u64 ver → ver + Z.of_nat n < 2 ^ 64 →
  safe True (PutAtLeastOnce now n k value ver me) (ts, w)
    (λ ver' w', ck_key w' k = Some (value, ver') ∧ ver < ver' <= ver + Z.of_nat n ∧ agree_but [k] w w').
Proof.
  induction n as [|n IH]; intros ver ts w Hw Hk Hver Hu Hb; [done|]. cbn [PutAtLeastOnce].
  eapply safe_bind; [by eapply safe_mono; [apply safe_Put|done|]|]. intros err ts' w' [He Ha].
  unfold put_effect in He. rewrite decide_True in He by done. destruct He as [He Hc].
  rewrite u64_small in * by (unfold is_u64 in *; lia).
  case_decide as Hok; [apply safe_ret; split_and!; [done|lia|lia|done]|].
  destruct He as [ -> | -> ]; [done|]. rewrite decide_True by auto.
  eapply safe_mono; [apply IH|done|]; [apply Ha|done|by rewrite Hc|unfold is_u64 in *; lia|lia|].
  intros ver' w'' (H1 & H2 & H3). split_and!; [done|lia|lia|by eapply agree_trans].
Qed.

(** *** SpreadPuts *)

Definition holds (kvs : list (string * string)) (w : W) : Prop :=
  Forall (λ kv, ck_key w kv.1 = Some (kv.2, 1)) kvs.

Lemma spreadPuts_safe kvs : ∀ ts w,
  ck_ok w → Forall own kvs.*1 → NoDup kvs.*1 → Forall (λ k, ck_key w k = None) kvs.*1 →
  safe (¬ clerk_returns) (spreadPuts kvs) (ts, w) (λ _ w', holds kvs w' ∧ agree_but kvs.*1 w w').
Proof.
  induction kvs as [|[k v] kvs IH]; intros ts w Hw Hown Hnd Hnone; simpl in *.
  { apply safe_ret. split; [constructor|by apply agree_refl]. }
  apply Forall_cons_1 in Hown as [Ho Hown]. apply list.NoDup_cons in Hnd as [Hn Hnd].
  apply Forall_cons_1 in Hnone as [Hk Hnone]. unfold safe. simpl.
  destruct (ck_Put k v 0 w) as [[err w1]|] eqn:Hp.
  2:{ intros [_ Hr]. destruct (Hr k v 0 w) as [? He]. by rewrite He in Hp. }
  apply ck_Put_own in Hp as (H1 & H2 & H3); [|done|done|unfold is_u64; lia].
  unfold put_effect in H2. rewrite Hk in H2. simpl in H2. destruct H2 as [_ H2].
  assert (agree_but [k] w w1) as Ha by (split; [done|]; intros k' ??; apply H3; [done|set_solver]).
  assert (Forall (λ k0, ck_key w1 k0 = None) kvs.*1) as Hnone'.
  { rewrite list.Forall_forall in Hnone, Hown |- *. intros k' Hk'. rewrite (proj2 Ha k'); [by apply Hnone|by apply Hown|].
    intros ?%list_elem_of_singleton. by subst k'. }
  eapply safe_mono; [by apply (IH ts w1)|done|]. intros _ w' [Hh Ha'].
  split.
  - constructor; [|done]. simpl. rewrite (proj2 Ha' k) by done. exact H2.
  - eapply agree_trans; eapply agree_weaken; [exact Ha| |exact Ha'|]; set_solver.
Qed.

Lemma checkGets_safe kvs : ∀ ts w,
  ck_ok w → Forall own kvs.*1 → holds kvs w →
  safe (¬ clerk_returns) (checkGets now kvs) (ts, w) (λ _ w', agree_but [] w w').
Proof.
  induction kvs as [|[k v] kvs IH]; intros ts w Hw Hown Hh; simpl in *.
  { apply safe_ret. by apply agree_refl. }
  apply Forall_cons_1 in Hown as [Ho Hown]. apply Forall_cons_1 in Hh as [Hk Hh]. simpl in Hk.
  eapply safe_bind; [by apply CheckGet_safe|]. intros ? ts1 w1 Ha. simpl in Ha.
  eapply safe_mono; [apply IH|done|]; [apply Ha|done| |by intros; eapply agree_trans].
  clear IH. induction kvs as [|[k' v'] kvs IH]; [constructor|]. simpl in *.
  apply Forall_cons_1 in Hown as [Ho' Hown]. apply Forall_cons_1 in Hh as [Hk' Hh].
  constructor; [|by apply IH]. simpl in *. rewrite (proj2 Ha k') by (try done; set_solver). done.
Qed.

(** The names of the keys differ. *)
Lemma MakeKeys_NoDup n : NoDup (MakeKeys n).
Proof.
  unfold MakeKeys. apply NoDup_fmap_2; [|apply NoDup_seq].
  intros i j H. injection H as H. change (pretty (Z.of_nat i) = pretty (Z.of_nat j)) in H.
  apply (inj pretty) in H. lia.
Qed.

Lemma MakeKeys_length n : length (MakeKeys n) = n.
Proof. unfold MakeKeys. by rewrite length_fmap, length_seq. Qed.

(** C33. SpreadPuts on keys that have no value yet never fails its own checks, and
    leaves every key with its value at version 1; it returns when every call of
    the clerk does. *)
Theorem SpreadPutsSize_passes va ts w :
  ck_ok w → (∀ k, k ∈ MakeKeys (length va) → own k ∧ ck_key w k = None) →
  safe (¬ clerk_returns) (SpreadPutsSize now va) (ts, w) (λ r w',
    r = (MakeKeys (length va), va) ∧
    Forall2 (λ k v, ck_key w' k = Some (v, 1)) (MakeKeys (length va)) va).
Proof.
  intros Hw Hk. unfold SpreadPutsSize. set (ka := MakeKeys (length va)) in *.
  assert (length ka = length va) as Hlen by apply MakeKeys_length.
  assert ((zip ka va).*1 = ka) as Hfst by (apply fst_zip; lia).
  assert (Forall own ka) as Hown by (apply list.Forall_forall; intros k ?; by apply Hk).
  eapply safe_bind; [apply spreadPuts_safe; rewrite ?Hfst; try done|].
  { apply MakeKeys_NoDup. }
  { apply list.Forall_forall. intros k ?. by apply Hk. }
  intros ? ts1 w1 [Hh Ha].
  eapply safe_bind; [apply checkGets_safe; rewrite ?Hfst; try done; apply Ha|].
  intros ? ts2 w2 Ha2. apply safe_ret. split; [done|]. simpl.
  apply Forall2_same_length_lookup_2; [done|]. intros i k v Hki Hvi.
  rewrite (proj2 Ha2 k) by (first [by eapply Forall_lookup_1|set_solver]).
  apply (proj1 (Forall_lookup _ _) Hh i (k, v)). by apply lookup_zip_Some.
Qed.

(** *** Puts of JSON values *)

Context (marshal : EntryV → option string) (unmarshal : string → option EntryV).
Context (round_trip : ∀ e, ∃ b, marshal e = Some b ∧ unmarshal b = Some e).

(** The value of a key, if any, is JSON. *)
Definition json_key (st : KeyState) : Prop :=
  ∀ v ver, st = Some (v, ver) → is_Some (unmarshal v).

Lemma PutJson_safe k e ver me ts w :
  ck_ok w → own k → is_u64 ver →
  safe (¬ clerk_returns) (PutJson now marshal k e ver me) (ts, w)
    (λ err w', (∃ b, unmarshal b = Some e ∧ put_effect (ck_key w k) b ver err (ck_key w' k)) ∧
               agree_but [k] w w').
Proof.
  intros Hw Hk Hv. unfold PutJson. destruct (round_trip e) as (b & -> & Hb).
  eapply safe_mono; [by apply safe_Put|done|]. intros err w' [H1 H2]. split; [by exists b|done].
Qed.

Lemma GetJson_safe k me ts w v ver e :
  ck_ok w → own k → ck_key w k = Some (v, ver) → unmarshal v = Some e →
  safe (¬ clerk_returns) (GetJson now unmarshal k me) (ts, w)
    (λ r w', r = (e, ver) ∧ agree_but [] w w').
Proof.
  intros Hw Hk Hc He. unfold GetJson. eapply safe_bind; [by apply safe_Get|].
  intros r ts' w' [-> Ha]. rewrite Hc. simpl. rewrite He. by apply safe_ret.
Qed.

(** What a OnePut that returns [(ver, ok)] did to its key. *)
Definition one_put (st : KeyState) (r : Tversion * bool) (st' : KeyState) : Prop :=
  is_Some st' ∧ json_key st' ∧ r.1 = keyVersion st' ∧
  keyVersion st <= r.1 <= keyVersion st + 1 ∧ (r.2 = true → r.1 = keyVersion st + 1).

(** One iteration, at the version of the key. *)
Lemma OnePut_current n me k ver ts w :
  ck_ok w → own k → ver = keyVersion (ck_key w k) → is_u64 (ver + 1) → 0 <= ver →
  safe (¬ clerk_returns) (OnePut now marshal unmarshal (S n) me k ver) (ts, w)
    (λ r w', one_put (ck_key w k) r (ck_key w' k) ∧ agree_but [k] w w').
Proof.
  intros Hw Hk Hver Hu H0. cbn [OnePut].
  assert (is_u64 ver) as Hv by (unfold is_u64 in *; lia).
  eapply safe_bind; [by apply PutJson_safe|]. intros err ts1 w1 [(b & Hb & He) Ha].
  unfold put_effect in He. rewrite decide_True in He by done. destruct He as [He Hc].
  rewrite u64_small in Hc by done.
  assert (onePut_put err = true) as -> by (by destruct He as [ -> | -> ]). cbn [negb].
  eapply safe_bind; [by eapply GetJson_safe; [apply Ha|..]|]. intros ? ts2 w2 [-> Ha2].
  assert (one_put (ck_key w k) (ver + 1, bool_decide (err = OK)) (ck_key w1 k)) as Hone.
  { rewrite Hc. unfold one_put. simpl. split_and!; [by eexists| |done|lia|lia|lia].
    intros v' ver' [= <- <-]. by rewrite Hb. }
  assert (agree_but [k] w w2) as Ha3 by (eapply agree_trans; [done|eapply agree_weaken; [done|set_solver]]).
  rewrite <-(proj2 Ha2 k Hk) in Hone by set_solver.
  unfold onePut_get. simpl. rewrite Z.eqb_refl, !andb_false_r.
  destruct He as [ -> | -> ]; simpl; by apply safe_ret.
Qed.

(** From any version: an older one costs one more iteration. *)
Lemma OnePut_safe n me k ver ts w :
  ck_ok w → own k → is_u64 ver → 0 <= keyVersion (ck_key w k) → is_u64 (keyVersion (ck_key w k) + 1) →
  json_key (ck_key w k) → (ver = keyVersion (ck_key w k) ∨ is_Some (ck_key w k)) →
  safe (¬ clerk_returns) (OnePut now marshal unmarshal (S (S n)) me k ver) (ts, w)
    (λ r w', one_put (ck_key w k) r (ck_key w' k) ∧ agree_but [k] w w').
Proof.
  intros Hw Hk Hv H0 Hb Hj Hver.
  destruct (decide (ver = keyVersion (ck_key w k))) as [He|Hne].
  { apply OnePut_current; [done..|by rewrite He|by rewrite He]. }
  destruct Hver as [?|[[v cur] Hc]]; [done|]. destruct (Hj v cur Hc) as [e Hu].
  rewrite Hc in Hne, H0, Hb |- *. simpl in Hne, H0, Hb.
  change (OnePut now marshal unmarshal (S (S n)) me k ver) with
    (err ← PutJson now marshal k (mkEntryV me ver) ver me;
     if negb (onePut_put err) then fatal
     else '(e, ver0) ← GetJson now unmarshal k me;
          match onePut_get me ver err e ver0 with
          | (true, _) => fatal
          | (false, Some r) => mret r
          | (false, None) => OnePut now marshal unmarshal (S n) me k ver0
          end).
  eapply safe_bind; [by apply PutJson_safe|]. intros err ts1 w1 [(b & Hb1 & Hp) Ha].
  rewrite Hc in Hp. unfold put_effect in Hp. rewrite decide_False in Hp by done.
  destruct Hp as (Hc1 & Herr & _). specialize (Herr ltac:(by eexists)).
  assert (onePut_put err = true) as -> by (by destruct Herr as [ -> | -> ]). cbn [negb].
  eapply safe_bind; [by eapply GetJson_safe; [apply Ha|..]|]. intros ? ts2 w2 [-> Ha2].
  assert (agree_but [k] w w2) as Ha3 by (eapply agree_trans; [done|eapply agree_weaken; [done|set_solver]]).
  assert (ck_key w2 k = Some (v, cur)) as Hc2 by (rewrite (proj2 Ha2 k Hk) by set_solver; done).
  destruct Herr as [ -> | -> ]; unfold onePut_get; simpl.
  - eapply safe_mono; [apply OnePut_current|done|].
    + apply Ha3.
    + done.
    + by rewrite Hc2.
    + done.
    + done.
    + intros r w3 [H1 H2]. rewrite Hc2 in H1. split; [done|by eapply agree_trans].
  - apply safe_ret. split; [|done]. simpl. rewrite Hc2. unfold one_put. simpl.
    split_and!; [by eexists| |done|lia|lia|done]. intros v' ver' [= <- <-]. by eexists.
Qed.

(** *** One client on all its keys *)

(** The sum of the versions of [ka]. *)
Definition versions (w : W) (ka : list string) : Z := foldr (λ k n, keyVersion (ck_key w k) + n) 0 ka.

(** What [verm] knows of the keys: every version is current, or the key has a
    value. *)
Definition verm_ok (ka : list string) (verm : gmap string Tversion) (w : W) : Prop :=
  ∀ k, k ∈ ka → is_u64 (default 0 (verm !! k)) ∧ json_key (ck_key w k) ∧
    (default 0 (verm !! k) = keyVersion (ck_key w k) ∨ is_Some (ck_key w k)).

Lemma versions_one ka k w w' :
  NoDup ka → k ∈ ka → Forall own ka → agree_but [k] w w' →
  versions w' ka = versions w ka + (keyVersion (ck_key w' k) - keyVersion (ck_key w k)).
Proof.
  intros Hnd Hk Hown [_ Ha]. revert Hnd Hk Hown.
  induction ka as [|k0 ka IH]; [by intros _ ?%not_elem_of_nil|].
  intros [Hn Hnd]%list.NoDup_cons Hk [Ho Hown]%Forall_cons_1. simpl.
  apply elem_of_cons in Hk as [ -> |Hk].
  - assert (versions w' ka = versions w ka) as ->; [|lia].
    clear IH Hnd. induction ka as [|k1 ka IH]; [done|]. simpl.
    apply Forall_cons_1 in Hown as [Ho1 Hown]. apply not_elem_of_cons in Hn as [Hn1 Hn].
    rewrite (Ha k1) by set_solver. by rewrite IH.
  - rewrite (IH Hnd Hk Hown), (Ha k0); [lia|done|set_solver].
Qed.

Lemma count_sum ok res : Nok (count ok res) + Nmaybe (count ok res) = Nok res + Nmaybe res + 1.
Proof. destruct ok; simpl; lia. Qed.

Lemma count_ok ok res : Nok (count ok res) = Nok res + (if ok then 1 else 0).
Proof. destruct ok; simpl; lia. Qed.

Lemma verm_ok_put ka verm w w' k r :
  verm_ok ka verm w → one_put (ck_key w k) r (ck_key w' k) → agree_but [k] w w' → Forall own ka →
  is_u64 r.1 → verm_ok ka (<[k := r.1]> verm) w'.
Proof.
  intros Hv (Hs & Hj & Hr & _) [_ Ha] Hown Hu k' Hk'. rewrite list.Forall_forall in Hown.
  destruct (decide (k' = k)) as [ -> |Hne].
  - rewrite lookup_insert_eq. simpl. by split_and!; [| |left].
  - rewrite lookup_insert_ne, (Ha k') by (try apply Hown; set_solver). by apply Hv.
Qed.

Lemma clientPutLoop_safe n randomkeys cli ka sel : ∀ verm res ts w,
  ck_ok w → Forall own ka → NoDup ka → ka ≠ [] → verm_ok ka verm w →
  Forall (λ k, 0 <= keyVersion (ck_key w k) ∧ keyVersion (ck_key w k) + len sel < 2 ^ 64) ka →
  safe (¬ clerk_returns)
    (clientPutLoop now marshal unmarshal (S (S n)) randomkeys cli ka sel verm res) (ts, w)
    (λ res' w', Nok res' + Nmaybe res' = Nok res + Nmaybe res + len sel ∧
       Nok res' - Nok res <= versions w' ka - versions w ka <= len sel ∧ agree_but ka w w').
Proof.
  induction sel as [|r sel IH]; intros verm res ts w Hw Hown Hnd Hne Hverm Hb.
  { apply safe_ret. simpl. split_and!; [lia..|by apply agree_refl]. }
  cbn [clientPutLoop]. set (i := if randomkeys then _ else _).
  destruct (ka !! i) as [k|] eqn:Hi.
  2:{ exfalso. apply lookup_ge_None in Hi. destruct ka as [|k0 ka]; [done|]. subst i.
      destruct randomkeys; simpl in Hi; [|lia].
      pose proof (Z.mod_pos_bound r (Z.of_nat (S (length ka))) ltac:(lia)). lia. }
  apply list_elem_of_lookup_2 in Hi as Hk.
  pose proof (proj1 (list.Forall_forall _ _) Hown k Hk) as Hok.
  destruct (Hverm k Hk) as (Hu & Hj & Hcur).
  pose proof (proj1 (list.Forall_forall _ _) Hb k Hk) as [Hb0 Hb1]. simpl in Hb1.
  eapply safe_bind; [apply OnePut_safe; [done..|unfold is_u64; lia|done|done]|].
  intros [ver ok] ts1 w1 [Hone Ha].
  pose proof Hone as (_ & _ & Hr & Hrange & Hokr). simpl in Hr, Hrange, Hokr.
  eapply safe_mono; [apply IH|done|].
  - apply Ha.
  - done.
  - done.
  - done.
  - eapply (verm_ok_put _ _ _ _ k (ver, ok)); [done..|]. simpl. unfold is_u64. lia.
  - apply list.Forall_forall. intros k' Hk'. pose proof (proj1 (list.Forall_forall _ _) Hb k' Hk') as Hb'.
    simpl in Hb'. destruct (decide (k' = k)) as [ -> |Hk'']; [lia|].
    rewrite (proj2 Ha k'); [lia| |set_solver]. by apply (proj1 (list.Forall_forall _ _) Hown).
  - intros res' w' (H1 & H2 & H3). rewrite count_sum in H1. rewrite count_ok in H2.
    rewrite (versions_one ka k w w1) in H2 by done. rewrite <-Hr in H2.
    split_and!; [simpl; lia| |simpl; destruct ok; lia|].
    + destruct ok; [rewrite (Hokr eq_refl) in *|]; lia.
    + eapply agree_trans; [|done]. eapply agree_weaken; [done|]. set_solver.
Qed.

(** The client of OneClientPut, when no other client puts to its keys, one or
    several: it never reports an error, counts one OnePut for every select, and
    the versions of its keys grew by at least the Puts that it counts as
    successful and at most by all of them. *)
Theorem OneClientPut_alone n randomkeys cli ka sel ts w :
  ck_ok w → Forall own ka → NoDup ka → ka ≠ [] →
  Forall (λ k, json_key (ck_key w k) ∧ 0 <= keyVersion (ck_key w k) ∧
               keyVersion (ck_key w k) + len sel < 2 ^ 64) ka →
  safe (¬ clerk_returns)
    (OneClientPut now marshal unmarshal (S (S n)) randomkeys cli ka sel) (ts, w) (λ res w',
    Nok res + Nmaybe res = len sel ∧
    versions w ka + Nok res <= versions w' ka <= versions w ka + (Nok res + Nmaybe res)).
Proof.
  intros Hw Hown Hnd Hne Hb. unfold OneClientPut.
  assert (∀ k (l : list string) (m : gmap string Tversion),
    default 0 (m !! k) = 0 → default 0 (foldl (λ verm k, <[k := 0]> verm) m l !! k) = 0) as Hverm0.
  { intros k l. induction l as [|k0 l IH]; intros m Hm; [done|]. simpl. apply IH.
    destruct (decide (k0 = k)) as [ -> |?]; [by rewrite lookup_insert_eq|by rewrite lookup_insert_ne]. }
  eapply safe_mono; [apply clientPutLoop_safe|done|]; [done..| | |].
  - intros k Hk. rewrite Hverm0 by done. destruct (proj1 (list.Forall_forall _ _) Hb k Hk) as (H1 & H2 & H3).
    split_and!; [done|done|]. destruct (ck_key w k) as [[v ver]|]; [by right; eexists|by left].
  - eapply list.Forall_impl; [exact Hb|]. intros k (_ & H1 & H2). done.
  - simpl. intros res w' (H1 & H2 & _). lia.
Qed.

End Exclusive.

(** ** The clerk of kvsrv1 *)

(** The server and the number of the next call, whose schedule is [calls] of it. *)
Record SrvWorld (calls : nat → Schedule) := mkSrvWorld { sw_kv : KVServer; sw_next : nat }.
Arguments mkSrvWorld {calls} _ _.
Arguments sw_kv {calls} _.
Arguments sw_next {calls} _.

#[export] Instance Clerk_IKVClerk calls : IKVClerk (SrvWorld calls) := {
  ck_Get key w :=
    let '(kv, r) := Clerk_Get key (calls (sw_next w)) (sw_kv w) in
    r ← r; Some (r, mkSrvWorld kv (S (sw_next w)));
  ck_Put key value ver w :=
    let '(kv, _, r) := Clerk_Put key value ver (calls (sw_next w)) (sw_kv w) in
    r ← r; Some (r, mkSrvWorld kv (S (sw_next w)))
}.

Section KvSrvClerk.
Context (own : string → Prop).

(** The other clients do not put to the keys in [own]. *)
Definition others_stay_out (sched : Schedule) : Prop :=
  Forall (λ x, Forall (λ p, ¬ own (put_Key p)) x.1) sched.

Definition key_state (kv : KVServer) (k : string) : KeyState :=
  (λ item, (vv_val item, vv_ver item)) <$> store kv !! k.

Lemma key_state_version kv k : keyVersion (key_state kv k) = version kv k.
Proof. unfold key_state, version. by destruct (store kv !! k). Qed.

Lemma key_state_None kv k : key_state kv k = None ↔ store kv !! k = None.
Proof. apply fmap_None. Qed.

(** A Put executed by the server. *)
Lemma serve_key_state m p kv kv' e :
  serve m p kv = (kv', e) →
  (∀ k, k ≠ put_Key p → key_state kv' k = key_state kv k) ∧
  if decide (put_Version p = version kv (put_Key p)) then
    ev_err e = OK ∧ key_state kv' (put_Key p) = Some (put_Value p, u64 (put_Version p + 1))
  else kv' = kv ∧ ev_err e = if decide (key_state kv (put_Key p) = None) then ErrNoKey else ErrVersion.
Proof.
  unfold serve. rewrite Put_cas. unfold key_state.
  destruct (decide (put_Version p = version kv (put_Key p))) as [Hd|Hd].
  - rewrite (proj2 (Z.eqb_eq _ _) Hd). intros [= <- <-]. simpl. split.
    + intros k Hk. by rewrite lookup_insert_ne.
    + by rewrite lookup_insert_eq.
  - rewrite (proj2 (Z.eqb_neq _ _) Hd). intros [= <- <-]. split; [done|]. split; [done|]. simpl.
    by destruct (store kv !! put_Key p).
Qed.

Lemma serve_others_own ps : ∀ kv kv' es,
  serve_others ps kv = (kv', es) → Forall (λ p, ¬ own (put_Key p)) ps →
  ∀ k, own k → key_state kv' k = key_state kv k.
Proof.
  induction ps as [|p ps IH]; intros kv kv' es H Hps k Hk; simpl in H; [by injection H as <- _|].
  apply Forall_cons_1 in Hps as [Hp Hps].
  destruct (serve false p kv) as [kv1 e] eqn:He. destruct (serve_others ps kv1) as [kv2 es2] eqn:Hes.
  injection H as <- _. rewrite (IH kv1 kv2 es2) by done.
  apply serve_key_state in He as [He _]. apply He. intros ->. done.
Qed.

(** The loop of Put, when the version is not the key's. *)
Lemma Put_loop_own_stale args sched : ∀ first kv kv' es err,
  Clerk_Put_loop first args sched kv = (kv', es, Some err) → others_stay_out sched →
  own (put_Key args) → put_Version args ≠ version kv (put_Key args) →
  (∀ k, own k → key_state kv' k = key_state kv k) ∧
  (key_state kv (put_Key args) = None → err = ErrNoKey) ∧
  (is_Some (key_state kv (put_Key args)) → err = ErrMaybe ∨ (first = true ∧ err = ErrVersion)).
Proof.
  induction sched as [|[others o] sched IH]; intros first kv kv' es err H Hs Hown Hne; [done|].
  simpl in H. apply Forall_cons_1 in Hs as [Ho Hs]. simpl in Ho.
  destruct (serve_others others kv) as [kv1 es1] eqn:Hso.
  pose proof (serve_others_own _ _ _ _ Hso Ho) as Hk1.
  assert (version kv1 (put_Key args) = version kv (put_Key args)) as Hv1
    by (by rewrite <-!key_state_version, Hk1).
  rewrite <-Hv1 in Hne. rewrite <-(Hk1 _ Hown).
  destruct (serve true args kv1) as [kv2 e] eqn:He. pose proof (serve_key_state _ _ _ _ _ He) as [_ Hst].
  rewrite decide_False in Hst by done. destruct Hst as [-> Herr].
  assert (∀ first' kv' es r, Clerk_Put_loop first' args sched kv1 = (kv', es, r) → r = Some err →
    first' = false → (∀ k, own k → key_state kv' k = key_state kv k) ∧
    (key_state kv1 (put_Key args) = None → err = ErrNoKey) ∧
    (is_Some (key_state kv1 (put_Key args)) → err = ErrMaybe ∨ (first = true ∧ err = ErrVersion))) as Hrec.
  { intros ? kv2 es2 r Hl -> ->. destruct (IH _ _ _ _ _ Hl Hs Hown Hne) as (H1 & H2 & H3).
    split_and!; [|done|].
    - intros k Hk. by rewrite H1, Hk1.
    - intros Hi. destruct (H3 Hi) as [?|[??]]; [by left|done]. }
  destruct o.
  - destruct (Clerk_Put_loop false args sched kv1) as [[kv2 es2] r] eqn:Hl.
    injection H as <- _ Hr. by eapply Hrec.
  - destruct (Clerk_Put_loop false args sched kv1) as [[kv2 es2] r] eqn:Hl.
    injection H as <- _ Hr. by eapply Hrec.
  - injection H as <- _ <-. rewrite Herr. split_and!; [done| |].
    + intros Hn. by rewrite decide_True.
    + intros [st Hst]. rewrite Hst, decide_False by done. destruct first; [by right|by left].
Qed.

(** And when it is. *)
Lemma Put_loop_own_current args sched : ∀ first kv kv' es err,
  Clerk_Put_loop first args sched kv = (kv', es, Some err) → others_stay_out sched →
  own (put_Key args) → is_u64 (put_Version args) → put_Version args = version kv (put_Key args) →
  (err = OK ∨ err = ErrMaybe) ∧
  key_state kv' (put_Key args) = Some (put_Value args, u64 (put_Version args + 1)) ∧
  ∀ k, own k → k ≠ put_Key args → key_state kv' k = key_state kv k.
Proof.
  induction sched as [|[others o] sched IH]; intros first kv kv' es err H Hs Hown Hu Hv; [done|].
  simpl in H. apply Forall_cons_1 in Hs as [Ho Hs]. simpl in Ho.
  destruct (serve_others others kv) as [kv1 es1] eqn:Hso.
  pose proof (serve_others_own _ _ _ _ Hso Ho) as Hk1.
  assert (version kv1 (put_Key args) = version kv (put_Key args)) as Hv1
    by (by rewrite <-!key_state_version, Hk1).
  destruct (serve true args kv1) as [kv2 e] eqn:He. pose proof (serve_key_state _ _ _ _ _ He) as [Hoth Hst].
  rewrite decide_True in Hst by lia. destruct Hst as [Herr Hst].
  destruct o.
  - destruct (Clerk_Put_loop false args sched kv1) as [[kv3 es3] r] eqn:Hl. injection H as <- _ Hr. subst r.
    destruct (IH _ _ _ _ _ Hl Hs Hown Hu ltac:(lia)) as (H1 & H2 & H3). split_and!; [done|done|].
    intros k Hk Hne. by rewrite H3, Hk1.
  - destruct (Clerk_Put_loop false args sched kv2) as [[kv3 es3] r] eqn:Hl. injection H as <- _ Hr. subst r.
    destruct (Put_loop_own_stale _ _ _ _ _ _ _ Hl Hs Hown) as (H1 & _ & H3).
    { rewrite <-key_state_version, Hst. simpl. apply not_eq_sym. by apply u64_succ_ne. }
    split_and!.
    + right. destruct H3 as [?|[??]]; [by rewrite Hst; eexists|done|done].
    + by rewrite H1.
    + intros k Hk Hne. by rewrite H1, Hoth, Hk1.
  - injection H as <- _ <-. rewrite Herr. split_and!; [by destruct first; left|done|].
    intros k Hk Hne. by rewrite Hoth, Hk1.
Qed.

Lemma Clerk_Get_own key sched : ∀ kv kv' r,
  Clerk_Get key sched kv = (kv', Some r) → others_stay_out sched → own key →
  r = get_result (key_state kv key) ∧ ∀ k, own k → key_state kv' k = key_state kv k.
Proof.
  induction sched as [|[others o] sched IH]; intros kv kv' r H Hs Hown; [done|].
  simpl in H. apply Forall_cons_1 in Hs as [Ho Hs]. simpl in Ho.
  destruct (serve_others others kv) as [kv1 es1] eqn:Hso.
  pose proof (serve_others_own _ _ _ _ Hso Ho) as Hk1. rewrite <-(Hk1 _ Hown).
  destruct o.
  1,2: destruct (IH _ _ _ H Hs Hown) as [H1 H2]; split; [done|]; intros k Hk; by rewrite H2, Hk1.
  injection H as <- <-. split; [|done]. unfold KVServer_Get, key_state. simpl.
  by destruct (store kv1 !! key).
Qed.

#[export] Program Instance Clerk_exclusive calls : ExclusiveClerk (SrvWorld calls) own := {
  ck_ok w := ∀ i, others_stay_out (calls i);
  ck_key w := key_state (sw_kv w)
}.
Next Obligation.
  intros calls k w r w' Hw Hk. simpl. destruct (Clerk_Get _ _ _) as [kv' [r'|]] eqn:Hg; [|done].
  intros [= <- <-]. simpl. apply Clerk_Get_own in Hg as [H1 H2]; [done|by apply Hw|done].
Qed.
Next Obligation.
  intros calls k v ver w err w' Hw Hk Hu. simpl. destruct (Clerk_Put _ _ _ _ _) as [[kv' es] [r|]] eqn:Hp; [|done].
  intros [= <- <-]. simpl. unfold Clerk_Put in Hp. unfold put_effect. rewrite key_state_version. case_decide as Hd.
  - apply Put_loop_own_current in Hp as (H1 & H2 & H3); [done|by apply Hw|done..].
  - apply Put_loop_own_stale in Hp as (H1 & H2 & H3); [|by apply Hw|done..]. simpl in *.
    split_and!; [done|by apply H1| |done|by intros; apply H1].
    intros Hs. destruct (H3 Hs) as [?|[??]]; [by right|by left].
Qed.

End KvSrvClerk.

(** The calls return when every schedule lets a reply through. *)
Lemma Clerk_Put_answered args sched : ∀ first kv,
  (∃ others, (others, Delivered) ∈ sched) → is_Some (Clerk_Put_loop first args sched kv).2.
Proof.
  induction sched as [|[others o] sched IH]; intros first kv [os H]; [by apply not_elem_of_nil in H|].
  simpl. destruct (serve_others others kv) as [kv1 es1]. destruct (serve true args kv1) as [kv2 e].
  apply elem_of_cons in H as [[= <- <-]|H]; [by eexists|].
  destruct o; [| |by eexists].
  - specialize (IH false kv1 ltac:(by exists os)). by destruct (Clerk_Put_loop false args sched kv1) as [[??] ?].
  - specialize (IH false kv2 ltac:(by exists os)). by destruct (Clerk_Put_loop false args sched kv2) as [[??] ?].
Qed.

Lemma Clerk_Get_answered key sched : ∀ kv,
  (∃ others, (others, Delivered) ∈ sched) → is_Some (Clerk_Get key sched kv).2.
Proof.
  induction sched as [|[others o] sched IH]; intros kv [os H]; [by apply not_elem_of_nil in H|].
  simpl. destruct (serve_others others kv) as [kv1 es1].
  apply elem_of_cons in H as [[= <- <-]|H]; [by eexists|].
  destruct o; [by apply IH; exists os..|by eexists].
Qed.

Lemma Clerk_calls_return calls :
  (∀ i, ∃ others, (others, Delivered) ∈ calls i) →
  clerk_returns (W := SrvWorld calls).
Proof.
  intros Hc. split.
  - intros k w. simpl. destruct (Clerk_Get_answered k _ (sw_kv w) (Hc (sw_next w))) as [r Hr].
    destruct (Clerk_Get _ _ _) as [kv r']. simpl in Hr. subst r'. by eexists.
  - intros k v ver w. simpl. unfold Clerk_Put.
    destruct (Clerk_Put_answered (mkPutArgs k v ver) _ true (sw_kv w) (Hc (sw_next w))) as [r Hr].
    destruct (Clerk_Put_loop _ _ _ _) as [[kv es] r']. simpl in Hr. subst r'. by eexists.
Qed.

(** ** Instances: every call loses its first request and then a reply *)

Definition lossy : nat → Schedule := λ i,
  [([mkPutArgs "other" "z" 0], RequestLost); ([], if decide (i = 1%nat) then ReplyLost else Delivered);
   ([], Delivered)].

Definition lossy_own (k : string) : Prop := k ≠ "other".

Definition lossy_start : SrvWorld lossy := mkSrvWorld MakeKVServer 0.

Lemma lossy_stay_out i : others_stay_out lossy_own (lossy i).
Proof. by repeat constructor; intros H; apply H. Qed.

Lemma lossy_returns : clerk_returns (W := SrvWorld lossy).
Proof.
  apply Clerk_calls_return. intros i. exists []. unfold lossy. set_solver.
Qed.

Lemma lossy_keys : MakeKeys 2 = ["k0"; "k1"].
Proof. vm_compute. reflexivity. Qed.

Lemma lossy_fresh k :
  k ∈ MakeKeys (length ["x"; "y"]) → lossy_own k ∧ ck_key (own := lossy_own) lossy_start k = None.
Proof.
  change (length ["x"; "y"]) with 2%nat. rewrite lossy_keys. intros Hk.
  assert (k = "k0" ∨ k = "k1") as [ -> | -> ] by set_solver; by split.
Qed.

Lemma SpreadPutsSize_passes_witness :
  ∃ s', SpreadPutsSize (λ w : SrvWorld lossy, Z.of_nat (sw_next w)) ["x"; "y"]
          (mkKvTestState (Some (mkOpLog [])) 0, lossy_start) = Returned ((["k0"; "k1"], ["x"; "y"]), s') ∧
        key_state (sw_kv s'.2) "k1" = Some ("y", 1).
Proof.
  pose proof (SpreadPutsSize_passes lossy_own (λ w : SrvWorld lossy, Z.of_nat (sw_next w))
    ["x"; "y"] (mkKvTestState (Some (mkOpLog [])) 0) lossy_start lossy_stay_out lossy_fresh) as H.
  unfold safe in H. destruct (SpreadPutsSize _ _ _) as [[r [ts w']]| |].
  - destruct H as [-> H]. exists (ts, w'). change (length ["x"; "y"]) with 2%nat in *.
    rewrite lossy_keys in *. split; [done|].
    apply (Forall2_lookup_lr _ _ _ 1%nat "k1" "y") in H; [exact H|reflexivity..].
  - destruct H.
  - destruct (H lossy_returns).
Defined.

(** A client of two random keys of a server with a value. *)
Definition json_start : SrvWorld lossy :=
  mkSrvWorld (mkKVServer {[ "b" := mkValueVersion (to_bits (mkEntryV 7 0)) 1 ]}) 0.

Lemma json_keys :
  Forall lossy_own ["a"; "b"] ∧ NoDup ["a"; "b"] ∧
  Forall (λ k, json_key of_bits (ck_key (own := lossy_own) json_start k) ∧
    0 <= keyVersion (ck_key (own := lossy_own) json_start k) ∧
    keyVersion (ck_key (own := lossy_own) json_start k) + len [4; 7; 1] < 2 ^ 64) ["a"; "b"].
Proof.
  split_and!; repeat constructor; try discriminate; try set_solver.
  intros v ver [= <- <-]. exists (mkEntryV 7 0). apply of_to_bits.
Qed.

Lemma OneClientPut_alone_witness :
  ∃ res s', OneClientPut (λ w : SrvWorld lossy, Z.of_nat (sw_next w)) (Some ∘ to_bits) of_bits 2 true 3
              ["a"; "b"] [4; 7; 1] (mkKvTestState (Some (mkOpLog [])) 0, json_start) = Returned (res, s') ∧
    Nok res + Nmaybe res = 3 ∧ version (sw_kv s'.2) "a" + version (sw_kv s'.2) "b" <= 1 + 3.
Proof.
  destruct json_keys as (Hown & Hnd & Hb).
  pose proof (OneClientPut_alone lossy_own (λ w : SrvWorld lossy, Z.of_nat (sw_next w)) (Some ∘ to_bits) of_bits
    (λ e, ex_intro _ (to_bits e) (conj eq_refl (of_to_bits e)))
    0 true 3 ["a"; "b"] [4; 7; 1] (mkKvTestState (Some (mkOpLog [])) 0) json_start lossy_stay_out
    Hown Hnd ltac:(discriminate) Hb) as H.
  unfold safe in H.
  destruct (OneClientPut _ _ _ _ _ _ _ _ _) as [[res [ts w']]| |].
  - exists res, (ts, w'). split; [done|]. destruct H as [H1 H2].
    split; [done|].
    assert (versions lossy_own json_start ["a"; "b"] = 1) as H3 by (vm_compute; reflexivity).
    rewrite H3 in H2. cbn [versions foldr] in H2. unfold versions in H2. cbn [foldr ck_key Clerk_exclusive] in H2.
    rewrite !key_state_version in H2. simpl in H1 |- *. lia.
  - destruct H.
  - destruct (H lossy_returns).
Defined.
