(* ===== verification/KvAppend.v ===== *)
(** * Clients that append to one key

    Models [OneClientAppend] and [CheckAppends] of
    src/6.5840/src/kvtest1/kvtest.go: any number of clients that append entries to
    a list under one key with a Get and a conditional Put, run against the server
    of kvsrv1 over a network that loses requests and replies, and the check of
    the list that they leave behind. *)

From S2P Require Import Prelude KVRpc KVSrv KvTest.

(** [entry]; [EntryN] has the same fields. *)
Record entry := mkEntry { e_Id : Z; e_N : Z }.

#[export] Instance entry_eq_dec : EqDecision entry.
Proof. solve_decision. Defined.

(** ** The check *)

(** [m[i]] of a [map[int]int]. *)
Definition at_ (m : gmap Z Z) (i : Z) : Z := default 0 (m !! i).

(** The zeros that both maps start with. *)
Definition zeros (nclnt : nat) : gmap Z Z := foldl (λ m i, <[Z.of_nat i := 0]> m) ∅ (seq 0 nclnt).

(** The loop over the entries; [None] is [Fatalf]. *)
Fixpoint scanAppends (es : list entry) (expect skipped : gmap Z Z) : option (gmap Z Z * gmap Z Z) :=
  match es with
  | [] => Some (expect, skipped)
  | e :: es =>
      if e_N e <? at_ expect (e_Id e) then None
      else if at_ expect (e_Id e) =? e_N e then
        scanAppends es (<[e_Id e := at_ expect (e_Id e) + 1]> expect) skipped
      else
        let s := e_N e - at_ expect (e_Id e) in
        scanAppends es (<[e_Id e := e_N e + 1]> expect) (<[e_Id e := at_ skipped (e_Id e) + s]> skipped)
  end.

(** The loop over [expect]: whether it ends without [Fatalf]; [None] is an index
    out of range. *)
Fixpoint checkCounts (l : list (Z * Z)) (skipped : gmap Z Z) (rs : list ClntRes) : option bool :=
  match l with
  | [] => Some true
  | (c, n) :: l =>
      r ← (if c <? 0 then None else rs !! Z.to_nat c);
      if Nmaybe r <? at_ skipped c then Some false
      else if Nok r + Nmaybe r <? n then Some false
      else checkCounts l skipped rs
  end.

(** [int(ver)]. *)
Definition int_of (ver : Tversion) : Z := (ver + 2 ^ 63) mod 2 ^ 64 - 2 ^ 63.

(** [order] is the order in which [range] goes through the map. *)
Definition CheckAppends (order : gmap Z Z → list (Z * Z)) (es : list entry) (nclnt : nat)
    (rs : list ClntRes) (ver : Tversion) : option bool :=
  match scanAppends es (zeros nclnt) (zeros nclnt) with
  | None => Some false
  | Some (expect, skipped) =>
      if negb (len es + 1 =? int_of ver) then Some false else checkCounts (order expect) skipped rs
  end.

(** ** The clients *)

Section Append.
Context (k : string).
(** [json.Marshal] and [json.Unmarshal]. *)
Context (marshal : list entry → string) (unmarshal : string → option (list entry)).

(** At the select; before [GetJson]; inside [PutJson], with the clerk's variable
    [first]; returned; in [Fatalf]. *)
Inductive AppPC :=
| ANext
| ARead
| APut (es : list entry) (ver : Tversion) (first : bool)
| ADone
| AFatal.

Record AppClient := mkAppClient { a_pc : AppPC; a_i : Z; a_nok : Z; a_nmay : Z }.

Record AppSys := mkAppSys { as_kv : KVServer; as_clients : list AppClient }.

Definition goto (p : AppPC) (c : AppClient) : AppClient := mkAppClient p (a_i c) (a_nok c) (a_nmay c).

(** [GetJson] and the append. *)
Definition after_read (me : nat) (r : GetReply) (c : AppClient) : AppClient :=
  if decide (gr_Err r = OK) then
    match unmarshal (gr_Value r) with
    | None => goto AFatal c
    | Some es => goto (APut (es ++ [mkEntry (Z.of_nat me) (a_i c)]) (gr_Version r) true) c
    end
  else goto AFatal c.

(** After [PutJson]: the next [i], or another try. *)
Definition after_append (err : Err) (c : AppClient) : AppClient :=
  if decide (err = OK) then mkAppClient ANext (a_i c + 1) (a_nok c + 1) (a_nmay c)
  else if decide (err = ErrMaybe) then mkAppClient ANext (a_i c + 1) (a_nok c) (a_nmay c + 1)
  else goto ARead c.

Definition entries_args (es : list entry) (ver : Tversion) : PutArgs := mkPutArgs k (marshal es) ver.

(** One attempt of the clerk's Put: what the server makes of it, and the result
    if the loop ends. *)
Inductive attempt (args : PutArgs) (first : bool) (kv : KVServer) : KVServer → option Err → Prop :=
| at_request_lost : attempt args first kv kv None
| at_reply_lost kv' r : KVServer_Put args kv = (kv', r) → attempt args first kv kv' None
| at_delivered kv' r :
    KVServer_Put args kv = (kv', r) → attempt args first kv kv' (Some (putResult first (pr_Err r))).

(** The client after an attempt. *)
Definition attempted (es : list entry) (ver : Tversion) (res : option Err) (c : AppClient) : AppClient :=
  match res with
  | None => goto (APut es ver false) c
  | Some err => after_append err c
  end.

Inductive append_step (s : AppSys) : AppSys → Prop :=
| x_done i c : as_clients s !! i = Some c → a_pc c = ANext →
    append_step s (mkAppSys (as_kv s) (<[i := goto ADone c]> (as_clients s)))
| x_begin i c : as_clients s !! i = Some c → a_pc c = ANext →
    append_step s (mkAppSys (as_kv s) (<[i := goto ARead c]> (as_clients s)))
| x_read i c : as_clients s !! i = Some c → a_pc c = ARead →
    append_step s (mkAppSys (as_kv s)
      (<[i := after_read i (KVServer_Get (mkGetArgs k) (as_kv s)) c]> (as_clients s)))
| x_put i c es ver first kv' res : as_clients s !! i = Some c → a_pc c = APut es ver first →
    attempt (entries_args es ver) first (as_kv s) kv' res →
    append_step s (mkAppSys kv' (<[i := attempted es ver res c]> (as_clients s))).

(** The test has put the empty list. *)
Definition append_init (n : nat) : AppSys :=
  mkAppSys (mkKVServer {[ k := mkValueVersion (marshal []) 1 ]}) (replicate n (mkAppClient ANext 0 0 0)).

(** What [OneClientAppend] returns. *)
Definition append_res (c : AppClient) : ClntRes := mkClntRes (a_nok c) (a_nmay c).

(** ** The invariant *)

(** The entries of a client, and the number that [CheckAppends] expects next. *)
Definition mine (j : nat) (es : list entry) : list Z :=
  e_N <$> filter (λ e, e_Id e = Z.of_nat j) es.

Definition next (ns : list Z) : Z := from_option (λ n, n + 1) 0 (list.last ns).

(** The entries of a client that is at iteration [i]: increasing, below [i + hi],
    at least [nok] of them. *)
Definition written (hi : Z) (c : AppClient) (ns : list Z) : Prop :=
  StronglySorted Z.lt ns ∧ Forall (λ n, 0 <= n < a_i c + hi) ns ∧ a_nok c <= len ns.

(** A client, when the key holds [es] at version [len es + 1]. *)
Definition app_pc_inv (j : nat) (es : list entry) (c : AppClient) (p : AppPC) : Prop :=
  match p with
  | ANext | ARead | ADone => written 0 c (mine j es)
  | APut es' ver first =>
      0 <= ver <= len es + 1 ∧ written 1 c (mine j es) ∧
      (first = true ∨ ver = len es + 1 → written 0 c (mine j es)) ∧
      (ver = len es + 1 → es' = es ++ [mkEntry (Z.of_nat j) (a_i c)])
  | AFatal => False
  end.

Definition app_client_inv (es : list entry) (j : nat) (c : AppClient) : Prop :=
  a_i c = a_nok c + a_nmay c ∧ 0 <= a_i c ∧ app_pc_inv j es c (a_pc c).

Record append_inv (m : nat) (s : AppSys) (es : list entry) : Prop := mkAppendInv {
  ai_value : store (as_kv s) !! k = Some (mkValueVersion (marshal es) (len es + 1));
  ai_length : len es <= Z.of_nat m;
  ai_ids : Forall (λ e, 0 <= e_Id e < len (as_clients s)) es;
  ai_clients : ∀ j c, as_clients s !! j = Some c → app_client_inv es j c
}.

Lemma mine_app j es e :
  mine j (es ++ [e]) = mine j es ++ (if decide (e_Id e = Z.of_nat j) then [e_N e] else []).
Proof.
  unfold mine. rewrite list.filter_app, fmap_app. f_equal. case_decide.
  - by rewrite filter_cons_True.
  - by rewrite filter_cons_False.
Qed.

Lemma sorted_snoc ns i : StronglySorted Z.lt ns → Forall (λ n, 0 <= n < i) ns → StronglySorted Z.lt (ns ++ [i]).
Proof.
  induction ns as [|n ns IH]; intros Hs Hf; simpl; [by repeat constructor|].
  apply StronglySorted_inv in Hs as [Hs Hn]. apply Forall_cons_1 in Hf as [[_ Hi] Hf].
  constructor; [by apply IH|]. apply Forall_app. split; [done|by repeat constructor].
Qed.

(** The append of a client. *)
Lemma written_append j c es :
  0 <= a_i c → written 0 c (mine j es) →
  let es' := es ++ [mkEntry (Z.of_nat j) (a_i c)] in
  written 1 c (mine j es') ∧ a_nok c + 1 <= len (mine j es').
Proof.
  intros H0 (H1 & H2 & H3). simpl. rewrite mine_app. simpl. rewrite decide_True by done.
  rewrite Z.add_0_r in H2. unfold written. rewrite !length_app. simpl. split_and!.
  - by apply sorted_snoc.
  - apply Forall_app. split; [|repeat constructor; lia].
    eapply list.Forall_impl; [exact H2|]. intros n ?. simpl in *. lia.
  - lia.
  - lia.
Qed.

Lemma written_weaken c ns : written 0 c ns → written 1 c ns.
Proof.
  intros (H1 & H2 & H3). split_and!; [done| |done]. eapply list.Forall_impl; [exact H2|]. intros n ?. simpl in *. lia.
Qed.

(** The next iteration of a client. *)
Lemma written_next c ns nok nmay :
  written 1 c ns → nok <= len ns → written 0 (mkAppClient ANext (a_i c + 1) nok nmay) ns.
Proof.
  intros (H1 & H2 & H3) Hn. split_and!; [done| |done]. eapply list.Forall_impl; [exact H2|].
  intros n ?. simpl in *. lia.
Qed.

(** The append of client [j] and another client. *)
Lemma other_append es j l i c :
  j ≠ l → app_client_inv es l c → app_client_inv (es ++ [mkEntry (Z.of_nat j) i]) l c.
Proof.
  intros Hne (H1 & H2 & H3). split; [done|]. split; [done|].
  assert (mine l (es ++ [mkEntry (Z.of_nat j) i]) = mine l es) as Hm.
  { rewrite mine_app. simpl. rewrite decide_False by lia. apply app_nil_r. }
  unfold app_pc_inv in *. destruct (a_pc c) as [| |es' ver first| |]; rewrite ?Hm, ?length_app; try done.
  destruct H3 as (H4 & H5 & H6 & H7). simpl. split_and!; [lia|lia|done| |lia].
  intros [Hf|Hv]; [apply H6; by left|lia].
Qed.

(** One client moves, the key stays. *)
Lemma append_inv_jump m s es j c c' :
  append_inv m s es → as_clients s !! j = Some c → app_client_inv es j c' →
  append_inv (S m) (mkAppSys (as_kv s) (<[j := c']> (as_clients s))) es.
Proof.
  intros [H1 H2 H3 H4] Hj Hc'. constructor; simpl; [done|lia|by rewrite length_insert|].
  intros l c0 Hl. destruct (decide (j = l)) as [<-|Hne].
  - rewrite list_lookup_insert_eq in Hl by (by eapply lookup_lt_Some). by injection Hl as <-.
  - rewrite list_lookup_insert_ne in Hl by done. by apply H4.
Qed.

(** One client appends. *)
Lemma append_inv_append m s es j c c' kv' :
  append_inv m s es → as_clients s !! j = Some c →
  let es' := es ++ [mkEntry (Z.of_nat j) (a_i c)] in
  store kv' !! k = Some (mkValueVersion (marshal es') (len es' + 1)) →
  app_client_inv es' j c' →
  append_inv (S m) (mkAppSys kv' (<[j := c']> (as_clients s))) es'.
Proof.
  intros [H1 H2 H3 H4] Hj es' Hk Hc'. subst es'. constructor; simpl.
  - done.
  - rewrite length_app. simpl. lia.
  - rewrite length_insert. apply Forall_app. split; [done|]. repeat constructor; simpl; [lia|].
    apply lookup_lt_Some in Hj. lia.
  - intros l c0 Hl. destruct (decide (j = l)) as [<-|Hne].
    + rewrite list_lookup_insert_eq in Hl by (by eapply lookup_lt_Some). by injection Hl as <-.
    + rewrite list_lookup_insert_ne in Hl by done. by apply other_append, H4.
Qed.

(** A Put of a client at a version that is not ahead. *)
Lemma append_put kv es es' ver kv' r :
  store kv !! k = Some (mkValueVersion (marshal es) (len es + 1)) → len es + 2 < 2 ^ 64 → 0 <= ver <= len es + 1 →
  KVServer_Put (entries_args es' ver) kv = (kv', r) →
  (ver = len es + 1 ∧ pr_Err r = OK ∧
   store kv' !! k = Some (mkValueVersion (marshal es') (len es + 2))) ∨
  (ver < len es + 1 ∧ pr_Err r = ErrVersion ∧ kv' = kv).
Proof.
  intros Hk Hb Hv. unfold KVServer_Put. simpl. rewrite Hk. simpl.
  destruct (len es + 1 =? ver) eqn:He; simpl; intros [= <- <-]; bool_to_prop.
  - left. split_and!; [done|done|]. simpl. rewrite lookup_insert_eq.
    rewrite u64_small by (unfold is_u64; lia). by replace (len es + 1 + 1) with (len es + 2) by lia.
  - right. split_and!; [lia|done|done].
Qed.

(** The client after the attempt that appended, or that did not. *)
Lemma attempted_appended j es c first res :
  app_client_inv es j c → a_pc c = APut (es ++ [mkEntry (Z.of_nat j) (a_i c)]) (len es + 1) first →
  res = None ∨ res = Some OK →
  let es' := es ++ [mkEntry (Z.of_nat j) (a_i c)] in
  app_client_inv es' j (attempted es' (len es + 1) res c).
Proof.
  intros (H1 & H2 & H3) Hpc Hres es'. rewrite Hpc in H3. destruct H3 as (_ & _ & H5 & _).
  pose proof (written_append j c es H2 (H5 (or_intror eq_refl))) as [Hw Hn]. fold es' in Hw, Hn.
  assert (len es' = len es + 1) as Hl by (subst es'; rewrite length_app; simpl; lia).
  destruct Hres as [ -> | -> ]; simpl.
  - split; [done|]. split; [done|]. simpl. split_and!; [lia|lia|done| |lia].
    intros [?|?]; [done|lia].
  - unfold after_append. simpl. split; [simpl; lia|]. split; [simpl; lia|]. simpl. by apply written_next.
Qed.

Lemma attempted_idle j es c es' ver first res :
  app_client_inv es j c → a_pc c = APut es' ver first →
  res = None ∨ (ver < len es + 1 ∧ res = Some (putResult first ErrVersion)) →
  app_client_inv es j (attempted es' ver res c).
Proof.
  intros (H1 & H2 & H3) Hpc Hres. rewrite Hpc in H3. destruct H3 as (H4 & H5 & H6 & H7).
  destruct Hres as [ -> |[Hlt -> ]]; simpl.
  - split; [done|]. split; [done|]. simpl. split_and!; [lia|lia|done| |done].
    intros [?|?]; [done|by apply H6; right].
  - destruct first; unfold after_append; simpl.
    + split; [done|]. split; [done|]. simpl. apply H6. by left.
    + split; [simpl; lia|]. split; [simpl; lia|]. simpl. apply written_next; [done|apply H5].
Qed.

Context (unmarshal_marshal : ∀ es, unmarshal (marshal es) = Some es).

Lemma append_inv_step m s es s' :
  append_inv m s es → append_step s s' → Z.of_nat m + 2 < 2 ^ 64 → ∃ es', append_inv (S m) s' es'.
Proof.
  intros Hinv Hstep Hm. pose proof Hinv as [Hk Hlen _ Hcs].
  destruct Hstep as [j c Hj Hpc|j c Hj Hpc|j c Hj Hpc|j c es1 ver first kv' res Hj Hpc Hat];
    pose proof (Hcs j c Hj) as Hc; pose proof Hc as (H1 & H2 & H3); rewrite Hpc in H3.
  - exists es. by eapply append_inv_jump.
  - exists es. by eapply append_inv_jump.
  - exists es. eapply append_inv_jump; [done|done|]. unfold after_read, KVServer_Get. simpl. rewrite Hk. simpl.
    rewrite unmarshal_marshal. split; [done|]. split; [done|]. simpl.
    split_and!; [lia|lia|by apply written_weaken|done|done].
  - destruct H3 as (Hv & _ & _ & Hes).
    destruct Hat as [|kv' r Hput|kv' r Hput].
    + exists es. eapply append_inv_jump; [done|done|]. eapply attempted_idle; [done..|by left].
    + destruct (append_put _ _ _ _ _ _ Hk ltac:(lia) Hv Hput) as [(-> & _ & Hk')|(Hlt & _ & ->)].
      * specialize (Hes eq_refl). subst es1. eexists. eapply append_inv_append; [done|done| |].
        { rewrite Hk', length_app. simpl. by replace (Z.of_nat (length es + 1) + 1) with (len es + 2) by lia. }
        eapply attempted_appended; [done..|by left].
      * exists es. eapply append_inv_jump; [done|done|]. eapply attempted_idle; [done..|by left].
    + destruct (append_put _ _ _ _ _ _ Hk ltac:(lia) Hv Hput) as [(-> & Herr & Hk')|(Hlt & Herr & ->)]; rewrite Herr.
      * specialize (Hes eq_refl). subst es1. eexists. eapply append_inv_append; [done|done| |].
        { rewrite Hk', length_app. simpl. by replace (Z.of_nat (length es + 1) + 1) with (len es + 2) by lia. }
        eapply attempted_appended; [done..|]. right. by destruct first.
      * exists es. eapply append_inv_jump; [done|done|]. eapply attempted_idle; [done..|by right].
Qed.

Lemma append_inv_run n m : ∀ s,
  nsteps append_step m (append_init n) s → Z.of_nat m + 1 < 2 ^ 64 → ∃ es, append_inv m s es.
Proof.
  induction m as [|m IH]; intros s Hs Hm.
  - inversion Hs; subst. exists []. constructor; simpl; [by rewrite lookup_singleton_eq|lia|constructor|].
    intros j c Hc. apply lookup_replicate in Hc as [-> _]. split; [done|]. split; [done|].
    simpl. split_and!; [constructor|constructor|simpl; lia].
  - apply nsteps_inv_r in Hs as (s1 & Hs & Hlast). destruct (IH s1 Hs ltac:(lia)) as [es Hes].
    eapply append_inv_step; [done|done|lia].
Qed.

(** ** What the check computes *)

(** The maps after the entries [es]. *)
Definition scanned (es : list entry) (expect skipped : gmap Z Z) : Prop :=
  ∀ j : nat, at_ expect (Z.of_nat j) = next (mine j es) ∧
             at_ skipped (Z.of_nat j) = next (mine j es) - len (mine j es).

Lemma at_insert m i v j : at_ (<[i := v]> m) j = if decide (i = j) then v else at_ m j.
Proof.
  unfold at_. case_decide as H; [subst; by rewrite lookup_insert_eq|by rewrite lookup_insert_ne].
Qed.

Lemma next_snoc ns i : next (ns ++ [i]) = i + 1.
Proof. unfold next. by rewrite last_snoc. Qed.

Lemma next_le ns i : StronglySorted Z.lt (ns ++ [i]) → Forall (λ n, 0 <= n) (ns ++ [i]) → next ns <= i.
Proof.
  intros Hs Hf. unfold next. destruct (list.last ns) as [n|] eqn:Hl; simpl.
  - apply last_Some in Hl as [ns' ->]. clear Hf.
    induction ns' as [|x ns' IH]; simpl in *.
    + apply StronglySorted_inv in Hs as [_ Hs]. by apply Forall_cons_1 in Hs as [? _]; lia.
    + apply StronglySorted_inv in Hs as [Hs _]. by apply IH.
  - apply Forall_app in Hf as [_ Hf]. by apply Forall_cons_1 in Hf as [? _].
Qed.

(** The domains do not lose keys and gain only those of the entries. *)
Definition keys_below (n : nat) (m : gmap Z Z) : Prop := ∀ c v, m !! c = Some v → 0 <= c < Z.of_nat n.

Lemma scanAppends_ok n es : ∀ pre expect skipped,
  scanned pre expect skipped → keys_below n expect →
  Forall (λ e, 0 <= e_Id e < Z.of_nat n) es →
  (∀ j : nat, StronglySorted Z.lt (mine j (pre ++ es)) ∧ Forall (λ n, 0 <= n) (mine j (pre ++ es))) →
  ∃ expect' skipped', scanAppends es expect skipped = Some (expect', skipped') ∧
    scanned (pre ++ es) expect' skipped' ∧ keys_below n expect'.
Proof.
  induction es as [|e es IH]; intros pre expect skipped Hsc Hkb Hids Hs.
  { exists expect, skipped. by rewrite app_nil_r. }
  apply Forall_cons_1 in Hids as [Hid Hids]. replace (pre ++ e :: es) with ((pre ++ [e]) ++ es) in * by (by rewrite <-app_assoc).
  pose proof (Hs (Z.to_nat (e_Id e))) as [Hs1 Hs2].
  assert (Z.of_nat (Z.to_nat (e_Id e)) = e_Id e) as Hj by lia.
  assert (mine (Z.to_nat (e_Id e)) (pre ++ [e]) = mine (Z.to_nat (e_Id e)) pre ++ [e_N e]) as Hm.
  { rewrite mine_app. by rewrite decide_True by lia. }
  unfold mine in Hs1, Hs2. rewrite list.filter_app, fmap_app in Hs1, Hs2. fold (mine (Z.to_nat (e_Id e)) (pre ++ [e])) in Hs1, Hs2.
  assert (next (mine (Z.to_nat (e_Id e)) pre) <= e_N e) as Hle.
  { rewrite Hm in Hs1, Hs2. apply next_le.
    - clear -Hs1. generalize dependent (mine (Z.to_nat (e_Id e)) pre ++ [e_N e]). intros l Hl.
      induction l as [|x l IHl]; [constructor|]. simpl in Hl. apply StronglySorted_inv in Hl as [Hl Hx].
      apply Forall_app in Hx as [Hx _]. constructor; [by apply IHl|done].
    - by apply Forall_app in Hs2 as [Hs2 _]. }
  destruct (Hsc (Z.to_nat (e_Id e))) as [He Hsk]. rewrite Hj in He, Hsk.
  assert (∀ v, keys_below n (<[e_Id e := v]> expect)) as Hkb'.
  { intros v c w. destruct (decide (e_Id e = c)) as [<-|?]; [done|]. rewrite lookup_insert_ne by done. apply Hkb. }
  simpl. rewrite (proj2 (Z.ltb_ge _ _)) by lia.
  destruct (at_ expect (e_Id e) =? e_N e) eqn:Heq; bool_to_prop; (apply IH; [|by apply Hkb'|done|done]);
    intros j; rewrite !at_insert, mine_app; (destruct (decide (e_Id e = Z.of_nat j)) as [Hjj|Hjj];
      [|rewrite app_nil_r; by apply Hsc]); rewrite next_snoc, length_app; simpl;
    replace (Z.to_nat (e_Id e)) with j in * by lia; rewrite <-?Hjj; lia.
Qed.

Lemma zeros_at n c : at_ (zeros n) c = 0.
Proof.
  unfold zeros. assert (∀ l m, at_ m c = 0 → at_ (foldl (λ m i, <[Z.of_nat i := 0]> m) m l) c = 0) as H.
  { induction l as [|i l IH]; intros m Hm; [done|]. simpl. apply IH. rewrite at_insert. by case_decide. }
  by apply H.
Qed.

Lemma zeros_below n : keys_below n (zeros n).
Proof.
  unfold zeros. assert (∀ l m, keys_below n m → (∀ i, i ∈ l → (i < n)%nat) →
    keys_below n (foldl (λ m i, <[Z.of_nat i := 0]> m) m l)) as H.
  { induction l as [|i l IH]; intros m Hm Hl; [done|]. simpl. apply IH; [|intros; apply Hl; by right].
    intros c v. destruct (decide (Z.of_nat i = c)) as [<-|?].
    - intros _. pose proof (Hl i (list_elem_of_here _ _)). lia.
    - rewrite lookup_insert_ne by done. apply Hm. }
  apply H; [by intros c v|]. intros i Hi%elem_of_seq. lia.
Qed.

Lemma checkCounts_ok l skipped rs :
  Forall (λ p, 0 <= p.1 ∧ ∃ r, rs !! Z.to_nat p.1 = Some r ∧
    at_ skipped p.1 <= Nmaybe r ∧ p.2 <= Nok r + Nmaybe r) l →
  checkCounts l skipped rs = Some true.
Proof.
  induction 1 as [|[c n] l (H0 & r & Hr & H1 & H2) _ IH]; [done|]. simpl in *.
  rewrite (proj2 (Z.ltb_ge c 0)) by lia. rewrite Hr. simpl.
  rewrite (proj2 (Z.ltb_ge _ _)) by lia. by rewrite (proj2 (Z.ltb_ge _ _)) by lia.
Qed.

(** A client that has returned left no more gaps than it counts as maybe. *)
Lemma next_written c ns :
  a_i c = a_nok c + a_nmay c → 0 <= a_i c → written 0 c ns →
  next ns - len ns <= a_nmay c ∧ next ns <= a_nok c + a_nmay c.
Proof.
  intros Hi H0 (Hs & Hf & Hn). assert (next ns <= a_i c) as Hle; [|lia].
  unfold next. destruct (list.last ns) as [i|] eqn:Hl; simpl; [|lia].
  apply last_Some in Hl as [ns' ->]. apply Forall_app in Hf as [_ Hf].
  apply Forall_cons_1 in Hf as [? _]. lia.
Qed.

Lemma append_step_length s s' : append_step s s' → length (as_clients s') = length (as_clients s).
Proof. intros Hs. destruct Hs; simpl; apply length_insert. Qed.

Lemma append_run_length n m : ∀ s, nsteps append_step m (append_init n) s → length (as_clients s) = n.
Proof.
  induction m as [|m IH]; intros s Hs.
  - inversion Hs; subst. apply length_replicate.
  - apply nsteps_inv_r in Hs as (s1 & Hs & Hlast). rewrite (append_step_length _ _ Hlast). by apply IH.
Qed.

Lemma mine_none n j es : Forall (λ e, 0 <= e_Id e < Z.of_nat n) es → (n <= j)%nat → mine j es = [].
Proof.
  intros He Hj. unfold mine. induction He as [|e es He _ IH]; [done|].
  rewrite filter_cons_False by lia. done.
Qed.

Lemma mine_sorted m s es j :
  append_inv m s es → StronglySorted Z.lt (mine j es) ∧ Forall (λ n, 0 <= n) (mine j es).
Proof.
  intros [_ _ Hids Hcs]. destruct (as_clients s !! j) as [c|] eqn:Hc.
  - destruct (Hcs j c Hc) as (_ & _ & Hp).
    assert (∃ hi, written hi c (mine j es)) as (hi & H1 & H2 & _).
    { destruct (a_pc c); simpl in Hp; [by eexists..| |by eexists|done]. exists 1. apply Hp. }
    split; [done|]. eapply list.Forall_impl; [exact H2|]. simpl. lia.
  - apply lookup_ge_None in Hc. erewrite mine_none by done. by repeat constructor.
Qed.

(** C27. The clients of OneClientAppend and the check at the end, against the server
    of kvsrv1 and a network that loses requests and replies: in fewer than 2^62
    steps no client calls Fatalf; the key holds a list of entries at a version
    that is one more than its length, in which the entries of every client have
    increasing numbers; and once all clients have returned, CheckAppends accepts
    the list with the counts that they returned. *)
Theorem append_clients_checked order n m s :
  nsteps append_step m (append_init n) s → Z.of_nat m < 2 ^ 62 →
  (∀ mp, order mp ≡ₚ map_to_list mp) →
  ∃ es, store (as_kv s) !! k = Some (mkValueVersion (marshal es) (len es + 1)) ∧
    Forall (λ c, a_pc c ≠ AFatal) (as_clients s) ∧
    (∀ j, StronglySorted Z.lt (mine j es)) ∧
    (Forall (λ c, a_pc c = ADone) (as_clients s) →
     CheckAppends order es n (append_res <$> as_clients s) (len es + 1) = Some true).
Proof.
  intros Hs Hm Horder. pose proof (append_run_length _ _ _ Hs) as Hn.
  destruct (append_inv_run n m s Hs ltac:(lia)) as [es Hinv].
  pose proof Hinv as [Hk Hl Hids Hcs]. exists es. split_and!; [done| | |].
  - apply Forall_lookup. intros j c Hj He. destruct (Hcs j c Hj) as (_ & _ & Hp). by rewrite He in Hp.
  - intros j. by eapply mine_sorted.
  - intros Hdone. rewrite Hn in Hids. unfold CheckAppends.
    destruct (scanAppends_ok n es [] (zeros n) (zeros n)) as (expect & skipped & -> & Hsc & Hkb).
    { intros j. by rewrite !zeros_at. }
    { apply zeros_below. }
    { done. }
    { intros j. by eapply mine_sorted. }
    unfold int_of. rewrite Z.mod_small by lia.
    rewrite (proj2 (Z.eqb_eq (len es + 1) (len es + 1 + 2 ^ 63 - 2 ^ 63))) by lia. simpl.
    apply checkCounts_ok, list.Forall_forall. intros [c v] Hc.
    rewrite Horder in Hc. apply elem_of_map_to_list in Hc. pose proof (Hkb _ _ Hc) as Hr. simpl.
    split; [lia|]. destruct (lookup_lt_is_Some_2 (as_clients s) (Z.to_nat c)) as [cl Hcl]; [lia|].
    exists (append_res cl). rewrite list_lookup_fmap, Hcl. split; [done|].
    destruct (Hcs _ _ Hcl) as (H1 & H2 & H3).
    rewrite (proj1 (Forall_lookup _ _) Hdone _ _ Hcl) in H3.
    destruct (next_written cl _ H1 H2 H3) as [H4 H5].
    destruct (Hsc (Z.to_nat c)) as [He Hk2]. rewrite Z2Nat.id in He, Hk2 by lia.
    assert (at_ expect c = v) as Hv by (unfold at_; by rewrite Hc). simpl. simpl in He, Hk2. lia.
Qed.

(** ** A scheduler *)

Inductive AppMove := MoveDone | MoveBegin | MoveRead | MoveLost | MoveUnheard | MovePut.

Definition append_perform (mv : nat * AppMove) (s : AppSys) : option AppSys :=
  let '(i, mv) := mv in
  c ← as_clients s !! i;
  let go := λ kv c', Some (mkAppSys kv (<[i := c']> (as_clients s))) in
  match mv, a_pc c with
  | MoveDone, ANext => go (as_kv s) (goto ADone c)
  | MoveBegin, ANext => go (as_kv s) (goto ARead c)
  | MoveRead, ARead => go (as_kv s) (after_read i (KVServer_Get (mkGetArgs k) (as_kv s)) c)
  | MoveLost, APut es ver first => go (as_kv s) (attempted es ver None c)
  | MoveUnheard, APut es ver first =>
      go (KVServer_Put (entries_args es ver) (as_kv s)).1 (attempted es ver None c)
  | MovePut, APut es ver first =>
      let '(kv', r) := KVServer_Put (entries_args es ver) (as_kv s) in
      go kv' (attempted es ver (Some (putResult first (pr_Err r))) c)
  | _, _ => None
  end.

Fixpoint append_run (mvs : list (nat * AppMove)) (s : AppSys) : option AppSys :=
  match mvs with
  | [] => Some s
  | mv :: mvs => s' ← append_perform mv s; append_run mvs s'
  end.

Lemma append_perform_step mv s s' : append_perform mv s = Some s' → append_step s s'.
Proof.
  destruct mv as [i mv]. unfold append_perform. intros (c & Hi & H)%bind_Some.
  destruct (a_pc c) as [| |es ver first| |] eqn:Hpc; destruct mv; try done.
  - injection H as <-. by apply x_done.
  - injection H as <-. by apply x_begin.
  - injection H as <-. by apply x_read.
  - injection H as <-. apply (x_put s i c es ver first _ None); [done..|]. constructor.
  - injection H as <-. destruct (KVServer_Put _ _) as [kv' r] eqn:Hp.
    apply (x_put s i c es ver first _ None); [done..|]. by econstructor.
  - destruct (KVServer_Put _ _) as [kv' r] eqn:Hp. injection H as <-.
    apply (x_put s i c es ver first _ (Some (putResult first (pr_Err r)))); [done..|]. by econstructor.
Qed.

Lemma append_run_steps mvs : ∀ s s', append_run mvs s = Some s' → nsteps append_step (length mvs) s s'.
Proof.
  induction mvs as [|mv mvs IH]; simpl; intros s s' H; [injection H as <-; constructor|].
  apply bind_Some in H as (s1 & H1 & H2). econstructor; [by eapply append_perform_step|by apply IH].
Qed.

End Append.

(** ** An instance: two clients, the first of which loses the reply to its Put *)

Definition entries_to_bits (es : list entry) : string :=
  pos_bits (encode (map (λ e, (e_Id e, e_N e)) es)).
Definition entries_of_bits (s : string) : option (list entry) :=
  match @decode (list (Z * Z)) _ _ (bits_pos s) with
  | Some l => Some (map (λ p, mkEntry p.1 p.2) l)
  | None => None
  end.

Lemma entries_of_to_bits es : entries_of_bits (entries_to_bits es) = Some es.
Proof.
  unfold entries_of_bits, entries_to_bits. rewrite bits_pos_bits, decode_encode. simpl. f_equal.
  induction es as [|[i n] es IH]; [done|]. simpl in *. by rewrite IH.
Qed.

Definition append_moves : list (nat * AppMove) :=
  [(0, MoveBegin); (1, MoveBegin); (0, MoveRead); (1, MoveRead); (0, MoveUnheard); (1, MovePut); (0, MovePut);
   (1, MoveRead); (1, MoveLost); (1, MovePut); (0, MoveBegin); (0, MoveRead); (0, MovePut); (0, MoveDone);
   (1, MoveDone)]%nat.

Definition append_end : option AppSys :=
  append_run "k" entries_to_bits entries_of_bits append_moves (append_init "k" entries_to_bits 2).

Example append_end_eq :
  (λ s, (version (as_kv s) "k", (λ c, (a_pc c, append_res c)) <$> as_clients s)) <$> append_end =
  Some (4, [(ADone, mkClntRes 1 1); (ADone, mkClntRes 1 0)]).
Proof. vm_compute. reflexivity. Qed.

Lemma append_clients_checked_witness :
  ∃ s es, nsteps (append_step "k" entries_to_bits entries_of_bits) 15 (append_init "k" entries_to_bits 2) s ∧
    store (as_kv s) !! "k" = Some (mkValueVersion (entries_to_bits es) (len es + 1)) ∧
    CheckAppends map_to_list es 2 (append_res <$> as_clients s) (len es + 1) = Some true.
Proof.
  destruct append_end as [s|] eqn:He; [|pose proof append_end_eq as Hx; by rewrite He in Hx].
  pose proof (append_run_steps "k" entries_to_bits entries_of_bits _ _ _ He) as Hs.
  destruct (append_clients_checked "k" entries_to_bits entries_of_bits entries_of_to_bits map_to_list 2 15 s
              Hs ltac:(lia) (λ mp, reflexivity _)) as (es & Hk & _ & _ & Hc).
  exists s, es. split; [exact Hs|]. split; [exact Hk|]. apply Hc.
  pose proof append_end_eq as Hx. rewrite He in Hx. injection Hx as _ Hx.
  destruct (as_clients s) as [|c0 [|c1 [|]]]; try discriminate Hx.
  injection Hx as H0 _ _ H1 _ _. repeat constructor; assumption.
Defined.
