(* ===== verification/KvSpawn.v ===== *)
(** * Clients that are started, stopped and collected

    Models [SpawnClientsAndWait] and [runClient] of
    src/6.5840/src/kvtest1/kvtest.go: the goroutines of the clients, the
    unbuffered channel [done] on which each of them is told to stop, and the
    channels on which they hand over their results.  What a client does until it
    is stopped is left open; it may call Fatalf, which ends its goroutine. *)

From S2P Require Import Prelude KVRpc KVSrv KvModel KvTest.

(** The goroutine of a client: in its function, which will receive from [done];
    returned from it, before the send on its channel; past that; ended by
    Fatalf. *)
Inductive CliState :=
| CliRuns
| CliReturned (v : ClntRes)
| CliCollected (v : ClntRes)
| CliFailed.

#[local] Instance ClntRes_eq_dec : EqDecision ClntRes.
Proof. solve_decision. Defined.
#[export] Instance CliState_eq_dec : EqDecision CliState.
Proof. solve_decision. Defined.

(** [sp_done]: how often [done <- struct{}{}] has been received; [sp_rs]: the part
    of [rs] that has been filled. *)
Record Spawn := mkSpawn { sp_clients : list CliState; sp_done : nat; sp_rs : list ClntRes }.

Definition spawnClients (nclnt : nat) : Spawn := mkSpawn (replicate nclnt CliRuns) 0 [].

Inductive spawn_step (s : Spawn) : Spawn → Prop :=
(* the function of a client calls Fatalf *)
| sp_fail cli :
    sp_clients s !! cli = Some CliRuns →
    spawn_step s (mkSpawn (<[cli := CliFailed]> (sp_clients s)) (sp_done s) (sp_rs s))
(* the first loop: some client receives, and its function returns *)
| sp_stop cli v :
    (sp_done s < length (sp_clients s))%nat → sp_clients s !! cli = Some CliRuns →
    spawn_step s (mkSpawn (<[cli := CliReturned v]> (sp_clients s)) (S (sp_done s)) (sp_rs s))
(* the second loop: the result of the next client *)
| sp_collect v :
    sp_done s = length (sp_clients s) →
    sp_clients s !! length (sp_rs s) = Some (CliReturned v) →
    spawn_step s (mkSpawn (<[length (sp_rs s) := CliCollected v]> (sp_clients s)) (sp_done s)
                    (sp_rs s ++ [v])).

(** [SpawnClientsAndWait] has returned. *)
Definition sp_returned (s : Spawn) : Prop := length (sp_rs s) = length (sp_clients s).

Definition spawn_reachable (nclnt : nat) : Spawn → Prop :=
  reachable (λ s, s = spawnClients nclnt) spawn_step.

Definition stopped (c : CliState) : Prop :=
  match c with CliReturned _ | CliCollected _ => True | _ => False end.

#[local] Instance stopped_dec c : Decision (stopped c).
Proof. destruct c; apply _. Defined.

Record spawn_inv (nclnt : nat) (s : Spawn) : Prop := {
  si_length : length (sp_clients s) = nclnt;
  si_done : length (filter stopped (sp_clients s)) = sp_done s;
  si_rs i v : sp_rs s !! i = Some v ↔ sp_clients s !! i = Some (CliCollected v)
}.

(** Replacing a client in the count of those that are stopped. *)
Lemma filter_insert_count (P : CliState → Prop) `{∀ c, Decision (P c)} l i c c' :
  l !! i = Some c →
  (length (filter P (<[i := c']> l)) + (if decide (P c) then 1 else 0) =
   length (filter P l) + (if decide (P c') then 1 else 0))%nat.
Proof.
  revert i. induction l as [|x l IH]; intros [|i] Hi; simpl in *; try done.
  - injection Hi as ->. rewrite !filter_cons. repeat case_decide; simpl; lia.
  - rewrite !filter_cons. specialize (IH i Hi). repeat case_decide; simpl in *; lia.
Qed.

Lemma lookup_insert_same (l : list CliState) i c c' v j :
  l !! i = Some c → (∀ v, c ≠ CliCollected v) → (∀ v, c' ≠ CliCollected v) →
  <[i := c']> l !! j = Some (CliCollected v) ↔ l !! j = Some (CliCollected v).
Proof.
  intros Hi Hc Hc'. pose proof (lookup_lt_Some _ _ _ Hi). destruct (decide (i = j)) as [->|Hne].
  - rewrite list_lookup_insert_eq by done. split; [intros [= He]; by destruct (Hc' v)|].
    rewrite Hi. intros [= He]. by destruct (Hc v).
  - by rewrite list_lookup_insert_ne.
Qed.

Lemma spawn_inv_init nclnt : spawn_inv nclnt (spawnClients nclnt).
Proof.
  split; simpl.
  - apply length_replicate.
  - induction nclnt; [done|]. simpl. by rewrite filter_cons_False by (by intros []).
  - intros i v. split; [done|]. by intros [? _]%lookup_replicate.
Qed.

Lemma spawn_inv_step nclnt s s' : spawn_inv nclnt s → spawn_step s s' → spawn_inv nclnt s'.
Proof.
  intros [Hl Hd Hr] Hs. destruct Hs as [cli Hc|cli v Hlt Hc|v Hall Hc]; split; simpl.
  - by rewrite length_insert.
  - pose proof (filter_insert_count stopped _ _ _ CliFailed Hc) as H. simpl in H. lia.
  - intros i v. rewrite Hr. symmetry. by eapply lookup_insert_same.
  - by rewrite length_insert.
  - pose proof (filter_insert_count stopped _ _ _ (CliReturned v) Hc) as H. simpl in H. lia.
  - intros i w. rewrite Hr. symmetry. by eapply lookup_insert_same.
  - by rewrite length_insert.
  - pose proof (filter_insert_count stopped _ _ _ (CliCollected v) Hc) as H. simpl in H. lia.
  - intros i w. pose proof (lookup_lt_Some _ _ _ Hc).
    destruct (decide (i = length (sp_rs s))) as [->|Hne].
    + rewrite list_lookup_insert_eq, lookup_app_r, Nat.sub_diag by lia. simpl. naive_solver.
    + rewrite list_lookup_insert_ne by done. rewrite <-Hr. destruct (decide (i < length (sp_rs s))%nat).
      * by rewrite lookup_app_l.
      * rewrite lookup_ge_None_2 by (rewrite length_app; simpl; lia).
        by rewrite lookup_ge_None_2 by lia.
Qed.

Lemma spawn_reachable_inv nclnt s : spawn_reachable nclnt s → spawn_inv nclnt s.
Proof.
  revert s. apply reachable_invariant; [intros s ->; apply spawn_inv_init|].
  intros s s' _. apply spawn_inv_step.
Qed.

(** Not all are stopped as long as one is not. *)
Lemma not_all_stopped l i c :
  l !! i = Some c → ¬ stopped c → (length (filter stopped l) < length l)%nat.
Proof.
  revert i. induction l as [|x l IH]; intros [|i] Hi Hc; simpl in *; try done.
  - injection Hi as ->. rewrite filter_cons_False by done. pose proof (length_filter stopped l). lia.
  - specialize (IH i Hi Hc). rewrite filter_cons. case_decide; simpl; lia.
Qed.

Lemma all_stopped l : Forall stopped l → length (filter stopped l) = length l.
Proof. induction 1 as [|x l Hx _ IH]; [done|]. rewrite filter_cons_True by done. simpl. by rewrite IH. Qed.

(** The steps left for the two loops. *)
Definition steps_left (s : Spawn) : nat :=
  (length (sp_clients s) - sp_done s + (length (sp_clients s) - length (sp_rs s)))%nat.

(** As long as no client calls Fatalf, SpawnClientsAndWait does not get stuck:
    whenever it has not returned it can take a step, every step of its loops
    brings it nearer to the end, and when it returns every client has been stopped
    exactly once and [rs] holds their results in their order. *)
Theorem SpawnClientsAndWait_returns nclnt s :
  spawn_reachable nclnt s → CliFailed ∉ sp_clients s →
  (sp_returned s → sp_done s = nclnt ∧
     ∀ cli, (cli < nclnt)%nat → ∃ v, sp_rs s !! cli = Some v ∧
       sp_clients s !! cli = Some (CliCollected v)) ∧
  (¬ sp_returned s → ∃ s', spawn_step s s' ∧ CliFailed ∉ sp_clients s') ∧
  (∀ s', spawn_step s s' → CliFailed ∉ sp_clients s' → (steps_left s' < steps_left s)%nat).
Proof.
  intros [Hl Hd Hr]%spawn_reachable_inv Hok.
  assert (length (sp_rs s) <= nclnt)%nat as Hrs.
  { destruct (decide (length (sp_rs s) <= nclnt)%nat) as [|Hgt]; [done|].
    destruct (lookup_lt_is_Some_2 (sp_rs s) nclnt) as [v Hv]; [lia|].
    apply Hr, lookup_lt_Some in Hv. lia. }
  split_and!.
  - unfold sp_returned. rewrite Hl. intros Hret.
    assert (∀ cli, (cli < nclnt)%nat → ∃ v, sp_rs s !! cli = Some v ∧
      sp_clients s !! cli = Some (CliCollected v)) as Hall.
    { intros cli Hcli. destruct (lookup_lt_is_Some_2 (sp_rs s) cli) as [v Hv]; [lia|].
      exists v. split; [done|]. by apply Hr. }
    split; [|done]. rewrite <-Hd, all_stopped; [done|].
    apply list.Forall_lookup. intros i c Hi. pose proof (lookup_lt_Some _ _ _ Hi).
    destruct (Hall i) as (v & _ & Hc); [lia|]. rewrite Hi in Hc. by injection Hc as ->.
  - unfold sp_returned. rewrite Hl. intros Hret.
    destruct (decide (sp_done s = nclnt)) as [He|Hne].
    + destruct (lookup_lt_is_Some_2 (sp_clients s) (length (sp_rs s))) as [c Hc]; [lia|].
      destruct c as [|v|v|].
      * pose proof (not_all_stopped _ _ _ Hc ltac:(by intros [])). lia.
      * eexists. split; [apply (sp_collect s v); [lia|done]|]. simpl.
        intros [i Hi]%list_elem_of_lookup_1. apply list_lookup_insert_Some in Hi as [(_ & [=] & _)|[_ Hi]].
        apply Hok. by eapply list_elem_of_lookup_2.
      * apply Hr, lookup_lt_Some in Hc. lia.
      * destruct Hok. by eapply list_elem_of_lookup_2.
    + assert (∃ cli, sp_clients s !! cli = Some CliRuns) as [cli Hc].
      { destruct (decide (CliRuns ∈ sp_clients s)) as [[i Hi]%list_elem_of_lookup_1|Hno]; [by exists i|].
        exfalso. apply Hne. rewrite <-Hd, all_stopped; [done|].
        apply list.Forall_forall. intros [] Hin; done. }
      eexists. split; [apply (sp_stop s cli (mkClntRes 0 0)); [|done]|].
      * rewrite <-Hd. by eapply not_all_stopped; [exact Hc|intros []].
      * simpl. intros [i Hi]%list_elem_of_lookup_1.
        apply list_lookup_insert_Some in Hi as [(_ & [=] & _)|[_ Hi]].
        apply Hok. by eapply list_elem_of_lookup_2.
  - intros s' Hs Hok'. unfold steps_left. destruct Hs as [cli Hc|cli v Hlt Hc|v Hall Hc]; simpl in *;
      rewrite length_insert.
    + destruct Hok'. apply (list_elem_of_lookup_2 _ cli), list_lookup_insert_eq. by eapply lookup_lt_Some.
    + lia.
    + apply lookup_lt_Some in Hc. rewrite length_app. simpl. lia.
Qed.

(** A client that calls Fatalf never receives from [done], so
    SpawnClientsAndWait never returns: the test hangs instead of failing. *)
Theorem SpawnClientsAndWait_hangs nclnt s s' :
  spawn_reachable nclnt s → CliFailed ∈ sp_clients s → rtc spawn_step s s' → ¬ sp_returned s'.
Proof.
  intros Hs Hf Hr.
  assert (CliFailed ∈ sp_clients s' ∧ spawn_inv nclnt s') as [Hf' Hinv'].
  { apply spawn_reachable_inv in Hs. induction Hr as [|s s1 s' Hstep _ IH]; [done|].
    apply IH; [by eapply spawn_inv_step|]. apply list_elem_of_lookup_1 in Hf as [i Hi].
    destruct Hstep as [cli Hc|cli v Hlt Hc|v Hall Hc]; simpl; apply (list_elem_of_lookup_2 _ i);
      (destruct (decide (i = cli)) as [->|Hne] || destruct (decide (i = length (sp_rs s))) as [->|Hne]);
      try congruence; by rewrite list_lookup_insert_ne. }
  apply list_elem_of_lookup_1 in Hf' as [i Hi]. destruct Hinv' as [Hl _ Hrs].
  intros Hret. unfold sp_returned in Hret. pose proof (lookup_lt_Some _ _ _ Hi).
  destruct (lookup_lt_is_Some_2 (sp_rs s') i) as [v Hv]; [lia|]. apply Hrs in Hv. congruence.
Qed.
