(* ===== verification/ShardKv.v ===== *)
(** * The sharded key/value service

    Models src/6.5840/src/shardkv1: the controller (shardctrler/shardctrler.go),
    the clerks (client.go, shardgrp/client.go) and the servers of a group
    (shardgrp/server.go) as they stand.  The repository holds the skeletons of
    these parts: their methods return zero values.  [ShardCtrler] is the interface
    through which the tests use a controller, and [SoleCtrler] what the comments
    of shardctrler.go promise of one that no other controller supersedes; the
    skeleton is an instance of the first and not of the second. *)

From S2P Require Import Prelude Gob KVRpc KVSrv ShardCfg KvModel KvTest KvClerks.

(** ** The controller *)

(** [Query] returns a pointer, nil being [None]; the world [W] holds what the
    controllers store. *)
Class ShardCtrler (W : Type) := {
  InitController : W → W;
  InitConfig : ShardConfig → W → W;
  ChangeConfigTo : ShardConfig → W → W;
  Query : W → option ShardConfig
}.

(** A controller that nobody supersedes. *)
Class SoleCtrler (W : Type) `{!ShardCtrler W} := {
  Query_Init cfg w : Query w = None → Query (InitConfig cfg w) = Some cfg;
  Query_Change cfg new w : Query w = Some cfg → Query (ChangeConfigTo new w) = Some new;
  Query_InitController cfg w : Query w = Some cfg → Query (InitController w) = Some cfg
}.

(** The skeleton. *)
Definition skeleton_InitController {W} (w : W) : W := w.
Definition skeleton_InitConfig {W} (cfg : ShardConfig) (w : W) : W := w.
Definition skeleton_ChangeConfigTo {W} (new : ShardConfig) (w : W) : W := w.
Definition skeleton_Query {W} (w : W) : option ShardConfig := None.

(** A world without a controller of its own. *)
Record Skeleton (W : Type) := mkSkeleton { sk_world : W }.
Arguments mkSkeleton {W} _.
Arguments sk_world {W} _.

#[export] Instance skeleton_ctrler W : ShardCtrler (Skeleton W) := {
  InitController := skeleton_InitController;
  InitConfig := skeleton_InitConfig;
  ChangeConfigTo := skeleton_ChangeConfigTo;
  Query := skeleton_Query
}.

(** ** The clerk of the service *)

Definition ShardClerk_Get {W} (key : string) (w : W) : string * Tversion * Err * W := ("", 0, "", w).
Definition ShardClerk_Put {W} (key value : string) (version : Tversion) (w : W) : Err * W := ("", w).

#[export] Instance skeleton_clerk W : IKVClerk (Skeleton W) := {
  ck_Get key w := Some (ShardClerk_Get key w);
  ck_Put key value version w := Some (ShardClerk_Put key value version w)
}.

(** ** A group of servers *)

Definition Tshid : Type := Z.
Definition Tnum : Type := Z.

Record FreezeShardArgs := mkFreezeShardArgs { fa_Shard : Tshid; fa_Num : Tnum }.
Record FreezeShardReply := mkFreezeShardReply { fr_State : list byte; fr_Num : Tnum; fr_Err : Err }.
Record InstallShardArgs := mkInstallShardArgs { ia_Shard : Tshid; ia_State : list byte; ia_Num : Tnum }.
Record InstallShardReply := mkInstallShardReply { ir_Err : Err }.
Record DeleteShardArgs := mkDeleteShardArgs { da_Shard : Tshid; da_Num : Tnum }.
Record DeleteShardReply := mkDeleteShardReply { dr_Err : Err }.

(** The clerk of a group. *)
Record GrpClerk := mkGrpClerk { gc_servers : list string }.

Definition GrpClerk_Get (key : string) (ck : GrpClerk) : string * Tversion * Err := ("", 0, "").
Definition GrpClerk_Put (key value : string) (version : Tversion) (ck : GrpClerk) : Err := "".
Definition GrpClerk_FreezeShard (s : Tshid) (num : Tnum) (ck : GrpClerk) : list byte * Err := ([], "").
Definition GrpClerk_InstallShard (s : Tshid) (state : list byte) (num : Tnum) (ck : GrpClerk) : Err := "".
Definition GrpClerk_DeleteShard (s : Tshid) (num : Tnum) (ck : GrpClerk) : Err := "".

(** A server; the [rsm] is that of RSM.v, driven by [ShardSrv_DoOp]. *)
Record ShardSrv := mkShardSrv { ss_me : Z; ss_dead : Z; ss_gid : Tgid }.

(** The result of [DoOp], of type [any], is nil. *)
Definition ShardSrv_DoOp {Req Res} (req : Req) (kv : ShardSrv) : ShardSrv * option Res := (kv, None).
Definition ShardSrv_Snapshot (kv : ShardSrv) : list byte := [].
Definition ShardSrv_Restore (data : list byte) (kv : ShardSrv) : ShardSrv := kv.

(** The handlers leave the server and the reply as they are. *)
Definition ShardSrv_Get (args : GetArgs) (reply : GetReply) (kv : ShardSrv) : ShardSrv * GetReply := (kv, reply).
Definition ShardSrv_Put (args : PutArgs) (reply : PutReply) (kv : ShardSrv) : ShardSrv * PutReply := (kv, reply).
Definition ShardSrv_FreezeShard (args : FreezeShardArgs) (reply : FreezeShardReply) (kv : ShardSrv) :
    ShardSrv * FreezeShardReply := (kv, reply).
Definition ShardSrv_InstallShard (args : InstallShardArgs) (reply : InstallShardReply) (kv : ShardSrv) :
    ShardSrv * InstallShardReply := (kv, reply).
Definition ShardSrv_DeleteShard (args : DeleteShardArgs) (reply : DeleteShardReply) (kv : ShardSrv) :
    ShardSrv * DeleteShardReply := (kv, reply).

Definition ShardSrv_Kill (kv : ShardSrv) : ShardSrv := mkShardSrv (ss_me kv) 1 (ss_gid kv).
Definition ShardSrv_killed (kv : ShardSrv) : bool := ss_dead kv =? 1.
Definition StartServerShardGrp (gid : Tgid) (me : Z) : ShardSrv := mkShardSrv me 0 gid.

(** ** The tests reject the skeleton *)

(** The clerk's Get returns the empty error, which is not [OK]: SpreadPuts, with
    which the tests begin, fails for any number of keys. *)
Theorem skeleton_fails_SpreadPuts W (now : Skeleton W → Z) va ts w :
  va ≠ [] → SpreadPutsSize now va (ts, w) = Fatal.
Proof.
  intros Hva. destruct va as [|v va]; [done|]. unfold SpreadPutsSize.
  pose proof (MakeKeys_length (length (v :: va))) as Hlen.
  destruct (MakeKeys (length (v :: va))) as [|k ka]; [done|].
  assert (∀ kvs s, ∃ s', spreadPuts (W := Skeleton W) kvs s = Returned (tt, s')) as Hput.
  { induction kvs as [|[k' v'] kvs IH]; intros [ts' w']; [by eexists|]. simpl. apply IH. }
  destruct (Hput (zip (k :: ka) (v :: va)) (ts, w)) as [[ts1 w1] H1].
  unfold mbind, TestM_bind. rewrite H1. reflexivity.
Qed.
