(* ===== verification/ServiceTests.v ===== *)
(** * The set-up code of the services' tests

    Models the decisions of src/6.5840/src/kvraft1/rsm/test.go (which server a
    request is submitted to, how the counters of the servers are awaited, who
    leads), how its servers (kvraft1/rsm/server.go) are made and killed, and of
    src/6.5840/src/kvraft1/test.go (the clerks of a test, its title), and the
    Partitioner of src/6.5840/src/kvtest1/kvtest.go, which splits a group at random
    again and again.  What the test reads at a moment is an argument, as in
    RaftAgree.v; the groups are those of Tester.v. *)

From stdpp Require Import pretty.
From S2P Require Import Prelude Gob KVRpc Raft LabRpc Tester TestConfig RSM KVSrv KVRaft.

(** ** Partitioner *)

(** The two parts, given the results of [rand.Int] for the servers. *)
Definition randomParts (rands : list Z) : list Z * list Z :=
  let a := (λ r, Z.rem r 2) <$> rands in
  (filter (λ j, go_nth a j = Some 0) (seqZ 0 (len a)), filter (λ j, go_nth a j = Some 1) (seqZ 0 (len a))).

(** The loop, with the random numbers of every iteration. *)
Fixpoint Partitioner (rounds : list (list Z)) (sg : ServerGrp) : option ServerGrp :=
  match rounds with
  | [] => Some sg
  | rands :: rounds =>
      let '(p0, p1) := randomParts rands in
      sg ← Partition p0 p1 sg; Partitioner rounds sg
  end.

(** kvtest.go: [ConnectClnts], the clients on the network. *)
Fixpoint ConnectClnts (clnts : list Clnt) (net : Network) : list Clnt * Network :=
  match clnts with
  | [] => ([], net)
  | c :: clnts =>
      let '(c, net) := Clnt_ConnectAll c net in
      let '(clnts, net) := ConnectClnts clnts net in (c :: clnts, net)
  end.

(** No client is kept from a server any more, and no end was made or lost. *)
Lemma ConnectClnts_all clnts : ∀ net,
  Forall (λ c, ∀ server, allowedL server c = true) (ConnectClnts clnts net).1 ∧
  clnt_ends <$> (ConnectClnts clnts net).1 = clnt_ends <$> clnts.
Proof.
  induction clnts as [|c clnts IH]; intros net; [by split|]. simpl.
  destruct (IH (enableEnds (λ _, true) true c net)) as [H1 H2].
  destruct (ConnectClnts clnts _) as [cs net']. csimpl in *. split; [by constructor|by rewrite H2].
Qed.

(** ** kvraft1/rsm/test.go: submitting a request *)

(** [p] is nil, or the servers of a partition. *)
Fixpoint inServers (s : Z) (p : list Z) : bool :=
  match p with [] => false | i :: p => if s =? i then true else inServers s p end.

Definition inPartition (s : Z) (p : option (list Z)) : bool :=
  match p with None => true | Some p => inServers s p end.

Section One.
Context {Rep : Type}.

(** What the inner loop meets at each server: whether it is connected, whether
    its [rsm] is not nil, and what [Submit] returns there. *)
Record Sweep := mkSweep { sw_connected : list bool; sw_rsm : list bool; sw_submit : list (Err * Rep) }.

(** The reply of server [i], if it is tried and accepts. *)
Definition submits_at (p : option (list Z)) (w : Sweep) (i : Z) : option (option Rep) :=
  conn ← go_nth (sw_connected w) i;
  if (conn : bool) then
    rsm ← go_nth (sw_rsm w) i;
    if (rsm : bool) && inPartition i p then
      '(err, rep) ← go_nth (sw_submit w) i;
      Some (if decide (err = OK) then Some rep else None)
    else Some None
  else Some None.

(** [for range ts.srvs], with [k] iterations to go: the reply and the server it
    came from.  The outer [None] is an index out of range. *)
Fixpoint sweep (n : Z) (k : nat) (index : Z) (p : option (list Z)) (w : Sweep) : option (option (Rep * Z)) :=
  match k with
  | O => Some None
  | S k =>
      r ← submits_at p w index;
      match r with
      | Some rep => Some (Some (rep, index))
      | None => sweep n k (Z.rem (index + 1) n) p w
      end
  end.

(** The loop of [onePartition] in a test of [n] servers: the reply, nil when it
    gives up, and the new [ts.leader]. *)
Fixpoint onePartition (n : nat) (p : option (list Z)) (sweeps : list Sweep) (leader : Z) :
    option (option Rep * Z) :=
  match sweeps with
  | [] => Some (None, leader)
  | w :: sweeps =>
      r ← sweep (Z.of_nat n) n leader p w;
      match r with
      | Some (rep, index) => Some (Some rep, index)
      | None => onePartition n p sweeps leader
      end
  end.

End One.
Arguments Sweep : clear implicits.

(** [oneInc] and [oneNull]: the type assertions on the reply; a nil reply is
    [Some None]. *)
Definition oneInc (n : nat) (sweeps : list (Sweep IncRes)) (leader : Z) : option (option Z * Z) :=
  '(rep, leader) ← onePartition n None sweeps leader;
  match rep with
  | None => Some (None, leader)
  | Some (IncRep v) => Some (Some v, leader)
  | Some NullRep => None
  end.

Definition oneNull (n : nat) (sweeps : list (Sweep IncRes)) (leader : Z) : option (option unit * Z) :=
  '(rep, leader) ← onePartition n None sweeps leader;
  match rep with
  | None => Some (None, leader)
  | Some NullRep => Some (Some tt, leader)
  | Some (IncRep _) => None
  end.

(** *** Counters *)

Definition countValue (v : Z) (srvs : list rsmSrv) : Z :=
  foldl (λ i s, if counter s =? v then i + 1 else i) 0 srvs.

(** The loop of [checkCounter]: whether it succeeds; [see] is what the servers
    are at each iteration. *)
Fixpoint checkCounter_loop (iters : nat) (v nsrv : Z) (see : nat → list rsmSrv) : bool :=
  match iters with
  | O => false
  | S iters =>
      let n := countValue v (see (30 - S iters)%nat) in
      if nsrv <=? n then true else checkCounter_loop iters v nsrv see
  end.

Definition checkCounter (v nsrv : Z) (see : nat → list rsmSrv) : bool := checkCounter_loop 30 v nsrv see.

(** *** The object of a server (kvraft1/rsm/server.go) *)

Section RsmServer.
Context `{!Gob Z} `{!GobRegistered Z}.

(** The counter, and whether the field [rsm] is set. *)
Record RsmServer := mkRsmServer { rss_srv : rsmSrv; rss_rsm : bool }.

(** [snapshot] is the one of the persister, which MakeRSM restores; [None] is
    [log.Fatalf]. *)
Definition makeRsmSrv (snapshot : list byte) : option RsmServer :=
  c ← MakeRSM snapshot (mkRsmSrv 0) (λ _, Inc) []; Some (mkRsmServer (rsm_sm c) true).

Definition rsmSrv_Kill (s : RsmServer) : RsmServer := mkRsmServer (rss_srv s) false.

(** [None] is the panic on the nil field. *)
Definition rsmSrv_Raft {cmd} (rf : Raft cmd) (s : RsmServer) : option (Raft cmd) :=
  if rss_rsm s then Some rf else None.

(** A server that is made on a snapshot has the counter that was saved in it, and
    runs until it is killed. *)
Lemma makeRsmSrv_restores {cmd} (rf : Raft cmd) n :
  ∃ s, makeRsmSrv (rsmSrv_Snapshot (mkRsmSrv n)) = Some s ∧ counter (rss_srv s) = n ∧
    rsmSrv_Raft rf s = Some rf ∧ rsmSrv_Raft rf (rsmSrv_Kill s) = None ∧
    makeRsmSrv [] = Some (mkRsmServer (mkRsmSrv 0) true).
Proof.
  unfold makeRsmSrv, MakeRSM.
  pose proof (restore_snapshot (StateMachine:=rsmSrv_StateMachine) (mkRsmSrv n) (mkRsmSrv 0)) as Hr.
  pose proof (snapshot_nonempty (StateMachine:=rsmSrv_StateMachine) (mkRsmSrv n)) as Hne.
  simpl SM_Restore in *. simpl SM_Snapshot in *. rewrite Hr.
  assert (0 <? len (rsmSrv_Snapshot (mkRsmSrv n)) = true) as -> by (by destruct (rsmSrv_Snapshot (mkRsmSrv n))).
  eexists. split; [done|]. by split_and!.
Qed.

(** *** The set-up of the rsm tests

    The servers of [ts.srvs], set by [mksrv], which MakeConfig calls for each. *)
Record RsmTest := mkRsmTest { rt_cfg : Config; rt_srvs : list (option RsmServer); rt_maxraftstate : Z }.

Definition RsmTest_mksrv (srv : Z) (snapshot : list byte) (ts : RsmTest) : option RsmTest :=
  s ← makeRsmSrv snapshot;
  srvs ← go_set (rt_srvs ts) srv (Some s);
  Some (mkRsmTest (rt_cfg ts) srvs (rt_maxraftstate ts)).

Definition RsmTest_makeTest (names : list (list string)) (xs : list (list string * nat)) (maxraftstate : Z) :
    option RsmTest :=
  cfg ← MakeConfig names xs true;
  foldl (λ ots srv, ts ← ots; RsmTest_mksrv srv [] ts)
    (Some (mkRsmTest cfg (replicate 3 None) maxraftstate)) (seqZ 0 3).

(** A test starts with three servers, whose counters are 0. *)
Lemma RsmTest_starts names xs maxraftstate cfg :
  MakeConfig names xs true = Some cfg →
  RsmTest_makeTest names xs maxraftstate =
    Some (mkRsmTest cfg (replicate 3 (Some (mkRsmServer (mkRsmSrv 0) true))) maxraftstate).
Proof. unfold RsmTest_makeTest. by intros ->. Qed.

End RsmServer.

(** *** Connections and leaders *)

Definition disconnectLeader (leader : Z) (sg : ServerGrp) : option (ServerGrp * Z) :=
  sg ← DisconnectAll leader sg; Some (sg, leader).

Definition reconnect (i : Z) (sg : ServerGrp) : option ServerGrp := ConnectOne i sg.

(** A service that the tester runs: a Raft peer, or something else. *)
Inductive IService {cmd : Type} := SRaft (rf : Raft cmd) | SOther.
Arguments IService : clear implicits.

(** The inner loop of [Leader]. *)
Fixpoint serves_leader {cmd} (ss : list (IService cmd)) : bool :=
  match ss with
  | [] => false
  | SRaft rf :: ss => let '(_, isLeader) := GetState rf in if (isLeader : bool) then true else serves_leader ss
  | SOther :: ss => serves_leader ss
  end.

(** [Leader], the services of every server of the group being given. *)
Fixpoint findLeading {cmd} (i : Z) (services : list (list (IService cmd))) : bool * Z :=
  match services with
  | [] => (false, 0)
  | ss :: services => if serves_leader ss then (true, i) else findLeading (i + 1) services
  end.

Definition GroupLeader {cmd} (services : list (list (IService cmd))) : bool * Z := findLeading 0 services.

(** ** kvraft1/test.go *)

Record KvRaftTest := mkKvRaftTest {
  t_part : string; t_nclients : Z; t_crash : bool; t_partitions : bool; t_maxraftstate : Z; t_randomkeys : bool
}.

Definition makeTitle (ts : KvRaftTest) : string :=
  let title := "Test: " in
  let title := if t_crash ts then (title ++ "restarts, ")%string else title in
  let title := if t_partitions ts then (title ++ "partitions, ")%string else title in
  let title := if negb (t_maxraftstate ts =? -1) then (title ++ "snapshots, ")%string else title in
  let title := if t_randomkeys ts then (title ++ "random keys, ")%string else title in
  let title := if 1 <? t_nclients ts then (title ++ "many clients")%string else (title ++ "one client")%string in
  (title ++ " (" ++ t_part ts ++ ")")%string.

(** [MakeClerk] and [MakeClerkTo]: a client and the clerk that uses it; [id] is
    the number of the client. *)
Definition KvRaft_MakeClerk (id : nat) (cfg : Config) : option (Config * Clerk) :=
  cfg ← MakeClient id cfg;
  sg ← lookupGroup GRP0 cfg;
  Some (cfg, MakeClerk (SrvNames sg)).

Definition MakeClerkTo (to : list Z) (id : nat) (cfg : Config) : option (Config * Clerk) :=
  sg ← lookupGroup GRP0 cfg;
  ns ← SrvNamesTo sg to;
  cfg ← MakeClientTo (Some ns) id cfg;
  sg ← lookupGroup GRP0 cfg;
  Some (cfg, MakeClerk (SrvNames sg)).

(** ** What they do *)

(** *** The random partitions *)

Lemma randomParts_spec rands j :
  Forall (λ r, 0 <= r) rands →
  (j ∈ (randomParts rands).1 ↔ ∃ r, go_nth rands j = Some r ∧ r mod 2 = 0) ∧
  (j ∈ (randomParts rands).2 ↔ ∃ r, go_nth rands j = Some r ∧ r mod 2 = 1).
Proof.
  intros Hr. unfold randomParts. simpl.
  assert (∀ c, j ∈ filter (λ j, go_nth ((λ r, Z.rem r 2) <$> rands) j = Some c) (seqZ 0 (len ((λ r, Z.rem r 2) <$> rands)))
    ↔ ∃ r, go_nth rands j = Some r ∧ r mod 2 = c) as H; [|split; apply H].
  intros c. rewrite list_elem_of_filter, elem_of_seqZ, length_fmap. split.
  - intros [Hj _]. apply go_nth_lookup in Hj as [H0 Hj]. rewrite list_lookup_fmap in Hj.
    destruct (rands !! Z.to_nat j) as [r|] eqn:He; [|done]. injection Hj as <-. exists r. split; [by apply go_nth_lookup|].
    rewrite Z.rem_mod_nonneg; [done| |lia]. by apply (Forall_lookup_1 _ _ _ _ Hr He).
  - intros (r & Hj & <-). pose proof (go_nth_Some _ _ _ Hj). apply go_nth_lookup in Hj as [H0 Hj]. split; [|lia].
    apply go_nth_lookup. split; [done|]. rewrite list_lookup_fmap, Hj. simpl.
    rewrite Z.rem_mod_nonneg; [done| |lia]. by apply (Forall_lookup_1 _ _ _ _ Hr Hj).
Qed.

(** The random numbers of one iteration. *)
Definition round_ok (n : Z) (rands : list Z) : Prop := len rands = n ∧ Forall (λ r, 0 <= r) rands.

Lemma Partition_round rands sg :
  grp_ok sg → round_ok (len (sg_srvs sg)) rands →
  ∃ sg', Partition (randomParts rands).1 (randomParts rands).2 sg = Some sg' ∧ grp_ok sg' ∧
    sg_srvs sg' = sg_srvs sg ∧
    ∀ a b ra rb, go_nth rands a = Some ra → go_nth rands b = Some rb → link sg' a b ↔ ra mod 2 = rb mod 2.
Proof.
  intros Hok [Hlen Hr]. pose proof (λ j, randomParts_spec rands j Hr) as Hp.
  destruct (Partition_spec (randomParts rands).1 (randomParts rands).2 sg Hok) as (sg' & H1 & H2 & H3 & H4 & H5).
  - intros j Hj. unfold in_group. rewrite <-Hlen.
    destruct Hj as [(r & Hj & _)%Hp|(r & Hj & _)%Hp]; by apply go_nth_Some in Hj.
  - intros j (r & Hj & H0)%Hp (r' & Hj' & H1)%Hp. congruence.
  - exists sg'. split_and!; [done..|]. intros a b ra rb Ha Hb.
    assert (∀ r, r mod 2 = 0 ∨ r mod 2 = 1) as Hcase by (intros r; pose proof (Z.mod_pos_bound r 2); lia).
    destruct (Hcase ra) as [Hra|Hra], (Hcase rb) as [Hrb|Hrb]; rewrite Hra, Hrb.
    + split; [done|]. intros _. apply H4. left. split; apply Hp; eauto.
    + split; [|done]. intros Hl. exfalso. eapply H5; [|exact Hl]. left. split; apply Hp; eauto.
    + split; [|done]. intros Hl. exfalso. eapply H5; [|exact Hl]. right. split; apply Hp; eauto.
    + split; [done|]. intros _. apply H4. right. split; apply Hp; eauto.
Qed.

Lemma Partitioner_cons rands rounds sg :
  Partitioner (rands :: rounds) sg =
    Partition (randomParts rands).1 (randomParts rands).2 sg ≫= Partitioner rounds.
Proof. done. Qed.

Lemma Partitioner_app rounds1 rounds2 : ∀ sg,
  Partitioner (rounds1 ++ rounds2) sg = Partitioner rounds1 sg ≫= Partitioner rounds2.
Proof.
  induction rounds1 as [|rands rounds1 IH]; intros sg; [done|].
  change ((rands :: rounds1) ++ rounds2) with (rands :: (rounds1 ++ rounds2)). rewrite !Partitioner_cons.
  destruct (Partition _ _ sg) as [sg1|]; [|done]. apply IH.
Qed.

Lemma Partitioner_total rounds : ∀ sg,
  grp_ok sg → Forall (round_ok (len (sg_srvs sg))) rounds →
  ∃ sg', Partitioner rounds sg = Some sg' ∧ grp_ok sg' ∧ sg_srvs sg' = sg_srvs sg.
Proof.
  induction rounds as [|rands rounds IH]; intros sg Hok Hr; [by exists sg|].
  apply Forall_cons_1 in Hr as [Hr Hrs].
  destruct (Partition_round rands sg Hok Hr) as (sg1 & H1 & Hok1 & Hs1 & _). rewrite <-Hs1 in Hrs.
  destruct (IH sg1 Hok1 Hrs) as (sg2 & H2 & Hok2 & Hs2). exists sg2.
  rewrite Partitioner_cons, H1. split_and!; [done..|congruence].
Qed.

(** The Partitioner never panics, and after each of its iterations two
    servers can reach each other exactly when they drew the same part, whatever
    the links were before: no iteration leaves a link behind or cuts one it
    should not. *)
Theorem Partitioner_splits rounds rands sg :
  grp_ok sg → Forall (round_ok (len (sg_srvs sg))) (rounds ++ [rands]) →
  ∃ sg', Partitioner (rounds ++ [rands]) sg = Some sg' ∧ grp_ok sg' ∧ sg_srvs sg' = sg_srvs sg ∧
    ∀ a b ra rb, go_nth rands a = Some ra → go_nth rands b = Some rb → link sg' a b ↔ ra mod 2 = rb mod 2.
Proof.
  intros Hok [Hrs [Hr _]%Forall_cons_1]%Forall_app.
  destruct (Partitioner_total rounds sg Hok Hrs) as (sg1 & H1 & Hok1 & Hs1). rewrite <-Hs1 in Hr.
  destruct (Partition_round rands sg1 Hok1 Hr) as (sg2 & H2 & Hok2 & Hs2 & Hl).
  exists sg2. rewrite Partitioner_app, H1. obind. rewrite Partitioner_cons, H2. split_and!; [done..|congruence|done].
Qed.

(** *** Submitting *)

Section OneProofs.
Context {Rep : Type}.

Lemma inServers_spec s p : inServers s p = true ↔ s ∈ p.
Proof.
  induction p as [|i p IH]; simpl; [by rewrite elem_of_nil|].
  destruct (s =? i) eqn:He; bool_to_prop; rewrite elem_of_cons; naive_solver.
Qed.

(** The lists of a sweep have an element for every server. *)
Definition sweep_ok (n : nat) (w : Sweep Rep) : Prop :=
  length (sw_connected w) = n ∧ length (sw_rsm w) = n ∧ length (sw_submit w) = n.

(** Server [i] is tried and its Submit returns [rep]. *)
Definition accepts_at (p : option (list Z)) (w : Sweep Rep) (i : Z) (rep : Rep) : Prop :=
  go_nth (sw_connected w) i = Some true ∧ go_nth (sw_rsm w) i = Some true ∧ inPartition i p = true ∧
  go_nth (sw_submit w) i = Some (OK, rep).

Lemma submits_at_spec n p w i :
  sweep_ok n w → 0 <= i < Z.of_nat n →
  ∃ r, submits_at p w i = Some r ∧ ∀ rep, r = Some rep ↔ accepts_at p w i rep.
Proof.
  intros (H1 & H2 & H3) Hi. unfold submits_at, accepts_at.
  destruct (proj2 (go_nth_is_Some (sw_connected w) i)) as [conn Hc]; [lia|].
  destruct (proj2 (go_nth_is_Some (sw_rsm w) i)) as [rsm Hr]; [lia|].
  destruct (proj2 (go_nth_is_Some (sw_submit w) i)) as [[err rep0] Hs]; [lia|].
  rewrite Hc, Hr, Hs. obind. destruct conn; [|by eexists; split; [done|]; split; [|intros (? & _)]].
  destruct (rsm && inPartition i p) eqn:Hb.
  - apply andb_true_iff in Hb as [-> Hp]. rewrite Hp. eexists; split; [done|]. intros rep.
    case_decide as Hok; split; [by intros [= ->]; rewrite Hok|by intros (_ & _ & _ & [= _ ->])|done|].
    intros (_ & _ & _ & [= ? _]). done.
  - eexists; split; [done|]. intros rep. split; [done|].
    intros (_ & [= ->] & Hp & _). by rewrite Hp in Hb.
Qed.

(** The inner loop: it stops at the first server, in the order from [index] on,
    that accepts. *)
Lemma sweep_spec n p w : ∀ k index,
  sweep_ok n w → 0 <= index < Z.of_nat n → (k <= n)%nat →
  ∃ r, sweep (Z.of_nat n) k index p w = Some r ∧
    match r with
    | Some (rep, i) => 0 <= i < Z.of_nat n ∧ accepts_at p w i rep
    | None => ∀ d rep, 0 <= d < Z.of_nat k → ¬ accepts_at p w ((index + d) mod Z.of_nat n) rep
    end.
Proof.
  induction k as [|k IH]; intros index Hw Hi Hk; [by exists None; split; [|lia]|]. simpl.
  destruct (submits_at_spec n p w index Hw Hi) as (r & -> & Hr). obind.
  destruct r as [rep|]; [exists (Some (rep, index)); split; [done|]; split; [done|by apply Hr]|].
  rewrite Z.rem_mod_nonneg by lia.
  destruct (IH ((index + 1) mod Z.of_nat n) Hw) as (r' & H1 & H2); [apply Z.mod_pos_bound; lia|lia|].
  exists r'. split; [done|]. destruct r' as [[rep i]|]; [done|].
  intros d rep Hd. destruct (decide (d = 0)) as [ -> |Hd0].
  - rewrite Z.add_0_r, Z.mod_small by lia. rewrite <-Hr. done.
  - specialize (H2 (d - 1) rep ltac:(lia)). rewrite Zplus_mod_idemp_l in H2.
    by replace (index + 1 + (d - 1)) with (index + d) in H2 by lia.
Qed.

(** All servers are met in a sweep. *)
Lemma sweep_none n p w index :
  sweep_ok n w → 0 <= index < Z.of_nat n → sweep (Z.of_nat n) n index p w = Some None →
  ∀ i rep, 0 <= i < Z.of_nat n → ¬ accepts_at p w i rep.
Proof.
  intros Hw Hi Hs i rep Hi'. destruct (sweep_spec n p w n index Hw Hi ltac:(lia)) as (r & Hr & H).
  rewrite Hs in Hr. injection Hr as <-. simpl in H.
  specialize (H ((i - index) mod Z.of_nat n) rep ltac:(apply Z.mod_pos_bound; lia)).
  rewrite Zplus_mod_idemp_r in H. replace (index + (i - index)) with i in H by lia.
  by rewrite Z.mod_small in H by lia.
Qed.

Lemma onePartition_spec n p sweeps : ∀ leader,
  0 <= leader < Z.of_nat n → Forall (sweep_ok n) sweeps →
  ∃ r leader', onePartition n p sweeps leader = Some (r, leader') ∧ 0 <= leader' < Z.of_nat n ∧
    match r with
    | Some rep => ∃ w, w ∈ sweeps ∧ accepts_at p w leader' rep
    | None => leader' = leader ∧ ∀ w i rep, w ∈ sweeps → 0 <= i < Z.of_nat n → ¬ accepts_at p w i rep
    end.
Proof.
  induction sweeps as [|w sweeps IH]; intros leader Hl Hw; simpl.
  { exists None, leader. split_and!; [done|lia|lia|done|]. by intros w i rep ?%elem_of_nil. }
  apply Forall_cons_1 in Hw as [Hw Hws].
  destruct (sweep_spec n p w n leader Hw Hl ltac:(lia)) as (r & Hr & H). rewrite Hr. obind.
  destruct r as [[rep i]|].
  - exists (Some rep), i. destruct H as [H1 H2]. split_and!; [done|lia|lia|]. exists w. split; [by left|done].
  - destruct (IH leader Hl Hws) as (r & leader' & H1 & H2 & H3). exists r, leader'. split; [done|]. split; [done|].
    destruct r as [rep|].
    + destruct H3 as (w' & Hw' & Ha). exists w'. split; [by right|done].
    + destruct H3 as [H3 H4]. split; [done|]. intros w' i rep [ -> |Hin]%elem_of_cons Hi; [|by eapply H4].
      exact (sweep_none _ _ _ leader Hw Hl Hr i rep Hi).
Qed.

End OneProofs.

(** The reply of every Submit that returns OK is what the state machine's DoOp
    computed for the request in some state. *)
Definition replies_of (req : IncReq) (w : Sweep IncRes) : Prop :=
  ∀ i rep, go_nth (sw_submit w) i = Some (OK, rep) → ∃ rs rs', rsmSrv_DoOp req rs = Some (rs', rep).

(** The requests of the rsm tests: [oneInc] and [oneNull] do not panic, neither
    on an index nor on the type of the reply; [oneInc] returns the counter after
    an increment that a connected server accepted, and remembers that server as
    the leader; and they return nil, and leave the leader as it was, exactly when
    in no sweep a connected server with a running service accepted the request. *)
Theorem oneInc_counts n sweeps leader :
  0 <= leader < Z.of_nat n → Forall (sweep_ok n) sweeps → Forall (replies_of Inc) sweeps →
  ∃ v leader', oneInc n sweeps leader = Some (v, leader') ∧ 0 <= leader' < Z.of_nat n ∧
    match v with
    | Some v => ∃ w rs, w ∈ sweeps ∧ accepts_at None w leader' (IncRep v) ∧ v = counter rs + 1
    | None => leader' = leader ∧ ∀ w i rep, w ∈ sweeps → 0 <= i < Z.of_nat n → ¬ accepts_at None w i rep
    end.
Proof.
  intros Hl Hw Hreq. unfold oneInc.
  destruct (onePartition_spec n None sweeps leader Hl Hw) as (r & leader' & -> & Hl' & Hr). obind.
  destruct r as [rep|]; [|by exists None, leader'].
  destruct Hr as (w & Hin & Ha). pose proof Ha as (_ & _ & _ & Hs).
  destruct (proj1 (list.Forall_forall _ _) Hreq w Hin _ _ Hs) as (rs & rs' & [= <- <-]).
  exists (Some (counter rs + 1)), leader'. split; [done|]. split; [done|]. by exists w, rs.
Qed.

Theorem oneNull_returns n sweeps leader :
  0 <= leader < Z.of_nat n → Forall (sweep_ok n) sweeps → Forall (replies_of Null) sweeps →
  is_Some (oneNull n sweeps leader).
Proof.
  intros Hl Hw Hreq. unfold oneNull.
  destruct (onePartition_spec n None sweeps leader Hl Hw) as (r & leader' & -> & Hl' & Hr). obind.
  destruct r as [rep|]; [|by eexists]. destruct Hr as (w & Hin & Ha). pose proof Ha as (_ & _ & _ & Hs).
  destruct (proj1 (list.Forall_forall _ _) Hreq w Hin _ _ Hs) as (rs & rs' & [= <- <-]). by eexists.
Qed.

(** *** Counters *)

Lemma countValue_foldl v srvs : ∀ n,
  foldl (λ i s, if counter s =? v then i + 1 else i) n srvs = n + len (filter (λ s, counter s = v) srvs).
Proof.
  induction srvs as [|s srvs IH]; intros n; simpl; [lia|]. rewrite IH.
  destruct (counter s =? v) eqn:He; bool_to_prop.
  - rewrite filter_cons_True by done. simpl. lia.
  - by rewrite filter_cons_False by done.
Qed.

Lemma countValue_spec v srvs : countValue v srvs = len (filter (λ s, counter s = v) srvs).
Proof. unfold countValue. by rewrite countValue_foldl. Qed.

Lemma checkCounter_loop_spec v nsrv see : ∀ iters, (iters <= 30)%nat →
  checkCounter_loop iters v nsrv see = true ↔
    ∃ t, (30 - iters <= t < 30)%nat ∧ nsrv <= len (filter (λ s, counter s = v) (see t)).
Proof.
  induction iters as [|iters IH]; intros Hi.
  - split; [done|]. intros (t & Ht & _). lia.
  - cbn [checkCounter_loop]. rewrite countValue_spec.
    destruct (nsrv <=? _) eqn:Hn; bool_to_prop.
    + split; [|done]. intros _. exists (30 - S iters)%nat. split; [lia|done].
    + rewrite IH by lia. split; intros (t & Ht & Hc); exists t; (split; [|done]); [lia|].
      destruct (decide (t = 30 - S iters)%nat) as [ -> |?]; [lia|lia].
Qed.

(** checkCounter accepts exactly when at one of its thirty looks enough servers
    have the value. *)
Theorem checkCounter_spec v nsrv see :
  checkCounter v nsrv see = true ↔
    ∃ t, (t < 30)%nat ∧ nsrv <= len (filter (λ s, counter s = v) (see t)).
Proof.
  unfold checkCounter. rewrite checkCounter_loop_spec by lia.
  split; intros (t & Ht & Hc); exists t; (split; [lia|done]).
Qed.

(** *** Leaders *)

Lemma serves_leader_spec {cmd} (ss : list (IService cmd)) :
  serves_leader ss = true ↔ ∃ rf, SRaft rf ∈ ss ∧ role rf = Leader.
Proof.
  induction ss as [|s ss IH]; simpl.
  { split; [done|]. by intros (rf & ?%elem_of_nil & _). }
  destruct s as [rf|].
  - destruct (bool_decide (role rf = Leader)) eqn:Hl; bool_to_prop.
    + split; [|done]. intros _. exists rf. split; [by left|done].
    + rewrite IH. split; intros (rf' & Hin & Hr); exists rf'; (split; [|done]); [by right|].
      by apply elem_of_cons in Hin as [[= ->]|?].
  - rewrite IH. split; intros (rf' & Hin & Hr); exists rf'; (split; [|done]); [by right|].
    by apply elem_of_cons in Hin as [?|?].
Qed.

Lemma findLeading_spec {cmd} (services : list (list (IService cmd))) : ∀ i,
  match findLeading i services with
  | (true, j) => ∃ (d : nat) ss, j = i + Z.of_nat d ∧ services !! d = Some ss ∧ serves_leader ss = true ∧
                   ∀ d' ss', (d' < d)%nat → services !! d' = Some ss' → serves_leader ss' = false
  | (false, j) => j = 0 ∧ Forall (λ ss, serves_leader ss = false) services
  end.
Proof.
  induction services as [|ss services IH]; intros i; simpl; [by split|].
  destruct (serves_leader ss) eqn:Hl.
  - exists 0%nat, ss. split_and!; [lia|done|done|lia].
  - specialize (IH (i + 1)). destruct (findLeading (i + 1) services) as [[] j].
    + destruct IH as (d & ss' & -> & Hd & Hs & Hb). exists (S d), ss'. split_and!; [lia|done|done|].
      intros [|d'] ss'' Hd' Hss; simplify_eq/=; [done|]. by eapply (Hb d'); [lia|].
    + destruct IH as [-> IH]. split; [done|by constructor].
Qed.

(** Leader names the first server with a Raft peer that takes itself for the
    leader, and says that there is none exactly when no server has one. *)
Theorem GroupLeader_spec {cmd} (services : list (list (IService cmd))) :
  match GroupLeader services with
  | (true, i) => ∃ ss rf, go_nth services i = Some ss ∧ SRaft rf ∈ ss ∧ role rf = Leader
  | (false, _) => ∀ ss rf, ss ∈ services → SRaft rf ∈ ss → role rf ≠ Leader
  end.
Proof.
  unfold GroupLeader. pose proof (findLeading_spec services 0) as H.
  destruct (findLeading 0 services) as [[] i].
  - destruct H as (d & ss & -> & Hd & (rf & Hin & Hr)%serves_leader_spec & _). exists ss, rf.
    rewrite Z.add_0_l, go_nth_nat. done.
  - destruct H as [_ H]. intros ss rf Hss Hrf Hr. rewrite list.Forall_forall in H.
    specialize (H ss Hss). assert (serves_leader ss = true) by (apply serves_leader_spec; by exists rf). congruence.
Qed.

(** After disconnectLeader no server reaches the leader nor the leader any
    server, and the links between the others are as before. *)
Theorem disconnectLeader_cuts leader sg :
  grp_ok sg → in_group sg leader →
  ∃ sg', disconnectLeader leader sg = Some (sg', leader) ∧ sg_srvs sg' = sg_srvs sg ∧
    ∀ a b, in_group sg a → in_group sg b →
      (link sg' a b ↔ link sg a b ∧ a ≠ leader ∧ b ≠ leader).
Proof.
  intros Hok Hl. unfold disconnectLeader, DisconnectAll.
  destruct (disconnect_spec leader (all sg) sg Hok Hl) as (sg' & -> & Hs & _ & Hlink); [by intros j ?%all_in|].
  exists sg'. split; [done|]. split; [done|]. intros a b Ha Hb. rewrite Hlink by done.
  apply all_in in Ha, Hb. naive_solver.
Qed.

(** *** Clerks *)

(** The names of the servers of a group. *)
Definition names_ok (gid : Z) (sg : ServerGrp) : Prop := servernames sg = ServerName gid <$> seqZ 0 (N sg).

Lemma SrvNamesTo_spec gid sg to :
  names_ok gid sg → (∀ i, i ∈ to → in_group sg i) → SrvNamesTo sg to = Some (ServerName gid <$> to).
Proof.
  intros Hn Hto. unfold SrvNamesTo.
  assert (∀ acc, (∀ i, i ∈ to → in_group sg i) →
    foldl (λ ons i, ns ← ons; n ← go_nth (servernames sg) i; Some (ns ++ [n])) (Some acc) to =
      Some (acc ++ (ServerName gid <$> to))) as H; [|by apply (H [])].
  clear Hto. induction to as [|i to IH]; intros acc Hto; simpl; [by rewrite app_nil_r|].
  assert (go_nth (servernames sg) i = Some (ServerName gid i)) as ->.
  { rewrite Hn. destruct (Hto i ltac:(by left)) as [H0 H1]. apply go_nth_lookup. split; [done|].
    rewrite list_lookup_fmap, (proj2 (lookup_seqZ 0 (N sg) (Z.to_nat i) i)); [done|]. unfold N. lia. }
  obind. rewrite IH by (intros; apply Hto; by right). by rewrite <-app_assoc.
Qed.

(** A clerk made with MakeClerkTo knows all servers of the group but its client
    reaches exactly those of the list: the end that the client makes for a
    server is enabled if and only if the server is one of them. *)
Theorem MakeClerkTo_reaches to id cfg sg m :
  lookupGroup GRP0 cfg = Some sg → names_ok GRP0 sg → (∀ i, i ∈ to → in_group sg i) → clerks cfg = Some m →
  ∃ cfg' ck clnt, MakeClerkTo to id cfg = Some (cfg', ck) ∧ ck_servers ck = ServerName GRP0 <$> seqZ 0 (N sg) ∧
    (clerks cfg' ≫= lookup id) = Some clnt ∧
    ∀ i name net clnt' net' e, in_group sg i →
      Clnt_makeEnd (ServerName GRP0 i) name clnt net = Some (clnt', net', e) →
      enabled net' !! e = Some (bool_decide (i ∈ to)).
Proof.
  intros Hsg Hn Hto Hm. unfold MakeClerkTo. rewrite Hsg. obind.
  rewrite (SrvNamesTo_spec GRP0) by done. obind. unfold MakeClientTo. rewrite Hm. obind.
  assert (lookupGroup GRP0 (set_clerks (Some (<[id:=makeClntTo (Some (ServerName GRP0 <$> to))]> m)) cfg) = Some sg) as -> by done.
  obind. eexists _, _, _. split; [done|]. split; [exact Hn|]. split; [simpl; by rewrite lookup_insert_eq|].
  intros i name net clnt' net' e Hi. unfold Clnt_makeEnd. simpl. rewrite lookup_empty.
  destruct (MakeEnd name net) as [net1|]; [|done]. obind. intros [= _ <- <-]. simpl.
  rewrite lookup_insert_eq. f_equal. unfold allowedL. simpl. apply bool_decide_ext.
  rewrite list_elem_of_fmap. split; [|by eauto]. intros (j & Hj & Hin). by apply ServerName_inj in Hj as ->.
Qed.

(** ** Instances *)

Lemma Partitioner_splits_witness :
  ∃ sg', Partitioner [[5; 2; 7]; [4; 1; 8]] three = Some sg' ∧ link sg' 0 2 ∧ ¬ link sg' 0 1.
Proof.
  destruct (Partitioner_splits [[5; 2; 7]] [4; 1; 8] three three_ok) as (sg' & H & _ & _ & Hl).
  { repeat constructor; lia. }
  exists sg'. split; [exact H|]. split.
  - by apply (Hl 0 2 4 8).
  - rewrite (Hl 0 1 4 1); done.
Defined.

(** Server 1 serves_leader; the first sweep is too early. *)
Definition sweeps3 : list (Sweep IncRes) :=
  [mkSweep [true; true; false] [true; true; true] [(ErrWrongLeader, NullRep); (ErrWrongLeader, NullRep); (OK, IncRep 5)];
   mkSweep [true; true; true] [true; true; true] [(ErrWrongLeader, NullRep); (OK, IncRep 7); (ErrWrongLeader, NullRep)]].

Example oneInc_run : oneInc 3 sweeps3 2 = Some (Some 7, 1).
Proof. reflexivity. Qed.

Lemma sweeps3_replies : Forall (replies_of Inc) sweeps3.
Proof.
  apply list.Forall_forall. intros w Hw i rep Hi.
  assert (∃ v, rep = IncRep v) as [v ->].
  { apply go_nth_lookup in Hi as [_ Hi]. apply list_elem_of_lookup_2 in Hi.
    assert (w = mkSweep [true; true; false] [true; true; true] [(ErrWrongLeader, NullRep); (ErrWrongLeader, NullRep); (OK, IncRep 5)]
      ∨ w = mkSweep [true; true; true] [true; true; true] [(ErrWrongLeader, NullRep); (OK, IncRep 7); (ErrWrongLeader, NullRep)])
      as [ -> | -> ] by (unfold sweeps3 in Hw; set_solver);
    simpl in Hi; rewrite !elem_of_cons, elem_of_nil in Hi; naive_solver. }
  exists (mkRsmSrv (v - 1)), (mkRsmSrv v). simpl. by replace (v - 1 + 1) with v by lia.
Qed.

Lemma oneInc_counts_witness :
  oneInc 3 sweeps3 2 = Some (Some 7, 1) ∧ ∃ w, w ∈ sweeps3 ∧ accepts_at None w 1 (IncRep 7).
Proof.
  destruct (oneInc_counts 3 sweeps3 2 ltac:(lia)) as (v & leader' & H & _ & Hv).
  - repeat constructor.
  - exact sweeps3_replies.
  - rewrite oneInc_run in H. injection H as <- <-. split; [reflexivity|].
    destruct Hv as (w & rs & Hin & Ha & _). exists w. split; [exact Hin|exact Ha].
Defined.
