(* ===== verification/ShardTests.v ===== *)
(** * The tests of the sharded service

    Models src/6.5840/src/shardkv1/test.go: the groups of a test and how they
    join and leave a configuration through a controller, the check that data is
    sharded, and the decisions of the tests with several controllers.  The
    controller is any instance of the interface of ShardKv.v; the groups are
    those of TestConfig.v, the configurations those of ShardCfg.v.  The clients
    that controllers and clerks use are left out, and so is time. *)

From Stdlib Require Import Ascii.
From stdpp Require Import pretty.
From S2P Require Import Prelude Numerals Gob Persister KVRpc LabRpc Tester TestConfig ServiceTests ShardCfg ShardKv.

Definition Controler : Tgid := 0.
Definition NSRV : nat := 3.
Definition Gid1 : Tgid := 1.

(** ** Names of servers *)

(** The names of the servers of different groups differ. *)
Lemma ServerName_inj2 g1 g2 i j :
  0 <= g1 → 0 <= g2 → ServerName g1 i = ServerName g2 j → g1 = g2 ∧ i = j.
Proof.
  unfold ServerName. intros H1 H2 H. apply append_inj in H.
  apply dash_split in H as [Hg Hi]; [|by apply pretty_no_dash..].
  split; by apply (inj pretty).
Qed.

(** ** Groups that start and stop *)

Lemma grp_ok_ends sg sg' :
  grp_ok sg → endNames <$> sg_srvs sg' = endNames <$> sg_srvs sg →
  length (connected sg') = length (connected sg) → grp_ok sg'.
Proof.
  intros [H1 H2 H3] Hs Hc.
  assert (length (sg_srvs sg') = length (sg_srvs sg)) as Hl by (apply (f_equal length) in Hs; by rewrite !length_fmap in Hs).
  assert (∀ a b, endName sg' a b = endName sg a b) as He.
  { intros a b. unfold endName, go_nth. destruct (0 <=? a); [|done].
    assert (∀ l : list Srv, (s ← l !! Z.to_nat a; (if 0 <=? b then endNames s !! Z.to_nat b else None)) =
      (ns ← (endNames <$> l) !! Z.to_nat a; (if 0 <=? b then ns !! Z.to_nat b else None))) as Hx.
    { intros l. rewrite list_lookup_fmap. by destruct (l !! Z.to_nat a). }
    by rewrite !Hx, Hs. }
  constructor; [congruence| |].
  - intros a b Ha Hb. rewrite He. apply H2; unfold in_group in *; congruence.
  - intros a b a' b' e. rewrite !He. apply H3.
Qed.

Lemma ShutdownServer_total i sg :
  grp_ok sg → in_group sg i →
  ∃ sg', ShutdownServer i sg = Some sg' ∧ grp_ok sg' ∧ length (sg_srvs sg') = length (sg_srvs sg).
Proof.
  intros Hok Hi. unfold ShutdownServer.
  destruct (disconnect_spec i (all sg) sg Hok Hi) as (sg1 & -> & Hs & Hc & _); [by intros j ?%all_in|]. obind. simpl.
  unfold in_group in Hi. rewrite Hs.
  destruct (proj2 (go_nth_is_Some (sg_srvs sg) i)) as [s Hsi]; [done|]. rewrite Hsi. obind.
  rewrite go_set_ok by done. obind. eexists. split; [done|]. split; [|simpl; by rewrite length_insert].
  apply (grp_ok_ends sg); [done| |].
  - simpl. rewrite list_fmap_insert. apply list_insert_id. apply go_nth_lookup in Hsi as [_ Hsi].
    by rewrite list_lookup_fmap, Hsi.
  - simpl. by rewrite Hc, length_insert.
Qed.

Lemma Shutdown_total sg : grp_ok sg → is_Some (Shutdown sg).
Proof.
  intros Hok. unfold Shutdown.
  assert (∀ js sg, grp_ok sg → (∀ j, j ∈ js → in_group sg j) →
    is_Some (foldl (λ osg i, sg ← osg; ShutdownServer i sg) (Some sg) js)) as H.
  { induction js as [|j js IH]; intros sg0 Hok0 Hin; [by eexists|]. simpl.
    destruct (ShutdownServer_total j sg0 Hok0) as (sg1 & -> & Hok1 & Hl); [apply Hin; by left|].
    apply IH; [done|]. intros j' Hj'. unfold in_group. rewrite Hl. apply Hin. by right. }
  apply H; [done|]. intros j. by rewrite all_in.
Qed.

(** No operation renames the servers. *)
Lemma connect_names i to sg sg' : connect i to sg = Some sg' → servernames sg' = servernames sg.
Proof. unfold connect. intros H. inv_bind. by subst. Qed.

Lemma ConnectAll_names sg sg' : ConnectAll sg = Some sg' → servernames sg' = servernames sg.
Proof.
  unfold ConnectAll. generalize (all sg) as js. intros js. revert sg.
  induction js as [|j js IH]; intros sg H; simpl in H; [by injection H as <-|].
  destruct (ConnectOne j sg) as [sg1|] eqn:Hc.
  - rewrite (IH _ H). by eapply connect_names.
  - exfalso. clear -H. induction js as [|j js IH]; [done|]. by apply IH.
Qed.

Lemma start_from_names xs : ∀ i sg sg', start_from i xs sg = Some sg' → servernames sg' = servernames sg.
Proof.
  induction xs as [|[names rs] xs IH]; intros i sg sg' H; simpl in H; [by injection H as <-|].
  apply bind_Some in H as (sg1 & H1 & H2). rewrite (IH _ _ _ H2).
  unfold StartServer in H1. inv_bind. by destruct x0 as [? ?]; inv_bind; subst.
Qed.

Lemma StartServers_names xs sg sg' : StartServers xs sg = Some sg' → servernames sg' = servernames sg.
Proof.
  unfold StartServers, start_grp. intros (sg1 & H1 & H2)%bind_Some.
  by rewrite (ConnectAll_names _ _ H2), (start_from_names _ _ _ _ H1).
Qed.

Section ShardTest.
Context {W : Type} `{!ShardCtrler W}.
(** The names of the ends and the server objects of a new group of [NSRV]
    servers, drawn at random. *)
Context (draw : Config → list (list string) * list (list string * nat)).

(** [None] is a panic or [log.Fatalf]. *)
Record ShardTest := mkShardTest { st_ngid : Tgid; st_cfg : Config; st_world : W }.

Definition set_cfg (cfg : Config) (ts : ShardTest) : ShardTest := mkShardTest (st_ngid ts) cfg (st_world ts).
Definition set_world (w : W) (ts : ShardTest) : ShardTest := mkShardTest (st_ngid ts) (st_cfg ts) w.

(** The parameters of a test. *)
Record ShardParams := mkShardParams { sp_part : string; sp_partition : bool; sp_maxraftstate : Z }.

(** The kvserver of the controllers is the only server of group 0; [names] and [x]
    are its ends and its object, [w] the world before a controller has stored
    anything. *)
Definition MakeTestMaxRaft (names : list string) (x : list string * nat) (w : W) (part : string)
    (reliable partition : bool) (maxraftstate : Z) : option (ShardParams * ShardTest) :=
  cfg ← MakeConfig [names] [x] reliable;
  Some (mkShardParams part partition maxraftstate, mkShardTest (Gid1 + 1) (Begin cfg) w).

Definition ShardTest_MakeTest (names : list string) (x : list string * nat) (w : W) (part : string)
    (reliable : bool) : option (ShardParams * ShardTest) :=
  MakeTestMaxRaft names x w part reliable false (-1).

Definition MakeTestLeases (names : list string) (x : list string * nat) (w : W) (part : string)
    (reliable : bool) : option (ShardParams * ShardTest) :=
  MakeTestMaxRaft names x w part reliable true (-1).

(** The leader is the one that [Leader] finds among the services of the group; it
    is shut down. *)
Definition disconnectClntFromLeader {cmd} (gid : Tgid) (services : list (list (IService cmd))) (ts : ShardTest) :
    option (Z * ShardTest) :=
  let '(ok, l) := GroupLeader services in
  if negb ok then None else cfg ← on_group gid (ShutdownServer l) (st_cfg ts); Some (l, set_cfg cfg ts).

Definition newGid (ts : ShardTest) : Tgid * ShardTest :=
  (st_ngid ts, mkShardTest (st_ngid ts + 1) (st_cfg ts) (st_world ts)).

Fixpoint groups (n : nat) (ts : ShardTest) : list Tgid * ShardTest :=
  match n with
  | O => ([], ts)
  | S n => let '(gid, ts) := newGid ts in let '(gids, ts) := groups n ts in (gid :: gids, ts)
  end.

(** [ts.Config.MakeGroupStart(gid, NSRV, ts.StartServerShardGrp)] *)
Definition startGroup (gid : Tgid) (ts : ShardTest) : option ShardTest :=
  let '(names, xs) := draw (st_cfg ts) in
  cfg ← MakeGroupStart gid names xs (st_cfg ts); Some (set_cfg cfg ts).

Definition GroupNames (gid : Tgid) (ts : ShardTest) : option (list string) :=
  SrvNames <$> lookupGroup gid (st_cfg ts).

(** The result of JoinBalance is ignored; [log.Fatalf] in it is not. *)
Definition setupKVService (ts : ShardTest) : option (Tgid * ShardTest) :=
  let scfg := MakeShardConfig in
  ts ← startGroup Gid1 ts;
  srvs ← GroupNames Gid1 ts;
  o ← JoinBalance [(Gid1, srvs)] scfg;
  match o with
  | Fatal => None
  | Returned _ scfg => Some (Gid1, set_world (InitConfig scfg (st_world ts)) ts)
  end.

Definition checkMember (gid : Tgid) (ts : ShardTest) : option bool :=
  cfg ← Query (st_world ts); Some (IsMember gid cfg).

Definition join (gid : Tgid) (srvs : list string) (ts : ShardTest) : option ShardTest :=
  cfg ← Query (st_world ts);
  newcfg ← Copy cfg;
  o ← JoinBalance [(gid, srvs)] newcfg;
  match o with
  | Returned true newcfg => Some (set_world (ChangeConfigTo newcfg (st_world ts)) ts)
  | _ => None
  end.

Fixpoint joinGroups (gids : list Tgid) (ts : ShardTest) : option (bool * ShardTest) :=
  match gids with
  | [] => Some (true, ts)
  | gid :: gids =>
      ts ← startGroup gid ts;
      srvs ← GroupNames gid ts;
      ts ← join gid srvs ts;
      ok ← checkMember gid ts;
      if negb ok then Some (false, ts) else joinGroups gids ts
  end.

Definition leave (gid : Tgid) (ts : ShardTest) : option ShardTest :=
  cfg ← Query (st_world ts);
  newcfg ← Copy cfg;
  o ← LeaveBalance [gid] newcfg;
  match o with
  | Returned true newcfg => Some (set_world (ChangeConfigTo newcfg (st_world ts)) ts)
  | _ => None
  end.

Fixpoint leaveGroups (gids : list Tgid) (ts : ShardTest) : option (bool * ShardTest) :=
  match gids with
  | [] => Some (true, ts)
  | gid :: gids =>
      ts ← leave gid ts;
      ok ← checkMember gid ts;
      if (ok : bool) then Some (false, ts)
      else cfg ← ExitGroup gid (st_cfg ts); leaveGroups gids (set_cfg cfg ts)
  end.

(** *** checkShutdownSharding *)

(** What the goroutine of key [i] sends for the value of its Get. *)
Definition getMismatch (va v : string) : bool := negb (bool_decide (v = va)).

(** The loop of the select: the values that arrive, until two seconds pass without
    one; [None] is [Fatalf]. *)
Fixpoint countCompletions (va : list string) (evs : list (nat * string)) (ndone : Z) : option Z :=
  match evs with
  | [] => Some ndone
  | (i, v) :: evs =>
      va_i ← va !! i;
      if getMismatch va_i v then None else countCompletions va evs (ndone + 1)
  end.

(** Whether the check passes; [evs] are the Gets that complete in time, by key. *)
Definition checkShutdownSharding (va : list string) (evs : list (nat * string)) : bool :=
  match countCompletions va evs 0 with
  | None => false
  | Some ndone => negb (len va <=? ndone)
  end.

(** *** partitionCtrler *)

Inductive CtrlState := CtrlIdle | CtrlJoin | CtrlLeave.

#[export] Instance CtrlState_eq_dec : EqDecision CtrlState.
Proof. solve_decision. Defined.

(** The checks after the second controller has taken over: [num] is the number
    of the configuration before, [state] and [ngid] what the first controller
    was doing.  The new group leaves again if its join was completed. *)
Definition checkRecovery (num : Z) (state : CtrlState) (ngid : Tgid) (ts : ShardTest) : option ShardTest :=
  let ts := set_world (InitController (st_world ts)) ts in
  cfg ← Query (st_world ts);
  if Num cfg <=? num then None
  else
    let present := IsMember ngid cfg in
    if (bool_decide (state = CtrlJoin) && negb present) || (bool_decide (state = CtrlLeave) && present) then None
    else if bool_decide (state = CtrlJoin) && present then
      '(_, ts) ← leaveGroups [ngid] ts; Some ts
    else Some ts.

(** One iteration of the first controller: what it was doing last, whether it
    goes on. *)
Definition ctrlRound (ts : ShardTest) : option (CtrlState * Tgid * bool * ShardTest) :=
  let '(ngid, ts) := newGid ts in
  '(_, ts) ← joinGroups [ngid] ts;
  ok ← checkMember ngid ts;
  if (ok : bool) then
    '(_, ts) ← leaveGroups [ngid] ts; Some (CtrlLeave, ngid, true, ts)
  else Some (CtrlJoin, ngid, false, ts).

End ShardTest.

(** ** Configurations *)

Lemma JoinBalance_one gid srvs c :
  length (Shards c) = NShards → Groups c !! gid = None → sharesServer c srvs = false →
  ∃ c', JoinBalance [(gid, srvs)] c = Some (Returned true c') ∧ Num c' = Num c + 1 ∧
    Groups c' = <[gid := srvs]> (Groups c) ∧ length (Shards c') = NShards ∧ assigned c' ∧ balanced c'.
Proof.
  intros Hl Hg Hs. unfold JoinBalance, Join. simpl. rewrite Hg, Hs.
  destruct (Rebalance_result (next_Num (set_Groups (<[gid := srvs]> (Groups c)) c))) as (c' & -> & (H1 & H2 & H3) & H4 & H5);
    [done|apply insert_non_empty|].
  exists c'. simpl in *. by split_and!; [| | |congruence| |].
Qed.

Lemma LeaveBalance_one gid c :
  length (Shards c) = NShards → is_Some (Groups c !! gid) → delete gid (Groups c) ≠ ∅ →
  ∃ c', LeaveBalance [gid] c = Some (Returned true c') ∧ Num c' = Num c + 1 ∧
    Groups c' = delete gid (Groups c) ∧ length (Shards c') = NShards ∧ assigned c' ∧ balanced c'.
Proof.
  intros Hl [srvs Hg] Hne. unfold LeaveBalance, Leave. simpl. rewrite Hg.
  destruct (Rebalance_result (next_Num (set_Groups (delete gid (Groups c)) c))) as (c' & -> & (H1 & H2 & H3) & H4 & H5);
    [done|done|].
  exists c'. simpl in *. by split_and!; [| | |congruence| |].
Qed.

Lemma IsMember_elem g c : IsMember g c = true ↔ g ∈ Shards c.
Proof.
  unfold IsMember. rewrite existsb_exists. split.
  - intros (x & Hx & He). bool_to_prop. subst. by apply list_elem_of_In.
  - intros Hg. exists g. split; [by apply list_elem_of_In|apply Z.eqb_refl].
Qed.

Lemma cnt_NoDup l : (∀ g, g ∈ l → (cnt l g <= 1)%nat) → NoDup l.
Proof.
  induction l as [|x l IH]; intros Hc; [constructor|]. apply list.NoDup_cons. split.
  - intros Hx. pose proof (cnt_pos l x Hx). specialize (Hc x (list_elem_of_here _ _)).
    rewrite cnt_cons, decide_True in Hc by done. lia.
  - apply IH. intros g Hg. specialize (Hc g (list_elem_of_further _ _ _ Hg)). rewrite cnt_cons in Hc. lia.
Qed.

(** With at most as many groups as shards every group has a shard. *)
Lemma IsMember_ok g c :
  length (Shards c) = NShards → assigned c → balanced c → (size (Groups c) <= NShards)%nat →
  is_Some (Groups c !! g) → IsMember g c = true.
Proof.
  intros Hl Ha Hb Hs Hg. apply IsMember_elem. destruct (decide (g ∈ Shards c)) as [|Hn]; [done|exfalso].
  unfold assigned in Ha. rewrite list.Forall_forall in Ha.
  assert (cnt (Shards c) g = 0%nat) as H0.
  { destruct (cnt (Shards c) g) eqn:Hc; [done|]. exfalso. apply Hn, cnt_elem. lia. }
  assert (NoDup (Shards c)) as Hnd.
  { apply cnt_NoDup. intros x Hx. specialize (Hb x g (Ha x Hx) Hg). lia. }
  assert ((list_to_set (Shards c) : gset Tgid) ⊆ dom (Groups c) ∖ {[g]}) as Hsub.
  { intros x Hx%elem_of_list_to_set. apply elem_of_difference. split; [by apply elem_of_dom, Ha|].
    intros ->%elem_of_singleton. done. }
  apply subseteq_size in Hsub. rewrite size_list_to_set, size_difference in Hsub.
  - rewrite size_dom, size_singleton in Hsub. rewrite Hl in Hsub. unfold NShards in *. lia.
  - apply singleton_subseteq_l. by apply elem_of_dom.
  - done.
Qed.

Lemma IsMember_gone g c : assigned c → Groups c !! g = None → IsMember g c = false.
Proof.
  intros Ha Hg. destruct (IsMember g c) eqn:Hm; [|done]. apply IsMember_elem in Hm.
  unfold assigned in Ha. rewrite list.Forall_forall in Ha. apply Ha in Hm as [? Hm]. congruence.
Qed.

(** ** Joining and leaving *)

Section Proofs.
Context {W : Type} `{!ShardCtrler W} `{!SoleCtrler W}.
Context (draw : Config → list (list string) * list (list string * nat)).

(** The names drawn for the ends are distinct and new. *)
Definition draw_ok : Prop := ∀ cfg, let '(names, xs) := draw cfg in
  length names = NSRV ∧ length xs = NSRV ∧ Forall (λ ns, length ns = NSRV) (names ++ xs.*1) ∧
  NoDup (concat names ++ concat xs.*1) ∧ ∀ e, e ∈ concat names ++ concat xs.*1 → e ∉ ends (cfg_net cfg).

Context (Hdraw : draw_ok).

Definition grp_names (gid : Tgid) : list string := ServerName gid <$> seqZ 0 (Z.of_nat NSRV).

Lemma MakeGroupStart_total gid names xs cfg :
  length names = NSRV → length xs = NSRV → Forall (λ ns, length ns = NSRV) (names ++ xs.*1) →
  NoDup (concat names ++ concat xs.*1) → (∀ e, e ∈ concat names ++ concat xs.*1 → e ∉ ends (cfg_net cfg)) →
  ∃ cfg' sg, MakeGroupStart gid names xs cfg = Some cfg' ∧ grps cfg' = <[gid := sg]> (grps cfg) ∧
    grp_ok sg ∧ servernames sg = grp_names gid.
Proof.
  intros Hn Hx [Hfn Hfx]%Forall_app (Hnd & Hdis & Hnd')%list.NoDup_app Hfresh.
  unfold MakeGroupStart, MakeGroup.
  destruct (makeSrvGrp_total gid names (cfg_net cfg) Hnd) as (sg0 & Hmk & Hg0 & Hs0 & Hc0 & He0).
  { intros e He. apply Hfresh, elem_of_app. by left. }
  assert (servernames sg0 = grp_names gid) as Hnm.
  { unfold makeSrvGrp in Hmk. apply bind_Some in Hmk as ([net srvs] & _ & Hmk). injection Hmk as <-. simpl.
    by rewrite Hn. }
  rewrite Hmk. obind. unfold on_group, lookupGroup. cbn [grps set_grps set_cfg_net cfg_net].
  rewrite lookup_insert_eq. cbn [fmap option_fmap option_map]. obind.
  destruct (StartServers_spec xs (set_net (sg_net sg0) sg0)) as (sg1 & Hst & Hok & _).
  - rewrite list.Forall_forall in Hfx. intros ns Hns. rewrite Hx. by apply Hfx.
  - done.
  - intros e He. simpl. rewrite He0. rewrite not_elem_of_union, elem_of_list_to_set. split.
    + intros Hin. by apply (Hdis e).
    + apply Hfresh, elem_of_app. by right.
  - simpl. by rewrite Hs0, length_fmap, Hn.
  - simpl. by rewrite Hc0, length_replicate, Hn.
  - intros s Hs. simpl in Hs. rewrite Hs0 in Hs. by apply list_elem_of_fmap in Hs as (ns & -> & _).
  - rewrite Hst. obind. eexists _, sg1. split; [done|]. simpl. split; [by rewrite insert_insert_eq|].
    split; [done|]. apply StartServers_names in Hst. simpl in Hst. congruence.
Qed.

(** The configuration [c] of a test has the groups [gids], which run. *)
Record test_ok (gids : list Tgid) (c : ShardConfig) (ts : ShardTest) : Prop := mkTestOk {
  tk_query : Query (st_world ts) = Some c;
  tk_shards : length (Shards c) = NShards;
  tk_groups g : Groups c !! g = if decide (g ∈ gids) then Some (grp_names g) else None;
  tk_nodup : NoDup gids;
  tk_assigned : assigned c;
  tk_balanced : balanced c;
  tk_pos : Forall (λ g, 0 < g) gids;
  tk_running g : g ∈ gids → ∃ sg, grps (st_cfg ts) !! g = Some sg ∧ grp_ok sg
}.

Lemma tk_dom gids c ts : test_ok gids c ts → gids ≡ₚ elements (dom (Groups c)).
Proof.
  intros Hok. apply NoDup_Permutation; [apply Hok|apply NoDup_elements|]. intros g.
  rewrite elem_of_elements, elem_of_dom, (tk_groups _ _ _ Hok). case_decide; [by split; [eexists|]|].
  split; [done|by intros [??]].
Qed.

Lemma tk_size gids c ts : test_ok gids c ts → size (Groups c) = length gids.
Proof. intros Hok. rewrite (Permutation_length (tk_dom _ _ _ Hok)). by rewrite <-size_dom. Qed.

(** The names of a new group are not used yet. *)
Lemma sharesServer_new gids c ts g :
  test_ok gids c ts → 0 < g → g ∉ gids → sharesServer c (grp_names g) = false.
Proof.
  intros Hok Hg Hn. apply not_true_iff_false. unfold sharesServer. rewrite existsb_exists.
  intros ([g' srvs] & Hin & He). apply list_elem_of_In, elem_of_map_to_list in Hin.
  rewrite (tk_groups _ _ _ Hok) in Hin. case_decide as Hg'; [|done]. injection Hin as <-.
  rewrite existsb_exists in He. destruct He as (s1 & H1 & He). rewrite existsb_exists in He.
  destruct He as (s2 & H2 & He). bool_to_prop. subst s2.
  apply list_elem_of_In, list_elem_of_fmap in H1 as (i & -> & _).
  apply list_elem_of_In, list_elem_of_fmap in H2 as (j & Hij & _).
  pose proof (proj1 (list.Forall_forall _ _) (tk_pos _ _ _ Hok) g' Hg').
  apply ServerName_inj2 in Hij as [-> _]; [done|simpl in *; lia|lia].
Qed.

Lemma startGroup_total gid (ts : ShardTest (W:=W)) :
  ∃ ts' sg, startGroup draw gid ts = Some ts' ∧ st_world ts' = st_world ts ∧ st_ngid ts' = st_ngid ts ∧
    grps (st_cfg ts') = <[gid := sg]> (grps (st_cfg ts)) ∧ grp_ok sg ∧
    GroupNames gid ts' = Some (grp_names gid).
Proof using Hdraw.
  unfold startGroup. specialize (Hdraw (st_cfg ts)). destruct (draw (st_cfg ts)) as [names xs].
  destruct Hdraw as (H1 & H2 & H3 & H4 & H5).
  destruct (MakeGroupStart_total gid names xs (st_cfg ts)) as (cfg' & sg & -> & Hg & Hok & Hn); [done..|]. obind.
  exists (set_cfg cfg' ts), sg. split_and!; [done..|].
  unfold GroupNames, lookupGroup. simpl. rewrite Hg, lookup_insert_eq. simpl. unfold SrvNames. simpl. by rewrite Hn.
Qed.

(** One group joins. *)
Lemma join_one gids c g ts :
  test_ok gids c ts → 0 < g → g ∉ gids → (length gids < NShards)%nat →
  ∃ c' ts1 ts2, startGroup draw g ts = Some ts1 ∧ GroupNames g ts1 = Some (grp_names g) ∧
    join g (grp_names g) ts1 = Some ts2 ∧ checkMember g ts2 = Some true ∧
    test_ok (gids ++ [g]) c' ts2 ∧ Num c' = Num c + 1 ∧ st_ngid ts2 = st_ngid ts.
Proof using All.
  intros Hok Hg Hn Hlen. destruct (startGroup_total g ts) as (ts1 & sg & H1 & Hw & Hid & Hgr & Hsg & Hnm).
  assert (Groups c !! g = None) as Hgn by (by rewrite (tk_groups _ _ _ Hok), decide_False).
  destruct (JoinBalance_one g (grp_names g) c) as (c' & Hj & Hnum & Hgs & Hl & Ha & Hb).
  { apply Hok. } { done. } { by eapply sharesServer_new. }
  set (ts2 := set_world (ChangeConfigTo c' (st_world ts1)) ts1).
  assert (Query (st_world ts2) = Some c') as Hq.
  { simpl. eapply Query_Change. rewrite Hw. apply Hok. }
  assert (test_ok (gids ++ [g]) c' ts2) as Hok'.
  { constructor; [done|done| | |done|done| |].
    - intros g'. rewrite Hgs. destruct (decide (g' = g)) as [ -> |Hne].
      + rewrite lookup_insert_eq, decide_True by set_solver. done.
      + rewrite lookup_insert_ne, (tk_groups _ _ _ Hok) by done.
        destruct (decide (g' ∈ gids)); [rewrite decide_True by set_solver|rewrite decide_False by set_solver]; done.
    - apply list.NoDup_app. split; [apply Hok|]. split; [|by apply list.NoDup_singleton]. set_solver.
    - apply Forall_app. split; [apply Hok|]. by constructor.
    - intros g' Hg'. simpl. rewrite Hgr. destruct (decide (g' = g)) as [ -> |Hne].
      + rewrite lookup_insert_eq. by exists sg.
      + rewrite lookup_insert_ne by done. apply (tk_running _ _ _ Hok). set_solver. }
  exists c', ts1, ts2. split; [done|]. split; [done|]. split.
  { unfold join. rewrite Hw, (tk_query _ _ _ Hok). obind. rewrite Copy_equal. obind.
    rewrite Hj. obind. unfold ts2. by rewrite Hw. }
  split.
  { unfold checkMember. rewrite Hq. obind. f_equal. apply IsMember_ok; [done..| |].
    - rewrite (tk_size _ _ _ Hok'), length_app. simpl. lia.
    - rewrite Hgs, lookup_insert_eq. by eexists. }
  by split_and!.
Qed.

Lemma joinGroups_ok new : ∀ gids c ts,
  test_ok gids c ts → NoDup (gids ++ new) → Forall (λ g, 0 < g) new → (length (gids ++ new) <= NShards)%nat →
  ∃ c' ts', joinGroups draw new ts = Some (true, ts') ∧ test_ok (gids ++ new) c' ts' ∧
    Num c' = Num c + len new ∧ st_ngid ts' = st_ngid ts.
Proof using All.
  induction new as [|g new IH]; intros gids c ts Hok Hnd Hpos Hlen.
  { exists c, ts. rewrite app_nil_r. split_and!; [done|done|simpl; lia|done]. }
  apply Forall_cons_1 in Hpos as [Hg Hpos]. rewrite length_app in Hlen. simpl in Hlen.
  assert (g ∉ gids) as Hn by (apply list.NoDup_app in Hnd as (_ & Hd & _); intros Hin; apply (Hd g Hin); by left).
  destruct (join_one gids c g ts Hok Hg Hn ltac:(lia)) as (c1 & ts1 & ts2 & H1 & H2 & H3 & H4 & Hok1 & Hnum & Hid).
  replace (gids ++ g :: new) with ((gids ++ [g]) ++ new) in * by (by rewrite <-app_assoc).
  destruct (IH _ _ _ Hok1 Hnd Hpos) as (c' & ts' & H5 & Hok' & Hnum' & Hid').
  { rewrite !length_app. simpl. lia. }
  exists c', ts'. simpl. rewrite H1. obind. rewrite H2. obind. rewrite H3. obind. rewrite H4. obind.
  split_and!; [done|done|simpl; lia|congruence].
Qed.

(** One group leaves. *)
Lemma leave_one gids c g ts :
  test_ok (g :: gids) c ts → gids ≠ [] →
  ∃ c' ts1 cfg', leave g ts = Some ts1 ∧ checkMember g ts1 = Some false ∧
    ExitGroup g (st_cfg ts1) = Some cfg' ∧ test_ok gids c' (set_cfg cfg' ts1) ∧ Num c' = Num c + 1.
Proof using All.
  intros Hok Hne. pose proof (tk_nodup _ _ _ Hok) as [Hn Hnd]%list.NoDup_cons.
  destruct (LeaveBalance_one g c) as (c' & Hj & Hnum & Hgs & Hl & Ha & Hb).
  { apply Hok. }
  { rewrite (tk_groups _ _ _ Hok), decide_True by (by left). by eexists. }
  { destruct gids as [|g' gids]; [done|]. intros He.
    assert (delete g (Groups c) !! g' = None) as Hd by (by rewrite He, lookup_empty).
    rewrite lookup_delete_ne, (tk_groups _ _ _ Hok), decide_True in Hd by set_solver. done. }
  set (ts1 := set_world (ChangeConfigTo c' (st_world ts)) ts).
  assert (Query (st_world ts1) = Some c') as Hq by (simpl; eapply Query_Change; apply Hok).
  destruct (tk_running _ _ _ Hok g) as (sg & Hsg & Hgok); [by left|].
  destruct (Shutdown_total (set_net (cfg_net (st_cfg ts)) sg)) as [sg' Hsh].
  { eapply grp_ok_frame; [exact Hgok|done|done]. }
  exists c', ts1. eexists. split.
  { unfold leave. rewrite (tk_query _ _ _ Hok). obind. rewrite Copy_equal. obind. rewrite Hj. by obind. }
  split.
  { unfold checkMember. rewrite Hq. obind. f_equal. apply IsMember_gone; [done|]. by rewrite Hgs, lookup_delete_eq. }
  split.
  { unfold ExitGroup, on_group, lookupGroup. change (st_cfg ts1) with (st_cfg ts).
    change (grps (st_cfg ts) !! (g : Z) = Some sg) in Hsg. rewrite Hsg.
    cbn [fmap option_fmap option_map]. obind. rewrite Hsh. by obind. }
  split; [|done]. constructor; [exact Hq|done| |done|done|done| |].
  - intros g'. rewrite Hgs. destruct (decide (g' = g)) as [ -> |Hne'].
    + by rewrite lookup_delete_eq, decide_False.
    + rewrite lookup_delete_ne, (tk_groups _ _ _ Hok) by done.
      destruct (decide (g' ∈ gids)); [rewrite decide_True by set_solver|rewrite decide_False by set_solver]; done.
  - by pose proof (tk_pos _ _ _ Hok) as [_ ?]%Forall_cons_1.
  - intros g' Hg'. simpl. assert (g' ≠ g) by (by intros ->).
    rewrite lookup_delete_ne, lookup_insert_ne by done. apply (tk_running _ _ _ Hok). by right.
Qed.

Lemma leaveGroups_ok old : ∀ keep c ts,
  test_ok (old ++ keep) c ts → keep ≠ [] →
  ∃ c' ts', leaveGroups old ts = Some (true, ts') ∧ test_ok keep c' ts' ∧ Num c' = Num c + len old.
Proof using All.
  induction old as [|g old IH]; intros keep c ts Hok Hne.
  { exists c, ts. split_and!; [done|done|simpl; lia]. }
  destruct (leave_one (old ++ keep) c g ts Hok) as (c1 & ts1 & cfg' & H1 & H2 & H3 & Hok1 & Hnum).
  { by destruct old, keep. }
  destruct (IH _ _ _ Hok1 Hne) as (c' & ts' & H4 & Hok' & Hnum').
  exists c', ts'. simpl. rewrite H1. obind. rewrite H2. obind. rewrite H3. obind.
  split_and!; [done|done|simpl; lia].
Qed.

Lemma test_ok_perm gids gids' c ts : gids ≡ₚ gids' → test_ok gids c ts → test_ok gids' c ts.
Proof.
  intros Hp [H1 H2 H3 H4 H5 H6 H7 H8]. constructor; try done.
  - intros g. rewrite H3. apply decide_ext. by rewrite Hp.
  - by rewrite <-Hp.
  - by rewrite <-Hp.
  - intros g. rewrite <-Hp. apply H8.
Qed.

(** The numbers of new groups. *)
Lemma groups_seq n : ∀ ts : ShardTest (W:=W),
  groups n ts = (seqZ (st_ngid ts) (Z.of_nat n), mkShardTest (st_ngid ts + Z.of_nat n) (st_cfg ts) (st_world ts)).
Proof.
  induction n as [|n IH]; intros ts; simpl; [by rewrite Z.add_0_r; destruct ts|].
  rewrite IH. simpl. rewrite (seqZ_cons (st_ngid ts)) by lia. unfold Z.succ. f_equal.
  - f_equal. f_equal; lia.
  - f_equal. lia.
Qed.

(** Comparing concrete names by computation is slow. *)
#[local] Opaque grp_names.

Lemma setup_ok (ts : ShardTest (W:=W)) :
  Query (st_world ts) = None →
  ∃ c ts', setupKVService draw ts = Some (Gid1, ts') ∧ test_ok [Gid1] c ts' ∧ Num c = 1 ∧
    st_ngid ts' = st_ngid ts.
Proof using All.
  intros Hq. destruct (startGroup_total Gid1 ts) as (ts1 & sg & H1 & Hw & Hid & Hgr & Hsg & Hnm).
  destruct (JoinBalance_one Gid1 (grp_names Gid1) MakeShardConfig) as (c & Hj & Hnum & Hgs & Hl & Ha & Hb).
  { apply length_replicate. } { apply lookup_empty. } { unfold sharesServer. cbn [Groups MakeShardConfig]. by rewrite map_to_list_empty. }
  exists c, (set_world (InitConfig c (st_world ts1)) ts1). unfold setupKVService. rewrite H1. obind. rewrite Hnm. obind.
  rewrite Hj. obind. clear Hj H1 Hnm. split; [done|]. split; [|split; [rewrite Hnum; reflexivity|exact Hid]]. constructor; [|exact Hl| | |exact Ha|exact Hb| |].
  - simpl. apply Query_Init. by rewrite Hw.
  - intros g. rewrite Hgs. simpl. destruct (decide (g = Gid1)) as [ -> |Hne].
    + rewrite lookup_insert_eq. rewrite decide_True; [reflexivity|by left].
    + rewrite lookup_insert_ne by congruence. rewrite decide_False; [apply lookup_empty|].
      intros ?%list_elem_of_singleton. congruence.
  - by apply list.NoDup_singleton.
  - by repeat constructor.
  - intros g ->%list_elem_of_singleton. exists sg. simpl. rewrite Hgr, lookup_insert_eq. by split.
Qed.

Lemma test_ok_check gids c ts : test_ok gids c ts → CheckConfig gids c = true.
Proof.
  intros Hok. apply CheckConfig_ok; [rewrite (tk_shards _ _ _ Hok); unfold NShards; lia|by eapply tk_dom|intros _|];
    apply Hok.
Qed.

Lemma test_ok_ngid gids c ts n :
  test_ok gids c ts → test_ok gids c (mkShardTest n (st_cfg ts) (st_world ts)).
Proof. by intros [H1 H2 H3 H4 H5 H6 H7 H8]. Qed.

(** C40. The tests in which many groups join and leave, with a controller that
    keeps the promises of its comments: after setupKVService any number of
    further groups, up to eleven, join - joinGroups returns true, the current
    configuration has the next number for each, and passes CheckConfig for group
    1 and the new ones - and then leave again, after which the configuration is
    one of group 1 alone; nothing panics or calls log.Fatalf on the way. *)
Theorem groups_join_and_leave n (ts : ShardTest (W:=W)) :
  Query (st_world ts) = None → st_ngid ts = Gid1 + 1 → (S n <= NShards)%nat →
  ∃ ts1 ts2 ts3 ts4 gids c3 c4,
    setupKVService draw ts = Some (Gid1, ts1) ∧ groups n ts1 = (gids, ts2) ∧ length gids = n ∧
    joinGroups draw gids ts2 = Some (true, ts3) ∧ Query (st_world ts3) = Some c3 ∧
    Num c3 = 1 + Z.of_nat n ∧ CheckConfig (Gid1 :: gids) c3 = true ∧
    leaveGroups gids ts3 = Some (true, ts4) ∧ Query (st_world ts4) = Some c4 ∧
    Num c4 = 1 + 2 * Z.of_nat n ∧ CheckConfig [Gid1] c4 = true.
Proof using All.
  intros Hq Hid Hn. destruct (setup_ok ts Hq) as (c1 & ts1 & H1 & Hok1 & Hnum1 & Hid1).
  rewrite Hid in Hid1. pose proof (groups_seq n ts1) as H2. rewrite Hid1 in H2.
  set (gids := seqZ (Gid1 + 1) (Z.of_nat n)) in *. set (ts2 := mkShardTest _ _ _) in H2.
  assert (length gids = n) as Hlen by (unfold gids; rewrite length_seqZ; lia).
  assert (∀ g, g ∈ gids → Gid1 < g) as Hg by (intros g ?%elem_of_seqZ; unfold Gid1 in *; lia).
  destruct (joinGroups_ok gids [Gid1] c1 ts2) as (c3 & ts3 & H3 & Hok3 & Hnum3 & _).
  { by apply test_ok_ngid. }
  { apply list.NoDup_app. split; [apply list.NoDup_singleton|]. split; [|apply NoDup_seqZ].
    intros g ->%list_elem_of_singleton Hin. apply Hg in Hin. lia. }
  { apply list.Forall_forall. intros g Hin. apply Hg in Hin. unfold Gid1 in *. lia. }
  { rewrite length_app. unfold Tgid in *. simpl. lia. }
  destruct (leaveGroups_ok gids [Gid1] c3 ts3) as (c4 & ts4 & H4 & Hok4 & Hnum4).
  { eapply test_ok_perm; [|exact Hok3]. by rewrite (Permutation_app_comm gids). }
  { done. }
  assert (Num c3 = 1 + Z.of_nat n ∧ Num c4 = 1 + 2 * Z.of_nat n) as [Hn3 Hn4] by (unfold Tgid in *; lia).
  exists ts1, ts2, ts3, ts4, gids, c3, c4.
  split_and!; [done..|apply Hok3|done|by eapply test_ok_check|done|apply Hok4|done|by eapply test_ok_check].
Qed.

(** A round of the first controller of partitionCtrler that is not interrupted
    brings the groups back to what they were. *)
Theorem ctrlRound_restores gids c (ts : ShardTest (W:=W)) :
  test_ok gids c ts → gids ≠ [] → (length gids < NShards)%nat → Forall (λ g, g < st_ngid ts) gids → 0 < st_ngid ts →
  ∃ c' ts', ctrlRound draw ts = Some (CtrlLeave, st_ngid ts, true, ts') ∧ test_ok gids c' ts' ∧ Num c' = Num c + 2.
Proof using All.
  intros Hok Hne Hlen Hlt Hpos. unfold ctrlRound. simpl. set (ts0 := mkShardTest _ _ _).
  assert (st_ngid ts ∉ gids) as Hn.
  { intros Hin. pose proof (proj1 (list.Forall_forall _ _) Hlt _ Hin). simpl in *. lia. }
  destruct (joinGroups_ok [st_ngid ts] gids c ts0) as (c1 & ts1 & H1 & Hok1 & Hnum1 & _).
  { by apply test_ok_ngid. }
  { apply list.NoDup_app. split; [apply Hok|]. split; [set_solver|apply list.NoDup_singleton]. }
  { by constructor. }
  { rewrite length_app. simpl. lia. }
  simpl in H1. rewrite H1. obind.
  assert (checkMember (st_ngid ts) ts1 = Some true) as ->.
  { unfold checkMember. rewrite (tk_query _ _ _ Hok1). obind. f_equal. apply IsMember_ok; [apply Hok1..| |].
    - rewrite (tk_size _ _ _ Hok1), length_app. simpl. lia.
    - rewrite (tk_groups _ _ _ Hok1), decide_True by set_solver. by eexists. }
  obind. destruct (leaveGroups_ok [st_ngid ts] gids c1 ts1) as (c2 & ts2 & H2 & Hok2 & Hnum2); [|done|].
  { eapply test_ok_perm; [|exact Hok1]. by rewrite Permutation_app_comm. }
  simpl in H2. rewrite H2. obind. exists c2, ts2. split_and!; [done|done|simpl in *; lia].
Qed.

End Proofs.

(** The skeleton's Query returns nil: the first group that joins ends the test
    with a panic. *)
Theorem skeleton_panics_on_join {W} draw gid gids (ts : ShardTest (W := Skeleton W)) :
  joinGroups draw (gid :: gids) ts = None.
Proof.
  simpl. destruct (startGroup draw gid ts) as [ts1|]; [|done]. obind.
  by destruct (GroupNames gid ts1).
Qed.

(** ** Instances *)

(** A controller that stores its configuration. *)
Record Stored := mkStored { stored : option ShardConfig }.

#[export] Instance stored_ctrler : ShardCtrler Stored := {
  InitController w := w;
  InitConfig cfg w := mkStored (Some cfg);
  ChangeConfigTo new w := mkStored (Some new);
  Query := stored
}.

#[export] Instance stored_sole : SoleCtrler Stored.
Proof. by constructor. Qed.

(** Names that the network does not have. *)
Definition draw_fresh (cfg : Config) : list (list string) * list (list string * nat) :=
  let l := fresh_list 18 (ends (cfg_net cfg)) in
  ([take 3 l; take 3 (drop 3 l); take 3 (drop 6 l)],
   [(take 3 (drop 9 l), 0%nat); (take 3 (drop 12 l), 1%nat); (take 3 (drop 15 l), 2%nat)]).

Lemma draw_fresh_ok : draw_ok draw_fresh.
Proof.
  intros cfg. unfold draw_fresh.
  pose proof (length_fresh_list 18 (ends (cfg_net cfg))) as Hl.
  pose proof (NoDup_fresh_list 18 (ends (cfg_net cfg))) as Hnd.
  assert (∀ e, e ∈ fresh_list 18 (ends (cfg_net cfg)) → e ∉ ends (cfg_net cfg)) as Hf
    by (intros e; apply fresh_list_is_fresh).
  revert Hl Hnd Hf. generalize (fresh_list 18 (ends (cfg_net cfg))). intros l Hl Hnd Hf.
  do 18 (destruct l as [|? l]; [discriminate Hl|]). destruct l; [|discriminate Hl].
  split; [reflexivity|]. split; [reflexivity|]. split; [by repeat constructor|]. split; [exact Hnd|exact Hf].
Qed.

Definition fresh_test : ShardTest := mkShardTest (Gid1 + 1) newConfig (mkStored None).

(** Eight groups, as in the tests. *)
Lemma groups_join_and_leave_witness :
  ∃ ts1 ts2 ts3 gids c3,
    setupKVService draw_fresh fresh_test = Some (Gid1, ts1) ∧ groups 8 ts1 = (gids, ts2) ∧
    joinGroups draw_fresh gids ts2 = Some (true, ts3) ∧ Query (st_world ts3) = Some c3 ∧ Num c3 = 9.
Proof.
  assert (Query (st_world fresh_test) = None) as Hq by reflexivity.
  destruct (groups_join_and_leave draw_fresh draw_fresh_ok 8 fresh_test Hq eq_refl ltac:(unfold NShards; lia))
    as (ts1 & ts2 & ts3 & ts4 & gids & c3 & c4 & H1 & H2 & _ & H3 & H4 & H5 & _).
  exists ts1, ts2, ts3, gids, c3. exact (conj H1 (conj H2 (conj H3 (conj H4 H5)))).
Defined.
