(* ===== verification/ConcurCtrler.v ===== *)
(** * Several controllers at the same time

    Models the goroutines of concurCtrler in src/6.5840/src/shardkv1/test.go:
    each makes a new group, lets it join through a controller of its own and leave
    again, until it is told to stop.  The goroutines run concurrently, one call of
    a controller or of the configuration of the test at a time; their groups and
    configurations are those of ShardTests.v and ShardCfg.v.  The repository's
    controller, shardctrler/shardctrler.go, is a skeleton that keeps no
    configuration; its comments say what one has to do, and [SharedCtrler] states
    that for controllers that others may supersede: a change takes effect from the
    current configuration to the next one or not at all, and one whose controller
    has been superseded may be completed later, in particular by [InitController],
    which implements recovery.  Under this promise no goroutine ever panics or calls
    log.Fatalf, every shard belongs to a group that has not been shut down, and the
    goroutines can be stopped; under the promise [SoleCtrler] of a controller that
    is alone, that the configuration becomes the one asked for, the test can be
    ended by log.Fatalf. *)

From stdpp Require Import pretty.
From S2P Require Import Prelude Numerals Gob Persister KVRpc LabRpc Tester TestConfig ServiceTests ShardCfg ShardKv ShardTests.

(** [asked] are the changes that have been asked for and may still be completed.
    A change takes effect from the current configuration to the next, or not at
    all; when its controller is superseded before that, a later call may complete
    it. *)
Class SharedCtrler (W : Type) `{!ShardCtrler W} := {
  asked : W → ShardConfig → Prop;
  Query_Change_shared cfg new w : Query w = Some cfg →
    Query (ChangeConfigTo new w) = Some cfg ∨
    ∃ next, (next = new ∨ asked w next) ∧ Num next = Num cfg + 1 ∧
      Query (ChangeConfigTo new w) = Some next;
  asked_Change new w next : asked (ChangeConfigTo new w) next → next = new ∨ asked w next;
  Query_Init_shared cfg w : Query w = Some cfg →
    Query (InitController w) = Some cfg ∨
    ∃ next, asked w next ∧ Num next = Num cfg + 1 ∧ Query (InitController w) = Some next;
  asked_Init w next : asked (InitController w) next → asked w next
}.

(** ** One goroutine *)

(** At the select, with the number of its group before each of its calls: of
    InitController, MakeGroupStart, the Query and the ChangeConfigTo of [join], the
    checkMember of [joinGroups], its own checkMember, the Query and the
    ChangeConfigTo of [leave], the checkMember of [leaveGroups]; returned. *)
Inductive CtrlPC :=
| KSelect
| KInit (gid : Tgid)
| KStart (gid : Tgid)
| KJoinQuery (gid : Tgid)
| KJoinChange (gid : Tgid) (new : ShardConfig)
| KJoinCheck (gid : Tgid)
| KCheck (gid : Tgid)
| KLeaveQuery (gid : Tgid)
| KLeaveChange (gid : Tgid) (new : ShardConfig)
| KLeaveCheck (gid : Tgid)
| KStopped.

(** The number of goroutines ([N]). *)
Definition ConcurN : nat := 4.

Section Goroutine.
Context {W : Type} `{!ShardCtrler W} (draw : Config → list (list string) * list (list string * nat)).

(** The next call of a goroutine; [None] is a panic or [log.Fatalf]. *)
Definition ctrl_step (p : CtrlPC) (ts : ShardTest (W:=W)) : option (CtrlPC * ShardTest (W:=W)) :=
  match p with
  | KSelect => let '(ngid, ts) := newGid ts in Some (KInit ngid, ts)
  | KInit gid => Some (KStart gid, set_world (InitController (st_world ts)) ts)
  | KStart gid => ts ← startGroup draw gid ts; Some (KJoinQuery gid, ts)
  | KJoinQuery gid =>
      srvs ← GroupNames gid ts;
      cfg ← Query (st_world ts);
      newcfg ← Copy cfg;
      o ← JoinBalance [(gid, srvs)] newcfg;
      match o with Returned true newcfg => Some (KJoinChange gid newcfg, ts) | _ => None end
  | KJoinChange gid new => Some (KJoinCheck gid, set_world (ChangeConfigTo new (st_world ts)) ts)
  | KJoinCheck gid => _ ← checkMember gid ts; Some (KCheck gid, ts)
  | KCheck gid => ok ← checkMember gid ts; Some (if (ok : bool) then KLeaveQuery gid else KSelect, ts)
  | KLeaveQuery gid =>
      cfg ← Query (st_world ts);
      newcfg ← Copy cfg;
      o ← LeaveBalance [gid] newcfg;
      match o with Returned true newcfg => Some (KLeaveChange gid newcfg, ts) | _ => None end
  | KLeaveChange gid new => Some (KLeaveCheck gid, set_world (ChangeConfigTo new (st_world ts)) ts)
  | KLeaveCheck gid =>
      ok ← checkMember gid ts;
      if (ok : bool) then Some (KSelect, ts)
      else cfg ← ExitGroup gid (st_cfg ts); Some (KSelect, set_cfg cfg ts)
  | KStopped => None
  end.

Fixpoint ctrl_steps (n : nat) (p : CtrlPC) (ts : ShardTest (W:=W)) : option (CtrlPC * ShardTest (W:=W)) :=
  match n with
  | O => Some (p, ts)
  | S n => '(p, ts) ← ctrl_step p ts; ctrl_steps n p ts
  end.

(** Uninterrupted, the calls are those of [joinGroups] and [leaveGroups]. *)
Lemma ctrl_steps_join gid ts :
  ctrl_steps 4 (KStart gid) ts = '(_, ts') ← joinGroups draw [gid] ts; Some (KCheck gid, ts').
Proof.
  simpl. destruct (startGroup draw gid ts) as [ts1|]; [|done]. simpl.
  destruct (GroupNames gid ts1) as [srvs|]; [|done]. simpl. unfold join.
  destruct (Query (st_world ts1)) as [cfg|]; [|done]. simpl. rewrite Copy_equal. simpl.
  destruct (JoinBalance _ cfg) as [[|[] new]|]; try done. simpl.
  destruct (checkMember gid _) as [[]|]; done.
Qed.

Lemma ctrl_steps_leave gid ts :
  ctrl_steps 3 (KLeaveQuery gid) ts = '(_, ts') ← leaveGroups [gid] ts; Some (KSelect, ts').
Proof.
  simpl. unfold leave. destruct (Query (st_world ts)) as [cfg|]; [|done]. simpl. rewrite Copy_equal. simpl.
  destruct (LeaveBalance _ cfg) as [[|[] new]|]; try done. simpl.
  destruct (checkMember gid _) as [[]|]; [done| |done]. simpl. by destruct (ExitGroup gid _).
Qed.

(** ** The goroutines of the test *)

Record Concur := mkConcur { cc_threads : list CtrlPC; cc_test : ShardTest (W:=W) }.

(** A goroutine makes its next call, or receives the message to stop. *)
Inductive concur_step (s : Concur) : Concur → Prop :=
| cs_call i p p' ts' : cc_threads s !! i = Some p → ctrl_step p (cc_test s) = Some (p', ts') →
    concur_step s (mkConcur (<[i := p']> (cc_threads s)) ts')
| cs_stop i : cc_threads s !! i = Some KSelect →
    concur_step s (mkConcur (<[i := KStopped]> (cc_threads s)) (cc_test s)).

(** What it takes to bring a goroutine back to its select. *)
Definition calls_left (p : CtrlPC) : nat :=
  match p with
  | KInit _ => 9 | KStart _ => 8 | KJoinQuery _ => 7 | KJoinChange _ _ => 6 | KJoinCheck _ => 5
  | KCheck _ => 4 | KLeaveQuery _ => 3 | KLeaveChange _ _ => 2 | KLeaveCheck _ => 1
  | KSelect | KStopped => 0
  end.

Lemma ctrl_step_less p ts p' ts' :
  ctrl_step p ts = Some (p', ts') → p ≠ KSelect → (calls_left p' < calls_left p)%nat.
Proof.
  intros Hs Hne. destruct p; simpl in Hs; try done; repeat (case_match || simplify_option_eq); simpl; try lia.
Qed.

End Goroutine.

(** ** A member stays a member until it leaves *)

Lemma moveOne_keeps mg lg l g :
  (2 <= cnt l mg)%nat → g ∈ l → g ∈ moveOne mg lg l.
Proof.
  intros Hc Hg. destruct (moveOne_spec mg lg l) as (a & b & -> & ->); [apply cnt_elem; lia|].
  rewrite cnt_app, cnt_cons, decide_True in Hc by done.
  destruct (decide (g = mg)) as [->|Hne]; [|set_solver].
  destruct (decide (0 < cnt a mg)%nat) as [Ha|Ha]; [apply cnt_elem in Ha; set_solver|].
  assert (mg ∈ b) as Hb by (apply cnt_elem; lia). set_solver.
Qed.

Lemma balanceLoop_keeps fuel : ∀ c c' g,
  (length (Shards c) < 257)%nat → Groups c ≠ ∅ →
  balanceLoop fuel c = Some c' → g ∈ Shards c → g ∈ Shards c'.
Proof.
  induction fuel as [|fuel IH]; intros c c' g Hlen Hne Hb Hg; [done|]. simpl in Hb.
  destruct (analyze c) as [[[mg mn] lg] ln] eqn:Ha.
  destruct (analyze_spec _ _ _ _ _ Hlen Hne Ha) as (_ & -> & _ & -> & _).
  destruct (_ <? _) eqn:Hlt; bool_to_prop; [by simplify_eq|].
  destruct (move_pairs mg lg (Shards c)) as (_ & Hl & _); [lia|].
  apply (IH _ _ g) in Hb; simpl; [done|lia|done|]. apply moveOne_keeps; [lia|done].
Qed.

Lemma Rebalance_keeps c c' g :
  length (Shards c) = NShards → Rebalance c = Some c' → g ∈ Shards c → is_Some (Groups c !! g) →
  g ∈ Shards c'.
Proof.
  intros Hlen Hr Hg Hm. assert (Groups c ≠ ∅) as Hne by (intros He; rewrite He, lookup_empty in Hm; by destruct Hm).
  unfold Rebalance in Hr.
  assert (size (Groups c) ≠ 0%nat) by (by rewrite map_size_non_empty_iff).
  rewrite (proj2 (Nat.ltb_ge _ _)) in Hr by lia.
  destruct (assignLoop_spec (Shards c) 0 c []) as ((Hn & Hgs & Hl) & _ & Hkeep);
    [done|done|constructor|rewrite Hlen; unfold NShards; lia|done|].
  apply list_elem_of_lookup_1 in Hg as [i Hi].
  eapply balanceLoop_keeps; [| |exact Hr|].
  - rewrite Hl, Hlen. unfold NShards. lia.
  - by rewrite Hgs.
  - eapply list_elem_of_lookup_2. by apply Hkeep.
Qed.

Lemma JoinBalance_keeps gid srvs c c' g :
  length (Shards c) = NShards → assigned c → JoinBalance [(gid, srvs)] c = Some (Returned true c') →
  g ∈ Shards c → g ∈ Shards c'.
Proof.
  intros Hlen Has Hj Hg. unfold JoinBalance, Join in Hj. simpl in Hj.
  destruct (Groups c !! gid) eqn:Hgid; [done|]. destruct (sharesServer c srvs); [done|].
  destruct (Rebalance _) as [c1|] eqn:Hr; [|done]. simplify_eq/=.
  eapply Rebalance_keeps; [|exact Hr|done|]; [done|]. simpl.
  apply (proj1 (list.Forall_forall _ _) Has) in Hg as [xs Hxs]. destruct (decide (g = gid)) as [->|Hne].
  - rewrite lookup_insert_eq. by eexists.
  - rewrite lookup_insert_ne by done. by eexists.
Qed.

Lemma LeaveBalance_keeps gid c c' g :
  length (Shards c) = NShards → assigned c → LeaveBalance [gid] c = Some (Returned true c') →
  g ∈ Shards c → g ≠ gid → g ∈ Shards c'.
Proof.
  intros Hlen Has Hj Hg Hne. unfold LeaveBalance, Leave in Hj. simpl in Hj.
  destruct (Groups c !! gid) eqn:Hgid; [|done].
  destruct (Rebalance _) as [c1|] eqn:Hr; [|done]. simplify_eq/=.
  eapply Rebalance_keeps; [|exact Hr|done|]; [done|]. simpl. rewrite lookup_delete_ne by done.
  by apply (proj1 (list.Forall_forall _ _) Has).
Qed.

(** ** What the goroutines can rely on *)

Section Proofs.
Context {W : Type} `{!ShardCtrler W} `{!SharedCtrler W}.
Context (draw : Config → list (list string) * list (list string * nat)) (Hdraw : draw_ok draw).

(** The group runs, with the names of its number. *)
Definition runs (ts : ShardTest (W:=W)) (g : Tgid) : Prop :=
  ∃ sg, grps (st_cfg ts) !! g = Some sg ∧ grp_ok sg ∧ servernames sg = grp_names g.

(** A configuration of the running groups [gids], numbered before the next new
    group. *)
Record cfg_ok (gids : list Tgid) (c : ShardConfig) (ts : ShardTest (W:=W)) : Prop := mkCfgOk {
  ck_shards : length (Shards c) = NShards;
  ck_groups g : Groups c !! g = if decide (g ∈ gids) then Some (grp_names g) else None;
  ck_nodup : NoDup gids;
  ck_assigned : assigned c;
  ck_balanced : balanced c;
  ck_first : Gid1 ∈ gids;
  ck_running : Forall (λ g, 0 < g < st_ngid ts ∧ ∃ sg, grps (st_cfg ts) !! g = Some sg ∧ grp_ok sg) gids
}.

(** A change that has been asked for and may yet take effect. *)
Definition live (c : ShardConfig) (ts : ShardTest (W:=W)) (n : ShardConfig) : Prop :=
  asked (st_world ts) n ∧ Num n = Num c + 1.

(** The configuration [c] is the current one, of the groups [gids], and the
    changes that may yet take effect are as good. *)
Record shared_ok (gids : list Tgid) (c : ShardConfig) (ts : ShardTest (W:=W)) : Prop := mkSharedOk {
  so_query : Query (st_world ts) = Some c;
  so_cfg : cfg_ok gids c ts;
  so_asked n : asked (st_world ts) n → Num n <= Num c + 1;
  so_live n : live c ts n → ∃ gids', cfg_ok gids' n ts
}.

Lemma shared_test_ok gids c ts : shared_ok gids c ts → test_ok gids c ts.
Proof.
  intros [Hq [] _ _]. constructor; try done; [by eapply list.Forall_impl; [done|]; simpl; lia|].
  intros g Hg. by apply (proj1 (list.Forall_forall _ _) ck_running0) in Hg as [_ ?].
Qed.

(** The group of a goroutine. *)
Definition group_of (p : CtrlPC) : option Tgid :=
  match p with
  | KInit g | KStart g | KJoinQuery g | KJoinChange g _ | KJoinCheck g | KCheck g
  | KLeaveQuery g | KLeaveChange g _ | KLeaveCheck g => Some g
  | KSelect | KStopped => None
  end.

(** A configuration that a goroutine is about to ask for: if it is next, it was
    made from the current one. *)
Definition pending (made : ShardConfig → Prop) (c new : ShardConfig) : Prop :=
  Num new <= Num c + 1 ∧ (Num new = Num c + 1 → made new).

Definition outside (g : Tgid) (c : ShardConfig) : Prop := Groups c !! g = None.
Definition inside (g : Tgid) (c : ShardConfig) : Prop := g ∈ Shards c.

(** Of the current configuration and whatever may come next. *)
Definition now_and_next (Q : ShardConfig → Prop) (c : ShardConfig) (ts : ShardTest (W:=W)) : Prop :=
  Q c ∧ ∀ n, live c ts n → Q n.

(** What a goroutine knows of its group. *)
Definition knows (c : ShardConfig) (ts : ShardTest (W:=W)) (p : CtrlPC) : Prop :=
  match p with
  | KSelect | KStopped => True
  | KInit g | KStart g => now_and_next (outside g) c ts
  | KJoinQuery g => now_and_next (outside g) c ts ∧ runs ts g
  | KJoinChange g new =>
      now_and_next (outside g) c ts ∧ runs ts g ∧
      pending (λ new, JoinBalance [(g, grp_names g)] c = Some (Returned true new)) c new
  | KJoinCheck g | KCheck g => (inside g c → now_and_next (inside g) c ts) ∧ runs ts g
  | KLeaveQuery g => now_and_next (inside g) c ts ∧ runs ts g
  | KLeaveChange g new =>
      now_and_next (inside g) c ts ∧ runs ts g ∧
      pending (λ new, LeaveBalance [g] c = Some (Returned true new)) c new
  | KLeaveCheck g =>
      (now_and_next (outside g) c ts ∨ inside g c ∧ ∀ n, live c ts n → inside g n ∨ outside g n) ∧ runs ts g
  end.

Definition owns (ts : ShardTest (W:=W)) (p : CtrlPC) : Prop :=
  ∀ g, group_of p = Some g → Gid1 < g < st_ngid ts.

Definition thread_ok c ts (p : CtrlPC) : Prop := owns ts p ∧ knows c ts p.

(** Only the groups that are [mine] join, leave or lose their last shard. *)
Definition respects (mine : Tgid → Prop) (c n : ShardConfig) : Prop :=
  ∀ g, ¬ mine g → (inside g c → inside g n) ∧ (outside g c → outside g n).

(** What a goroutine does to the others: it asks for changes to its own group, and
    one of the changes that may take effect does, or none; once one does, what was
    asked for before is too late. *)
Definition evolves (mine : Tgid → Prop) (c : ShardConfig) (ts : ShardTest (W:=W)) (c' : ShardConfig)
    (ts' : ShardTest (W:=W)) : Prop :=
  (c' = c ∧ ∀ n, live c ts' n → live c ts n ∨ respects mine c n) ∨
  (Num c < Num c' ∧ (live c ts c' ∨ respects mine c c') ∧ ∀ n, ¬ live c' ts' n).

Record interferes (mine : Tgid → Prop) (c : ShardConfig) (ts : ShardTest (W:=W))
    (c' : ShardConfig) (ts' : ShardTest (W:=W)) : Prop := mkInterferes {
  if_ngid : st_ngid ts <= st_ngid ts';
  if_runs g : ¬ mine g → runs ts g → runs ts' g;
  if_cfg : evolves mine c ts c' ts'
}.

Lemma now_and_next_late (Q : ShardConfig → Prop) c ts : Q c → (∀ n, ¬ live c ts n) → now_and_next Q c ts.
Proof. intros HQ Hn. split; [done|]. intros n Hl. by destruct (Hn n). Qed.

Lemma now_and_next_evolves Q mine c ts c' ts' :
  evolves mine c ts c' ts' → (∀ n, respects mine c n → Q c → Q n) →
  now_and_next Q c ts → now_and_next Q c' ts'.
Proof.
  intros [[-> Hn]|(_ & Hc & Hn)] Hr [HQ Hnext].
  - split; [done|]. intros n [Hl|Hl]%Hn; auto.
  - apply now_and_next_late; [|done]. destruct Hc; auto.
Qed.

Lemma pending_evolves made made' mine c ts c' ts' new :
  evolves mine c ts c' ts' → (c' = c → ∀ n, made n → made' n) → pending made c new → pending made' c' new.
Proof.
  intros [[-> _]|(Hlt & _)] Hm [Hle Heq]; split; [lia| |lia|].
  - intros ?. by apply Hm, Heq.
  - intros ?. lia.
Qed.

Lemma thread_ok_interferes mine c ts c' ts' p :
  interferes mine c ts c' ts' → (∀ g, group_of p = Some g → ¬ mine g) →
  thread_ok c ts p → thread_ok c' ts' p.
Proof.
  intros [Hng Hruns Hev] Hmine [Hown Hk]. split.
  { intros g Hg. specialize (Hown g Hg). lia. }
  assert (∀ g, ¬ mine g → now_and_next (inside g) c ts → now_and_next (inside g) c' ts') as Hin.
  { intros g Hg. eapply now_and_next_evolves; [done|]. intros n Hr. by apply Hr. }
  assert (∀ g, ¬ mine g → now_and_next (outside g) c ts → now_and_next (outside g) c' ts') as Hout.
  { intros g Hg. eapply now_and_next_evolves; [done|]. intros n Hr. by apply Hr. }
  assert (∀ g, (inside g c → now_and_next (inside g) c ts) → ¬ mine g →
    inside g c' → now_and_next (inside g) c' ts') as Hcheck.
  { intros g Hg Hm Hc'. pose proof Hev as [[-> _]|(_ & _ & Hn)]; [auto|by apply now_and_next_late]. }
  destruct p as [|g|g|g|g new|g|g|g|g new|g|]; simpl in *; try done; specialize (Hmine g eq_refl);
    try (by apply Hout).
  - destruct Hk. auto.
  - destruct Hk as (Hn & Hr & Hp). split; [auto|]. split; [auto|].
    eapply pending_evolves; [done| |exact Hp]. by intros ->.
  - destruct Hk. auto.
  - destruct Hk. auto.
  - destruct Hk. auto.
  - destruct Hk as (Hn & Hr & Hp). split; [auto|]. split; [auto|].
    eapply pending_evolves; [done| |exact Hp]. by intros ->.
  - destruct Hk as [[Hk|[Hg Hk]] Hr]; (split; [|auto]); [left; auto|].
    destruct Hev as [[-> Hn]|(_ & [Hc|Hc] & Hn)].
    + right. split; [done|]. intros n [?|Hrs]%Hn; [auto|]. left. by apply Hrs.
    + destruct (Hk _ Hc); [right|left; by apply now_and_next_late]. split; [done|]. intros n Hl. by destruct (Hn n).
    + right. split; [by apply Hc|]. intros n Hl. by destruct (Hn n).
Qed.

(** The invariant: what all goroutines know, and that their groups differ. *)
Record concur_inv (s : Concur (W:=W)) (gids : list Tgid) (c : ShardConfig) : Prop := mkConcurInv {
  ci_shared : shared_ok gids c (cc_test s);
  ci_threads i p : cc_threads s !! i = Some p → thread_ok c (cc_test s) p;
  ci_distinct i j p q g : cc_threads s !! i = Some p → cc_threads s !! j = Some q →
    group_of p = Some g → group_of q = Some g → i = j
}.

(** A step that leaves the configuration alone, and asks for nothing. *)
Lemma interferes_same mine c ts ts' :
  st_world ts' = st_world ts → st_ngid ts <= st_ngid ts' → (∀ g, ¬ mine g → runs ts g → runs ts' g) →
  interferes mine c ts c ts'.
Proof. intros Hw. constructor; try done; auto. left. split; [done|]. intros n. unfold live. rewrite Hw. auto. Qed.

(** A call of one goroutine returns, and the others are not disturbed. *)
Definition call_ok c ts (p : CtrlPC) : Prop :=
  ∃ p' ts' gids' c', ctrl_step draw p ts = Some (p', ts') ∧ shared_ok gids' c' ts' ∧
    interferes (λ g, group_of p' = Some g ∨ group_of p = Some g) c ts c' ts' ∧
    thread_ok c' ts' p' ∧
    (∀ g, group_of p' = Some g → group_of p = Some g ∨ g = st_ngid ts).

(** *** Changes of the state *)

Lemma outside_gids gids c ts g : cfg_ok gids c ts → outside g c ↔ g ∉ gids.
Proof. intros Hc. unfold outside. rewrite (ck_groups _ _ _ Hc). by case_decide. Qed.

Lemma inside_gids gids c ts g : cfg_ok gids c ts → inside g c → g ∈ gids.
Proof.
  intros Hc Hg. apply (proj1 (list.Forall_forall _ _) (ck_assigned _ _ _ Hc)) in Hg as [xs Hxs].
  rewrite (ck_groups _ _ _ Hc) in Hxs. by case_decide.
Qed.

Lemma cfg_ok_frame gids c ts ts' :
  cfg_ok gids c ts → st_ngid ts <= st_ngid ts' →
  (∀ g, g ∈ gids → grps (st_cfg ts') !! g = grps (st_cfg ts) !! g) → cfg_ok gids c ts'.
Proof.
  intros [] Hid Hg. constructor; try done. apply list.Forall_forall. intros g Hin. rewrite Hg by done.
  apply (proj1 (list.Forall_forall _ _) ck_running0) in Hin as [? ?]. split; [lia|done].
Qed.

(** Groups start, or stop, that are in no configuration. *)
Lemma shared_ok_frame gids c ts ts' :
  shared_ok gids c ts → st_world ts' = st_world ts → st_ngid ts <= st_ngid ts' →
  (∀ g, grps (st_cfg ts') !! g = grps (st_cfg ts) !! g ∨ now_and_next (outside g) c ts) → shared_ok gids c ts'.
Proof.
  intros [Hq Hc Ha Hl] Hw Hid Hg. constructor; rewrite ?Hw; try done.
  - eapply cfg_ok_frame; [done|done|]. intros g Hin. destruct (Hg g) as [|[Hout _]]; [done|].
    by apply (outside_gids _ _ _ g Hc) in Hout.
  - unfold live. rewrite Hw. intros n Hn. destruct (Hl n Hn) as [gids' Hc']. exists gids'.
    eapply cfg_ok_frame; [done|done|]. intros g Hin. destruct (Hg g) as [|[_ Hout]]; [done|].
    specialize (Hout n Hn). by apply (outside_gids _ _ _ g Hc') in Hout.
Qed.

(** The configuration stays, and more may have been asked for. *)
Lemma shared_ok_asked gids c ts w :
  shared_ok gids c ts → Query w = Some c →
  (∀ n, asked w n → asked (st_world ts) n ∨
    Num n <= Num c + 1 ∧ (Num n = Num c + 1 → ∃ gids', cfg_ok gids' n ts)) →
  shared_ok gids c (set_world w ts).
Proof.
  intros [Hq Hc Ha Hl] Hw Hn. assert (∀ gids' n, cfg_ok gids' n ts → cfg_ok gids' n (set_world w ts)) as Hok
    by (intros ? ? []; by constructor).
  constructor; [done|auto| |].
  - intros n [Hold|[? _]]%Hn; auto.
  - intros n [Has He]. destruct (Hn n Has) as [Hold|[_ Hnew]].
    + destruct (Hl n (conj Hold He)) as [gids' ?]. exists gids'. auto.
    + destruct (Hnew He) as [gids' ?]. exists gids'. auto.
Qed.

(** The configuration becomes the next one. *)
Lemma shared_ok_next gids c ts w :
  cfg_ok gids c ts → Query w = Some c → (∀ n, asked w n → Num n <= Num c) → shared_ok gids c (set_world w ts).
Proof.
  intros Hc Hw Hn. constructor; [done|by destruct Hc; constructor| |].
  - intros n Has. specialize (Hn n Has). lia.
  - intros n [Has ?]. specialize (Hn n Has). lia.
Qed.

Lemma lookupGroup_grps cfg (g : Tgid) sg :
  grps cfg !! g = Some sg → is_Some (lookupGroup g cfg) ∧ SrvNames <$> lookupGroup g cfg = Some (servernames sg).
Proof.
  intros Hg. change (grps cfg !! (g : Z) = Some sg) in Hg. unfold lookupGroup. rewrite Hg. split; [by eexists|done].
Qed.

Lemma GroupNames_grps (ts : ShardTest (W:=W)) g sg :
  grps (st_cfg ts) !! g = Some sg → GroupNames g ts = Some (servernames sg).
Proof. by intros [_ H]%lookupGroup_grps. Qed.

Lemma runs_names ts g : runs ts g → GroupNames g ts = Some (grp_names g).
Proof. intros (sg & Hg & _ & <-). by apply GroupNames_grps. Qed.

(** A call of [ChangeConfigTo], whose change is good and respects the others. *)
Lemma change_ok mine gids c ts new :
  shared_ok gids c ts →
  pending (λ new, (∃ gids', cfg_ok gids' new ts) ∧ respects mine c new) c new →
  let ts' := set_world (ChangeConfigTo new (st_world ts)) ts in
  ∃ gids' c', shared_ok gids' c' ts' ∧ interferes mine c ts c' ts' ∧
    ((c' = c ∧ ∀ n, live c ts' n → live c ts n ∨ n = new) ∨
     ((live c ts c' ∨ c' = new) ∧ Num c' = Num c + 1 ∧ ∀ n, ¬ live c' ts' n)).
Proof.
  intros Hs [Hle Hnew] ts'. pose proof (asked_Change new (st_world ts)) as Hask.
  destruct (Query_Change_shared c new (st_world ts) (so_query _ _ _ Hs)) as [Hq|(c' & Hc' & Hnum & Hq)].
  - assert (∀ n, live c ts' n → live c ts n ∨ n = new) as Hl.
    { intros n [[->|Has]%Hask Hn]; [by right|by left]. }
    exists gids, c. split.
    { apply shared_ok_asked; [done|done|]. intros n [->|?]%Hask; [right|by left]. split; [done|]. intros ?. by apply Hnew. }
    split; [|by left]. constructor; [done|done|]. left. split; [done|].
    intros n Hn. destruct (Hl n Hn) as [?| ->]; [by left|right]. by apply Hnew, Hn.
  - assert (∀ n, asked (st_world ts') n → Num n <= Num c') as Hlate.
    { intros n [->|Has]%Hask; [lia|]. apply (so_asked _ _ _ Hs) in Has. lia. }
    assert (∀ n, ¬ live c' ts' n) as Hnone by (intros n [Has ?]; specialize (Hlate n Has); lia).
    assert (live c ts c' ∨ c' = new) as Hfrom by (destruct Hc'; [by right|by left]).
    assert (∃ gids', cfg_ok gids' c' ts) as [gids' Hok].
    { destruct Hfrom as [Hl| ->]; [by eapply so_live|by apply Hnew]. }
    exists gids', c'. split; [by apply shared_ok_next|]. split; [|right; by split_and!].
    constructor; [done|done|]. right. split; [lia|]. split; [|done].
    destruct Hfrom as [Hl| ->]; [by left|right; by apply Hnew].
Qed.

(** *** The calls *)

Lemma select_ok gids c ts : shared_ok gids c ts → call_ok c ts KSelect.
Proof.
  intros Hs. assert (∀ gids' n, cfg_ok gids' n ts → outside (st_ngid ts) n ∧ Gid1 < st_ngid ts) as Hfresh.
  { intros gids' n Hc. pose proof (proj1 (list.Forall_forall _ _) (ck_running _ _ _ Hc)) as Hr. split.
    - apply (outside_gids gids' n ts _ Hc). intros Hin. apply Hr in Hin as [? _]. lia.
    - apply Hr, Hc. }
  exists (KInit (st_ngid ts)). do 3 eexists. split; [done|]. split.
  { eapply shared_ok_frame; [exact Hs|done|simpl; lia|by left]. }
  split; [apply interferes_same; [done|simpl; lia|done]|].
  split; [split|].
  - intros g [= <-]. simpl. destruct (Hfresh _ _ (so_cfg _ _ _ Hs)). lia.
  - split; [by apply (Hfresh gids), Hs|]. intros n Hn. destruct (so_live _ _ _ Hs n Hn) as [gids' Hc]. by apply (Hfresh gids').
  - intros g [= <-]. by right.
Qed.

Lemma init_ok gids c ts g :
  shared_ok gids c ts → thread_ok c ts (KInit g) → call_ok c ts (KInit g).
Proof.
  intros Hs Hk. pose proof (asked_Init (st_world ts)) as Hask. set (ts' := set_world (InitController (st_world ts)) ts).
  assert (∃ gids' c', shared_ok gids' c' ts' ∧ ∀ mine, interferes mine c ts c' ts') as (gids' & c' & Hs' & Hint).
  { destruct (Query_Init_shared c (st_world ts) (so_query _ _ _ Hs)) as [Hq|(c' & Hc' & Hnum & Hq)].
    - exists gids, c. split; [apply shared_ok_asked; [done|done|intros n ?%Hask; by left]|].
      intros mine. constructor; [done|done|]. left. split; [done|]. intros n [Has Hn]. left. split; [by apply Hask|done].
    - destruct (so_live _ _ _ Hs c' (conj Hc' Hnum)) as [gids' Hok].
      assert (∀ n, asked (st_world ts') n → Num n <= Num c') as Hlate.
      { intros n Has%Hask. apply (so_asked _ _ _ Hs) in Has. lia. }
      exists gids', c'. split; [by apply shared_ok_next|]. intros mine. constructor; [done|done|]. right.
      split; [lia|]. split; [by left|]. intros n [Has ?]. specialize (Hlate n Has). lia. }
  exists (KStart g), ts', gids', c'. split; [done|]. split; [done|]. split; [apply Hint|].
  split; [|auto]. apply (thread_ok_interferes (λ _, False) c ts c' ts' (KInit g)); [apply Hint|by intros ? _ []|done].
Qed.

Lemma start_ok gids c ts g :
  shared_ok gids c ts → thread_ok c ts (KStart g) → call_ok c ts (KStart g).
Proof using Hdraw.
  intros Hs [Ho Hk]. destruct (startGroup_total draw Hdraw g ts) as (ts' & sg & H1 & Hw & Hid & Hgr & Hok & Hnm).
  assert (runs ts' g) as Hrun.
  { assert (grps (st_cfg ts') !! g = Some sg) as Hsg by by rewrite Hgr, lookup_insert_eq.
    exists sg. split; [done|]. split; [done|]. rewrite (GroupNames_grps _ _ _ Hsg) in Hnm. by apply (inj Some) in Hnm. }
  exists (KJoinQuery g), ts', gids, c. split; [simpl; by rewrite H1|]. split.
  { eapply shared_ok_frame; [exact Hs|done|lia|]. intros g'. rewrite Hgr.
    destruct (decide (g' = g)) as [->|Hne]; [by right|left; by apply lookup_insert_ne]. }
  split.
  { apply interferes_same; [done|lia|]. intros g' Hne (sg' & Hg' & H). exists sg'. rewrite Hgr.
    rewrite lookup_insert_ne; [done|]. intros ->. apply Hne. by left. }
  split; [|auto]. split; [intros g' Hg'; rewrite Hid; by apply Ho|]. split; [|done].
  unfold now_and_next, live. rewrite Hw. apply Hk.
Qed.

(** The configuration with a group that joins. *)
Lemma join_next gids c ts (g : Tgid) :
  shared_ok gids c ts → Gid1 < g < st_ngid ts → outside g c → runs ts g →
  ∃ new, JoinBalance [(g, grp_names g)] c = Some (Returned true new) ∧ Num new = Num c + 1 ∧
    (∃ gids', cfg_ok gids' new ts) ∧ respects (λ x, x = g) c new.
Proof.
  intros Hs Hlt Hout Hr. pose proof (so_cfg _ _ _ Hs) as Hc. pose proof (proj1 (outside_gids _ _ _ g Hc) Hout) as Hn.
  destruct (JoinBalance_one g (grp_names g) c) as (new & Hj & Hnum & Hgs & Hl & Ha & Hb); [apply Hc|done| |].
  { eapply sharesServer_new; [by apply shared_test_ok| |done]. unfold Gid1 in Hlt. lia. }
  exists new. split; [done|]. split; [done|]. split.
  - exists (gids ++ [g]). constructor; try done.
    + intros g'. rewrite Hgs. destruct (decide (g' = g)) as [->|Hne].
      * rewrite lookup_insert_eq, decide_True; [done|set_solver].
      * rewrite lookup_insert_ne, (ck_groups _ _ _ Hc) by done.
        destruct (decide (g' ∈ gids)); [rewrite decide_True by set_solver|rewrite decide_False by set_solver]; done.
    + apply list.NoDup_app. split; [apply Hc|]. split; [|apply list.NoDup_singleton]. set_solver.
    + pose proof (ck_first _ _ _ Hc). set_solver.
    + apply Forall_app. split; [apply Hc|]. constructor; [|constructor].
      unfold Gid1 in Hlt. destruct Hr as (sg & ? & ? & _). split; [lia|by exists sg].
  - intros g' Hne. split.
    + eapply JoinBalance_keeps; [apply Hc|apply Hc|exact Hj].
    + unfold outside. rewrite Hgs. intros ?. by rewrite lookup_insert_ne.
Qed.

(** The configuration without a group that leaves, which is not the last. *)
Lemma leave_next gids c ts (g : Tgid) :
  shared_ok gids c ts → Gid1 < g → inside g c →
  ∃ new, LeaveBalance [g] c = Some (Returned true new) ∧ Num new = Num c + 1 ∧
    (∃ gids', cfg_ok gids' new ts) ∧ respects (λ x, x = g) c new ∧ outside g new.
Proof.
  intros Hs Hlt Hg. pose proof (so_cfg _ _ _ Hs) as Hc.
  destruct (LeaveBalance_one g c) as (new & Hv & Hnum & Hgs & Hl & Ha & Hb).
  - apply Hc.
  - by apply (proj1 (list.Forall_forall _ _) (ck_assigned _ _ _ Hc)).
  - intros He. assert (delete g (Groups c) !! Gid1 = None) as Hd by (by rewrite He, lookup_empty).
    rewrite lookup_delete_ne, (ck_groups _ _ _ Hc), decide_True in Hd; [done|apply Hc|lia].
  - set (gids' := filter (λ x, x ≠ g) gids).
    assert (∀ x, x ∈ gids' ↔ x ≠ g ∧ x ∈ gids) as Hin by (intros x; unfold gids'; by rewrite list_elem_of_filter).
    exists new. split; [done|]. split; [done|]. split; [|split].
    + exists gids'. constructor; try done.
      * intros g'. rewrite Hgs. destruct (decide (g' = g)) as [->|Hne].
        -- rewrite lookup_delete_eq, decide_False; [done|]. rewrite Hin. tauto.
        -- rewrite lookup_delete_ne, (ck_groups _ _ _ Hc) by done.
           destruct (decide (g' ∈ gids)); [rewrite decide_True|rewrite decide_False]; rewrite ?Hin; tauto.
      * apply list.NoDup_filter, Hc.
      * rewrite Hin. split; [lia|apply Hc].
      * apply list.Forall_forall. intros x [_ Hx]%Hin.
        by apply (proj1 (list.Forall_forall _ _) (ck_running _ _ _ Hc)).
    + intros g' Hne. split.
      * intros Hg'. by eapply LeaveBalance_keeps; [apply Hc|apply Hc|exact Hv|done|].
      * unfold outside. rewrite Hgs. intros ?. by rewrite lookup_delete_ne.
    + unfold outside. rewrite Hgs. apply lookup_delete_eq.
Qed.

Lemma joinquery_ok gids c ts g :
  shared_ok gids c ts → thread_ok c ts (KJoinQuery g) → call_ok c ts (KJoinQuery g).
Proof.
  intros Hs [Ho [Hn Hr]].
  destruct (join_next gids c ts g Hs (Ho g eq_refl) (proj1 Hn) Hr) as (new & Hj & Hnum & _).
  exists (KJoinChange g new), ts, gids, c. split.
  { simpl. rewrite (runs_names _ _ Hr). obind. rewrite (so_query _ _ _ Hs). obind.
    rewrite Copy_equal. obind. rewrite Hj. by obind. }
  split; [done|]. split; [by apply interferes_same|]. split; [|auto]. split; [done|].
  split; [done|]. split; [done|]. split; [lia|done].
Qed.

Lemma joinchange_ok gids c ts g new :
  shared_ok gids c ts → thread_ok c ts (KJoinChange g new) → call_ok c ts (KJoinChange g new).
Proof.
  intros Hs [Ho (Hn & Hr & [Hle Hmade])].
  destruct (join_next gids c ts g Hs (Ho g eq_refl) (proj1 Hn) Hr) as (new' & Hj & _ & Hok & Hres).
  destruct (change_ok (λ x, group_of (KJoinCheck g) = Some x ∨ group_of (KJoinChange g new) = Some x) gids c ts new Hs)
    as (gids' & c' & Hs' & Hint & Hcase).
  { split; [done|]. intros He. specialize (Hmade He). rewrite Hj in Hmade. simplify_eq. split; [done|].
    intros g' Hne. apply Hres. intros ->. apply Hne. by left. }
  exists (KJoinCheck g), (set_world (ChangeConfigTo new (st_world ts)) ts), gids', c'.
  split; [done|]. split; [done|]. split; [done|]. split; [|auto]. split; [done|]. split; [|done]. intros Hg.
  destruct Hcase as [[-> _]|(_ & _ & Hnone)]; [|by apply now_and_next_late].
  destruct Hn as [Hout _]. apply (outside_gids _ _ _ g (so_cfg _ _ _ Hs)) in Hout.
  by apply (inside_gids _ _ _ g (so_cfg _ _ _ Hs)) in Hg.
Qed.

Lemma check_ok gids c ts g :
  shared_ok gids c ts → thread_ok c ts (KCheck g) → call_ok c ts (KJoinCheck g) ∧ call_ok c ts (KCheck g).
Proof.
  intros Hs [Ho [Hk Hr]]. assert (checkMember g ts = Some (IsMember g c)) as Hm.
  { unfold checkMember. rewrite (so_query _ _ _ Hs). by obind. }
  split.
  - exists (KCheck g), ts, gids, c. split; [simpl; by rewrite Hm|]. split; [done|].
    split; [by apply interferes_same|]. split; [by split|auto].
  - exists (if IsMember g c then KLeaveQuery g else KSelect), ts, gids, c. split; [simpl; by rewrite Hm|].
    split; [done|]. split; [by apply interferes_same|].
    destruct (IsMember g c) eqn:He; [|by split]. split; [split; [done|]|auto].
    split; [by apply Hk, IsMember_elem|done].
Qed.

Lemma leavequery_ok gids c ts g :
  shared_ok gids c ts → thread_ok c ts (KLeaveQuery g) → call_ok c ts (KLeaveQuery g).
Proof.
  intros Hs [Ho [Hg Hr]]. specialize (Ho g eq_refl) as Hlt.
  destruct (leave_next gids c ts g Hs) as (new & Hl & Hnum & _); [lia|exact (proj1 Hg)|].
  exists (KLeaveChange g new), ts, gids, c. split.
  { simpl. rewrite (so_query _ _ _ Hs). obind. rewrite Copy_equal. obind. rewrite Hl. by obind. }
  split; [done|]. split; [by apply interferes_same|]. split; [|auto]. split; [done|].
  split; [done|]. split; [done|]. split; [lia|done].
Qed.

Lemma leavechange_ok gids c ts g new :
  shared_ok gids c ts → thread_ok c ts (KLeaveChange g new) → call_ok c ts (KLeaveChange g new).
Proof.
  intros Hs [Ho ([Hg Hnext] & Hr & [Hle Hmade])]. specialize (Ho g eq_refl) as Hlt.
  destruct (leave_next gids c ts g Hs) as (new' & Hl & Hnum & Hok & Hres & Hout); [lia|done|].
  assert (Num new = Num c + 1 → new' = new) as Heq.
  { intros He. specialize (Hmade He). rewrite Hl in Hmade. by simplify_eq. }
  destruct (change_ok (λ x, group_of (KLeaveCheck g) = Some x ∨ group_of (KLeaveChange g new) = Some x) gids c ts new Hs)
    as (gids' & c' & Hs' & Hint & Hcase).
  { split; [done|]. intros He. specialize (Heq He) as <-. split; [done|].
    intros g' Hne. apply Hres. intros ->. apply Hne. by left. }
  exists (KLeaveCheck g), (set_world (ChangeConfigTo new (st_world ts)) ts), gids', c'.
  split; [done|]. split; [done|]. split; [done|]. split; [|auto]. split; [done|]. split; [|done].
  destruct Hcase as [[-> Hl']|([Hc'| ->] & Hn' & Hnone)].
  - right. split; [done|]. intros n Hn. destruct (Hl' n Hn) as [Hold| ->]; [left; by apply Hnext|].
    right. by rewrite <-(Heq (proj2 Hn)).
  - right. split; [by apply Hnext|]. intros n Hn. by destruct (Hnone n).
  - left. apply now_and_next_late; [|done]. by rewrite <-(Heq Hn').
Qed.

Lemma leavecheck_ok gids c ts g :
  shared_ok gids c ts → thread_ok c ts (KLeaveCheck g) → call_ok c ts (KLeaveCheck g).
Proof.
  intros Hs [Ho [Hg (sg & Hsg & Hgok & _)]]. unfold call_ok. simpl. unfold checkMember.
  rewrite (so_query _ _ _ Hs). obind. destruct (IsMember g c) eqn:Hm.
  { exists KSelect, ts, gids, c. split; [done|]. split; [done|]. split; [by apply interferes_same|]. by split. }
  assert (g ∉ Shards c) as Hns by (intros ?%IsMember_elem; congruence).
  destruct Hg as [Hout|[? _]]; [|done].
  destruct (Shutdown_total (set_net (cfg_net (st_cfg ts)) sg)) as [sg' Hsh].
  { eapply grp_ok_frame; [exact Hgok|done|done]. }
  eexists KSelect, _, gids, c. split.
  { unfold ExitGroup, on_group, lookupGroup. change (grps (st_cfg ts) !! (g : Z) = Some sg) in Hsg.
    rewrite Hsg. cbn [fmap option_fmap option_map]. obind. rewrite Hsh. by obind. }
  assert (∀ g', g' ≠ g → delete g (<[g := sg']> (grps (st_cfg ts))) !! g' = grps (st_cfg ts) !! g') as Hother.
  { intros g' Hne. by rewrite lookup_delete_ne, lookup_insert_ne. }
  split.
  { eapply shared_ok_frame; [exact Hs|done|done|]. intros g'. simpl.
    destruct (decide (g' = g)) as [->|Hne]; [by right|left; by apply Hother]. }
  split; [|by split]. apply interferes_same; [done|done|]. intros g' Hne (sg0 & H0 & H). exists sg0. simpl.
  rewrite Hother; [done|]. intros ->. apply Hne. by right.
Qed.

Lemma calls_ok gids c ts p :
  shared_ok gids c ts → thread_ok c ts p → p ≠ KStopped → call_ok c ts p.
Proof using All.
  intros Hs Ht Hne. destruct p; try done; eauto using select_ok, init_ok, start_ok, joinquery_ok, joinchange_ok,
    leavequery_ok, leavechange_ok, leavecheck_ok.
  - by apply (check_ok gids c ts gid Hs).
  - by apply (check_ok gids c ts gid Hs).
Qed.

(** *** The invariant holds *)

Lemma ctrl_inv_call s i p gids c :
  concur_inv s gids c → cc_threads s !! i = Some p → p ≠ KStopped →
  ∃ p' ts' gids' c', ctrl_step draw p (cc_test s) = Some (p', ts') ∧
    concur_inv (mkConcur (<[i := p']> (cc_threads s)) ts') gids' c' ∧ Num c <= Num c'.
Proof using All.
  intros Hinv Hi Hne. pose proof (ci_shared _ _ _ Hinv) as Hs.
  destruct (calls_ok gids c (cc_test s) p Hs) as (p' & ts' & gids' & c' & Hst & Hs' & Hint & Hok & Hg);
    [by eapply ci_threads|done|].
  exists p', ts', gids', c'. split; [done|].
  split; [|destruct (if_cfg _ _ _ _ _ Hint) as [[-> _]|[? _]]; lia].
  assert (∀ j q, <[i := p']> (cc_threads s) !! j = Some q → j = i ∧ q = p' ∨ j ≠ i ∧ cc_threads s !! j = Some q)
    as Hcases.
  { intros j q [(<- & <- & _)|[Hij Hq]]%list_lookup_insert_Some; [by left|right; by split]. }
  (* the group of another goroutine is not the one that changed *)
  assert (∀ j q g, j ≠ i → cc_threads s !! j = Some q → group_of q = Some g →
    ¬ (group_of p' = Some g ∨ group_of p = Some g)) as Hother.
  { intros j q g Hij Hq Hgq. assert (group_of p ≠ Some g) as Hp by (intros Hp; by eapply Hij, ci_distinct).
    intros [Hp'|Hp']; [|done]. destruct (Hg g Hp') as [|Hnew]; [done|].
    destruct (ci_threads _ _ _ Hinv j q Hq) as [Ho _]. specialize (Ho g Hgq). lia. }
  constructor; simpl; [done| |].
  - intros j q [(-> & ->)|(Hij & Hq)]%Hcases; [done|].
    eapply thread_ok_interferes; [exact Hint| |by eapply ci_threads]. intros g Hgq. by eapply Hother.
  - intros j k q r g Hq Hr Hgq Hgr. apply Hcases in Hq as [(-> & ->)|(Hji & Hq)], Hr as [(-> & ->)|(Hki & Hr)].
    + done.
    + exfalso. eapply (Hother k); eauto.
    + exfalso. eapply (Hother j); eauto.
    + by eapply ci_distinct.
Qed.

Lemma ctrl_inv_stop s i gids c :
  concur_inv s gids c → concur_inv (mkConcur (<[i := KStopped]> (cc_threads s)) (cc_test s)) gids c.
Proof.
  intros [Hs Ht Hd].
  assert (∀ j q, <[i := KStopped]> (cc_threads s) !! j = Some q → q = KStopped ∨ cc_threads s !! j = Some q) as Hc.
  { intros j q [(_ & <- & _)|[_ Hq]]%list_lookup_insert_Some; auto. }
  constructor; simpl; [done| |].
  - intros j q [->|Hq]%Hc; [by split|by eapply Ht].
  - intros j k q r g Hq Hr Hgq Hgr. apply Hc in Hq as [->|Hq], Hr as [->|Hr]; try done. by eapply Hd.
Qed.

Lemma ctrl_inv_step s s' gids c :
  concur_inv s gids c → concur_step draw s s' → ∃ gids' c', concur_inv s' gids' c' ∧ Num c <= Num c'.
Proof using All.
  intros Hinv [i p p' ts' Hi Hst|i Hi].
  - destruct (ctrl_inv_call s i p gids c Hinv Hi) as (p1 & ts1 & gids' & c' & Hst' & Hinv' & Hnum).
    { by intros ->. }
    rewrite Hst in Hst'. simplify_eq. by exists gids', c'.
  - exists gids, c. split; [by apply ctrl_inv_stop|done].
Qed.

Lemma ctrl_inv_steps s s' gids c :
  rtc (concur_step draw) s s' → concur_inv s gids c → ∃ gids' c', concur_inv s' gids' c' ∧ Num c <= Num c'.
Proof using All.
  intros Hr. revert gids c. induction Hr as [s|s s1 s' Hs _ IH]; intros gids c Hinv; [by exists gids, c|].
  destruct (ctrl_inv_step _ _ _ _ Hinv Hs) as (gids1 & c1 & Hinv1 & H1).
  destruct (IH _ _ Hinv1) as (gids' & c' & Hinv' & H2). exists gids', c'. split; [done|lia].
Qed.

(** A goroutine that is told to stop stops, in at most ten steps of its own. *)
Lemma stop_one n : ∀ s i p gids c,
  calls_left p = n → concur_inv s gids c → cc_threads s !! i = Some p →
  ∃ s' gids' c', rtc (concur_step draw) s s' ∧ concur_inv s' gids' c' ∧
    cc_threads s' = <[i := KStopped]> (cc_threads s).
Proof using All.
  induction n as [n IH] using lt_wf_ind. intros s i p gids c Hn Hinv Hi.
  destruct (decide (calls_left p = 0%nat)) as [H0|H0].
  { destruct p; try done.
    - exists (mkConcur (<[i := KStopped]> (cc_threads s)) (cc_test s)), gids, c.
      split; [apply rtc_once; by apply cs_stop|]. split; [by apply ctrl_inv_stop|done].
    - exists s, gids, c. split; [done|]. split; [done|]. by rewrite list_insert_id. }
  destruct (ctrl_inv_call s i p gids c Hinv Hi) as (p' & ts' & gids' & c' & Hst & Hinv' & _); [by intros ->|].
  assert (calls_left p' < n)%nat as Hlt.
  { rewrite <-Hn. eapply ctrl_step_less; [exact Hst|]. by intros ->. }
  destruct (IH _ Hlt (mkConcur (<[i := p']> (cc_threads s)) ts') i p' gids' c' eq_refl Hinv')
    as (s' & gids2 & c2 & Hr & Hinv2 & Hth).
  { simpl. apply list_lookup_insert_eq. by eapply lookup_lt_Some. }
  exists s', gids2, c2. split; [eapply rtc_l; [by eapply cs_call|done]|]. split; [done|].
  rewrite Hth. simpl. apply list_insert_insert_eq.
Qed.

Lemma stop_all n s gids c :
  concur_inv s gids c → (n <= length (cc_threads s))%nat →
  ∃ s' gids' c', rtc (concur_step draw) s s' ∧ concur_inv s' gids' c' ∧
    cc_threads s' = replicate n KStopped ++ drop n (cc_threads s).
Proof using All.
  intros Hinv. induction n as [|n IH]; intros Hn; [by exists s, gids, c|].
  destruct (IH ltac:(lia)) as (s1 & gids1 & c1 & Hr1 & Hinv1 & Hth1).
  destruct (lookup_lt_is_Some_2 (cc_threads s) n) as [p Hp]; [lia|].
  rewrite (drop_S _ _ _ Hp) in Hth1.
  destruct (stop_one _ s1 n p gids1 c1 eq_refl Hinv1) as (s2 & gids2 & c2 & Hr2 & Hinv2 & Hth2).
  { rewrite Hth1, lookup_app_r; rewrite length_replicate; [|done]. by rewrite Nat.sub_diag. }
  exists s2, gids2, c2. split; [by etrans|]. split; [done|].
  rewrite Hth2, Hth1, insert_app_r_alt; rewrite length_replicate; [|done].
  by rewrite Nat.sub_diag, replicate_S_end, <-app_assoc.
Qed.

(** C39. The goroutines of concurCtrler, each joining and leaving with new groups
    through a controller of its own while the others do the same, with controllers
    that supersede each other: a change takes effect from the current configuration
    to the next one or not at all, in its call or in a later call that recovers it,
    an InitController included.  Whatever the interleaving of their calls, none of
    the goroutines panics or calls log.Fatalf; the current configuration, whose
    number only grows, always passes CheckConfig for some groups, group 1 among
    them, and every shard belongs to a group that has been started and not shut
    down, as will be so in every configuration that a change under way leads to;
    and all goroutines stop when they are told to. *)
Theorem concurrent_controllers gids0 c0 (s0 s : Concur (W:=W)) :
  shared_ok gids0 c0 (cc_test s0) → cc_threads s0 = replicate ConcurN KSelect →
  rtc (concur_step draw) s0 s →
  (∀ i p, cc_threads s !! i = Some p → p ≠ KStopped → is_Some (ctrl_step draw p (cc_test s))) ∧
  (∃ gids c, Query (st_world (cc_test s)) = Some c ∧ Num c0 <= Num c ∧ CheckConfig gids c = true ∧
     Gid1 ∈ gids ∧
     ∀ n g, n = c ∨ live c (cc_test s) n → g ∈ Shards n →
       Groups n !! g = Some (grp_names g) ∧ is_Some (lookupGroup g (st_cfg (cc_test s)))) ∧
  ∃ s', rtc (concur_step draw) s s' ∧ cc_threads s' = replicate ConcurN KStopped.
Proof using All.
  intros Hs0 Hth0 Hr.
  assert (concur_inv s0 gids0 c0) as Hinv0.
  { constructor; [done| |]; rewrite Hth0.
    - intros i p [-> _]%lookup_replicate. by split.
    - intros i j p q g [-> _]%lookup_replicate _ Hg. done. }
  destruct (ctrl_inv_steps _ _ _ _ Hr Hinv0) as (gids & c & Hinv & Hnum).
  split; [|split].
  - intros i p Hi Hne. destruct (ctrl_inv_call s i p gids c Hinv Hi Hne) as (p' & ts' & _ & _ & -> & _). by eexists.
  - pose proof (ci_shared _ _ _ Hinv) as Hs.
    exists gids, c. split; [apply Hs|]. split; [done|].
    split; [by eapply test_ok_check, shared_test_ok|]. split; [apply Hs|].
    intros n g Hn Hg. assert (∃ gids', cfg_ok gids' n (cc_test s)) as [gids' Hc].
    { destruct Hn as [->|Hn]; [exists gids; apply Hs|by eapply so_live]. }
    pose proof (inside_gids _ _ _ g Hc Hg) as Hin. rewrite (ck_groups _ _ _ Hc), decide_True by done. split; [done|].
    apply (proj1 (list.Forall_forall _ _) (ck_running _ _ _ Hc)) in Hin as (_ & sg & Hsg & _).
    by eapply lookupGroup_grps.
  - assert (length (cc_threads s) = ConcurN) as Hlen.
    { assert (length (cc_threads s0) = ConcurN) as Hl0 by by rewrite Hth0.
      clear -Hr Hl0. induction Hr as [|s0 s1 s Hs _ IH]; [done|]. apply IH.
      destruct Hs; simpl; by rewrite length_insert. }
    destruct (stop_all ConcurN s gids c Hinv) as (s' & _ & _ & Hr' & _ & Hth'); [lia|].
    exists s'. split; [done|]. rewrite Hth', drop_ge, app_nil_r; [done|lia].
Qed.

End Proofs.

(** ** Instances *)

(** The calls of the goroutines in the order of a list of their numbers. *)
Section Run.
Context {W : Type} `{!ShardCtrler W} (draw : Config → list (list string) * list (list string * nat)).

Fixpoint concur_run (calls : list nat) (s : Concur (W:=W)) : option (Concur (W:=W)) :=
  match calls with
  | [] => Some s
  | i :: calls =>
      p ← cc_threads s !! i;
      '(p', ts') ← ctrl_step draw p (cc_test s);
      concur_run calls (mkConcur (<[i := p']> (cc_threads s)) ts')
  end.

Lemma concur_run_sound calls : ∀ s s', concur_run calls s = Some s' → rtc (concur_step draw) s s'.
Proof.
  induction calls as [|i calls IH]; intros s s' Hr; simpl in Hr; [by simplify_eq|].
  destruct (cc_threads s !! i) as [p|] eqn:Hi; [|done]. simpl in Hr.
  destruct (ctrl_step draw p (cc_test s)) as [[p' ts']|] eqn:Hs; [|done]. simpl in Hr.
  eapply rtc_l; [by eapply cs_call|]. by apply IH.
Qed.

End Run.

(** A controller that stores the next configuration and, with those of even
    number, is superseded before the change takes effect; the next controller that
    is started completes it. *)
Record Recovering := mkRecovering { current : option ShardConfig; to_recover : option ShardConfig }.

#[export] Instance recovering_ctrler : ShardCtrler Recovering := {
  InitController w :=
    match current w, to_recover w with
    | Some cfg, Some next => if Num next =? Num cfg + 1 then mkRecovering (Some next) None else w
    | _, _ => w
    end;
  InitConfig cfg w := mkRecovering (Some cfg) None;
  ChangeConfigTo new w :=
    match current w with
    | Some cfg =>
        if Num new =? Num cfg + 1 then
          if Z.even (Num new) then mkRecovering (Some cfg) (Some new) else mkRecovering (Some new) None
        else w
    | None => w
    end;
  Query := current
}.

#[export] Instance recovering_shared : SharedCtrler Recovering.
Proof.
  refine {| asked w n := to_recover w = Some n |}.
  - intros cfg new [g q] Hg. simpl in *. subst g. destruct (_ =? _) eqn:He; [|by left]. bool_to_prop.
    destruct (Z.even _); [by left|]. right. exists new. split; [by left|done].
  - intros new [[cfg|] q] next; simpl; [|by right]. destruct (_ =? _); [|by right].
    destruct (Z.even _); [intros [= ->]; by left|done].
  - intros cfg [g [q|]] Hg; simpl in *; subst g; [|by left]. destruct (_ =? _) eqn:He; [|by left]. bool_to_prop.
    right. by exists q.
  - intros [[cfg|] [q|]] next; simpl; try done. by destruct (_ =? _).
Defined.

(** What is known of a test does not depend on where its configuration is stored. *)
Definition in_world {W W'} (w : W') (ts : ShardTest (W:=W)) : ShardTest (W:=W') :=
  mkShardTest (st_ngid ts) (st_cfg ts) w.

Lemma cfg_ok_world {W W'} `{!ShardCtrler W} gids c (ts : ShardTest (W:=W)) (w : W') :
  test_ok gids c ts → Gid1 ∈ gids → Forall (λ g, g < st_ngid ts) gids → cfg_ok gids c (in_world w ts).
Proof.
  intros [] Hf Hn. constructor; try done. apply list.Forall_forall. intros g Hg.
  rewrite list.Forall_forall in Hn, tk_pos. split; [split; auto|]. by apply tk_running.
Qed.

Definition recovering_start : option (Concur (W:=Recovering)) :=
  '(_, ts) ← setupKVService draw_fresh fresh_test;
  Some (mkConcur (replicate ConcurN KSelect) (in_world (mkRecovering (Query (st_world ts)) None) ts)).

(** Goroutine 0 asks for group 2 to join and is superseded; the controller of
    goroutine 1 completes the change when it is started. *)
Definition recovery : list nat := [0; 0; 0; 0; 0; 1; 1]%nat.

Example recovery_completes :
  (s0 ← recovering_start; s ← concur_run draw_fresh recovery s0; checkMember 2 (cc_test s)) = Some true.
Proof. vm_compute. reflexivity. Qed.

(** The goroutines after that recovery. *)
Lemma concurrent_controllers_witness :
  ∃ s s' : Concur (W:=Recovering),
    checkMember 2 (cc_test s) = Some true ∧ rtc (concur_step draw_fresh) s s' ∧
    cc_threads s' = replicate ConcurN KStopped ∧
    ∃ gids c, Query (st_world (cc_test s)) = Some c ∧ 1 <= Num c ∧ CheckConfig gids c = true ∧ Gid1 ∈ gids.
Proof.
  pose proof recovery_completes as (s0 & Hs0 & (s & Hrun & Hm)%bind_Some)%bind_Some.
  assert (Query (st_world fresh_test) = None) as Hq by reflexivity.
  destruct (setup_ok draw_fresh draw_fresh_ok fresh_test Hq) as (c & ts & Hsetup & Hok & Hnum & Hid).
  unfold recovering_start in Hs0. rewrite Hsetup in Hs0. cbn [mbind option_bind] in Hs0.
  apply (inj Some) in Hs0. rewrite (tk_query _ _ _ Hok) in Hs0.
  assert (shared_ok [Gid1] c (cc_test s0)) as Hsh.
  { rewrite <-Hs0. cbn [cc_test]. constructor; [reflexivity| |done|by intros n [? _]].
    apply cfg_ok_world; [exact Hok|by left|]. constructor; [rewrite Hid; reflexivity|constructor]. }
  assert (cc_threads s0 = replicate ConcurN KSelect) as Hth0 by (by rewrite <-Hs0).
  destruct (concurrent_controllers draw_fresh draw_fresh_ok [Gid1] c s0 s Hsh Hth0
    (concur_run_sound draw_fresh recovery s0 s Hrun)) as (_ & (gids & c' & H1 & H2 & H3 & H4 & _) & s' & Hr & Hth).
  exists s, s'. split; [exact Hm|]. split; [exact Hr|]. split; [exact Hth|].
  exists gids, c'. rewrite <-Hnum. exact (conj H1 (conj H2 (conj H3 H4))).
Defined.

(** *** The promise is needed *)

(** Names by the number of ends there are. *)
Definition draw_numbered (cfg : Config) : list (list string) * list (list string * nat) :=
  let e := λ i, ("e" +:+ pretty (Z.of_nat (size (ends (cfg_net cfg))) + i)) in
  ([[e 0; e 1; e 2]; [e 3; e 4; e 5]; [e 6; e 7; e 8]],
   [([e 9; e 10; e 11], 0%nat); ([e 12; e 13; e 14], 1%nat); ([e 15; e 16; e 17], 2%nat)]).

Definition stored_start : option (Concur (W:=Stored)) :=
  '(_, ts) ← setupKVService draw_numbered fresh_test; Some (mkConcur (replicate ConcurN KSelect) ts).

(** Goroutine 0 joins and has been seen to be a member; goroutine 1, which asked
    for the configuration before that, overwrites it. *)
Definition overwriting : list nat := [0; 0; 0; 0; 1; 1; 1; 1; 0; 0; 0; 1]%nat.

Example overwriting_fatal :
  (s0 ← stored_start; s ← concur_run draw_numbered overwriting s0; p ← cc_threads s !! 0%nat;
   Some (p, bool_decide (is_Some (ctrl_step draw_numbered p (cc_test s))))) = Some (KLeaveQuery 2, false).
Proof. vm_compute. reflexivity. Qed.

(** The promise that a controller keeps when it is alone is not enough: with one
    that stores every configuration it is given, a goroutine of concurCtrler can
    find that its group, which it has just seen among the members, is not in the
    configuration any more, and log.Fatalf ends the test. *)
Theorem sole_controllers_fatal :
  ∃ (s0 s : Concur (W:=Stored)) gid, stored_start = Some s0 ∧ rtc (concur_step draw_numbered) s0 s ∧
    cc_threads s !! 0%nat = Some (KLeaveQuery gid) ∧ ctrl_step draw_numbered (KLeaveQuery gid) (cc_test s) = None.
Proof.
  pose proof overwriting_fatal as (s0 & Hs0 & (s & Hrun & (p & Hp & [= -> Hn])%bind_Some)%bind_Some)%bind_Some.
  exists s0, s, 2. split; [done|]. split; [by eapply concur_run_sound|]. split; [done|].
  apply bool_decide_eq_false in Hn. by apply eq_None_not_Some.
Qed.
